(* ===== verification/_CoqProject ===== *)
-Q . S2P
Prelude.v
AsyncIO.v
Text.v
Utf8.v
Loan.v
Wire.v
Resumable.v
ResumableString.v
ResumableBlock.v
Disk.v
Fs.v
OrderedChannel.v
HashFile.v
Digests.v
Pipeline.v
PipelineInv.v
HashStream.v
Hasher.v
Diligent.v
Overwrite.v
Handshake.v
Program.v
RemoteStart.v
Server.v
Client.v
Sync.v
Progress.v
Rounds.v
Session.v
Main.v
Testing.v
CommonTests.v
SyncTests.v
HashTests.v
