(* ===== verification/Prelude.v ===== *)
(** * deltasync, verified

    deltasync (src/, a Rust program) copies a large file to a remote machine by
    sending only the blocks whose digest differs there.  One program plays both
    parts.  The server (src/src/server.rs) answers one client at a time: after a
    handshake it hashes its destination file with a number of worker threads,
    sends the hashes of the blocks in order, and writes every block it receives
    at its offset.  The client (src/src/client.rs) hashes its source in the same
    way, compares, and sends the blocks that differ.  Both event loops are
    [tokio::select!]s that drop and recreate their futures all the time, so all
    transfers are resumable (src/src/common.rs); the workers hand over their
    blocks through an ordered channel, on loan (src/src/sync.rs,
    src/src/hash_file.rs); src/src/main.rs starts either part, and
    src/src/remote_start.rs starts the server over SSH.

    ** The files, in the order they build on each other

    - [Prelude]: bytes, 64-bit wrapping integers (release profile, usize of 64
      bits), big-endian conversions, lists; the hint databases.
    - [AsyncIO]: errors and results; a poll; the interfaces of the transports
      ([AsyncRead], [AsyncWrite], [Stream]) with their documented laws, what may
      be assumed besides (stalls that end, [LiveRead], [Reliable]), and
      transports that satisfy them: scripts, and a [Socket] to which bytes arrive.
    - [Text]: literals, decimal numbers, [str::trim], paths, and [absolute_path]
      of src/src/utils.rs over the interface [PathClean].
    - [Utf8]: the validation of [String::from_utf8].
    - [Loan]: [loan], [Loan], [Reclaim] of sync.rs over the interface [Oneshot].
    - [Wire]: the constants, statuses and strings of common.rs, lines 6-70.
    - [Resumable]: the loops shared by the resumable operations; [parses], what
      a byte sequence holds when it is parsed item by item.
    - [ResumableString], [ResumableBlock]: the five resumable readers and writers
      of common.rs, lines 73-310, a Module each.  A state has the fields of the
      struct; [read_on], [write_to] run to the next suspension, [resume] goes on
      from one; dropping the future and calling again is calling [read_on].
    - [Disk]: the file being written, as an object written at a position.
    - [Fs]: std::fs, with an oracle for what the system refuses.
    - [OrderedChannel]: sync.rs, lines 59-216: mutex, condition variable (with
      spurious wakeups), sequence numbers; a step relation whose steps are the
      critical sections, over the interface [Mpsc] of tokio's channel.
    - [HashFile]: [hash_data] and the loop of one worker of hash_file.rs.
    - [Pipeline], [PipelineInv], [HashStream]: all workers with the channel, the
      loans, the watch channel of errors, [HashStream::recv] and its drop, as a
      transition system in which the file may change at any time; its
      invariant; its properties.
    - [Hasher]: the interface through which the event loops use [HashStream], the
      proof that the pipeline under any schedule implements it, and two
      reference implementations: of a file in memory, of a file that changes.
    - [Diligent]: the pipeline whose workers get their turn: it does not stall for
      good and so implements the interface under which the loops end.
    - [Overwrite]: the hash stream while blocks it has delivered are overwritten.
    - [Handshake]: server.rs, lines 13-79, and client.rs, lines 28-66.
    - [Program]: programs of calls answered by an arbitrary environment.
    - [RemoteStart]: remote_start.rs, as such a program.
    - [Server], [Client]: the event loops, server.rs lines 84-158 and client.rs
      lines 75-164, as machines whose step is the poll of one branch of the
      [select!], in the order of the branches ([biased]).
    - [Sync]: the two loops joined by the bytes they exchange, as a step relation
      ([jstep]): an end polls a branch, some of the bytes the other has sent
      arrive, the connection ends, the workers of the server read the destination
      as its loop has written it.  Any sequence of steps is a run; the invariant
      of the joint state ([jinv]).
    - [Progress], [Rounds]: what is left to do at each end, and that every poll
      does some of it when the objects do not fail; the two ends under a scheduler
      that takes turns ([round]).
    - [Session]: [process_new_client] and [new_process] as one function each, and
      a whole session of the two.
    - [Main]: [main] from the command line to its mode, and the accept loop.
    - [Digests]: CRC-32C, MD5 and their hexadecimal form, with which the witnesses
      and the tests run.
    - [Testing], [CommonTests], [SyncTests], [HashTests]: the unit tests of
      common.rs, sync.rs, hash_file.rs and utils.rs, replayed on the model.

    ** What the theorems show

    - Sessions ([Session], [Rounds], [Handshake]): a session that ends without an
      I/O error leaves exactly the source in the destination and no other file
      changed ([session_correct]), whatever the interleaving of its ends; that
      the server overwrites the file it is hashing does no harm, since the writes
      stay behind ([writes_stay_behind]); on objects that do not fail, sessions do
      end, and so leave the source in the destination ([session_completes],
      [rounds_deliver]).  The two handshakes agree on every branch, and no file
      is touched for a client that has not sent the secret.
    - Event loops ([Server], [Client]): what was received is what is written, in
      order; the bytes sent are the frames of the hashes, of the differing
      blocks; every state of the server is well formed; both loops end once the
      other side has sent everything; and where they do not: a client whose hashes stop coming waits for ever, a failed
      write is taken for a success.
    - Accept loop, command line, remote start ([Main], [RemoteStart]): one client
      at a time; a panic of its task blocks the server for ever; nothing is run
      on a remote end before authentication, and the server there gets the
      secret and the port the client goes on to use.
    - Hashing ([HashFile], [HashStream], [Diligent], [Overwrite]): every block once,
      in order, whatever the interleaving, the cancellations and the changes of the
      file; all of them after boundedly many polls ([hash_stream_delivers]);
      bounded memory; progress; the end on an error and on a drop, with the two
      defects found there (an error that is lost, a drop that never returns).
    - Ordered channel ([OrderedChannel]): order, cancellation, no lost wakeup,
      close, bound.
    - Tests ([CommonTests], [SyncTests], [HashTests]): the model gives what the
      program's own tests expect, the MD5 of the blocks of test/file_to_hash.txt
      included; the tests of the ordered channel hold in all interleavings of
      their threads, found by visiting every state ([explore_sound]).
    - Resumable transfers ([ResumableString], [ResumableBlock]): equivalence with
      a parse in one go, round trips, cancellation; and, outside their domain,
      an offset beyond the end of the file and a writer that takes nothing.

    ** Conventions

    Third-party code (tokio, the digests, hex, path_clean, ssh2) is a class of
    operations and a class of the laws their documentation states; each is
    implemented by a concrete instance in the same file, with which the
    witnesses run.  Overflow is written out ([wadd], [wmul], [wsub] of this
    file), and theorems about sizes have the hypothesis [sane] of HashFile.v:
    nothing overflows for a file, a block size and a number of workers with
    size + workers * block size < 2^63.

    Fuel: the write loops have a fuel because a writer may take 0 bytes for
    ever; the length of the buffer is enough for a writer that takes at least
    one byte a poll ([WriteProgress]).  The read loops compute
    theirs from the buffer.  [server_run] and [client_run] count polls of
    branches; [server_loop_ends] and [client_loop_ends] bound how many are
    enough by the bytes, the blocks and the pending polls of the run;
    [rounds_deliver] counts rounds, of which [left_over] of the start are enough.
    [worker_loop] needs as much fuel as blocks, and [copy_loop] of RemoteStart.v
    as the executable has bytes.

    ** Not modelled

    clap's parsing of the arguments, println! and eprintln!, Daemonize and the
    socket calls (connect, bind) beyond their results, the [cfg(test)] hooks of
    sync.rs beyond their effect in the tests.  [file.flush] and [file.sync_data]
    are operations of [DiskFile] that keep the content.  Allocation never fails.  A panic is modelled only
    where the code asks for one ([unwrap] in remote_start.rs) and as the end of
    a task in Main.v; arithmetic is that of a release build. *)

From stdpp Require Import base option list numbers gmap.
From Stdlib Require Import NArith Lia.
From Stdlib.Strings Require Byte.

(** ** Bytes *)

Abbreviation byte := Byte.byte.
Abbreviation bytes := (list Byte.byte).

Declare Scope dsync_scope.
Delimit Scope dsync_scope with dsync.

(** [b as u64]: the unsigned value of a byte. *)
Definition byte_val (b : byte) : N := Byte.to_N b.

(** [(n & 0xFF) as u8]: the low byte of an integer. *)
Definition byte_of (n : N) : byte := default Byte.x00 (Byte.of_N (n mod 256)).

#[global] Instance byte_eq_dec : EqDecision byte := Byte.byte_eq_dec.

(** ** Machine integers: u64 and (on the 64-bit targets the release builds) usize *)

Definition W64 : N := 2 ^ 64.

(** Arithmetic of the release profile: overflow wraps. *)
Definition wrap64 (n : N) : N := n mod W64.
Definition wadd (a b : N) : N := wrap64 (a + b).
Definition wsub (a b : N) : N := wrap64 (a + (W64 - wrap64 b)).
Definition wmul (a b : N) : N := wrap64 (a * b).
Definition wshl (a k : N) : N := wrap64 (N.shiftl a k).

(** ** Lengths and slices indexed by usize *)

Definition lenN {A} (l : list A) : N := N.of_nat (length l).

(** [buf[off..off + bs.len()].copy_from_slice(bs)], the effect of a read into a slice. *)
Definition write_at (buf : bytes) (off : nat) (bs : bytes) : bytes :=
  take off buf ++ bs ++ drop (off + length bs) buf.

(** Big-endian value of a byte string. *)
Definition be_val (bs : bytes) : N := fold_left (λ acc b, acc * 256 + byte_val b)%N bs 0%N.

(** The [n] low bytes of [v], most significant first. *)
Fixpoint be_bytes (n : nat) (v : N) : bytes :=
  match n with
  | O => []
  | S n' => be_bytes n' (v / 256) ++ [byte_of v]
  end.

(** ** Automation *)

Create HintDb dsync discriminated.
Create Rewrite HintDb dslen.

#[export] Hint Rewrite @length_app @length_take @length_drop @length_replicate
  @length_cons @length_nil @length_insert @length_fmap @length_resize : dslen.

(** Arithmetic about list lengths. *)
Ltac len_lia :=
  unfold lenN in *; autorewrite with dslen in *; cbn [length] in *; lia.

(** ** Bytes and big-endian integers *)

Lemma byte_val_lt b : (byte_val b < 256)%N.
Proof. unfold byte_val. pose proof (Byte.to_N_bounded b). lia. Qed.

Lemma byte_val_of n : byte_val (byte_of n) = (n mod 256)%N.
Proof.
  unfold byte_val, byte_of.
  assert (n mod 256 < 256)%N by (apply N.mod_lt; lia).
  destruct (Byte.of_N (n mod 256)) as [b|] eqn:E; simpl.
  - by apply Byte.to_of_N.
  - apply Byte.of_N_None_iff in E. lia.
Qed.

Lemma byte_of_val b : byte_of (byte_val b) = b.
Proof.
  unfold byte_of. rewrite N.mod_small by apply byte_val_lt.
  unfold byte_val. by rewrite Byte.of_to_N.
Qed.

Lemma byte_val_inj b1 b2 : byte_val b1 = byte_val b2 → b1 = b2.
Proof. intros E. by rewrite <-(byte_of_val b1), E, byte_of_val. Qed.

Lemma be_val_acc bs acc :
  fold_left (λ acc b, acc * 256 + byte_val b)%N bs acc
  = (acc * 256 ^ lenN bs + be_val bs)%N.
Proof.
  revert acc. unfold be_val. induction bs as [|b bs IH]; intros acc; cbn [fold_left].
  - change (lenN []) with 0%N. simpl. lia.
  - rewrite IH, (IH (0 * 256 + byte_val b)%N).
    replace (lenN (b :: bs)) with (N.succ (lenN bs)) by len_lia.
    rewrite N.pow_succ_r'. lia.
Qed.

Lemma be_val_app bs1 bs2 :
  be_val (bs1 ++ bs2) = (be_val bs1 * 256 ^ lenN bs2 + be_val bs2)%N.
Proof. unfold be_val at 1. rewrite fold_left_app. apply be_val_acc. Qed.

Lemma be_val_snoc bs b : be_val (bs ++ [b]) = (be_val bs * 256 + byte_val b)%N.
Proof. unfold be_val. by rewrite fold_left_app. Qed.

Lemma be_val_bound bs : (be_val bs < 256 ^ lenN bs)%N.
Proof.
  induction bs as [|b bs IH] using rev_ind; [vm_compute; done|].
  rewrite be_val_snoc.
  replace (lenN (bs ++ [b])) with (N.succ (lenN bs)) by len_lia.
  rewrite N.pow_succ_r'. pose proof (byte_val_lt b). lia.
Qed.

Lemma length_be_bytes n v : length (be_bytes n v) = n.
Proof.
  revert v. induction n; intros v; cbn [be_bytes]; [done|].
  rewrite length_app, IHn. simpl; lia.
Qed.

Lemma be_val_bytes n v : be_val (be_bytes n v) = (v mod 256 ^ N.of_nat n)%N.
Proof.
  revert v. induction n as [|n IH]; intros v; cbn [be_bytes].
  - by rewrite N.mod_1_r.
  - rewrite be_val_snoc, IH, byte_val_of, Nat2N.inj_succ, N.pow_succ_r'.
    rewrite N.Div0.mod_mul_r. lia.
Qed.

Lemma be_bytes_val bs : be_bytes (length bs) (be_val bs) = bs.
Proof.
  induction bs as [|b bs IH] using rev_ind; [done|].
  rewrite length_app, be_val_snoc, Nat.add_comm. cbn [length be_bytes Nat.add].
  pose proof (byte_val_lt b).
  replace ((be_val bs * 256 + byte_val b) / 256)%N with (be_val bs) by
    (rewrite N.div_add_l by lia; rewrite N.div_small by done; lia).
  rewrite IH. f_equal. f_equal. apply byte_val_inj. rewrite byte_val_of.
  rewrite N.add_comm, N.Div0.mod_add, N.mod_small; done.
Qed.

Lemma be_val_bytes8 v : (v < W64)%N → be_val (be_bytes 8 v) = v.
Proof. intros H. rewrite be_val_bytes. by apply N.mod_small. Qed.

Lemma be_bytes8_val bs : length bs = 8%nat → be_bytes 8 (be_val bs) = bs.
Proof. intros H. pose proof (be_bytes_val bs) as E. by rewrite H in E. Qed.

Lemma be_val8_bound bs : length bs = 8%nat → (be_val bs < W64)%N.
Proof. intros H. pose proof (be_val_bound bs) as B. unfold lenN in B. by rewrite H in B. Qed.

(** A pair whose second component is known. *)
Lemma pair_of {A B} (p : A * B) (b : B) : p.2 = b → p = (p.1, b).
Proof. destruct p. by intros <-. Qed.

(** ** Wrapping arithmetic that does not wrap *)

Lemma wadd_small a b : (a + b < W64)%N → wadd a b = (a + b)%N.
Proof. apply N.mod_small. Qed.

Lemma wmul_small a b : (a * b < W64)%N → wmul a b = (a * b)%N.
Proof. apply N.mod_small. Qed.

Lemma wsub_small a b : (b ≤ a)%N → (a < W64)%N → wsub a b = (a - b)%N.
Proof.
  intros H1 H2. unfold wsub, wrap64. rewrite (N.mod_small b) by lia.
  replace (a + (W64 - b))%N with ((a - b) + 1 * W64)%N by lia.
  rewrite N.Div0.mod_add. apply N.mod_small. lia.
Qed.

(** ** Sums of lengths, and counting by index *)

Lemma length_concat_le {A} (f : A → bytes) xs m :
  (∀ x, x ∈ xs → length (f x) ≤ m)%nat → (length (concat (f <$> xs)) ≤ length xs * m)%nat.
Proof.
  induction xs as [|x xs IH]; intros Hm; cbn; [done|]. rewrite length_app.
  assert (length (f x) ≤ m)%nat by (apply Hm; left).
  assert (length (concat (f <$> xs)) ≤ length xs * m)%nat; [|lia]. apply IH. intros y Hy. apply Hm. by right.
Qed.

Lemma length_omap_le {A B} (f : A → option B) xs : (length (omap f xs) ≤ length xs)%nat.
Proof. induction xs as [|x xs IH]; cbn; [done|]. destruct (f x); cbn; lia. Qed.

Lemma indices_below {A} (xs : list A) (m : N) :
  (∀ k x, xs !! k = Some x → (N.of_nat k < m)%N) → (length xs ≤ N.to_nat m)%nat.
Proof.
  intros Hk. destruct (decide (length xs ≤ N.to_nat m)%nat) as [|Hlt]; [done|].
  destruct (lookup_lt_is_Some_2 xs (N.to_nat m)) as [x Hx]; [lia|]. apply Hk in Hx. lia.
Qed.

Lemma prefix_drop {A} (l1 l2 : list A) : l1 `prefix_of` l2 → l1 ++ drop (length l1) l2 = l2.
Proof. intros [t ->]. by rewrite drop_app_length. Qed.

(** ** Writing into a slice of a buffer *)

Lemma length_write_at buf off bs :
  off + length bs ≤ length buf → length (write_at buf off bs) = length buf.
Proof. intros H. unfold write_at. len_lia. Qed.

Lemma take_write_at buf off bs :
  off + length bs ≤ length buf →
  take (off + length bs) (write_at buf off bs) = take off buf ++ bs.
Proof.
  intros H. unfold write_at. rewrite (assoc_L (++)).
  apply take_app_length'. len_lia.
Qed.

#[export] Hint Rewrite length_be_bytes : dslen.

(** Values that [simpl] must not expand. *)
#[global] Arguments be_bytes : simpl never.
#[global] Arguments be_val : simpl never.
#[global] Arguments W64 : simpl never.
#[global] Arguments wadd : simpl never.
#[global] Arguments wsub : simpl never.
#[global] Arguments wmul : simpl never.
#[global] Arguments wshl : simpl never.
