(* ===== verification/AsyncIO.v ===== *)
(** Errors, results and the transport interfaces.

    deltasync runs on tokio and std I/O objects.  std's error kinds and
    [anyhow::Error] are data here; tokio's I/O traits are interfaces: the
    classes [AsyncRead], [AsyncWrite] (one poll of a read or a write, the only
    await points of the resumable operations of src/src/common.rs) and
    [Stream] (the blocking-style calls of the handshakes), each with the class
    of laws its documentation states.  The scripted transports at the end
    implement them and play the part of the [Cursor] and [duplex] of the
    tests. *)

From stdpp Require Import base option list numbers strings.
From Stdlib Require Import NArith Lia.
From S2P Require Import Prelude.

(** ** Errors and results *)

(** The kinds of [std::io::Error] the code tells apart, and the rest. *)
Inductive ErrorKind :=
  | EkNotFound
  | EkPermissionDenied
  | EkUnexpectedEof
  | EkBrokenPipe
  | EkOther (code : N).

#[global] Instance ErrorKind_eq_dec : EqDecision ErrorKind.
Proof. solve_decision. Defined.

(** The messages of a hash worker, with the I/O error they show. *)
Inductive WorkerError :=
  | FailedToOpen (k : ErrorKind)
  | FailedToSeek (k : ErrorKind)
  | FailedToReadBlock (block_idx : N) (k : ErrorKind)
  | FailedToSeekNext (k : ErrorKind).

#[global] Instance WorkerError_eq_dec : EqDecision WorkerError.
Proof. solve_decision. Defined.

(** [anyhow::Error]: where it comes from.  [EMsg] is [anyhow!(..)] and
    [bail!(..)] with a constant message. *)
Inductive Error :=
  | EIo (k : ErrorKind)
  | EMsg (msg : string)
  | EStringTooLong (size max : N)
  | EFromUtf8
  | ETryFromInt
  | EHashWorker (e : WorkerError).

#[global] Instance Error_eq_dec : EqDecision Error.
Proof. solve_decision. Defined.

(** ["Connection closed by peer"] *)
Definition EClosed : Error := EMsg "Connection closed by peer".

Inductive Result (A : Type) :=
  | Ok (a : A)
  | Err (e : Error).
Arguments Ok {A} a.
Arguments Err {A} e.

(** ** Computations over a state that may fail, [?] being the bind *)

Definition IO (S A : Type) : Type := S → Result A * S.

#[global] Instance IO_ret {S} : MRet (IO S) := λ A a s, (Ok a, s).

#[global] Instance IO_bind {S} : MBind (IO S) := λ A B f m s,
  match m s with
  | (Ok a, s') => f a s'
  | (Err e, s') => (Err e, s')
  end.

Definition io_fail {S A} (e : Error) : IO S A := λ s, (Err e, s).

(** Result of a pure fallible conversion. *)
Definition io_lift {S A} (r : Result A) : IO S A := λ s, (r, s).

(** ** Polling *)

Inductive Poll (A : Type) :=
  | Ready (a : A)
  | Pending.
Arguments Ready {A} a.
Arguments Pending {A}.

(** How a run of an async operation ends: it returns; or it is suspended at an
    await point [pc], where [select!] may drop it; [OutOfFuel] is a loop that
    iterates more often than the fuel of its model allows. *)
Inductive Outcome (Pc A : Type) :=
  | Returned (r : Result A)
  | Suspended (pc : Pc)
  | OutOfFuel.
Arguments Returned {Pc A} r.
Arguments Suspended {Pc A} pc.
Arguments OutOfFuel {Pc A}.

(** *** [tokio::io::AsyncReadExt::read]

    [poll_read r cap] polls a read into a slice of [cap] bytes.  [incoming r]
    is the sequence of bytes the transport delivers from [r] on. *)
Class AsyncRead (R : Type) := {
  poll_read : R → nat → Poll (Result bytes) * R;
  incoming : R → bytes;
}.

(** What the documentation promises: at most [cap] bytes are read, in order and
    without loss; a read of zero bytes into a non-empty slice means the end of
    the stream; a pending poll reads nothing (cancel safety). *)
Class AsyncReadLaws (R : Type) `{!AsyncRead R} : Prop := {
  read_ready r cap bs r' : poll_read r cap = (Ready (Ok bs), r') →
    length bs ≤ cap ∧ incoming r = bs ++ incoming r';
  read_eof r cap r' : poll_read r cap = (Ready (Ok []), r') → 0 < cap →
    incoming r = [];
  read_pending r cap r' : poll_read r cap = (Pending, r') →
    incoming r' = incoming r;
  read_error r cap e r' : poll_read r cap = (Ready (Err e), r') →
    ∃ k, e = EIo k;
}.

(** A transport that is pending only finitely often, [stalls] times at most. *)
Class FairRead (R : Type) `{!AsyncRead R} := {
  stalls : R → nat;
  stalls_pending r cap r' : poll_read r cap = (Pending, r') → stalls r' < stalls r;
  stalls_ready r cap x r' : poll_read r cap = (Ready x, r') → stalls r' ≤ stalls r;
}.

(** A transport that knows whether its end has been reached: only then a read
    of zero bytes. *)
Class LiveRead (R : Type) `{!AsyncRead R} := {
  ended : R → bool;
  read_eof_ended r cap r' : poll_read r cap = (Ready (Ok []), r') → 0 < cap → ended r = true;
  read_keeps_ended r cap x r' : poll_read r cap = (x, r') → ended r' = ended r;
}.

(** *** [tokio::io::AsyncWriteExt::write]

    [poll_write w buf] offers a buffer and returns how many of its first bytes
    were taken; [written w] is the sequence of all bytes taken so far. *)
Class AsyncWrite (W : Type) := {
  poll_write : W → bytes → Poll (Result nat) * W;
  written : W → bytes;
}.

Class AsyncWriteLaws (W : Type) `{!AsyncWrite W} : Prop := {
  write_ready w buf n w' : poll_write w buf = (Ready (Ok n), w') →
    n ≤ length buf ∧ written w' = written w ++ take n buf;
  write_pending w buf w' : poll_write w buf = (Pending, w') → written w' = written w;
  write_error w buf e w' : poll_write w buf = (Ready (Err e), w') →
    written w' = written w ∧ ∃ k, e = EIo k;
}.

(** The object accepts at least one byte of a non-empty buffer. *)
Class WriteProgress (W : Type) `{!AsyncWrite W} : Prop :=
  write_progress w buf n w' :
    poll_write w buf = (Ready (Ok n), w') → buf ≠ [] → 0 < n.

(** An object whose writes are pending only finitely often. *)
Class FairWrite (W : Type) `{!AsyncWrite W} := {
  wstalls : W → nat;
  wstalls_pending w buf w' : poll_write w buf = (Pending, w') → (wstalls w' < wstalls w)%nat;
  wstalls_ready w buf x w' : poll_write w buf = (Ready x, w') → (wstalls w' ≤ wstalls w)%nat;
}.

(** In the states [sound] no write fails. *)
Class Reliable (W : Type) `{!AsyncWrite W} := {
  sound : W → Prop;
  sound_write w buf x w' : sound w → poll_write w buf = (x, w') → sound w' ∧ ∀ e, x ≠ Ready (Err e);
}.

(** *** The calls of the handshakes on a [TcpStream] *)

Class Stream (S : Type) := {
  s_read_u8 : IO S N;
  s_read_u64 : IO S N;
  s_read_exact : nat → IO S bytes;
  s_write_u8 : N → IO S ();
  s_write_u64 : N → IO S ();
  s_write_all : bytes → IO S ();
}.

(** A connection seen from one end: the bytes the peer sends before it closes
    its side, the bytes sent to it, and whether the peer still receives. *)
Record Conn := MkConn {
  c_in : bytes;
  c_out : bytes;
  c_writable : bool;
}.

Definition conn_read (n : nat) : IO Conn bytes := λ c,
  if decide (n ≤ length (c_in c))
  then (Ok (take n (c_in c)), MkConn (drop n (c_in c)) (c_out c) (c_writable c))
  else (Err (EIo EkUnexpectedEof), MkConn [] (c_out c) (c_writable c)).

Definition conn_write (bs : bytes) : IO Conn () := λ c,
  if c_writable c
  then (Ok (), MkConn (c_in c) (c_out c ++ bs) true)
  else (Err (EIo EkBrokenPipe), c).

(** The documented behaviour: integers in network byte order. *)
#[global] Instance conn_stream : Stream Conn := {
  s_read_u8 := bs ← conn_read 1; mret (be_val bs);
  s_read_u64 := bs ← conn_read 8; mret (be_val bs);
  s_read_exact := conn_read;
  s_write_u8 n := conn_write (be_bytes 1 n);
  s_write_u64 n := conn_write (be_bytes 8 n);
  s_write_all := conn_write;
}.

(** [m] on a concrete state does what [m'] does on its abstraction. *)
Definition refines {S T A} (abs : S → T) (m : IO S A) (m' : IO T A) : Prop :=
  ∀ s, m' (abs s) = ((m s).1, abs (m s).2).

(** A stream whose calls behave as those of the connection [abs s]. *)
Class StreamLaws (S : Type) `{!Stream S} (abs : S → Conn) : Prop := {
  law_read_u8 : refines abs s_read_u8 s_read_u8;
  law_read_u64 : refines abs s_read_u64 s_read_u64;
  law_read_exact n : refines abs (s_read_exact n) (s_read_exact n);
  law_write_u8 n : refines abs (s_write_u8 n) (s_write_u8 n);
  law_write_u64 n : refines abs (s_write_u64 n) (s_write_u64 n);
  law_write_all bs : refines abs (s_write_all bs) (s_write_all bs);
}.

(** ** Scripted transports *)

(** What a scripted reader does next: deliver the (non-empty) chunk [b :: bs],
    be pending once, or fail.  The end of the script is the end of the stream. *)
Inductive RdItem :=
  | Chunk (b : byte) (bs : bytes)
  | Stall
  | IoFail (k : ErrorKind).

Definition script_poll_read (r : list RdItem) (cap : nat) : Poll (Result bytes) * list RdItem :=
  match r with
  | [] => (Ready (Ok []), [])
  | Stall :: r' => (Pending, r')
  | IoFail k :: r' => (Ready (Err (EIo k)), r')
  | Chunk b bs :: r' =>
      match cap with
      | O => (Ready (Ok []), r)
      | S cap' =>
          match drop cap' bs with
          | [] => (Ready (Ok (b :: bs)), r')
          | b' :: bs' => (Ready (Ok (b :: take cap' bs)), Chunk b' bs' :: r')
          end
      end
  end.

Fixpoint script_incoming (r : list RdItem) : bytes :=
  match r with
  | [] => []
  | Stall :: r' => script_incoming r'
  | IoFail _ :: _ => []
  | Chunk b bs :: r' => (b :: bs) ++ script_incoming r'
  end.

#[global] Instance script_read : AsyncRead (list RdItem) := {
  poll_read := script_poll_read;
  incoming := script_incoming;
}.

Fixpoint script_stalls (r : list RdItem) : nat :=
  match r with
  | [] => 0
  | Stall :: r' => S (script_stalls r')
  | _ :: r' => script_stalls r'
  end.

(** A scripted writer: what it took so far, and how it answers the next calls:
    take up to [S n] bytes, take none, be pending, or fail.  After the script
    it takes everything. *)
Inductive WrItem :=
  | Accept (n : nat)
  | AcceptNone
  | WStall
  | WFail (k : ErrorKind).

Record Sink := MkSink { sink_bytes : bytes; sink_script : list WrItem }.

Definition sink_poll_write (w : Sink) (buf : bytes) : Poll (Result nat) * Sink :=
  match sink_script w with
  | [] => (Ready (Ok (length buf)), MkSink (sink_bytes w ++ buf) [])
  | Accept n :: t =>
      let k := Nat.min (S n) (length buf) in
      (Ready (Ok k), MkSink (sink_bytes w ++ take k buf) t)
  | AcceptNone :: t => (Ready (Ok 0), MkSink (sink_bytes w) t)
  | WStall :: t => (Pending, MkSink (sink_bytes w) t)
  | WFail k :: t => (Ready (Err (EIo k)), MkSink (sink_bytes w) t)
  end.

#[global] Instance sink_write : AsyncWrite Sink := {
  poll_write := sink_poll_write;
  written := sink_bytes;
}.

(** ** Lemmas: the monad and refinement *)

Lemma bind_ok {S A B} (m : IO S A) (f : A → IO S B) s a s' :
  m s = (Ok a, s') → (m ≫= f) s = f a s'.
Proof. intros E. unfold mbind, IO_bind. by rewrite E. Qed.

Lemma bind_err {S A B} (m : IO S A) (f : A → IO S B) s e s' :
  m s = (Err e, s') → (m ≫= f) s = (Err e, s').
Proof. intros E. unfold mbind, IO_bind. by rewrite E. Qed.

Lemma refines_ret {S T A} (abs : S → T) (a : A) : refines abs (mret a) (mret a).
Proof. by intros s. Qed.

Lemma refines_fail {S T A} (abs : S → T) e :
  refines (A := A) abs (io_fail e) (io_fail e).
Proof. by intros s. Qed.

Lemma refines_lift {S T A} (abs : S → T) (r : Result A) :
  refines abs (io_lift r) (io_lift r).
Proof. by intros s. Qed.

Lemma refines_bind {S T A B} (abs : S → T) (m : IO S A) m' (f : A → IO S B) f' :
  refines abs m m' → (∀ a, refines abs (f a) (f' a)) →
  refines abs (m ≫= f) (m' ≫= f').
Proof.
  intros Hm Hf s. unfold mbind, IO_bind. rewrite Hm.
  destruct (m s) as [[a|e] s']; simpl; [apply Hf|done].
Qed.

#[export] Hint Resolve refines_ret refines_fail refines_lift refines_bind
  law_read_u8 law_read_u64 law_read_exact law_write_u8 law_write_u64 law_write_all
  : dsync.

#[global] Instance conn_laws : StreamLaws Conn id.
Proof. split; intros; intros s; unfold id; by apply surjective_pairing. Qed.

(** ** Lemmas: the scripted transports satisfy the interfaces *)

Lemma conn_read_ok c n : n ≤ length (c_in c) →
  conn_read n c = (Ok (take n (c_in c)),
                   MkConn (drop n (c_in c)) (c_out c) (c_writable c)).
Proof. intros H. unfold conn_read. by rewrite decide_True. Qed.

#[global] Instance script_read_laws : AsyncReadLaws (list RdItem).
Proof.
  split; simpl.
  - intros [|[b bs| |k] r] [|cap] x r'; simpl; intros E; simplify_eq; simpl; try (split; [lia|done]).
    destruct (drop cap bs) as [|b' bs'] eqn:D; simplify_eq; simpl.
    + split; [|done]. apply (f_equal length) in D. len_lia.
    + split; [len_lia|]. rewrite <-(take_drop cap bs) at 1. by rewrite D, <-(assoc_L (++)).
  - intros [|[b bs| |k] r] [|cap] r'; simpl; intros E H; simplify_eq; try done; try lia.
    by destruct (drop cap bs); simplify_eq.
  - intros [|[b bs| |k] r] [|cap] r'; simpl; intros E; simplify_eq; try done.
    by destruct (drop cap bs); simplify_eq.
  - intros [|[b bs| |k] r] [|cap] e r'; simpl; intros E; simplify_eq; eauto.
    all: by destruct (drop cap bs); simplify_eq.
Qed.

#[global] Instance script_fair : FairRead (list RdItem).
Proof.
  refine {| stalls := script_stalls |}; simpl.
  - intros [|[b bs| |k] r] [|cap] r'; simpl; intros E; simplify_eq; try lia.
    by destruct (drop cap bs); simplify_eq.
  - intros [|[b bs| |k] r] [|cap] x r'; simpl; intros E; simplify_eq; simpl; try lia.
    destruct (drop cap bs); simplify_eq; simpl; lia.
Defined.

#[global] Instance sink_write_laws : AsyncWriteLaws Sink.
Proof.
  split; simpl; intros [bs [|[n| | |k] t]] buf; unfold sink_poll_write;
    cbn [sink_script sink_bytes]; intros; simplify_eq;
    cbn [sink_script sink_bytes]; rewrite ?firstn_all, ?(right_id_L [] (++)); eauto.
  - split; [destruct (length buf); lia|done].
  - split; [lia|by rewrite take_0, (right_id_L [] (++))].
Qed.

(** ** A scripted writer that always takes something *)

(** Take up to [S n] bytes, be pending, or fail. *)
Inductive EItem :=
  | EAccept (n : nat)
  | EStall
  | EFail (k : ErrorKind).

Definition eager_item (i : EItem) : WrItem :=
  match i with EAccept n => Accept n | EStall => WStall | EFail k => WFail k end.

Record Eager := MkEager { eager_bytes : bytes; eager_script : list EItem }.

Definition eager_sink (w : Eager) : Sink :=
  MkSink (eager_bytes w) (eager_item <$> eager_script w).

Definition eager_poll_write (w : Eager) (buf : bytes) : Poll (Result nat) * Eager :=
  let '(r, s) := sink_poll_write (eager_sink w) buf in
  (r, MkEager (sink_bytes s) (tail (eager_script w))).

#[global] Instance eager_write : AsyncWrite Eager := {
  poll_write := eager_poll_write;
  written := eager_bytes;
}.

#[global] Instance eager_write_laws : AsyncWriteLaws Eager.
Proof.
  split; cbn; unfold eager_poll_write; intros w buf;
    destruct (sink_poll_write (eager_sink w) buf) as [r s] eqn:E; intros; simplify_eq; cbn.
  - exact (write_ready (W:=Sink) _ _ _ _ E).
  - exact (write_pending (W:=Sink) _ _ _ E).
  - exact (write_error (W:=Sink) _ _ _ _ E).
Qed.

#[global] Instance eager_progress : WriteProgress Eager.
Proof.
  intros [bs [|[n| |k] t]] buf m w'; cbn; unfold eager_poll_write; cbn; intros; simplify_eq;
    destruct buf; simpl; (done || lia).
Qed.

Fixpoint stalls_in (l : list EItem) : nat :=
  match l with
  | [] => 0
  | EStall :: l => S (stalls_in l)
  | _ :: l => stalls_in l
  end.

#[global] Instance eager_fair : FairWrite Eager.
Proof.
  refine {| wstalls w := stalls_in (eager_script w) |};
    intros [bs [|[n| |k] t]] buf; cbn; unfold eager_poll_write; cbn; intros; simplify_eq; cbn; lia.
Defined.

#[global] Instance eager_reliable : Reliable Eager.
Proof.
  refine {| sound w := ∀ k, EFail k ∉ eager_script w |}.
  intros [bs t] buf x w' Hs E. cbn in *. unfold eager_poll_write in E. cbn in E.
  assert (∀ k, EFail k ∉ tail t) as Ht by (intros k Hin; apply (Hs k); destruct t; [done|by right]).
  destruct t as [|[n| |k] t]; cbn in E; simplify_eq; cbn; try (split; [exact Ht|done]).
  by destruct (Hs k); left.
Defined.

Lemma eager_never_fails (w : Eager) :
  forallb (λ i, match i with EFail _ => false | _ => true end) (eager_script w) = true → sound w.
Proof. rewrite forallb_forall. intros Hw k Hin%list_elem_of_In. by specialize (Hw _ Hin). Qed.

(** ** A socket: what has arrived and was not read, and whether the other end is
    closed *)

Record Socket := MkSocket { sock_bytes : bytes; sock_ended : bool }.

Definition sock_poll_read (r : Socket) (cap : nat) : Poll (Result bytes) * Socket :=
  match sock_bytes r with
  | [] => if sock_ended r then (Ready (Ok []), r) else (Pending, r)
  | bs => (Ready (Ok (take cap bs)), MkSocket (drop cap bs) (sock_ended r))
  end.

#[global] Instance sock_read : AsyncRead Socket := {
  poll_read := sock_poll_read;
  incoming := sock_bytes;
}.

#[global] Instance sock_read_laws : AsyncReadLaws Socket.
Proof.
  split; intros [[|b bs] fin] cap; cbn; unfold sock_poll_read; cbn [sock_bytes sock_ended];
    intros; repeat case_match; simplify_eq; cbn [sock_bytes]; try done.
  - cbn. split; [lia|done].
  - split; [rewrite length_take; lia|by rewrite take_drop].
  - by destruct cap; [lia|].
Qed.

#[global] Instance sock_live : LiveRead Socket.
Proof.
  refine {| ended := sock_ended |}; intros [[|b bs] fin] cap; cbn; unfold sock_poll_read;
    cbn [sock_bytes sock_ended]; intros; repeat case_match; simplify_eq; try done.
  by destruct cap; [lia|].
Defined.
