(* ===== verification/Text.v ===== *)
(** Strings and paths as the program handles them: literals, decimal numbers,
    [str::trim], and [absolute_path] of src/src/utils.rs. *)

From stdpp Require Import base option list numbers strings.
From Stdlib Require Import NArith Lia.
From Stdlib.Strings Require String Ascii.
From S2P Require Import Prelude AsyncIO.
#[local] Open Scope N_scope.

(** The bytes of a literal. *)
Definition str (s : String.string) : bytes := String.list_byte_of_string s.
Arguments str s%_string_scope.

(** ** [to_string] of an unsigned integer *)

Fixpoint digits (fuel : nat) (n : N) (acc : bytes) : bytes :=
  match fuel with
  | O => acc
  | S fuel =>
      let acc := byte_of (48 + n mod 10) :: acc in
      if n <? 10 then acc else digits fuel (n / 10) acc
  end.

(** 20 digits are enough for a [u64]. *)
Definition to_string (n : N) : bytes := digits 20 n [].

(** The value of decimal digits. *)
Definition decimal (bs : bytes) : N := fold_left (λ acc b, acc * 10 + (byte_val b - 48)) bs 0.

Definition is_digit (b : byte) : bool := (48 <=? byte_val b) && (byte_val b <=? 57).

Lemma decimal_acc bs acc :
  fold_left (λ acc b, acc * 10 + (byte_val b - 48)) bs acc = acc * 10 ^ lenN bs + decimal bs.
Proof.
  unfold decimal. revert acc. induction bs as [|b bs IH] using rev_ind; intros acc.
  { cbn [fold_left]. change (lenN []) with 0. rewrite N.pow_0_r. lia. }
  rewrite !fold_left_app. cbn [fold_left]. rewrite IH.
  replace (lenN (bs ++ [b])) with (N.succ (lenN bs)) by (unfold lenN; rewrite length_app; cbn; lia).
  rewrite N.pow_succ_r'. lia.
Qed.

Lemma digit_val n : n < 10 → byte_val (byte_of (48 + n)) = 48 + n.
Proof. intros H. rewrite byte_val_of, N.mod_small; lia. Qed.

Lemma digits_correct fuel n acc : n < 10 ^ N.of_nat fuel →
  decimal (digits fuel n acc) = n * 10 ^ lenN acc + decimal acc
  ∧ (Forall is_digit acc → Forall is_digit (digits fuel n acc)).
Proof.
  revert n acc. induction fuel as [|fuel IH]; intros n acc Hn; cbn [digits].
  { assert (n = 0) as -> by (cbn in Hn; lia). split; [lia|done]. }
  pose proof (N.mod_lt n 10 ltac:(lia)) as Hm.
  assert (decimal (byte_of (48 + n mod 10) :: acc) = n mod 10 * 10 ^ lenN acc + decimal acc) as Hd.
  { unfold decimal at 1. cbn [fold_left]. rewrite decimal_acc, digit_val by done.
    set (m := n mod 10) in *. replace (0 * 10 + (48 + m - 48)) with m by lia. done. }
  assert (Forall is_digit acc → Forall is_digit (byte_of (48 + n mod 10) :: acc)) as Hf.
  { constructor; [|done]. unfold is_digit. rewrite digit_val by done.
    apply Is_true_true, andb_true_intro. split; apply N.leb_le; [apply N.le_add_r|].
    clear - Hm. lia. }
  destruct (N.ltb_spec n 10).
  { split; [|exact Hf]. rewrite Hd, N.mod_small by done. done. }
  replace (N.of_nat (S fuel)) with (N.succ (N.of_nat fuel)) in Hn by lia.
  rewrite N.pow_succ_r' in Hn.
  destruct (IH (n / 10) (byte_of (48 + n mod 10) :: acc)) as [I1 I2].
  { apply N.Div0.div_lt_upper_bound. lia. }
  split; [|auto]. rewrite I1, Hd.
  replace (lenN (byte_of (48 + n mod 10) :: acc)) with (N.succ (lenN acc)) by (unfold lenN; cbn; lia).
  rewrite N.pow_succ_r'. pose proof (N.div_mod n 10 ltac:(lia)). nia.
Qed.

(** What is printed is read back, and holds digits only. *)
Lemma to_string_correct n : n < W64 →
  decimal (to_string n) = n ∧ Forall is_digit (to_string n).
Proof.
  intros Hn. destruct (digits_correct 20 n []) as [H1 H2].
  { etrans; [exact Hn|]. by vm_compute. }
  unfold to_string. split; [|by apply H2].
  rewrite H1. change (lenN []) with 0. unfold decimal. cbn [fold_left]. lia.
Qed.

(** ** [str::trim] *)

(** The encodings of the characters with the property White_Space. *)
Definition white_space : list bytes :=
  ((λ n, [byte_of n]) <$> [9; 10; 11; 12; 13; 32])
  ++ ((λ n, [byte_of 194; byte_of n]) <$> [133; 160])
  ++ [byte_of <$> [225; 154; 128]]
  ++ ((λ n, byte_of <$> [226; 128; n])
        <$> [128; 129; 130; 131; 132; 133; 134; 135; 136; 137; 138; 168; 169; 175])
  ++ [byte_of <$> [226; 129; 159]; byte_of <$> [227; 128; 128]].

Definition strip_prefix (p l : bytes) : option bytes :=
  if bool_decide (take (length p) l = p) then Some (drop (length p) l) else None.

Fixpoint strip_first (ps : list bytes) (l : bytes) : option bytes :=
  match ps with
  | [] => None
  | p :: ps => match strip_prefix p l with Some l' => Some l' | None => strip_first ps l end
  end.

(** Each round strips a character; there are at most as many as bytes. *)
Fixpoint strip_all (fuel : nat) (ps : list bytes) (l : bytes) : bytes :=
  match fuel with
  | O => l
  | S fuel => match strip_first ps l with Some l' => strip_all fuel ps l' | None => l end
  end.

Definition trim_start (l : bytes) : bytes := strip_all (length l) white_space l.
Definition trim_end (l : bytes) : bytes :=
  reverse (strip_all (length l) (reverse <$> white_space) (reverse l)).
Definition trim (l : bytes) : bytes := trim_end (trim_start l).

Example trim_line : trim (str " /tmp/deltasync.x1 " ++ [byte_of 10]) = str "/tmp/deltasync.x1".
Proof. vm_compute. reflexivity. Qed.

(** ** Paths *)

Definition slash : byte := byte_of 47.

(** [Path::is_absolute] *)
Definition is_absolute (path : bytes) : bool :=
  match path with b :: _ => bool_decide (b = slash) | [] => false end.

(** [Path::join] *)
Definition join (base path : bytes) : bytes :=
  if is_absolute path then path
  else match last base with
       | Some b => if bool_decide (b = slash) then base ++ path else base ++ [slash] ++ path
       | None => path
       end.

(** The crate [path_clean]: it keeps absolute paths absolute. *)
Class PathClean := clean : bytes → bytes.
Class PathCleanLaws `{!PathClean} : Prop :=
  clean_absolute path : is_absolute path = true → is_absolute (clean path) = true.

(** [absolute_path], given the result of [std::env::current_dir]. *)
Definition absolute_path `{!PathClean} (current_dir : Result bytes) (path : bytes) : Result bytes :=
  if is_absolute path then Ok (clean path)
  else match current_dir with
       | Ok dir => Ok (clean (join dir path))
       | Err e => Err e
       end.

Lemma join_absolute base path : is_absolute base = true → is_absolute (join base path) = true.
Proof.
  unfold join. intros Hb. destruct (is_absolute path) eqn:Hp; [done|].
  destruct base as [|b base]; [done|]. destruct (last (b :: base)) eqn:E; [case_bool_decide; exact Hb|].
  apply last_None in E. done.
Qed.

(** The path is absolute whenever the current directory is. *)
Lemma absolute_path_absolute `{!PathClean, !PathCleanLaws} cwd path r :
  (∀ dir, cwd = Ok dir → is_absolute dir = true) → absolute_path cwd path = Ok r →
  is_absolute r = true.
Proof.
  intros Hc. unfold absolute_path. destruct (is_absolute path) eqn:Hp.
  { intros ?; simplify_eq. by apply clean_absolute. }
  destruct cwd as [dir|e]; intros ?; simplify_eq. by apply clean_absolute, join_absolute, Hc.
Qed.
