(* ===== verification/Utf8.v ===== *)
(** Rust strings: byte sequences that are well-formed UTF-8.

    [String::from_utf8] of the standard library, as the code uses it: the
    bytes are kept when they are well-formed (Unicode 15, table 3-7) and an
    error otherwise. *)

From stdpp Require Import base list numbers.
From Stdlib Require Import NArith Lia.
From S2P Require Import Prelude AsyncIO.

(** [lo <= b <= hi] *)
Definition in_range (lo hi : N) (b : byte) : bool :=
  (lo <=? byte_val b)%N && (byte_val b <=? hi)%N.

(** A continuation byte, 80..BF. *)
Definition cont (b : byte) : bool := in_range 128 191 b.

(** The allowed second byte after a three-byte lead and after a four-byte lead. *)
Definition second3 (b0 b1 : byte) : bool :=
  if (byte_val b0 =? 224)%N then in_range 160 191 b1
  else if (byte_val b0 =? 237)%N then in_range 128 159 b1
  else cont b1.

Definition second4 (b0 b1 : byte) : bool :=
  if (byte_val b0 =? 240)%N then in_range 144 191 b1
  else if (byte_val b0 =? 244)%N then in_range 128 143 b1
  else cont b1.

Fixpoint utf8_valid (bs : bytes) : bool :=
  match bs with
  | [] => true
  | b0 :: t0 =>
      if in_range 0 127 b0 then utf8_valid t0
      else match t0 with
      | [] => false
      | b1 :: t1 =>
          if in_range 194 223 b0 then cont b1 && utf8_valid t1
          else match t1 with
          | [] => false
          | b2 :: t2 =>
              if in_range 224 239 b0 then second3 b0 b1 && cont b2 && utf8_valid t2
              else match t2 with
              | [] => false
              | b3 :: t3 =>
                  in_range 240 244 b0 && second4 b0 b1 && cont b2 && cont b3
                  && utf8_valid t3
              end
          end
      end
  end.

(** [String::from_utf8] *)
Definition string_from_utf8 (bs : bytes) : Result bytes :=
  if utf8_valid bs then Ok bs else Err EFromUtf8.

Definition is_ascii (bs : bytes) : bool := forallb (in_range 0 127) bs.

Lemma string_from_utf8_valid bs : utf8_valid bs = true → string_from_utf8 bs = Ok bs.
Proof. intros H. unfold string_from_utf8. by rewrite H. Qed.

Lemma string_from_utf8_ok bs s : string_from_utf8 bs = Ok s → s = bs ∧ utf8_valid bs = true.
Proof. unfold string_from_utf8. by destruct (utf8_valid bs) eqn:E; intros; simplify_eq. Qed.

(** ASCII text, such as the hexadecimal digests, is a valid string. *)
Lemma ascii_utf8_valid bs : is_ascii bs = true → utf8_valid bs = true.
Proof.
  induction bs as [|b bs IH]; [done|]. unfold is_ascii. cbn [forallb utf8_valid].
  intros [-> H]%andb_prop. by apply IH.
Qed.

#[export] Hint Resolve string_from_utf8_valid ascii_utf8_valid : dsync.

(** "h" "é" "🌍" and two ill-formed sequences: an overlong form, a surrogate. *)
Example utf8_samples :
  utf8_valid (byte_of <$> [104; 195; 169; 240; 159; 140; 141]%N) = true
  ∧ utf8_valid (byte_of <$> [192; 175]%N) = false
  ∧ utf8_valid (byte_of <$> [237; 160; 128]%N) = false.
Proof. vm_compute. auto. Qed.
