(* ===== verification/Loan.v ===== *)
(** The loan pattern of src/src/sync.rs (lines 5-57).

    A [Loan] carries a value and the sending half of a tokio oneshot channel;
    dropping it sends the value back to the [Reclaim].  The oneshot channels of
    the program live in a store reached through the interface [Oneshot], whose
    laws are tokio's documentation of [oneshot]. *)

From stdpp Require Import base option list numbers gmap.
From Stdlib Require Import NArith Lia.
From S2P Require Import Prelude AsyncIO.

(** What is known of a oneshot channel: not created, no value yet, a value not
    yet received, the value received. *)
Inductive OneshotState (T : Type) :=
  | OsAbsent
  | OsEmpty
  | OsSent (v : T)
  | OsTaken.
Arguments OsAbsent {T}.
Arguments OsEmpty {T}.
Arguments OsSent {T} v.
Arguments OsTaken {T}.

(** Channels are identified by the two halves' common identity. *)
Class Oneshot (T O : Type) := {
  os_state : O → N → OneshotState T;
  os_channel : O → N * O;
  os_send : N → T → O → bool * O;
  os_recv : N → O → Poll T * O;
}.

Class OneshotLaws (T O : Type) `{!Oneshot T O} : Prop := {
  os_channel_fresh o i o' : os_channel o = (i, o') →
    os_state o i = OsAbsent ∧ os_state o' i = OsEmpty
    ∧ ∀ j, j ≠ i → os_state o' j = os_state o j;
  os_send_empty o i v : os_state o i = OsEmpty →
    ∃ o', os_send i v o = (true, o') ∧ os_state o' i = OsSent v
    ∧ ∀ j, j ≠ i → os_state o' j = os_state o j;
  os_recv_empty o i : os_state o i = OsEmpty → os_recv i o = (Pending, o);
  os_recv_sent o i v : os_state o i = OsSent v →
    ∃ o', os_recv i o = (Ready v, o') ∧ os_state o' i = OsTaken
    ∧ ∀ j, j ≠ i → os_state o' j = os_state o j;
}.

(** [struct Loan<T> { value, tx }] and [struct Reclaim<T> { rx }] *)
Record Loan (T : Type) := MkLoan { value : T; tx : option N }.
Arguments MkLoan {T} value tx.
Arguments value {T} l.
Arguments tx {T} l.

Record Reclaim := MkReclaim { rx : N }.

#[global] Instance Reclaim_eq_dec : EqDecision Reclaim.
Proof. solve_decision. Defined.

Section loan.
Context {T O : Type} `{!Inhabited T, !Oneshot T O}.

(** [loan(value)] *)
Definition loan (v : T) (o : O) : Loan T * Reclaim * O :=
  let '(i, o') := os_channel o in
  (MkLoan v (Some i), MkReclaim i, o').

(** [Deref::deref] and [DerefMut::deref_mut] (the latter with the mutation the
    borrower makes through the reference) *)
Definition deref (l : Loan T) : T := value l.
Definition deref_mut (f : T → T) (l : Loan T) : Loan T := MkLoan (f (value l)) (tx l).

(** [Drop::drop]: [tx.take().unwrap().send(mem::take(&mut value))], the result
    of the send ignored; [None] is the panic of [unwrap]. *)
Definition drop_loan (l : Loan T) (o : O) : option (Loan T * O) :=
  match tx l with
  | None => None
  | Some i => Some (MkLoan inhabitant None, (os_send i (value l) o).2)
  end.

(** [Reclaim::blocking_reclaim], one attempt: [Pending] blocks the thread. *)
Definition blocking_reclaim (r : Reclaim) (o : O) : Poll T * O := os_recv (rx r) o.
End loan.

(** A store of oneshot channels: the next identity and the cells. *)
Record OsStore (T : Type) := MkOsStore { os_next : N; os_cells : gmap N (OneshotState T) }.
Arguments MkOsStore {T} os_next os_cells.
Arguments os_next {T} o.
Arguments os_cells {T} o.

Definition store_state {T} (o : OsStore T) (i : N) : OneshotState T :=
  if decide (i < os_next o)%N then default OsEmpty (os_cells o !! i) else OsAbsent.

Definition store_set {T} (o : OsStore T) (i : N) (s : OneshotState T) : OsStore T :=
  MkOsStore (os_next o) (<[i:=s]> (os_cells o)).

#[global] Instance store_oneshot {T} : Oneshot T (OsStore T) := {
  os_state := store_state;
  os_channel o := (os_next o, MkOsStore (N.succ (os_next o)) (<[os_next o := OsEmpty]> (os_cells o)));
  os_send i v o :=
    match store_state o i with
    | OsEmpty => (true, store_set o i (OsSent v))
    | _ => (false, o)
    end;
  os_recv i o :=
    match store_state o i with
    | OsSent v => (Ready v, store_set o i OsTaken)
    | _ => (Pending, o)
    end;
}.

Lemma store_state_set {T} (o : OsStore T) i s j :
  (i < os_next o)%N →
  store_state (store_set o i s) j = if decide (i = j) then s else store_state o j.
Proof.
  intros Hi. unfold store_state, store_set; simpl. rewrite lookup_insert.
  repeat case_decide; subst; try done; lia.
Qed.

Lemma store_state_lt {T} (o : OsStore T) i : store_state o i ≠ OsAbsent → (i < os_next o)%N.
Proof. unfold store_state. by case_decide. Qed.

#[global] Instance store_oneshot_laws {T} : OneshotLaws T (OsStore T).
Proof.
  split; simpl.
  - intros o i o' E. simplify_eq. unfold store_state; simpl. split_and!.
    + case_decide; [lia|done].
    + rewrite decide_True by lia. by rewrite lookup_insert_eq.
    + intros j Hj. rewrite lookup_insert_ne by done. repeat case_decide; try done; lia.
  - intros o i v E. rewrite E. eexists; split; [done|].
    assert (i < os_next o)%N by (apply store_state_lt; congruence).
    rewrite store_state_set, decide_True by done. split; [done|].
    intros j Hj. rewrite store_state_set, decide_False by done. done.
  - intros o i E. by rewrite E.
  - intros o i v E. rewrite E. eexists; split; [done|].
    assert (i < os_next o)%N by (apply store_state_lt; congruence).
    rewrite store_state_set, decide_True by done. split; [done|].
    intros j Hj. rewrite store_state_set, decide_False by done. done.
Qed.

Section loan_theorems.
Context {T O : Type} `{!Inhabited T, !Oneshot T O, !OneshotLaws T O}.

(** A loan keeps every other oneshot channel as it is. *)
Lemma loan_frame (v : T) (o : O) l r o1 j :
  loan v o = (l, r, o1) → j ≠ rx r → os_state o1 j = os_state o j.
Proof.
  unfold loan. destruct (os_channel o) as [i o'] eqn:E. intros ?; simplify_eq; simpl.
  apply os_channel_fresh in E as (_ & _ & Hfr). auto.
Qed.

(** The loan pattern: while the loan is held the reclaimer blocks; when the
    loan is dropped, after whatever mutation through [deref_mut], the reclaimer
    gets exactly the value the loan held then; and the drop, which takes the
    sender out, cannot happen twice (the second one panics). *)
Theorem loan_reclaim (v : T) (f : T → T) (o o1 : O) l r :
  loan v o = (l, r, o1) →
  deref l = v ∧ blocking_reclaim r o1 = (Pending, o1) ∧
  ∃ l' o2 o3, drop_loan (deref_mut f l) o1 = Some (l', o2)
    ∧ blocking_reclaim r o2 = (Ready (f v), o3)
    ∧ drop_loan l' o2 = None
    ∧ ∀ j, j ≠ rx r → os_state o3 j = os_state o j.
Proof.
  unfold loan. destruct (os_channel o) as [i o'] eqn:E. intros ?; simplify_eq.
  apply os_channel_fresh in E as (_ & He & Hfr).
  split; [done|]. split; [by apply os_recv_empty|].
  unfold drop_loan, blocking_reclaim; simpl.
  destruct (os_send_empty o1 i (f v) He) as (o2 & Hs & Hst & Hfr2).
  destruct (os_recv_sent o2 i (f v) Hst) as (o3 & Hr & _ & Hfr3).
  eexists _, o2, o3. rewrite Hs, Hr; simpl. repeat split; try done.
  intros j Hj. by rewrite Hfr3, Hfr2, Hfr by done.
Qed.
End loan_theorems.

(** The loan of the tests: [vec![1]] with 2 pushed. *)
Lemma loan_reclaim_witness :
  ∃ l r o1, loan [1%N] (MkOsStore 0 ∅) = (l, r, o1)
    ∧ blocking_reclaim r o1 = (Pending, o1)
    ∧ ∃ l' o2 o3, drop_loan (deref_mut (λ x, x ++ [2%N]) l) o1 = Some (l', o2)
      ∧ blocking_reclaim r o2 = (Ready [1%N; 2%N], o3).
Proof.
  destruct (loan [1%N] (MkOsStore 0 ∅)) as [[l r] o1] eqn:E.
  destruct (loan_reclaim [1%N] (λ x, x ++ [2%N]) _ _ _ _ E)
    as (_ & H1 & l' & o2 & o3 & H2 & H3 & _).
  exists l, r, o1. split; [done|]. split; [done|]. exists l', o2, o3. done.
Defined.
