(* ===== verification/Wire.v ===== *)
(** The simple wire protocol of src/src/common.rs (lines 6-70): the protocol
    version, the status codes, and the length-prefixed strings of the
    handshakes. *)

From stdpp Require Import base option list numbers strings.
From Stdlib Require Import NArith Lia.
From S2P Require Import Prelude AsyncIO Utf8.
#[local] Open Scope N_scope.

Definition PROTOCOL_VERSION : N := 1.

Inductive StatusCode :=
  | Ack
  | InvalidSecret
  | FileSizeDiffers
  | PermissionDenied
  | ClientAlreadyConnected
  | UnknownHashAlgorithm
  | UnsupportedProtocolVersion
  | InvalidBlockSize.

#[global] Instance StatusCode_eq_dec : EqDecision StatusCode.
Proof. solve_decision. Defined.

(** [u8::from(status)]: the discriminants of the [repr(u8)] enum. *)
Definition status_to_u8 (s : StatusCode) : N :=
  match s with
  | Ack => 0
  | InvalidSecret => 1
  | FileSizeDiffers => 2
  | PermissionDenied => 3
  | ClientAlreadyConnected => 4
  | UnknownHashAlgorithm => 5
  | UnsupportedProtocolVersion => 6
  | InvalidBlockSize => 7
  end.

(** [StatusCode::try_from(u8)] *)
Definition status_of_u8 (n : N) : option StatusCode :=
  match n with
  | 0 => Some Ack
  | 1 => Some InvalidSecret
  | 2 => Some FileSizeDiffers
  | 3 => Some PermissionDenied
  | 4 => Some ClientAlreadyConnected
  | 5 => Some UnknownHashAlgorithm
  | 6 => Some UnsupportedProtocolVersion
  | 7 => Some InvalidBlockSize
  | _ => None
  end.

(** The [match status] of [check_status]. *)
Definition status_result (s : StatusCode) : Result () :=
  match s with
  | Ack => Ok ()
  | InvalidSecret => Err (EMsg "Invalid Secret")
  | FileSizeDiffers => Err (EMsg "File size differs")
  | PermissionDenied => Err (EMsg "Permission denied")
  | ClientAlreadyConnected => Err (EMsg "A client is already connected")
  | UnknownHashAlgorithm => Err (EMsg "Hash algorithm is not supported on remote end")
  | UnsupportedProtocolVersion => Err (EMsg "Protocol version mismatch")
  | InvalidBlockSize => Err (EMsg "Invalid block size")
  end.

Section wire.
Context {S : Type} `{!Stream S}.

(** [write_string]: the length as a u64 ([usize] to [u64] cannot fail on the
    64-bit targets), then the bytes. *)
Definition write_string (s : bytes) : IO S () :=
  s_write_u64 (lenN s);; s_write_all s.

(** [read_string] *)
Definition read_string (max_len : N) : IO S bytes :=
  size ← s_read_u64;
  if max_len <? size then io_fail (EStringTooLong size max_len)
  else s ← s_read_exact (N.to_nat size);
       io_lift (string_from_utf8 s).

Definition write_status (status : StatusCode) : IO S () :=
  s_write_u8 (status_to_u8 status).

Definition check_status : IO S () :=
  code ← s_read_u8;
  match status_of_u8 code with
  | None => io_fail (EMsg "Unknown status code")
  | Some status => io_lift (status_result status)
  end.
End wire.

(** ** The frame of a string on the wire, and what a reader makes of a byte
    sequence that starts with one *)

Definition string_frame (s : bytes) : bytes := be_bytes 8 (lenN s) ++ s.

Definition parse_string (max_len : N) (bs : bytes) : Result (bytes * bytes) :=
  if decide (length bs < 8)%nat then Err EClosed
  else
    let size := be_val (take 8 bs) in
    if max_len <? size then Err (EStringTooLong size max_len)
    else if decide (lenN (drop 8 bs) < size) then Err EClosed
    else match string_from_utf8 (take (N.to_nat size) (drop 8 bs)) with
         | Ok s => Ok (s, drop (N.to_nat size) (drop 8 bs))
         | Err e => Err e
         end.

#[global] Arguments string_frame : simpl never.
#[global] Arguments parse_string : simpl never.

(** Which strings a reader with the limit [max_len] gets back. *)
Definition sendable (max_len : N) (s : bytes) : Prop :=
  utf8_valid s = true ∧ lenN s ≤ max_len ∧ lenN s < W64.

(** ** Lemmas *)

Lemma status_of_to_u8 s : status_of_u8 (status_to_u8 s) = Some s.
Proof. by destruct s. Qed.

Lemma status_to_u8_lt s : status_to_u8 s < 256.
Proof. by destruct s. Qed.

Lemma status_of_u8_some n s : status_of_u8 n = Some s → n = status_to_u8 s.
Proof.
  intros H. destruct (decide (n < 8)) as [Hn|Hn].
  - assert (n = 0 ∨ n = 1 ∨ n = 2 ∨ n = 3 ∨ n = 4 ∨ n = 5 ∨ n = 6 ∨ n = 7) as Hc by lia.
    destruct_or! Hc; subst; simpl in H; by simplify_eq.
  - destruct n as [|p]; [lia|]. do 3 (try destruct p as [p|p|]); simpl in H; try done; lia.
Qed.

Lemma length_string_frame s : length (string_frame s) = (8 + length s)%nat.
Proof. unfold string_frame. len_lia. Qed.

Lemma parse_string_frame max_len s rest :
  sendable max_len s → parse_string max_len (string_frame s ++ rest) = Ok (s, rest).
Proof.
  intros (Hu & Hm & Hw). unfold parse_string, string_frame.
  rewrite <-(assoc_L (++)), decide_False by len_lia.
  rewrite take_app_length', drop_app_length' by (by rewrite length_be_bytes).
  rewrite be_val_bytes8 by done. cbv zeta.
  replace (max_len <? lenN s) with false by (symmetry; apply N.ltb_ge; lia).
  rewrite decide_False by len_lia.
  rewrite take_app_length', drop_app_length' by len_lia.
  by rewrite string_from_utf8_valid.
Qed.

Lemma parse_string_ok max_len bs s rest :
  parse_string max_len bs = Ok (s, rest) →
  bs = string_frame s ++ rest ∧ sendable max_len s.
Proof.
  unfold parse_string. case_decide as H8; [done|]. cbv zeta.
  destruct (N.ltb_spec max_len (be_val (take 8 bs))) as [|Hm]; [done|].
  case_decide as Hl; [done|].
  destruct (string_from_utf8 _) as [s'|] eqn:E; [|done]. intros ?; simplify_eq.
  apply string_from_utf8_ok in E as [-> Hu].
  assert (length (take 8 bs) = 8%nat) as H8' by len_lia.
  pose proof (be_val8_bound _ H8') as Hw. set (size := be_val (take 8 bs)) in *.
  assert (lenN (take (N.to_nat size) (drop 8 bs)) = size) as Hs by len_lia.
  unfold string_frame, sendable. rewrite Hs. split; [|done].
  unfold size at 1. rewrite be_bytes8_val by done.
  by rewrite <-(assoc_L (++)), !take_drop.
Qed.

Section wire_refines.
Context {S : Type} `{!Stream S} (abs : S → Conn) `{!StreamLaws S abs}.

Lemma write_string_refines s : refines abs (write_string s) (write_string s).
Proof. unfold write_string. eauto with dsync. Qed.

Lemma read_string_refines m : refines abs (read_string m) (read_string m).
Proof.
  unfold read_string. apply refines_bind; [eauto with dsync|]. intros size.
  destruct (m <? size); eauto with dsync.
Qed.

Lemma write_status_refines st : refines abs (write_status st) (write_status st).
Proof. unfold write_status. eauto with dsync. Qed.

Lemma check_status_refines : refines abs check_status check_status.
Proof.
  unfold check_status. apply refines_bind; [eauto with dsync|]. intros code.
  destruct (status_of_u8 code); eauto with dsync.
Qed.
End wire_refines.

#[export] Hint Resolve write_string_refines read_string_refines write_status_refines
  check_status_refines : dsync.

(** The value read by [read_string], in terms of [parse_string]: only the
    error of a stream that ends too early differs. *)
Definition eof_as_io {A} (r : Result A) : Result A :=
  match r with
  | Err (EMsg _) => Err (EIo EkUnexpectedEof)
  | r => r
  end.

Lemma conn_read_string max_len c :
  (read_string max_len c).1
  = eof_as_io (match parse_string max_len (c_in c) with
               | Ok (s, _) => Ok s | Err e => Err e end)
  ∧ ∀ s rest, parse_string max_len (c_in c) = Ok (s, rest) →
      (read_string max_len c).2 = MkConn rest (c_out c) (c_writable c).
Proof.
  unfold read_string, parse_string, mbind, IO_bind, conn_read; simpl.
  unfold mbind, IO_bind, conn_read.
  destruct (decide (8 ≤ length (c_in c))%nat) as [H8|H8].
  2:{ rewrite decide_True by lia. split; [done|]. intros ??; done. }
  rewrite decide_False by lia. cbn [mret IO_ret]. cbv zeta.
  destruct (max_len <? _); [split; [done|intros ??; done]|]. cbn [c_in].
  set (size := be_val (take 8 (c_in c))).
  destruct (decide (N.to_nat size ≤ length (drop 8 (c_in c)))%nat) as [Hs|Hs].
  2:{ rewrite decide_True by len_lia. split; [done|]. intros ??; done. }
  rewrite decide_False by len_lia. unfold io_lift, string_from_utf8.
  destruct (utf8_valid _); split; simpl; intros; simplify_eq; done.
Qed.

Lemma conn_write_string s c : c_writable c = true →
  write_string s c = (Ok (), MkConn (c_in c) (c_out c ++ string_frame s) true).
Proof.
  intros Hw. unfold write_string, mbind, IO_bind; simpl. unfold conn_write.
  rewrite Hw; simpl. unfold string_frame. by rewrite <-(assoc_L (++)).
Qed.

Section wire_theorems.
Context {S : Type} `{!Stream S} (abs : S → Conn) `{!StreamLaws S abs}.

(** Reading a string, on every branch: on any stream, [read_string] returns
    the first string frame of the incoming bytes and leaves exactly what
    follows it; it fails with the length error before reading the payload when
    the announced length exceeds the limit, with an I/O error when the stream
    ends inside the frame and with a UTF-8 error on a malformed payload. *)
Theorem read_string_correct max_len (s : S) :
  (read_string max_len s).1
  = eof_as_io (match parse_string max_len (c_in (abs s)) with
               | Ok (x, _) => Ok x | Err e => Err e end)
  ∧ ∀ x rest, parse_string max_len (c_in (abs s)) = Ok (x, rest) →
      c_in (abs (read_string max_len s).2) = rest
      ∧ c_out (abs (read_string max_len s).2) = c_out (abs s).
Proof.
  pose proof (read_string_refines abs max_len s) as E.
  destruct (conn_read_string max_len (abs s)) as [H1 H2]. rewrite E in H1, H2.
  split; [done|]. intros x rest Hp. apply H2 in Hp. simpl in Hp. by rewrite Hp.
Qed.

(** Round trip of [write_string] and [read_string]: the bytes written for a
    string are read back as that string, whatever follows them on the wire. *)
Theorem write_read_string_roundtrip max_len x rest (w r : S) :
  c_writable (abs w) = true → sendable max_len x →
  c_in (abs r) = c_out (abs (write_string x w).2) ++ rest → c_out (abs w) = [] →
  (write_string x w).1 = Ok () ∧
  (read_string max_len r).1 = Ok x ∧ c_in (abs (read_string max_len r).2) = rest.
Proof.
  intros Hw Hx Hin Hout.
  pose proof (write_string_refines abs x w) as E.
  rewrite conn_write_string in E by done. injection E as Ew Ew'.
  rewrite <-Ew' in Hin. cbn [c_out] in Hin. rewrite Hout, app_nil_l in Hin.
  pose proof (read_string_refines abs max_len r) as E.
  destruct (conn_read_string max_len (abs r)) as [H1 H2].
  rewrite E, Hin, parse_string_frame in H1 by done.
  rewrite Hin, parse_string_frame, E in H2 by done.
  specialize (H2 _ _ eq_refl). simpl in *. by rewrite H2.
Qed.

(** [check_status] accepts exactly the byte of [Ack]: it reads one byte and
    succeeds if it is 0, fails with the message of the status for 1 to 7, and
    with the "unknown status" error for any other byte; and every status
    written by [write_status] is the one [check_status] reports. *)
Theorem check_status_correct b rest (s : S) :
  c_in (abs s) = b :: rest →
  c_in (abs (check_status s).2) = rest
  ∧ ((check_status s).1 = Ok () ↔ byte_val b = status_to_u8 Ack)
  ∧ (∀ st, byte_val b = status_to_u8 st → (check_status s).1 = status_result st)
  ∧ (7 < byte_val b → (check_status s).1 = Err (EMsg "Unknown status code")).
Proof.
  intros Hin. pose proof (check_status_refines abs s) as E.
  unfold check_status at 1, mbind, IO_bind in E; simpl in E.
  unfold mbind, IO_bind in E. rewrite conn_read_ok in E by (rewrite Hin; simpl; lia).
  rewrite Hin in E. unfold io_lift, io_fail in E. simpl in E.
  rewrite take_0, drop_0 in E. change (be_val [b]) with (byte_val b) in E.
  destruct (status_of_u8 (byte_val b)) as [st|] eqn:Hst.
  - apply status_of_u8_some in Hst. injection E as E1 E2. simpl in *.
    rewrite <-E1, <-E2, Hst. split_and!; [done|by destruct st| |by destruct st].
    intros st' H. apply (f_equal status_of_u8) in H.
    rewrite !status_of_to_u8 in H. by simplify_eq.
  - injection E as E1 E2. rewrite <-E1, <-E2. split_and!; [done| | |done].
    + split; [done|]. intros H. by rewrite H in Hst.
    + intros st H. by rewrite H, status_of_to_u8 in Hst.
Qed.
End wire_theorems.

(** "hello" read back with the limit of the tests. *)
Lemma write_read_string_roundtrip_witness :
  let x := byte_of <$> [104; 101; 108; 108; 111] in
  let w := MkConn [] [] true in
  let r := MkConn (string_frame x ++ [byte_of 7]) [] true in
  (write_string x w).1 = Ok () ∧ (read_string 256 r).1 = Ok x
  ∧ c_in (read_string 256 r).2 = [byte_of 7].
Proof.
  intros x w r. apply (write_read_string_roundtrip id 256 x [byte_of 7] w r);
    [reflexivity|vm_compute; split_and!; congruence|reflexivity|reflexivity].
Defined.

(** A refused secret. *)
Lemma check_status_correct_witness :
  (check_status (MkConn [byte_of 1] [] true)).1 = Err (EMsg "Invalid Secret").
Proof.
  destruct (check_status_correct id (byte_of 1) [] (MkConn [byte_of 1] [] true) eq_refl)
    as (_ & _ & H & _).
  apply (H InvalidSecret). reflexivity.
Defined.

(** A frame of three bytes that announces too much. *)
Lemma read_string_correct_witness :
  (read_string 3 (MkConn (string_frame (byte_of <$> [116; 111; 111; 108])) [] true)).1
  = Err (EStringTooLong 4 3).
Proof.
  destruct (read_string_correct id 3
    (MkConn (string_frame (byte_of <$> [116; 111; 111; 108])) [] true)) as [H _].
  rewrite H. reflexivity.
Defined.
