(* ===== verification/Resumable.v ===== *)
(** The loops the resumable operations of src/src/common.rs are made of.

    Each operation is an async function with its progress in [self]: a loop
    that fills a slice from a reader or drains one into a writer, with the
    polls as its only await points.  A suspended loop has its whole progress in
    the returned offset and buffer.  Big-endian integers are stored and loaded
    by the byte loops of the code. *)

From stdpp Require Import base option list numbers.
From Stdlib Require Import NArith Lia.
From S2P Require Import Prelude AsyncIO.
#[local] Open Scope N_scope.

(** [for i in (0..n).rev() { buf[i] = (v & 0xFF) as u8; v >>= 8; }] *)
Fixpoint be_store_loop (n : nat) (v : N) (buf : bytes) : bytes :=
  match n with
  | O => buf
  | S i => be_store_loop i (N.shiftr v 8) (<[i := byte_of (N.land v 255)]> buf)
  end.

(** [for i in 0..8 { acc <<= 8; acc += buf[i] as u64; }] *)
Definition be_load_loop (acc : N) (buf : bytes) : N :=
  fold_left (λ a b, wadd (wshl a 8) (byte_val b)) (take 8 buf) acc.

(** Why a loop stopped: its condition is false; a poll was pending; an error;
    it iterated more often than the fuel allows. *)
Inductive LoopEnd :=
  | LDone
  | LPending
  | LErr (e : Error)
  | LFuel.

(** [while self.offset < bound {
       let n = read.read(&mut buf[(self.offset - base)..]).await?;
       if n == 0 { bail!("Connection closed by peer"); }
       self.offset += n; }] *)
Fixpoint read_loop {R} `{!AsyncRead R} (fuel : nat) (base bound off : N) (buf : bytes) (r : R)
    : LoopEnd * N * bytes * R :=
  if off <? bound then
    match fuel with
    | O => (LFuel, off, buf, r)
    | S fuel' =>
        let at_ := N.to_nat (off - base) in
        match poll_read r (length buf - at_)%nat with
        | (Pending, r') => (LPending, off, buf, r')
        | (Ready (Err e), r') => (LErr e, off, buf, r')
        | (Ready (Ok []), r') => (LErr EClosed, off, buf, r')
        | (Ready (Ok (b :: bs)), r') =>
            read_loop fuel' base bound (wadd off (lenN (b :: bs))) (write_at buf at_ (b :: bs)) r'
        end
    end
  else (LDone, off, buf, r).

(** [while self.offset < buf.len() {
       let n = write.write(&buf[self.offset..]).await?;
       self.offset += n; }] *)
Fixpoint write_loop {W} `{!AsyncWrite W} (fuel : nat) (off : N) (buf : bytes) (w : W)
    : LoopEnd * N * W :=
  if off <? lenN buf then
    match fuel with
    | O => (LFuel, off, w)
    | S fuel' =>
        match poll_write w (drop (N.to_nat off) buf) with
        | (Pending, w') => (LPending, off, w')
        | (Ready (Err e), w') => (LErr e, off, w')
        | (Ready (Ok n), w') => write_loop fuel' (wadd off (N.of_nat n)) buf w'
        end
    end
  else (LDone, off, w).

(** ** The byte loops are big-endian encoding and decoding *)

Lemma byte_of_land v : byte_of (N.land v 255) = byte_of v.
Proof.
  unfold byte_of. change 255 with (N.ones 8). rewrite N.land_ones.
  by rewrite N.Div0.mod_mod.
Qed.

Lemma be_store_loop_spec n v buf :
  (n ≤ length buf)%nat → be_store_loop n v buf = be_bytes n v ++ drop n buf.
Proof.
  revert v buf. induction n as [|n IH]; intros v buf Hn; [done|].
  change (be_bytes (S n) v) with (be_bytes n (v / 256) ++ [byte_of v]).
  cbn [be_store_loop]. rewrite IH by len_lia.
  rewrite N.shiftr_div_pow2, byte_of_land. change (2 ^ 8) with 256.
  rewrite <-(assoc_L (++)). f_equal.
  rewrite insert_take_drop by lia.
  by rewrite drop_app_length' by len_lia.
Qed.

Lemma be_store_loop_8 v : be_store_loop 8 v (replicate 8 Byte.x00) = be_bytes 8 v.
Proof.
  rewrite be_store_loop_spec by (rewrite length_replicate; lia).
  rewrite drop_ge by (rewrite length_replicate; lia). apply (right_id_L [] (++)).
Qed.

Lemma be_load_fold bs acc :
  acc * 256 ^ lenN bs + be_val bs < W64 →
  fold_left (λ a b, wadd (wshl a 8) (byte_val b)) bs acc = acc * 256 ^ lenN bs + be_val bs.
Proof.
  induction bs as [|b bs IH] using rev_ind; intros H.
  - change (lenN []) with 0. change (be_val []) with 0. simpl. lia.
  - rewrite fold_left_app, be_val_snoc in *. cbn [fold_left].
    replace (lenN (bs ++ [b])) with (N.succ (lenN bs)) in * by len_lia.
    rewrite N.pow_succ_r' in *.
    rewrite IH by lia. unfold wshl, wrap64. rewrite N.shiftl_mul_pow2. change (2 ^ 8) with 256.
    rewrite N.mod_small by lia. rewrite wadd_small; lia.
Qed.

Lemma be_load_loop_8 buf : length buf = 8%nat → be_load_loop 0 buf = be_val buf.
Proof.
  intros H. unfold be_load_loop. rewrite take_ge by lia.
  rewrite be_load_fold; [lia|]. pose proof (be_val8_bound _ H). lia.
Qed.

(** ** The read loop *)

Section read_loop.
Context {R : Type} `{!AsyncRead R, !AsyncReadLaws R}.

(** What a run of the read loop consumes from the transport is what it adds to
    the filled part of the buffer; it stops short of [bound] only when the
    transport is pending, fails or has ended. *)
Definition read_loop_post (base bound off : N) (buf : bytes) (r : R)
    (e : LoopEnd) (off' : N) (buf' : bytes) (r' : R) : Prop :=
  ∃ bs, incoming r = bs ++ incoming r' ∧ off' = off + lenN bs ∧ off' ≤ bound
    ∧ length buf' = length buf
    ∧ take (N.to_nat (off' - base)) buf' = take (N.to_nat (off - base)) buf ++ bs
    ∧ match e with
      | LDone => off' = bound
      | LPending => off' < bound
      | LErr err => off' < bound ∧ err = EClosed ∧ incoming r' = []
      | LFuel => False
      end.

Lemma read_loop_post_stop base bound off buf r e r' :
  off ≤ bound → incoming r = incoming r' →
  match e with
  | LDone => off = bound
  | LPending => off < bound
  | LErr err => off < bound ∧ err = EClosed ∧ incoming r' = []
  | LFuel => False
  end →
  read_loop_post base bound off buf r e off buf r'.
Proof.
  intros Hb Hi He. exists []. cbn [app]. rewrite (right_id_L [] (++)).
  change (lenN []) with 0. rewrite N.add_0_r. done.
Qed.

Lemma read_loop_spec fuel base bound off buf (r : R) e off' buf' r' :
  read_loop fuel base bound off buf r = (e, off', buf', r') →
  bound < W64 → base ≤ off ≤ bound → lenN buf = bound - base →
  (N.to_nat (bound - off) ≤ fuel)%nat →
  (∃ k, e = LErr (EIo k)) ∨ read_loop_post base bound off buf r e off' buf' r'.
Proof.
  revert off buf r. induction fuel as [|fuel IH]; intros off buf r; cbn [read_loop].
  - destruct (N.ltb_spec off bound); intros; simplify_eq; [lia|].
    right. apply read_loop_post_stop; [lia|done|lia].
  - destruct (N.ltb_spec off bound) as [Hlt|Hge]; intros E Hw Hb Hlen Hf.
    2:{ simplify_eq. right. apply read_loop_post_stop; [lia|done|lia]. }
    destruct (poll_read r _) as [[[[|b bs]|err]|] r1] eqn:Hp.
    + simplify_eq. right. pose proof (read_ready _ _ _ _ Hp) as [_ Hi]. cbn [app] in Hi.
      apply read_eof in Hp; [|len_lia].
      apply read_loop_post_stop; [lia|done|]. split_and!; congruence.
    + apply read_ready in Hp as [Hcap Hi].
      rewrite wadd_small in E by len_lia.
      assert (N.to_nat (off - base) + length (b :: bs) ≤ length buf)%nat as Hfit by len_lia.
      apply IH in E as [Herr|(bs' & H1 & H2 & H3 & H4 & H5 & H6)];
        [by left| |done|len_lia|unfold lenN; rewrite length_write_at by done; len_lia|len_lia].
      right. exists ((b :: bs) ++ bs'). rewrite Hi, H1, <-(assoc_L (++)).
      rewrite length_write_at in H4 by done.
      split_and!; [done|len_lia|done|done| |done].
      rewrite H5, (assoc_L (++)). f_equal.
      replace (N.to_nat (off + lenN (b :: bs) - base))
        with (N.to_nat (off - base) + length (b :: bs))%nat by len_lia.
      by apply take_write_at.
    + apply read_error in Hp as [k ->]. simplify_eq. eauto.
    + apply read_pending in Hp. simplify_eq. right.
      apply read_loop_post_stop; [lia|done|done].
Qed.

(** An error that is not one of the transport is its end. *)
Lemma read_loop_ended `{!LiveRead R} fuel base bound off buf (r : R) e off' buf' r' :
  read_loop fuel base bound off buf r = (e, off', buf', r') →
  bound < W64 → base ≤ off ≤ bound → lenN buf = bound - base →
  ended r' = ended r ∧ ∀ err, e = LErr err → (∃ k, err = EIo k) ∨ ended r = true.
Proof.
  revert off buf r. induction fuel as [|fuel IH]; intros off buf r; cbn [read_loop];
    (destruct (N.ltb_spec off bound); [|by intros; simplify_eq]); [by intros; simplify_eq|].
  destruct (poll_read r _) as [[[[|b bs]|err]|] r1] eqn:Hp; intros E Hw Hb Hlen;
    pose proof (read_keeps_ended _ _ _ _ Hp) as Hk.
  - simplify_eq. split; [done|]. intros err _. right. eapply read_eof_ended; [exact Hp|len_lia].
  - apply read_ready in Hp as [Hcap _].
    rewrite wadd_small in E by len_lia.
    apply IH in E as [E1 E2]; [rewrite <-Hk; done|done|len_lia|].
    unfold lenN. rewrite length_write_at by len_lia. len_lia.
  - simplify_eq. split; [done|]. intros err' [= <-]. left. by eapply read_error.
  - by simplify_eq.
Qed.

(** A suspended run has used up one of the stalls of the transport. *)
Lemma read_loop_stalls `{!FairRead R} fuel base bound off buf (r : R) e off' buf' r' :
  read_loop fuel base bound off buf r = (e, off', buf', r') →
  (stalls r' ≤ stalls r)%nat ∧ (e = LPending → (stalls r' < stalls r)%nat).
Proof.
  revert off buf r. induction fuel as [|fuel IH]; intros off buf r; cbn [read_loop];
    (destruct (N.ltb_spec off bound); [|by intros; simplify_eq]); [by intros; simplify_eq|].
  destruct (poll_read r _) as [[[[|b bs]|err]|] r1] eqn:Hp; intros E.
  - simplify_eq. apply stalls_ready in Hp. done.
  - apply IH in E. apply stalls_ready in Hp. intuition lia.
  - simplify_eq. apply stalls_ready in Hp. done.
  - simplify_eq. apply stalls_pending in Hp. intuition lia.
Qed.

Lemma read_loop_incoming fuel base bound off buf (r : R) e off' buf' r' :
  read_loop fuel base bound off buf r = (e, off', buf', r') → (∀ err, e ≠ LErr err) →
  (length (incoming r') ≤ length (incoming r))%nat.
Proof.
  revert off buf r. induction fuel as [|fuel IH]; intros off buf r; cbn [read_loop];
    (destruct (N.ltb_spec off bound); [|by intros; simplify_eq]); [by intros; simplify_eq|].
  destruct (poll_read r _) as [[[[|b bs]|err]|] r1] eqn:Hp; intros E He.
  - simplify_eq. by destruct (He EClosed).
  - apply read_ready in Hp as [_ Hin]. specialize (IH _ _ _ E He). rewrite Hin, length_app. lia.
  - simplify_eq. by destruct (He err).
  - simplify_eq. apply read_pending in Hp. by rewrite Hp.
Qed.
End read_loop.

(** ** The write loop *)

Section write_loop.
Context {W : Type} `{!AsyncWrite W, !AsyncWriteLaws W}.

(** A run of the write loop sends the bytes from the old offset to the new. *)
Lemma write_loop_spec fuel off buf (w : W) e off' w' :
  write_loop fuel off buf w = (e, off', w') →
  off ≤ lenN buf → lenN buf < W64 →
  off ≤ off' ≤ lenN buf
  ∧ take (N.to_nat off') buf = take (N.to_nat off) buf
                               ++ drop (length (written w)) (written w')
  ∧ written w' = written w ++ drop (length (written w)) (written w')
  ∧ match e with
    | LDone => off' = lenN buf
    | LErr err => off' < lenN buf ∧ ∃ k, err = EIo k
    | _ => off' < lenN buf
    end.
Proof.
  assert (∀ (w : W) off, take (N.to_nat off) buf
    = take (N.to_nat off) buf ++ drop (length (written w)) (written w)) as Hnil.
  { intros w0 o. by rewrite drop_all, (right_id_L [] (++)). }
  assert (∀ (w : W), written w = written w ++ drop (length (written w)) (written w)) as Hnil'.
  { intros w0. by rewrite drop_all, (right_id_L [] (++)). }
  revert off w. induction fuel as [|fuel IH]; intros off w; cbn [write_loop];
    (destruct (N.ltb_spec off (lenN buf)) as [Hlt|Hge];
      [|by intros; simplify_eq; split_and!; auto; lia]).
  { intros; simplify_eq; split_and!; auto; lia. }
  destruct (poll_write w _) as [[[n|err]|] w1] eqn:Hp; intros E Hle Hw.
  - apply write_ready in Hp as [Hn Hwr].
    rewrite wadd_small in E by len_lia.
    apply IH in E as (H1 & H2 & H3 & H4); [|len_lia|done].
    split; [lia|]. rewrite Hwr in H2, H3. rewrite length_app in H2, H3.
    assert (drop (length (written w)) (written w')
      = take n (drop (N.to_nat off) buf)
        ++ drop (length (written w) + length (take n (drop (N.to_nat off) buf))) (written w')) as Hd.
    { rewrite H3 at 1. rewrite <-(assoc_L (++)). by rewrite drop_app_length. }
    split_and!; [| |done].
    + rewrite H2, Hd, (assoc_L (++)). f_equal.
      replace (N.to_nat (off + N.of_nat n)) with (N.to_nat off + n)%nat by lia.
      by rewrite take_take_drop.
    + rewrite Hd, (assoc_L (++)). exact H3.
  - apply write_error in Hp as [Hwr Hk]. simplify_eq. rewrite Hwr. split_and!; auto; lia.
  - apply write_pending in Hp as Hwr. simplify_eq. rewrite Hwr. split_and!; auto; lia.
Qed.

Lemma write_loop_prefix fuel off buf (w : W) e off' w' :
  write_loop fuel off buf w = (e, off', w') → written w `prefix_of` written w'.
Proof.
  revert off w. induction fuel as [|fuel IH]; intros off w; cbn [write_loop];
    (destruct (N.ltb_spec off (lenN buf)); [|by intros; simplify_eq]); [by intros; simplify_eq|].
  destruct (poll_write w _) as [[[n|err]|] w1] eqn:Hp; intros E.
  - apply write_ready in Hp as [_ Hw]. apply IH in E. rewrite Hw in E.
    etrans; [|exact E]. by apply prefix_app_r.
  - apply write_error in Hp as [Hw _]. simplify_eq. by rewrite Hw.
  - apply write_pending in Hp. simplify_eq. by rewrite Hp.
Qed.

(** With a writer that makes progress, as many iterations as bytes are enough. *)
Lemma write_loop_fuel `{!WriteProgress W} fuel off buf (w : W) off' w' :
  lenN buf < W64 → (length buf - N.to_nat off ≤ fuel)%nat →
  write_loop fuel off buf w ≠ (LFuel, off', w').
Proof.
  intros Hw. revert off w. induction fuel as [|fuel IH]; intros off w Hf; cbn [write_loop];
    (destruct (N.ltb_spec off (lenN buf)) as [Hlt|Hge]; [|done]); [len_lia|].
  destruct (poll_write w _) as [[[n|err]|] w1] eqn:Hp; [|done..].
  apply write_ready in Hp as Hn. apply write_progress in Hp.
  - destruct Hn as [Hn _]. rewrite wadd_small by len_lia. apply IH. lia.
  - intros Hnil. apply (f_equal length) in Hnil. len_lia.
Qed.

Lemma write_loop_stalls `{!FairWrite W} fuel off buf (w : W) e off' w' :
  write_loop fuel off buf w = (e, off', w') →
  (wstalls w' ≤ wstalls w)%nat ∧ (e = LPending → (wstalls w' < wstalls w)%nat).
Proof.
  revert off w. induction fuel as [|fuel IH]; intros off w; cbn [write_loop];
    (destruct (off <? lenN buf); [|by intros; simplify_eq]); [by intros; simplify_eq|].
  destruct (poll_write w _) as [[[n|err]|] w1] eqn:Hp; intros E.
  - apply wstalls_ready in Hp. apply IH in E as [H1 H2]. split; [lia|]. intros H. specialize (H2 H). lia.
  - apply wstalls_ready in Hp. by simplify_eq.
  - apply wstalls_pending in Hp. simplify_eq. split; [lia|done].
Qed.
End write_loop.

(** ** What a byte sequence holds: items parsed one after the other *)

Section parses.
Context {A : Type} (parse : bytes → Result (A * bytes)).

(** [l] starts with the items [xs], followed by [rest]. *)
Inductive parses : bytes → list A → bytes → Prop :=
  | parses_nil l : parses l [] l
  | parses_snoc l xs rest x rest' :
      parses l xs rest → parse rest = Ok (x, rest') → parses l (xs ++ [x]) rest'.

Lemma parses_det l xs rest ys rest2 :
  parses l xs rest → parses l ys rest2 → length xs = length ys → xs = ys ∧ rest = rest2.
Proof.
  intros Hf. revert ys rest2.
  induction Hf as [l|l xs rest x rest' Hf IH Hp]; intros ys rest2 H2 Hlen.
  - inversion H2; subst; [done|]. rewrite length_app in Hlen. cbn in Hlen. lia.
  - inversion H2 as [|l0 ys3 rest3 y rest3' Hf3 Hp3]; subst.
    { rewrite length_app in Hlen. cbn in Hlen. lia. }
    rewrite !length_app in Hlen. cbn in Hlen.
    destruct (IH ys3 rest3 Hf3) as [-> ->]; [lia|]. rewrite Hp in Hp3. by simplify_eq.
Qed.

Lemma parses_take l xs rest n : parses l xs rest → (n ≤ length xs)%nat →
  ∃ rest', parses l (take n xs) rest'
  ∧ (n < length xs → ∃ x, parse rest' = Ok x)%nat.
Proof.
  induction 1 as [l|l xs rest x rest' Hf IH Hp]; intros Hn.
  - exists l. rewrite take_nil. split; [constructor|]. cbn in Hn |- *. lia.
  - rewrite length_app in Hn. cbn in Hn.
    destruct (decide (n ≤ length xs)%nat) as [Hle|Hgt].
    + destruct (IH Hle) as (r & H1 & H2). rewrite take_app_le by done. exists r.
      split; [done|]. intros _. destruct (decide (n < length xs)%nat) as [Hlt|Hge]; [auto|].
      assert (n = length xs) as -> by lia. rewrite firstn_all in H1.
      destruct (parses_det _ _ _ _ _ Hf H1 eq_refl) as [_ <-]. by eexists.
    + exists rest'. rewrite take_ge by (rewrite length_app; cbn; lia).
      split; [by eapply parses_snoc|]. rewrite length_app. cbn. lia.
Qed.

(** A sequence that cannot be continued has all the items there are. *)
Lemma parses_maximal l xs rest ys rest2 e :
  parses l xs rest → parse rest = Err e → parses l ys rest2 → (length ys ≤ length xs)%nat.
Proof.
  intros H1 E1 H2. destruct (decide (length xs < length ys)%nat) as [Hlt|]; [|lia].
  destruct (parses_take _ _ _ (length xs) H2) as (r & H3 & Hx); [lia|].
  destruct (Hx Hlt) as [x Hx'].
  destruct (parses_det _ _ _ _ _ H1 H3) as [_ <-]; [rewrite length_take; lia|congruence].
Qed.

(** All the items, up to bytes that do not start with one. *)
Lemma parses_all l xs rest ys rest2 e e2 :
  parses l xs rest → parse rest = Err e → parses l ys rest2 → parse rest2 = Err e2 →
  xs = ys ∧ rest = rest2.
Proof.
  intros H1 E1 H2 E2. apply (parses_det _ _ _ _ _ H1 H2).
  pose proof (parses_maximal _ _ _ _ _ _ H1 E1 H2).
  pose proof (parses_maximal _ _ _ _ _ _ H2 E2 H1). lia.
Qed.

(** The shorter of two sequences is a part of the longer. *)
Lemma parses_prefix l xs rest ys rest2 :
  parses l xs rest → parses l ys rest2 → (length xs ≤ length ys)%nat →
  xs = take (length xs) ys.
Proof.
  intros H1 H2 Hle. destruct (parses_take _ _ _ (length xs) H2 Hle) as (r & H3 & _).
  destruct (parses_det _ _ _ _ _ H1 H3) as [Hx _]; [rewrite length_take; lia|exact Hx].
Qed.

(** Frames written one after the other are parsed so. *)
Lemma parses_frames (frame : A → bytes) xs rest :
  (∀ x l, x ∈ xs → parse (frame x ++ l) = Ok (x, l)) →
  parses (concat (frame <$> xs) ++ rest) xs rest.
Proof.
  revert rest. induction xs as [|x xs IH] using rev_ind; intros rest Hp; [constructor|].
  rewrite fmap_app, concat_app, <-(assoc_L (++)). cbn. rewrite (right_id_L [] (++)).
  eapply parses_snoc; [apply IH|apply Hp, elem_of_app; right; by left].
  intros y l Hy. apply Hp, elem_of_app. by left.
Qed.

(** A parser that what follows the item does not disturb. *)
Context (Hext : ∀ l x r t, parse l = Ok (x, r) → parse (l ++ t) = Ok (x, r ++ t)).

Lemma parses_extend l xs rest t : parses l xs rest → parses (l ++ t) xs (rest ++ t).
Proof.
  induction 1 as [|l xs rest x rest' _ IH Hp]; [constructor|].
  eapply parses_snoc; [exact IH|]. by apply Hext.
Qed.

(** What is read of the beginning of frames is the beginning of their items. *)
Lemma parses_of_frames (frame : A → bytes) xs l ys rest e :
  (∀ x l, x ∈ xs → parse (frame x ++ l) = Ok (x, l)) → parse [] = Err e →
  l `prefix_of` concat (frame <$> xs) → parses l ys rest →
  ys = take (length ys) xs ∧ (length ys ≤ length xs)%nat.
Proof.
  intros Hf He [t Ht] Hl. apply (parses_extend _ _ _ t) in Hl. rewrite <-Ht in Hl.
  pose proof (parses_frames frame xs [] Hf) as Hx. rewrite (right_id_L [] (++)) in Hx.
  pose proof (parses_maximal _ _ _ _ _ _ Hx He Hl) as Hle.
  split; [|done]. by eapply parses_prefix.
Qed.
End parses.
