(* ===== verification/ResumableString.v ===== *)
(** The resumable strings of src/src/common.rs (lines 72-168):
    [ResumableReadString] and [ResumableWriteString].

    Each operation is a function of [self] and the transport.  [Suspended pc]
    is the await point at which a run is pending; [resume pc] is the future
    polled again at that point, [read_on] (or [write_to]) a new call after the
    future was dropped by [select!]. *)

From stdpp Require Import base option list numbers.
From Stdlib Require Import NArith Lia.
From S2P Require Import Prelude AsyncIO Utf8 Wire Resumable.
#[local] Open Scope N_scope.

Module ResumableReadString.

Record t := Mk { offset : N; size : N; max_len : N; buf : bytes }.

Inductive pc := AtHeader | AtPayload.

(** [ResumableReadString::new] *)
Definition new (max_len : N) : t := Mk 0 0 max_len [].

Section ops.
Context {R : Type} `{!AsyncRead R}.

(** The second loop, lines 118-130, and the return. *)
Definition payload_loop (self : t) (r : R) : Outcome pc bytes * t * R :=
  let bound := wadd (size self) 8 in
  let '(e, off, b, r') :=
    read_loop (N.to_nat (bound - offset self)) 8 bound (offset self) (buf self) r in
  match e with
  | LDone => (Returned (string_from_utf8 b), Mk 0 0 (max_len self) [], r')
  | LPending => (Suspended AtPayload, Mk off (size self) (max_len self) b, r')
  | LErr err => (Returned (Err err), Mk off (size self) (max_len self) b, r')
  | LFuel => (OutOfFuel, Mk off (size self) (max_len self) b, r')
  end.

(** Lines 103-116, once the 8 bytes of the header are in the buffer. *)
Definition header_done (self : t) (r : R) : Outcome pc bytes * t * R :=
  let size' := be_load_loop (size self) (buf self) in
  if max_len self <? size'
  then (Returned (Err (EStringTooLong size' (max_len self))),
        Mk (offset self) size' (max_len self) (buf self), r)
  else payload_loop
         (Mk (offset self) size' (max_len self) (resize (N.to_nat size') Byte.x00 [])) r.

(** The first loop, lines 96-102. *)
Definition header_loop (self : t) (r : R) : Outcome pc bytes * t * R :=
  let '(e, off, b, r') :=
    read_loop (N.to_nat (8 - offset self)) 0 8 (offset self) (buf self) r in
  let self' := Mk off (size self) (max_len self) b in
  match e with
  | LDone => header_done self' r'
  | LPending => (Suspended AtHeader, self', r')
  | LErr err => (Returned (Err err), self', r')
  | LFuel => (OutOfFuel, self', r')
  end.

(** [read_on] *)
Definition read_on (self : t) (r : R) : Outcome pc bytes * t * R :=
  if size self =? 0
  then header_loop (Mk (offset self) (size self) (max_len self) (resize 8 Byte.x00 (buf self))) r
  else payload_loop self r.

(** The future of a suspended call, polled again. *)
Definition resume (p : pc) : t → R → Outcome pc bytes * t * R :=
  match p with
  | AtHeader => header_loop
  | AtPayload => payload_loop
  end.

(** [read_on] called again each time its future was pending and dropped, at
    most [n] times. *)
Fixpoint drive (n : nat) (self : t) (r : R) : Outcome pc bytes * t * R :=
  match read_on self r with
  | (Suspended p, self', r') =>
      match n with
      | O => (Suspended p, self', r')
      | S n' => drive n' self' r'
      end
  | res => res
  end.
End ops.

(** [holds self c]: [self] has consumed the bytes [c] of an unfinished frame. *)
Inductive holds (self : t) (c : bytes) : Prop :=
  | holds_header :
      size self = 0 → offset self = lenN c → lenN c < 8 →
      take (length c) (resize 8 Byte.x00 (buf self)) = c → holds self c
  | holds_payload s :
      size self = lenN (buf self) → 0 < size self ≤ max_len self →
      c = be_bytes 8 (size self) ++ s → offset self = lenN c → lenN s < size self →
      take (length s) (buf self) = s → holds self c.

(** The state a run suspended at [p] leaves. *)
Definition at_pc (p : pc) (self : t) : Prop :=
  match p with
  | AtHeader => size self = 0 ∧ length (buf self) = 8%nat
  | AtPayload => size self ≠ 0
  end.

(** What a call may answer when the bytes not yet turned into a result, those
    held by [self] and those to come, are [total]. *)
Definition answers {R} `{!AsyncRead R} (max : N) (total : bytes)
    (res : Outcome pc bytes * t * R) : Prop :=
  let '(o, self', r') := res in
  max_len self' = max ∧
  match o with
  | Suspended p => ∃ c, total = c ++ incoming r' ∧ holds self' c ∧ at_pc p self'
  | Returned (Ok s) => parse_string max total = Ok (s, incoming r') ∧ self' = new max
  | Returned (Err (EIo _)) => True
  | Returned (Err e) => parse_string max total = Err e
  | OutOfFuel => False
  end.

Lemma holds_new max : holds (new max) [].
Proof. by apply holds_header. Qed.

Section proofs.
Context {R : Type} `{!AsyncRead R, !AsyncReadLaws R}.

(** The error of a transport that ends inside the frame. *)
Lemma parse_string_short max c :
  (length c < 8)%nat → parse_string max c = Err EClosed.
Proof. intros H. unfold parse_string. by rewrite decide_True. Qed.

Lemma parse_string_header max sz rest : sz < W64 →
  parse_string max (be_bytes 8 sz ++ rest)
  = if max <? sz then Err (EStringTooLong sz max)
    else if decide (lenN rest < sz) then Err EClosed
    else match string_from_utf8 (take (N.to_nat sz) rest) with
         | Ok s => Ok (s, drop (N.to_nat sz) rest)
         | Err e => Err e
         end.
Proof.
  intros Hsz. unfold parse_string. rewrite decide_False by len_lia.
  rewrite take_app_length', drop_app_length' by (by rewrite length_be_bytes).
  by rewrite be_val_bytes8.
Qed.

(** The payload loop from any position of the payload. *)
Lemma payload_loop_answers self s (r : R) :
  size self = lenN (buf self) → size self ≤ max_len self → max_len self + 8 < W64 →
  offset self = 8 + lenN s → lenN s ≤ size self → take (length s) (buf self) = s →
  answers (max_len self) (be_bytes 8 (size self) ++ s ++ incoming r) (payload_loop self r).
Proof.
  intros Hsz Hmax Hw Hoff Hle Htk. unfold payload_loop.
  rewrite (wadd_small (size self) 8) by lia.
  destruct (read_loop _ _ _ _ _ _) as [[[e off] b] r'] eqn:E.
  apply read_loop_spec in E as [[k ->]|(bs & H1 & H2 & H3 & H4 & H5 & H6)];
    [done|..|len_lia|len_lia|len_lia|len_lia].
  replace (N.to_nat (offset self - 8)) with (length s) in H5 by len_lia.
  rewrite Htk in H5. rewrite H1.
  replace (N.to_nat (off - 8)) with (length (s ++ bs)) in H5 by len_lia.
  destruct e as [| |err|]; [| | |done].
  - split; [done|]. rewrite parse_string_header by lia.
    replace (max_len self <? size self) with false by (symmetry; apply N.ltb_ge; lia).
    assert (length (s ++ bs) = length b) as Hsb by len_lia.
    rewrite Hsb, firstn_all in H5. subst b.
    rewrite decide_False by len_lia. rewrite (assoc_L (++) s).
    rewrite take_app_length', drop_app_length' by len_lia.
    destruct (string_from_utf8 (s ++ bs)) as [x|err] eqn:Hu; [done|].
    unfold string_from_utf8 in Hu. destruct (utf8_valid _); by simplify_eq.
  - split; [done|]. exists (be_bytes 8 (size self) ++ s ++ bs).
    split; [by rewrite <-!(assoc_L (++))|].
    split; [|simpl; len_lia].
    apply holds_payload with (s := s ++ bs); simpl; try done; len_lia.
  - destruct H6 as (H6 & -> & Hnil). split; [done|]. rewrite Hnil, (right_id_L [] (++)).
    rewrite parse_string_header by lia.
    replace (max_len self <? size self) with false by (symmetry; apply N.ltb_ge; lia).
    rewrite decide_True by len_lia. done.
Qed.

Lemma header_done_answers self (r : R) :
  size self = 0 → length (buf self) = 8%nat → offset self = 8 → max_len self + 8 < W64 →
  answers (max_len self) (buf self ++ incoming r) (header_done self r).
Proof.
  intros Hs Hb Hoff Hw. unfold header_done.
  rewrite Hs, be_load_loop_8 by done.
  pose proof (be_val8_bound _ Hb) as Hsz. cbv zeta.
  rewrite <-(be_bytes8_val (buf self)) at 1 by done.
  set (sz := be_val (buf self)) in *.
  destruct (N.ltb_spec (max_len self) sz) as [Hlt|Hge].
  - split; [done|]. rewrite parse_string_header by done.
    apply N.ltb_lt in Hlt. by rewrite Hlt.
  - pose proof (payload_loop_answers
      (Mk (offset self) sz (max_len self) (resize (N.to_nat sz) Byte.x00 [])) [] r) as H.
    cbn [size buf max_len offset app] in H. apply H; try done; len_lia.
Qed.

Lemma header_loop_answers self c (r : R) :
  size self = 0 → offset self = lenN c → lenN c ≤ 8 → length (buf self) = 8%nat →
  take (length c) (buf self) = c → max_len self + 8 < W64 →
  answers (max_len self) (c ++ incoming r) (header_loop self r).
Proof.
  intros Hs Hoff Hc Hb Htk Hw. unfold header_loop.
  destruct (read_loop _ _ _ _ _ _) as [[[e off] b] r'] eqn:E.
  apply read_loop_spec in E as [[k ->]|(bs & H1 & H2 & H3 & H4 & H5 & H6)];
    [done|..|by vm_compute|len_lia|len_lia|len_lia].
  replace (N.to_nat (offset self - 0)) with (length c) in H5 by len_lia.
  rewrite Htk in H5. rewrite H1.
  replace (N.to_nat (off - 0)) with (length (c ++ bs)) in H5 by len_lia.
  rewrite (assoc_L (++)).
  destruct e as [| |err|]; [| | |done].
  - assert (length (c ++ bs) = length b) as Hcb by len_lia.
    rewrite Hcb, firstn_all in H5. rewrite <-H5.
    apply (header_done_answers (Mk off (size self) (max_len self) b)); simpl; try done; lia.
  - split; [done|]. exists (c ++ bs). split; [done|].
    split; [|split; simpl; [done|lia]].
    apply holds_header; simpl; try len_lia.
    rewrite resize_all_alt by lia. done.
  - destruct H6 as (H6 & -> & Hnil). split; [done|]. rewrite Hnil, (right_id_L [] (++)).
    apply parse_string_short. len_lia.
Qed.

(** Any call of [read_on] on an unfinished frame. *)
Lemma read_on_answers self c (r : R) :
  holds self c → max_len self + 8 < W64 →
  answers (max_len self) (c ++ incoming r) (read_on self r).
Proof.
  intros [Hs Hoff Hc Htk|s Hs Hsz Hc Hoff Hlt Htk] Hw; unfold read_on.
  - rewrite Hs. simpl. apply (header_loop_answers (Mk _ _ _ _)); simpl; try done; try lia.
    by rewrite length_resize.
  - destruct (N.eqb_spec (size self) 0) as [|_]; [lia|].
    subst c. rewrite <-(assoc_L (++)). apply payload_loop_answers; try done; try lia.
    rewrite Hoff. len_lia.
Qed.

Lemma at_pc_resume p self (r : R) : at_pc p self → read_on self r = resume p self r.
Proof.
  destruct p; unfold read_on; simpl.
  - intros [Hs Hb]. rewrite Hs. simpl. destruct self; simpl in *. subst.
    by rewrite resize_all_alt.
  - intros H%N.eqb_neq. by rewrite H.
Qed.

(** The future that is kept, if there is one, polled again: a new call. *)
Lemma polled_again op self (r : R) : (∀ p, op = Some p → at_pc p self) →
  match op with None => read_on | Some p => resume p end self r = read_on self r.
Proof. intros Hp. destruct op as [p|]; [|done]. symmetry. by apply at_pc_resume, Hp. Qed.

Lemma payload_loop_stalls `{!FairRead R} self (r : R) o self' r' :
  payload_loop self r = (o, self', r') →
  (stalls r' ≤ stalls r)%nat ∧ ∀ p, o = Suspended p → (stalls r' < stalls r)%nat.
Proof.
  unfold payload_loop. destruct (read_loop _ _ _ _ _ _) as [[[e off] b] r1] eqn:E.
  apply read_loop_stalls in E as [H1 H2].
  destruct e; intros; simplify_eq; split; auto; intros; done.
Qed.

Lemma read_on_stalls `{!FairRead R} self (r : R) o self' r' :
  read_on self r = (o, self', r') →
  (stalls r' ≤ stalls r)%nat ∧ ∀ p, o = Suspended p → (stalls r' < stalls r)%nat.
Proof.
  unfold read_on. case_match; [|apply payload_loop_stalls].
  unfold header_loop. destruct (read_loop _ _ _ _ _ _) as [[[e off] b] r1] eqn:E.
  apply read_loop_stalls in E as [H1 H2].
  destruct e; intros E'; simplify_eq; try (split; auto; intros; done).
  unfold header_done in E'. cbv zeta in E'.
  destruct (_ <? _); [simplify_eq; split; auto; intros; done|].
  apply payload_loop_stalls in E' as [H3 H4]. split; [lia|].
  intros p Hp. apply H4 in Hp. lia.
Qed.

Lemma payload_loop_incoming self (r : R) o self' r' :
  payload_loop self r = (o, self', r') → (∀ e, o ≠ Returned (Err e)) →
  (length (incoming r') ≤ length (incoming r))%nat.
Proof.
  unfold payload_loop. destruct (read_loop _ _ _ _ _ _) as [[[e off] b] r1] eqn:E.
  intros E' Ho. apply read_loop_incoming in E; [destruct e; by simplify_eq|].
  intros err ->. simplify_eq. by destruct (Ho err).
Qed.

Lemma read_on_incoming self (r : R) o self' r' :
  read_on self r = (o, self', r') → (∀ e, o ≠ Returned (Err e)) →
  (length (incoming r') ≤ length (incoming r))%nat.
Proof.
  unfold read_on. case_match; [|apply payload_loop_incoming].
  unfold header_loop. destruct (read_loop _ _ _ _ _ _) as [[[e off] b] r1] eqn:E.
  intros E' Ho. apply read_loop_incoming in E.
  - destruct e; simplify_eq; try done. unfold header_done in E'. cbv zeta in E'.
    destruct (_ <? _); [simplify_eq; by edestruct Ho|].
    apply payload_loop_incoming in E'; [lia|done].
  - intros err ->. simplify_eq. by destruct (Ho err).
Qed.

(** A string that is completed takes at least a byte. *)
Lemma holds_takes self c rest x rest' : holds self c → max_len self + 8 < W64 →
  parse_string (max_len self) (c ++ rest) = Ok (x, rest') → (length rest' < length rest)%nat.
Proof.
  intros Hho Hw Hp. apply parse_string_ok in Hp as [E (_ & _ & Hx)].
  pose proof (f_equal length E) as Hl. rewrite !length_app, length_string_frame in Hl.
  destruct Hho as [_ _ Hc _|s Hsz Hb -> _ Hlt _]; [len_lia|].
  unfold string_frame in E. rewrite <-!(assoc_L (++)) in E.
  apply app_inj_1 in E as [E1 _]; [|by rewrite !length_be_bytes].
  apply (f_equal be_val) in E1. rewrite !be_val_bytes8 in E1 by lia. len_lia.
Qed.

(** Calling again after every cancellation reaches an answer. *)
Lemma drive_answers `{!FairRead R} n self c (r : R) :
  holds self c → max_len self + 8 < W64 → (stalls r ≤ n)%nat →
  answers (max_len self) (c ++ incoming r) (drive n self r)
  ∧ ∀ p, (drive n self r).1.1 ≠ Suspended p.
Proof.
  revert self c r. induction n as [|n IH]; intros self c r Hh Hw Hn; cbn [drive];
    pose proof (read_on_answers self c r Hh Hw) as Ha;
    destruct (read_on self r) as [[o self'] r'] eqn:E; apply read_on_stalls in E as [_ E];
    (destruct o as [res|p|]; [by split|..|by split]);
    specialize (E p eq_refl); [lia|].
  destruct Ha as (Hm & c' & -> & Hh' & _).
  rewrite <-Hm. apply IH; [done|by rewrite Hm|lia].
Qed.
End proofs.

End ResumableReadString.

Module ResumableWriteString.

Record t := Mk { offset : N; buf : bytes }.

(** [ResumableWriteString::new] *)
Definition new (src : bytes) : t :=
  let len := lenN src in
  let vec := be_store_loop 8 len (replicate 8 Byte.x00) in
  Mk 0 (vec ++ src).

Section ops.
Context {W : Type} `{!AsyncWrite W}.

(** [write_to]: its only await point is the write in the loop. *)
Definition write_to (fuel : nat) (self : t) (w : W) : Outcome () () * t * W :=
  let '(e, off, w') := write_loop fuel (offset self) (buf self) w in
  let self' := Mk off (buf self) in
  match e with
  | LDone => (Returned (Ok ()), self', w')
  | LPending => (Suspended (), self', w')
  | LErr err => (Returned (Err err), self', w')
  | LFuel => (OutOfFuel, self', w')
  end.
End ops.

(** The bytes [self] has still to send. *)
Definition remaining (self : t) : bytes := drop (N.to_nat (offset self)) (buf self).

Definition wf (self : t) : Prop := offset self ≤ lenN (buf self) < W64.

Lemma new_frame src : remaining (new src) = string_frame src.
Proof. unfold remaining, new, string_frame; cbn [offset buf]. by rewrite be_store_loop_8, drop_0. Qed.

Lemma new_wf src : lenN src + 8 < W64 → wf (new src).
Proof. intros H. unfold wf, new; cbn [offset buf]. rewrite be_store_loop_8. len_lia. Qed.

Section proofs.
Context {W : Type} `{!AsyncWrite W, !AsyncWriteLaws W}.

(** Each run sends a prefix of what remains, and the state keeps the rest. *)
Lemma write_to_sends fuel self (w : W) o self' w' :
  wf self → write_to fuel self w = (o, self', w') →
  wf self' ∧ buf self' = buf self
  ∧ written w' ++ remaining self' = written w ++ remaining self
  ∧ match o with
    | Returned (Ok _) => remaining self' = []
    | Returned (Err e) => ∃ k, e = EIo k
    | _ => remaining self' ≠ []
    end.
Proof.
  intros [Hoff Hlen]. unfold write_to.
  destruct (write_loop _ _ _ _) as [[e off] w1] eqn:E.
  apply write_loop_spec in E as (H1 & H2 & H3 & H4); [|done..]. intros Hres.
  assert (self' = Mk off (buf self) ∧ w' = w1) as [-> ->] by (by destruct e; simplify_eq).
  unfold wf, remaining; cbn [offset buf].
  split; [lia|]. split; [done|]. split.
  - rewrite H3, <-(assoc_L (++)). f_equal.
    rewrite <-(take_drop (N.to_nat off) (buf self)) at 2. rewrite H2.
    rewrite <-(assoc_L (++)). rewrite drop_app_length'; [done|len_lia].
  - assert (off < lenN (buf self) → drop (N.to_nat off) (buf self) ≠ []) as Hne.
    { intros H Hnil. apply (f_equal length) in Hnil. len_lia. }
    destruct e; simplify_eq; auto.
    + apply drop_ge. len_lia.
    + by destruct H4.
Qed.
End proofs.

End ResumableWriteString.

(** [write_to] called again each time its future was pending and dropped. *)
Fixpoint write_string_drive {W} `{!AsyncWrite W} (n fuel : nat) (self : ResumableWriteString.t)
    (w : W) : Outcome () () * ResumableWriteString.t * W :=
  match ResumableWriteString.write_to fuel self w with
  | (Suspended p, self', w') =>
      match n with
      | O => (Suspended p, self', w')
      | S n' => write_string_drive n' fuel self' w'
      end
  | res => res
  end.

(** The next strings of a transport, read with one [ResumableReadString] as the
    event loops do. *)
Fixpoint read_strings {R} `{!AsyncRead R, !FairRead R} (k : nat) (self : ResumableReadString.t)
    (r : R) : Result (list bytes) * R :=
  match k with
  | O => (Ok [], r)
  | S k' =>
      match ResumableReadString.drive (stalls r) self r with
      | (Returned (Ok s), self', r') =>
          match read_strings k' self' r' with
          | (Ok ss, r'') => (Ok (s :: ss), r'')
          | res => res
          end
      | (Returned (Err e), _, r') => (Err e, r')
      | (_, _, r') => (Err EClosed, r')
      end
  end.

Section string_theorems.
Context {R : Type} `{!AsyncRead R, !AsyncReadLaws R}.

(** Cancel safety of [ResumableReadString::read_on]: when a call is
    suspended and its future is dropped, calling [read_on] again on the saved
    state behaves, on every continuation of the transport, exactly as polling
    the suspended future would have; and nothing read so far is lost. *)
Theorem read_string_cancel_safe self c (r : R) p self' r' :
  ResumableReadString.holds self c → ResumableReadString.max_len self + 8 < W64 →
  ResumableReadString.read_on self r = (Suspended p, self', r') →
  (∃ c', c ++ incoming r = c' ++ incoming r' ∧ ResumableReadString.holds self' c')
  ∧ ∀ r2 : R, ResumableReadString.read_on self' r2 = ResumableReadString.resume p self' r2.
Proof.
  intros Hh Hw E. pose proof (ResumableReadString.read_on_answers self c r Hh Hw) as Ha.
  rewrite E in Ha. destruct Ha as (_ & c' & Hc & Hh' & Hp). split; [by exists c'|].
  intros r2. by apply ResumableReadString.at_pc_resume.
Qed.

(** Reading one string over a transport that delivers its bytes in
    arbitrary pieces, with the call cancelled and repeated at every pending
    poll: the calls end; and unless the transport itself fails, the result is
    the one [parse_string] assigns to the bytes on the wire, value or error,
    the bytes after the frame are left on the transport, and the reader is back
    in its initial state. *)
Theorem read_string_resumable_correct `{!FairRead R} max (r : R) :
  max + 8 < W64 →
  ∃ res self' r', ResumableReadString.drive (stalls r) (ResumableReadString.new max) r
                  = (Returned res, self', r')
  ∧ match res with
    | Ok s => parse_string max (incoming r) = Ok (s, incoming r')
              ∧ self' = ResumableReadString.new max
    | Err (EIo _) => True
    | Err e => parse_string max (incoming r) = Err e
    end.
Proof.
  intros Hw.
  destruct (ResumableReadString.drive_answers (stalls r) (ResumableReadString.new max) [] r)
    as [Ha Hs]; [apply ResumableReadString.holds_new|done|done|].
  destruct (ResumableReadString.drive _ _ _) as [[[res|p|] self'] r'].
  - destruct Ha as [_ Ha]. by exists res, self', r'.
  - by destruct (Hs p).
  - by destruct Ha.
Qed.

Lemma read_strings_frames `{!FairRead R} max ss rest (r : R) res r' :
  max + 8 < W64 → Forall (sendable max) ss →
  incoming r = concat (string_frame <$> ss) ++ rest →
  read_strings (length ss) (ResumableReadString.new max) r = (res, r') →
  (∃ k, res = Err (EIo k)) ∨ res = Ok ss ∧ incoming r' = rest.
Proof.
  intros Hw Hss. revert r res r'.
  induction Hss as [|s ss Hs Hss IH]; intros r res r' Hi; cbn [length read_strings]; [by intros; simplify_eq; right|].
  destruct (ResumableReadString.drive_answers (stalls r) (ResumableReadString.new max) [] r)
    as [Ha Hd]; [apply ResumableReadString.holds_new|done|done|].
  cbn [fmap list_fmap concat] in Hi. rewrite <-(assoc_L (++)) in Hi.
  destruct (ResumableReadString.drive _ _ _) as [[o self'] r1].
  cbn [ResumableReadString.answers ResumableReadString.max_len ResumableReadString.new app] in Ha.
  destruct Ha as [_ Ha]. rewrite Hi in Ha.
  destruct o as [[x|e]|p|]; [| |by destruct (Hd p)|done].
  - rewrite parse_string_frame in Ha by done. destruct Ha as [Hx ->].
    injection Hx as -> Hr1. symmetry in Hr1.
    destruct (read_strings (length ss) _ r1) as [res1 r2] eqn:E.
    destruct (IH _ _ _ Hr1 E) as [[k ->]|[-> Hr2]]; intros; simplify_eq; eauto.
  - rewrite parse_string_frame in Ha by done.
    intros ?; simplify_eq. destruct e; try done. eauto.
Qed.

(** C40. A sequence of strings sent back to back is read back as the same
    sequence, in order and none twice, however the bytes are cut into pieces
    and wherever the reads are cancelled (or the transport fails). *)
Theorem read_strings_roundtrip `{!FairRead R} max ss rest (r : R) :
  max + 8 < W64 → Forall (sendable max) ss →
  incoming r = concat (string_frame <$> ss) ++ rest →
  (∃ k, (read_strings (length ss) (ResumableReadString.new max) r).1 = Err (EIo k))
  ∨ ∃ r', read_strings (length ss) (ResumableReadString.new max) r = (Ok ss, r')
          ∧ incoming r' = rest.
Proof.
  intros Hw Hss Hi.
  destruct (read_strings (length ss) _ r) as [res r'] eqn:E.
  destruct (read_strings_frames _ _ _ _ _ _ Hw Hss Hi E) as [[k ->]|[-> Hr]]; eauto.
Qed.
End string_theorems.

Section write_theorems.
Context {W : Type} `{!AsyncWrite W, !AsyncWriteLaws W}.

Lemma write_string_drive_sends n fuel self (w : W) o self' w' :
  ResumableWriteString.wf self →
  write_string_drive n fuel self w = (o, self', w') →
  written w' ++ ResumableWriteString.remaining self'
  = written w ++ ResumableWriteString.remaining self
  ∧ (o = Returned (Ok ()) → ResumableWriteString.remaining self' = [])
  ∧ (∀ e, o = Returned (Err e) → ∃ k, e = EIo k).
Proof.
  revert self w. induction n as [|n IH]; intros self w Hwf; cbn [write_string_drive];
    destruct (ResumableWriteString.write_to fuel self w) as [[o1 self1] w1] eqn:E;
    apply ResumableWriteString.write_to_sends in E as (Hwf1 & _ & H1 & H2); try done;
    (destruct o1 as [[[]|e]|[]|]; intros; simplify_eq;
      try (split_and!; [done|by intros|by intros; simplify_eq])).
  destruct (IH _ _ Hwf1 ltac:(eassumption)) as (H3 & H4 & H5). split_and!; [congruence|done|done].
Qed.

(** [ResumableWriteString] sends the frame of its string exactly once: over
    any writer, after any number of calls cancelled while pending, what was
    written is a prefix of the frame and the state holds the rest; when a call
    succeeds the whole frame, length and bytes, has been written, nothing
    more; and only the writer itself can make it fail. *)
Theorem write_string_resumable_correct n fuel s (w : W) o self' w' :
  lenN s + 8 < W64 →
  write_string_drive n fuel (ResumableWriteString.new s) w = (o, self', w') →
  written w' ++ ResumableWriteString.remaining self' = written w ++ string_frame s
  ∧ (o = Returned (Ok ()) → written w' = written w ++ string_frame s)
  ∧ (∀ e, o = Returned (Err e) → ∃ k, e = EIo k).
Proof.
  intros Hs E. apply write_string_drive_sends in E as (H1 & H2 & H3);
    [|by apply ResumableWriteString.new_wf].
  rewrite ResumableWriteString.new_frame in H1. split_and!; [done| |done].
  intros Ho. by rewrite H2, (right_id_L [] (++)) in H1 by done.
Qed.

(** A writer that takes no byte of a non-empty buffer makes [write_to] loop
    forever (no fuel is enough): the number of bytes written is not checked
    for zero, as it is on the reading side. *)
Lemma write_string_zero_write_diverges fuel s (w : W) :
  (∀ buf, poll_write w buf = (Ready (Ok 0%nat), w)) →
  ResumableWriteString.write_to fuel (ResumableWriteString.new s) w
  = (OutOfFuel, ResumableWriteString.new s, w).
Proof.
  intros Hz. unfold ResumableWriteString.write_to.
  assert (write_loop fuel 0 (ResumableWriteString.buf (ResumableWriteString.new s)) w
          = (LFuel, 0, w)) as E; [|by cbn [ResumableWriteString.offset ResumableWriteString.new]; rewrite E].
  assert (0 < lenN (ResumableWriteString.buf (ResumableWriteString.new s))) as Hlen.
  { unfold ResumableWriteString.new. cbn [ResumableWriteString.buf].
    rewrite be_store_loop_8. len_lia. }
  apply N.ltb_lt in Hlen.
  induction fuel as [|fuel IH]; cbn [write_loop]; rewrite Hlen; [done|].
  rewrite Hz. exact IH.
Qed.
End write_theorems.

(** ** The theorems at concrete inputs *)

(** The wire form of "hi" in three pieces, pending twice. *)
Definition hi_bytes : bytes := byte_of <$> [104; 105].
Definition hi_script : list RdItem :=
  [Chunk Byte.x00 [Byte.x00; Byte.x00]; Stall;
   Chunk Byte.x00 [Byte.x00; Byte.x00; Byte.x00; byte_of 2; byte_of 104]; Stall;
   Chunk (byte_of 105) []].

Lemma read_string_cancel_safe_witness :
  ∃ self' r', ResumableReadString.read_on (ResumableReadString.new 256) hi_script
              = (Suspended ResumableReadString.AtHeader, self', r')
  ∧ ∀ r2 : list RdItem, ResumableReadString.read_on self' r2
      = ResumableReadString.resume ResumableReadString.AtHeader self' r2.
Proof.
  eexists _, _. split; [vm_compute; reflexivity|].
  eapply (proj2 (read_string_cancel_safe (ResumableReadString.new 256) [] hi_script
    ResumableReadString.AtHeader _ _ (ResumableReadString.holds_new 256)
    ltac:(vm_compute; reflexivity) ltac:(vm_compute; reflexivity))).
Defined.

Lemma read_string_resumable_correct_witness :
  ∃ self', ResumableReadString.drive (stalls hi_script) (ResumableReadString.new 256) hi_script
           = (Returned (Ok hi_bytes), self', []).
Proof.
  destruct (read_string_resumable_correct 256 hi_script ltac:(vm_compute; reflexivity))
    as (res & self' & r' & E & _).
  exists self'. rewrite E. vm_compute in E. injection E as <- <- <-. reflexivity.
Defined.

Lemma read_strings_roundtrip_witness :
  ∃ r', read_strings 2 (ResumableReadString.new 256)
          (hi_script ++ [Stall] ++ hi_script ++ [Chunk (byte_of 9) []])
        = (Ok [hi_bytes; hi_bytes], r') ∧ incoming r' = [byte_of 9].
Proof.
  destruct (read_strings_roundtrip 256 [hi_bytes; hi_bytes] [byte_of 9]
    (hi_script ++ [Stall] ++ hi_script ++ [Chunk (byte_of 9) []])) as [[k E]|H].
  - vm_compute; reflexivity.
  - repeat constructor; vm_compute; congruence.
  - vm_compute; reflexivity.
  - vm_compute in E. discriminate.
  - exact H.
Defined.

Lemma write_string_resumable_correct_witness :
  let w := MkSink [] [Accept 2; WStall; Accept 0; Accept 4; WStall] in
  ∃ self', write_string_drive 2 20 (ResumableWriteString.new hi_bytes) w
           = (Returned (Ok ()), self', MkSink (string_frame hi_bytes) []).
Proof.
  intros w.
  destruct (write_string_drive 2 20 (ResumableWriteString.new hi_bytes) w) as [[o self'] w'] eqn:E.
  destruct (write_string_resumable_correct 2 20 hi_bytes w o self' w'
    ltac:(vm_compute; reflexivity) E) as (_ & H & _).
  exists self'. vm_compute in E. injection E as <- <- <-.
  specialize (H eq_refl). vm_compute. reflexivity.
Defined.

(** A writer that never takes anything. *)
#[local] Instance stuck_writer : AsyncWrite () := {
  poll_write w _ := (Ready (Ok 0%nat), w);
  written _ := [];
}.

Lemma write_string_zero_write_diverges_witness :
  ResumableWriteString.write_to 1000 (ResumableWriteString.new hi_bytes) ()
  = (OutOfFuel, ResumableWriteString.new hi_bytes, ()).
Proof. apply (write_string_zero_write_diverges 1000 hi_bytes ()). reflexivity. Defined.
