(* ===== verification/ResumableBlock.v ===== *)
(** The resumable file blocks of src/src/common.rs (lines 170-311):
    [ResumableWriteFileBlock], [ResumableReadFileBlock] and
    [ResumableAsyncWriteAll], modelled as in ResumableString.v. *)

From stdpp Require Import base option list numbers.
From Stdlib Require Import NArith Lia.
From S2P Require Import Prelude AsyncIO Loan Resumable.
#[local] Open Scope N_scope.

(** A block on the wire: its offset in the file as a u64, then its bytes; the
    length is not sent. *)
Definition block_frame (offset : N) (data : bytes) : bytes := be_bytes 8 offset ++ data.
#[global] Arguments block_frame : simpl never.

Module ResumableWriteFileBlock.

(** [step] is 0: init, 1: offset, 2: payload. *)
Record t := Mk {
  offset : N;
  offsetlen : N;
  offset_bytes : bytes;
  bufoffset : N;
  buf : Loan bytes;
  step : N;
}.

Inductive pc := AtOffset | AtPayload.

(** [ResumableWriteFileBlock::new] *)
Definition new (offset : N) (block_data : Loan bytes) : t :=
  Mk offset 0 (replicate 8 Byte.x00) 0 block_data 0.

Section ops.
Context {W : Type} `{!AsyncWrite W}.

(** [while self.offsetlen > 0 {
       let n = write.write(&self.offset_bytes[0..self.offsetlen]).await?;
       self.offset_bytes.copy_within(n.., 0);
       self.offsetlen -= n; }] *)
Fixpoint offset_loop (fuel : nat) (len : N) (ob : bytes) (w : W) : LoopEnd * N * bytes * W :=
  if 0 <? len then
    match fuel with
    | O => (LFuel, len, ob, w)
    | S fuel' =>
        match poll_write w (take (N.to_nat len) ob) with
        | (Pending, w') => (LPending, len, ob, w')
        | (Ready (Err e), w') => (LErr e, len, ob, w')
        | (Ready (Ok n), w') =>
            offset_loop fuel' (wsub len (N.of_nat n)) (drop n ob ++ drop (length ob - n) ob) w'
        end
    end
  else (LDone, len, ob, w).

(** Lines 218-222. *)
Definition payload_loop (fuel : nat) (self : t) (w : W) : Outcome pc () * t * W :=
  let '(e, off, w') := write_loop fuel (bufoffset self) (deref (buf self)) w in
  let self' := Mk (offset self) (offsetlen self) (offset_bytes self) off (buf self) (step self) in
  match e with
  | LDone => (Returned (Ok ()), self', w')
  | LPending => (Suspended AtPayload, self', w')
  | LErr err => (Returned (Err err), self', w')
  | LFuel => (OutOfFuel, self', w')
  end.

(** Lines 210-216. *)
Definition offset_step (fuel : nat) (self : t) (w : W) : Outcome pc () * t * W :=
  let '(e, len, ob, w') := offset_loop fuel (offsetlen self) (offset_bytes self) w in
  let self' := Mk (offset self) len ob (bufoffset self) (buf self) (step self) in
  match e with
  | LDone =>
      payload_loop fuel (Mk (offset self) len ob (bufoffset self) (buf self) 2) w'
  | LPending => (Suspended AtOffset, self', w')
  | LErr err => (Returned (Err err), self', w')
  | LFuel => (OutOfFuel, self', w')
  end.

(** Lines 197-207. *)
Definition init_step (self : t) : t :=
  if step self =? 0
  then Mk (offset self) 8 (be_store_loop 8 (offset self) (offset_bytes self))
          (bufoffset self) (buf self) 1
  else self.

(** [write_to] *)
Definition write_to (fuel : nat) (self : t) (w : W) : Outcome pc () * t * W :=
  let self := init_step self in
  if step self =? 1 then offset_step fuel self w else payload_loop fuel self w.

(** The future of a suspended call, polled again. *)
Definition resume (p : pc) : nat → t → W → Outcome pc () * t * W :=
  match p with
  | AtOffset => offset_step
  | AtPayload => payload_loop
  end.

(** [write_to] called again each time its future was pending and dropped. *)
Fixpoint drive (n fuel : nat) (self : t) (w : W) : Outcome pc () * t * W :=
  match write_to fuel self w with
  | (Suspended p, self', w') =>
      match n with
      | O => (Suspended p, self', w')
      | S n' => drive n' fuel self' w'
      end
  | res => res
  end.
End ops.

(** The bytes still to send, and the states the operation goes through. *)
Definition remaining (self : t) : bytes :=
  if step self =? 0 then block_frame (offset self) (deref (buf self))
  else if step self =? 1 then take (N.to_nat (offsetlen self)) (offset_bytes self)
                              ++ deref (buf self)
  else drop (N.to_nat (bufoffset self)) (deref (buf self)).

Definition wf (self : t) : Prop :=
  length (offset_bytes self) = 8%nat ∧ lenN (deref (buf self)) < W64
  ∧ (step self < 2 → bufoffset self = 0)
  ∧ (step self = 1 → offsetlen self ≤ 8)
  ∧ bufoffset self ≤ lenN (deref (buf self)).

Lemma block_new_wf off l : lenN (deref l) < W64 → wf (new off l).
Proof. intros H. unfold wf, new; simpl. split_and!; try done; lia. Qed.

Lemma new_remaining off l : remaining (new off l) = block_frame off (deref l).
Proof. done. Qed.

(** The step after [init_step]. *)
Lemma init_step_spec self : wf self →
  wf (init_step self) ∧ remaining (init_step self) = remaining self
  ∧ buf (init_step self) = buf self ∧ step (init_step self) ≠ 0.
Proof.
  intros (H1 & H2 & H3 & H4 & H5). unfold init_step.
  destruct (N.eqb_spec (step self) 0) as [E|E]; [|split_and!; by try split].
  unfold wf, remaining; cbn [step offset offsetlen offset_bytes bufoffset buf].
  rewrite be_store_loop_spec by lia. rewrite (drop_ge (offset_bytes self)) by lia.
  rewrite (right_id_L [] (++)), length_be_bytes, E.
  change (1 =? 0) with false. change (1 =? 1) with true. change (0 =? 0) with true.
  cbn iota. rewrite take_ge by (rewrite length_be_bytes; lia).
  split_and!; try done; lia.
Qed.

Section proofs.
Context {W : Type} `{!AsyncWrite W, !AsyncWriteLaws W}.

Lemma offset_loop_spec fuel len ob (w : W) e len' ob' w' :
  offset_loop fuel len ob w = (e, len', ob', w') →
  length ob = 8%nat → len ≤ 8 →
  length ob' = 8%nat ∧ len' ≤ 8
  ∧ written w' ++ take (N.to_nat len') ob' = written w ++ take (N.to_nat len) ob
  ∧ match e with
    | LDone => len' = 0
    | LErr err => len' ≠ 0 ∧ ∃ k, err = EIo k
    | _ => len' ≠ 0
    end.
Proof.
  revert len ob w. induction fuel as [|fuel IH]; intros len ob w; cbn [offset_loop];
    (destruct (N.ltb_spec 0 len) as [Hlt|Hge];
      [|by intros; simplify_eq; split_and!; try done; lia]).
  { intros; simplify_eq; split_and!; try done; lia. }
  destruct (poll_write w _) as [[[n|err]|] w1] eqn:Hp; intros E Hob Hle.
  - apply write_ready in Hp as [Hn Hwr].
    rewrite wsub_small in E by (unfold W64; len_lia).
    apply IH in E as (H1 & H2 & H3 & H4); [|len_lia|len_lia]. split_and!; try done.
    rewrite H3, Hwr, <-(assoc_L (++)). f_equal. rewrite take_take.
    replace (N.to_nat len) with (n + N.to_nat (len - N.of_nat n))%nat at 2 by len_lia.
    rewrite <-take_take_drop. f_equal; [f_equal; len_lia|].
    apply take_app_le. len_lia.
  - apply write_error in Hp as [Hwr Hk]. simplify_eq. rewrite Hwr. split_and!; try done; lia.
  - apply write_pending in Hp as Hwr. simplify_eq. rewrite Hwr. split_and!; try done; lia.
Qed.

(** What a run leaves: what it sent and what remains make up what remained. *)
Definition sends (self : t) (w : W) (res : Outcome pc () * t * W) : Prop :=
  let '(o, self', w') := res in
  wf self' ∧ buf self' = buf self ∧ offset self' = offset self
  ∧ written w' ++ remaining self' = written w ++ remaining self
  ∧ match o with
    | Returned (Ok _) => remaining self' = []
    | Returned (Err e) => ∃ k, e = EIo k
    | Suspended AtOffset => step self' = 1
    | Suspended AtPayload => step self' = 2
    | OutOfFuel => True
    end.

Lemma payload_loop_sends fuel self (w : W) :
  wf self → step self = 2 → sends self w (payload_loop fuel self w).
Proof.
  intros (H1 & H2 & H3 & H4 & H5) Hs. unfold payload_loop.
  destruct (write_loop _ _ _ _) as [[e off] w1] eqn:E.
  apply write_loop_spec in E as ((H6 & H7) & H8 & H9 & H10); [|done..].
  set (self' := Mk _ _ _ off _ _).
  assert (wf self') as Hwf.
  { unfold wf, self'; cbn [step offset offsetlen offset_bytes bufoffset buf].
    rewrite Hs. split_and!; try done; lia. }
  assert (written w1 ++ remaining self' = written w ++ remaining self) as Hsent.
  { unfold remaining, self'; cbn [step offset offsetlen offset_bytes bufoffset buf].
    rewrite Hs; simpl. rewrite H9, <-(assoc_L (++)). f_equal.
    rewrite <-(take_drop (N.to_nat off) (deref (buf self))) at 2.
    rewrite H8, <-(assoc_L (++)). rewrite drop_app_length'; [done|len_lia]. }
  destruct e; split_and!; try done; try by destruct H10.
  unfold remaining, self'; cbn [step offset offsetlen offset_bytes bufoffset buf].
  rewrite Hs; simpl. apply drop_ge. len_lia.
Qed.

Lemma offset_step_sends fuel self (w : W) :
  wf self → step self = 1 → sends self w (offset_step fuel self w).
Proof.
  intros (H1 & H2 & H3 & H4 & H5) Hs. unfold offset_step.
  destruct (offset_loop _ _ _ _) as [[[e len] ob] w1] eqn:E.
  apply offset_loop_spec in E as (H6 & H7 & H8 & H9); [|done|auto].
  assert (bufoffset self = 0) as Hb by (apply H3; lia).
  set (self1 := Mk (offset self) len ob (bufoffset self) (buf self) (step self)).
  assert (wf self1) as Hwf.
  { unfold wf, self1; cbn [step offset offsetlen offset_bytes bufoffset buf].
    rewrite Hb. split_and!; try done; lia. }
  assert (written w1 ++ remaining self1 = written w ++ remaining self) as Hsent.
  { unfold remaining, self1; cbn [step offset offsetlen offset_bytes bufoffset buf].
    rewrite Hs; simpl. by rewrite !(assoc_L (++)), H8. }
  destruct e; [|by split_and!|by split_and!; try done; destruct H9|by split_and!].
  set (self2 := Mk (offset self) len ob (bufoffset self) (buf self) 2).
  assert (remaining self2 = remaining self1) as Hr.
  { unfold remaining, self1, self2; cbn [step offset offsetlen offset_bytes bufoffset buf].
    by rewrite Hs, H9, Hb. }
  assert (wf self2) as Hwf2.
  { unfold wf, self2; cbn [step offset offsetlen offset_bytes bufoffset buf].
    rewrite Hb. split_and!; try done; lia. }
  pose proof (payload_loop_sends fuel self2 w1 Hwf2 eq_refl) as Hp.
  destruct (payload_loop fuel self2 w1) as [[o self3] w3].
  destruct Hp as (P1 & P2 & P3 & P4 & P5). split_and!; try done.
  by rewrite P4, Hr.
Qed.

Lemma block_write_to_sends fuel self (w : W) :
  wf self → step self ≤ 2 → sends self w (write_to fuel self w).
Proof.
  intros Hwf Hs. unfold write_to.
  destruct (init_step_spec self Hwf) as (Hwf' & Hr & Hb & Hs').
  assert (step (init_step self) ≤ 2 ∧ offset (init_step self) = offset self) as [Hs2 Ho].
  { unfold init_step. by case_match. }
  assert (sends (init_step self) w
    (if step (init_step self) =? 1 then offset_step fuel (init_step self) w
     else payload_loop fuel (init_step self) w)) as H.
  { destruct (N.eqb_spec (step (init_step self)) 1);
      [by apply offset_step_sends|apply payload_loop_sends; [done|lia]]. }
  destruct (if _ =? 1 then _ else _) as [[o self'] w'].
  unfold sends in *. by rewrite Hr, Hb, Ho in H.
Qed.

(** With enough fuel the loops end; a pending run is the transport's. *)
(** What was written stays written. *)
Lemma payload_loop_prefix fuel self (w : W) o self' w' :
  payload_loop fuel self w = (o, self', w') → written w `prefix_of` written w'.
Proof.
  unfold payload_loop. destruct (write_loop _ _ _ _) as [[e off] w1] eqn:E.
  apply write_loop_prefix in E. by destruct e; intros; simplify_eq.
Qed.

Lemma offset_step_prefix fuel self (w : W) o self' w' :
  offset_step fuel self w = (o, self', w') → written w `prefix_of` written w'.
Proof.
  assert (∀ f len ob (w : W) e len' ob' w', offset_loop f len ob w = (e, len', ob', w') →
    written w `prefix_of` written w') as Hloop.
  { intros f. induction f as [|f IH]; intros len ob v e len' ob' v'; cbn [offset_loop];
      (destruct (N.ltb_spec 0 len); [|by intros; simplify_eq]); [by intros; simplify_eq|].
    destruct (poll_write v _) as [[[n|err]|] v1] eqn:Hp; intros E.
    - apply write_ready in Hp as [_ Hw]. apply IH in E. rewrite Hw in E.
      etrans; [|exact E]. by apply prefix_app_r.
    - apply write_error in Hp as [Hw _]. simplify_eq. by rewrite Hw.
    - apply write_pending in Hp. simplify_eq. by rewrite Hp. }
  unfold offset_step. destruct (offset_loop _ _ _ _) as [[[e len] ob] w1] eqn:E.
  apply Hloop in E. destruct e; intros E'; simplify_eq; try done.
  etrans; [exact E|]. by eapply payload_loop_prefix.
Qed.

Lemma block_write_prefix p fuel self (w : W) o self' w' :
  match p with None => write_to | Some p => resume p end fuel self w = (o, self', w') →
  written w `prefix_of` written w'.
Proof.
  destruct p as [[]|]; cbn [resume]; [apply offset_step_prefix|apply payload_loop_prefix|].
  unfold write_to. case_match; [apply offset_step_prefix|apply payload_loop_prefix].
Qed.

Lemma offset_loop_ends `{!WriteProgress W, !FairWrite W} fuel len ob (w : W) e len' ob' w' :
  offset_loop fuel len ob w = (e, len', ob', w') →
  length ob = 8%nat → len ≤ 8 → (N.to_nat len ≤ fuel)%nat →
  e ≠ LFuel ∧ (wstalls w' ≤ wstalls w)%nat ∧ (e = LPending → (wstalls w' < wstalls w)%nat).
Proof.
  revert len ob w. induction fuel as [|fuel IH]; intros len ob w; cbn [offset_loop];
    (destruct (N.ltb_spec 0 len) as [Hlt|Hge]; [|by intros; simplify_eq]); [intros; lia|].
  destruct (poll_write w _) as [[[n|err]|] w1] eqn:Hp; intros E Hob Hle Hf.
  - pose proof (wstalls_ready _ _ _ _ Hp) as Hs. pose proof (write_ready _ _ _ _ Hp) as [Hn _].
    apply write_progress in Hp; [|intros Hnil; apply (f_equal length) in Hnil; len_lia].
    rewrite wsub_small in E by (unfold W64; len_lia).
    apply IH in E as (H1 & H2 & H3); [|len_lia..]. split; [done|]. split; [lia|].
    intros He. specialize (H3 He). lia.
  - apply wstalls_ready in Hp. by simplify_eq.
  - apply wstalls_pending in Hp. simplify_eq. split; [done|]. split; [lia|done].
Qed.

Lemma block_write_to_ends `{!WriteProgress W, !FairWrite W} fuel self (w : W) o self' w' :
  wf self → step self ≤ 2 → (8 ≤ fuel)%nat → (length (deref (buf self)) ≤ fuel)%nat →
  write_to fuel self w = (o, self', w') →
  o ≠ OutOfFuel ∧ (wstalls w' ≤ wstalls w)%nat
  ∧ ∀ p, o = Suspended p → (wstalls w' < wstalls w)%nat.
Proof.
  intros Hwf Hs Hf1 Hf2. unfold write_to.
  destruct (init_step_spec self Hwf) as (Hwf' & _ & Hb & _). rewrite <-Hb in Hf2.
  set (self1 := init_step self) in *. clearbody self1. clear Hwf Hs Hb self.
  assert (∀ self w, wf self → (length (deref (buf self)) ≤ fuel)%nat →
    payload_loop fuel self w = (o, self', w') →
    o ≠ OutOfFuel ∧ (wstalls w' ≤ wstalls w)%nat
    ∧ ∀ p, o = Suspended p → (wstalls w' < wstalls w)%nat) as Hpay.
  { intros self v Hwf Hf. unfold payload_loop.
    destruct (write_loop fuel (bufoffset self) (deref (buf self)) v) as [[e off] v1] eqn:E.
    assert (e ≠ LFuel) as Hne.
    { intros ->. eapply write_loop_fuel; [| |exact E]; [apply Hwf|lia]. }
    apply write_loop_stalls in E as [H1 H2].
    destruct e; intros; simplify_eq; split_and!; auto; intros; done. }
  destruct (step self1 =? 1) eqn:Hst; [|by apply Hpay].
  unfold offset_step. destruct (offset_loop _ _ _ _) as [[[e len] ob] w1] eqn:E.
  pose proof Hwf' as (H1 & H2 & H3 & H4 & H5). apply N.eqb_eq in Hst. specialize (H4 Hst).
  pose proof E as Esp. apply offset_loop_spec in Esp as (P1 & P2 & _ & _); [|done..].
  apply offset_loop_ends in E as (E1 & E2 & E3); [|done|done|lia].
  destruct e as [| |err|]; intros Ep; simplify_eq;
    [|split; [done|]; split; [lia|]; intros; by apply E3|split; [done|]; split; [lia|done]].
  apply Hpay in Ep as (Q1 & Q2 & Q3).
  - split; [done|]. split; [lia|]. intros p Hp. specialize (Q3 p Hp). lia.
  - unfold wf; cbn. split_and!; try done; lia.
  - done.
Qed.

Lemma sends_resume fuel self (w w2 : W) p self' w' :
  sends self w (Suspended p, self', w') → write_to fuel self' w2 = resume p fuel self' w2.
Proof.
  intros (_ & _ & _ & _ & Hs). unfold write_to, init_step.
  by destruct p; simpl; rewrite Hs; simpl; rewrite Hs.
Qed.

Lemma drive_sends n fuel self (w : W) :
  wf self → step self ≤ 2 → sends self w (drive n fuel self w).
Proof.
  revert self w. induction n as [|n IH]; intros self w Hwf Hs; cbn [drive];
    pose proof (block_write_to_sends fuel self w Hwf Hs) as H;
    destruct (write_to fuel self w) as [[o self'] w']; destruct o as [|p|]; try exact H.
  destruct H as (H1 & H2 & H3 & H4 & H5).
  assert (step self' ≤ 2) as Hs' by (destruct p; lia).
  pose proof (IH self' w' H1 Hs') as H.
  destruct (drive n fuel self' w') as [[o self2] w2].
  unfold sends in *. by rewrite <-H2, <-H3, <-H4.
Qed.
End proofs.

End ResumableWriteFileBlock.

(** [let rem = file_size - offset; if rem < block_size { rem } else { block_size }]
    in the arithmetic of the release profile. *)
Definition current_block_size (block_size file_size offset : N) : N :=
  let rem := wsub file_size offset in
  if rem <? block_size then rem else block_size.

Module ResumableReadFileBlock.

Record t := Mk { offset : N; block_size : N; file_size : N; buf_offset : N }.

Inductive pc := AtHeader | AtPayload.

(** [ResumableReadFileBlock::new] *)
Definition new (block_size file_size : N) : t := Mk 0 block_size file_size 0.

Section ops.
Context {R : Type} `{!AsyncRead R}.

(** Lines 275-289, on the caller's buffer. *)
Definition payload_loop (self : t) (buf : bytes) (r : R) : Outcome pc N * t * bytes * R :=
  let bound := wadd (lenN buf) 8 in
  let '(e, off, b, r') :=
    read_loop (N.to_nat (bound - buf_offset self)) 8 bound (buf_offset self) buf r in
  let self' := Mk (offset self) (block_size self) (file_size self) off in
  match e with
  | LDone => (Returned (Ok (offset self)), Mk 0 (block_size self) (file_size self) 0, b, r')
  | LPending => (Suspended AtPayload, self', b, r')
  | LErr err => (Returned (Err err), self', b, r')
  | LFuel => (OutOfFuel, self', b, r')
  end.

(** Lines 257-272, once the 8 bytes of the offset are in the buffer. *)
Definition header_done (self : t) (buf : bytes) (r : R) : Outcome pc N * t * bytes * R :=
  let offset' := be_load_loop (offset self) buf in
  let size := current_block_size (block_size self) (file_size self) offset' in
  payload_loop (Mk offset' (block_size self) (file_size self) (buf_offset self))
               (resize (N.to_nat size) Byte.x00 []) r.

(** Lines 250-256. *)
Definition header_loop (self : t) (buf : bytes) (r : R) : Outcome pc N * t * bytes * R :=
  let '(e, off, b, r') :=
    read_loop (N.to_nat (8 - buf_offset self)) 0 8 (buf_offset self) buf r in
  let self' := Mk (offset self) (block_size self) (file_size self) off in
  match e with
  | LDone => header_done self' b r'
  | LPending => (Suspended AtHeader, self', b, r')
  | LErr err => (Returned (Err err), self', b, r')
  | LFuel => (OutOfFuel, self', b, r')
  end.

(** [read_on] *)
Definition read_on (self : t) (buf : bytes) (r : R) : Outcome pc N * t * bytes * R :=
  if buf_offset self <? 8
  then header_loop self (resize 8 Byte.x00 buf) r
  else payload_loop self buf r.

Definition resume (p : pc) : t → bytes → R → Outcome pc N * t * bytes * R :=
  match p with
  | AtHeader => header_loop
  | AtPayload => payload_loop
  end.

(** [read_on] called again each time its future was pending and dropped. *)
Fixpoint drive (n : nat) (self : t) (buf : bytes) (r : R) : Outcome pc N * t * bytes * R :=
  match read_on self buf r with
  | (Suspended p, self', buf', r') =>
      match n with
      | O => (Suspended p, self', buf', r')
      | S n' => drive n' self' buf' r'
      end
  | res => res
  end.
End ops.

(** What a receiver with these sizes makes of a byte sequence: offset, data and
    the bytes that follow. *)
Definition parse_block (block_size file_size : N) (bs : bytes) : Result (N * bytes * bytes) :=
  if decide (length bs < 8)%nat then Err EClosed
  else
    let off := be_val (take 8 bs) in
    let size := N.to_nat (current_block_size block_size file_size off) in
    if decide (length (drop 8 bs) < size)%nat then Err EClosed
    else Ok (off, take size (drop 8 bs), drop size (drop 8 bs)).

(** [holds self buf c]: the bytes [c] of an unfinished frame were consumed. *)
Inductive holds (self : t) (buf c : bytes) : Prop :=
  | holds_header :
      offset self = 0 → buf_offset self = lenN c → lenN c < 8 →
      take (length c) (resize 8 Byte.x00 buf) = c → holds self buf c
  | holds_payload s :
      offset self < W64 → c = be_bytes 8 (offset self) ++ s →
      buf_offset self = lenN c →
      lenN buf = current_block_size (block_size self) (file_size self) (offset self) →
      lenN s < lenN buf → take (length s) buf = s → holds self buf c.

Definition at_pc (p : pc) (self : t) (buf : bytes) : Prop :=
  match p with
  | AtHeader => buf_offset self < 8 ∧ length buf = 8%nat
  | AtPayload => 8 ≤ buf_offset self
  end.

(** What a call may answer when the bytes consumed and to come are [total]. *)
Definition answers {R} `{!AsyncRead R} (bsz fsz : N) (total : bytes)
    (res : Outcome pc N * t * bytes * R) : Prop :=
  let '(o, self', buf', r') := res in
  block_size self' = bsz ∧ file_size self' = fsz ∧
  match o with
  | Suspended p => ∃ c, total = c ++ incoming r' ∧ holds self' buf' c ∧ at_pc p self' buf'
  | Returned (Ok off) =>
      parse_block bsz fsz total = Ok (off, buf', incoming r') ∧ self' = new bsz fsz
  | Returned (Err (EIo _)) => True
  | Returned (Err e) => parse_block bsz fsz total = Err e
  | OutOfFuel => False
  end.

Lemma block_holds_new bsz fsz buf : holds (new bsz fsz) buf [].
Proof. by apply holds_header. Qed.

Lemma current_block_size_le bsz fsz off : current_block_size bsz fsz off ≤ bsz.
Proof. unfold current_block_size. cbv zeta. case_match eqn:E; [apply N.ltb_lt in E|]; lia. Qed.

Lemma parse_block_header bsz fsz off rest : off < W64 →
  parse_block bsz fsz (be_bytes 8 off ++ rest)
  = let size := N.to_nat (current_block_size bsz fsz off) in
    if decide (length rest < size)%nat then Err EClosed
    else Ok (off, take size rest, drop size rest).
Proof.
  intros Ho. unfold parse_block. rewrite decide_False by len_lia.
  rewrite take_app_length', drop_app_length' by (by rewrite length_be_bytes).
  by rewrite be_val_bytes8.
Qed.

Section proofs.
Context {R : Type} `{!AsyncRead R, !AsyncReadLaws R}.

Lemma block_payload_loop_answers self buf s (r : R) :
  offset self < W64 → buf_offset self = 8 + lenN s →
  lenN buf = current_block_size (block_size self) (file_size self) (offset self) →
  block_size self + 8 < W64 → lenN s ≤ lenN buf → take (length s) buf = s →
  answers (block_size self) (file_size self)
          (be_bytes 8 (offset self) ++ s ++ incoming r) (payload_loop self buf r).
Proof.
  intros Ho Hoff Hsz Hw Hle Htk. unfold payload_loop.
  pose proof (current_block_size_le (block_size self) (file_size self) (offset self)) as Hcur.
  rewrite <-Hsz in Hcur. rewrite (wadd_small (lenN buf) 8) by lia.
  destruct (read_loop _ _ _ _ _ _) as [[[e off] b] r'] eqn:E.
  apply read_loop_spec in E as [[k ->]|(bs & H1 & H2 & H3 & H4 & H5 & H6)];
    [done|..|len_lia|len_lia|len_lia|len_lia].
  replace (N.to_nat (buf_offset self - 8)) with (length s) in H5 by len_lia.
  rewrite Htk in H5. rewrite H1.
  replace (N.to_nat (off - 8)) with (length (s ++ bs)) in H5 by len_lia.
  destruct e as [| |err|]; [| | |done]; (split; [done|]; split; [done|]).
  - rewrite parse_block_header by done. cbv zeta. rewrite <-Hsz.
    assert (length (s ++ bs) = length b) as Hsb by len_lia.
    rewrite Hsb, firstn_all in H5. subst b.
    rewrite decide_False by len_lia. rewrite (assoc_L (++) s).
    by rewrite take_app_length', drop_app_length' by len_lia.
  - exists (be_bytes 8 (offset self) ++ s ++ bs).
    split; [by rewrite <-!(assoc_L (++))|]. split; [|simpl; len_lia].
    apply holds_payload with (s := s ++ bs); simpl; try done; len_lia.
  - destruct H6 as (H6 & -> & Hnil). rewrite Hnil, (right_id_L [] (++)).
    rewrite parse_block_header by done. cbv zeta. rewrite <-Hsz.
    by rewrite decide_True by len_lia.
Qed.

Lemma block_header_done_answers self buf (r : R) :
  offset self = 0 → length buf = 8%nat → buf_offset self = 8 → block_size self + 8 < W64 →
  answers (block_size self) (file_size self) (buf ++ incoming r) (header_done self buf r).
Proof.
  intros Hs Hb Hoff Hw. unfold header_done. rewrite Hs, be_load_loop_8 by done.
  pose proof (be_val8_bound _ Hb) as Hsz. cbv zeta.
  rewrite <-(be_bytes8_val buf) at 1 by done.
  apply (block_payload_loop_answers (Mk (be_val buf) (block_size self) (file_size self)
    (buf_offset self)) _ [] r); simpl; try done; len_lia.
Qed.

Lemma block_header_loop_answers self buf c (r : R) :
  offset self = 0 → buf_offset self = lenN c → lenN c ≤ 8 → length buf = 8%nat →
  take (length c) buf = c → block_size self + 8 < W64 →
  answers (block_size self) (file_size self) (c ++ incoming r) (header_loop self buf r).
Proof.
  intros Hs Hoff Hc Hb Htk Hw. unfold header_loop.
  destruct (read_loop _ _ _ _ _ _) as [[[e off] b] r'] eqn:E.
  apply read_loop_spec in E as [[k ->]|(bs & H1 & H2 & H3 & H4 & H5 & H6)];
    [done|..|by vm_compute|len_lia|len_lia|len_lia].
  replace (N.to_nat (buf_offset self - 0)) with (length c) in H5 by len_lia.
  rewrite Htk in H5. rewrite H1.
  replace (N.to_nat (off - 0)) with (length (c ++ bs)) in H5 by len_lia.
  rewrite (assoc_L (++)).
  destruct e as [| |err|]; [| | |done].
  - assert (length (c ++ bs) = length b) as Hcb by len_lia.
    rewrite Hcb, firstn_all in H5. rewrite <-H5.
    apply (block_header_done_answers (Mk (offset self) (block_size self) (file_size self) off));
      simpl; try done; lia.
  - split; [done|]. split; [done|]. exists (c ++ bs). split; [done|].
    split; [|split; simpl; [done|lia]].
    apply holds_header; simpl; try len_lia.
    rewrite resize_all_alt by lia. done.
  - destruct H6 as (H6 & -> & Hnil). split; [done|]. split; [done|].
    rewrite Hnil, (right_id_L [] (++)). unfold parse_block. by rewrite decide_True by len_lia.
Qed.

Lemma block_read_on_answers self buf c (r : R) :
  holds self buf c → block_size self + 8 < W64 →
  answers (block_size self) (file_size self) (c ++ incoming r) (read_on self buf r).
Proof.
  intros [Hs Hoff Hc Htk|s Ho Hc Hoff Hsz Hlt Htk] Hw; unfold read_on.
  - replace (buf_offset self <? 8) with true by (symmetry; apply N.ltb_lt; lia).
    apply block_header_loop_answers; try done; try lia. by rewrite length_resize.
  - assert (8 ≤ buf_offset self) as H8 by (rewrite Hoff, Hc; len_lia).
    replace (buf_offset self <? 8) with false by (symmetry; apply N.ltb_ge; lia).
    subst c. rewrite <-(assoc_L (++)). apply block_payload_loop_answers; try done; try lia.
    rewrite Hoff. len_lia.
Qed.

Lemma block_at_pc_resume p self buf (r : R) :
  at_pc p self buf → read_on self buf r = resume p self buf r.
Proof.
  destruct p; unfold read_on; simpl.
  - intros [H%N.ltb_lt Hb]. rewrite H. by rewrite resize_all_alt.
  - intros H%N.ltb_ge. by rewrite H.
Qed.

Lemma block_polled_again op self buf (r : R) : (∀ p, op = Some p → at_pc p self buf) →
  match op with None => read_on | Some p => resume p end self buf r = read_on self buf r.
Proof. intros Hp. destruct op as [p|]; [|done]. symmetry. by apply block_at_pc_resume, Hp. Qed.

Lemma block_payload_loop_stalls `{!FairRead R} self buf (r : R) o self' buf' r' :
  payload_loop self buf r = (o, self', buf', r') →
  (stalls r' ≤ stalls r)%nat ∧ ∀ p, o = Suspended p → (stalls r' < stalls r)%nat.
Proof.
  unfold payload_loop. destruct (read_loop _ _ _ _ _ _) as [[[e off] b] r1] eqn:E.
  apply read_loop_stalls in E as [H1 H2].
  destruct e; intros; simplify_eq; split; auto; intros; done.
Qed.

(** An error that is not one of the transport is its end. *)
Lemma block_payload_loop_ended `{!LiveRead R} self buf (s : bytes) (r : R) o self' buf' r' :
  buf_offset self = 8 + lenN s → lenN s ≤ lenN buf → lenN buf + 8 < W64 →
  payload_loop self buf r = (o, self', buf', r') →
  ended r' = ended r ∧ ∀ e, o = Returned (Err e) → (∃ k, e = EIo k) ∨ ended r = true.
Proof.
  intros Hoff Hle Hw. unfold payload_loop. rewrite (wadd_small (lenN buf) 8) by lia.
  destruct (read_loop _ _ _ _ _ _) as [[[x off] b] r1] eqn:E.
  apply read_loop_ended in E as [E1 E2]; [|lia|lia|lia].
  destruct x as [| |err|]; intros; simplify_eq; (split; [done|]); intros; simplify_eq. by apply E2.
Qed.

Lemma block_read_on_ended `{!LiveRead R} self buf c (r : R) o self' buf' r' :
  holds self buf c → block_size self + 8 < W64 → read_on self buf r = (o, self', buf', r') →
  ended r' = ended r ∧ ∀ e, o = Returned (Err e) → (∃ k, e = EIo k) ∨ ended r = true.
Proof.
  intros [Hs Hoff Hc Htk|s Ho Hc Hoff Hsz Hlt Htk] Hw; unfold read_on.
  - replace (buf_offset self <? 8) with true by (symmetry; apply N.ltb_lt; lia).
    unfold header_loop. destruct (read_loop _ _ _ _ _ _) as [[[x off] b] r1] eqn:E.
    assert (lenN (resize 8 Byte.x00 buf) = 8) as Hl by (unfold lenN; by rewrite length_resize).
    pose proof E as E'. apply read_loop_ended in E' as [E1 E2]; [|by vm_compute|lia|lia].
    destruct x as [| |err|]; [|by intros; simplify_eq| |by intros; simplify_eq].
    + apply read_loop_spec in E as [[k ?]|(bs & _ & _ & _ & _ & _ & ->)]; [done| |by vm_compute|lia|lia|lia].
      unfold header_done. cbv zeta. intros E3.
      apply (block_payload_loop_ended _ _ []) in E3; cbn [buf_offset block_size file_size] in *.
      * by rewrite <-E1.
      * done.
      * apply N.le_0_l.
      * unfold lenN. rewrite length_resize, N2Nat.id.
        eapply N.le_lt_trans; [apply N.add_le_mono_r, current_block_size_le|done].
    + intros; simplify_eq. split; [done|]. intros; simplify_eq. by apply E2.
  - assert (8 ≤ buf_offset self) as H8 by (rewrite Hoff, Hc; len_lia).
    replace (buf_offset self <? 8) with false by (symmetry; apply N.ltb_ge; lia).
    apply (block_payload_loop_ended _ _ s); [rewrite Hoff, Hc; len_lia|lia|].
    pose proof (current_block_size_le (block_size self) (file_size self) (offset self)). lia.
Qed.

Lemma block_payload_loop_incoming self buf (r : R) o self' buf' r' :
  payload_loop self buf r = (o, self', buf', r') → (∀ e, o ≠ Returned (Err e)) →
  (length (incoming r') ≤ length (incoming r))%nat.
Proof.
  unfold payload_loop. destruct (read_loop _ _ _ _ _ _) as [[[e off] b] r1] eqn:E.
  intros E' Ho. apply read_loop_incoming in E; [destruct e; by simplify_eq|].
  intros err ->. simplify_eq. by destruct (Ho err).
Qed.

Lemma block_read_on_incoming self buf (r : R) o self' buf' r' :
  read_on self buf r = (o, self', buf', r') → (∀ e, o ≠ Returned (Err e)) →
  (length (incoming r') ≤ length (incoming r))%nat.
Proof.
  unfold read_on. case_match; [|apply block_payload_loop_incoming].
  unfold header_loop. destruct (read_loop _ _ _ _ _ _) as [[[e off] b] r1] eqn:E.
  intros E' Ho. apply read_loop_incoming in E.
  - destruct e; simplify_eq; try done.
    apply block_payload_loop_incoming in E'; [lia|done].
  - intros err ->. simplify_eq. by destruct (Ho err).
Qed.

Lemma block_read_on_stalls `{!FairRead R} self buf (r : R) o self' buf' r' :
  read_on self buf r = (o, self', buf', r') →
  (stalls r' ≤ stalls r)%nat ∧ ∀ p, o = Suspended p → (stalls r' < stalls r)%nat.
Proof.
  unfold read_on. case_match; [|apply block_payload_loop_stalls].
  unfold header_loop. destruct (read_loop _ _ _ _ _ _) as [[[e off] b] r1] eqn:E.
  apply read_loop_stalls in E as [H1 H2].
  destruct e; intros E'; simplify_eq; try (split; auto; intros; done).
  apply block_payload_loop_stalls in E' as [H3 H4]. split; [lia|].
  intros p Hp. apply H4 in Hp. lia.
Qed.

Lemma block_drive_answers `{!FairRead R} n self buf c (r : R) :
  holds self buf c → block_size self + 8 < W64 → (stalls r ≤ n)%nat →
  answers (block_size self) (file_size self) (c ++ incoming r) (drive n self buf r)
  ∧ ∀ p, (drive n self buf r).1.1.1 ≠ Suspended p.
Proof.
  revert self buf c r. induction n as [|n IH]; intros self buf c r Hh Hw Hn; cbn [drive];
    pose proof (block_read_on_answers self buf c r Hh Hw) as Ha;
    destruct (read_on self buf r) as [[[o self'] buf'] r'] eqn:E;
    apply block_read_on_stalls in E as [_ E];
    (destruct o as [res|p|]; [by split|..|by split]);
    specialize (E p eq_refl); [lia|].
  destruct Ha as (Hm & Hf & c' & -> & Hh' & _).
  rewrite <-Hm, <-Hf. apply IH; [done|by rewrite Hm|lia].
Qed.
End proofs.

End ResumableReadFileBlock.

Module ResumableAsyncWriteAll.

(** The writer itself is an argument of the operations. *)
Record t := Mk { offset : N }.

(** [ResumableAsyncWriteAll::new] *)
Definition new : t := Mk 0.

(** [write_all] *)
Definition write_all {W} `{!AsyncWrite W} (fuel : nat) (self : t) (data : bytes) (w : W)
    : Outcome () () * t * W :=
  let '(e, off, w') := write_loop fuel (offset self) data w in
  match e with
  | LDone => (Returned (Ok ()), Mk off, w')
  | LPending => (Suspended (), Mk off, w')
  | LErr err => (Returned (Err err), Mk off, w')
  | LFuel => (OutOfFuel, Mk off, w')
  end.

(** A run sends the part of [data] between the old offset and the new. *)
Lemma write_all_sends {W} `{!AsyncWrite W, !AsyncWriteLaws W} fuel self data (w : W) o self' w' :
  offset self ≤ lenN data < W64 → write_all fuel self data w = (o, self', w') →
  offset self ≤ offset self' ≤ lenN data
  ∧ written w' ++ drop (N.to_nat (offset self')) data
    = written w ++ drop (N.to_nat (offset self)) data
  ∧ match o with
    | Returned (Ok _) => offset self' = lenN data
    | Returned (Err e) => ∃ k, e = EIo k
    | _ => offset self' < lenN data
    end.
Proof.
  intros [Hoff Hlen]. unfold write_all.
  destruct (write_loop _ _ _ _) as [[e off] w1] eqn:E.
  apply write_loop_spec in E as (H1 & H2 & H3 & H4); [|done..]. intros Hres.
  assert (self' = Mk off ∧ w' = w1) as [-> ->] by (by destruct e; simplify_eq).
  cbn [offset]. split; [lia|]. split.
  - rewrite H3, <-(assoc_L (++)). f_equal.
    rewrite <-(take_drop (N.to_nat off) data) at 2. rewrite H2, <-(assoc_L (++)).
    rewrite drop_app_length'; [done|len_lia].
  - destruct e; simplify_eq; auto. by destruct H4.
Qed.

End ResumableAsyncWriteAll.

(** ** Properties *)

(** The next blocks of a transport, received as the server does: one
    [ResumableReadFileBlock], two buffers swapped after each block
    (src/src/server.rs, line 128). *)
Fixpoint read_blocks {R} `{!AsyncRead R, !FairRead R} (k : nat) (self : ResumableReadFileBlock.t)
    (receive_buffer write_buffer : bytes) (r : R) : Result (list (N * bytes)) * R :=
  match k with
  | O => (Ok [], r)
  | S k' =>
      match ResumableReadFileBlock.drive (stalls r) self receive_buffer r with
      | (Returned (Ok off), self', data, r') =>
          match read_blocks k' self' write_buffer data r' with
          | (Ok bs, r'') => (Ok ((off, data) :: bs), r'')
          | res => res
          end
      | (Returned (Err e), _, _, r') => (Err e, r')
      | (_, _, _, r') => (Err EClosed, r')
      end
  end.

(** A block of a file of [fsz] bytes cut in blocks of [bsz] bytes. *)
Definition is_block (bsz fsz : N) (b : N * bytes) : Prop :=
  b.1 ≤ fsz ∧ fsz < W64 ∧ lenN b.2 = N.min bsz (fsz - b.1).

Lemma current_block_size_in bsz fsz off :
  off ≤ fsz → fsz < W64 → current_block_size bsz fsz off = N.min bsz (fsz - off).
Proof.
  intros H1 H2. unfold current_block_size. rewrite wsub_small by done. cbv zeta.
  destruct (N.ltb_spec (fsz - off) bsz); lia.
Qed.

Lemma parse_block_frame bsz fsz b rest :
  is_block bsz fsz b →
  ResumableReadFileBlock.parse_block bsz fsz (block_frame b.1 b.2 ++ rest)
  = Ok (b.1, b.2, rest).
Proof.
  intros (H1 & H2 & H3). unfold block_frame. rewrite <-(assoc_L (++)).
  rewrite ResumableReadFileBlock.parse_block_header by lia. cbv zeta.
  rewrite current_block_size_in by done. rewrite <-H3.
  rewrite decide_False by len_lia.
  by rewrite take_app_length', drop_app_length' by len_lia.
Qed.

Section block_theorems.
Context {R : Type} `{!AsyncRead R, !AsyncReadLaws R}.

(** C37. Cancel safety of [ResumableReadFileBlock::read_on]: a suspended call
    that is dropped loses nothing, and calling [read_on] again with the saved
    state and buffer behaves, on every continuation of the transport, as
    polling the suspended future. *)
Theorem read_block_cancel_safe self buf c (r : R) p self' buf' r' :
  ResumableReadFileBlock.holds self buf c →
  ResumableReadFileBlock.block_size self + 8 < W64 →
  ResumableReadFileBlock.read_on self buf r = (Suspended p, self', buf', r') →
  (∃ c', c ++ incoming r = c' ++ incoming r' ∧ ResumableReadFileBlock.holds self' buf' c')
  ∧ ∀ r2 : R, ResumableReadFileBlock.read_on self' buf' r2
              = ResumableReadFileBlock.resume p self' buf' r2.
Proof.
  intros Hh Hw E.
  pose proof (ResumableReadFileBlock.block_read_on_answers self buf c r Hh Hw) as Ha.
  rewrite E in Ha. destruct Ha as (_ & _ & c' & Hc & Hh' & Hp). split; [by exists c'|].
  intros r2. by apply ResumableReadFileBlock.block_at_pc_resume.
Qed.

Lemma read_blocks_frames `{!FairRead R} bsz fsz bs rest rb wb (r : R) res r' :
  bsz + 8 < W64 → Forall (is_block bsz fsz) bs →
  incoming r = concat ((λ b, block_frame b.1 b.2) <$> bs) ++ rest →
  read_blocks (length bs) (ResumableReadFileBlock.new bsz fsz) rb wb r = (res, r') →
  (∃ k, res = Err (EIo k)) ∨ res = Ok bs ∧ incoming r' = rest.
Proof.
  intros Hw Hbs. revert rb wb r res r'.
  induction Hbs as [|b bs Hb Hbs IH]; intros rb wb r res r' Hi; cbn [length read_blocks];
    [by intros; simplify_eq; right|].
  destruct (ResumableReadFileBlock.block_drive_answers (stalls r)
    (ResumableReadFileBlock.new bsz fsz) rb [] r) as [Ha Hd];
    [apply ResumableReadFileBlock.block_holds_new|done|done|].
  cbn [fmap list_fmap concat] in Hi. rewrite <-(assoc_L (++)) in Hi.
  destruct (ResumableReadFileBlock.drive _ _ _ _) as [[[o self'] data] r1].
  cbn [ResumableReadFileBlock.answers ResumableReadFileBlock.block_size
       ResumableReadFileBlock.file_size ResumableReadFileBlock.new app] in Ha.
  destruct Ha as (_ & _ & Ha). rewrite Hi in Ha.
  destruct o as [[x|e]|p|]; [| |by destruct (Hd p)|done].
  - rewrite parse_block_frame in Ha by done. destruct Ha as [Hx ->].
    injection Hx as <- <- Hr1. symmetry in Hr1.
    destruct (read_blocks (length bs) _ wb b.2 r1) as [res1 r2] eqn:E.
    destruct (IH _ _ _ _ _ Hr1 E) as [[k ->]|[-> Hr2]]; intros; simplify_eq; eauto.
    right. by destruct b.
  - rewrite parse_block_frame in Ha by done.
    intros ?; simplify_eq. destruct e; try done. eauto.
Qed.

(** C35. Receiving file blocks: blocks sent back to back, the last one of the
    file shorter than the others, are received as the same offsets and data in
    order, with the two buffers swapped between blocks, whatever the buffers
    held before, however the bytes are cut and wherever the reads are cancelled
    (or the transport fails). *)
Theorem read_blocks_roundtrip `{!FairRead R} bsz fsz bs rest rb wb (r : R) :
  bsz + 8 < W64 → Forall (is_block bsz fsz) bs →
  incoming r = concat ((λ b, block_frame b.1 b.2) <$> bs) ++ rest →
  (∃ k, (read_blocks (length bs) (ResumableReadFileBlock.new bsz fsz) rb wb r).1 = Err (EIo k))
  ∨ ∃ r', read_blocks (length bs) (ResumableReadFileBlock.new bsz fsz) rb wb r = (Ok bs, r')
          ∧ incoming r' = rest.
Proof.
  intros Hw Hbs Hi.
  destruct (read_blocks (length bs) _ rb wb r) as [res r'] eqn:E.
  destruct (read_blocks_frames _ _ _ _ _ _ _ _ _ Hw Hbs Hi E) as [[k ->]|[-> Hr]]; eauto.
Qed.

(** C36. Receiving a block, on every branch: the calls repeated after each
    cancellation end, and unless the transport fails the result is the one
    [parse_block] assigns to the bytes on the wire: the offset and exactly the
    bytes of the block, or the error of a connection closed inside it. *)
Theorem read_block_resumable_correct `{!FairRead R} bsz fsz buf (r : R) :
  bsz + 8 < W64 →
  ∃ res self' buf' r',
    ResumableReadFileBlock.drive (stalls r) (ResumableReadFileBlock.new bsz fsz) buf r
    = (Returned res, self', buf', r')
  ∧ match res with
    | Ok off => ResumableReadFileBlock.parse_block bsz fsz (incoming r)
                = Ok (off, buf', incoming r')
                ∧ self' = ResumableReadFileBlock.new bsz fsz
    | Err (EIo _) => True
    | Err e => ResumableReadFileBlock.parse_block bsz fsz (incoming r) = Err e
    end.
Proof.
  intros Hw.
  destruct (ResumableReadFileBlock.block_drive_answers (stalls r)
    (ResumableReadFileBlock.new bsz fsz) buf [] r) as [Ha Hs];
    [apply ResumableReadFileBlock.block_holds_new|done|done|].
  destruct (ResumableReadFileBlock.drive _ _ _ _) as [[[[res|p|] self'] buf'] r'].
  - destruct Ha as (_ & _ & Ha). by exists res, self', buf', r'.
  - by destruct (Hs p).
  - by destruct Ha as (_ & _ & []).
Qed.
End block_theorems.


Section block_write_theorems.
Context {W : Type} `{!AsyncWrite W, !AsyncWriteLaws W}.

(** C38. [ResumableWriteFileBlock] sends the frame of its block exactly once:
    over any writer and after any number of cancelled calls, what was written
    is a prefix of the 8-byte offset followed by the data, and the state holds
    the rest; a call that succeeds has sent all of it and nothing more; and a
    call after a cancellation does what the suspended future would have. *)
Theorem write_block_resumable_correct n fuel off l (w : W) o self' w' :
  lenN (deref l) < W64 →
  ResumableWriteFileBlock.drive n fuel (ResumableWriteFileBlock.new off l) w = (o, self', w') →
  written w' ++ ResumableWriteFileBlock.remaining self'
    = written w ++ block_frame off (deref l)
  ∧ (o = Returned (Ok ()) → written w' = written w ++ block_frame off (deref l))
  ∧ (∀ p, o = Suspended p → ∀ fuel (w2 : W),
       ResumableWriteFileBlock.write_to fuel self' w2
       = ResumableWriteFileBlock.resume p fuel self' w2)
  ∧ (∀ e, o = Returned (Err e) → ∃ k, e = EIo k).
Proof.
  intros Hl E.
  assert (ResumableWriteFileBlock.step (ResumableWriteFileBlock.new off l) ≤ 2) as Hs by (simpl; lia).
  pose proof (ResumableWriteFileBlock.drive_sends n fuel _ w
    (ResumableWriteFileBlock.block_new_wf off l Hl) Hs) as H. rewrite E in H.
  pose proof H as (_ & _ & _ & H4 & H5).
  rewrite ResumableWriteFileBlock.new_remaining in H4. split_and!; [done|..].
  - intros ->. by rewrite H5, (right_id_L [] (++)) in H4.
  - intros p -> fuel' w2. by apply (ResumableWriteFileBlock.sends_resume fuel' _ _ _ _ _ _ H).
  - by intros e ->.
Qed.

(** The calls of [write_all] with the same data, repeated while pending. *)
Fixpoint write_all_drive (n fuel : nat) (self : ResumableAsyncWriteAll.t) (data : bytes) (w : W)
    : Outcome () () * ResumableAsyncWriteAll.t * W :=
  match ResumableAsyncWriteAll.write_all fuel self data w with
  | (Suspended p, self', w') =>
      match n with
      | O => (Suspended p, self', w')
      | S n' => write_all_drive n' fuel self' data w'
      end
  | res => res
  end.

Lemma write_all_drive_sends n fuel self data (w : W) o self' w' :
  ResumableAsyncWriteAll.offset self ≤ lenN data < W64 →
  write_all_drive n fuel self data w = (o, self', w') →
  written w' ++ drop (N.to_nat (ResumableAsyncWriteAll.offset self')) data
    = written w ++ drop (N.to_nat (ResumableAsyncWriteAll.offset self)) data
  ∧ (o = Returned (Ok ()) → ResumableAsyncWriteAll.offset self' = lenN data).
Proof.
  revert self w. induction n as [|n IH]; intros self w Hwf; cbn [write_all_drive];
    destruct (ResumableAsyncWriteAll.write_all fuel self data w) as [[o1 self1] w1] eqn:E;
    apply ResumableAsyncWriteAll.write_all_sends in E as (Hb & H1 & H2); try done;
    (destruct o1 as [[[]|e]|[]|]; intros; simplify_eq;
      try (split; [done|by intros])).
  edestruct (IH self1 w1) as (H3 & H4); [lia|eassumption|]. split; [congruence|done].
Qed.

(** [ResumableAsyncWriteAll] writes a buffer exactly once across cancelled
    calls: when a call succeeds the writer has received the whole of [data]
    after what it had, and never more than a prefix of it before. *)
Theorem write_all_resumable_correct n fuel data (w : W) o self' w' :
  lenN data < W64 →
  write_all_drive n fuel ResumableAsyncWriteAll.new data w = (o, self', w') →
  (∃ suffix, written w' ++ suffix = written w ++ data)
  ∧ (o = Returned (Ok ()) → written w' = written w ++ data).
Proof.
  intros Hd E. apply write_all_drive_sends in E as [H1 H2];
    [|unfold ResumableAsyncWriteAll.new; cbn [ResumableAsyncWriteAll.offset]; lia].
  cbn [ResumableAsyncWriteAll.new ResumableAsyncWriteAll.offset] in H1.
  rewrite drop_0 in H1. split; [by eexists|].
  intros Ho. apply H2 in Ho. rewrite Ho in H1.
  rewrite drop_ge in H1 by len_lia. by rewrite (right_id_L [] (++)) in H1.
Qed.
End block_write_theorems.

(** ** The theorems at concrete inputs: blocks of 4 bytes of a file of 10 *)

Definition sample_blocks : list (N * bytes) :=
  [(0, replicate 4 (byte_of 170)); (8, replicate 2 (byte_of 187))].

Definition chunk_of (bs : bytes) : list RdItem :=
  match bs with [] => [] | b :: bs' => [Chunk b bs'] end.

(** The two frames cut after 5 bytes and after 15 bytes, with pending polls. *)
Definition sample_script : list RdItem :=
  let wire := concat ((λ b, block_frame b.1 b.2) <$> sample_blocks) in
  chunk_of (take 5 wire) ++ [Stall] ++ chunk_of (take 10 (drop 5 wire)) ++ [Stall; Stall]
  ++ chunk_of (drop 15 wire).

Lemma read_block_cancel_safe_witness :
  ∃ self' buf' r',
    ResumableReadFileBlock.read_on (ResumableReadFileBlock.new 4 10) [] sample_script
    = (Suspended ResumableReadFileBlock.AtHeader, self', buf', r')
  ∧ ∀ r2 : list RdItem, ResumableReadFileBlock.read_on self' buf' r2
      = ResumableReadFileBlock.resume ResumableReadFileBlock.AtHeader self' buf' r2.
Proof.
  eexists _, _, _. split; [vm_compute; reflexivity|].
  eapply (proj2 (read_block_cancel_safe (ResumableReadFileBlock.new 4 10) [] [] sample_script
    ResumableReadFileBlock.AtHeader _ _ _ (ResumableReadFileBlock.block_holds_new 4 10 [])
    ltac:(vm_compute; reflexivity) ltac:(vm_compute; reflexivity))).
Defined.

Lemma read_blocks_roundtrip_witness :
  ∃ r', read_blocks 2 (ResumableReadFileBlock.new 4 10) [] [byte_of 1] sample_script
        = (Ok sample_blocks, r') ∧ incoming r' = [].
Proof.
  destruct (read_blocks_roundtrip 4 10 sample_blocks [] [] [byte_of 1] sample_script)
    as [[k E]|H].
  - vm_compute; reflexivity.
  - repeat constructor; vm_compute; congruence.
  - vm_compute; reflexivity.
  - vm_compute in E. discriminate.
  - exact H.
Defined.

Lemma read_block_resumable_correct_witness :
  ∃ self' r', ResumableReadFileBlock.drive 3 (ResumableReadFileBlock.new 4 10) [] sample_script
              = (Returned (Ok 0), self', replicate 4 (byte_of 170), r').
Proof.
  destruct (read_block_resumable_correct 4 10 [] sample_script ltac:(vm_compute; reflexivity))
    as (res & self' & buf' & r' & E & _).
  change (stalls sample_script) with 3%nat in E.
  exists self', r'. rewrite E. vm_compute in E. injection E as <- <- <- <-. reflexivity.
Defined.


Lemma write_block_resumable_correct_witness :
  let l := MkLoan (replicate 2 (byte_of 187)) (Some 0) in
  let w := MkSink [] [Accept 2; WStall; Accept 0; Accept 4; WStall; Accept 1] in
  ∃ self', ResumableWriteFileBlock.drive 2 20 (ResumableWriteFileBlock.new 8 l) w
           = (Returned (Ok ()), self', MkSink (block_frame 8 (deref l)) []).
Proof.
  intros l w.
  destruct (ResumableWriteFileBlock.drive 2 20 (ResumableWriteFileBlock.new 8 l) w)
    as [[o self'] w'] eqn:E.
  destruct (write_block_resumable_correct 2 20 8 l w o self' w'
    ltac:(vm_compute; reflexivity) E) as (_ & H & _).
  exists self'. vm_compute in E. injection E as <- <- <-.
  specialize (H eq_refl). vm_compute. reflexivity.
Defined.

Lemma write_all_resumable_correct_witness :
  let w := MkSink [byte_of 1] [Accept 1; WStall; Accept 0; WStall] in
  ∃ self', write_all_drive 2 20 ResumableAsyncWriteAll.new (replicate 5 (byte_of 2)) w
           = (Returned (Ok ()), self', MkSink (byte_of 1 :: replicate 5 (byte_of 2)) []).
Proof.
  intros w.
  destruct (write_all_drive 2 20 ResumableAsyncWriteAll.new (replicate 5 (byte_of 2)) w)
    as [[o self'] w'] eqn:E.
  destruct (write_all_resumable_correct 2 20 (replicate 5 (byte_of 2)) w o self' w'
    ltac:(vm_compute; reflexivity) E) as [_ H].
  exists self'. vm_compute in E. injection E as <- <- <-.
  specialize (H eq_refl). vm_compute. reflexivity.
Defined.
