(* ===== verification/Disk.v ===== *)
(** The file being written (a [tokio::fs::File] of src/src/server.rs) as an
    object written asynchronously at a position: the interface, what a run of
    [ResumableAsyncWriteAll] does to it, and a scripted instance. *)

From stdpp Require Import base option list numbers.
From Stdlib Require Import NArith Lia.
From S2P Require Import Prelude AsyncIO Resumable ResumableBlock.
#[local] Open Scope N_scope.

(** ** Writing at a position *)

(** The content after [bs] is written at [pos]; a gap is filled with zeros. *)
Definition patch (c : bytes) (pos : N) (bs : bytes) : bytes :=
  match bs with
  | [] => c
  | _ => write_at (resize (Nat.max (length c) (N.to_nat pos)) Byte.x00 c) (N.to_nat pos) bs
  end.

Definition patches (c : bytes) (fs : list (N * bytes)) : bytes :=
  fold_left (λ c f, patch c f.1 f.2) fs c.

(** ** The interface *)

(** Besides the writes: [seek(SeekFrom::Start(n))], [flush], [sync_data]. *)
Class DiskFile (D : Type) `{!AsyncWrite D} := {
  d_content : D → bytes;
  d_pos : D → N;
  d_seek : N → D → Result () * D;
  d_flush : D → Result () * D;
  d_sync : D → Result () * D;
}.

(** A write puts the bytes it takes at the position and moves it; everything
    else keeps the content. *)
Class DiskLaws (D : Type) `{!AsyncWrite D, !DiskFile D} : Prop := {
  disk_write d buf n d' : poll_write d buf = (Ready (Ok n), d') →
    (n ≤ length buf)%nat ∧ d_content d' = patch (d_content d) (d_pos d) (take n buf)
    ∧ d_pos d' = d_pos d + N.of_nat n;
  disk_pending d buf d' : poll_write d buf = (Pending, d') →
    d_content d' = d_content d ∧ d_pos d' = d_pos d;
  disk_error d buf e d' : poll_write d buf = (Ready (Err e), d') →
    d_content d' = d_content d;
  disk_seek_ok d n d' : d_seek n d = (Ok (), d') → d_content d' = d_content d ∧ d_pos d' = n;
  disk_seek_err d n e d' : d_seek n d = (Err e, d') → d_content d' = d_content d;
  disk_flush d r d' : d_flush d = (r, d') → d_content d' = d_content d;
  disk_sync d r d' : d_sync d = (r, d') → d_content d' = d_content d;
}.

(** A seek does not add any. *)
Class FairSeek (D : Type) `{!AsyncWrite D, !DiskFile D, !FairWrite D} : Prop :=
  seek_stalls (d : D) n r d' : d_seek n d = (r, d') → (wstalls d' ≤ wstalls d)%nat.

(** Seeks within the range of [lseek] do not fail either. *)
Class ReliableDisk (D : Type) `{!AsyncWrite D, !DiskFile D, !Reliable D} : Prop :=
  sound_seek (d : D) n r d' : sound d → n < 2 ^ 63 → d_seek n d = (r, d') → sound d' ∧ r = Ok ().

(** ** Lemmas *)

Lemma length_patch c pos bs : bs ≠ [] →
  length (patch c pos bs) = Nat.max (length c) (N.to_nat pos + length bs).
Proof. unfold patch. destruct bs; [done|]. intros _. unfold write_at. len_lia. Qed.

Lemma lookup_patch c pos bs i :
  patch c pos bs !! i
  = if decide (i < N.to_nat pos)%nat then
      (if decide (i < length c)%nat then c !! i
       else if decide (bs = []) then None else Some Byte.x00)
    else if decide (i < N.to_nat pos + length bs)%nat then bs !! (i - N.to_nat pos)%nat
    else c !! i.
Proof.
  unfold patch. destruct bs as [|b bs].
  - repeat case_decide; try done; try (apply lookup_ge_None; lia); cbn in *; lia.
  - set (l := b :: bs). assert (l ≠ []) as Hne by done. clearbody l. clear b bs.
    unfold write_at. set (r := resize _ _ c). set (p := N.to_nat pos).
    assert (length r = Nat.max (length c) p) as Hr by (unfold r; apply length_resize).
    assert (∀ j, r !! j = if decide (j < length c)%nat then c !! j
                          else if decide (j < p)%nat then Some Byte.x00 else None) as Hl.
    { intros j. unfold r. case_decide; [apply lookup_resize; lia|].
      case_decide; [apply lookup_resize_new; lia|apply lookup_resize_old; lia]. }
    case_decide as Hi.
    + rewrite lookup_app_l by (rewrite length_take; lia).
      rewrite lookup_take_lt by done. rewrite Hl. case_decide; [done|].
      by rewrite decide_True, decide_False.
    + rewrite lookup_app_r by (rewrite length_take; lia). rewrite length_take, Hr.
      replace (p `min` (length c `max` p))%nat with p by lia. case_decide.
      * by rewrite lookup_app_l by lia.
      * rewrite lookup_app_r, lookup_drop by lia.
        replace (p + length l + (i - p - length l))%nat with i by lia. rewrite Hl.
        case_decide; [done|]. rewrite decide_False by done. symmetry. apply lookup_ge_None. lia.
Qed.

Lemma patch_app c pos b1 b2 :
  patch (patch c pos b1) (pos + lenN b1) b2 = patch c pos (b1 ++ b2).
Proof.
  destruct (decide (b2 = [])) as [->|H2]; [by rewrite (right_id_L [] (++))|].
  destruct (decide (b1 = [])) as [->|H1]; [by rewrite N.add_0_r|].
  apply list_eq. intros i. rewrite !lookup_patch, length_app.
  rewrite length_patch by done. unfold lenN.
  replace (N.to_nat (pos + N.of_nat (length b1))) with (N.to_nat pos + length b1)%nat by lia.
  rewrite !(decide_False (P:=_ = [])) by (done || by destruct b1).
  repeat case_decide; try done; try lia.
  - by rewrite lookup_app_l by lia.
  - rewrite lookup_app_r by lia. f_equal. lia.
Qed.

(** A block written in the middle is found there; the rest is untouched. *)
Lemma patch_inside c pos bs : pos + lenN bs ≤ lenN c →
  patch c pos bs = take (N.to_nat pos) c ++ bs ++ drop (N.to_nat (pos + lenN bs)) c.
Proof.
  intros H. unfold patch. destruct bs as [|b bs].
  - rewrite app_nil_l, N.add_0_r. by rewrite take_drop.
  - rewrite resize_all_alt by (unfold lenN in H; cbn [length] in *; lia).
    unfold write_at. do 3 f_equal. len_lia.
Qed.

Lemma patches_snoc c fs f : patches c (fs ++ [f]) = patch (patches c fs) f.1 f.2.
Proof. unfold patches. by rewrite fold_left_app. Qed.

Section write_all.
Context {D : Type} `{!AsyncWrite D, !DiskFile D, !AsyncWriteLaws D, !DiskLaws D}.

(** A run of the write loop puts the bytes from the old offset to the new. *)
Lemma disk_write_loop fuel off buf (d : D) e off' d' :
  write_loop fuel off buf d = (e, off', d') → off ≤ lenN buf → lenN buf < W64 →
  off ≤ off' ≤ lenN buf
  ∧ d_content d' = patch (d_content d) (d_pos d)
                         (take (N.to_nat (off' - off)) (drop (N.to_nat off) buf))
  ∧ ((∀ err, e ≠ LErr err) → d_pos d' = d_pos d + (off' - off)).
Proof.
  assert (∀ c p (l : bytes) x, x = 0 → patch c p (take (N.to_nat x) l) = c) as Hnil
    by (intros c p l x ->; by rewrite take_0).
  revert off d. induction fuel as [|fuel IH]; intros off d; cbn [write_loop];
    (destruct (N.ltb_spec off (lenN buf)) as [Hlt|Hge];
      [|intros; simplify_eq; rewrite Hnil by lia; split_and!; intros; (done || lia)]).
  { intros; simplify_eq; rewrite Hnil by lia; split_and!; intros; (done || lia). }
  destruct (poll_write d _) as [[[n|err]|] d1] eqn:Hp; intros E Hle Hw.
  - apply disk_write in Hp as (Hn & Hc & Hpos). rewrite wadd_small in E by len_lia.
    apply IH in E as (H1 & H2 & H3); [|len_lia|done]. split; [lia|]. split.
    + rewrite H2, Hc, Hpos.
      replace (d_pos d + N.of_nat n)
        with (d_pos d + lenN (take n (drop (N.to_nat off) buf))) by len_lia.
      rewrite patch_app. f_equal.
      replace (N.to_nat (off + N.of_nat n)) with (N.to_nat off + n)%nat by lia.
      rewrite <-drop_drop. replace (N.to_nat (off' - off)) with (n + N.to_nat (off' - (off + N.of_nat n)))%nat by lia.
      by rewrite take_take_drop.
    + intros He. rewrite H3, Hpos by done. lia.
  - apply disk_error in Hp. simplify_eq. rewrite Hnil by lia. split; [lia|]. split; [done|].
    intros He. by destruct (He err).
  - apply disk_pending in Hp as [Hc Hpos]. simplify_eq. rewrite Hnil by lia.
    split; [lia|]. split; [done|]. intros _. lia.
Qed.
End write_all.

(** ** A file in memory, answering as a given writer does *)

Record Disk (K : Type) := MkDisk {
  disk_bytes : bytes;
  disk_pos : N;
  disk_sink : K;
}.
Arguments MkDisk {K} disk_bytes disk_pos disk_sink.
Arguments disk_bytes {K} d.
Arguments disk_pos {K} d.
Arguments disk_sink {K} d.

Section disk.
Context {K : Type} `{!AsyncWrite K}.

Definition disk_poll_write (d : Disk K) (buf : bytes) : Poll (Result nat) * Disk K :=
  let '(r, s) := poll_write (disk_sink d) buf in
  (r, match r with
      | Ready (Ok n) => MkDisk (patch (disk_bytes d) (disk_pos d) (take n buf))
                               (disk_pos d + N.of_nat n) s
      | _ => MkDisk (disk_bytes d) (disk_pos d) s
      end).

#[global] Instance disk_async : AsyncWrite (Disk K) := {
  poll_write := disk_poll_write;
  written d := written (disk_sink d);
}.

(** [lseek] refuses offsets beyond [i64::MAX]. *)
#[global] Instance disk_file : DiskFile (Disk K) := {
  d_content := disk_bytes;
  d_pos := disk_pos;
  d_seek n d :=
    if n <? 2 ^ 63 then (Ok (), MkDisk (disk_bytes d) n (disk_sink d))
    else (Err (EIo (EkOther 22)), d);
  d_flush d := (Ok (), d);
  d_sync d := (Ok (), d);
}.

(** A poll of the file is a poll of its writer. *)
Lemma disk_poll d buf r d' : poll_write d buf = (r, d') →
  poll_write (disk_sink d) buf = (r, disk_sink d')
  ∧ match r with
    | Ready (Ok n) => disk_bytes d' = patch (disk_bytes d) (disk_pos d) (take n buf)
        ∧ disk_pos d' = disk_pos d + N.of_nat n
    | _ => disk_bytes d' = disk_bytes d ∧ disk_pos d' = disk_pos d
    end.
Proof.
  cbn. unfold disk_poll_write.
  destruct (poll_write (disk_sink d) buf) as [[[n|e]|] s] eqn:E; intros; by simplify_eq.
Qed.

#[global] Instance disk_async_laws `{!AsyncWriteLaws K} : AsyncWriteLaws (Disk K).
Proof.
  split; intros d buf.
  - intros n d' [E _]%disk_poll. exact (write_ready (W:=K) _ _ _ _ E).
  - intros d' [E _]%disk_poll. exact (write_pending (W:=K) _ _ _ E).
  - intros e d' [E _]%disk_poll. exact (write_error (W:=K) _ _ _ _ E).
Qed.

#[global] Instance disk_laws `{!AsyncWriteLaws K} : DiskLaws (Disk K).
Proof.
  split; intros d.
  - intros buf n d' [E [H1 H2]]%disk_poll. apply (write_ready (W:=K)) in E as [? _]. done.
  - by intros buf d' [_ H]%disk_poll.
  - by intros buf e d' [_ [H _]]%disk_poll.
  - intros n d' E. cbn in E. destruct (n <? 2 ^ 63); by simplify_eq.
  - intros n e d' E. cbn in E. destruct (n <? 2 ^ 63); by simplify_eq.
  - intros r d' E. cbn in E. by simplify_eq.
  - intros r d' E. cbn in E. by simplify_eq.
Qed.

#[global] Instance disk_progress `{!WriteProgress K} : WriteProgress (Disk K).
Proof. intros d buf n d' [E _]%disk_poll. exact (write_progress (W:=K) _ _ _ _ E). Qed.

#[global] Instance disk_fair `{!FairWrite K} : FairWrite (Disk K).
Proof.
  refine {| wstalls d := wstalls (disk_sink d) |}.
  - intros d buf d' [E _]%disk_poll. by apply (wstalls_pending (W:=K)) in E.
  - intros d buf x d' [E _]%disk_poll. by apply (wstalls_ready (W:=K)) in E.
Defined.

#[global] Instance disk_fair_seek `{!FairWrite K} : FairSeek (Disk K).
Proof. intros d n r d'. cbn. destruct (n <? 2 ^ 63); intros; by simplify_eq. Qed.

#[global] Instance disk_reliable `{!Reliable K} : Reliable (Disk K).
Proof.
  refine {| sound d := sound (disk_sink d) |}.
  intros d buf x d' Hs [E _]%disk_poll. exact (sound_write (W:=K) _ _ _ _ Hs E).
Defined.

#[global] Instance disk_reliable_seek `{!Reliable K} : ReliableDisk (Disk K).
Proof.
  intros d n r d' Hs Hn E. cbn in E. apply N.ltb_lt in Hn. rewrite Hn in E. by simplify_eq.
Qed.
End disk.
