(* ===== verification/Fs.v ===== *)
(** The file system as the program uses it (std::fs): metadata, opening,
    creating and resizing files.

    A path is the bytes of an absolute path; the contents are a finite map.
    What the operating system may refuse is an oracle, [fs_refuses]: every call
    on a path may fail with any error. *)

From stdpp Require Import base option list gmap numbers.
From Stdlib Require Import NArith Lia.
From S2P Require Import Prelude AsyncIO.
#[local] Open Scope N_scope.

#[global] Instance byte_countable : Countable byte.
Proof.
  refine (inj_countable' Byte.to_N (λ n, default Byte.x00 (Byte.of_N n)) _).
  intros b. by rewrite Byte.of_to_N.
Defined.

Inductive FsOp := FsMetadata | FsOpenWrite | FsOpenRead | FsCreate | FsSetLen.

#[global] Instance FsOp_eq_dec : EqDecision FsOp.
Proof. solve_decision. Defined.

Record Fs := MkFs {
  fs_files : gmap bytes bytes;
  fs_refuses : FsOp → bytes → option ErrorKind;
}.

Definition fs_put (path content : bytes) (fs : Fs) : Fs :=
  MkFs (<[path := content]> (fs_files fs)) (fs_refuses fs).

(** A call on a path, which the system may refuse. *)
Definition fs_call {A} (op : FsOp) (path : bytes) (m : IO Fs A) : IO Fs A := λ fs,
  match fs_refuses fs op path with
  | Some k => (Err (EIo k), fs)
  | None => m fs
  end.

(** The content of a file; it must exist. *)
Definition fs_existing (path : bytes) : IO Fs bytes := λ fs,
  (match fs_files fs !! path with Some c => Ok c | None => Err (EIo EkNotFound) end, fs).

(** [std::fs::metadata(path)]: its length. *)
Definition fs_metadata (path : bytes) : IO Fs N :=
  fs_call FsMetadata path (c ← fs_existing path; mret (lenN c)).

(** [File::options().write(true).open(path)]: an open file is its path. *)
Definition fs_open_write (path : bytes) : IO Fs bytes :=
  fs_call FsOpenWrite path (_ ← fs_existing path; mret path).

(** [File::open(path)] *)
Definition fs_open_read (path : bytes) : IO Fs bytes :=
  fs_call FsOpenRead path (_ ← fs_existing path; mret path).

(** [File::create(path)] *)
Definition fs_create (path : bytes) : IO Fs bytes :=
  fs_call FsCreate path (λ fs, (Ok path, fs_put path [] fs)).

(** [file.set_len(n)]: cut, or filled with zeroes; std refuses a length beyond
    [i64::MAX]. *)
Definition fs_set_len (path : bytes) (n : N) : IO Fs () :=
  if n <? 2 ^ 63 then
    fs_call FsSetLen path
      (c ← fs_existing path;
       (λ fs, (Ok (), fs_put path (resize (N.to_nat n) Byte.x00 c) fs)) : IO Fs ())
  else io_fail (EIo (EkOther 22)).

(** [file.seek(SeekFrom::End(0))]: the position is the length. *)
Definition fs_seek_end (path : bytes) : IO Fs N := c ← fs_existing path; mret (lenN c).

(** What a client or a server observes of another file: nothing changes it. *)
Definition same_elsewhere (path : bytes) (fs fs' : Fs) : Prop :=
  ∀ p, p ≠ path → fs_files fs' !! p = fs_files fs !! p.

Lemma fs_put_elsewhere path c fs : same_elsewhere path fs (fs_put path c fs).
Proof. intros p Hp. cbn. by apply lookup_insert_ne. Qed.
