(* ===== verification/OrderedChannel.v ===== *)
(** The ordered channel of src/src/sync.rs (lines 59-216).

    The mutex-protected state, the bodies of the methods between two
    synchronisation points, and the interleavings of any number of sender
    threads with one receiver task.  The inner tokio mpsc channel is reached
    through the interface [Mpsc]; the mutex and the condition variable are the
    standard library's: a critical section is one step, and waiting threads run
    again when notified or spuriously. *)

From stdpp Require Import base option list numbers gmap.
From Stdlib Require Import NArith Lia.
From S2P Require Import Prelude AsyncIO.
#[local] Open Scope N_scope.

(** ** The bounded channel of tokio *)

Inductive MpscSend (Q : Type) :=
  | MpSent (q : Q)
  | MpFull
  | MpClosed.
Arguments MpSent {Q} q.
Arguments MpFull {Q}.
Arguments MpClosed {Q}.

Inductive MpscRecv (T Q : Type) :=
  | MpItem (v : T) (q : Q)
  | MpEmpty
  | MpNone.
Arguments MpItem {T Q} v q.
Arguments MpEmpty {T Q}.
Arguments MpNone {T Q}.

(** [mp_items] are the buffered values, [mp_closed] whether the receiver was
    closed and [mp_senders] the number of live senders.  [mp_send] is one
    attempt of [blocking_send] (which blocks on [MpFull]), [mp_recv] one poll of
    [recv] ([MpEmpty] is pending, [MpNone] the end). *)
Class Mpsc (T Q : Type) := {
  mp_channel : nat → Q;
  mp_items : Q → list T;
  mp_capacity : Q → nat;
  mp_closed : Q → bool;
  mp_senders : Q → nat;
  mp_send : T → Q → MpscSend Q;
  mp_recv : Q → MpscRecv T Q;
  mp_close : Q → Q;
  mp_clone : Q → Q;
  mp_drop : Q → Q;
}.

(** Everything but the buffered values is unchanged. *)
Definition mp_same {T Q} `{!Mpsc T Q} (q q' : Q) : Prop :=
  mp_capacity q' = mp_capacity q ∧ mp_closed q' = mp_closed q ∧ mp_senders q' = mp_senders q.

(** The documentation of [tokio::sync::mpsc], in particular of [close]: "this
    prevents any further messages from being sent on the channel while still
    enabling the receiver to drain messages that are buffered". *)
Class MpscLaws (T Q : Type) `{!Mpsc T Q} : Prop := {
  mp_channel_new n : mp_items (mp_channel n) = [] ∧ mp_capacity (mp_channel n) = n
    ∧ mp_closed (mp_channel n) = false ∧ mp_senders (mp_channel n) = 1%nat;
  mp_send_closed v q : mp_closed q = true → mp_send v q = MpClosed;
  mp_send_full v q : mp_closed q = false → (mp_capacity q ≤ length (mp_items q))%nat →
    mp_send v q = MpFull;
  mp_send_room v q : mp_closed q = false → (length (mp_items q) < mp_capacity q)%nat →
    ∃ q', mp_send v q = MpSent q' ∧ mp_items q' = mp_items q ++ [v] ∧ mp_same q q';
  mp_recv_item v l q : mp_items q = v :: l →
    ∃ q', mp_recv q = MpItem v q' ∧ mp_items q' = l ∧ mp_same q q';
  mp_recv_none q : mp_items q = [] → mp_closed q = true ∨ mp_senders q = 0%nat →
    mp_recv q = MpNone;
  mp_recv_empty q : mp_items q = [] → mp_closed q = false → mp_senders q ≠ 0%nat →
    mp_recv q = MpEmpty;
  mp_close_spec q : mp_items (mp_close q) = mp_items q ∧ mp_closed (mp_close q) = true
    ∧ mp_capacity (mp_close q) = mp_capacity q ∧ mp_senders (mp_close q) = mp_senders q;
  mp_clone_spec q : mp_items (mp_clone q) = mp_items q ∧ mp_closed (mp_clone q) = mp_closed q
    ∧ mp_capacity (mp_clone q) = mp_capacity q ∧ mp_senders (mp_clone q) = S (mp_senders q);
  mp_drop_spec q : mp_items (mp_drop q) = mp_items q ∧ mp_closed (mp_drop q) = mp_closed q
    ∧ mp_capacity (mp_drop q) = mp_capacity q ∧ mp_senders (mp_drop q) = pred (mp_senders q);
}.

(** ** State and operations *)

(** [struct SharedState<I>], with [I = usize] *)
Record SharedState := MkShared {
  wanted_idx : option N;
  recv_closed : bool;
  receiving : bool;
}.

(** What [OrderedSender] and [OrderedReceiver] share. *)
Record Chan (Q : Type) := MkChan { state : SharedState; inner : Q }.
Arguments MkChan {Q} state inner.
Arguments state {Q} c.
Arguments inner {Q} c.

(** What one pass of the loop of [send] under the lock leads to. *)
Inductive SendOutcome (Q : Type) :=
  | SendOk (c : Chan Q)
  | SendErr
  | SendBlock
  | SendWait.
Arguments SendOk {Q} c.
Arguments SendErr {Q}.
Arguments SendBlock {Q}.
Arguments SendWait {Q}.

Section ops.
Context {T Q : Type} `{!Mpsc T Q}.

(** [ordered_channel()] *)
Definition ordered_channel : Chan Q :=
  MkChan (MkShared None false false) (mp_channel 1).

(** [OrderedSender::send], the body of the loop. *)
Definition send_attempt (idx : N) (value : T) (c : Chan Q) : SendOutcome Q :=
  if recv_closed (state c) then SendErr
  else
    let can_send := bool_decide (wanted_idx (state c) = Some idx) in
    if can_send then
      match mp_send value (inner c) with
      | MpSent q => SendOk (MkChan (state c) q)
      | MpClosed => SendErr
      | MpFull => SendBlock
      end
    else SendWait.

(** [OrderedSender::close]; all waiting senders are notified. *)
Definition sender_close (c : Chan Q) : Chan Q :=
  MkChan (MkShared (wanted_idx (state c)) true (receiving (state c))) (inner c).

(** [OrderedSender::clone] and the drop of a sender. *)
Definition sender_clone (c : Chan Q) : Chan Q := MkChan (state c) (mp_clone (inner c)).
Definition sender_drop (c : Chan Q) : Chan Q := MkChan (state c) (mp_drop (inner c)).

(** [OrderedReceiver::recv], the block before the await; the flag tells whether
    the senders are notified. *)
Definition recv_enter (c : Chan Q) : Chan Q * bool :=
  let s := state c in
  if negb (receiving s) then
    let wanted := match wanted_idx s with
                  | None => Some 0
                  | Some i => Some (wadd i 1)
                  end in
    (MkChan (MkShared wanted (recv_closed s) true) (inner c), true)
  else (c, false).

(** [OrderedReceiver::recv], after the await. *)
Definition recv_exit (c : Chan Q) : Chan Q :=
  MkChan (MkShared (wanted_idx (state c)) (recv_closed (state c)) false) (inner c).

(** [OrderedReceiver::close], also the drop of the receiver. *)
Definition recv_close (c : Chan Q) : Chan Q * bool :=
  if recv_closed (state c) then (c, false)
  else (MkChan (MkShared (wanted_idx (state c)) true (receiving (state c)))
               (mp_close (inner c)), true).
End ops.

(** ** Threads *)

(** Where a sender thread is inside [send(idx, v)]: about to take the lock (at
    the call, or woken up), waiting on the condition variable, or blocked in
    [blocking_send] with the lock held. *)
Inductive TState (T : Type) :=
  | TLocking (idx : N) (v : T)
  | TWaiting (idx : N) (v : T)
  | TBlocked (idx : N) (v : T).
Arguments TLocking {T} idx v.
Arguments TWaiting {T} idx v.
Arguments TBlocked {T} idx v.

(** Where the receiver is: not in [recv], awaiting the inner channel, or with a
    value and about to take the lock again. *)
Inductive RPhase (T : Type) :=
  | RIdle
  | RAwait
  | RGot (v : T).
Arguments RIdle {T}.
Arguments RAwait {T}.
Arguments RGot {T} v.

(** The channel with the threads inside its methods, and its history: the calls
    of [send], the values it accepted and those the receiver took. *)
Record Sys (T Q : Type) := MkSys {
  chan : Chan Q;
  threads : gmap N (TState T);
  rphase : RPhase T;
  called : list (N * T);
  sent : list (N * T);
  taken : list T;
}.
Arguments MkSys {T Q} chan threads rphase called sent taken.
Arguments chan {T Q} s.
Arguments threads {T Q} s.
Arguments rphase {T Q} s.
Arguments called {T Q} s.
Arguments sent {T Q} s.
Arguments taken {T Q} s.

(** [cond_var.notify_all()] *)
Definition notified {T} (s : TState T) : TState T :=
  match s with
  | TWaiting idx v => TLocking idx v
  | s => s
  end.
Definition notify_all {T} (b : bool) (ts : gmap N (TState T)) : gmap N (TState T) :=
  if b then notified <$> ts else ts.

(** The index of the call a thread is in. *)
Definition t_idx {T} (s : TState T) : N :=
  match s with TLocking idx _ | TWaiting idx _ | TBlocked idx _ => idx end.
Definition t_val {T} (s : TState T) : T :=
  match s with TLocking _ v | TWaiting _ v | TBlocked _ v => v end.

Inductive Ev (T : Type) :=
  | EvCall (t idx : N) (v : T)
  | EvSent (t idx : N) (v : T)
  | EvSendErr (t : N)
  | EvWait (t : N)
  | EvBlock (t : N)
  | EvWake (t : N)
  | EvSenderClose
  | EvSenderDrop
  | EvEnter
  | EvPop (v : T)
  | EvExit (v : T)
  | EvNone
  | EvCancel
  | EvRecvClose.
Arguments EvCall {T} t idx v.
Arguments EvSent {T} t idx v.
Arguments EvSendErr {T} t.
Arguments EvWait {T} t.
Arguments EvBlock {T} t.
Arguments EvWake {T} t.
Arguments EvSenderClose {T}.
Arguments EvSenderDrop {T}.
Arguments EvEnter {T}.
Arguments EvPop {T} v.
Arguments EvExit {T} v.
Arguments EvNone {T}.
Arguments EvCancel {T}.
Arguments EvRecvClose {T}.

Section steps.
Context {T Q : Type} `{!Mpsc T Q}.

Definition with_chan (s : Sys T Q) (c : Chan Q) (ts : gmap N (TState T)) (p : RPhase T) : Sys T Q :=
  MkSys c ts p (called s) (sent s) (taken s).

(** No thread sleeps with the mutex held. *)
Definition lock_free (s : Sys T Q) : Prop :=
  ∀ t idx v, threads s !! t ≠ Some (TBlocked idx v).

Inductive step (s : Sys T Q) : Ev T → Sys T Q → Prop :=
  (* a thread calls [send] *)
  | step_call t idx v :
      threads s !! t = None →
      step s (EvCall t idx v)
        (MkSys (chan s) (<[t := TLocking idx v]> (threads s)) (rphase s)
               ((idx, v) :: called s) (sent s) (taken s))
  (* one pass of its loop, or the end of a [blocking_send] *)
  | step_sent t idx v c' :
      threads s !! t = Some (TLocking idx v) → lock_free s →
      send_attempt idx v (chan s) = SendOk c' →
      step s (EvSent t idx v)
        (MkSys c' (delete t (threads s)) (rphase s)
               (called s) (sent s ++ [(idx, v)]) (taken s))
  | step_send_err t idx v :
      threads s !! t = Some (TLocking idx v) → lock_free s →
      send_attempt idx v (chan s) = SendErr →
      step s (EvSendErr t) (with_chan s (chan s) (delete t (threads s)) (rphase s))
  | step_wait t idx v :
      threads s !! t = Some (TLocking idx v) → lock_free s →
      send_attempt idx v (chan s) = SendWait →
      step s (EvWait t) (with_chan s (chan s) (<[t := TWaiting idx v]> (threads s)) (rphase s))
  | step_block t idx v :
      threads s !! t = Some (TLocking idx v) → lock_free s →
      send_attempt idx v (chan s) = SendBlock →
      step s (EvBlock t) (with_chan s (chan s) (<[t := TBlocked idx v]> (threads s)) (rphase s))
  | step_unblock t idx v q' :
      threads s !! t = Some (TBlocked idx v) → mp_send v (inner (chan s)) = MpSent q' →
      step s (EvSent t idx v)
        (MkSys (MkChan (state (chan s)) q') (delete t (threads s)) (rphase s)
               (called s) (sent s ++ [(idx, v)]) (taken s))
  (* a spurious wakeup *)
  | step_wake t idx v :
      threads s !! t = Some (TWaiting idx v) →
      step s (EvWake t) (with_chan s (chan s) (<[t := TLocking idx v]> (threads s)) (rphase s))
  (* [OrderedSender::close] and drop, by a thread that is not in [send] *)
  | step_sender_close :
      lock_free s →
      step s EvSenderClose
        (with_chan s (sender_close (chan s)) (notify_all true (threads s)) (rphase s))
  | step_sender_drop :
      step s EvSenderDrop (with_chan s (sender_drop (chan s)) (threads s) (rphase s))
  (* [OrderedReceiver::recv]: entered, resumed with a value, left *)
  | step_enter c' b :
      rphase s = RIdle → lock_free s → recv_enter (chan s) = (c', b) →
      step s EvEnter (with_chan s c' (notify_all b (threads s)) RAwait)
  | step_pop v q' :
      rphase s = RAwait → mp_recv (inner (chan s)) = MpItem v q' →
      step s (EvPop v)
        (MkSys (MkChan (state (chan s)) q') (threads s) (RGot v)
               (called s) (sent s) (taken s ++ [v]))
  | step_exit v :
      rphase s = RGot v → lock_free s →
      step s (EvExit v) (with_chan s (recv_exit (chan s)) (threads s) RIdle)
  | step_none :
      rphase s = RAwait → mp_recv (inner (chan s)) = MpNone →
      step s EvNone (with_chan s (chan s) (threads s) RIdle)
  (* the future of [recv] is dropped at its await point *)
  | step_cancel :
      rphase s = RAwait → step s EvCancel (with_chan s (chan s) (threads s) RIdle)
  | step_recv_close c' b :
      rphase s = RIdle → lock_free s → recv_close (chan s) = (c', b) →
      step s EvRecvClose (with_chan s c' (notify_all b (threads s)) RIdle).

(** A fresh channel; the senders are cloned before the threads start. *)
Definition initial (s : Sys T Q) : Prop :=
  ∃ n, s = MkSys (Nat.iter n sender_clone ordered_channel) ∅ RIdle [] [] [].

Inductive reachable : Sys T Q → Prop :=
  | reach_init s : initial s → reachable s
  | reach_step s e s' : reachable s → step s e s' → reachable s'.
End steps.

(** The discipline of the clients: no index is sent twice, and indices are not
    the largest usize. *)
Definition disciplined {T} (calls : list (N * T)) : Prop :=
  NoDup calls.*1 ∧ Forall (λ c, c.1 + 1 < W64) calls.

(** ** The invariant of the reachable states *)

(** [0, 1, ..., n-1] *)
Definition seqN (n : nat) : list N := N.of_nat <$> seq 0 n.

Lemma seqN_S n : seqN (S n) = seqN n ++ [N.of_nat n].
Proof. unfold seqN. by rewrite seq_S, fmap_app. Qed.

Lemma elem_of_seqN n i : i ∈ seqN n ↔ i < N.of_nat n.
Proof.
  unfold seqN. rewrite list_elem_of_fmap. split.
  - intros (j & -> & Hj%elem_of_seq). lia.
  - intros H. exists (N.to_nat i). split; [lia|]. apply elem_of_seq. lia.
Qed.

Lemma length_seqN n : length (seqN n) = n.
Proof. unfold seqN. by rewrite length_fmap, length_seq. Qed.

Section invariant.
Context {T Q : Type} `{!Mpsc T Q, !MpscLaws T Q}.

(** The threads: each is in a call that was not yet accepted, no two with the
    same index; none is blocked with the lock held; and none waits for what has
    already happened (no lost wakeup). *)
Record threads_inv (s : Sys T Q) : Prop := {
  ti_called t st : threads s !! t = Some st →
    (t_idx st, t_val st) ∈ called s ∧ t_idx st ∉ (sent s).*1;
  ti_inj t1 t2 st1 st2 : threads s !! t1 = Some st1 → threads s !! t2 = Some st2 →
    t_idx st1 = t_idx st2 → t1 = t2;
  ti_lock : lock_free s;
  ti_wait t idx v : threads s !! t = Some (TWaiting idx v) →
    recv_closed (state (chan s)) = false ∧ wanted_idx (state (chan s)) ≠ Some idx;
}.

(** How far the receiver and the senders are, for each phase of [recv]. *)
Definition phase_inv (s : Sys T Q) : Prop :=
  let nt := N.of_nat (length (taken s)) in
  let ns := N.of_nat (length (sent s)) in
  match wanted_idx (state (chan s)) with
  | None => receiving (state (chan s)) = false ∧ rphase s = RIdle ∧ ns = 0
  | Some w =>
      if receiving (state (chan s)) then
        match rphase s with
        | RGot _ => nt = w + 1 ∧ ns = w + 1
        | _ => nt = w ∧ (ns = w ∨ ns = w + 1)
        end
      else rphase s = RIdle ∧ nt = w + 1 ∧ ns = w + 1
  end.

(** The data: the accepted indices are 0, 1, 2, ...; what was taken and what is
    buffered are the accepted values in order. *)
Record data_inv (s : Sys T Q) : Prop := {
  di_sent : (sent s).*1 = seqN (length (sent s));
  di_fifo : taken s ++ mp_items (inner (chan s)) = (sent s).*2;
  di_sub x : x ∈ sent s → x ∈ called s;
  di_cap : mp_capacity (inner (chan s)) = 1%nat;
  di_closed : mp_closed (inner (chan s)) = true → recv_closed (state (chan s)) = true;
  di_phase : phase_inv s;
}.

Definition inv (s : Sys T Q) : Prop := threads_inv s ∧ data_inv s.

Lemma notify_all_lookup b (ts : gmap N (TState T)) t st :
  notify_all b ts !! t = Some st →
  ∃ st0, ts !! t = Some st0 ∧ t_idx st = t_idx st0 ∧ t_val st = t_val st0
    ∧ (b = false → st = st0) ∧ (b = true → ∀ idx v, st ≠ TWaiting idx v)
    ∧ ∀ idx v, st = TBlocked idx v → st0 = st.
Proof.
  destruct b; simpl.
  - rewrite lookup_fmap, fmap_Some. intros (st0 & H & ->). exists st0.
    destruct st0; simpl; split_and!; try done; by intros.
  - intros H. exists st. split_and!; by intros.
Qed.

Lemma sent_length_items s : data_inv s →
  length (sent s) = (length (taken s) + length (mp_items (inner (chan s))))%nat.
Proof.
  intros H. pose proof (di_fifo _ H) as E. apply (f_equal length) in E.
  rewrite length_app, length_fmap in E. lia.
Qed.

Lemma sent_idx_lt s idx : data_inv s → idx ∈ (sent s).*1 ↔ idx < N.of_nat (length (sent s)).
Proof. intros H. rewrite (di_sent _ H). apply elem_of_seqN. Qed.

Lemma sent_idx_called s idx : data_inv s → idx ∈ (sent s).*1 → idx ∈ (called s).*1.
Proof.
  intros H. rewrite !list_elem_of_fmap. intros (x & -> & Hx). exists x. split; [done|].
  by apply (di_sub _ H).
Qed.

(** A pass of [send] that may go on finds the buffer empty. *)
Lemma send_attempt_inv s t st :
  inv s → threads s !! t = Some st →
  let idx := t_idx st in let v := t_val st in
  match send_attempt idx v (chan s) with
  | SendOk c' =>
      recv_closed (state (chan s)) = false ∧ wanted_idx (state (chan s)) = Some idx
      ∧ receiving (state (chan s)) = true ∧ (∀ v', rphase s ≠ RGot v')
      ∧ idx = N.of_nat (length (sent s)) ∧ idx = N.of_nat (length (taken s))
      ∧ mp_items (inner (chan s)) = []
      ∧ state c' = state (chan s) ∧ mp_items (inner c') = [v]
      ∧ mp_same (inner (chan s)) (inner c')
  | SendErr => recv_closed (state (chan s)) = true
  | SendBlock => False
  | SendWait => recv_closed (state (chan s)) = false ∧ wanted_idx (state (chan s)) ≠ Some idx
  end.
Proof.
  intros [Ht Hd] Hst. destruct (ti_called _ Ht _ _ Hst) as [_ Hns].
  rewrite (sent_idx_lt _ _ Hd) in Hns. cbv zeta. unfold send_attempt.
  destruct (recv_closed (state (chan s))) eqn:Hc; [done|].
  case_bool_decide as Hw; [|by split].
  pose proof (di_phase _ Hd) as Hp. unfold phase_inv in Hp. rewrite Hw in Hp.
  pose proof (sent_length_items _ Hd) as Hlen.
  destruct (receiving (state (chan s))) eqn:Hr; [|lia].
  assert ((∀ v', rphase s ≠ RGot v') ∧ N.of_nat (length (sent s)) = t_idx st
    ∧ N.of_nat (length (taken s)) = t_idx st) as (Hph & Hs & Htk).
  { destruct (rphase s); [split_and!; [done|lia..]..|lia]. }
  assert (mp_items (inner (chan s)) = []) as Hnil by (apply nil_length_inv; lia).
  assert (mp_closed (inner (chan s)) = false) as Hcl.
  { destruct (mp_closed (inner (chan s))) eqn:E; [|done]. apply (di_closed _ Hd) in E. congruence. }
  destruct (mp_send_room (t_val st) (inner (chan s))) as (q' & -> & Hi & Hsame);
    [done|rewrite Hnil, (di_cap _ Hd); simpl; lia|].
  rewrite Hnil in Hi. split_and!; try done; by symmetry.
Qed.

(** The phase invariant is about these components only. *)
Lemma phase_inv_eq s s' :
  wanted_idx (state (chan s')) = wanted_idx (state (chan s)) →
  receiving (state (chan s')) = receiving (state (chan s)) →
  rphase s' = rphase s → sent s' = sent s → taken s' = taken s →
  phase_inv s → phase_inv s'.
Proof. unfold phase_inv. by intros -> -> -> -> ->. Qed.

Lemma initial_inv (s : Sys T Q) : initial s → inv s.
Proof.
  intros [n ->]. assert (mp_items (inner (Nat.iter n sender_clone ordered_channel)) = []
    ∧ mp_capacity (inner (Nat.iter n sender_clone ordered_channel)) = 1%nat
    ∧ mp_closed (inner (Nat.iter n sender_clone ordered_channel)) = false
    ∧ state (Nat.iter n sender_clone ordered_channel) = MkShared None false false)
    as (H1 & H2 & H3 & H4).
  { induction n as [|n (H1 & H2 & H3 & H4)]; [|rewrite Nat.iter_succ].
    - destruct (mp_channel_new 1) as (? & ? & ? & ?). by split_and!.
    - set (c := Nat.iter n sender_clone ordered_channel) in *. clearbody c.
      unfold sender_clone; cbn [inner state].
      destruct (mp_clone_spec (inner c)) as (-> & -> & -> & _). done. }
  split; split; simpl; try done.
  - by rewrite H3.
  - unfold phase_inv; simpl. by rewrite H4.
Qed.

(** Steps that neither start nor complete a call. *)
Lemma threads_inv_keep s s' :
  threads_inv s → called s' = called s → sent s' = sent s →
  (∀ t st', threads s' !! t = Some st' →
     ∃ st, threads s !! t = Some st ∧ t_idx st' = t_idx st ∧ t_val st' = t_val st
       ∧ ∀ idx v, st' = TBlocked idx v → st = st') →
  (∀ t idx v, threads s' !! t = Some (TWaiting idx v) →
     recv_closed (state (chan s')) = false ∧ wanted_idx (state (chan s')) ≠ Some idx) →
  threads_inv s'.
Proof.
  intros Ht Hc Hs Hsub Hw. split.
  - intros t st' H. rewrite Hc, Hs. destruct (Hsub _ _ H) as (st & H1 & -> & -> & _).
    by apply (ti_called _ Ht t).
  - intros t1 t2 st1 st2 H1 H2 E. destruct (Hsub _ _ H1) as (st1' & H1' & E1 & _).
    destruct (Hsub _ _ H2) as (st2' & H2' & E2 & _).
    apply (ti_inj _ Ht t1 t2 st1' st2'); congruence.
  - intros t idx v H. destruct (Hsub _ _ H) as (st & H1 & _ & _ & Hb).
    rewrite (Hb _ _ eq_refl) in H1. by apply (ti_lock _ Ht t idx v).
  - exact Hw.
Qed.

(** Threads change, the condition they wait for does not. *)
Lemma threads_inv_same s c p :
  threads_inv s → recv_closed (state c) = recv_closed (state (chan s)) →
  wanted_idx (state c) = wanted_idx (state (chan s)) →
  threads_inv (with_chan s c (threads s) p).
Proof.
  intros Ht E1 E2. apply threads_inv_keep with s; simpl; try done.
  - intros t st' H. exists st'. by split_and!.
  - intros t idx v H. rewrite E1, E2. by apply (ti_wait _ Ht t idx v).
Qed.

(** All waiting threads are notified. *)
Lemma threads_inv_notify s c b p :
  threads_inv s → (b = false → c = chan s) →
  threads_inv (with_chan s c (notify_all b (threads s)) p).
Proof.
  intros Ht Hb. apply threads_inv_keep with s; simpl; try done.
  - intros t st' H. apply notify_all_lookup in H as (st & H & E1 & E2 & _ & _ & E3).
    exists st. by split_and!.
  - intros t idx v H. apply notify_all_lookup in H as (st & H & _ & _ & E1 & E2 & _).
    destruct b; [by destruct (E2 eq_refl idx v)|].
    rewrite Hb by done. rewrite <-E1 in H by done.
    by apply (ti_wait _ Ht t idx v).
Qed.

(** One thread changes its place in [send]. *)
Lemma threads_inv_move s t st st' :
  threads_inv s → threads s !! t = Some st →
  t_idx st' = t_idx st → t_val st' = t_val st → (∀ idx v, st' ≠ TBlocked idx v) →
  (∀ idx v, st' = TWaiting idx v →
     recv_closed (state (chan s)) = false ∧ wanted_idx (state (chan s)) ≠ Some idx) →
  threads_inv (with_chan s (chan s) (<[t := st']> (threads s)) (rphase s)).
Proof.
  intros Ht Hst E1 E2 Hb Hw. apply threads_inv_keep with s; simpl; try done.
  - intros t' st1. rewrite lookup_insert. case_decide; intros; simplify_eq.
    + exists st. split_and!; [done..|]. intros idx v H. by destruct (Hb idx v).
    + exists st1. by split_and!.
  - intros t' idx v. rewrite lookup_insert. case_decide; intros; simplify_eq; [by apply (Hw idx v)|].
    by apply (ti_wait _ Ht t' idx v).
Qed.

(** One thread leaves [send] with an error. *)
Lemma threads_inv_leave s t :
  threads_inv s → threads_inv (with_chan s (chan s) (delete t (threads s)) (rphase s)).
Proof.
  intros Ht. apply threads_inv_keep with s; simpl; try done.
  - intros t' st' H. exists st'. apply lookup_delete_Some in H as [_ H]. by split_and!.
  - intros t' idx v H. apply lookup_delete_Some in H as [_ H]. by apply (ti_wait _ Ht t' idx v).
Qed.

(** A thread leaves [send] with its value accepted. *)
Lemma threads_inv_sent s t idx v c :
  threads_inv s → threads s !! t = Some (TLocking idx v) → state c = state (chan s) →
  threads_inv (MkSys c (delete t (threads s)) (rphase s) (called s) (sent s ++ [(idx, v)])
                     (taken s)).
Proof.
  intros Ht Hst Hc. split; cbn [threads chan called sent].
  - intros t' st' [Hne H]%lookup_delete_Some. destruct (ti_called _ Ht _ _ H) as [H1 H2].
    split; [done|]. rewrite fmap_app. cbn. rewrite not_elem_of_app. split; [done|].
    rewrite list_elem_of_singleton. intros E. apply Hne. symmetry.
    by apply (ti_inj _ Ht t' t st' (TLocking idx v)).
  - intros t1 t2 st1 st2 [_ H1]%lookup_delete_Some [_ H2]%lookup_delete_Some.
    by apply (ti_inj _ Ht).
  - intros t' i w H; cbn [threads] in H; apply lookup_delete_Some in H as [_ H]. by apply (ti_lock _ Ht t' i w).
  - intros t' i w [_ H]%lookup_delete_Some. rewrite Hc. by apply (ti_wait _ Ht t' i w).
Qed.

(** A new call, with an index that was not used. *)
Lemma threads_inv_call s t idx v :
  inv s → threads s !! t = None → idx ∉ (called s).*1 →
  threads_inv (MkSys (chan s) (<[t := TLocking idx v]> (threads s)) (rphase s)
                     ((idx, v) :: called s) (sent s) (taken s)).
Proof.
  intros [Ht Hd] Hst Hidx.
  assert (∀ t' st', threads s !! t' = Some st' → t_idx st' ≠ idx) as Hother.
  { intros t' st' H <-. apply Hidx. destruct (ti_called _ Ht _ _ H) as [H1 _].
    apply list_elem_of_fmap. by exists (t_idx st', t_val st'). }
  split; cbn [threads chan called sent].
  - intros t' st'. rewrite lookup_insert. case_decide; intros; simplify_eq; simpl.
    + split; [by left|]. intros H. by apply (sent_idx_called _ _ Hd) in H.
    + destruct (ti_called _ Ht _ _ H0). split; [by right|done].
  - intros t1 t2 st1 st2. rewrite !lookup_insert.
    repeat case_decide; intros; simplify_eq; simpl in *; try done.
    + by edestruct Hother.
    + by edestruct Hother.
    + by apply (ti_inj _ Ht t1 t2 st1 st2).
  - intros t' i w. cbn [threads]. rewrite lookup_insert. case_decide; [done|].
    by apply (ti_lock _ Ht t' i w).
  - intros t' i w. rewrite lookup_insert. case_decide; intros; simplify_eq.
    by apply (ti_wait _ Ht t' i w).
Qed.

(** The data part when only the threads, the notification flags or the phase
    change. *)
Lemma data_inv_keep s c ts p :
  data_inv s → mp_items (inner c) = mp_items (inner (chan s)) →
  mp_capacity (inner c) = mp_capacity (inner (chan s)) →
  (mp_closed (inner c) = true → recv_closed (state c) = true) →
  phase_inv (with_chan s c ts p) → data_inv (with_chan s c ts p).
Proof.
  intros [H1 H2 H3 H4 H5 H6] Hi Hc Hcl Hp. split; simpl; try done; congruence.
Qed.

Lemma data_inv_threads s ts : data_inv s → data_inv (with_chan s (chan s) ts (rphase s)).
Proof. intros Hd. apply data_inv_keep; try done; apply Hd. Qed.

(** The step of a call that is accepted. *)
Lemma sent_inv s t idx v c' :
  inv s → threads s !! t = Some (TLocking idx v) → send_attempt idx v (chan s) = SendOk c' →
  inv (MkSys c' (delete t (threads s)) (rphase s) (called s) (sent s ++ [(idx, v)]) (taken s)).
Proof.
  intros Hi Hst E. pose proof (send_attempt_inv s t _ Hi Hst) as Ha. cbn [t_idx t_val] in Ha.
  cbv zeta in Ha. rewrite E in Ha.
  destruct Ha as (A1 & A2 & A3 & A4 & A5 & A6 & A7 & A8 & A9 & A10 & A11 & A12).
  destruct Hi as [Ht Hd]. destruct (ti_called _ Ht _ _ Hst) as [Hc _].
  split; [by apply threads_inv_sent|].
  destruct Hd as [D1 D2 D3 D4 D5 D6]. split; cbn [sent called taken chan rphase].
  - rewrite length_app, Nat.add_1_r, seqN_S, fmap_app, D1. simpl. by rewrite <-A5.
  - rewrite A9, fmap_app, <-D2, A7, (right_id_L [] (++)). done.
  - intros x. rewrite elem_of_app, list_elem_of_singleton. intros [Hx| ->]; auto.
  - congruence.
  - rewrite A11, A8. exact D5.
  - unfold phase_inv. cbn [sent called taken chan rphase].
    rewrite A8, A2, A3, length_app. destruct (rphase s) eqn:Hp; [| |by destruct (A4 v0)];
      (split; [lia|right; simpl; lia]).
Qed.

Lemma call_inv s t idx v :
  inv s → threads s !! t = None → disciplined ((idx, v) :: called s) →
  inv (MkSys (chan s) (<[t := TLocking idx v]> (threads s)) (rphase s)
             ((idx, v) :: called s) (sent s) (taken s)).
Proof.
  intros Hi Hst [Hnd _]. rewrite fmap_cons, NoDup_cons in Hnd. destruct Hnd as [Hidx _].
  split; [by apply threads_inv_call|]. destruct Hi as [_ [D1 D2 D3 D4 D5 D6]].
  split; try done. intros x Hx. right. by apply D3.
Qed.

Lemma enter_inv s c' b :
  inv s → disciplined (called s) → rphase s = RIdle → recv_enter (chan s) = (c', b) →
  inv (with_chan s c' (notify_all b (threads s)) RAwait).
Proof.
  intros [Ht Hd] [_ Hf] Hr E. unfold recv_enter in E.
  pose proof (di_phase _ Hd) as Hp. unfold phase_inv in Hp. rewrite Hr in Hp.
  pose proof (sent_length_items _ Hd) as Hlen.
  destruct (receiving (state (chan s))) eqn:Hrec; simpl in E; simplify_eq.
  - split; [by apply threads_inv_notify|]. apply data_inv_keep; try done; [apply Hd|].
    unfold phase_inv; simpl. rewrite Hrec. case_match; [done|by destruct Hp].
  - split; [by apply threads_inv_notify|]. apply data_inv_keep; try done; [apply Hd|].
    unfold phase_inv; simpl. destruct (wanted_idx (state (chan s))) as [w|]; [|lia].
    destruct Hp as (_ & Hnt & Hns).
    assert (w ∈ (called s).*1) as Hw.
    { apply (sent_idx_called _ _ Hd), (sent_idx_lt _ _ Hd). lia. }
    apply list_elem_of_fmap in Hw as (x & -> & Hx).
    eapply Forall_forall in Hf; [|exact Hx]. rewrite wadd_small by done. lia.
Qed.

Lemma pop_inv s v q' :
  inv s → rphase s = RAwait → mp_recv (inner (chan s)) = MpItem v q' →
  inv (MkSys (MkChan (state (chan s)) q') (threads s) (RGot v) (called s) (sent s)
             (taken s ++ [v])).
Proof.
  intros [Ht Hd] Hr E. pose proof (sent_length_items _ Hd) as Hlen.
  assert (∃ l, mp_items (inner (chan s)) = v :: l ∧ mp_items q' = l
    ∧ mp_same (inner (chan s)) q') as (l & Hit & Hit' & H1 & H2 & H3).
  { destruct (mp_items (inner (chan s))) as [|x l] eqn:Hit.
    - destruct (mp_closed (inner (chan s))) eqn:Hc; [|destruct (decide (mp_senders (inner (chan s)) = 0%nat))].
      + rewrite mp_recv_none in E; auto; done.
      + rewrite mp_recv_none in E; auto; done.
      + rewrite mp_recv_empty in E; auto; done.
    - destruct (mp_recv_item _ _ _ Hit) as (q2 & E2 & H). rewrite E2 in E. simplify_eq.
      destruct H as [<- Hs]. by exists (mp_items q'). }
  split.
  - pose proof (threads_inv_same s (MkChan (state (chan s)) q') RIdle Ht eq_refl eq_refl) as H.
    destruct H as [P1 P2 P3 P4]. by split.
  - destruct Hd as [D1 D2 D3 D4 D5 D6]. split; simpl; try done.
    + rewrite <-(assoc_L (++)). simpl. by rewrite <-D2, Hit, Hit'.
    + congruence.
    + rewrite H2. exact D5.
    + unfold phase_inv in *; simpl. rewrite Hr in D6. rewrite Hit in Hlen. rewrite length_app.
      simpl in *. destruct (wanted_idx _); [|by destruct D6 as (_ & ? & _)].
      destruct (receiving _); [lia|by destruct D6].
Qed.

Lemma exit_inv s v : inv s → rphase s = RGot v →
  inv (with_chan s (recv_exit (chan s)) (threads s) RIdle).
Proof.
  intros [Ht Hd] Hr. split; [by apply threads_inv_same|].
  apply data_inv_keep; try done; [apply Hd|].
  pose proof (di_phase _ Hd) as Hp. unfold phase_inv in *; simpl. rewrite Hr in Hp.
  destruct (wanted_idx _); [|by destruct Hp as (_ & ? & _)].
  destruct (receiving _); [|by destruct Hp]. by destruct Hp.
Qed.

(** The future of [recv] ends without a value. *)
Lemma leave_inv s : inv s → rphase s = RAwait → inv (with_chan s (chan s) (threads s) RIdle).
Proof.
  intros [Ht Hd] Hr. split; [by apply threads_inv_same|].
  apply data_inv_keep; try done; [apply Hd|].
  pose proof (di_phase _ Hd) as Hp. unfold phase_inv in *; simpl. rewrite Hr in Hp.
  destruct (wanted_idx _); [|by destruct Hp as (_ & ? & _)].
  destruct (receiving _); [done|by destruct Hp].
Qed.

Lemma recv_close_inv s c' b :
  inv s → rphase s = RIdle → recv_close (chan s) = (c', b) →
  inv (with_chan s c' (notify_all b (threads s)) RIdle).
Proof.
  intros [Ht Hd] Hr E. unfold recv_close in E.
  destruct (recv_closed (state (chan s))) eqn:Hc; simplify_eq.
  - split; [by apply threads_inv_notify|]. rewrite <-Hr. by apply data_inv_threads.
  - split; [by apply threads_inv_notify|].
    destruct (mp_close_spec (inner (chan s))) as (H1 & H2 & H3 & H4).
    apply data_inv_keep; try done. apply (phase_inv_eq s); try done. apply Hd.
Qed.

Lemma step_inv s e s' : inv s → disciplined (called s') → step s e s' → inv s'.
Proof.
  intros Hi Hdis Hst. pose proof Hi as [Ht Hd].
  destruct Hst as [t idx v Hn|t idx v c' Hl _ E|t idx v Hl _ E|t idx v Hl _ E|t idx v Hl _ E
    |t idx v q' Hb _|t idx v Hw|_| |c' b Hr _ E|v q' Hr E|v Hr _|Hr _|Hr|c' b Hr _ E].
  - by apply call_inv.
  - by apply sent_inv.
  - split; [by apply threads_inv_leave|by apply data_inv_threads].
  - pose proof (send_attempt_inv s t _ Hi Hl) as Ha. cbn in Ha. rewrite E in Ha.
    split; [|by apply data_inv_threads].
    apply threads_inv_move with (TLocking idx v); try done. by intros ???; simplify_eq.
  - pose proof (send_attempt_inv s t _ Hi Hl) as Ha. cbn in Ha. by rewrite E in Ha.
  - by apply (ti_lock _ Ht) in Hb.
  - split; [|by apply data_inv_threads]. by apply threads_inv_move with (TWaiting idx v).
  - split; [by apply threads_inv_notify|]. apply data_inv_keep; try done.
    apply (phase_inv_eq s); try done. apply Hd.
  - split; [by apply threads_inv_same|].
    destruct (mp_drop_spec (inner (chan s))) as (H1 & H2 & H3 & H4).
    apply data_inv_keep; try done; simpl; [rewrite H2; apply Hd|].
    apply (phase_inv_eq s); try done. apply Hd.
  - by apply enter_inv.
  - by apply pop_inv.
  - by apply exit_inv with v.
  - by apply leave_inv.
  - by apply leave_inv.
  - by apply recv_close_inv.
Qed.

Lemma step_called s e s' : step s e s' →
  called s' = called s ∨ ∃ t idx v, e = EvCall t idx v ∧ called s' = (idx, v) :: called s.
Proof. destruct 1; eauto 6. Qed.

Lemma disciplined_tail (c : N * T) l : disciplined (c :: l) → disciplined l.
Proof.
  intros [H1 H2]. rewrite fmap_cons, NoDup_cons in H1. inversion H2; subst. by split; destruct H1.
Qed.

Lemma reachable_inv s : reachable s → disciplined (called s) → inv s.
Proof.
  induction 1 as [s Hi|s e s' Hr IH Hst]; intros Hd; [by apply initial_inv|].
  apply (step_inv s e s'); [|done|done]. apply IH.
  destruct (step_called _ _ _ Hst) as [<-|(t & idx & v & _ & E)]; [done|].
  rewrite E in Hd. by apply disciplined_tail in Hd.
Qed.
End invariant.

(** ** What each step changes, for the clients of the channel *)

Section effects.
Context {T Q : Type} `{!Mpsc T Q, !MpscLaws T Q}.
Implicit Types s : Sys T Q.

(** The calls in progress, the buffered values, the closed flag, the senders. *)
Definition calls s : gmap N (N * T) := (λ st, (t_idx st, t_val st)) <$> threads s.
Definition items s : list T := mp_items (inner (chan s)).
Definition closed s : bool := recv_closed (state (chan s)).
Definition senders s : nat := mp_senders (inner (chan s)).

(** Everything else a client can see. *)
Definition same_but_calls s s' : Prop :=
  items s' = items s ∧ closed s' = closed s ∧ senders s' = senders s
  ∧ rphase s' = rphase s ∧ sent s' = sent s ∧ taken s' = taken s.

Definition same_flow s s' : Prop :=
  calls s' = calls s ∧ called s' = called s ∧ sent s' = sent s.

Definition effect s (e : Ev T) s' : Prop :=
  match e with
  | EvCall t idx v => calls s !! t = None ∧ calls s' = <[t := (idx, v)]> (calls s)
      ∧ called s' = (idx, v) :: called s ∧ same_but_calls s s'
  | EvSent t idx v => calls s !! t = Some (idx, v) ∧ calls s' = delete t (calls s)
      ∧ called s' = called s ∧ sent s' = sent s ++ [(idx, v)]
      ∧ items s = [] ∧ items s' = [v] ∧ closed s' = closed s ∧ senders s' = senders s
      ∧ rphase s' = rphase s ∧ taken s' = taken s
  | EvSendErr t => is_Some (calls s !! t) ∧ calls s' = delete t (calls s)
      ∧ called s' = called s ∧ closed s = true ∧ same_but_calls s s'
  | EvWait _ | EvBlock _ | EvWake _ => same_flow s s' ∧ same_but_calls s s'
  | EvSenderClose => same_flow s s' ∧ closed s' = true ∧ items s' = items s
      ∧ senders s' = senders s ∧ rphase s' = rphase s ∧ taken s' = taken s
  | EvSenderDrop => same_flow s s' ∧ closed s' = closed s ∧ items s' = items s
      ∧ senders s' = pred (senders s) ∧ rphase s' = rphase s ∧ taken s' = taken s
  | EvEnter => same_flow s s' ∧ closed s' = closed s ∧ items s' = items s
      ∧ senders s' = senders s ∧ rphase s = RIdle ∧ rphase s' = RAwait ∧ taken s' = taken s
  | EvPop v => same_flow s s' ∧ closed s' = closed s ∧ items s = v :: items s'
      ∧ senders s' = senders s ∧ rphase s = RAwait ∧ rphase s' = RGot v
      ∧ taken s' = taken s ++ [v]
  | EvExit v => same_flow s s' ∧ closed s' = closed s ∧ items s' = items s
      ∧ senders s' = senders s ∧ rphase s = RGot v ∧ rphase s' = RIdle ∧ taken s' = taken s
  | EvNone => same_flow s s' ∧ closed s' = closed s ∧ items s = [] ∧ items s' = []
      ∧ senders s' = senders s ∧ rphase s = RAwait ∧ rphase s' = RIdle ∧ taken s' = taken s
      ∧ (closed s = true ∨ senders s = 0%nat)
  | EvCancel => same_flow s s' ∧ closed s' = closed s ∧ items s' = items s
      ∧ senders s' = senders s ∧ rphase s = RAwait ∧ rphase s' = RIdle ∧ taken s' = taken s
  | EvRecvClose => same_flow s s' ∧ closed s' = true ∧ items s' = items s
      ∧ senders s' = senders s ∧ rphase s = RIdle ∧ rphase s' = RIdle ∧ taken s' = taken s
  end.

Lemma calls_lookup s t st : threads s !! t = Some st → calls s !! t = Some (t_idx st, t_val st).
Proof. intros H. unfold calls. by rewrite lookup_fmap, H. Qed.

Lemma calls_lookup_None s t : threads s !! t = None ↔ calls s !! t = None.
Proof. unfold calls. by rewrite lookup_fmap, fmap_None. Qed.

Lemma calls_lookup_inv s t x : calls s !! t = Some x →
  ∃ st, threads s !! t = Some st ∧ x = (t_idx st, t_val st).
Proof. unfold calls. rewrite lookup_fmap, fmap_Some. intros (st & H & ->). by exists st. Qed.

Lemma calls_notify s b p c :
  calls (with_chan s c (notify_all b (threads s)) p) = calls s.
Proof.
  unfold calls; simpl. destruct b; [|done]. simpl. rewrite <-map_fmap_compose.
  apply map_fmap_ext. intros t st _. by destruct st.
Qed.

Lemma calls_same_insert s t st st' c p :
  threads s !! t = Some st → t_idx st' = t_idx st → t_val st' = t_val st →
  calls (with_chan s c (<[t := st']> (threads s)) p) = calls s.
Proof.
  intros H E1 E2. unfold calls; simpl. rewrite fmap_insert, E1, E2.
  apply insert_id. by apply calls_lookup.
Qed.

Lemma mp_recv_inv v q q' : mp_recv q = MpItem v q' →
  ∃ l : list T, mp_items q = v :: l ∧ mp_items q' = l ∧ mp_same q q'.
Proof.
  intros E. destruct (mp_items q) as [|x l] eqn:Hit.
  - exfalso. destruct (mp_closed q) eqn:Hc; [by rewrite mp_recv_none in E; auto|].
    destruct (decide (mp_senders q = 0%nat)); [by rewrite mp_recv_none in E; auto|].
    by rewrite mp_recv_empty in E.
  - destruct (mp_recv_item _ _ _ Hit) as (q2 & E2 & H). rewrite E2 in E. simplify_eq. eauto.
Qed.

Lemma mp_recv_none_inv (q : Q) : mp_recv q = MpNone →
  mp_items q = [] ∧ (mp_closed q = true ∨ mp_senders q = 0%nat).
Proof.
  intros E. destruct (mp_items q) as [|x l] eqn:Hit.
  - split; [done|]. destruct (mp_closed q) eqn:Hc; [by left|right].
    destruct (decide (mp_senders q = 0%nat)) as [|Hn]; [done|].
    by rewrite mp_recv_empty in E.
  - destruct (mp_recv_item _ _ _ Hit) as (q2 & E2 & H). congruence.
Qed.

Lemma step_effect s e s' : inv s → step s e s' → effect s e s'.
Proof.
  intros Hi Hst. pose proof Hi as [Ht Hd].
  destruct Hst as [t idx v Hn|t idx v c' Hl _ E|t idx v Hl _ E|t idx v Hl _ E|t idx v Hl _ E
    |t idx v q' Hb _|t idx v Hw|_| |c' b Hr _ E|v q' Hr E|v Hr _|Hr E|Hr|c' b Hr _ E];
    unfold effect, same_flow, same_but_calls.
  - split; [by apply calls_lookup_None|]. split; [|done].
    unfold calls; simpl. by rewrite fmap_insert.
  - pose proof (send_attempt_inv s t _ Hi Hl) as Ha. cbv zeta in Ha. cbn [t_idx t_val] in Ha.
    rewrite E in Ha. destruct Ha as (_&_&_&_&_&_&A7&A8&A9&_&_&A12).
    split; [by apply calls_lookup in Hl|].
    split; [unfold calls; simpl; by rewrite fmap_delete|].
    unfold items, closed, senders; simpl. by rewrite A8, A12.
  - pose proof (send_attempt_inv s t _ Hi Hl) as Ha. cbv zeta in Ha. cbn [t_idx t_val] in Ha.
    rewrite E in Ha. split; [apply calls_lookup in Hl; by rewrite Hl|].
    split; [unfold calls; simpl; by rewrite fmap_delete|]. done.
  - split; [|done]. split; [|done]. by apply calls_same_insert with (TLocking idx v).
  - split; [|done]. split; [|done]. by apply calls_same_insert with (TLocking idx v).
  - by destruct (ti_lock _ Ht t idx v).
  - split; [|done]. split; [|done]. by apply calls_same_insert with (TWaiting idx v).
  - split; [|done]. split; [|done]. apply calls_notify.
  - unfold items, closed, senders; simpl.
    destruct (mp_drop_spec (inner (chan s))) as (-> & _ & _ & ->). done.
  - split; [split; [apply calls_notify|done]|].
    unfold recv_enter in E. unfold closed, items, senders; simpl.
    destruct (negb _); by simplify_eq.
  - apply mp_recv_inv in E as (l & H1 & H2 & H3 & H4 & H5).
    unfold items, closed, senders; simpl. by rewrite H1, H2, H5.
  - done.
  - apply mp_recv_none_inv in E as [H1 H2]. unfold items, closed, senders; simpl.
    split_and!; try done. destruct H2 as [H2|H2]; [left; by apply (di_closed _ Hd)|by right].
  - done.
  - split; [split; [apply calls_notify|done]|].
    unfold recv_close in E. unfold closed, items, senders; simpl.
    destruct (recv_closed (state (chan s))) eqn:Hc; simplify_eq; simpl; [done|].
    by destruct (mp_close_spec (inner (chan s))) as (-> & _ & _ & ->).
Qed.

(** ** The threads that are not asleep *)

Definition is_locking (st : TState T) : bool :=
  match st with TLocking _ _ => true | _ => false end.
Definition locking (ts : gmap N (TState T)) : nat :=
  size (filter (λ x, is_locking x.2 = true) ts).

Lemma locking_le ts : (locking ts ≤ size ts)%nat.
Proof. apply map_subseteq_size, map_filter_subseteq. Qed.

Lemma locking_insert ts t st :
  (locking (<[t := st]> ts) ≤ S (locking ts))%nat.
Proof.
  unfold locking. rewrite map_filter_insert. case_decide.
  - rewrite map_size_insert. case_match; simpl; lia.
  - rewrite map_filter_delete, map_size_delete. case_match; simpl; lia.
Qed.

Lemma locking_delete ts t : (locking (delete t ts) ≤ locking ts)%nat.
Proof.
  unfold locking. rewrite map_filter_delete, map_size_delete. case_match; simpl; lia.
Qed.

Lemma locking_wait ts t idx v st :
  ts !! t = Some (TLocking idx v) → is_locking st = false →
  (locking (<[t := st]> ts) < locking ts)%nat.
Proof.
  intros Ht Hst. unfold locking. rewrite map_filter_insert_False by (simpl; congruence).
  rewrite map_filter_delete.
  assert (filter (λ x, is_locking x.2 = true) ts !! t = Some (TLocking idx v)) as Hl
    by (by apply map_lookup_filter_Some).
  rewrite map_size_delete, Hl.
  assert (size (filter (λ x : N * TState T, is_locking x.2 = true) ts) ≠ 0%nat); [|lia].
  rewrite map_size_ne_0_lookup. by exists t, (TLocking idx v).
Qed.

(** How the number of threads that are awake changes with a step of a sender. *)
Lemma step_locking s e s' : inv s → step s e s' →
  match e with
  | EvCall _ _ _ => (locking (threads s') ≤ S (locking (threads s)))%nat
  | EvSent _ _ _ | EvSendErr _ | EvSenderDrop => (locking (threads s') ≤ locking (threads s))%nat
  | EvWait _ | EvBlock _ => (locking (threads s') < locking (threads s))%nat
  | EvSenderClose => (locking (threads s') ≤ size (threads s))%nat
  | _ => True
  end.
Proof.
  intros [Ht _] Hst. destruct Hst; cbn [with_chan threads]; try done.
  - apply locking_insert.
  - apply locking_delete.
  - apply locking_delete.
  - by eapply locking_wait.
  - by eapply locking_wait.
  - by destruct (ti_lock _ Ht t idx v).
  - etransitivity; [apply locking_le|]. cbn [notify_all]. by rewrite map_size_fmap.
Qed.
End effects.

(** ** Executing schedules *)

(** A scheduler's choice; [DoSend t] is the next pass of thread [t] through the
    loop of [send], [DoPoll] a poll of the inner channel by the receiver. *)
Inductive Cmd (T : Type) :=
  | DoCall (t idx : N) (v : T)
  | DoSend (t : N)
  | DoWake (t : N)
  | DoSenderClose
  | DoSenderDrop
  | DoEnter
  | DoPoll
  | DoExit
  | DoCancel
  | DoRecvClose.
Arguments DoCall {T} t idx v.
Arguments DoSend {T} t.
Arguments DoWake {T} t.
Arguments DoSenderClose {T}.
Arguments DoSenderDrop {T}.
Arguments DoEnter {T}.
Arguments DoPoll {T}.
Arguments DoExit {T}.
Arguments DoCancel {T}.
Arguments DoRecvClose {T}.

Section exec.
Context {T Q : Type} `{!Mpsc T Q}.

Definition lock_freeb (s : Sys T Q) : bool :=
  forallb (λ x, match x.2 with TBlocked _ _ => false | _ => true end)
          (map_to_list (threads s)).

(** The step a choice leads to, if it is possible, with its event. *)
Definition exec (c : Cmd T) (s : Sys T Q) : option (Ev T * Sys T Q) :=
  let free := lock_freeb s in
  let ths := threads s in
  match c with
  | DoCall t idx v =>
      match ths !! t with
      | None => Some (EvCall t idx v,
                      MkSys (chan s) (<[t := TLocking idx v]> ths) (rphase s)
                            ((idx, v) :: called s) (sent s) (taken s))
      | Some _ => None
      end
  | DoSend t =>
      match ths !! t with
      | Some (TLocking idx v) =>
          if free then
            match send_attempt idx v (chan s) with
            | SendOk c' => Some (EvSent t idx v,
                                 MkSys c' (delete t ths) (rphase s)
                                       (called s) (sent s ++ [(idx, v)]) (taken s))
            | SendErr => Some (EvSendErr t, with_chan s (chan s) (delete t ths) (rphase s))
            | SendWait =>
                Some (EvWait t, with_chan s (chan s) (<[t := TWaiting idx v]> ths) (rphase s))
            | SendBlock =>
                Some (EvBlock t, with_chan s (chan s) (<[t := TBlocked idx v]> ths) (rphase s))
            end
          else None
      | _ => None
      end
  | DoWake t =>
      match ths !! t with
      | Some (TWaiting idx v) =>
          Some (EvWake t, with_chan s (chan s) (<[t := TLocking idx v]> ths) (rphase s))
      | _ => None
      end
  | DoSenderClose =>
      if free then
        Some (EvSenderClose, with_chan s (sender_close (chan s)) (notify_all true ths) (rphase s))
      else None
  | DoSenderDrop => Some (EvSenderDrop, with_chan s (sender_drop (chan s)) ths (rphase s))
  | DoEnter =>
      match rphase s with
      | RIdle => if free then
                   let '(c', b) := recv_enter (chan s) in
                   Some (EvEnter, with_chan s c' (notify_all b ths) RAwait)
                 else None
      | _ => None
      end
  | DoPoll =>
      match rphase s with
      | RAwait =>
          match mp_recv (inner (chan s)) with
          | MpItem v q' => Some (EvPop v,
                                 MkSys (MkChan (state (chan s)) q') ths (RGot v)
                                       (called s) (sent s) (taken s ++ [v]))
          | MpNone => Some (EvNone, with_chan s (chan s) ths RIdle)
          | MpEmpty => None
          end
      | _ => None
      end
  | DoExit =>
      match rphase s with
      | RGot v => if free then Some (EvExit v, with_chan s (recv_exit (chan s)) ths RIdle) else None
      | _ => None
      end
  | DoCancel =>
      match rphase s with
      | RAwait => Some (EvCancel, with_chan s (chan s) ths RIdle)
      | _ => None
      end
  | DoRecvClose =>
      match rphase s with
      | RIdle => if free then
                   let '(c', b) := recv_close (chan s) in
                   Some (EvRecvClose, with_chan s c' (notify_all b ths) RIdle)
                 else None
      | _ => None
      end
  end.

Fixpoint run (cs : list (Cmd T)) (s : Sys T Q) : option (Sys T Q) :=
  match cs with
  | [] => Some s
  | c :: cs => x ← exec c s; run cs x.2
  end.

Definition start (senders : nat) : Sys T Q :=
  MkSys (Nat.iter senders sender_clone ordered_channel) ∅ RIdle [] [] [].

Lemma lock_freeb_spec s : lock_freeb s = true → lock_free s.
Proof.
  unfold lock_freeb. rewrite forallb_forall. intros H t idx v Ht.
  specialize (H (t, TBlocked idx v)). simpl in H. discriminate H.
  by apply list_elem_of_In, elem_of_map_to_list.
Qed.

Lemma lock_free_true s : lock_free s → lock_freeb s = true.
Proof.
  intros Hf. unfold lock_freeb. apply forallb_forall.
  intros [t st] Hin%list_elem_of_In%elem_of_map_to_list. cbn. destruct st as [| |idx v]; try done.
  by destruct (Hf t idx v).
Qed.

Lemma exec_step c s e s' : exec c s = Some (e, s') → step s e s'.
Proof.
  unfold exec. destruct (lock_freeb s) eqn:Hf;
    [apply lock_freeb_spec in Hf|clear Hf];
    destruct c; intros E; repeat case_match; simplify_eq;
    eauto using step.
Qed.

Lemma run_reachable cs s s' : reachable s → run cs s = Some s' → reachable s'.
Proof.
  revert s. induction cs as [|c cs IH]; intros s Hs; cbn [run]; [by intros; simplify_eq|].
  destruct (exec c s) as [[e s1]|] eqn:E; [|done]. simpl. apply IH.
  apply (reach_step s e); [done|by apply (exec_step c)].
Qed.

Lemma start_reachable n : reachable (start n).
Proof. apply reach_init. by exists n. Qed.
End exec.

(** ** A concrete bounded channel *)

Record MpQueue (T : Type) := MkMpQueue {
  q_items : list T; q_cap : nat; q_closed : bool; q_senders : nat }.
Arguments MkMpQueue {T} q_items q_cap q_closed q_senders.
Arguments q_items {T} m.
Arguments q_cap {T} m.
Arguments q_closed {T} m.
Arguments q_senders {T} m.

#[global] Instance queue_mpsc {T} : Mpsc T (MpQueue T) := {
  mp_channel n := MkMpQueue [] n false 1;
  mp_items := q_items;
  mp_capacity := q_cap;
  mp_closed := q_closed;
  mp_senders := q_senders;
  mp_send v q :=
    if q_closed q then MpClosed
    else if decide (q_cap q ≤ length (q_items q))%nat then MpFull
    else MpSent (MkMpQueue (q_items q ++ [v]) (q_cap q) false (q_senders q));
  mp_recv q :=
    match q_items q with
    | v :: l => MpItem v (MkMpQueue l (q_cap q) (q_closed q) (q_senders q))
    | [] => if q_closed q || bool_decide (q_senders q = 0%nat) then MpNone else MpEmpty
    end;
  mp_close q := MkMpQueue (q_items q) (q_cap q) true (q_senders q);
  mp_clone q := MkMpQueue (q_items q) (q_cap q) (q_closed q) (S (q_senders q));
  mp_drop q := MkMpQueue (q_items q) (q_cap q) (q_closed q) (pred (q_senders q));
}.

#[global] Instance queue_mpsc_laws {T} : MpscLaws T (MpQueue T).
Proof.
  split; simpl; try done.
  - by intros v q ->.
  - intros v q -> H. by rewrite decide_True.
  - intros v q Hc H. rewrite Hc, decide_False by lia. eexists. by split_and!.
  - intros v l q E. rewrite E. eexists. by split_and!.
  - intros q -> [-> | ->]; [done|]. by destruct (q_closed q).
  - intros q -> -> H. simpl. by rewrite bool_decide_false.
Qed.

(** ** Properties *)

(** The steps of the sender threads. *)
Definition sender_ev {T} (e : Ev T) : bool :=
  match e with
  | EvCall _ _ _ | EvSent _ _ _ | EvSendErr _ | EvWait _ | EvBlock _ | EvWake _
  | EvSenderClose | EvSenderDrop => true
  | _ => false
  end.

Section properties.
Context {T Q : Type} `{!Mpsc T Q, !MpscLaws T Q}.
Implicit Types s : Sys T Q.

(** Sequences of steps of the senders. *)
Inductive senders_run : Sys T Q → Sys T Q → Prop :=
  | senders_nil s : senders_run s s
  | senders_cons s e s1 s2 : sender_ev e = true → step s e s1 → senders_run s1 s2 →
      senders_run s s2.

(** The same state with the receiver elsewhere. *)
Definition with_phase s (p : RPhase T) : Sys T Q := with_chan s (chan s) (threads s) p.

Lemma with_phase_id s : with_phase s (rphase s) = s.
Proof. by destruct s. Qed.

Lemma sender_step_phase s e s' p :
  sender_ev e = true → step s e s' →
  rphase s' = rphase s ∧ receiving (state (chan s')) = receiving (state (chan s))
  ∧ taken s' = taken s ∧ step (with_phase s p) e (with_phase s' p).
Proof.
  intros Hs Hst. destruct Hst; try done; (split; [done|]); (split; [|split; [done|]]); try done.
  all: try match goal with
    | H : send_attempt _ _ _ = SendOk _ |- receiving _ = _ =>
        unfold send_attempt in H; repeat case_match; simplify_eq; done
    end.
  - by apply (step_call (with_phase s p)).
  - by apply (step_sent (with_phase s p) t idx v c').
  - by apply (step_send_err (with_phase s p) t idx v).
  - by apply (step_wait (with_phase s p) t idx v).
  - by apply (step_block (with_phase s p) t idx v).
  - by apply (step_unblock (with_phase s p) t idx v q').
  - by apply (step_wake (with_phase s p) t idx v).
  - by apply (step_sender_close (with_phase s p)).
  - by apply (step_sender_drop (with_phase s p)).
Qed.

Lemma senders_run_phase s s' p :
  senders_run s s' →
  rphase s' = rphase s ∧ receiving (state (chan s')) = receiving (state (chan s))
  ∧ taken s' = taken s ∧ senders_run (with_phase s p) (with_phase s' p).
Proof.
  induction 1 as [s|s e s1 s2 He Hst Hr (IH1 & IH2 & IH3 & IH4)];
    [split_and!; try done; constructor|].
  destruct (sender_step_phase _ _ _ p He Hst) as (H1 & H2 & H3 & H4).
  split_and!; try congruence. by apply (senders_cons _ e _ _ He H4).
Qed.

(** C24. Ordered delivery: whatever the number of sender threads and the
    interleaving of their calls, waits, wakeups, cancelled receives and
    closings, the [i]-th value the receiver gets is the value some thread passed
    to [send] with the index [i]: values arrive in index order, none is
    skipped, duplicated or invented. *)
Theorem ordered_delivery s i v :
  reachable s → disciplined (called s) → taken s !! i = Some v →
  (N.of_nat i, v) ∈ called s.
Proof.
  intros Hr Hd Ht. destruct (reachable_inv s Hr Hd) as [_ Hi].
  assert ((sent s).*2 !! i = Some v) as Hs.
  { rewrite <-(di_fifo _ Hi). by apply lookup_app_l_Some. }
  rewrite list_lookup_fmap, fmap_Some in Hs. destruct Hs as ([j w] & Hs & ->).
  assert ((sent s).*1 !! i = Some j) as Hj by (by rewrite list_lookup_fmap, Hs).
  rewrite (di_sent _ Hi) in Hj. unfold seqN in Hj.
  rewrite list_lookup_fmap, fmap_Some in Hj. destruct Hj as (k & Hk & ->).
  apply lookup_seq in Hk as [-> _]. apply (di_sub _ Hi). simpl.
  by apply list_elem_of_lookup_2 in Hs.
Qed.

(** C33. Bounded memory: the inner channel never holds more than one value, and
    only a value the receiver has asked for and not yet got; and no thread ever
    blocks in [blocking_send] with the mutex held. *)
Theorem ordered_channel_bounded s :
  reachable s → disciplined (called s) →
  (length (mp_items (inner (chan s))) ≤ 1)%nat
  ∧ (mp_items (inner (chan s)) ≠ [] →
       receiving (state (chan s)) = true
       ∧ wanted_idx (state (chan s)) = Some (N.of_nat (length (taken s))))
  ∧ lock_free s.
Proof.
  intros Hr Hd. destruct (reachable_inv s Hr Hd) as [Ht Hi].
  pose proof (sent_length_items _ Hi) as Hlen.
  pose proof (di_phase _ Hi) as Hp. unfold phase_inv in Hp.
  assert (mp_items (inner (chan s)) ≠ [] → (0 < length (mp_items (inner (chan s))))%nat) as Hne.
  { destruct (mp_items (inner (chan s))); [done|simpl; lia]. }
  split; [|split; [|apply Ht]].
  - destruct (wanted_idx _); [|lia]. destruct (receiving _); [|lia].
    destruct (rphase s); lia.
  - intros H%Hne. destruct (wanted_idx _); [|lia].
    destruct (receiving _); [|lia]. split; [done|]. f_equal. destruct (rphase s); lia.
Qed.

(** C31. No lost wakeup: when the receiver awaits its next value, either that
    value is in the buffer and the receiver can take it, or the thread that is
    in [send] with the wanted index is not asleep: unless the channel was
    closed, its next step puts its value in the buffer. *)
Theorem ordered_channel_progress s :
  reachable s → disciplined (called s) → rphase s = RAwait →
  wanted_idx (state (chan s)) = Some (N.of_nat (length (taken s)))
  ∧ ((∃ v s', step s (EvPop v) s')
     ∨ (mp_items (inner (chan s)) = []
        ∧ ∀ t st, threads s !! t = Some st → t_idx st = N.of_nat (length (taken s)) →
          recv_closed (state (chan s)) = false →
          ∃ s', step s (EvSent t (t_idx st) (t_val st)) s'
                ∧ mp_items (inner (chan s')) = [t_val st])).
Proof.
  intros Hr Hd Hph. pose proof (reachable_inv s Hr Hd) as Hinv. pose proof Hinv as [Ht Hi].
  pose proof (di_phase _ Hi) as Hp. unfold phase_inv in Hp. rewrite Hph in Hp.
  destruct (wanted_idx (state (chan s))) as [w|] eqn:Hw; [|by destruct Hp as (_ & ? & _)].
  destruct (receiving (state (chan s))) eqn:Hrec; [|by destruct Hp].
  destruct Hp as [Hnt Hns]. subst w. split; [done|].
  destruct (mp_items (inner (chan s))) as [|v l] eqn:Hit.
  - right. split; [done|]. intros t st Hst Hidx Hcl.
    pose proof (send_attempt_inv s t st Hinv Hst) as Ha. cbv zeta in Ha.
    destruct st as [idx v|idx v|idx v]; cbn [t_idx t_val] in *.
    + destruct (send_attempt idx v (chan s)) as [c'| | |] eqn:E; [|congruence|done|].
      * destruct Ha as (_ & _ & _ & _ & _ & _ & _ & _ & Hit' & _).
        eexists. split; [by apply (step_sent s t idx v c'); [|apply Ht|]|done].
      * destruct Ha as [_ Ha]. congruence.
    + apply (ti_wait _ Ht t) in Hst as [_ Hst]. congruence.
    + by destruct (ti_lock _ Ht t idx v).
  - left. destruct (mp_recv_item _ _ _ Hit) as (q' & E & _).
    exists v. eexists. by apply (step_pop s v q').
Qed.

(** C30. Cancel safety of [recv]: dropping its future at the await and calling
    [recv] again later, after any steps of the senders, is invisible: the state
    reached is the one reached by the same steps of the senders without the
    cancellation, and no value is lost or asked for twice. *)
Theorem recv_cancel_safe s s1 s1' s2 :
  reachable s → disciplined (called s) →
  step s EvCancel s1 → senders_run s1 s1' → step s1' EvEnter s2 →
  senders_run s s2 ∧ taken s2 = taken s.
Proof.
  intros Hr Hd Hc Hs He. destruct (reachable_inv s Hr Hd) as [_ Hi].
  pose proof (di_phase _ Hi) as Hp. unfold phase_inv in Hp.
  inversion Hc; subst. match goal with H : rphase s = RAwait |- _ => rename H into Hph end.
  rewrite Hph in Hp.
  assert (receiving (state (chan s)) = true) as Hrec.
  { destruct (wanted_idx _); [|by destruct Hp as (_ & ? & _)].
    destruct (receiving _); [done|by destruct Hp]. }
  destruct (senders_run_phase _ _ RAwait Hs) as (H1 & H2 & H3 & H4).
  simpl in H1, H2, H3. rewrite Hrec in H2.
  inversion He as [| | | | | | | | |c' b Hph' _ E| | | | |]; subst.
  unfold recv_enter in E. rewrite H2 in E. simpl in E. simplify_eq. simpl.
  split; [|done]. rewrite <-(with_phase_id s) at 1. rewrite Hph. exact H4.
Qed.

(** C32. Closing, from either side, unblocks the senders: in every state where
    the channel is closed no thread is asleep in [send], each one in a call can
    return its error at once, and no value is accepted any more. *)
Theorem ordered_channel_close s :
  reachable s → disciplined (called s) → recv_closed (state (chan s)) = true →
  (∀ t st, threads s !! t = Some st →
     (∃ idx v, st = TLocking idx v) ∧ ∃ s', step s (EvSendErr t) s' ∧ threads s' !! t = None)
  ∧ ∀ t idx v s', ¬ step s (EvSent t idx v) s'.
Proof.
  intros Hr Hd Hcl. destruct (reachable_inv s Hr Hd) as [Ht Hi].
  assert (∀ idx v, send_attempt idx v (chan s) = SendErr) as Herr.
  { intros idx v. unfold send_attempt. by rewrite Hcl. }
  split.
  - intros t [idx v|idx v|idx v] Hst.
    + split; [eauto|]. eexists.
      split; [by apply (step_send_err s t idx v); [|apply Ht|]|]. apply lookup_delete_eq.
    + apply (ti_wait _ Ht t) in Hst as [Hst _]. congruence.
    + by destruct (ti_lock _ Ht t idx v).
  - intros t idx v s' H. inversion H; subst.
    + match goal with E : send_attempt _ _ _ = _ |- _ => by rewrite Herr in E end.
    + by eapply (ti_lock _ Ht t).
Qed.
End properties.

(** ** The properties on a run: the three threads of the test [ordered], which
    send 2, 1 and 0, with a receive cancelled in between *)

Definition sample_cmds : list (Cmd N) :=
  [DoCall 1 2 102; DoSend 1; DoCall 2 1 101; DoSend 2; DoCall 3 0 100; DoSend 3;
   DoEnter; DoSend 1; DoCancel; DoSend 3; DoEnter; DoPoll; DoExit;
   DoEnter; DoSend 2; DoPoll; DoExit; DoEnter].

Definition sample_state : Sys N (MpQueue N) :=
  default (start 3) (run sample_cmds (start 3)).

Lemma sample_reachable : reachable sample_state.
Proof. apply (run_reachable sample_cmds (start 3)); [apply start_reachable|vm_compute; reflexivity]. Qed.

Lemma sample_disciplined : disciplined (called sample_state).
Proof.
  split; apply (bool_decide_unpack _); vm_compute; exact I.
Qed.

Lemma ordered_delivery_witness :
  taken sample_state = [100; 101] ∧ (1, 101) ∈ called sample_state.
Proof.
  split; [vm_compute; reflexivity|].
  apply (ordered_delivery sample_state 1 101 sample_reachable sample_disciplined).
  vm_compute. reflexivity.
Defined.

Lemma ordered_channel_bounded_witness :
  (length (mp_items (inner (chan sample_state))) ≤ 1)%nat ∧ lock_free sample_state.
Proof.
  destruct (ordered_channel_bounded sample_state sample_reachable sample_disciplined)
    as (H1 & _ & H2).
  split; [exact H1|exact H2].
Defined.

Lemma ordered_channel_progress_witness :
  ∃ s', step sample_state (EvSent 1 2 102) s' ∧ mp_items (inner (chan s')) = [102].
Proof.
  assert (rphase sample_state = RAwait) as Hph by (vm_compute; reflexivity).
  destruct (ordered_channel_progress sample_state sample_reachable sample_disciplined Hph)
    as [_ [(v & s' & H)|[_ H]]].
  - exfalso. inversion H as [| | | | | | | | | |v' q' Hp E| | | |]. vm_compute in E. discriminate.
  - apply (H 1 (TLocking 2 102)); vm_compute; reflexivity.
Defined.

Lemma cancel_enter {T Q} `{!Mpsc T Q} (s : Sys T Q) :
  lock_free s → rphase s = RAwait → receiving (state (chan s)) = true →
  ∃ s1 s2, step s EvCancel s1 ∧ step s1 EvEnter s2.
Proof.
  intros Hl Hp Hr. eexists _, _. split; [by apply step_cancel|].
  apply (step_enter _ (chan s) false); [done|exact Hl|].
  unfold recv_enter. simpl. by rewrite Hr.
Qed.

Lemma recv_cancel_safe_witness :
  ∃ s1 s2, step sample_state EvCancel s1 ∧ step s1 EvEnter s2
    ∧ senders_run sample_state s2 ∧ taken s2 = taken sample_state.
Proof.
  destruct (cancel_enter sample_state) as (s1 & s2 & H1 & H2);
    [apply lock_freeb_spec; vm_compute; reflexivity|vm_compute; reflexivity..|].
  exists s1, s2. split; [exact H1|]. split; [exact H2|].
  apply (recv_cancel_safe sample_state s1 s1 s2 sample_reachable sample_disciplined H1
    (senders_nil s1) H2).
Defined.

(** The same state after the receiver was cancelled and closed. *)
Definition sample_closed : Sys N (MpQueue N) :=
  default (start 3) (run (sample_cmds ++ [DoCancel; DoRecvClose]) (start 3)).

Lemma ordered_channel_close_witness :
  ∃ s', step sample_closed (EvSendErr 1) s' ∧ threads s' !! 1 = None.
Proof.
  assert (reachable sample_closed) as Hr.
  { apply (run_reachable (sample_cmds ++ [DoCancel; DoRecvClose]) (start 3));
      [apply start_reachable|vm_compute; reflexivity]. }
  assert (disciplined (called sample_closed)) as Hd
    by (split; apply (bool_decide_unpack _); vm_compute; exact I).
  assert (recv_closed (state (chan sample_closed)) = true) as Hc by (vm_compute; reflexivity).
  destruct (ordered_channel_close sample_closed Hr Hd Hc) as [H _].
  apply (H 1 (TLocking 2 102)). vm_compute. reflexivity.
Defined.
