(* ===== verification/HashFile.v ===== *)
(** The hash workers of src/src/hash_file.rs, one worker at a time: the digest
    of a block, the arithmetic of the strided loop, and the blocks a worker
    reads from a file that does not change.  The threads running together with
    the ordered channel are in Pipeline.v. *)

From stdpp Require Import base option list numbers strings.
From Stdlib Require Import NArith ZArith Lia.
From S2P Require Import Prelude AsyncIO Utf8 Wire Loan OrderedChannel.
#[local] Open Scope N_scope.

(** ** Hash algorithms (src/src/main.rs, lines 27-33) *)

Inductive HashAlgorithm := CRC32 | MD5.

#[global] Instance HashAlgorithm_eq_dec : EqDecision HashAlgorithm.
Proof. solve_decision. Defined.

(** The [IntEnum] conversions. *)
Definition hash_algorithm_to_u8 (a : HashAlgorithm) : N :=
  match a with CRC32 => 1 | MD5 => 2 end.

Definition hash_algorithm_of_u8 (n : N) : option HashAlgorithm :=
  match n with 1 => Some CRC32 | 2 => Some MD5 | _ => None end.

(** The crates [crc32c], [md-5] and [hex]. *)
Class Hashing := {
  crc32c : bytes → N;
  md5_digest : bytes → bytes;
  hex_encode : bytes → bytes;
}.

(** An MD5 digest has 16 bytes; the hexadecimal form has two ASCII digits a byte. *)
Class HashingLaws `{!Hashing} : Prop := {
  md5_length data : length (md5_digest data) = 16%nat;
  hex_ascii bs : is_ascii (hex_encode bs) = true;
  hex_length bs : length (hex_encode bs) = (2 * length bs)%nat;
}.

(** [u32::to_le_bytes] *)
Definition to_le_bytes (n : N) : bytes := reverse (be_bytes 4 n).

(** [hash_data] *)
Definition hash_data `{!Hashing} (data : bytes) (algorithm : HashAlgorithm) : bytes :=
  match algorithm with
  | CRC32 => hex_encode (to_le_bytes (crc32c data))
  | MD5 => hex_encode (md5_digest data)
  end.

(** ** Files of the standard library: the content, read at a position *)

Definition slice (file : bytes) (pos len : N) : bytes :=
  take (N.to_nat len) (drop (N.to_nat pos) file).

(** [Read::read_exact] into a buffer of [len] bytes at position [pos]. *)
Definition read_exact_at (file : bytes) (pos len : N) : Result bytes :=
  if pos + len <=? lenN file then Ok (slice file pos len)
  else if len =? 0 then Ok []
  else Err (EIo EkUnexpectedEof).

(** [x as i64] *)
Definition as_i64 (x : N) : Z :=
  if x <? 2 ^ 63 then Z.of_N x else (Z.of_N x - Z.of_N W64)%Z.

(** [Seek::seek(SeekFrom::Current(d))]: an error before the start of the file. *)
Definition seek_current (pos : N) (d : Z) : Result N :=
  let p := (Z.of_N pos + d)%Z in
  if (p <? 0)%Z then Err (EIo (EkOther 22)) else Ok (Z.to_N p).

(** ** One worker *)

(** The variables of the worker's loop; [pos] is the position of its file. *)
Record Worker := MkWorker {
  offset : N;
  block_idx : N;
  pos : N;
  buffer : bytes;
}.

Section worker.
Context (file_size block_size workers : N).

(** Lines 58-76: the variables of worker [i], its file opened and moved to the
    first block. *)
Definition worker_init (i : N) : Worker :=
  let offset := wmul i block_size in
  MkWorker offset i offset (replicate (N.to_nat block_size) Byte.x00).

(** [while offset < file_size] *)
Definition worker_continues (w : Worker) : bool := offset w <? file_size.

(** Lines 86-89. *)
Definition worker_block_size (w : Worker) : N :=
  let rem := wsub file_size (offset w) in
  if rem <? block_size then rem else block_size.

(** Lines 90-103: the buffer resized and filled from the file. *)
Definition worker_read (file : bytes) (w : Worker) : Result Worker :=
  let size := worker_block_size w in
  let buf := resize (N.to_nat size) Byte.x00 (buffer w) in
  match read_exact_at file (pos w) (lenN buf) with
  | Ok data => Ok (MkWorker (offset w) (block_idx w) (pos w + lenN data) data)
  | Err e => Err e
  end.

(** Lines 116-127: the seek to the next block and the increments. *)
Definition worker_advance (w : Worker) : Result Worker :=
  match seek_current (pos w) (as_i64 (wmul (workers - 1) block_size)) with
  | Ok p => Ok (MkWorker (wadd (offset w) (wmul workers block_size))
                         (wadd (block_idx w) workers) p (buffer w))
  | Err e => Err e
  end.

(** The whole loop of a worker alone, sends always succeeding: the blocks it
    sends and the error it ends with. *)
Fixpoint worker_loop (fuel : nat) (file : bytes) (w : Worker)
    : list (N * bytes) * option Error :=
  if worker_continues w then
    match fuel with
    | O => ([], Some (EMsg "out of fuel"))
    | S fuel' =>
        match worker_read file w with
        | Err e => ([], Some e)
        | Ok w1 =>
            match worker_advance w1 with
            | Err e => ([(block_idx w1, buffer w1)], Some e)
            | Ok w2 => let '(l, e) := worker_loop fuel' file w2 in
                       ((block_idx w1, buffer w1) :: l, e)
            end
        end
    end
  else ([], None).

(** ** The specification: the blocks of a file *)

(** [file_size.div_ceil(block_size)] *)
Definition num_blocks : N := (file_size + block_size - 1) / block_size.

(** The size and the data of block [k]. *)
Definition block_len (k : N) : N := N.min block_size (file_size - k * block_size).
Definition block (file : bytes) (k : N) : bytes := slice file (k * block_size) (block_len k).

(** The blocks of worker [i], in order. *)
Definition strided (i : N) : list N :=
  filter (λ k, k mod workers = i) (seqN (N.to_nat num_blocks)).

(** The sizes for which nothing overflows: any file, with the limits of the
    server on the block size and a [u8] of workers. *)
Definition sane : Prop :=
  0 < block_size ∧ 0 < workers ∧ file_size + workers * block_size < 2 ^ 63.
End worker.

(** ** Lemmas *)

Lemma hash_algorithm_of_to_u8 a : hash_algorithm_of_u8 (hash_algorithm_to_u8 a) = Some a.
Proof. by destruct a. Qed.

Lemma hash_data_ascii `{!Hashing, !HashingLaws} data a : is_ascii (hash_data data a) = true.
Proof. destruct a; apply hex_ascii. Qed.

Lemma hash_data_length `{!Hashing, !HashingLaws} data a :
  length (hash_data data a) = match a with CRC32 => 8%nat | MD5 => 32%nat end.
Proof.
  destruct a; unfold hash_data; rewrite hex_length.
  - unfold to_le_bytes. by rewrite length_reverse, length_be_bytes.
  - by rewrite md5_length.
Qed.

Lemma hash_data_short `{!Hashing, !HashingLaws} data a : lenN (hash_data data a) ≤ 32.
Proof. unfold lenN. rewrite hash_data_length. destruct a; lia. Qed.

Lemma hash_data_sends `{!Hashing, !HashingLaws} data a : sendable 256 (hash_data data a).
Proof.
  pose proof (hash_data_short data a) as Hl. split; [apply ascii_utf8_valid, hash_data_ascii|].
  unfold W64. lia.
Qed.

Lemma length_slice file p n : lenN (slice file p n) = N.min n (lenN file - p).
Proof. unfold slice. len_lia. Qed.

Section lemmas.
Context {file_size block_size workers : N} (Hs : sane file_size block_size workers).

Lemma sane_pow : 2 ^ 63 + 2 ^ 63 = W64.
Proof. reflexivity. Qed.

Lemma num_blocks_lt k : k < num_blocks file_size block_size ↔ k * block_size < file_size.
Proof.
  destruct Hs as (H1 & _ & _). unfold num_blocks. split; intros H.
  - pose proof (N.Div0.mul_div_le (file_size + block_size - 1) block_size). nia.
  - assert (k + 1 ≤ (file_size + block_size - 1) / block_size); [|lia].
    apply N.div_le_lower_bound; nia.
Qed.

Lemma block_len_pos k : k < num_blocks file_size block_size → 0 < block_len file_size block_size k.
Proof. destruct Hs as (H1 & _ & _). rewrite num_blocks_lt. unfold block_len. lia. Qed.

Lemma block_len_end k : k < num_blocks file_size block_size →
  k * block_size + block_len file_size block_size k ≤ file_size.
Proof. rewrite num_blocks_lt. unfold block_len. lia. Qed.

Lemma length_block file k : lenN file = file_size → k < num_blocks file_size block_size →
  lenN (block file_size block_size file k) = block_len file_size block_size k.
Proof.
  intros Hf Hk. apply block_len_end in Hk. unfold block. rewrite length_slice. lia.
Qed.

(** Worker [i] at the head of its loop, about to process block [k]. *)
Definition at_block (i k : N) (w : Worker) : Prop :=
  offset w = k * block_size ∧ block_idx w = k ∧ pos w = k * block_size
  ∧ k mod workers = i ∧ k * block_size < file_size + workers * block_size.

Lemma worker_init_at i : i < workers → at_block i i (worker_init block_size i).
Proof.
  intros Hi. destruct Hs as (H1 & H2 & H3). unfold at_block, worker_init; simpl.
  assert (i * block_size < workers * block_size) by nia.
  rewrite wmul_small by (unfold W64; lia). rewrite N.mod_small by lia. split_and!; lia.
Qed.

Lemma worker_continues_at i k w : at_block i k w →
  worker_continues file_size w = bool_decide (k < num_blocks file_size block_size).
Proof.
  intros (H & _). unfold worker_continues. rewrite H.
  destruct (N.ltb_spec (k * block_size) file_size) as [Hlt|Hge]; symmetry.
  - apply bool_decide_eq_true. by apply num_blocks_lt.
  - apply bool_decide_eq_false. rewrite num_blocks_lt. lia.
Qed.

Lemma worker_block_size_at i k w : at_block i k w → k < num_blocks file_size block_size →
  worker_block_size file_size block_size w = block_len file_size block_size k.
Proof.
  intros (H & _) Hk. rewrite num_blocks_lt in Hk. unfold worker_block_size.
  rewrite wsub_small by (destruct Hs as (_ & _ & ?); unfold W64; lia).
  unfold block_len. rewrite H. cbv zeta.
  destruct (N.ltb_spec (file_size - k * block_size) block_size); lia.
Qed.

(** A read of the loop, on a file of any length: the block, or the error of a
    file too short for it. *)
Lemma worker_read_at i k w file : at_block i k w → k < num_blocks file_size block_size →
  worker_read file_size block_size file w
  = if k * block_size + block_len file_size block_size k <=? lenN file
    then Ok (MkWorker (k * block_size) k (k * block_size + block_len file_size block_size k)
                      (block file_size block_size file k))
    else Err (EIo EkUnexpectedEof).
Proof.
  intros Ha Hk. pose proof (worker_block_size_at i k w Ha Hk) as Hsz.
  destruct Ha as (H1 & H2 & H3 & _). unfold worker_read. rewrite Hsz, H1, H2, H3. cbv zeta.
  assert (lenN (resize (N.to_nat (block_len file_size block_size k)) Byte.x00 (buffer w))
    = block_len file_size block_size k) as -> by (unfold lenN; rewrite length_resize; lia).
  unfold read_exact_at. pose proof (block_len_pos k Hk).
  destruct (N.leb_spec (k * block_size + block_len file_size block_size k) (lenN file)).
  - fold (block file_size block_size file k). f_equal. f_equal.
    unfold block. rewrite length_slice. lia.
  - by destruct (N.eqb_spec (block_len file_size block_size k) 0); [lia|].
Qed.

(** The step to the next block, after the read of block [k]. *)
Lemma worker_advance_at i k p buf :
  k < num_blocks file_size block_size → k mod workers = i →
  p = k * block_size + block_len file_size block_size k →
  ∃ w', worker_advance block_size workers (MkWorker (k * block_size) k p buf) = Ok w'
  ∧ buffer w' = buf ∧ offset w' = (k + workers) * block_size ∧ block_idx w' = k + workers
  ∧ pos w' = p + (workers - 1) * block_size
  ∧ (k + workers < num_blocks file_size block_size → at_block i (k + workers) w').
Proof.
  intros Hk Hi ->. pose proof Hs as (H1 & H2 & H3).
  pose proof Hk as Hk'. rewrite num_blocks_lt in Hk'.
  assert ((workers - 1) * block_size ≤ workers * block_size) by nia.
  assert (k ≤ k * block_size ∧ workers ≤ workers * block_size
    ∧ block_size ≤ workers * block_size) by nia.
  assert (2 ^ 63 < W64) by (unfold W64; lia).
  unfold worker_advance, seek_current, as_i64; cbn [offset block_idx pos buffer].
  rewrite !(wmul_small) by lia.
  replace ((workers - 1) * block_size <? 2 ^ 63) with true by (symmetry; apply N.ltb_lt; lia).
  cbv zeta.
  rewrite <-N2Z.inj_add, N2Z.id, (proj2 (Z.ltb_ge _ _)) by apply N2Z.is_nonneg.
  eexists. split; [done|]. cbn [offset block_idx pos buffer].
  rewrite !wadd_small by lia. rewrite N.mul_add_distr_r.
  split_and!; try lia; try done. intros Hn. rewrite num_blocks_lt in Hn.
  rewrite N.mul_add_distr_r in Hn.
  assert (block_len file_size block_size k = block_size) as -> by (unfold block_len; lia).
  assert ((workers - 1) * block_size + block_size = workers * block_size) by nia.
  unfold at_block; cbn [offset block_idx pos].
  rewrite N.mul_add_distr_r. split_and!; try lia.
  rewrite <-(N.mul_1_l workers) at 1. by rewrite N.Div0.mod_add.
Qed.

(** ** Ranges of block indices *)

(** [a, a + 1, ..., a + len - 1] *)
Definition rangeN (a : N) (len : nat) : list N := (λ j, a + N.of_nat j) <$> seq 0 len.

Lemma rangeN_app a l1 l2 : rangeN a (l1 + l2) = rangeN a l1 ++ rangeN (a + N.of_nat l1) l2.
Proof.
  unfold rangeN. rewrite seq_app, fmap_app. f_equal. rewrite Nat.add_0_l.
  rewrite <-(Nat.add_0_r l1) at 1. rewrite <-fmap_add_seq, <-list_fmap_compose.
  apply list_fmap_ext. intros j x _. simpl. lia.
Qed.

Lemma elem_of_rangeN a len x : x ∈ rangeN a len ↔ a ≤ x < a + N.of_nat len.
Proof.
  unfold rangeN. rewrite list_elem_of_fmap. split.
  - intros (j & -> & Hj%elem_of_seq). lia.
  - intros H. exists (N.to_nat (x - a)). split; [lia|]. apply elem_of_seq. lia.
Qed.

Lemma filter_none (P : N → Prop) `{!∀ x, Decision (P x)} (l : list N) :
  (∀ x, x ∈ l → ¬ P x) → filter P l = [].
Proof.
  induction l as [|x l IH]; intros Hno; [done|].
  rewrite filter_cons_False by (apply Hno; by left). apply IH. intros y Hy. apply Hno. by right.
Qed.

(** Between two blocks of a worker there are only blocks of others. *)
Lemma filter_between i k len : k mod workers = i → N.of_nat len < workers →
  filter (λ x, x mod workers = i) (rangeN (k + 1) len) = [].
Proof.
  intros Hk Hl. apply filter_none. intros x Hx%elem_of_rangeN Hm.
  assert (workers ≠ 0) as Hw by (destruct Hs; lia).
  pose proof (N.div_mod x workers Hw). pose proof (N.div_mod k workers Hw).
  assert (x - k = workers * (x / workers - k / workers)) by nia.
  assert (x / workers - k / workers ≠ 0) by nia.
  assert (workers ≤ workers * (x / workers - k / workers)) by nia. lia.
Qed.

Lemma filter_next i k n : k mod workers = i → k < n →
  filter (λ x, x mod workers = i) (rangeN k (N.to_nat (n - k)))
  = k :: filter (λ x, x mod workers = i)
               (rangeN (k + workers) (N.to_nat (n - (k + workers)))).
Proof.
  intros Hk Hn. assert (0 < workers) by (destruct Hs; lia).
  destruct (decide (k + workers ≤ n)) as [Hle|Hgt].
  - replace (N.to_nat (n - k)) with (1 + (N.to_nat (workers - 1) + N.to_nat (n - (k + workers))))%nat by lia.
    rewrite !rangeN_app, !filter_app, filter_between by (done || lia).
    change (rangeN k 1) with [k + N.of_nat 0]. rewrite N.add_0_r, filter_cons_True by done.
    simpl. do 3 f_equal. lia.
  - replace (N.to_nat (n - k)) with (1 + N.to_nat (n - k - 1))%nat by lia.
    replace (N.to_nat (n - (k + workers))) with 0%nat by lia.
    rewrite rangeN_app, filter_app, filter_between by (done || lia).
    change (rangeN k 1) with [k + N.of_nat 0]. rewrite N.add_0_r, filter_cons_True by done. done.
Qed.

Lemma strided_from i : i < workers →
  strided file_size block_size workers i
  = filter (λ x, x mod workers = i)
           (rangeN i (N.to_nat (num_blocks file_size block_size - i))).
Proof.
  intros Hi. unfold strided. set (n := num_blocks file_size block_size).
  assert (∀ len, N.of_nat len ≤ i → filter (λ x, x mod workers = i) (rangeN 0 len) = []) as Hnone.
  { intros len Hl. apply filter_none. intros x Hx%elem_of_rangeN. rewrite N.mod_small by lia. lia. }
  change (seqN (N.to_nat n)) with (rangeN 0 (N.to_nat n)).
  destruct (decide (i ≤ n)) as [Hle|Hgt].
  - replace (N.to_nat n) with (N.to_nat i + N.to_nat (n - i))%nat at 1 by lia.
    rewrite rangeN_app, filter_app, Hnone by lia. simpl. f_equal. f_equal. lia.
  - replace (N.to_nat (n - i)) with 0%nat by lia. by rewrite Hnone by lia.
Qed.

(** The loop from the head at block [k]. *)
Lemma worker_loop_from fuel i k w file :
  lenN file = file_size → offset w = k * block_size → k mod workers = i →
  (k < num_blocks file_size block_size → at_block i k w) →
  (N.to_nat (num_blocks file_size block_size - k) ≤ fuel)%nat →
  worker_loop file_size block_size workers fuel file w
  = ((λ k, (k, block file_size block_size file k)) <$>
       filter (λ x, x mod workers = i)
              (rangeN k (N.to_nat (num_blocks file_size block_size - k))), None).
Proof.
  intros Hf. revert k w. induction fuel as [|fuel IH]; intros k w Ho Hi Ha Hfu;
    cbn [worker_loop]; unfold worker_continues; rewrite Ho;
    (destruct (N.ltb_spec (k * block_size) file_size) as [Hlt|Hge];
      [apply num_blocks_lt in Hlt|]).
  all: try (replace (N.to_nat (num_blocks file_size block_size - k)) with 0%nat;
    [done|]; assert (¬ k < num_blocks file_size block_size)
      by (rewrite num_blocks_lt; lia); lia).
  - lia.
  - pose proof (block_len_end k Hlt) as Hend.
    rewrite (worker_read_at i k w file (Ha Hlt) Hlt), Hf.
    rewrite (proj2 (N.leb_le _ _)) by done.
    destruct (worker_advance_at i k _ (block file_size block_size file k) Hlt Hi eq_refl)
      as (w' & -> & _ & Ho' & _ & _ & Ha').
    assert ((k + workers) mod workers = i) as Hi'.
    { rewrite <-(N.mul_1_l workers) at 1. by rewrite N.Div0.mod_add. }
    rewrite (IH (k + workers) w' Ho' Hi' Ha') by (destruct Hs; lia).
    by rewrite (filter_next i k) by done.
Qed.

(** The blocks put together are the file. *)
Lemma concat_blocks file n : lenN file = file_size →
  concat (block file_size block_size file <$> seqN n)
  = take (N.to_nat (N.of_nat n * block_size)) file.
Proof.
  intros Hf. induction n as [|n IH]; [done|].
  rewrite seqN_S, fmap_app, concat_app, IH. cbn [fmap list_fmap concat].
  rewrite (right_id_L [] (++)). unfold block, slice, block_len.
  set (p := N.of_nat n * block_size).
  replace (N.of_nat (S n) * block_size) with (p + block_size) by lia.
  destruct (decide (p ≤ file_size)).
  - replace (N.to_nat (p + block_size)) with (N.to_nat p + N.to_nat block_size)%nat by lia.
    rewrite <-take_take_drop. f_equal.
    destruct (decide (block_size ≤ file_size - p)); [f_equal; lia|].
    rewrite !take_ge; [done|len_lia..].
  - rewrite (drop_ge file (N.to_nat p)) by len_lia. rewrite take_nil, (right_id_L [] (++)).
    rewrite !take_ge; [done|len_lia..].
Qed.

Lemma concat_all_blocks file : lenN file = file_size →
  concat (block file_size block_size file <$> seqN (N.to_nat (num_blocks file_size block_size)))
  = file.
Proof.
  intros Hf. rewrite concat_blocks by done. apply take_ge.
  assert (¬ num_blocks file_size block_size < num_blocks file_size block_size) as Hn by lia.
  rewrite num_blocks_lt in Hn. len_lia.
Qed.

Lemma elem_of_strided i k : k ∈ strided file_size block_size workers i
  ↔ k mod workers = i ∧ k < num_blocks file_size block_size.
Proof. unfold strided. rewrite list_elem_of_filter, elem_of_seqN. by rewrite N2Nat.id. Qed.
End lemmas.

(** ** Properties *)

(** C34. The loop of a hash worker: on a file of the expected size, worker [i] of
    [workers] terminates within one iteration per block of the file and sends,
    in increasing order, exactly the blocks with index congruent to [i], each
    with the bytes of that block of the file (the last one shorter): the
    offset, the block index and the position of the file stay in step, and
    nothing overflows. *)
Theorem worker_loop_correct file_size block_size workers i file fuel :
  sane file_size block_size workers → i < workers → lenN file = file_size →
  (N.to_nat (num_blocks file_size block_size) ≤ fuel)%nat →
  worker_loop file_size block_size workers fuel file (worker_init block_size i)
  = ((λ k, (k, block file_size block_size file k)) <$> strided file_size block_size workers i,
     None).
Proof.
  intros Hs Hi Hf Hfu. rewrite (strided_from i Hi).
  pose proof (worker_init_at Hs i Hi) as Ha. pose proof Ha as (Ho & _ & _ & Hm & _).
  apply (worker_loop_from Hs); try done. lia.
Qed.

(** The strided distribution covers the file: every block is hashed by
    exactly one worker, each worker has its blocks in increasing order without
    repetition, and the blocks in index order, concatenated, are the file. *)
Theorem blocks_partition file_size block_size workers file :
  sane file_size block_size workers → lenN file = file_size →
  (∀ k, k < num_blocks file_size block_size →
     ∀ i, k ∈ strided file_size block_size workers i ↔ i = k mod workers)
  ∧ (∀ i, NoDup (strided file_size block_size workers i))
  ∧ concat (block file_size block_size file <$>
              seqN (N.to_nat (num_blocks file_size block_size))) = file.
Proof.
  intros Hs Hf. split_and!.
  - intros k Hk i. rewrite elem_of_strided. split; [by intros [<- _]|by intros ->].
  - intros i. apply NoDup_filter. unfold seqN. apply NoDup_fmap_2; [|apply NoDup_seq].
    intros x y. apply Nat2N.inj.
  - by apply (concat_all_blocks Hs).
Qed.

(** The digests fit the wire: for both algorithms the hash string is ASCII
    of 8 or 32 bytes, so the client's reader, whose limit is 256, accepts it. *)
Theorem hash_data_sendable `{!Hashing, !HashingLaws} data algorithm :
  sendable 256 (hash_data data algorithm)
  ∧ lenN (hash_data data algorithm) = match algorithm with CRC32 => 8 | MD5 => 32 end.
Proof.
  split; [apply hash_data_sends|]. unfold lenN. rewrite hash_data_length. by destruct algorithm.
Qed.

(** ** The properties at concrete inputs *)

(** The 58 bytes of test/file_to_hash.txt are replaced by 23 bytes 0, 1, ...;
    blocks of 10, two workers, as in the test [hashes]. *)
Definition sample_file : bytes := byte_of <$> seqN 23.

Lemma worker_loop_correct_witness :
  worker_loop 23 10 2 3 sample_file (worker_init 10 0)
  = ([(0, take 10 sample_file); (2, drop 20 sample_file)], None).
Proof.
  rewrite (worker_loop_correct 23 10 2 0 sample_file 3);
    [vm_compute; reflexivity|repeat split; vm_compute; reflexivity|reflexivity
    |vm_compute; reflexivity|vm_compute; lia].
Defined.

Lemma blocks_partition_witness :
  concat (block 23 10 sample_file <$> seqN 3) = sample_file
  ∧ 1 ∈ strided 23 10 2 1.
Proof.
  destruct (blocks_partition 23 10 2 sample_file) as (H1 & _ & H3);
    [repeat split; vm_compute; reflexivity|vm_compute; reflexivity|].
  split; [exact H3|]. apply H1; reflexivity.
Defined.

(** A toy digest that satisfies the laws. *)
Definition toy_hex (bs : bytes) : bytes := concat ((λ _, [byte_of 48; byte_of 49]) <$> bs).
#[local] Instance toy_hashing : Hashing := {
  crc32c data := lenN data;
  md5_digest data := replicate 16 Byte.x00;
  hex_encode := toy_hex;
}.
#[local] Instance toy_hashing_laws : HashingLaws.
Proof.
  split; [done| |].
  - intros bs. induction bs as [|b bs IH]; [done|]. exact IH.
  - intros bs. induction bs as [|b bs IH]; [done|].
    change (hex_encode (b :: bs)) with ([byte_of 48; byte_of 49] ++ hex_encode bs).
    rewrite length_app, IH. cbn [length]. lia.
Qed.

Lemma hash_data_sendable_witness :
  sendable 256 (hash_data sample_file CRC32) ∧ sendable 256 (hash_data sample_file MD5).
Proof. split; apply (hash_data_sendable sample_file). Defined.
