(* ===== verification/Digests.v ===== *)
(** The digests themselves: CRC-32C, MD5 and the hexadecimal form, an instance of
    the interface [Hashing] of HashFile.v with which the tests of the repository
    and the witnesses run.  The crates crc32c, md-5 and hex are not part of the
    program; these definitions follow RFC 3720 (appendix B.4) and RFC 1321. *)

From stdpp Require Import base option list numbers strings.
From Stdlib Require Import NArith Lia.
From S2P Require Import Prelude Utf8 HashFile Text.
#[local] Open Scope N_scope.

(** ** Hexadecimal *)

Definition hex_digit (n : N) : byte := byte_of (if n <? 10 then 48 + n else 87 + n).
Definition hex (bs : bytes) : bytes :=
  concat ((λ b, [hex_digit (byte_val b / 16); hex_digit (byte_val b mod 16)]) <$> bs).

(** ** CRC-32C, bit by bit *)

Definition ones32 : N := 4294967295.

Definition crc_bit (crc : N) : N :=
  if N.testbit crc 0 then N.lxor (N.shiftr crc 1) 2197175160 else N.shiftr crc 1.
Definition crc_byte (crc : N) (b : byte) : N := Nat.iter 8 crc_bit (N.lxor crc (byte_val b)).
Definition crc32c_of (data : bytes) : N := N.lxor (fold_left crc_byte data ones32) ones32.

(** ** MD5 *)

Definition w32 (n : N) : N := n mod 4294967296.
Definition rotl (x c : N) : N := N.lor (w32 (N.shiftl x c)) (N.shiftr x (32 - c)).

Definition le_bytes (w : nat) (n : N) : bytes := reverse (be_bytes w n).
Definition le_val (bs : bytes) : N := be_val (reverse bs).

(** The integer parts of 2^32 |sin i|, for i from 1 to 64. *)
Definition md5_sines : list N :=
  [3614090360; 3905402710; 606105819; 3250441966; 4118548399; 1200080426; 2821735955; 4249261313;
   1770035416; 2336552879; 4294925233; 2304563134; 1804603682; 4254626195; 2792965006; 1236535329;
   4129170786; 3225465664; 643717713; 3921069994; 3593408605; 38016083; 3634488961; 3889429448;
   568446438; 3275163606; 4107603335; 1163531501; 2850285829; 4243563512; 1735328473; 2368359562;
   4294588738; 2272392833; 1839030562; 4259657740; 2763975236; 1272893353; 4139469664; 3200236656;
   681279174; 3936430074; 3572445317; 76029189; 3654602809; 3873151461; 530742520; 3299628645;
   4096336452; 1126891415; 2878612391; 4237533241; 1700485571; 2399980690; 4293915773; 2240044497;
   1873313359; 4264355552; 2734768916; 1309151649; 4149444226; 3174756917; 718787259; 3951481745].
Definition md5_shifts : list (list N) :=
  [[7; 12; 17; 22]; [5; 9; 14; 20]; [4; 11; 16; 23]; [6; 10; 15; 21]].

Record Md5 := MkMd5 { md5_a : N; md5_b : N; md5_c : N; md5_d : N }.

Definition md5_init : Md5 := MkMd5 1732584193 4023233417 2562383102 271733878.

(** Operation [i] on the words [m] of a chunk. *)
Definition md5_op (m : list N) (s : Md5) (i : nat) : Md5 :=
  let '(MkMd5 a b c d) := s in
  let not x := N.lxor x ones32 in
  let '(f, g) :=
    match (i / 16)%nat with
    | 0%nat => (N.lor (N.land b c) (N.land (not b) d), i)
    | 1%nat => (N.lor (N.land d b) (N.land (not d) c), ((5 * i + 1) mod 16)%nat)
    | 2%nat => (N.lxor (N.lxor b c) d, ((3 * i + 5) mod 16)%nat)
    | _ => (N.lxor c (N.lor b (not d)), ((7 * i) mod 16)%nat)
    end in
  let x := w32 (a + f + default 0 (md5_sines !! i) + default 0 (m !! g)) in
  let r := default 0 (default [] (md5_shifts !! (i / 16)%nat) !! (i mod 4)%nat) in
  MkMd5 d (w32 (b + rotl x r)) b c.

(** [n] pieces of [k] bytes. *)
Fixpoint pieces (n k : nat) (bs : bytes) : list bytes :=
  match n with O => [] | S n => take k bs :: pieces n k (drop k bs) end.

Definition md5_chunk (s : Md5) (chunk : bytes) : Md5 :=
  let m := le_val <$> pieces 16 4 chunk in
  let '(MkMd5 a b c d) := fold_left (md5_op m) (seq 0 64) s in
  MkMd5 (w32 (md5_a s + a)) (w32 (md5_b s + b)) (w32 (md5_c s + c)) (w32 (md5_d s + d)).

(** Padded with a bit 1, zeroes and the length in bits. *)
Definition md5_padded (data : bytes) : bytes :=
  let zeroes := ((119 - length data mod 64) mod 64)%nat in
  data ++ [byte_of 128] ++ replicate zeroes Byte.x00 ++ le_bytes 8 (8 * lenN data).

Definition md5_of (data : bytes) : bytes :=
  let padded := md5_padded data in
  let s := fold_left md5_chunk (pieces (length padded / 64) 64 padded) md5_init in
  le_bytes 4 (md5_a s) ++ le_bytes 4 (md5_b s) ++ le_bytes 4 (md5_c s) ++ le_bytes 4 (md5_d s).

(** ** The interface *)

Definition digests : Hashing := {|
  crc32c := crc32c_of;
  md5_digest := md5_of;
  hex_encode := hex;
|}.
#[local] Existing Instance digests.

Lemma digests_laws : HashingLaws.
Proof.
  split.
  - intros data. cbn. unfold md5_of, le_bytes. cbv zeta. by rewrite !length_app, !length_reverse, !length_be_bytes.
  - intros bs. cbn. induction bs as [|b bs IH]; [done|].
    unfold hex. cbn [fmap list_fmap concat app]. destruct b; exact IH.
  - intros bs. cbn. induction bs as [|b bs IH]; [done|].
    unfold hex in *. cbn [fmap list_fmap concat app length]. rewrite IH. lia.
Qed.

(** The check values of the standards. *)
Example crc32c_check : crc32c (str "123456789") = 3808858755.
Proof. vm_compute. reflexivity. Qed.
Example md5_abc : hex (md5_of (str "message digest")) = str "f96b697d7cb7938d525a2f31aaf161d0".
Proof. vm_compute. reflexivity. Qed.
Example md5_two_chunks :
  hex (md5_of (str "12345678901234567890123456789012345678901234567890123456789012345678901234567890"))
  = str "57edf4a22be3c955ac49da2e2107b67a".
Proof. vm_compute. reflexivity. Qed.
