(* ===== verification/Pipeline.v ===== *)
(** The hashing pipeline of src/src/hash_file.rs: the worker threads, the
    ordered channel, the loans and the [HashStream] of one [hash_file], as a
    transition system.

    A worker's local computation between two shared actions is one step; its
    calls of the ordered channel are the steps of OrderedChannel.v with the
    worker's number as thread.  The consumer holds the received blocks until it
    drops them, may cancel a [recv] (as [select!] does) and may drop the stream.
    The file may change at any time. *)

From stdpp Require Import base option list numbers gmap.
From Stdlib Require Import NArith Lia.
From S2P Require Import Prelude AsyncIO Loan OrderedChannel HashFile.
#[local] Open Scope N_scope.

(** ** The error watch channel of tokio *)

(** The latest value, and whether the receiver has not seen it yet. *)
Class Watch (V Wt : Type) := {
  wt_channel : V → Wt;
  wt_value : Wt → V;
  wt_unseen : Wt → bool;
  wt_send : V → Wt → Wt;
  wt_update : Wt → Wt;
}.

Class WatchLaws (V Wt : Type) `{!Watch V Wt} : Prop := {
  wt_channel_new v : wt_value (wt_channel v) = v ∧ wt_unseen (wt_channel v) = false;
  wt_send_spec v t : wt_value (wt_send v t) = v ∧ wt_unseen (wt_send v t) = true;
  wt_update_spec t : wt_value (wt_update t) = wt_value t ∧ wt_unseen (wt_update t) = false;
}.

#[global] Instance pair_watch {V} : Watch V (V * bool) := {
  wt_channel v := (v, false);
  wt_value := fst;
  wt_unseen := snd;
  wt_send v _ := (v, true);
  wt_update t := (t.1, false);
}.

#[global] Instance pair_watch_laws {V} : WatchLaws V (V * bool).
Proof. by split. Qed.

(** ** State *)

(** [struct FileBlockData { hash, data }] *)
Record FileBlockData := MkFileBlockData { hash : bytes; data : Loan bytes }.

(** [FileBlockData::new] *)
Definition file_block_data_new (l : Loan bytes) : FileBlockData := MkFileBlockData [] l.

(** What the ordered channel carries. *)
Abbreviation Val := (N * FileBlockData)%type.

(** Where a worker thread is. *)
Inductive WPc :=
  | WOpen
  | WHead
  | WSending (reclaimer : Reclaim)
  | WReclaim (reclaimer : Reclaim)
  | WSeek
  | WFail (e : WorkerError)
  | WClose
  | WExit
  | WDone.

#[global] Instance WPc_eq_dec : EqDecision WPc.
Proof. solve_decision. Defined.

Record WState := MkW { w_vars : Worker; w_pc : WPc }.

(** Where the [HashStream] is: in use; being dropped, in [join]; dropped. *)
Inductive StreamPhase := Live | Joining | Dropped.

(** [p_held] are the blocks the consumer holds, [p_recvd] (history) all it has
    received, [p_hist] (history) all contents the file has had. *)
Record Pipe (Q O Wt : Type) := MkPipe {
  p_chan : Sys Val Q;
  p_workers : gmap N WState;
  p_file : bytes;
  p_loans : O;
  p_err : Wt;
  p_held : list FileBlockData;
  p_stream : StreamPhase;
  p_recvd : list Val;
  p_hist : list bytes;
}.
Arguments MkPipe {Q O Wt}.
Arguments p_chan {Q O Wt} p.
Arguments p_workers {Q O Wt} p.
Arguments p_file {Q O Wt} p.
Arguments p_loans {Q O Wt} p.
Arguments p_err {Q O Wt} p.
Arguments p_held {Q O Wt} p.
Arguments p_stream {Q O Wt} p.
Arguments p_recvd {Q O Wt} p.
Arguments p_hist {Q O Wt} p.

(** What a step shows: a worker's action; its spurious wakeup; the entry of [recv], its value taken
    off the channel, what it returns ([PDeliver], [PEnd], [PError]), its
    cancellation; a block dropped by the consumer; the drop of the stream begun
    and over; the file changed. *)
Inductive PEv :=
  | PWork (i : N)
  | PWake (i : N)
  | PEnter
  | PPop
  | PDeliver (v : Val)
  | PEnd
  | PError (e : WorkerError)
  | PCancel
  | PDropLoan
  | PHsDrop
  | PJoined
  | PEnv.

Section pipeline.
Context {Q O Wt : Type} `{!Mpsc Val Q, !Oneshot bytes O, !Watch (option WorkerError) Wt}.
Context `{!Hashing}.
Context (file_size block_size workers : N) (algorithm : HashAlgorithm).

Definition set_chan (p : Pipe Q O Wt) (c : Sys Val Q) : Pipe Q O Wt :=
  MkPipe c (p_workers p) (p_file p) (p_loans p) (p_err p) (p_held p) (p_stream p)
         (p_recvd p) (p_hist p).
Definition set_worker (p : Pipe Q O Wt) (i : N) (w : WState) : Pipe Q O Wt :=
  MkPipe (p_chan p) (<[i := w]> (p_workers p)) (p_file p) (p_loans p) (p_err p) (p_held p)
         (p_stream p) (p_recvd p) (p_hist p).
Definition set_loans (p : Pipe Q O Wt) (o : O) : Pipe Q O Wt :=
  MkPipe (p_chan p) (p_workers p) (p_file p) o (p_err p) (p_held p) (p_stream p)
         (p_recvd p) (p_hist p).
Definition set_err (p : Pipe Q O Wt) (e : Wt) : Pipe Q O Wt :=
  MkPipe (p_chan p) (p_workers p) (p_file p) (p_loans p) e (p_held p) (p_stream p)
         (p_recvd p) (p_hist p).
Definition set_held (p : Pipe Q O Wt) (h : list FileBlockData) : Pipe Q O Wt :=
  MkPipe (p_chan p) (p_workers p) (p_file p) (p_loans p) (p_err p) h (p_stream p)
         (p_recvd p) (p_hist p).
Definition set_stream (p : Pipe Q O Wt) (s : StreamPhase) : Pipe Q O Wt :=
  MkPipe (p_chan p) (p_workers p) (p_file p) (p_loans p) (p_err p) (p_held p) s
         (p_recvd p) (p_hist p).

(** Lines 88-112 of the loop, on the buffer just read: the hash, the loan and
    the message. *)
Definition make_block_data (buf : bytes) (o : O) : FileBlockData * Reclaim * O :=
  let h := hash_data buf algorithm in
  let '(loaned, reclaimer, o') := loan buf o in
  let block_data := file_block_data_new loaned in
  (MkFileBlockData h (data block_data), reclaimer, o').

(** The loop variables with the buffer moved out. *)
Definition moved (w : Worker) : Worker := MkWorker (offset w) (block_idx w) (pos w) [].
Definition with_buffer (w : Worker) (b : bytes) : Worker :=
  MkWorker (offset w) (block_idx w) (pos w) b.

Inductive pstep (p : Pipe Q O Wt) : PEv → Pipe Q O Wt → Prop :=
  (* worker threads: the file opened and positioned *)
  | ps_open i w :
      p_workers p !! i = Some (MkW w WOpen) →
      pstep p (PWork i) (set_worker p i (MkW w WHead))
  | ps_open_err i w e :
      p_workers p !! i = Some (MkW w WOpen) →
      (∃ k, e = FailedToOpen k ∨ e = FailedToSeek k) →
      pstep p (PWork i) (set_worker p i (MkW w (WFail e)))
  (* the end of the loop, or an error seen *)
  | ps_head_exit i w :
      p_workers p !! i = Some (MkW w WHead) →
      worker_continues file_size w = false ∨ wt_value (p_err p) ≠ None →
      pstep p (PWork i) (set_worker p i (MkW w WExit))
  (* a block read and hashed, its buffer loaned, [send] called *)
  | ps_read i w w1 d r o' c' :
      p_workers p !! i = Some (MkW w WHead) →
      worker_continues file_size w = true → wt_value (p_err p) = None →
      worker_read file_size block_size (p_file p) w = Ok w1 →
      make_block_data (buffer w1) (p_loans p) = (d, r, o') →
      step (p_chan p) (EvCall i (block_idx w1) (block_idx w1, d)) c' →
      pstep p (PWork i)
        (set_worker (set_chan (set_loans p o') c') i (MkW (moved w1) (WSending r)))
  | ps_read_err i w k :
      p_workers p !! i = Some (MkW w WHead) →
      worker_continues file_size w = true → wt_value (p_err p) = None →
      pstep p (PWork i) (set_worker p i (MkW w (WFail (FailedToReadBlock (block_idx w) k))))
  (* inside [send] *)
  | ps_sent i w r idx v c' :
      p_workers p !! i = Some (MkW w (WSending r)) →
      step (p_chan p) (EvSent i idx v) c' →
      pstep p (PWork i) (set_worker (set_chan p c') i (MkW w (WReclaim r)))
  | ps_send_err i w r st c' l' o' :
      p_workers p !! i = Some (MkW w (WSending r)) →
      threads (p_chan p) !! i = Some st →
      step (p_chan p) (EvSendErr i) c' →
      drop_loan (data (t_val st).2) (p_loans p) = Some (l', o') →
      pstep p (PWork i) (set_worker (set_chan (set_loans p o') c') i (MkW w WExit))
  | ps_wait i w r e c' :
      p_workers p !! i = Some (MkW w (WSending r)) →
      e = EvWait i ∨ e = EvBlock i →
      step (p_chan p) e c' →
      pstep p (PWork i) (set_chan p c')
  | ps_wake i w r c' :
      p_workers p !! i = Some (MkW w (WSending r)) →
      step (p_chan p) (EvWake i) c' →
      pstep p (PWake i) (set_chan p c')
  (* the buffer back, the seek to the next block *)
  | ps_reclaim i w r buf o' :
      p_workers p !! i = Some (MkW w (WReclaim r)) →
      blocking_reclaim r (p_loans p) = (Ready buf, o') →
      pstep p (PWork i) (set_worker (set_loans p o') i (MkW (with_buffer w buf) WSeek))
  | ps_seek i w w' :
      p_workers p !! i = Some (MkW w WSeek) →
      worker_advance block_size workers w = Ok w' →
      pstep p (PWork i) (set_worker p i (MkW w' WHead))
  | ps_seek_err i w k :
      p_workers p !! i = Some (MkW w WSeek) →
      pstep p (PWork i) (set_worker p i (MkW w (WFail (FailedToSeekNext k))))
  (* an error: published, the channel closed, the thread ended *)
  | ps_fail i w e :
      p_workers p !! i = Some (MkW w (WFail e)) →
      pstep p (PWork i)
        (set_worker (set_err p (wt_send (Some e) (p_err p))) i (MkW w WClose))
  | ps_close i w c' :
      p_workers p !! i = Some (MkW w WClose) →
      step (p_chan p) EvSenderClose c' →
      pstep p (PWork i) (set_worker (set_chan p c') i (MkW w WExit))
  | ps_exit i w c' :
      p_workers p !! i = Some (MkW w WExit) →
      step (p_chan p) EvSenderDrop c' →
      pstep p (PWork i) (set_worker (set_chan p c') i (MkW w WDone))
  (* [HashStream::recv] *)
  | ps_recv_err e :
      p_stream p = Live → rphase (p_chan p) = RIdle → wt_value (p_err p) = Some e →
      pstep p (PError e) (set_err p (wt_update (p_err p)))
  | ps_enter c' :
      p_stream p = Live → wt_value (p_err p) = None →
      step (p_chan p) EvEnter c' →
      pstep p PEnter (set_err (set_chan p c') (wt_update (p_err p)))
  | ps_pop v c' :
      p_stream p = Live → step (p_chan p) (EvPop v) c' →
      pstep p PPop (set_chan p c')
  | ps_deliver v c' :
      p_stream p = Live → step (p_chan p) (EvExit v) c' →
      pstep p (PDeliver v)
        (MkPipe c' (p_workers p) (p_file p) (p_loans p) (p_err p) (p_held p ++ [v.2])
                (p_stream p) (p_recvd p ++ [v]) (p_hist p))
  | ps_end c' :
      p_stream p = Live → step (p_chan p) EvNone c' →
      pstep p PEnd (set_chan p c')
  | ps_changed e c' :
      p_stream p = Live → wt_unseen (p_err p) = true → wt_value (p_err p) = Some e →
      step (p_chan p) EvCancel c' →
      pstep p (PError e) (set_err (set_chan p c') (wt_update (p_err p)))
  (* the consumer *)
  | ps_cancel c' :
      p_stream p = Live → step (p_chan p) EvCancel c' →
      pstep p PCancel (set_chan p c')
  | ps_drop_block l1 d l2 l' o' :
      p_held p = l1 ++ d :: l2 →
      drop_loan (data d) (p_loans p) = Some (l', o') →
      pstep p PDropLoan (set_held (set_loans p o') (l1 ++ l2))
  (* [HashStream::drop]: the receiver closed, then every worker joined *)
  | ps_hs_drop c' :
      p_stream p = Live → step (p_chan p) EvRecvClose c' →
      pstep p PHsDrop (set_stream (set_chan p c') Joining)
  | ps_joined :
      p_stream p = Joining → map_Forall (λ _ w, w_pc w = WDone) (p_workers p) →
      pstep p PJoined (set_stream p Dropped)
  (* the file is changed by someone *)
  | ps_env f :
      pstep p PEnv
        (MkPipe (p_chan p) (p_workers p) f (p_loans p) (p_err p) (p_held p) (p_stream p)
                (p_recvd p) (f :: p_hist p)).

(** [hash_file]: one sender per worker (the original is dropped), each worker
    before the opening of its file. *)
Definition hash_file (file : bytes) (o : O) : Pipe Q O Wt :=
  MkPipe (with_chan (start (N.to_nat workers))
            (sender_drop (chan (start (N.to_nat workers)))) ∅ RIdle)
         (list_to_map ((λ i, (i, MkW (worker_init block_size i) WOpen)) <$>
            seqN (N.to_nat workers)))
         file o (wt_channel None) [] Live [] [file].

(** The states of the stream of a file; [file_size] is the length [hash_file]
    found. *)
Inductive preach (file : bytes) (o : O) : Pipe Q O Wt → Prop :=
  | preach_init : lenN file = file_size → preach file o (hash_file file o)
  | preach_step p e p' : preach file o p → pstep p e p' → preach file o p'.
End pipeline.
