(* ===== verification/PipelineInv.v ===== *)
(** The invariant of the hashing pipeline of Pipeline.v: the workers and the
    indices they have sent, the flow of values through the channel, the loans,
    the contents of the blocks; each part is preserved by every step. *)

From stdpp Require Import base option list numbers gmap.
From Stdlib Require Import NArith Lia.
From S2P Require Import Prelude AsyncIO Loan OrderedChannel HashFile Pipeline.
#[local] Open Scope N_scope.

(** ** The invariant of the workers *)

(** [calls] is what is inside [send]; [called] what was ever passed to it. *)
Section workers_inv.
Context (file_size block_size workers : N).
#[local] Abbreviation nb := (num_blocks file_size block_size).
Implicit Types (ws : gmap N WState) (cl : gmap N (N * Val)) (ca : list (N * Val)).

(** Before the block [block_idx] is sent, and after. *)
Definition pc_before (pc : WPc) : bool :=
  match pc with WOpen | WHead => true | _ => false end.
Definition pc_after (pc : WPc) : bool :=
  match pc with WSending _ | WReclaim _ | WSeek => true | _ => false end.
Definition pc_sending (pc : WPc) : option Reclaim :=
  match pc with WSending r => Some r | _ => None end.

(** The variables of a worker fit its program point. *)
Definition vars_ok (i : N) (W : WState) : Prop :=
  let k := block_idx (w_vars W) in
  k mod workers = i ∧ offset (w_vars W) = k * block_size
  ∧ (pc_before (w_pc W) = true → k < nb → at_block (file_size:=file_size)
       (block_size:=block_size) (workers:=workers) i k (w_vars W))
  ∧ (pc_after (w_pc W) = true →
       k < nb ∧ pos (w_vars W) = k * block_size + block_len file_size block_size k).

(** The blocks of worker [i] that were passed to [send]. *)
Definition called_ok (i : N) (W : WState) ca : Prop :=
  let k := block_idx (w_vars W) in
  (∀ j, j < k → j < nb → j mod workers = i → j ∈ ca.*1)
  ∧ (∀ j, j ∈ ca.*1 → j mod workers = i → if pc_before (w_pc W) then j < k else j ≤ k)
  ∧ (pc_after (w_pc W) = true → k ∈ ca.*1).

Record workers_inv ws cl ca : Prop := {
  wi_dom i : is_Some (ws !! i) ↔ i < workers;
  wi_nodup : NoDup ca.*1;
  wi_bound : Forall (λ x, x.1 < nb) ca;
  wi_calls i x : cl !! i = Some x →
    ∃ w r, ws !! i = Some (MkW w (WSending r)) ∧ x.1 = block_idx w
      ∧ tx (data x.2.2) = Some (rx r);
  wi_sending i w r : ws !! i = Some (MkW w (WSending r)) → is_Some (cl !! i);
  wi_vars i W : ws !! i = Some W → vars_ok i W;
  wi_called i W : ws !! i = Some W → called_ok i W ca;
}.

Context (Hs : sane file_size block_size workers).

Lemma workers_inv_disciplined ws cl ca : workers_inv ws cl ca → disciplined ca.
Proof.
  intros H. split; [apply H|]. eapply Forall_impl; [apply H|]. intros x Hx.
  simpl in Hx. apply (num_blocks_lt Hs) in Hx. destruct Hs as (H1 & _ & H3). unfold W64. nia.
Qed.

(** A worker outside [send] goes on outside [send]. *)
Lemma workers_inv_move ws cl ca i W W' :
  workers_inv ws cl ca → ws !! i = Some W →
  pc_sending (w_pc W) = None → pc_sending (w_pc W') = None →
  vars_ok i W' → called_ok i W' ca → workers_inv (<[i := W']> ws) cl ca.
Proof.
  intros [D1 D2 D3 D4 D5 D6 D7] HW Hp Hp' Hv Hc. split; try done.
  - intros j. rewrite lookup_insert_is_Some'. rewrite <-D1.
    split; [intros [->|]; [by rewrite HW|done]|by right].
  - intros j x Hx. destruct (D4 _ _ Hx) as (w & r & Hj & H).
    exists w, r. split; [|done]. rewrite lookup_insert_ne; [done|].
    intros ->. rewrite HW in Hj. simplify_eq.
  - intros j w r. rewrite lookup_insert. case_decide; intros; simplify_eq; by apply (D5 j w r).
  - intros j W0. rewrite lookup_insert. case_decide; intros; simplify_eq; auto.
  - intros j W0. rewrite lookup_insert. case_decide; intros; simplify_eq; auto.
Qed.

(** A worker leaves [send]. *)
Lemma workers_inv_leave ws cl ca i w r pc' :
  workers_inv ws cl ca → ws !! i = Some (MkW w (WSending r)) →
  pc' = WReclaim r ∨ pc' = WExit →
  workers_inv (<[i := MkW w pc']> ws) (delete i cl) ca.
Proof.
  intros [D1 D2 D3 D4 D5 D6 D7] HW Hp. split; try done.
  - intros j. rewrite lookup_insert_is_Some'. rewrite <-D1.
    split; [intros [->|]; [by rewrite HW|done]|by right].
  - intros j x [Hne Hx]%lookup_delete_Some. destruct (D4 _ _ Hx) as (w0 & r0 & Hj & H).
    exists w0, r0. split; [|done]. by rewrite lookup_insert_ne.
  - intros j w0 r0. rewrite lookup_insert. case_decide; intros; simplify_eq; [by destruct Hp|].
    rewrite lookup_delete_ne by done. by apply (D5 j w0 r0).
  - intros j W0. rewrite lookup_insert. case_decide; intros; simplify_eq; [|by auto].
    destruct (D6 _ _ HW) as (? & ? & ? & ?). destruct Hp as [-> | ->]; by split_and!.
  - intros j W0. rewrite lookup_insert. case_decide; intros; simplify_eq; [|by auto].
    destruct (D7 _ _ HW) as (? & ? & ?). destruct Hp as [-> | ->]; by split_and!.
Qed.

(** The head of the loop, the block about to be read. *)
Lemma head_at_block i w : vars_ok i (MkW w WHead) → worker_continues file_size w = true →
  block_idx w < nb ∧ at_block (file_size:=file_size)
       (block_size:=block_size) (workers:=workers) i (block_idx w) w.
Proof.
  intros (H1 & H2 & H3 & _) Hc. cbn [w_vars w_pc] in *.
  unfold worker_continues in Hc. apply N.ltb_lt in Hc. rewrite H2 in Hc.
  apply (num_blocks_lt Hs) in Hc. split; [done|]. by apply H3.
Qed.

Lemma head_read i w w1 f : vars_ok i (MkW w WHead) → worker_continues file_size w = true →
  worker_read file_size block_size f w = Ok w1 →
  let k := block_idx w in
  k < nb ∧ k mod workers = i ∧ k * block_size + block_len file_size block_size k ≤ lenN f
  ∧ w1 = MkWorker (k * block_size) k (k * block_size + block_len file_size block_size k)
                  (block file_size block_size f k).
Proof.
  intros Hv Hc E. destruct (head_at_block i w Hv Hc) as [Hk Ha]. cbv zeta.
  rewrite (worker_read_at Hs i _ w f Ha Hk) in E. case_match eqn:El; simplify_eq.
  apply N.leb_le in El. destruct Hv as [Hm _]. by split_and!.
Qed.

(** A worker calls [send]. *)
Lemma workers_inv_call ws cl ca i w w1 r v :
  workers_inv ws cl ca → ws !! i = Some (MkW w WHead) → cl !! i = None →
  block_idx w1 = block_idx w → offset w1 = offset w → block_idx w < nb →
  pos w1 = block_idx w * block_size + block_len file_size block_size (block_idx w) →
  v.1 = block_idx w → tx (data v.2) = Some (rx r) →
  workers_inv (<[i := MkW w1 (WSending r)]> ws)
              (<[i := (block_idx w, v)]> cl) ((block_idx w, v) :: ca).
Proof.
  intros [D1 D2 D3 D4 D5 D6 D7] HW Hn E1 E2 Hk E3 Ev Et.
  destruct (D6 _ _ HW) as (V1 & V2 & _ & _). cbn [w_vars w_pc] in *.
  destruct (D7 _ _ HW) as (C1 & C2 & _). cbn [w_vars w_pc pc_before] in *.
  split.
  - intros j. rewrite lookup_insert_is_Some'. rewrite <-D1.
    split; [intros [->|]; [by rewrite HW|done]|by right].
  - rewrite fmap_cons, NoDup_cons. split; [|done]. intros Hin%C2; [|done]. simpl in Hin. lia.
  - constructor; [done|done].
  - intros j x. rewrite lookup_insert. case_decide; intros Hx; simplify_eq.
    + exists w1, r. by rewrite lookup_insert_eq.
    + destruct (D4 _ _ Hx) as (w0 & r0 & Hj & H0). exists w0, r0.
      by rewrite lookup_insert_ne.
  - intros j w0 r0. rewrite !lookup_insert. case_decide; intros; simplify_eq; [done|].
    by apply (D5 j w0 r0).
  - intros j W0. rewrite lookup_insert. case_decide; intros; simplify_eq; [|by auto].
    unfold vars_ok; cbn [w_vars w_pc]. rewrite E1, E2, E3. split_and!; try done; by intros.
  - intros j W0. rewrite lookup_insert. case_decide; intros Hj; simplify_eq.
    + unfold called_ok; cbn [w_vars w_pc pc_before pc_after]. rewrite E1, fmap_cons.
      split_and!; [| |by left].
      * intros j H1 H2 H3. right. by apply C1.
      * intros j [->|Hj]%elem_of_cons Hm; [done|]. specialize (C2 _ Hj Hm). lia.
    + destruct (D7 _ _ Hj) as (B1 & B2 & B3). unfold called_ok. rewrite fmap_cons.
      split_and!; [| |by right; auto].
      * intros j' H1 H2 H3. right. by apply B1.
      * intros j' [->|Hj']%elem_of_cons Hm; [simpl in Hm; congruence|]. by apply B2.
Qed.

(** Between a block of a worker and its next one, no block is its own. *)
Lemma mod_gap j k : j mod workers = k mod workers → j < k + workers → k < j → False.
Proof.
  intros Hm H1 H2. assert (workers ≠ 0) as Hw by (destruct Hs; lia).
  pose proof (N.div_mod j workers Hw). pose proof (N.div_mod k workers Hw).
  assert (j - k = workers * (j / workers - k / workers)) by nia.
  assert (j / workers - k / workers ≠ 0) by nia.
  assert (workers ≤ workers * (j / workers - k / workers)) by nia. lia.
Qed.

(** The seek to the next block. *)
Lemma seek_next i w w' ca :
  vars_ok i (MkW w WSeek) → called_ok i (MkW w WSeek) ca →
  worker_advance block_size workers w = Ok w' →
  vars_ok i (MkW w' WHead) ∧ called_ok i (MkW w' WHead) ca.
Proof.
  intros (V1 & V2 & _ & V4) (C1 & C2 & C3) E. cbn [w_vars w_pc pc_before pc_after] in *.
  destruct (V4 eq_refl) as [Hk Hp]. destruct w as [off k po buf]; cbn [offset block_idx pos] in *.
  subst off. destruct (worker_advance_at Hs i k po buf Hk V1 Hp)
    as (w2 & E' & _ & H1 & H2 & _ & H4). rewrite E' in E. injection E as ->.
  assert ((k + workers) mod workers = i) as Hm.
  { rewrite <-(N.mul_1_l workers) at 1. by rewrite N.Div0.mod_add. }
  split.
  - unfold vars_ok; cbn [w_vars w_pc pc_before pc_after]. rewrite H2. split_and!; try done.
  - unfold called_ok; cbn [w_vars w_pc pc_before pc_after]. rewrite H2. split_and!; [| |done].
    + intros j Hj Hn Hjm. destruct (decide (j < k)); [by apply C1|].
      destruct (decide (j = k)) as [->|]; [by apply C3|].
      exfalso. apply (mod_gap j k); [congruence|done|lia].
    + intros j Hj Hjm. specialize (C2 j Hj Hjm). destruct Hs as (_ & ? & _). lia.
Qed.
End workers_inv.

(** ** The invariant of the loans *)

(** The reclaimer a worker holds. *)
Definition owner (pc : WPc) : option Reclaim :=
  match pc with WSending r | WReclaim r => Some r | _ => None end.

Section loans_inv.
Context {O : Type} `{!Oneshot bytes O, !OneshotLaws bytes O}.
Implicit Types (ws : gmap N WState) (o : O) (fl : list FileBlockData).

(** [fl] are the blocks on their way: buffered in the channel, inside [recv] or
    held by the consumer.  Each is the loan of one worker, which waits for it. *)
Record loans_inv ws o fl : Prop := {
  li_sending i w r : ws !! i = Some (MkW w (WSending r)) → os_state o (rx r) = OsEmpty;
  li_reclaim i w r : ws !! i = Some (MkW w (WReclaim r)) →
    (os_state o (rx r) = OsEmpty ∧ ∃ d, d ∈ fl ∧ tx (data d) = Some (rx r))
    ∨ ∃ b, os_state o (rx r) = OsSent b;
  li_owner i j Wi Wj ri rj : ws !! i = Some Wi → ws !! j = Some Wj →
    owner (w_pc Wi) = Some ri → owner (w_pc Wj) = Some rj → rx ri = rx rj → i = j;
  li_nodup : NoDup ((λ d, tx (data d)) <$> fl);
  li_flight d : d ∈ fl → ∃ i w r, ws !! i = Some (MkW w (WReclaim r))
    ∧ tx (data d) = Some (rx r) ∧ os_state o (rx r) = OsEmpty;
}.

Lemma loans_inv_perm ws o fl fl' : fl ≡ₚ fl' → loans_inv ws o fl → loans_inv ws o fl'.
Proof.
  intros Hp [L1 L2 L3 L4 L5]. split; try done.
  - intros i w r HW. destruct (L2 i w r HW) as [(? & d & Hd & ?)|]; [left|by right].
    split; [done|]. exists d. by rewrite <-Hp.
  - by rewrite <-Hp.
  - intros d. rewrite <-Hp. apply L5.
Qed.

(** A worker that owns nothing goes on owning nothing. *)
Lemma loans_inv_move ws o fl i W W' :
  loans_inv ws o fl → ws !! i = Some W → owner (w_pc W) = None → owner (w_pc W') = None →
  loans_inv (<[i := W']> ws) o fl.
Proof.
  intros [L1 L2 L3 L4 L5] HW Ho Ho'. split; try done.
  - intros j w r [[-> ->]|[_ Hj]]%lookup_insert_Some; [done|by apply (L1 j w r)].
  - intros j w r [[-> ->]|[_ Hj]]%lookup_insert_Some; [done|by apply (L2 j w r)].
  - intros j k Wj Wk rj rk [[-> <-]|[_ Hj]]%lookup_insert_Some
      [[-> <-]|[_ Hk]]%lookup_insert_Some; [done|congruence|congruence|].
    by apply (L3 j k Wj Wk rj rk).
  - intros d Hd. destruct (L5 d Hd) as (j & w & r & Hj & H). exists j, w, r.
    rewrite lookup_insert_ne; [done|]. intros ->. rewrite HW in Hj. by simplify_eq.
Qed.

(** A loan is made. *)
Lemma loans_inv_call ws o o' fl i W w r :
  loans_inv ws o fl → ws !! i = Some W → owner (w_pc W) = None →
  os_state o (rx r) = OsAbsent → os_state o' (rx r) = OsEmpty →
  (∀ j, j ≠ rx r → os_state o' j = os_state o j) →
  loans_inv (<[i := MkW w (WSending r)]> ws) o' fl.
Proof.
  intros [L1 L2 L3 L4 L5] HW Ho Ha He Hfr.
  assert (∀ j Wj rj, ws !! j = Some Wj → owner (w_pc Wj) = Some rj → rx rj ≠ rx r) as Hne.
  { intros j [wj pcj] rj Hj Hoj E. destruct pcj; simpl in Hoj; simplify_eq.
    - rewrite <-E, (L1 _ _ _ Hj) in Ha. done.
    - rewrite <-E in Ha. destruct (L2 _ _ _ Hj) as [[? _]|[? ?]]; congruence. }
  split.
  - intros j w0 r0 [[-> Hj]|[_ Hj]]%lookup_insert_Some; [by simplify_eq|].
    rewrite Hfr; [by apply (L1 j w0 r0)|by eapply Hne].
  - intros j w0 r0 [[-> Hj]|[_ Hj]]%lookup_insert_Some; [by simplify_eq|].
    rewrite Hfr; [by apply (L2 j w0 r0)|by eapply Hne].
  - intros j k Wj Wk rj rk [[-> <-]|[_ Hj]]%lookup_insert_Some
      [[-> <-]|[_ Hk]]%lookup_insert_Some; cbn [w_pc owner]; [done| | |].
    + intros E1 E2 E; simplify_eq. by destruct (Hne k Wk rk Hk E2).
    + intros E1 E2 E; simplify_eq. by destruct (Hne j Wj rj Hj E1).
    + by apply (L3 j k Wj Wk rj rk).
  - done.
  - intros d Hd. destruct (L5 d Hd) as (j & w0 & r0 & Hj & H1 & H2). exists j, w0, r0.
    rewrite lookup_insert_ne by (intros ->; rewrite HW in Hj; by simplify_eq).
    rewrite Hfr; [done|]. by eapply Hne.
Qed.

(** The value with the loan enters the channel. *)
Lemma loans_inv_sent ws o fl i w r d :
  loans_inv ws o fl → ws !! i = Some (MkW w (WSending r)) → tx (data d) = Some (rx r) →
  loans_inv (<[i := MkW w (WReclaim r)]> ws) o (d :: fl).
Proof.
  intros [L1 L2 L3 L4 L5] HW Ht. pose proof (L1 _ _ _ HW) as He. split.
  - intros j w0 r0 [[-> Hj]|[_ Hj]]%lookup_insert_Some; [by simplify_eq|by apply (L1 j w0 r0)].
  - intros j w0 r0 [[-> Hj]|[_ Hj]]%lookup_insert_Some.
    + simplify_eq. left. split; [done|]. exists d. by split; [left|].
    + destruct (L2 j w0 r0 Hj) as [(? & d0 & Hd & ?)|]; [left|by right].
      split; [done|]. exists d0. by split; [right|].
  - intros j k Wj Wk rj rk [[-> <-]|[_ Hj]]%lookup_insert_Some
      [[-> <-]|[_ Hk]]%lookup_insert_Some; cbn [w_pc owner]; intros E1 E2 E; [done| | |].
    + apply (L3 j k _ Wk r rk HW Hk eq_refl E2). congruence.
    + apply (L3 j k Wj _ rj r Hj HW E1 eq_refl). congruence.
    + by apply (L3 j k Wj Wk rj rk).
  - rewrite fmap_cons, NoDup_cons. split; [|done]. rewrite list_elem_of_fmap, Ht.
    intros (d0 & E & Hd). destruct (L5 d0 Hd) as (j & w0 & r0 & Hj & H1 & _).
    assert (i = j) as <-; [|rewrite HW in Hj; by simplify_eq].
    apply (L3 i j _ _ r r0 HW Hj eq_refl eq_refl). congruence.
  - intros d0 [->|Hd]%elem_of_cons.
    + exists i, w, r. by rewrite lookup_insert_eq.
    + destruct (L5 d0 Hd) as (j & w0 & r0 & Hj & H1 & H2). exists j, w0, r0.
      rewrite lookup_insert_ne; [done|]. intros ->. rewrite HW in Hj. by simplify_eq.
Qed.

(** A worker gives up what it owns, no block of which is on its way. *)
Lemma loans_inv_release ws o o' fl i W W' r :
  loans_inv ws o fl → ws !! i = Some W → owner (w_pc W) = Some r → owner (w_pc W') = None →
  (∀ d, d ∈ fl → tx (data d) ≠ Some (rx r)) →
  (∀ j, j ≠ rx r → os_state o' j = os_state o j) →
  loans_inv (<[i := W']> ws) o' fl.
Proof.
  intros [L1 L2 L3 L4 L5] HW Ho Ho' Hd Hfr.
  assert (∀ j Wj rj, i ≠ j → ws !! j = Some Wj → owner (w_pc Wj) = Some rj → rx rj ≠ rx r) as Hne.
  { intros j Wj rj Hij Hj Hoj E. apply Hij. by apply (L3 i j W Wj r rj). }
  split.
  - intros j w0 r0 [[-> ->]|[Hij Hj]]%lookup_insert_Some; [done|].
    rewrite Hfr; [by apply (L1 j w0 r0)|by eapply Hne].
  - intros j w0 r0 [[-> ->]|[Hij Hj]]%lookup_insert_Some; [done|].
    rewrite Hfr; [by apply (L2 j w0 r0)|by eapply Hne].
  - intros j k Wj Wk rj rk [[-> <-]|[_ Hj]]%lookup_insert_Some
      [[-> <-]|[_ Hk]]%lookup_insert_Some; [done|congruence|congruence|].
    by apply (L3 j k Wj Wk rj rk).
  - done.
  - intros d Hin. destruct (L5 d Hin) as (j & w0 & r0 & Hj & H1 & H2). exists j, w0, r0.
    assert (rx r0 ≠ rx r) as Hr0 by (intros E; apply (Hd d Hin); congruence).
    rewrite Hfr by done. rewrite lookup_insert_ne; [done|]. intros ->. rewrite HW in Hj.
    simplify_eq. cbn in Ho. congruence.
Qed.

(** A block is dropped: its buffer goes back. *)
Lemma loans_inv_drop ws o o' fl d i v :
  loans_inv ws o (d :: fl) → tx (data d) = Some i →
  os_state o' i = OsSent v → (∀ j, j ≠ i → os_state o' j = os_state o j) →
  loans_inv ws o' fl.
Proof.
  intros [L1 L2 L3 L4 L5] Ht Hse Hfr.
  destruct (L5 d) as (k & wk & rk & Hk & Htk & Hek); [by left|].
  assert (rx rk = i) as Hrk by congruence.
  rewrite fmap_cons, NoDup_cons in L4. destruct L4 as [L4 L4'].
  assert (∀ d0, d0 ∈ fl → tx (data d0) ≠ Some i) as Hd0.
  { intros d0 Hd E. apply L4. rewrite list_elem_of_fmap. exists d0. by rewrite Ht, E. }
  split; try done.
  - intros j w r Hj. rewrite Hfr; [by apply (L1 j w r)|]. intros E.
    assert (j = k) as ->; [|by simplify_eq].
    apply (L3 j k _ _ r rk Hj Hk eq_refl eq_refl). congruence.
  - intros j w r Hj. destruct (decide (rx r = i)) as [E|E]; [rewrite E; eauto|].
    rewrite Hfr by done. destruct (L2 j w r Hj) as [(H1 & d0 & [->|Hd]%elem_of_cons & H3)|];
      [congruence|eauto|eauto].
  - intros d0 Hd. destruct (L5 d0) as (j & w & r & Hj & H1 & H2); [by right|].
    exists j, w, r. rewrite Hfr; [done|]. intros E. apply (Hd0 d0 Hd). congruence.
Qed.

(** The blocks on their way are at most as many as the workers. *)
Lemma loans_inv_bound ws o fl : loans_inv ws o fl → (length fl ≤ size ws)%nat.
Proof.
  intros L.
  set (own := (λ x : N * WState, rx <$> owner (w_pc x.2)) <$> map_to_list ws).
  assert ((λ d, tx (data d)) <$> fl ⊆+ own) as Hsub.
  { apply NoDup_submseteq; [apply L|]. intros x. rewrite list_elem_of_fmap.
    intros (d & -> & Hd). destruct (li_flight _ _ _ L d Hd) as (i & w & r & Hi & -> & _).
    apply list_elem_of_fmap. exists (i, MkW w (WReclaim r)). split; [done|].
    by apply elem_of_map_to_list. }
  apply submseteq_length in Hsub. unfold own in Hsub. rewrite !length_fmap in Hsub.
  by rewrite length_map_to_list in Hsub.
Qed.
End loans_inv.

(** ** The invariant of the pipeline: the channel and the workers *)

Section base.
Context {Q O Wt : Type} `{!Mpsc Val Q, !MpscLaws Val Q, !Oneshot bytes O, !OneshotLaws bytes O}.
Context `{!Watch (option WorkerError) Wt, !WatchLaws (option WorkerError) Wt} {Hsh : Hashing}.
Context {file_size block_size workers : N} {algorithm : HashAlgorithm}.
Context (Hs : sane file_size block_size workers).
#[local] Abbreviation nb := (num_blocks file_size block_size).
#[local] Abbreviation pipe := (Pipe Q O Wt).
#[local] Abbreviation pstep' := (pstep file_size block_size workers algorithm).
#[local] Abbreviation preach' := (preach file_size block_size workers algorithm).
Implicit Types p : pipe.

Record base_inv p : Prop := {
  bi_reach : reachable (p_chan p);
  bi_workers : workers_inv file_size block_size workers
                 (p_workers p) (calls (p_chan p)) (called (p_chan p));
}.

Lemma base_chan_inv p : base_inv p → inv (p_chan p).
Proof.
  intros [H1 H2]. apply reachable_inv; [done|]. by apply (workers_inv_disciplined _ _ _ Hs _ _ _ H2).
Qed.

Lemma base_effect p e c' : base_inv p → step (p_chan p) e c' → effect (p_chan p) e c'.
Proof. intros Hb. by apply step_effect, base_chan_inv. Qed.

(** The loan of a block and its message. *)
Lemma make_block_data_spec buf (o : O) d r o' :
  make_block_data algorithm buf o = (d, r, o') →
  hash d = hash_data buf algorithm ∧ deref (data d) = buf ∧ tx (data d) = Some (rx r)
  ∧ os_state o (rx r) = OsAbsent ∧ os_state o' (rx r) = OsEmpty
  ∧ ∀ j, j ≠ rx r → os_state o' j = os_state o j.
Proof.
  unfold make_block_data, loan. destruct (os_channel o) as [i o1] eqn:E.
  intros ?; simplify_eq; simpl. by apply os_channel_fresh in E.
Qed.

(** The initial state. *)
Lemma hash_file_workers file (o : O) i W :
  p_workers (hash_file (Q:=Q) (Wt:=Wt) block_size workers file o) !! i = Some W ↔
  i < workers ∧ W = MkW (worker_init block_size i) WOpen.
Proof.
  unfold hash_file; cbn [p_workers].
  rewrite <-elem_of_list_to_map.
  - rewrite list_elem_of_fmap. setoid_rewrite elem_of_seqN. rewrite N2Nat.id.
    split; [intros (j & E & Hj); by simplify_eq|]. intros [H ->]. by exists i.
  - rewrite <-list_fmap_compose. apply NoDup_fmap_2; [intros ??; done|].
    unfold seqN. apply NoDup_fmap_2; [|apply NoDup_seq]. intros x y. apply Nat2N.inj.
Qed.

Lemma hash_file_chan file (o : O) :
  let c := p_chan (hash_file (Wt:=Wt) block_size workers file o) in
  reachable c ∧ calls c = (∅ : gmap N (N * Val)) ∧ called c = [] ∧ sent c = [] ∧ taken c = []
  ∧ items c = [] ∧ closed c = false ∧ senders c = N.to_nat workers ∧ rphase c = RIdle.
Proof.
  cbv zeta. unfold hash_file; cbn [p_chan].
  set (s := start (T:=Val) (Q:=Q) (N.to_nat workers)).
  assert (reachable s) as Hr by apply start_reachable.
  assert (step s EvSenderDrop (with_chan s (sender_drop (chan s)) ∅ RIdle)) as Hst
    by apply (step_sender_drop s).
  assert (inv s) as Hinv by (apply reachable_inv; [done|by split; [constructor|]]).
  pose proof (step_effect _ _ _ Hinv Hst) as (H1 & H2 & H3 & H4 & H5 & H6).
  assert (items s = [] ∧ closed s = false ∧ senders s = S (N.to_nat workers)) as (I1 & I2 & I3).
  { unfold items, closed, senders, s, start; cbn [chan].
    generalize (N.to_nat workers) as n. induction n as [|n (IH1 & IH2 & IH3)].
    - destruct (mp_channel_new (T:=Val) (Q:=Q) 1) as (? & ? & ? & ?). by split_and!.
    - rewrite Nat.iter_succ. set (c := Nat.iter n sender_clone ordered_channel) in *.
      clearbody c. unfold sender_clone; cbn [inner state].
      destruct (mp_clone_spec (T:=Val) (inner c)) as (-> & _ & _ & ->). by rewrite IH3. }
  split_and!; try done; [by eapply reach_step|congruence..|by rewrite H4, I3].
Qed.

Lemma hash_file_base file (o : O) : base_inv (hash_file block_size workers file o).
Proof.
  destruct (hash_file_chan file o) as (H1 & H2 & H3 & _). split; [done|].
  rewrite H2, H3. split.
  - intros i. split.
    + intros [W HW]. by apply hash_file_workers in HW as [? _].
    + intros H. eexists. by apply hash_file_workers.
  - apply NoDup_nil_2.
  - apply Forall_nil_2.
  - intros i x Hx. by rewrite lookup_empty in Hx.
  - intros i w r HW. by apply hash_file_workers in HW as [_ ?].
  - intros i W HW. apply hash_file_workers in HW as [Hi ->].
    pose proof (worker_init_at Hs i Hi) as Ha. pose proof Ha as (A1 & A2 & _ & A4 & _).
    unfold vars_ok; cbn [w_vars w_pc]. rewrite A2. by split_and!.
  - intros i W HW. apply hash_file_workers in HW as [Hi ->].
    unfold called_ok; cbn [w_vars w_pc pc_before pc_after].
    assert (block_idx (worker_init block_size i) = i) as -> by done.
    split_and!; [|by intros ? ?%not_elem_of_nil|done].
    intros j Hj _ Hm. rewrite N.mod_small in Hm by lia. lia.
Qed.

(** A step that leaves the workers and the calls as they are. *)
Lemma base_keep p p' e c' :
  base_inv p → step (p_chan p) e c' → p_chan p' = c' → p_workers p' = p_workers p →
  calls c' = calls (p_chan p) → called c' = called (p_chan p) → base_inv p'.
Proof.
  intros [H1 H2] Hst <- Hw Hc Hca. split; [by eapply reach_step|]. by rewrite Hw, Hc, Hca.
Qed.

(** A step of one worker outside [send]. *)
Lemma base_move p p' i W W' :
  base_inv p → p_workers p !! i = Some W →
  p_workers p' = <[i := W']> (p_workers p) → reachable (p_chan p') →
  calls (p_chan p') = calls (p_chan p) → called (p_chan p') = called (p_chan p) →
  pc_sending (w_pc W) = None → pc_sending (w_pc W') = None →
  vars_ok file_size block_size workers i W' →
  called_ok file_size block_size workers i W' (called (p_chan p)) → base_inv p'.
Proof.
  intros [H1 H2] HW E1 E2 E3 E4 Hp Hp' Hv Hc. split; [done|]. rewrite E1, E3, E4.
  by apply (workers_inv_move _ _ _ _ _ _ i W).
Qed.

(** The variables stay, the program point moves on the same side of [send]. *)
Lemma vars_ok_pc i w pc pc' :
  vars_ok file_size block_size workers i (MkW w pc) →
  (pc_before pc' = true → pc_before pc = true) → (pc_after pc' = true → pc_after pc = true) →
  vars_ok file_size block_size workers i (MkW w pc').
Proof. intros (V1 & V2 & V3 & V4) B A. split_and!; cbn [w_vars w_pc] in *; auto. Qed.

Lemma called_ok_pc i w pc pc' ca :
  called_ok file_size block_size workers i (MkW w pc) ca →
  pc_before pc' = pc_before pc ∨ pc_before pc' = false →
  (pc_after pc' = true → pc_after pc = true) →
  called_ok file_size block_size workers i (MkW w pc') ca.
Proof.
  intros (C1 & C2 & C3) Hb Ha. unfold called_ok in *; cbn [w_vars w_pc] in *.
  split_and!; [done| |auto].
  intros j Hj Hm. specialize (C2 j Hj Hm). destruct Hb as [-> | ->]; [done|].
  destruct (pc_before pc); lia.
Qed.

(** The block a worker reads, and its call of [send]. *)
Lemma read_step p i w w1 d r o' c' :
  base_inv p → p_workers p !! i = Some (MkW w WHead) →
  worker_continues file_size w = true →
  worker_read file_size block_size (p_file p) w = Ok w1 →
  make_block_data algorithm (buffer w1) (p_loans p) = (d, r, o') →
  step (p_chan p) (EvCall i (block_idx w1) (block_idx w1, d)) c' →
  let k := block_idx w in
  k < nb ∧ k mod workers = i ∧ block_idx w1 = k ∧ (k ∉ (called (p_chan p)).*1)
  ∧ hash d = hash_data (block file_size block_size (p_file p) k) algorithm
  ∧ deref (data d) = block file_size block_size (p_file p) k
  ∧ k * block_size + block_len file_size block_size k ≤ lenN (p_file p)
  ∧ tx (data d) = Some (rx r)
  ∧ workers_inv file_size block_size workers
      (<[i := MkW (moved w1) (WSending r)]> (p_workers p)) (calls c') (called c').
Proof.
  intros Hb HW Hc E Em Hst. destruct (base_effect _ _ _ Hb Hst) as (F1 & F2 & F3 & _).
  destruct Hb as [_ Hw]. pose proof (wi_vars _ _ _ _ _ _ Hw _ _ HW) as Hv.
  pose proof (head_read _ _ _ Hs i w w1 _ Hv Hc E) as (Hk & Hm & Hl & ->).
  cbn [block_idx buffer] in *. destruct (make_block_data_spec _ _ _ _ _ Em) as (M1 & M2 & M3 & _).
  destruct (wi_called _ _ _ _ _ _ Hw _ _ HW) as (_ & C2 & _). cbn [w_vars w_pc pc_before] in C2.
  cbv zeta. split_and!; try done.
  - intros Hin. specialize (C2 _ Hin Hm). lia.
  - rewrite F2, F3. apply (workers_inv_call _ _ _ _ _ _ i w); try done.
    unfold moved; cbn [offset]. by destruct Hv as (_ & ? & _).
Qed.

Lemma base_step p e p' : base_inv p → pstep' p e p' → base_inv p'.
Proof.
  intros Hb Hst. pose proof Hb as [Hr Hw].
  pose proof (λ i W, wi_vars _ _ _ _ _ _ Hw i W) as Hv.
  pose proof (λ i W, wi_called _ _ _ _ _ _ Hw i W) as Hc.
  assert (∀ i w pc pc' p', p_workers p !! i = Some (MkW w pc) →
    p_workers p' = <[i := MkW w pc']> (p_workers p) → reachable (p_chan p') →
    calls (p_chan p') = calls (p_chan p) → called (p_chan p') = called (p_chan p) →
    pc_sending pc = None → pc_sending pc' = None →
    (pc_before pc' = true → pc_before pc = true) → (pc_after pc' = true → pc_after pc = true) →
    base_inv p') as Hmove.
  { intros i w pc pc' p2 HW E1 E2 E3 E4 S1 S2 B A. eapply (base_move p p2); try done.
    - by apply vars_ok_pc with pc; auto.
    - apply called_ok_pc with pc; auto. destruct (pc_before pc'); [left; symmetry; auto|by right]. }
  destruct Hst as [i w HW|i w e HW _|i w HW _|i w w1 d r o' c' HW Hct Her E Em Hst|i w k HW _ _
    |i w r idx v c' HW Hst|i w r st c' l' o' HW Hst' Hst _|i w r e c' HW He Hst|i w r c' HW Hst
    |i w r buf o' HW _|i w w' HW E|i w k HW|i w e HW|i w c' HW Hst|i w c' HW Hst
    |e Hl Hi He|c' Hl He Hst|v c' Hl Hst|v c' Hl Hst|c' Hl Hst|e c' Hl Hu He Hst|c' Hl Hst
    |l1 d l2 l' o' E1 E2|c' Hl Hst|Hj Hall|f].
  all: try (pose proof (base_effect _ _ _ Hb Hst) as F; unfold effect, same_flow in F).
  all: try (eapply Hmove; [exact HW|reflexivity|exact Hr|reflexivity..|done|done]).
  all: try (by eapply (base_keep p); [done|exact Hst|reflexivity..| |]; tauto).
  - (* a block read *)
    pose proof (read_step _ _ _ _ _ _ _ _ Hb HW Hct E Em Hst) as (_&_&_&_&_&_&_&_&Hw').
    split; [by eapply reach_step|done].
  - (* sent *)
    destruct F as (_ & F2 & F3 & _). split; [by eapply reach_step|].
    cbn [set_worker set_chan p_workers p_chan]. rewrite F2, F3.
    by apply (workers_inv_leave _ _ _ _ _ _ i w r); [| |left].
  - (* the send failed *)
    destruct F as (_ & F2 & F3 & _). split; [by eapply reach_step|].
    cbn [set_worker set_chan set_loans p_workers p_chan]. rewrite F2, F3.
    by apply (workers_inv_leave _ _ _ _ _ _ i w r); [| |right].
  - destruct He as [-> | ->]; destruct F as [(F1 & F2 & _) _];
      by apply (base_keep p _ _ c' Hb Hst).
  - (* the buffer back *)
    eapply (base_move p); [done|exact HW|reflexivity|done|reflexivity..| |].
    + by apply (vars_ok_pc i w (WReclaim r) WSeek (Hv _ _ HW)).
    + by apply (called_ok_pc i w (WReclaim r) WSeek _ (Hc _ _ HW)); [left|].
  - (* the seek *)
    destruct (seek_next _ _ _ Hs _ _ _ _ (Hv _ _ HW) (Hc _ _ HW) E) as [Hv' Hc'].
    by eapply (base_move p); [done|exact HW|reflexivity|done|reflexivity..| |].
  - destruct F as [(F1 & F2 & _) _].
    eapply Hmove; [exact HW|reflexivity|by eapply reach_step|done..].
  - destruct F as [(F1 & F2 & _) _].
    eapply Hmove; [exact HW|reflexivity|by eapply reach_step|done..].
  - by split.
  - by split.
  - by split.
  - by split.
Qed.

(** ** What has been received, and how the stream ends *)

Definition got p : list Val := match rphase (p_chan p) with RGot v => [v] | _ => [] end.

(** The workers that have not dropped their sender. *)
Definition alive (ws : gmap N WState) : gmap N WState :=
  filter (λ x, w_pc x.2 ≠ WDone) ws.

Record flow_inv p : Prop := {
  fi_recvd : taken (p_chan p) = p_recvd p ++ got p;
  fi_called x : x ∈ called (p_chan p) →
    x ∈ sent (p_chan p) ∨ (∃ t, calls (p_chan p) !! t = Some x) ∨ closed (p_chan p) = true;
  fi_senders : senders (p_chan p) = size (alive (p_workers p));
  fi_closed : closed (p_chan p) = true → wt_value (p_err p) ≠ None ∨ p_stream p ≠ Live;
  fi_over : p_stream p ≠ Live → closed (p_chan p) = true ∧ rphase (p_chan p) = RIdle;
  fi_close i w : p_workers p !! i = Some (MkW w WClose) → wt_value (p_err p) ≠ None;
  fi_exit i w pc : p_workers p !! i = Some (MkW w pc) → pc = WExit ∨ pc = WDone →
    nb ≤ block_idx w ∨ wt_value (p_err p) ≠ None ∨ closed (p_chan p) = true;
  fi_err : wt_value (p_err p) ≠ None →
    closed (p_chan p) = true ∨ ∃ i w, p_workers p !! i = Some (MkW w WClose);
}.

Lemma size_alive_move ws i W W' :
  ws !! i = Some W → w_pc W ≠ WDone → w_pc W' ≠ WDone →
  size (alive (<[i := W']> ws)) = size (alive ws).
Proof.
  intros HW H1 H2. unfold alive. rewrite map_filter_insert_True by done.
  apply map_size_insert_Some. exists W. by apply map_lookup_filter_Some.
Qed.

Lemma size_alive_done ws i W W' :
  ws !! i = Some W → w_pc W ≠ WDone → w_pc W' = WDone →
  size (alive (<[i := W']> ws)) = pred (size (alive ws)).
Proof.
  intros HW H1 H2. unfold alive. rewrite map_filter_insert_False by (simpl; intros H; by apply H).
  rewrite map_filter_delete, map_size_delete_Some; [done|].
  exists W. by apply map_lookup_filter_Some.
Qed.

Lemma alive_none ws i W : size (alive ws) = 0%nat → ws !! i = Some W → w_pc W = WDone.
Proof.
  intros Hsz HW. apply map_size_empty_iff in Hsz.
  destruct (decide (w_pc W = WDone)) as [|Hn]; [done|].
  assert (alive ws !! i = Some W) as Ha by (by apply map_lookup_filter_Some).
  rewrite Hsz in Ha. by rewrite lookup_empty in Ha.
Qed.

(** A step of a worker. *)
Lemma flow_worker p p' i W W' :
  flow_inv p → p_workers p !! i = Some W → w_pc W ≠ WDone →
  p_workers p' = <[i := W']> (p_workers p) →
  rphase (p_chan p') = rphase (p_chan p) → taken (p_chan p') = taken (p_chan p) →
  p_recvd p' = p_recvd p → p_stream p' = p_stream p →
  (wt_value (p_err p) ≠ None → wt_value (p_err p') ≠ None) →
  (closed (p_chan p) = true → closed (p_chan p') = true) →
  (closed (p_chan p') = true → closed (p_chan p) = true ∨ wt_value (p_err p') ≠ None) →
  (∀ x, x ∈ called (p_chan p') →
    x ∈ sent (p_chan p') ∨ (∃ t, calls (p_chan p') !! t = Some x) ∨ closed (p_chan p') = true) →
  senders (p_chan p') = (if decide (w_pc W' = WDone) then pred else id) (senders (p_chan p)) →
  (w_pc W' = WClose → wt_value (p_err p') ≠ None) →
  (wt_value (p_err p') ≠ None → wt_value (p_err p) ≠ None ∨ w_pc W' = WClose) →
  (w_pc W = WClose → closed (p_chan p') = true) →
  (w_pc W' = WExit ∨ w_pc W' = WDone →
    nb ≤ block_idx (w_vars W') ∨ wt_value (p_err p') ≠ None ∨ closed (p_chan p') = true) →
  flow_inv p'.
Proof.
  intros [F1 F2 F3 F4 F5 F6 F7 F8] HW Hpc E1 E2 E3 E4 E5 Herr Hcl Hcl' Hca Hse Hclose He1 He2 Hexit.
  split.
  - unfold got. by rewrite E2, E3, E4.
  - done.
  - rewrite Hse, E1, F3. case_decide as Hd; [|by rewrite (size_alive_move _ _ W)].
    by rewrite (size_alive_done _ _ W).
  - rewrite E5. intros [H|H]%Hcl'; [|by left]. destruct (F4 H); auto.
  - rewrite E2, E5. intros H. destruct (F5 H). auto.
  - clear Hse. intros j w. rewrite E1, lookup_insert. case_decide; intros Hj; simplify_eq; [by auto|].
    apply Herr, (F6 j w Hj).
  - clear Hse. intros j w pc. rewrite E1, lookup_insert. case_decide; intros Hj Hp; simplify_eq; [by auto|].
    destruct (F7 j w pc Hj Hp) as [|[|]]; auto.
  - clear Hse. rewrite E1. intros [He|He]%He1.
    + destruct (F8 He) as [|(j & w & Hj)]; [by left; auto|].
      destruct (decide (i = j)) as [->|Hne].
      * left. apply He2. rewrite HW in Hj. by simplify_eq.
      * right. exists j, w. by rewrite lookup_insert_ne.
    + right. exists i, (w_vars W'). rewrite lookup_insert_eq. destruct W'; cbn in *. by subst.
Qed.

(** A step of the receiver. *)
Lemma flow_recv p p' :
  flow_inv p → p_workers p' = p_workers p →
  same_flow (p_chan p) (p_chan p') → senders (p_chan p') = senders (p_chan p) →
  wt_value (p_err p') = wt_value (p_err p) →
  (closed (p_chan p) = true → closed (p_chan p') = true) →
  taken (p_chan p') = p_recvd p' ++ got p' →
  (closed (p_chan p') = true → wt_value (p_err p) ≠ None ∨ p_stream p' ≠ Live) →
  (p_stream p' ≠ Live → closed (p_chan p') = true ∧ rphase (p_chan p') = RIdle) →
  flow_inv p'.
Proof.
  intros [F1 F2 F3 F4 F5 F6 F7 F8] E1 (E2 & E3 & E4) E5 E6 Hcl Ht Hc Ho. split; try done.
  - intros x. rewrite E2, E3, E4. intros H. destruct (F2 x H) as [|[|]]; auto.
  - by rewrite E5, E1.
  - by rewrite E6.
  - intros i w. rewrite E1, E6. apply F6.
  - intros i w pc. rewrite E1, E6. intros H Hp. destruct (F7 i w pc H Hp) as [|[|]]; auto.
  - rewrite E6, E1. intros He. destruct (F8 He); auto.
Qed.

Lemma called_sent_keep p c' :
  flow_inv p → same_flow (p_chan p) c' → (closed (p_chan p) = true → closed c' = true) →
  ∀ x, x ∈ called c' →
    x ∈ sent c' ∨ (∃ t, calls c' !! t = Some x) ∨ closed c' = true.
Proof.
  intros F (E1 & E2 & E3) Hc x. rewrite E1, E2, E3. intros H.
  destruct (fi_called _ F x H) as [|[|]]; auto.
Qed.

(** A worker calls [send], which gives its value or fails. *)
Lemma flow_call p i w w1 r o' idx v c' :
  flow_inv p → p_workers p !! i = Some (MkW w WHead) → effect (p_chan p) (EvCall i idx v) c' →
  flow_inv (set_worker (set_chan (set_loans p o') c') i (MkW w1 (WSending r))).
Proof.
  intros Hf HW (F1 & F2 & F3 & F4 & F5 & F6 & F7 & F8 & F9).
  eapply (flow_worker p); [done|exact HW|done|reflexivity|..]; cbn; try done; try by left.
  - by rewrite F5.
  - by rewrite F5; left.
  - intros x. rewrite F2, F3, F5, F8. intros [->|Hx]%elem_of_cons.
    { right; left. exists i. by rewrite lookup_insert_eq. }
    destruct (fi_called _ Hf x Hx) as [|[[t Ht]|]]; auto. right; left. exists t.
    rewrite lookup_insert_ne; [done|]. intros ->. congruence.
  - by intros [|].
Qed.

Lemma flow_sent p i w r idx v c' :
  flow_inv p → p_workers p !! i = Some (MkW w (WSending r)) → effect (p_chan p) (EvSent i idx v) c' →
  flow_inv (set_worker (set_chan p c') i (MkW w (WReclaim r))).
Proof.
  intros Hf HW (F1 & F2 & F3 & F4 & F5 & F6 & F7 & F8 & F9 & F10).
  eapply (flow_worker p); [done|exact HW|done|reflexivity|..]; cbn; try done; try by left.
  - by rewrite F7.
  - by rewrite F7; left.
  - intros x. rewrite F2, F3, F4, F7. intros Hx.
    destruct (fi_called _ Hf x Hx) as [|[[t Ht]|]]; [left; set_solver| |auto].
    destruct (decide (t = i)) as [->|Hne]; [left; set_solver|right; left].
    exists t. by rewrite lookup_delete_ne.
  - by intros [|].
Qed.

Lemma flow_send_err p i w r o' c' :
  flow_inv p → p_workers p !! i = Some (MkW w (WSending r)) → effect (p_chan p) (EvSendErr i) c' →
  flow_inv (set_worker (set_chan (set_loans p o') c') i (MkW w WExit)).
Proof.
  intros Hf HW (F1 & F2 & F3 & F4 & F5 & F6 & F7 & F8 & F9 & F10).
  eapply (flow_worker p); [done|exact HW|done|reflexivity|..]; cbn; try done; try by left.
  - by rewrite F6.
  - intros x Hx. right; right. congruence.
  - intros _. right; right. congruence.
Qed.

(** A worker that failed closes the channel; a worker drops its sender. *)
Lemma flow_close p i w c' :
  flow_inv p → p_workers p !! i = Some (MkW w WClose) → effect (p_chan p) EvSenderClose c' →
  flow_inv (set_worker (set_chan p c') i (MkW w WExit)).
Proof.
  intros Hf HW (F1 & F2 & F3 & F4 & F5 & F6).
  eapply (flow_worker p); [done|exact HW|done|reflexivity|..]; cbn; try done; try by left.
  - intros _. right. by apply (fi_close _ Hf i w).
  - intros x Hx. by right; right.
  - intros _. by right; right.
Qed.

Lemma flow_leave p i w c' :
  flow_inv p → p_workers p !! i = Some (MkW w WExit) → effect (p_chan p) EvSenderDrop c' →
  flow_inv (set_worker (set_chan p c') i (MkW w WDone)).
Proof.
  intros Hf HW (F1 & F2 & F3 & F4 & F5 & F6).
  eapply (flow_worker p); [done|exact HW|done|reflexivity|..]; cbn; try done; try by left.
  - by rewrite F2.
  - by rewrite F2; left.
  - apply (called_sent_keep p); [done..|congruence].
  - intros _. rewrite F2. apply (fi_exit _ Hf i w WExit HW). by left.
Qed.

(** What a step does that is none of a worker and leaves the channel open or
    closed as it is. *)
Lemma flow_chan p p' :
  flow_inv p → p_workers p' = p_workers p → p_stream p' = p_stream p →
  wt_value (p_err p') = wt_value (p_err p) →
  same_flow (p_chan p) (p_chan p') → closed (p_chan p') = closed (p_chan p) →
  senders (p_chan p') = senders (p_chan p) →
  p_stream p = Live ∨ rphase (p_chan p') = rphase (p_chan p) →
  taken (p_chan p') = p_recvd p' ++ got p' → flow_inv p'.
Proof.
  intros Hf E1 E2 E3 Hs' E4 E5 Hl Ht. apply (flow_recv p); try done; rewrite ?E2, ?E4; [done|apply Hf|].
  intros Hn. destruct (fi_over _ Hf Hn) as [H1 H2]. destruct Hl as [|Hl]; [done|]. by rewrite Hl.
Qed.

Lemma got_phase p ph : rphase (p_chan p) = ph → got p = match ph with RGot v => [v] | _ => [] end.
Proof. by intros <-. Qed.

(** The receiver in its phases. *)
Lemma flow_phase p p' (e : Ev Val) :
  flow_inv p → p_workers p' = p_workers p → p_stream p' = p_stream p → p_stream p = Live →
  wt_value (p_err p') = wt_value (p_err p) → effect (p_chan p) e (p_chan p') →
  match e with
  | EvEnter | EvPop _ | EvNone | EvCancel => p_recvd p' = p_recvd p
  | EvExit v => p_recvd p' = p_recvd p ++ [v]
  | _ => False
  end → flow_inv p'.
Proof.
  intros Hf E1 E2 Hl E3 F Hr. pose proof (fi_recvd _ Hf) as Ht.
  assert (∃ ph ph', same_flow (p_chan p) (p_chan p') ∧ closed (p_chan p') = closed (p_chan p)
    ∧ senders (p_chan p') = senders (p_chan p)
    ∧ rphase (p_chan p) = ph ∧ rphase (p_chan p') = ph'
    ∧ taken (p_chan p') = p_recvd p' ++ match ph' with RGot v => [v] | _ => [] end)
    as (ph & ph' & F1 & F2 & F3 & F4 & F5 & F6).
  { destruct e; try done; cbn [effect] in F;
      [destruct F as (F0 & F1 & F2 & F3 & F4 & F5 & F6) | destruct F as (F0 & F1 & F2 & F3 & F4 & F5 & F6)
      |destruct F as (F0 & F1 & F2 & F3 & F4 & F5 & F6) | destruct F as (F0 & F1 & _ & F2 & F3 & F4 & F5 & F6 & _)
      |destruct F as (F0 & F1 & F2 & F3 & F4 & F5 & F6)];
      eexists _, _; (split; [exact F0|]); (split; [exact F1|]); (split; [exact F3|]);
      (split; [exact F4|]); (split; [exact F5|]);
      rewrite F6, Ht, (got_phase p _ F4), Hr, ?(right_id_L [] (++)); reflexivity. }
  apply (flow_chan p); try done; [by left|]. by rewrite (got_phase p' _ F5).
Qed.

Lemma flow_hs_drop p c' : flow_inv p → effect (p_chan p) EvRecvClose c' →
  flow_inv (set_stream (set_chan p c') Joining).
Proof.
  intros Hf (F0 & F1 & F2 & F3 & F4 & F5 & F6). pose proof (fi_recvd _ Hf) as Ht.
  rewrite (got_phase p _ F4) in Ht. apply (flow_recv p); cbn; try done.
  - unfold got; cbn. by rewrite F5, F6.
  - intros _. by right.
Qed.

Lemma flow_step p e p' : base_inv p → flow_inv p → pstep' p e p' → flow_inv p'.
Proof.
  intros Hb Hf Hst. pose proof Hb as [_ Hw].
  assert (∀ t v, wt_value (wt_send (Some v) t) ≠ (None : option WorkerError)) as Hwt.
  { intros t v. by rewrite (proj1 (wt_send_spec (Some v) t)). }
  assert (∀ t : Wt, wt_value (V:=option WorkerError) (wt_update (V:=option WorkerError) t)
    = wt_value t) as Hup by (intros t; apply wt_update_spec).
  destruct Hst as [i w HW|i w e HW _|i w HW Hx|i w w1 d r o' c' HW Hct Her E Em Hst|i w k HW _ _
    |i w r idx v c' HW Hst|i w r st c' l' o' HW Hst' Hst _|i w r e c' HW He Hst|i w r c' HW Hst
    |i w r buf o' HW _|i w w' HW E|i w k HW|i w e HW|i w c' HW Hst|i w c' HW Hst
    |e Hl Hi He|c' Hl He Hst|v c' Hl Hst|v c' Hl Hst|c' Hl Hst|e c' Hl Hu He Hst|c' Hl Hst
    |l1 d l2 l' o' E1 E2|c' Hl Hst|Hj Hall|f].
  all: try (pose proof (base_effect _ _ _ Hb Hst) as F).
  (* steps of a worker that leave the channel as it is *)
  all: try (eapply (flow_worker p); [done|exact HW|done|reflexivity..|by cbn|done|by left| | | | | |];
    cbn [set_worker set_loans set_err p_chan p_err w_pc w_vars];
    first [ apply Hf | reflexivity | by intros | by intros [|] | by left | by right
          | intros _; destruct Hx as [Hx|Hx]; [left|by right; left];
            destruct (wi_vars _ _ _ _ _ _ Hw _ _ HW) as (_ & V2 & _);
            apply N.ltb_ge in Hx; cbn [w_vars] in V2; rewrite V2 in Hx;
            apply N.le_ngt; intros Hlt; apply (num_blocks_lt Hs) in Hlt; lia
          | idtac ]).
  (* steps that do not concern the invariant *)
  all: try (by destruct Hf as [F1 F2 F3 F4 F5 F6 F7 F8]; split; cbn; rewrite ?Hup).
  - by eapply flow_call.
  - by eapply flow_sent.
  - by eapply flow_send_err.
  - apply (flow_chan p); destruct He as [-> | ->], F as (F0 & _ & F1 & F2 & F3 & _ & F4); cbn; try done;
      try (by right); unfold got; cbn; rewrite F4, F3; apply Hf.
  - destruct F as (F0 & _ & F1 & F2 & F3 & _ & F4).
    apply (flow_chan p); cbn; try done; [by right|]. unfold got; cbn. rewrite F4, F3. apply Hf.
  - by eapply flow_close.
  - by eapply flow_leave.
  - eapply (flow_phase p); [..|exact F|]; cbn; rewrite ?Hup; done.
  - eapply (flow_phase p); [..|exact F|]; cbn; rewrite ?Hup; done.
  - eapply (flow_phase p); [..|exact F|]; cbn; rewrite ?Hup; done.
  - eapply (flow_phase p); [..|exact F|]; cbn; rewrite ?Hup; done.
  - eapply (flow_phase p); [..|exact F|]; cbn; rewrite ?Hup; done.
  - eapply (flow_phase p); [..|exact F|]; cbn; rewrite ?Hup; done.
  - by apply flow_hs_drop.
  - (* joined *)
    destruct Hf as [F1 F2 F3 F4 F5 F6 F7 F8]. split; cbn; try done.
    + intros _. by right.
    + intros _. apply F5. by rewrite Hj.
Qed.

(** ** The blocks on their way *)

Definition inflight p : list FileBlockData :=
  (items (p_chan p) ++ got p).*2 ++ p_held p.

Definition loans_ok p : Prop := loans_inv (p_workers p) (p_loans p) (inflight p).

(** A step that changes neither the loans nor, up to their place, the blocks. *)
Lemma loans_keep p p' :
  loans_ok p → p_workers p' = p_workers p → p_loans p' = p_loans p →
  inflight p ≡ₚ inflight p' → loans_ok p'.
Proof. unfold loans_ok. intros L -> -> E. by apply (loans_inv_perm _ _ _ _ E). Qed.

Lemma inflight_eq p p' :
  items (p_chan p') = items (p_chan p) → rphase (p_chan p') = rphase (p_chan p) →
  p_held p' = p_held p → inflight p' = inflight p.
Proof. unfold inflight, got. by intros -> -> ->. Qed.

(** A worker that owns nothing moves. *)
Lemma loans_move p p' i W W' :
  loans_ok p → p_workers p !! i = Some W → p_workers p' = <[i := W']> (p_workers p) →
  owner (w_pc W) = None → owner (w_pc W') = None → p_loans p' = p_loans p →
  inflight p' = inflight p → loans_ok p'.
Proof. unfold loans_ok. intros L HW -> Ho Ho' -> ->. by apply (loans_inv_move _ _ _ i W). Qed.

(** The send of a loan's value back. *)
Lemma drop_loan_sent (l : Loan bytes) (o : O) i l' o' :
  tx l = Some i → os_state o i = OsEmpty → drop_loan l o = Some (l', o') →
  os_state o' i = OsSent (deref l) ∧ ∀ j, j ≠ i → os_state o' j = os_state o j.
Proof.
  unfold drop_loan. intros -> He E. destruct (os_send_empty o i (value l) He) as (o2 & Es & H).
  rewrite Es in E. by simplify_eq.
Qed.

(** A block read and [send] called; a block sent; a [send] that failed. *)
Lemma loans_call p i w w1 d r o' idx x c' :
  loans_ok p → p_workers p !! i = Some (MkW w WHead) → effect (p_chan p) (EvCall i idx x) c' →
  make_block_data algorithm (buffer w1) (p_loans p) = (d, r, o') →
  loans_ok (set_worker (set_chan (set_loans p o') c') i (MkW (moved w1) (WSending r))).
Proof.
  intros Hl HW (F1 & F2 & F3 & F4 & F5 & F6 & F7 & F8 & F9) Em.
  destruct (make_block_data_spec _ _ _ _ _ Em) as (_ & _ & _ & M1 & M2 & M3).
  unfold loans_ok. rewrite (inflight_eq p) by done. cbn.
  by apply (loans_inv_call _ (p_loans p) _ _ i (MkW w WHead)).
Qed.

Lemma loans_sent p i w r idx v c' : base_inv p →
  loans_ok p → p_workers p !! i = Some (MkW w (WSending r)) → effect (p_chan p) (EvSent i idx v) c' →
  loans_ok (set_worker (set_chan p c') i (MkW w (WReclaim r))).
Proof.
  intros [_ Hw] Hl HW (F1 & F2 & F3 & F4 & F5 & F6 & F7 & F8 & F9 & F10).
  destruct (wi_calls _ _ _ _ _ _ Hw _ _ F1) as (w0 & r0 & HW0 & _ & Ht).
  rewrite HW in HW0. simplify_eq.
  assert (inflight (set_worker (set_chan p c') i (MkW w0 (WReclaim r0))) = v.2 :: inflight p)
    as Efl by (unfold inflight, got; cbn; by rewrite F5, F6, F9).
  unfold loans_ok. rewrite Efl. cbn. by apply (loans_inv_sent _ _ _ i w0 r0).
Qed.

Lemma loans_send_err p i w r st l' o' c' : base_inv p →
  loans_ok p → p_workers p !! i = Some (MkW w (WSending r)) → effect (p_chan p) (EvSendErr i) c' →
  threads (p_chan p) !! i = Some st → drop_loan (data (t_val st).2) (p_loans p) = Some (l', o') →
  loans_ok (set_worker (set_chan (set_loans p o') c') i (MkW w WExit)).
Proof.
  intros [_ Hw] Hl HW (F1 & F2 & F3 & F4 & F5 & F6 & F7 & F8 & F9 & F10) Hst Hd.
  apply calls_lookup in Hst. destruct (wi_calls _ _ _ _ _ _ Hw _ _ Hst) as (w0 & r0 & HW0 & _ & Ht).
  rewrite HW in HW0. simplify_eq. cbn in Ht.
  destruct (drop_loan_sent _ _ _ _ _ Ht (li_sending _ _ _ Hl _ _ _ HW) Hd) as [_ Hfr].
  unfold loans_ok. rewrite (inflight_eq p) by done. cbn.
  apply (loans_inv_release _ (p_loans p) _ _ i (MkW w0 (WSending r0)) _ r0); try done.
  intros d Hin Hr. destruct (li_flight _ _ _ Hl d Hin) as (j & w & r & Hj & Htr & _).
  assert (i = j) as <-; [|rewrite HW in Hj; by simplify_eq].
  apply (li_owner _ _ _ Hl i j _ _ r0 r HW Hj eq_refl eq_refl). congruence.
Qed.

(** A buffer comes back; the consumer drops a block. *)
Lemma loans_reclaim p i w r buf o' :
  loans_ok p → p_workers p !! i = Some (MkW w (WReclaim r)) →
  blocking_reclaim r (p_loans p) = (Ready buf, o') →
  loans_ok (set_worker (set_loans p o') i (MkW (with_buffer w buf) WSeek)).
Proof.
  intros Hl HW Hbr. unfold blocking_reclaim in Hbr. unfold loans_ok. rewrite (inflight_eq p) by done. cbn.
  destruct (li_reclaim _ _ _ Hl _ _ _ HW) as [[He _]|[b Hb']].
  { by rewrite (os_recv_empty _ _ He) in Hbr. }
  destruct (os_recv_sent _ _ _ Hb') as (o2 & E & _ & Hfr). rewrite E in Hbr. simplify_eq.
  apply (loans_inv_release _ (p_loans p) _ _ i (MkW w (WReclaim r)) _ r); try done.
  intros d Hin Hr. destruct (li_flight _ _ _ Hl d Hin) as (j & w0 & r0 & Hj & Htr & Hem).
  rewrite Hr in Htr. simplify_eq. congruence.
Qed.

Lemma loans_drop_block p l1 d l2 l' o' :
  loans_ok p → p_held p = l1 ++ d :: l2 → drop_loan (data d) (p_loans p) = Some (l', o') →
  loans_ok (set_held (set_loans p o') (l1 ++ l2)).
Proof.
  intros Hl E1 E2.
  assert (inflight p ≡ₚ d :: inflight (set_held (set_loans p o') (l1 ++ l2))) as Hp.
  { unfold inflight, got; cbn. rewrite E1. by rewrite <-!Permutation_middle. }
  pose proof (loans_inv_perm _ _ _ _ Hp Hl) as L.
  destruct (li_flight _ _ _ L d) as (i & w & r & _ & Ht & He); [by left|].
  destruct (drop_loan_sent _ _ _ _ _ Ht He E2) as [Hs' Hfr].
  by apply (loans_inv_drop _ _ _ _ d _ _ L Ht Hs').
Qed.

(** A step of the receiver moves the blocks along. *)
Lemma loans_phase p p' (e : Ev Val) :
  loans_ok p → p_workers p' = p_workers p → p_loans p' = p_loans p → effect (p_chan p) e (p_chan p') →
  match e with
  | EvEnter | EvPop _ | EvNone | EvCancel | EvRecvClose => p_held p' = p_held p
  | EvExit v => p_held p' = p_held p ++ [v.2]
  | _ => False
  end → loans_ok p'.
Proof.
  intros Hl E1 E2 F Hh. apply (loans_keep p); [done..|]. unfold inflight.
  destruct e; try done; cbn [effect] in F.
  - destruct F as (_ & _ & F1 & _ & F2 & F3 & _).
    by rewrite F1, (got_phase p _ F2), (got_phase p' _ F3), Hh.
  - destruct F as (_ & _ & F1 & _ & F2 & F3 & _).
    rewrite F1, (got_phase p _ F2), (got_phase p' _ F3), Hh, (right_id_L [] (++)).
    by rewrite <-Permutation_cons_append.
  - destruct F as (_ & _ & F1 & _ & F2 & F3 & _).
    rewrite F1, (got_phase p _ F2), (got_phase p' _ F3), Hh, (right_id_L [] (++)), fmap_app.
    rewrite <-(assoc_L (++)). change ([v].*2) with [v.2]. by rewrite (comm (++) (p_held p)).
  - destruct F as (_ & _ & F1 & F1' & _ & F2 & F3 & _).
    by rewrite F1, F1', (got_phase p _ F2), (got_phase p' _ F3), Hh.
  - destruct F as (_ & _ & F1 & _ & F2 & F3 & _).
    by rewrite F1, (got_phase p _ F2), (got_phase p' _ F3), Hh.
  - destruct F as (_ & _ & F1 & _ & F2 & F3 & _).
    by rewrite F1, (got_phase p _ F2), (got_phase p' _ F3), Hh.
Qed.

Lemma loans_step p e p' : base_inv p → loans_ok p → pstep' p e p' → loans_ok p'.
Proof.
  intros Hb Hl0 Hst.
  destruct Hst as [i w HW|i w e HW _|i w HW Hx|i w w1 d r o' c' HW Hct Her E Em Hst|i w k HW _ _
    |i w r idx v c' HW Hst|i w r st c' l' o' HW Hst' Hst Hd|i w r e c' HW He Hst|i w r c' HW Hst
    |i w r buf o' HW Hbr|i w w' HW E|i w k HW|i w e HW|i w c' HW Hst|i w c' HW Hst
    |e Hl Hi He|c' Hl He Hst|v c' Hl Hst|v c' Hl Hst|c' Hl Hst|e c' Hl Hu He Hst|c' Hl Hst
    |l1 d l2 l' o' E1 E2|c' Hl Hst|Hj Hall|f].
  all: try (pose proof (base_effect _ _ _ Hb Hst) as F).
  all: try (by eapply (loans_move p); [done|exact HW|reflexivity..]).
  all: try (by apply (loans_keep p)).
  all: try (by eapply (loans_phase p); [..|exact F|]).
  - by eapply loans_call.
  - by eapply loans_sent.
  - by eapply loans_send_err.
  - destruct He as [-> | ->], F as (_ & F5 & _ & _ & F8 & _);
      apply (loans_keep p); try done; by rewrite (inflight_eq p (set_chan p c')).
  - destruct F as (_ & F5 & _ & _ & F8 & _). apply (loans_keep p); try done.
    by rewrite (inflight_eq p (set_chan p c')).
  - by eapply loans_reclaim.
  - destruct F as (_ & _ & F3 & _ & F5 & _).
    eapply (loans_move p); [done|exact HW|reflexivity..|by apply inflight_eq].
  - destruct F as (_ & _ & F3 & _ & F5 & _).
    eapply (loans_move p); [done|exact HW|reflexivity..|by apply inflight_eq].
  - by eapply loans_drop_block.
Qed.

(** ** What the blocks contain *)

(** The message of a block: its index, the digest and the bytes of that block
    of the file, as the file was at some moment. *)
Definition block_ok (hist : list bytes) (x : N * Val) : Prop :=
  x.2.1 = x.1 ∧ hash x.2.2 = hash_data (deref (data x.2.2)) algorithm
  ∧ ∃ f, f ∈ hist ∧ deref (data x.2.2) = block file_size block_size f x.1
      ∧ x.1 * block_size + block_len file_size block_size x.1 ≤ lenN f.

Record blocks_ok p : Prop := {
  bo_called : Forall (block_ok (p_hist p)) (called (p_chan p));
  bo_file : p_file p ∈ p_hist p;
}.

Lemma block_ok_mono h h' x : h ⊆ h' → block_ok h x → block_ok h' x.
Proof. intros Hh (H1 & H2 & f & H3 & H4). split_and!; try done. exists f. split; [set_solver|done]. Qed.

Lemma pstep_called p e p' : base_inv p → pstep' p e p' →
  (called (p_chan p') = called (p_chan p))
  ∨ ∃ x, called (p_chan p') = x :: called (p_chan p) ∧ block_ok [p_file p] x
      ∧ p_file p' = p_file p.
Proof.
  intros Hb Hst.
  destruct Hst as [i w HW|i w e HW _|i w HW Hx|i w w1 d r o' c' HW Hct Her E Em Hst|i w k HW _ _
    |i w r idx v c' HW Hst|i w r st c' l' o' HW Hst' Hst Hd|i w r e c' HW He Hst|i w r c' HW Hst
    |i w r buf o' HW Hbr|i w w' HW E|i w k HW|i w e HW|i w c' HW Hst|i w c' HW Hst
    |e Hl Hi He|c' Hl He Hst|v c' Hl Hst|v c' Hl Hst|c' Hl Hst|e c' Hl Hu He Hst|c' Hl Hst
    |l1 d l2 l' o' E1 E2|c' Hl Hst|Hj Hall|f].
  all: try (by left).
  all: try (pose proof (base_effect _ _ _ Hb Hst) as F; unfold effect, same_flow in F).
  all: try (left; cbn [set_worker set_chan set_loans set_err set_stream p_chan]; tauto).
  - right. destruct F as (_ & _ & F3 & _).
    destruct (read_step _ _ _ _ _ _ _ _ Hb HW Hct E Em Hst)
      as (R1 & R2 & R3 & _ & R5 & R6 & R7 & _ & _).
    eexists. split; [exact F3|]. split; [|done]. rewrite R3. split_and!; cbn; [done|by rewrite R6|].
    exists (p_file p). split; [by left|done].
  - left. destruct He as [-> | ->]; cbn in *; tauto.
Qed.

Lemma pstep_hist p e p' : pstep' p e p' →
  (p_file p' = p_file p ∧ p_hist p' = p_hist p)
  ∨ (e = PEnv ∧ p_hist p' = p_file p' :: p_hist p).
Proof. destruct 1; eauto. Qed.

Lemma blocks_step p e p' : base_inv p → blocks_ok p → pstep' p e p' → blocks_ok p'.
Proof.
  intros Hb [B1 B2] Hst.
  assert (p_hist p ⊆ p_hist p' ∧ p_file p' ∈ p_hist p') as [H1 H2].
  { destruct (pstep_hist _ _ _ Hst) as [[-> ->]|[_ ->]]; [done|set_solver]. }
  split; [|done]. destruct (pstep_called _ _ _ Hb Hst) as [->|(x & -> & Hx & _)].
  - eapply Forall_impl; [exact B1|]. intros x. by apply block_ok_mono.
  - constructor; [|eapply Forall_impl; [exact B1|]; intros y; by apply block_ok_mono].
    eapply block_ok_mono; [|exact Hx]. set_solver.
Qed.

(** ** The whole invariant *)

Record pipe_inv p : Prop := {
  pi_base : base_inv p;
  pi_flow : flow_inv p;
  pi_loans : loans_ok p;
  pi_blocks : blocks_ok p;
}.

Lemma pipe_step p e p' : pipe_inv p → pstep' p e p' → pipe_inv p'.
Proof.
  intros [H1 H2 H3 H4] Hst. split.
  - by apply (base_step p e).
  - by apply (flow_step p e).
  - by apply (loans_step p e).
  - by apply (blocks_step p e).
Qed.
End base.
