(* ===== verification/HashStream.v ===== *)
(** What [HashStream] (src/src/hash_file.rs) promises to its users, proved of
    the transition system of Pipeline.v: the blocks come in order with the
    right digest and bytes, all of them; few are in memory; [recv] gets an
    answer after finitely many steps; when the drop of the stream returns and
    when it cannot. *)

From stdpp Require Import base option list numbers gmap.
From Stdlib Require Import NArith Lia.
From S2P Require Import Prelude AsyncIO Loan OrderedChannel HashFile Pipeline PipelineInv.
#[local] Open Scope N_scope.

Section lemmas.
Context {Q O Wt : Type} `{!Mpsc Val Q, !MpscLaws Val Q, !Oneshot bytes O, !OneshotLaws bytes O}.
Context `{!Watch (option WorkerError) Wt, !WatchLaws (option WorkerError) Wt} {Hsh : Hashing}.
Context {file_size block_size workers : N} {algorithm : HashAlgorithm}.
Context (Hs : sane file_size block_size workers).
#[local] Abbreviation nb := (num_blocks file_size block_size).
#[local] Abbreviation pipe := (Pipe Q O Wt).
#[local] Abbreviation pstep' := (pstep file_size block_size workers algorithm).
#[local] Abbreviation preach' := (preach file_size block_size workers algorithm).
#[local] Abbreviation pinv :=
  (pipe_inv (file_size:=file_size) (block_size:=block_size) (workers:=workers)
            (algorithm:=algorithm)).
Implicit Types p : pipe.

(** ** Every reachable state satisfies the invariant *)

Lemma hash_file_inv file (o : O) : pinv (hash_file block_size workers file o).
Proof.
  destruct (hash_file_chan (Wt:=Wt) (block_size:=block_size) (workers:=workers) file o)
    as (_ & H2 & H3 & H4 & H5 & H6 & H7 & H8 & H9).
  assert (∀ i W, p_workers (hash_file (Q:=Q) (Wt:=Wt) block_size workers file o) !! i = Some W →
    w_pc W = WOpen) as Hopen by (by intros i W [_ ->]%hash_file_workers).
  split; [by apply hash_file_base| | |].
  - split.
    + rewrite H5. unfold got. by rewrite H9.
    + intros x. by rewrite H3, elem_of_nil.
    + rewrite H8. unfold alive. rewrite map_filter_id by (intros i W HW; cbn; by rewrite (Hopen i W HW)).
      cbn [hash_file p_workers]. rewrite map_size_list_to_map.
      * by rewrite length_fmap, length_seqN.
      * rewrite <-list_fmap_compose. apply NoDup_fmap_2; [intros ??; done|].
        unfold seqN. apply NoDup_fmap_2; [|apply NoDup_seq]. intros x y. apply Nat2N.inj.
    + by rewrite H7.
    + by cbn.
    + intros i w HW. by apply Hopen in HW.
    + intros i w pc HW. apply Hopen in HW as Hpc. cbn in Hpc. subst. by intros [|].
    + cbn. by rewrite (proj1 (wt_channel_new None)).
  - unfold loans_ok. unfold inflight, got. rewrite H6, H9. cbn [app fmap list_fmap].
    split; cbn; try done.
    + intros i w r HW. by apply Hopen in HW.
    + intros i w r HW. by apply Hopen in HW.
    + intros i j Wi Wj ri rj HWi _ E. apply Hopen in HWi. by rewrite HWi in E.
    + constructor.
    + by intros d ?%elem_of_nil.
  - split; [rewrite H3; constructor|by left].
Qed.

Lemma preach_inv file o p : preach' file o p → pinv p.
Proof.
  induction 1 as [Hf|p e p' Hr IH Hst]; [apply hash_file_inv|by apply (pipe_step Hs p e)].
Qed.

(** ** The order of the blocks *)

Lemma recvd_sent p n v : pinv p → p_recvd p !! n = Some v →
  sent (p_chan p) !! n = Some (N.of_nat n, v).
Proof.
  intros [Hb Hf _ _] Hn. destruct (base_chan_inv Hs p Hb) as [_ Hi].
  assert ((sent (p_chan p)).*2 !! n = Some v) as Hv.
  { rewrite <-(di_fifo _ Hi), (fi_recvd _ Hf). by do 2 apply lookup_app_l_Some. }
  rewrite list_lookup_fmap, fmap_Some in Hv. destruct Hv as ([j w] & Hj & ->). cbn.
  assert ((sent (p_chan p)).*1 !! n = Some j) as H1 by (by rewrite list_lookup_fmap, Hj).
  rewrite (di_sent _ Hi) in H1. unfold seqN in H1.
  rewrite list_lookup_fmap, fmap_Some in H1. destruct H1 as (m & Hm & ->).
  by apply lookup_seq in Hm as [-> _].
Qed.

Lemma recvd_ok p n v : pinv p → p_recvd p !! n = Some v →
  block_ok (file_size:=file_size) (block_size:=block_size) (algorithm:=algorithm)
    (p_hist p) (N.of_nat n, v) ∧ N.of_nat n < nb.
Proof.
  intros Hp Hn. pose proof Hp as [Hb _ _ Ho]. destruct (base_chan_inv Hs p Hb) as [_ Hi].
  pose proof (recvd_sent p n v Hp Hn) as Hv.
  apply list_elem_of_lookup_2, (di_sub _ Hi) in Hv. destruct Hb as [_ Hw]. split.
  - pose proof (bo_called _ Ho) as B. rewrite Forall_forall in B. by apply B.
  - pose proof (wi_bound _ _ _ _ _ _ Hw) as B. rewrite Forall_forall in B. by apply B in Hv.
Qed.

(** The end of the stream, no error published: every worker is done and every
    block was sent. *)
Lemma all_sent p : pinv p → closed (p_chan p) = false → wt_value (p_err p) = None →
  (∀ i W, p_workers p !! i = Some W → w_pc W = WDone) →
  length (sent (p_chan p)) = N.to_nat nb.
Proof.
  intros [Hb Hf _ _] Hc He Hd. destruct (base_chan_inv Hs p Hb) as [_ Hi]. pose proof Hb as [_ Hw].
  assert (∀ j, j ∈ (sent (p_chan p)).*1 ↔ j < nb) as Hall.
  { intros j. split.
    - intros (x & -> & Hx)%list_elem_of_fmap. apply (di_sub _ Hi) in Hx.
      pose proof (wi_bound _ _ _ _ _ _ Hw) as B. rewrite Forall_forall in B. by apply B in Hx.
    - intros Hj. assert (j mod workers < workers) as Hm by (apply N.mod_lt; destruct Hs; lia).
      apply (wi_dom _ _ _ _ _ _ Hw) in Hm as [W HW].
      destruct (wi_called _ _ _ _ _ _ Hw _ _ HW) as (C1 & _ & _).
      pose proof (Hd _ _ HW) as Hpc. destruct W as [w pc]. cbn in Hpc, C1. subst pc.
      destruct (fi_exit _ Hf _ _ _ HW) as [Hk|[?|?]]; [by right| |done|congruence].
      assert (j ∈ (called (p_chan p)).*1) as Hca by (apply C1; [lia|done|done]).
      apply list_elem_of_fmap in Hca as (x & -> & Hx).
      destruct (fi_called _ Hf x Hx) as [Hx'|[[t Ht]|?]]; [|exfalso|congruence].
      { apply list_elem_of_fmap. by exists x. }
      destruct (wi_calls _ _ _ _ _ _ Hw _ _ Ht) as (w0 & r & H0 & _). by apply Hd in H0. }
  rewrite (di_sent _ Hi) in Hall. setoid_rewrite elem_of_seqN in Hall.
  pose proof (Hall nb). pose proof (Hall (N.of_nat (length (sent (p_chan p))))). lia.
Qed.

Lemma end_complete p p' : pinv p → pstep' p PEnd p' → wt_value (p_err p) = None →
  length (p_recvd p) = N.to_nat nb.
Proof.
  intros Hp Hst He. pose proof Hp as [Hb Hf _ _]. inversion Hst; subst.
  match goal with H : step _ EvNone _ |- _ => rename H into Hn end.
  destruct (base_effect Hs _ _ _ Hb Hn) as (_ & _ & F2 & _ & _ & F5 & _ & _ & F8).
  assert (closed (p_chan p) = false) as Hc.
  { destruct (closed (p_chan p)) eqn:E; [|done]. by destruct (fi_closed _ Hf E). }
  rewrite Hc in F8. destruct F8 as [|F8]; [done|]. rewrite (fi_senders _ Hf) in F8.
  assert (length (sent (p_chan p)) = N.to_nat nb) as Hl.
  { apply all_sent; try done. intros i W HW. by apply (alive_none (p_workers p) i). }
  destruct (base_chan_inv Hs p Hb) as [_ Hi].
  pose proof (sent_length_items _ Hi) as Hlen. unfold items in F2. rewrite F2 in Hlen.
  rewrite (fi_recvd _ Hf) in Hlen. unfold got in Hlen. rewrite F5, length_app in Hlen.
  cbn in Hlen. lia.
Qed.

(** ** Enabled steps of the workers *)

(** A worker that is neither done, nor asleep in [send], nor waiting for a
    buffer that was not given back, has a step. *)
Lemma worker_enabled p i w pc :
  pinv p → p_workers p !! i = Some (MkW w pc) → pc ≠ WDone →
  (∀ r, pc = WReclaim r → ∃ b, os_state (p_loans p) (rx r) = OsSent b) →
  (∀ r, pc = WSending r → ∃ idx v, threads (p_chan p) !! i = Some (TLocking idx v)) →
  ∃ p', pstep' p (PWork i) p'.
Proof.
  intros Hp HW Hd Hr Hse. pose proof Hp as [Hb Hf Hl _]. pose proof (base_chan_inv Hs p Hb) as Hi.
  pose proof Hi as [Ht Hdi]. pose proof (ti_lock _ Ht) as Hlf. pose proof Hb as [_ Hw].
  pose proof (wi_vars _ _ _ _ _ _ Hw _ _ HW) as Hv.
  destruct pc as [| |r|r| |e| | |]; [| | | | | | | |done].
  - eexists. by eapply (ps_open _ _ _ _ p i w).
  - destruct (decide (wt_value (p_err p) = None)) as [He|He];
      [|eexists; eapply (ps_head_exit _ _ _ _ p i w); auto].
    destruct (worker_continues file_size w) eqn:Hc;
      [|eexists; eapply (ps_head_exit _ _ _ _ p i w); auto].
    destruct (worker_read file_size block_size (p_file p) w) as [w1|err] eqn:Er;
      [|eexists; by eapply (ps_read_err _ _ _ _ p i w EkUnexpectedEof)].
    destruct (make_block_data algorithm (buffer w1) (p_loans p)) as [[d r] o'] eqn:Em.
    eexists. eapply (ps_read _ _ _ _ p i w w1 d r o'); try done. apply step_call.
    apply calls_lookup_None. destruct (calls (p_chan p) !! i) as [x|] eqn:Ec; [|done].
    destruct (wi_calls _ _ _ _ _ _ Hw _ _ Ec) as (w0 & r0 & H0 & _). rewrite HW in H0.
    by simplify_eq.
  - destruct (Hse r eq_refl) as (idx & v & Hst).
    pose proof (send_attempt_inv _ _ _ Hi Hst) as Ha. cbv zeta in Ha. cbn [t_idx t_val] in Ha.
    destruct (send_attempt idx v (p_chan p).(chan)) as [c'| | |] eqn:E; [| |done|].
    + eexists. eapply (ps_sent _ _ _ _ p i w r idx v); [done|]. by apply step_sent.
    + pose proof (calls_lookup _ _ _ Hst) as Hcl.
      destruct (wi_calls _ _ _ _ _ _ Hw _ _ Hcl) as (w0 & r0 & H0 & _ & Htx).
      destruct (drop_loan (data v.2) (p_loans p)) as [[l' o']|] eqn:Edr;
        [|unfold drop_loan in Edr; cbn in Htx; by rewrite Htx in Edr].
      eexists. eapply (ps_send_err _ _ _ _ p i w r); [done|exact Hst| |exact Edr].
      by apply (step_send_err _ i idx v).
    + eexists. eapply (ps_wait _ _ _ _ p i w r (EvWait i)); [done|by left|].
      by apply (step_wait _ i idx v).
  - destruct (Hr r eq_refl) as [b Hb']. destruct (os_recv_sent _ _ _ Hb') as (o' & E & _).
    eexists. by eapply (ps_reclaim _ _ _ _ p i w r b o').
  - destruct Hv as (V1 & V2 & _ & V4). destruct (V4 eq_refl) as [Hk Hpos].
    destruct w as [off k po buf]; cbn in V1, V2, Hk, Hpos. subst off.
    destruct (worker_advance_at Hs i k po buf Hk V1 Hpos) as (w' & E & _).
    eexists. by eapply (ps_seek _ _ _ _ p i _ w').
  - eexists. by eapply (ps_fail _ _ _ _ p i w e).
  - eexists. eapply (ps_close _ _ _ _ p i w); [done|]. by apply step_sender_close.
  - eexists. eapply (ps_exit _ _ _ _ p i w); [done|]. apply step_sender_drop.
Qed.

(** With nothing on its way, buffers that are waited for were given back. *)
Lemma reclaim_ready p i w r : pinv p → inflight p = [] →
  p_workers p !! i = Some (MkW w (WReclaim r)) → ∃ b, os_state (p_loans p) (rx r) = OsSent b.
Proof.
  intros [_ _ Hl _] Hfl HW. destruct (li_reclaim _ _ _ Hl _ _ _ HW) as [(_ & d & Hd & _)|]; [|done].
  rewrite Hfl in Hd. by apply elem_of_nil in Hd.
Qed.

(** If no worker has a step and nothing is on its way, the workers left are
    asleep in [send], waiting for another index, on a channel that is not
    closed and with no error. *)
Lemma stuck_workers p : pinv p → inflight p = [] → (∀ i p', ¬ pstep' p (PWork i) p') →
  ∀ i W, p_workers p !! i = Some W → w_pc W ≠ WDone →
  ∃ r v, w_pc W = WSending r ∧ threads (p_chan p) !! i = Some (TWaiting (block_idx (w_vars W)) v)
    ∧ closed (p_chan p) = false ∧ wt_value (p_err p) = None
    ∧ wanted_idx (state (chan (p_chan p))) ≠ Some (block_idx (w_vars W))
    ∧ block_idx (w_vars W) ∉ (sent (p_chan p)).*1.
Proof.
  intros Hp Hfl Hno. pose proof Hp as [Hb Hf _ _]. pose proof (base_chan_inv Hs p Hb) as Hi.
  pose proof Hi as [Ht Hdi]. pose proof Hb as [_ Hw].
  assert (∀ i w pc, p_workers p !! i = Some (MkW w pc) → pc ≠ WDone →
    ∃ r st, pc = WSending r ∧ threads (p_chan p) !! i = Some st
      ∧ (∀ idx v, st ≠ TLocking idx v)) as Hsend.
  { intros i w pc HW Hd.
    assert ((∃ r, pc = WSending r) ∨ ∀ r, pc ≠ WSending r) as [[r ->]|Hns]
      by (destruct pc; eauto).
    - destruct (wi_sending _ _ _ _ _ _ Hw _ _ _ HW) as [x Hx].
      apply calls_lookup_inv in Hx as (st & Hst & _). exists r, st. split_and!; try done.
      intros idx v ->. destruct (worker_enabled p i w (WSending r)) as [p' Hp']; try done.
      + intros r' E. simplify_eq. by eauto.
      + by apply (Hno i p').
    - destruct (worker_enabled p i w pc) as [p' Hp']; try done.
      + intros r ->. by apply (reclaim_ready p i w).
      + intros r E. by apply Hns in E.
      + by destruct (Hno i p'). }
  intros i [w pc] HW Hd. cbn [w_vars w_pc] in *.
  destruct (Hsend i w pc HW Hd) as (r & st & -> & Hst & Hnl).
  destruct st as [idx v|idx v|idx v]; [by destruct (Hnl idx v)| |by destruct (ti_lock _ Ht i idx v)].
  pose proof (calls_lookup _ _ _ Hst) as Hc.
  destruct (wi_calls _ _ _ _ _ _ Hw _ _ Hc) as (w0 & r0 & H0 & Hidx & _).
  rewrite HW in H0. simplify_eq. cbn in Hidx. subst idx.
  destruct (ti_wait _ Ht i _ _ Hst) as [Hcl Hwa].
  destruct (ti_called _ Ht i _ Hst) as [_ Hns].
  exists r0, v. split_and!; try done.
  destruct (decide (wt_value (p_err p) = None)) as [|He]; [done|exfalso].
  destruct (fi_err _ Hf He) as [Hcl'|(j & wj & Hj)]; [unfold closed in Hcl'; congruence|].
  by destruct (Hsend j wj WClose Hj) as (? & ? & ? & _).
Qed.

(** Such a state is not one where a [recv] waits: the next block would be
    there, or its sender awake. *)
Lemma await_progress p : pinv p → p_stream p = Live → rphase (p_chan p) = RAwait → p_held p = [] →
  (∀ i p', ¬ pstep' p (PWork i) p') → ∃ p', pstep' p PPop p' ∨ pstep' p PEnd p'.
Proof.
  intros Hp Hl Hph Hh Hno. pose proof Hp as [Hb Hf _ _]. pose proof (base_chan_inv Hs p Hb) as Hi.
  pose proof Hi as [Ht Hdi]. pose proof Hb as [_ Hw].
  destruct (items (p_chan p)) as [|v l] eqn:Hit.
  2:{ destruct (mp_recv_item _ _ _ Hit) as (q' & E & _).
      eexists. left. eapply (ps_pop _ _ _ _ p v); [done|]. by apply (step_pop _ v q'). }
  assert (inflight p = []) as Hfl by (unfold inflight, got; by rewrite Hit, Hph, Hh).
  pose proof (stuck_workers p Hp Hfl Hno) as Hst.
  destruct (map_choose_or_empty (alive (p_workers p))) as [(i & W & Ha)|Hnone].
  2:{ eexists. right. eapply (ps_end _ _ _ _ p); [done|]. apply step_none; [done|].
      apply mp_recv_none; [done|right]. pose proof (fi_senders _ Hf) as Hsz. unfold senders in Hsz.
      by rewrite Hsz, Hnone. }
  exfalso. unfold alive in Ha. apply map_lookup_filter_Some in Ha as [HW Hd]. cbn in Hd.
  set (n := N.of_nat (length (taken (p_chan p)))).
  assert (wanted_idx (state (chan (p_chan p))) = Some n) as Hwa.
  { pose proof (di_phase _ Hdi) as Hpi. unfold phase_inv in Hpi. rewrite Hph in Hpi.
    destruct (wanted_idx _); [|by destruct Hpi as (_ & ? & _)].
    destruct (receiving _); [|by destruct Hpi]. destruct Hpi as [<- _]. done. }
  assert (N.of_nat (length (sent (p_chan p))) = n) as Hsl.
  { pose proof (sent_length_items _ Hdi) as Hlen. unfold items in Hit. rewrite Hit in Hlen.
    unfold n. rewrite Hlen. cbn. lia. }
  assert (∀ j, j ∉ (sent (p_chan p)).*1 → n ≤ j) as Hns.
  { intros j Hj. rewrite (sent_idx_lt _ _ Hdi), Hsl in Hj. lia. }
  assert (closed (p_chan p) = false ∧ wt_value (p_err p) = None) as [Hcl He].
  { destruct (Hst i W HW Hd) as (_ & _ & _ & _ & ? & ? & _). done. }
  assert (n ∉ (called (p_chan p)).*1) as Hnc.
  { intros (x & Hx & Hin)%list_elem_of_fmap.
    destruct (fi_called _ Hf x Hin) as [Hs'|[[t Hc]|?]]; [| |congruence].
    - assert (n ∈ (sent (p_chan p)).*1) as Hn by (apply list_elem_of_fmap; by exists x).
      rewrite (sent_idx_lt _ _ Hdi) in Hn. lia.
    - destruct (wi_calls _ _ _ _ _ _ Hw _ _ Hc) as (w' & r' & Ht' & Hx' & _).
      destruct (Hst _ _ Ht') as (_ & _ & _ & _ & _ & _ & Hne & _); [done|]. cbn in Hne.
      rewrite Hwa in Hne. congruence. }
  assert (∀ W0, p_workers p !! (n mod workers) = Some W0 → n < nb →
    ¬ n < block_idx (w_vars W0)) as Hbelow.
  { intros W0 HW0 Hn Hlt. destruct (wi_called _ _ _ _ _ _ Hw _ _ HW0) as (C1 & _).
    by apply Hnc, C1. }
  assert (n < nb) as Hnb.
  { destruct (Hst i W HW Hd) as (r & v & Hpc & _ & _ & _ & _ & Hk).
    destruct (wi_vars _ _ _ _ _ _ Hw _ _ HW) as (_ & _ & _ & V4). rewrite Hpc in V4.
    destruct (V4 eq_refl) as [Hlt _]. apply Hns in Hk. lia. }
  assert (n mod workers < workers) as Hm by (apply N.mod_lt; destruct Hs; lia).
  apply (wi_dom _ _ _ _ _ _ Hw) in Hm as [W0 HW0].
  apply (Hbelow W0 HW0 Hnb). destruct (decide (w_pc W0 = WDone)) as [Hd0|Hd0].
  - destruct W0 as [w0 pc0]. cbn in Hd0 |- *. subst pc0.
    destruct (fi_exit _ Hf _ _ _ HW0) as [|[|]]; [by right|lia|congruence|congruence].
  - destruct (Hst _ _ HW0 Hd0) as (_ & _ & _ & _ & _ & _ & Hne & Hk). apply Hns in Hk.
    rewrite Hwa in Hne. assert (n ≠ block_idx (w_vars W0)) by congruence. lia.
Qed.

(** ** The steps of the workers end *)

Section measure.
(** What is left for a worker to do. *)
Definition rank (W : WState) : nat :=
  let left := (8 * N.to_nat (nb - block_idx (w_vars W)))%nat in
  match w_pc W with
  | WOpen => left + 9
  | WHead => left + 8
  | WSending _ => left + 7
  | WReclaim _ => left + 6
  | WSeek => left + 5
  | WFail _ => 3
  | WClose => 2
  | WExit => 1
  | WDone => 0
  end%nat.

Definition rank_at (ws : gmap N WState) (i : N) : nat := default 0%nat (rank <$> ws !! i).
Definition ranks (ws : gmap N WState) : nat :=
  sum_list (rank_at ws <$> seqN (N.to_nat workers)).

Definition measure p : nat :=
  ((N.to_nat workers + 2) * ranks (p_workers p) + locking (threads (p_chan p)))%nat.

Lemma sum_list_insert (l : list N) (f : N → nat) i x :
  NoDup l → i ∈ l →
  (sum_list ((λ j, if decide (i = j) then x else f j) <$> l) + f i = sum_list (f <$> l) + x)%nat.
Proof.
  induction l as [|j l IH]; [by intros _ ?%elem_of_nil|].
  rewrite NoDup_cons. intros [Hj Hl] Hi. cbn. case_decide as Hij; simplify_eq.
  - assert ((λ k, if decide (j = k) then x else f k) <$> l = f <$> l) as ->; [|lia].
    apply list_fmap_ext. intros k y Hk. rewrite decide_False; [done|].
    intros ->. apply Hj. by eapply list_elem_of_lookup_2.
  - apply elem_of_cons in Hi as [->|Hi]; [done|]. specialize (IH Hl Hi). lia.
Qed.

Lemma ranks_insert ws i W W' :
  ws !! i = Some W → i < workers → (ranks (<[i := W']> ws) + rank W = ranks ws + rank W')%nat.
Proof.
  intros HW Hi. unfold ranks. 
  pose proof (sum_list_insert (seqN (N.to_nat workers)) (rank_at ws) i (rank W')) as H.
  assert (rank_at ws i = rank W) as E by (unfold rank_at; by rewrite HW). rewrite E in H.
  rewrite <-H.
  - do 2 f_equal. apply list_fmap_ext. intros _ j _. unfold rank_at. rewrite lookup_insert.
    by case_decide.
  - unfold seqN. apply NoDup_fmap_2; [|apply NoDup_seq]. intros x y. apply Nat2N.inj.
  - apply elem_of_seqN. lia.
Qed.

Lemma size_workers ws cl ca : workers_inv file_size block_size workers ws cl ca →
  size ws = N.to_nat workers.
Proof.
  intros Hw. rewrite <-(size_dom (D:=gset N)).
  assert (dom ws = list_to_set (C:=gset N) (seqN (N.to_nat workers))) as ->.
  { apply set_eq. intros i. rewrite elem_of_dom, elem_of_list_to_set, elem_of_seqN, N2Nat.id.
    apply (wi_dom _ _ _ _ _ _ Hw). }
  rewrite size_list_to_set, length_seqN; [done|].
  unfold seqN. apply NoDup_fmap_2; [|apply NoDup_seq]. intros x y. apply Nat2N.inj.
Qed.

Lemma size_threads p : base_inv (file_size:=file_size) (block_size:=block_size)
    (workers:=workers) p → (size (threads (p_chan p)) ≤ N.to_nat workers)%nat.
Proof.
  intros [_ Hw]. rewrite <-(size_workers _ _ _ Hw).
  rewrite <-(size_dom (D:=gset N) (p_workers p)), <-(size_dom (D:=gset N) (threads _)).
  apply subseteq_size. intros t. rewrite !elem_of_dom. intros [st Hst].
  apply calls_lookup in Hst. destruct (wi_calls _ _ _ _ _ _ Hw _ _ Hst) as (w & r & Ht & _).
  by rewrite Ht.
Qed.

(** A step of a worker that is not a spurious wakeup makes the measure smaller. *)
Lemma measure_worker p p' i W W' :
  base_inv (file_size:=file_size) (block_size:=block_size) (workers:=workers) p →
  p_workers p !! i = Some W → p_workers p' = <[i := W']> (p_workers p) →
  (rank W' < rank W)%nat →
  (locking (threads (p_chan p')) ≤ S (locking (threads (p_chan p)))
   ∨ locking (threads (p_chan p')) ≤ size (threads (p_chan p)))%nat →
  (measure p' < measure p)%nat.
Proof.
  intros Hb HW E Hr Hl. pose proof (size_threads p Hb) as Hsz. destruct Hb as [_ Hw].
  assert (i < workers) as Hi by (apply (wi_dom _ _ _ _ _ _ Hw); by rewrite HW).
  pose proof (ranks_insert _ _ _ W' HW Hi) as Hi'. unfold measure. rewrite E. nia.
Qed.

Lemma measure_step p i p' : pinv p → pstep' p (PWork i) p' → (measure p' < measure p)%nat.
Proof.
  intros [Hb Hf _ _] Hst. pose proof (base_chan_inv Hs p Hb) as Hi. pose proof Hb as [_ Hw].
  pose proof (λ j W, wi_vars _ _ _ _ _ _ Hw j W) as Hv.
  inversion Hst as [? w HW|? w e HW _|? w HW Hx|? w w1 d r o' c' HW Hct Her E Em Hc|? w k HW _ _
    |? w r idx v c' HW Hc|? w r st c' l' o' HW Hst' Hc Hd|? w r e c' HW He Hc|
    |? w r buf o' HW Hbr|? w w' HW E|? w k HW|? w e HW|? w c' HW Hc|? w c' HW Hc
    | | | | | | | | | | | ]; subst.
  all: try (pose proof (step_locking _ _ _ Hi Hc) as Hl; cbn in Hl).
  all: try (eapply measure_worker; [done|exact HW|reflexivity|cbn; lia|cbn; lia]).
  - (* a block read *)
    destruct (head_read _ _ _ Hs _ _ _ _ (Hv _ _ HW) Hct E) as (Hk & _ & _ & ->).
    eapply measure_worker; [done|exact HW|reflexivity|cbn; lia|cbn; lia].
  - (* asleep *)
    unfold measure; cbn [set_chan p_workers p_chan]. destruct He as [-> | ->]; lia.
  - (* the seek *)
    destruct (Hv _ _ HW) as (V1 & V2 & _ & V4). destruct (V4 eq_refl) as [Hk Hpos].
    destruct w as [off k po buf]; cbn in V1, V2, Hk, Hpos. subst off.
    destruct (worker_advance_at Hs _ k po buf Hk V1 Hpos) as (w2 & E' & _ & _ & E2 & _).
    rewrite E in E'. simplify_eq. destruct Hs as (_ & ? & _).
    eapply measure_worker; [done|exact HW|reflexivity|cbn; rewrite E2; lia|cbn; lia].
Qed.

(** Sequences of steps of the workers. *)
Inductive work_run : nat → pipe → pipe → Prop :=
  | work_done p : work_run 0 p p
  | work_more n p i p1 p2 : pstep' p (PWork i) p1 → work_run n p1 p2 → work_run (S n) p p2.

Lemma work_step_same p i p' : pinv p → pstep' p (PWork i) p' →
  p_stream p' = p_stream p ∧ p_held p' = p_held p ∧ rphase (p_chan p') = rphase (p_chan p)
  ∧ (closed (p_chan p) = true → closed (p_chan p') = true ∧ items (p_chan p') = items (p_chan p)).
Proof.
  intros [Hb _ _ _] Hst. pose proof (base_chan_inv Hs p Hb) as Hi.
  inversion Hst as [| | |? w w1 d r o' c' HW Hct Her E Em Hc|
    |? w r idx v c' HW Hc|? w r st c' l' o' HW Hst' Hc Hd|? w r e c' HW He Hc|
    | | | | |? w c' HW Hc|? w c' HW Hc| | | | | | | | | | | ]; subst;
    try (destruct He as [-> | ->]);
    try (pose proof (step_effect _ _ _ Hi Hc) as F; unfold effect, same_but_calls in F);
    cbn; try done; try (by intuition congruence).
  (* a value sent: the channel was not closed *)
  destruct F as (_ & _ & _ & _ & _ & _ & F7 & _ & F9 & _). split_and!; try done.
  intros Hcl. exfalso. inversion Hc; subst.
  - match goal with H : send_attempt _ _ _ = _ |- _ => unfold send_attempt in H end.
    unfold closed in Hcl. by rewrite Hcl in *.
  - destruct Hi as [Ht _]. by eapply (ti_lock _ Ht).
Qed.

Lemma work_run_inv n p p' : pinv p → work_run n p p' →
  pinv p' ∧ (measure p' + n ≤ measure p)%nat
  ∧ p_stream p' = p_stream p ∧ p_held p' = p_held p ∧ rphase (p_chan p') = rphase (p_chan p)
  ∧ (closed (p_chan p) = true → closed (p_chan p') = true ∧ items (p_chan p') = items (p_chan p)).
Proof.
  intros Hp Hr. induction Hr as [p|n p i p1 p2 Hst Hr IH]; [split_and!; [done|lia|done..]|].
  pose proof (pipe_step Hs p _ p1 Hp Hst) as Hp1.
  destruct (IH Hp1) as (H1 & H2 & H3 & H4 & H5 & H6).
  pose proof (measure_step p i p1 Hp Hst). destruct (work_step_same p i p1 Hp Hst) as (W1 & W2 & W3 & W4).
  split_and!; [done|lia|congruence..|]. intros Hc. destruct (W4 Hc) as [Hc' <-]. by apply H6.
Qed.
End measure.
End lemmas.

(** ** Executing schedules of the pipeline *)

(** A scheduler's choice: the next step of worker [i] (reading the file as it
    is), the steps of the consumer, a change of the file. *)
Inductive PCmd :=
  | CWork (i : N)
  | CEnter
  | CPoll
  | CExit
  | CCancel
  | CDrop
  | CHsDrop
  | CJoined
  | CEnv (f : bytes).

Section exec.
Context {Q O Wt : Type} `{!Mpsc Val Q, !Oneshot bytes O, !Watch (option WorkerError) Wt, !Hashing}.
Context (file_size block_size workers : N) (algorithm : HashAlgorithm).
#[local] Abbreviation pipe := (Pipe Q O Wt).
Implicit Types p : pipe.

Definition set_ok p : bool := bool_decide (wt_value (p_err p) = None).
Definition is_live p : bool := match p_stream p with Live => true | _ => false end.

Definition exec_head (p : pipe) (i : N) (w : Worker) : option pipe :=
  if worker_continues file_size w && set_ok p then
    match worker_read file_size block_size (p_file p) w with
    | Err _ =>
        Some (set_worker p i (MkW w (WFail (FailedToReadBlock (block_idx w) EkUnexpectedEof))))
    | Ok w1 =>
        let '(d, r, o') := make_block_data algorithm (buffer w1) (p_loans p) in
        x ← exec (DoCall i (block_idx w1) (block_idx w1, d)) (p_chan p);
        Some (set_worker (set_chan (set_loans p o') x.2) i (MkW (moved w1) (WSending r)))
    end
  else Some (set_worker p i (MkW w WExit)).

Definition exec_send (p : pipe) (i : N) (w : Worker) (r : Reclaim) : option pipe :=
  match exec (DoSend i) (p_chan p), threads (p_chan p) !! i with
  | Some (EvSent _ _ _, c'), _ => Some (set_worker (set_chan p c') i (MkW w (WReclaim r)))
  | Some (EvSendErr _, c'), Some st =>
      x ← drop_loan (data (t_val st).2) (p_loans p);
      Some (set_worker (set_chan (set_loans p x.2) c') i (MkW w WExit))
  | Some (EvWait _, c'), _ => Some (set_chan p c')
  | _, _ => None
  end.

Definition exec_work (p : pipe) (i : N) : option pipe :=
  match p_workers p !! i with
  | None | Some (MkW _ WDone) => None
  | Some (MkW w WOpen) => Some (set_worker p i (MkW w WHead))
  | Some (MkW w WHead) => exec_head p i w
  | Some (MkW w (WSending r)) => exec_send p i w r
  | Some (MkW w (WReclaim r)) =>
      match blocking_reclaim r (p_loans p) with
      | (Ready b, o') => Some (set_worker (set_loans p o') i (MkW (with_buffer w b) WSeek))
      | (Pending, _) => None
      end
  | Some (MkW w WSeek) =>
      match worker_advance block_size workers w with
      | Ok w' => Some (set_worker p i (MkW w' WHead))
      | Err _ => None
      end
  | Some (MkW w (WFail e)) =>
      Some (set_worker (set_err p (wt_send (Some e) (p_err p))) i (MkW w WClose))
  | Some (MkW w WClose) =>
      x ← exec DoSenderClose (p_chan p); Some (set_worker (set_chan p x.2) i (MkW w WExit))
  | Some (MkW w WExit) =>
      x ← exec DoSenderDrop (p_chan p); Some (set_worker (set_chan p x.2) i (MkW w WDone))
  end.

Definition pexec (c : PCmd) (p : pipe) : option pipe :=
  match c with
  | CWork i => exec_work p i
  | CEnter =>
      if is_live p && set_ok p then
        x ← exec DoEnter (p_chan p); Some (set_err (set_chan p x.2) (wt_update (p_err p)))
      else None
  | CPoll =>
      if is_live p then x ← exec DoPoll (p_chan p); Some (set_chan p x.2) else None
  | CExit =>
      match is_live p, exec DoExit (p_chan p) with
      | true, Some (EvExit v, c') =>
          Some (MkPipe c' (p_workers p) (p_file p) (p_loans p) (p_err p) (p_held p ++ [v.2])
                       (p_stream p) (p_recvd p ++ [v]) (p_hist p))
      | _, _ => None
      end
  | CCancel =>
      if is_live p then x ← exec DoCancel (p_chan p); Some (set_chan p x.2) else None
  | CDrop =>
      match p_held p with
      | [] => None
      | d :: l => x ← drop_loan (data d) (p_loans p); Some (set_held (set_loans p x.2) l)
      end
  | CHsDrop =>
      if is_live p then x ← exec DoRecvClose (p_chan p);
                        Some (set_stream (set_chan p x.2) Joining)
      else None
  | CJoined =>
      match p_stream p with
      | Joining => if decide (map_Forall (λ _ w, w_pc w = WDone) (p_workers p))
                   then Some (set_stream p Dropped) else None
      | _ => None
      end
  | CEnv f => Some (MkPipe (p_chan p) (p_workers p) f (p_loans p) (p_err p) (p_held p)
                           (p_stream p) (p_recvd p) (f :: p_hist p))
  end.

Fixpoint prun (cs : list PCmd) (p : pipe) : option pipe :=
  match cs with
  | [] => Some p
  | c :: cs => p' ← pexec c p; prun cs p'
  end.

#[local] Abbreviation pstep' := (pstep file_size block_size workers algorithm).

Lemma exec_work_step p i p' : exec_work p i = Some p' → pstep' p (PWork i) p'.
Proof.
  unfold exec_work. destruct (p_workers p !! i) as [[w pc]|] eqn:HW; [|done].
  destruct pc as [| |r|r| |e| | |]; intros E; simplify_eq.
  - by eapply (ps_open _ _ _ _ p i w).
  - unfold exec_head, set_ok in E. destruct (worker_continues file_size w) eqn:Hc; cbn in E.
    2:{ simplify_eq. eapply (ps_head_exit _ _ _ _ p i w); auto. }
    case_bool_decide as He.
    2:{ simplify_eq. eapply (ps_head_exit _ _ _ _ p i w); auto. }
    destruct (worker_read file_size block_size (p_file p) w) as [w1|err] eqn:Er; simplify_eq.
    2:{ by eapply (ps_read_err _ _ _ _ p i w). }
    destruct (make_block_data algorithm (buffer w1) (p_loans p)) as [[d r] o'] eqn:Em.
    destruct (threads (p_chan p) !! i) eqn:Ht; cbn in E; simplify_eq.
    eapply (ps_read _ _ _ _ p i w w1); [done..|]. by apply step_call.
  - unfold exec_send in E. destruct (exec (DoSend i) (p_chan p)) as [[e c']|] eqn:Ex; [|done].
    pose proof (exec_step _ _ _ _ Ex) as Hst.
    cbn in Ex. destruct (threads (p_chan p) !! i) as [st|] eqn:Ht; [|done].
    destruct st as [idx v| |]; [|done..]. destruct (lock_freeb (p_chan p)); [|done].
    destruct (send_attempt idx v (chan (p_chan p))) eqn:Ha; simplify_eq.
    + by eapply (ps_sent _ _ _ _ p i w r idx v).
    + cbn in E. destruct (drop_loan (data v.2) (p_loans p)) as [[l' o']|] eqn:Ed; cbn in E; simplify_eq.
      by eapply (ps_send_err _ _ _ _ p i w r (TLocking idx v)).
    + eapply (ps_wait _ _ _ _ p i w r (EvWait i)); auto.
  - destruct (blocking_reclaim r (p_loans p)) as [[b|] o'] eqn:Eb; simplify_eq.
    by eapply (ps_reclaim _ _ _ _ p i w r).
  - destruct (worker_advance block_size workers w) as [w'|] eqn:Ea; simplify_eq.
    by eapply (ps_seek _ _ _ _ p i w w').
  - by eapply (ps_fail _ _ _ _ p i w e).
  - destruct (exec DoSenderClose (p_chan p)) as [[e c']|] eqn:Ex; cbn in E; simplify_eq.
    pose proof (exec_step _ _ _ _ Ex) as Hst. cbn in Ex. case_match; simplify_eq.
    by eapply (ps_close _ _ _ _ p i w).
  - cbn in E. simplify_eq. eapply (ps_exit _ _ _ _ p i w); [done|].
    apply step_sender_drop.
Qed.

Lemma pexec_step c p p' : pexec c p = Some p' → ∃ e, pstep' p e p'.
Proof.
  destruct c; cbn [pexec]; intros E;
    [by exists (PWork i); apply exec_work_step|..].
  5:{ destruct (p_held p) as [|d l] eqn:Hh; [done|].
    destruct (drop_loan (data d) (p_loans p)) as [[l' o']|] eqn:Ed; cbn in E; simplify_eq.
    eexists. by eapply (ps_drop_block _ _ _ _ p [] d l). }
  7:{ simplify_eq. eexists. apply ps_env. }
  all: unfold is_live in E; destruct (p_stream p) eqn:Hl; cbn [andb] in E; try done.
  - unfold set_ok in E. case_bool_decide as He; [|done].
    destruct (exec DoEnter (p_chan p)) as [[e c']|] eqn:Ex; cbn in E; simplify_eq.
    pose proof (exec_step _ _ _ _ Ex) as Hst. cbn in Ex. repeat case_match; simplify_eq.
    eexists. by eapply (ps_enter _ _ _ _ p).
  - destruct (exec DoPoll (p_chan p)) as [[e c']|] eqn:Ex; cbn in E; simplify_eq.
    pose proof (exec_step _ _ _ _ Ex) as Hst. cbn in Ex. repeat case_match; simplify_eq.
    + eexists. by eapply (ps_pop _ _ _ _ p).
    + eexists. by eapply (ps_end _ _ _ _ p).
  - destruct (exec DoExit (p_chan p)) as [[e c']|] eqn:Ex; [|done].
    pose proof (exec_step _ _ _ _ Ex) as Hst. destruct e; simplify_eq. rewrite <-Hl.
    eexists. by eapply (ps_deliver _ _ _ _ p).
  - destruct (exec DoCancel (p_chan p)) as [[e c']|] eqn:Ex; cbn in E; simplify_eq.
    pose proof (exec_step _ _ _ _ Ex) as Hst. cbn in Ex. repeat case_match; simplify_eq.
    eexists. by eapply (ps_cancel _ _ _ _ p).
  - destruct (exec DoRecvClose (p_chan p)) as [[e c']|] eqn:Ex; cbn in E; simplify_eq.
    pose proof (exec_step _ _ _ _ Ex) as Hst. cbn in Ex. repeat case_match; simplify_eq.
    eexists. by eapply (ps_hs_drop _ _ _ _ p).
  - case_decide; simplify_eq. eexists. by eapply (ps_joined _ _ _ _ p).
Qed.

Lemma prun_reach file o cs p p' :
  preach file_size block_size workers algorithm file o p → prun cs p = Some p' →
  preach file_size block_size workers algorithm file o p'.
Proof.
  revert p. induction cs as [|c cs IH]; intros p Hp; cbn [prun]; [by intros; simplify_eq|].
  destruct (pexec c p) as [p1|] eqn:E; [|done]. cbn. apply IH.
  destruct (pexec_step _ _ _ E) as [e He]. by apply (preach_step _ _ _ _ _ _ p e).
Qed.
End exec.

(** ** Properties *)

Section properties.
Context {Q O Wt : Type} `{!Mpsc Val Q, !MpscLaws Val Q, !Oneshot bytes O, !OneshotLaws bytes O}.
Context `{!Watch (option WorkerError) Wt, !WatchLaws (option WorkerError) Wt} {Hsh : Hashing}.
Context {file_size block_size workers : N} {algorithm : HashAlgorithm}.
#[local] Abbreviation nb := (num_blocks file_size block_size).
#[local] Abbreviation pipe := (Pipe Q O Wt).
#[local] Abbreviation run' := (work_run (file_size:=file_size) (block_size:=block_size)
  (workers:=workers) (algorithm:=algorithm)).
Implicit Types p : pipe.

Lemma preach_size file (o : O) p :
  preach file_size block_size workers algorithm file o p → lenN file = file_size.
Proof. by induction 1. Qed.

(** The message of block [k] of a file. *)
Definition expected (file : bytes) (k : N) : N * bytes * bytes :=
  let b := block file_size block_size file k in (k, hash_data b algorithm, b).
Definition content (v : Val) : N * bytes * bytes := (v.1, hash v.2, deref (data v.2)).

Lemma recvd_expected file (o : O) p :
  sane file_size block_size workers → preach file_size block_size workers algorithm file o p →
  p_hist p = [file] →
  content <$> p_recvd p = expected file <$> seqN (length (p_recvd p)).
Proof.
  intros Hs Hp Hh. apply (preach_inv Hs) in Hp. apply list_eq. intros n.
  rewrite !list_lookup_fmap. destruct (p_recvd p !! n) as [v|] eqn:Hn.
  - destruct (recvd_ok Hs p n v Hp Hn) as [(H1 & H2 & f & Hf & H3 & _) _].
    rewrite Hh in Hf. apply list_elem_of_singleton in Hf as ->.
    apply lookup_lt_Some in Hn. unfold seqN. rewrite list_lookup_fmap, lookup_seq_lt by done.
    cbn in H1, H2, H3 |- *. unfold content, expected. by rewrite H1, H2, H3.
  - apply lookup_ge_None in Hn. cbn. unfold seqN.
    by rewrite list_lookup_fmap, lookup_seq_ge by done.
Qed.


(** C22. Completeness: when the stream of a file that does not change ends and no
    worker has published an error, the consumer has received every block, each
    once, in order, with its digest; their data put together are the file. *)
Theorem hash_stream_complete file (o : O) p p' :
  sane file_size block_size workers →
  preach file_size block_size workers algorithm file o p → p_hist p = [file] →
  wt_value (p_err p) = None → pstep file_size block_size workers algorithm p PEnd p' →
  content <$> p_recvd p = expected file <$> seqN (N.to_nat nb)
  ∧ concat (snd <$> (content <$> p_recvd p)) = file.
Proof.
  intros Hs Hp Hh He Hst. pose proof (preach_size _ _ _ Hp) as Hf.
  pose proof (recvd_expected _ _ _ Hs Hp Hh) as Hr. pose proof (preach_inv Hs _ _ _ Hp) as Hi.
  rewrite (end_complete Hs p p' Hi Hst He) in Hr. rewrite Hr. split; [done|].
  rewrite <-list_fmap_compose. by apply (concat_all_blocks Hs).
Qed.

(** C28. Bounded memory: the blocks that have left their worker and were not
    dropped (in the channel, in [recv], or held by the consumer) are at most as
    many as the workers. *)
Theorem hash_stream_memory file (o : O) p :
  sane file_size block_size workers → preach file_size block_size workers algorithm file o p →
  (length (inflight p) ≤ N.to_nat workers)%nat.
Proof.
  intros Hs Hp. apply (preach_inv Hs) in Hp as [[_ Hw] _ Hl _].
  rewrite <-(size_workers _ _ _ Hw). by eapply loans_inv_bound.
Qed.

(** C25. No deadlock while the stream is in use: when the consumer awaits [recv]
    and has dropped the blocks it got, the workers can make only finitely many
    steps (spurious wakeups apart), and in a state where none of them has a
    step left the next block is in the channel or the stream has ended. *)
Theorem hash_stream_progress file (o : O) p n p' :
  sane file_size block_size workers → preach file_size block_size workers algorithm file o p →
  p_stream p = Live → rphase (p_chan p) = RAwait → p_held p = [] → run' n p p' →
  (n ≤ measure (file_size:=file_size) (block_size:=block_size) (workers:=workers) p)%nat
  ∧ ((∀ i p2, ¬ pstep file_size block_size workers algorithm p' (PWork i) p2) →
     ∃ p2, pstep file_size block_size workers algorithm p' PPop p2
           ∨ pstep file_size block_size workers algorithm p' PEnd p2).
Proof.
  intros Hs Hp Hl Hph Hh Hr. apply (preach_inv Hs) in Hp.
  destruct (work_run_inv Hs n p p' Hp Hr) as (Hp' & Hm & H1 & H2 & H3 & _). split; [lia|].
  apply (await_progress Hs); congruence.
Qed.

(** C27. The drop of the stream returns when no block is on its way: the workers
    can make only finitely many steps, and when none has a step left they have
    all ended, so that [join] returns. *)
Theorem hash_stream_drop_returns file (o : O) p n p' :
  sane file_size block_size workers → preach file_size block_size workers algorithm file o p →
  p_stream p = Joining → inflight p = [] → run' n p p' →
  (n ≤ measure (file_size:=file_size) (block_size:=block_size) (workers:=workers) p)%nat
  ∧ ((∀ i p2, ¬ pstep file_size block_size workers algorithm p' (PWork i) p2) →
     ∃ p2, pstep file_size block_size workers algorithm p' PJoined p2).
Proof.
  intros Hs Hp Hj Hfl Hr. apply (preach_inv Hs) in Hp. pose proof Hp as [_ Hf _ _].
  destruct (work_run_inv Hs n p p' Hp Hr) as (Hp' & Hm & H1 & H2 & H3 & H4). split; [lia|].
  destruct (fi_over _ Hf) as [Hc _]; [by rewrite Hj|]. destruct (H4 Hc) as [Hc' Hit]. intros Hno.
  assert (inflight p' = []) as Hfl' by (by rewrite (inflight_eq p) by done).
  eexists. apply ps_joined; [congruence|]. intros i W HW.
  destruct (decide (w_pc W = WDone)) as [|Hd]; [done|].
  destruct (stuck_workers Hs p' Hp' Hfl' Hno i W HW Hd) as (_ & _ & _ & _ & ? & _). congruence.
Qed.

(** C26. The drop of the stream can hang: if it begins while a block sits in the
    channel (a [recv] was cancelled before the worker sent), whatever happens
    afterwards, [join] never returns: closing the receiver does not drop the
    buffered loan, and its worker waits for it. *)
Theorem hash_stream_drop_deadlock file (o : O) p p' :
  sane file_size block_size workers → preach file_size block_size workers algorithm file o p →
  p_stream p = Joining → items (p_chan p) ≠ [] →
  rtc (λ p1 p2, ∃ e, pstep file_size block_size workers algorithm p1 e p2) p p' →
  p_stream p' = Joining.
Proof.
  intros Hs Hp%(preach_inv Hs) Hj Hit Hr. induction Hr as [p|p p1 p2 [e Hst] _ IH]; [done|].
  pose proof (pipe_step Hs p e p1 Hp Hst) as Hp1. pose proof Hp as [Hb Hf Hl _].
  destruct (fi_over _ Hf) as [Hc Hph]; [by rewrite Hj|].
  assert (p_stream p1 = Joining ∧ items (p_chan p1) = items (p_chan p)) as [H1 H2];
    [|by apply IH; [|rewrite ?H1|rewrite H2]].
  destruct e; try (inversion Hst; subst; try done; congruence).
  - destruct (work_step_same Hs p i p1 Hp Hst) as (-> & _ & _ & H4). by destruct (H4 Hc).
  - inversion Hst; subst. match goal with H : step _ _ _ |- _ => rename H into Hw end.
    destruct (base_effect Hs _ _ _ Hb Hw) as (_ & F & _). done.
  - exfalso. inversion Hst; subst.
    match goal with H : map_Forall _ _ |- _ => rename H into Hall end.
    destruct (items (p_chan p)) as [|x l] eqn:E; [done|].
    destruct (li_flight _ _ _ Hl x.2) as (i & w & r & Hi & _).
    { unfold inflight. rewrite E. by left. }
    by specialize (Hall _ _ Hi).
Qed.

(** C29. An error can pass for the end: when the workers have all ended, one of
    them with an error published after [recv] was entered, both branches of the
    [select!] of [recv] are ready, and it may return the end of the stream. *)
Theorem hash_stream_error_race file (o : O) p e :
  sane file_size block_size workers → preach file_size block_size workers algorithm file o p →
  p_stream p = Live → rphase (p_chan p) = RAwait → items (p_chan p) = [] →
  (∀ i W, p_workers p !! i = Some W → w_pc W = WDone) →
  wt_value (p_err p) = Some e → wt_unseen (p_err p) = true →
  (∃ p', pstep file_size block_size workers algorithm p (PError e) p')
  ∧ ∃ p', pstep file_size block_size workers algorithm p PEnd p'.
Proof.
  intros Hs Hp%(preach_inv Hs) Hl Hph Hit Hd He Hu. pose proof Hp as [Hb Hf _ _]. split.
  - eexists. eapply ps_changed; try done. by apply step_cancel.
  - eexists. eapply ps_end; [done|]. apply step_none; [done|]. apply mp_recv_none; [done|right].
    pose proof (fi_senders _ Hf) as Hsz. unfold senders in Hsz. rewrite Hsz.
    apply map_size_empty_iff, map_empty. intros i. apply map_lookup_filter_None. right.
    intros W HW Hn. by apply Hn, (Hd i).
Qed.
End properties.

(** ** The properties on runs: the file of 23 bytes of HashFile.v, blocks of 10,
    two workers *)

#[local] Existing Instance toy_hashing.

Abbreviation SamplePipe := (Pipe (MpQueue Val) (OsStore bytes) (option WorkerError * bool)).

Lemma sample_sane : sane 23 10 2.
Proof. repeat split; vm_compute; reflexivity. Qed.

Definition sample_start : SamplePipe := hash_file 10 2 sample_file (MkOsStore 0 ∅).

Definition after (cs : list PCmd) : SamplePipe :=
  default sample_start (prun 23 10 2 CRC32 cs sample_start).

Lemma after_reach cs : preach 23 10 2 CRC32 sample_file (MkOsStore 0 ∅) (after cs).
Proof.
  unfold after. destruct (prun 23 10 2 CRC32 cs sample_start) as [p|] eqn:E; cbn [default].
  - eapply prun_reach; [|exact E]. by apply preach_init.
  - by apply preach_init.
Qed.

(** Both workers start and call [send]. *)
Definition cmds_start : list PCmd := [CWork 0; CWork 0; CWork 1; CWork 1].
(** Worker [i] is received, its block dropped, and it goes to its next block. *)
Definition cmds_recv (i : N) : list PCmd :=
  [CEnter; CWork i; CPoll; CExit; CDrop; CWork i; CWork i].
Definition cmds_all : list PCmd :=
  cmds_start ++ cmds_recv 0 ++ [CWork 0] ++ cmds_recv 1 ++ [CWork 1; CWork 1]
  ++ cmds_recv 0 ++ [CWork 0; CWork 0; CEnter].


Lemma sample_end : ∃ p', pstep 23 10 2 CRC32 (after cmds_all) PEnd p'.
Proof.
  eexists. eapply ps_end; [vm_compute; reflexivity|].
  apply step_none; vm_compute; reflexivity.
Qed.

Lemma hash_stream_complete_witness :
  concat (snd <$> (content <$> p_recvd (after cmds_all))) = sample_file.
Proof.
  destruct sample_end as [p' Hp'].
  apply (hash_stream_complete _ _ _ p' sample_sane (after_reach cmds_all));
    [vm_compute; reflexivity|vm_compute; reflexivity|exact Hp'].
Defined.

Lemma hash_stream_memory_witness :
  (length (inflight (after (cmds_start ++ [CEnter; CWork 0; CPoll; CExit]))) ≤ 2)%nat.
Proof. apply (hash_stream_memory _ _ _ sample_sane (after_reach _)). Defined.

(** A [recv] awaited, before and after worker 0 has sent its block. *)
Definition sample_await : SamplePipe := after (cmds_start ++ [CEnter]).
Definition sample_sent : SamplePipe := after (cmds_start ++ [CEnter; CWork 0]).

Lemma hash_stream_progress_witness :
  (1 ≤ measure (file_size:=23) (block_size:=10) (workers:=2) sample_await)%nat
  ∧ ((∀ i p2, ¬ pstep 23 10 2 CRC32 sample_sent (PWork i) p2) →
     ∃ p2, pstep 23 10 2 CRC32 sample_sent PPop p2 ∨ pstep 23 10 2 CRC32 sample_sent PEnd p2).
Proof.
  apply (hash_stream_progress _ _ sample_await 1 sample_sent sample_sane (after_reach _));
    [vm_compute; reflexivity..|].
  eapply (work_more 0 _ 0); [|apply work_done]. apply exec_work_step. vm_compute. reflexivity.
Defined.

(** The test [dropped]: a block received and dropped, then the stream dropped. *)
Definition sample_drop : SamplePipe := after (cmds_start ++ cmds_recv 0 ++ [CHsDrop]).

Lemma hash_stream_drop_returns_witness :
  (0 ≤ measure (file_size:=23) (block_size:=10) (workers:=2) sample_drop)%nat
  ∧ ((∀ i p2, ¬ pstep 23 10 2 CRC32 sample_drop (PWork i) p2) →
     ∃ p2, pstep 23 10 2 CRC32 sample_drop PJoined p2).
Proof.
  apply (hash_stream_drop_returns _ _ sample_drop 0 sample_drop sample_sane (after_reach _));
    [vm_compute; reflexivity..|apply work_done].
Defined.

(** A [recv] entered and cancelled, block 0 sent, then the stream dropped. *)
Definition sample_stuck : SamplePipe :=
  after (cmds_start ++ [CEnter; CCancel; CWork 0; CHsDrop]).

Lemma hash_stream_drop_deadlock_witness :
  p_stream sample_stuck = Joining ∧ items (p_chan sample_stuck) ≠ []
  ∧ ∀ p', rtc (λ p1 p2, ∃ e, pstep 23 10 2 CRC32 p1 e p2) sample_stuck p' → p_stream p' = Joining.
Proof.
  split; [vm_compute; reflexivity|]. split; [vm_compute; discriminate|].
  intros p' Hr.
  apply (hash_stream_drop_deadlock _ _ sample_stuck p' sample_sane (after_reach _));
    [vm_compute; reflexivity|vm_compute; discriminate|exact Hr].
Defined.

(** The file truncated before the workers read it. *)
Definition cmds_error : list PCmd :=
  [CWork 0; CWork 1; CEnv []; CEnter; CWork 0; CWork 0; CWork 0; CWork 0; CWork 1; CWork 1].

Lemma sample_error_done i W : p_workers (after cmds_error) !! i = Some W → w_pc W = WDone.
Proof.
  revert i W. assert (map_Forall (λ _ W, w_pc W = WDone) (p_workers (after cmds_error))) as H;
    [|exact H].
  apply (bool_decide_unpack _). vm_compute. exact I.
Qed.

Lemma hash_stream_error_race_witness :
  ∃ p', pstep 23 10 2 CRC32 (after cmds_error) PEnd p'.
Proof.
  apply (hash_stream_error_race _ _ (after cmds_error) (FailedToReadBlock 0 EkUnexpectedEof)
    sample_sane (after_reach _));
    [vm_compute; reflexivity..|apply sample_error_done|vm_compute; reflexivity
    |vm_compute; reflexivity].
Defined.
