(* ===== verification/Hasher.v ===== *)
(** The interface between the hashing pipeline and the two event loops: what
    the client and the server use of [HashStream] (src/src/hash_file.rs, lines
    140-163), and its discharge by the transition system of Pipeline.v run under
    an arbitrary schedule of the workers. *)

From stdpp Require Import base option list numbers gmap.
From Stdlib Require Import NArith Lia.
From S2P Require Import Prelude AsyncIO Loan OrderedChannel HashFile Pipeline PipelineInv.
From S2P Require Import HashStream.
#[local] Open Scope N_scope.

(** ** The interface *)

(** [h_poll] polls the future of [HashStream::recv], [h_cancel] drops it while
    it is pending, [h_release] drops the data of a block that was received.
    [h_recvd] is the history of what was received, [h_contents] the contents the
    file has had, [h_failed] whether a worker failed, [h_loans] the data of blocks
    that were received and not dropped, as far as the stream waits for them. *)
Class Hasher (H : Type) := {
  h_poll : H → Poll (Result (option Val)) * H;
  h_cancel : H → H;
  h_release : Loan bytes → H → H;
  h_recvd : H → list Val;
  h_contents : H → list bytes;
  h_failed : H → bool;
  h_loans : H → list (Loan bytes);
}.

(** Item [k] of a stream: its index, block [k] of the file at some moment, a
    digest of its data. *)
Definition item_ok `{!Hashing} (file_size block_size : N) (algorithm : HashAlgorithm)
    (contents : list bytes) (k : N) (v : Val) : Prop :=
  v.1 = k ∧ k < num_blocks file_size block_size
  ∧ hash v.2 = hash_data (deref (data v.2)) algorithm
  ∧ lenN (deref (data v.2)) = block_len file_size block_size k
  ∧ ∃ file, file ∈ contents ∧ deref (data v.2) = block file_size block_size file k.

(** What the stream promises, in the states [h_ok] it goes through: the items
    come in order; the end comes after the last one or a failure; waiting,
    cancelling and dropping blocks loses nothing. *)
Class HasherLaws (H : Type) {Hh : Hasher H} {Hg : Hashing} (file_size block_size : N)
    (algorithm : HashAlgorithm) (h_ok : H → Prop) : Prop := {
  h_poll_ok h r h' : h_ok h → h_poll h = (r, h') → h_ok h' ∧ h_contents h ⊆ h_contents h';
  h_poll_item h v h' : h_ok h → h_poll h = (Ready (Ok (Some v)), h') →
    h_recvd h' = h_recvd h ++ [v]
    ∧ item_ok file_size block_size algorithm (h_contents h') (lenN (h_recvd h)) v;
  h_poll_end h h' : h_ok h → h_poll h = (Ready (Ok None), h') →
    h_recvd h' = h_recvd h
    ∧ (h_failed h' = true ∨ lenN (h_recvd h) = num_blocks file_size block_size);
  h_poll_err h e h' : h_ok h → h_poll h = (Ready (Err e), h') →
    h_recvd h' = h_recvd h ∧ h_failed h' = true;
  h_poll_pending h h' : h_ok h → h_poll h = (Pending, h') → h_recvd h' = h_recvd h;
  h_cancel_ok h : h_ok h → h_ok (h_cancel h) ∧ h_recvd (h_cancel h) = h_recvd h
    ∧ h_contents (h_cancel h) = h_contents h;
  h_release_ok l h : h_ok h → h_ok (h_release l h) ∧ h_recvd (h_release l h) = h_recvd h
    ∧ h_contents (h_release l h) = h_contents h;
  h_poll_loans h r h' : h_ok h → h_poll h = (r, h') →
    h_loans h' ⊆+ match r with Ready (Ok (Some v)) => [data v.2] | _ => [] end ++ h_loans h;
  h_cancel_loans h : h_ok h → h_loans (h_cancel h) ⊆+ h_loans h;
  h_release_loans l L h : h_ok h → h_loans h ⊆+ l :: L → h_loans (h_release l h) ⊆+ L;
}.

(** A stream that is pending only finitely often, not counting the times it waits
    for blocks to be dropped. *)
Class FairHasher (H : Type) {Hh : Hasher H} (h_ok : H → Prop) := {
  h_stalls : H → nat;
  h_stalls_pending h h' : h_ok h → h_poll h = (Pending, h') → h_loans h = [] →
    (h_stalls h' < h_stalls h)%nat;
  h_stalls_poll h r h' : h_ok h → h_poll h = (r, h') → (h_stalls h' ≤ h_stalls h)%nat;
  h_stalls_cancel h : h_ok h → (h_stalls (h_cancel h) ≤ h_stalls h)%nat;
  h_stalls_release l h : h_ok h → (h_stalls (h_release l h) ≤ h_stalls h)%nat;
}.

(** Workers that do not fail, and whose reading of the file is not part of a
    poll. *)
Class SureHasher (H : Type) {Hh : Hasher H} (h_ok : H → Prop) : Prop := {
  sure_fine h : h_ok h → h_failed h = false;
  sure_steady h r h' : h_ok h → h_poll h = (r, h') → h_contents h' = h_contents h;
}.

(** The workers read the file as it is. *)
Class Rereads (H : Type) {Hh : Hasher H} (file_size : N) (h_ok : H → Prop) `{!FairHasher H h_ok} := {
  h_reread : bytes → H → H;
  reread_ok f h : h_ok h → lenN f = file_size → h_ok (h_reread f h);
  reread_recvd f h : h_recvd (h_reread f h) = h_recvd h;
  reread_contents f h g : g ∈ h_contents (h_reread f h) → g ∈ h_contents h ∨ g = f;
  reread_loans f h : h_loans (h_reread f h) = h_loans h;
  reread_stalls f h : h_ok h → lenN f = file_size → (h_stalls (h_reread f h) ≤ h_stalls h)%nat;
}.

Section quiet.
Context {H : Type} {Hh : Hasher H} {Hg : Hashing} {file_size block_size : N}.
Context {algorithm : HashAlgorithm} {h_ok : H → Prop}.
Context {Hlaws : HasherLaws H file_size block_size algorithm h_ok}.

(** A stream that waits for no block does so after its future is dropped, and
    after a block is received and dropped. *)
Lemma cancel_quiet (b : bool) h : h_ok h → h_loans h = [] →
  h_loans (if b then h_cancel h else h) = [].
Proof.
  intros Hk Hl. destruct b; [|done]. apply submseteq_nil_r. rewrite <-Hl.
  by apply (h_cancel_loans (h_ok:=h_ok)).
Qed.

Lemma release_quiet h v h' : h_ok h → h_poll h = (Ready (Ok (Some v)), h') → h_loans h = [] →
  h_loans (h_release (data v.2) h') = [].
Proof.
  intros Hk E Hl. apply submseteq_nil_r. apply (h_release_loans (h_ok:=h_ok)).
  - by apply (h_poll_ok (h_ok:=h_ok) _ _ _ Hk E).
  - rewrite <-Hl. exact (h_poll_loans (h_ok:=h_ok) _ _ _ Hk E).
Qed.

Lemma poll_quiet h r h' : h_ok h → h_poll h = (r, h') → h_loans h = [] →
  match r with Ready (Ok (Some _)) => True | _ => h_loans h' = [] end.
Proof.
  intros Hk E Hl. pose proof (h_poll_loans (h_ok:=h_ok) _ _ _ Hk E) as Hs. rewrite Hl in Hs.
  by destruct r as [[[v|]|e]|]; [|apply submseteq_nil_r..].
Qed.

(** The stream read to its end, each block dropped when it was read. *)
Fixpoint drain (n : nat) (h : H) : option H :=
  match n with
  | O => None
  | S n =>
      match h_poll h with
      | (Ready (Ok (Some v)), h') => drain n (h_release (data v.2) h')
      | (Ready (Ok None), h') => Some h'
      | (Ready (Err _), _) => None
      | (Pending, h') => drain n h'
      end
  end.

(** It comes to its end, and all items were received. *)
Lemma drain_ends `{!FairHasher H h_ok, !SureHasher H h_ok} n h : h_ok h → h_loans h = [] →
  (h_stalls h + (N.to_nat (num_blocks file_size block_size) - length (h_recvd h)) < n)%nat →
  ∃ h', drain n h = Some h' ∧ h_ok h' ∧ lenN (h_recvd h') = num_blocks file_size block_size
    ∧ h_contents h' = h_contents h.
Proof.
  revert h. induction n as [|n IH]; intros h Hk Hl Hn; [lia|]. cbn [drain].
  destruct (h_poll h) as [r h'] eqn:E.
  destruct (h_poll_ok (h_ok:=h_ok) _ _ _ Hk E) as [Hk' _].
  pose proof (sure_steady (h_ok:=h_ok) _ _ _ Hk E) as Hc.
  pose proof (h_stalls_poll _ _ _ Hk E) as Hst.
  pose proof (poll_quiet _ _ _ Hk E Hl) as Hq. destruct r as [[[v|]|e]|].
  - destruct (h_poll_item (h_ok:=h_ok) _ _ _ Hk E) as [Hr (_ & Hlt & _)].
    destruct (h_release_ok (h_ok:=h_ok) (data v.2) _ Hk') as (R1 & R2 & R3).
    pose proof (h_stalls_release (data v.2) h' Hk').
    destruct (IH (h_release (data v.2) h')) as (h2 & H1 & H2 & H3 & H4); [done| | |].
    + exact (release_quiet _ _ _ Hk E Hl).
    + rewrite R2, Hr, length_app. cbn. unfold lenN in Hlt. lia.
    + exists h2. split_and!; [done..|]. by rewrite H4, R3.
  - destruct (h_poll_end (h_ok:=h_ok) _ _ Hk E) as [Hr [Hf|Hf]];
      [by rewrite (sure_fine (h_ok:=h_ok) _ Hk') in Hf|]. exists h'. by rewrite Hr.
  - destruct (h_poll_err (h_ok:=h_ok) _ _ _ Hk E) as [_ Hf].
    by rewrite (sure_fine (h_ok:=h_ok) _ Hk') in Hf.
  - pose proof (h_poll_pending (h_ok:=h_ok) _ _ Hk E) as Hr.
    pose proof (h_stalls_pending _ _ Hk E Hl).
    destruct (IH h' Hk' Hq) as (h2 & H1 & H2 & H3 & H4); [rewrite Hr; lia|].
    exists h2. split_and!; [done..|]. by rewrite H4.
Qed.
End quiet.

(** ** The reference stream: a file in memory, hashed on demand, pending where
    its script says so *)

Record MemHasher := MkMemHasher {
  mem_file : bytes;
  mem_recvd : list Val;
  mem_script : list bool;
}.

Section reference.
Context {Hg : Hashing} (file_size block_size : N) (algorithm : HashAlgorithm).

Definition mem_item (file : bytes) (k : N) : Val :=
  let b := block file_size block_size file k in
  (k, MkFileBlockData (hash_data b algorithm) (MkLoan b None)).

Definition mem_poll (h : MemHasher) : Poll (Result (option Val)) * MemHasher :=
  let k := lenN (mem_recvd h) in
  match mem_script h with
  | true :: l => (Pending, MkMemHasher (mem_file h) (mem_recvd h) l)
  | l =>
      if k <? num_blocks file_size block_size then
        let v := mem_item (mem_file h) k in
        (Ready (Ok (Some v)), MkMemHasher (mem_file h) (mem_recvd h ++ [v]) (tail l))
      else (Ready (Ok None), MkMemHasher (mem_file h) (mem_recvd h) (tail l))
  end.

#[global] Instance mem_hasher : Hasher MemHasher := {
  h_poll := mem_poll;
  h_cancel h := h;
  h_release _ h := h;
  h_recvd := mem_recvd;
  h_contents h := [mem_file h];
  h_failed _ := false;
  h_loans _ := [];
}.

#[global] Instance mem_fair h_ok : FairHasher MemHasher h_ok.
Proof.
  refine {| h_stalls h := length (mem_script h) |}; try done;
    intros [file recvd [|[] l]]; cbn; unfold mem_poll; cbn; intros; repeat case_match;
    simplify_eq; cbn; lia.
Defined.

(** Items received so far are the first ones. *)
Definition mem_ok (file : bytes) (h : MemHasher) : Prop :=
  mem_file h = file ∧ lenN (mem_recvd h) ≤ num_blocks file_size block_size
  ∧ mem_recvd h = mem_item file <$> seqN (length (mem_recvd h)).

#[global] Instance mem_hasher_laws (file : bytes) (Hs : sane file_size block_size 1)
    (Hf : lenN file = file_size) : HasherLaws MemHasher file_size block_size algorithm (mem_ok file).
Proof.
  split; try done; try (intros; apply submseteq_nil_l);
    cbn [h_poll h_recvd h_contents h_failed mem_hasher]; unfold mem_poll.
  all: intros [f recvd l].
  - intros r h' (H1 & H2 & H3) E. cbn in *. subst f.
    destruct l as [|[] l]; [|by simplify_eq|]; (destruct (N.ltb_spec (lenN recvd)
      (num_blocks file_size block_size)); simplify_eq; [|by split]); (split; [|done]).
    all: split_and!; cbn; [done|unfold lenN in *; len_lia|].
    all: change (N.of_nat <$> seq 0 ?n) with (seqN n) in *.
    all: rewrite last_length, seqN_S, fmap_app, <-H3; done.
  - intros v h' (H1 & H2 & H3) E. cbn in *. subst f.
    assert (lenN recvd < num_blocks file_size block_size
      ∧ v = mem_item file (lenN recvd) ∧ mem_recvd h' = recvd ++ [v] ∧ mem_file h' = file)
      as (Hlt & -> & -> & ->).
    { destruct l as [|[] l]; [|done|]; (destruct (N.ltb_spec (lenN recvd)
      (num_blocks file_size block_size)); by simplify_eq). }
    split; [done|]. split; [done|]. split; [done|]. split; [done|]. cbn.
    split; [by apply (length_block Hs)|]. exists file. split; [by left|done].
  - intros h' (H1 & H2 & H3) E. cbn in *.
    destruct l as [|[] l]; [|done|]; (destruct (N.ltb_spec (lenN recvd)
      (num_blocks file_size block_size)); [done|]); simplify_eq; (split; [done|right]; lia).
  - intros e h' _ E. cbn in *. by destruct l as [|[] l]; repeat case_match.
  - intros h' _ E. cbn in *. destruct l as [|[] l]; repeat case_match; by simplify_eq.
Qed.
End reference.

(** ** A file that is read as it is

    Like the reference, on a file that may change: the item is taken from the
    file of the moment, the first of the contents it has had. *)

Record FileHasher := MkFileHasher {
  fh_contents : list bytes;
  fh_recvd : list Val;
  fh_script : list bool;
}.

Section changing.
Context {Hg : Hashing} (file_size block_size : N) (algorithm : HashAlgorithm).
#[local] Abbreviation nb := (num_blocks file_size block_size).

Definition fh_poll (h : FileHasher) : Poll (Result (option Val)) * FileHasher :=
  let k := lenN (fh_recvd h) in
  match fh_script h with
  | true :: l => (Pending, MkFileHasher (fh_contents h) (fh_recvd h) l)
  | l =>
      if k <? nb then
        let v := mem_item file_size block_size algorithm (default [] (head (fh_contents h))) k in
        (Ready (Ok (Some v)), MkFileHasher (fh_contents h) (fh_recvd h ++ [v]) (tail l))
      else (Ready (Ok None), MkFileHasher (fh_contents h) (fh_recvd h) (tail l))
  end.

#[global] Instance file_hasher : Hasher FileHasher := {
  h_poll := fh_poll;
  h_cancel h := h;
  h_release _ h := h;
  h_recvd := fh_recvd;
  h_contents := fh_contents;
  h_failed _ := false;
  h_loans _ := [];
}.

Lemma fh_poll_cases h r h' : fh_poll h = (r, h') →
  fh_contents h' = fh_contents h
  ∧ match r with
    | Pending => fh_recvd h' = fh_recvd h ∧ (length (fh_script h') < length (fh_script h))%nat
    | Ready (Ok (Some v)) => lenN (fh_recvd h) < nb ∧ fh_recvd h' = fh_recvd h ++ [v]
        ∧ v = mem_item file_size block_size algorithm (default [] (head (fh_contents h))) (lenN (fh_recvd h))
        ∧ (length (fh_script h') ≤ length (fh_script h))%nat
    | Ready (Ok None) => nb ≤ lenN (fh_recvd h) ∧ fh_recvd h' = fh_recvd h
        ∧ (length (fh_script h') ≤ length (fh_script h))%nat
    | Ready (Err _) => False
    end.
Proof.
  destruct h as [fs recvd l]. unfold fh_poll. cbn.
  destruct l as [|[] l]; try destruct (N.ltb_spec (lenN recvd) nb); intros; simplify_eq; cbn;
    split_and!; (done || lia).
Qed.

#[global] Instance file_fair h_ok : FairHasher FileHasher h_ok.
Proof.
  refine {| h_stalls h := length (fh_script h) |}; cbn; try done.
  - by intros h h' _ (_ & _ & ?)%fh_poll_cases _.
  - intros h x h' _ (_ & H)%fh_poll_cases. destruct x as [[[v|]|e]|]; [apply H..|done|].
    destruct H as [_ H]. lia.
Defined.

Definition fh_ok (h : FileHasher) : Prop :=
  fh_contents h ≠ [] ∧ (∀ f, f ∈ fh_contents h → lenN f = file_size) ∧ lenN (fh_recvd h) ≤ nb.

#[global] Instance file_hasher_laws (Hs : sane file_size block_size 1) :
  HasherLaws FileHasher file_size block_size algorithm fh_ok.
Proof.
  split; try done; try (intros; apply submseteq_nil_l);
    cbn [h_poll h_recvd h_contents h_failed file_hasher].
  - intros h r h' (H1 & H2 & H3) (E & Hr)%fh_poll_cases. unfold fh_ok. rewrite E.
    split; [|done]. split; [done|]. split; [done|]. unfold lenN in *.
    destruct r as [[[v|]|e]|]; [|by destruct Hr as (_ & -> & _)|done|by destruct Hr as (-> & _)].
    destruct Hr as (Hlt & -> & _). len_lia.
  - intros h v h' (H1 & H2 & H3) (E & Hlt & Hr & Hv & _)%fh_poll_cases. rewrite E. split; [done|].
    destruct (fh_contents h) as [|f fs] eqn:Ef; [done|]. cbn in Hv. subst v.
    split; [done|]. split; [done|]. split; [done|]. cbn.
    split; [apply (length_block Hs); [apply H2; by left|done]|]. exists f. split; [by left|done].
  - intros h h' (H1 & H2 & H3) (_ & Hge & Hr & _)%fh_poll_cases. split; [done|]. right. lia.
  - by intros h e h' _ (_ & ?)%fh_poll_cases.
  - by intros h h' _ (_ & ? & _)%fh_poll_cases.
Qed.

#[global] Instance file_sure : SureHasher FileHasher fh_ok.
Proof. split; [done|]. by intros h r h' _ (? & _)%fh_poll_cases. Qed.

(** The file has changed. *)
#[global] Instance file_rereads : Rereads FileHasher file_size fh_ok.
Proof.
  refine {| h_reread f h := MkFileHasher (f :: fh_contents h) (fh_recvd h) (fh_script h) |}; cbn; try done.
  - intros f h (H1 & H2 & H3) Hf. split; [done|]. split; [|done].
    by intros g [->|Hin]%elem_of_cons; [|apply H2].
  - intros f h g [->|Hin]%elem_of_cons; [by right|by left].
Defined.
End changing.

(** ** The pipeline under a schedule *)

(** What happens between two polls: steps of the workers and changes of the
    file; then which ready branch the [select!] of [recv] tries first. *)
Record Slot := MkSlot { slot_cmds : list PCmd; slot_error_first : bool }.

Definition background (c : PCmd) : bool :=
  match c with CWork _ | CEnv _ => true | _ => false end.

Record PHasher (Q O Wt : Type) := MkPHasher { ph_pipe : Pipe Q O Wt; ph_slots : list Slot }.
Arguments MkPHasher {Q O Wt} ph_pipe ph_slots.
Arguments ph_pipe {Q O Wt} p.
Arguments ph_slots {Q O Wt} p.

Section instance.
Context {Q O Wt : Type} `{!Mpsc Val Q, !Oneshot bytes O, !Watch (option WorkerError) Wt, !Hashing}.
Context (file_size block_size workers : N) (algorithm : HashAlgorithm).
#[local] Abbreviation pipe := (Pipe Q O Wt).
#[local] Abbreviation px := (pexec file_size block_size workers algorithm).

(** The background steps of a slot; those that are not possible are skipped. *)
Fixpoint settle (cs : list PCmd) (p : pipe) : pipe :=
  match cs with
  | [] => p
  | c :: cs => settle cs (if background c then default p (px c p) else p)
  end.

(** The error branch of the [select!]: [changed()] is ready. *)
Definition poll_error (p : pipe) : option (WorkerError * pipe) :=
  if wt_unseen (p_err p) then
    e ← wt_value (p_err p);
    p' ← px CCancel p;
    Some (e, set_err p' (wt_update (p_err p)))
  else None.

(** The branch [self.rx.recv()]. *)
Definition poll_value (p : pipe) : option (option Val * pipe) :=
  p1 ← px CPoll p;
  match rphase (p_chan p1) with
  | RGot v => p2 ← px CExit p1; Some (Some v, p2)
  | _ => Some (None, p1)
  end.

(** [HashStream::recv] from its [select!] on. *)
Definition poll_select (error_first : bool) (p : pipe) : Poll (Result (option Val)) * pipe :=
  let on_error (k : Poll (Result (option Val)) * pipe) :=
    match poll_error p with
    | Some (e, p') => (Ready (Err (EHashWorker e)), p')
    | None => k
    end in
  let on_value (k : Poll (Result (option Val)) * pipe) :=
    match poll_value p with
    | Some (v, p') => (Ready (Ok v), p')
    | None => k
    end in
  if error_first then on_error (on_value (Pending, p)) else on_value (on_error (Pending, p)).

(** A poll of the future, entering the call when it was not. *)
Definition poll_recv (error_first : bool) (p : pipe) : Poll (Result (option Val)) * pipe :=
  match rphase (p_chan p) with
  | RIdle =>
      match wt_value (p_err p) with
      | Some e =>
          if is_live p then (Ready (Err (EHashWorker e)), set_err p (wt_update (p_err p)))
          else (Pending, p)
      | None =>
          match px CEnter p with
          | Some p1 => poll_select error_first p1
          | None => (Pending, p)
          end
      end
  | _ => poll_select error_first p
  end.

(** A block dropped: the one with the same loan. *)
Definition release (l : Loan bytes) (p : pipe) : pipe :=
  match list_find (λ x, tx (data x) = tx l) (p_held p) with
  | Some (n, x) =>
      match drop_loan (data x) (p_loans p) with
      | Some (_, o') => set_held (set_loans p o') (take n (p_held p) ++ drop (S n) (p_held p))
      | None => p
      end
  | None => p
  end.

Definition next_slot (h : PHasher Q O Wt) : Slot * list Slot :=
  match ph_slots h with
  | [] => (MkSlot [] false, [])
  | s :: l => (s, l)
  end.

#[global] Instance pipe_hasher : Hasher (PHasher Q O Wt) := {
  h_poll h :=
    let '(s, l) := next_slot h in
    let '(r, p) := poll_recv (slot_error_first s) (settle (slot_cmds s) (ph_pipe h)) in
    (r, MkPHasher p l);
  h_cancel h := MkPHasher (default (ph_pipe h) (px CCancel (ph_pipe h))) (ph_slots h);
  h_release l h := MkPHasher (release l (ph_pipe h)) (ph_slots h);
  h_recvd h := p_recvd (ph_pipe h);
  h_contents h := p_hist (ph_pipe h);
  h_failed h := negb (set_ok (ph_pipe h));
  h_loans h := data <$> p_held (ph_pipe h);
}.
End instance.

(** ** The pipeline keeps the promises *)

Section laws.
Context {Q O Wt : Type} `{!Mpsc Val Q, !MpscLaws Val Q, !Oneshot bytes O, !OneshotLaws bytes O}.
Context `{!Watch (option WorkerError) Wt, !WatchLaws (option WorkerError) Wt} {Hsh : Hashing}.
Context {file_size block_size workers : N} {algorithm : HashAlgorithm}.
Context (Hs : sane file_size block_size workers).
#[local] Abbreviation pipe := (Pipe Q O Wt).
#[local] Abbreviation px := (pexec file_size block_size workers algorithm).
#[local] Abbreviation reach := (preach file_size block_size workers algorithm).
Implicit Types p : pipe.

Lemma exec_reach file (o : O) c p p' : reach file o p → px c p = Some p' → reach file o p'.
Proof.
  intros Hp E. destruct (pexec_step _ _ _ _ _ _ _ E) as [e He].
  by apply (preach_step _ _ _ _ _ _ p e).
Qed.

Lemma exec_hist c p p' : px c p = Some p' → p_hist p ⊆ p_hist p'.
Proof.
  intros E. destruct (pexec_step _ _ _ _ _ _ _ E) as [e He].
  destruct (pstep_hist _ _ _ He) as [[_ ->]|[_ ->]]; set_solver.
Qed.

(** Only a change of the file adds to its history. *)
Lemma exec_same_hist c p p' : (∀ f, c ≠ CEnv f) → px c p = Some p' → p_hist p' = p_hist p.
Proof.
  intros Hc E. destruct c; cbn [pexec] in E; [|..|by destruct (Hc f)].
  { apply exec_work_step in E. destruct (pstep_hist _ _ _ E) as [[_ ->]|[? _]]; done. }
  all: repeat case_match; simplify_option_eq; done.
Qed.

Lemma settle_reach file (o : O) cs p : reach file o p →
  let p' := settle file_size block_size workers algorithm cs p in
  reach file o p' ∧ p_recvd p' = p_recvd p ∧ p_held p' = p_held p
  ∧ rphase (p_chan p') = rphase (p_chan p) ∧ p_hist p ⊆ p_hist p'.
Proof.
  revert p. induction cs as [|c cs IH]; intros p Hp; cbn [settle]; [done|].
  destruct (background c) eqn:Hb; [|by apply IH].
  destruct (px c p) as [p1|] eqn:E; cbn [from_option]; unfold id; [|by apply IH].
  pose proof (exec_reach _ _ _ _ _ Hp E) as Hp1.
  destruct (IH p1 Hp1) as (H1 & H2 & H2' & H3 & H4). pose proof (exec_hist _ _ _ E) as H5.
  cbv zeta. split; [done|]. rewrite H2, H2', H3, !(assoc and). split; [|set_solver].
  destruct c as [i| | | | | | | |f]; cbn [background] in Hb; try done; cbn [pexec] in E; [|by simplify_eq].
  apply exec_work_step in E. apply (preach_inv Hs) in Hp.
  destruct (work_step_same Hs p i p1 Hp E) as (_ & ? & ? & _). split; [split; [|done]|done].
  inversion E; subst; done.
Qed.

(** What a poll does to the stream. *)
Definition polled file (o : O) (p : pipe) (r : Poll (Result (option Val))) (p' : pipe) : Prop :=
  reach file o p' ∧ p_hist p' = p_hist p
  ∧ p_held p' = p_held p ++ match r with Ready (Ok (Some v)) => [v.2] | _ => [] end
  ∧ match r with
    | Ready (Ok (Some v)) => p_recvd p' = p_recvd p ++ [v]
    | Ready (Ok None) => p_recvd p' = p_recvd p
        ∧ (wt_value (p_err p') ≠ None ∨ lenN (p_recvd p) = num_blocks file_size block_size)
    | Ready (Err _) => p_recvd p' = p_recvd p ∧ wt_value (p_err p') ≠ None
    | Pending => p_recvd p' = p_recvd p
    end.

Lemma poll_error_polled file (o : O) p e p' : reach file o p →
  poll_error file_size block_size workers algorithm p = Some (e, p') →
  polled file o p (Ready (Err (EHashWorker e))) p'.
Proof.
  intros Hp. unfold poll_error. destruct (wt_unseen (p_err p)) eqn:Hu; [|done].
  destruct (wt_value (p_err p)) as [e0|] eqn:He; [|done].
  destruct (px CCancel p) as [p1|] eqn:E; [|done]. cbn. intros ?; simplify_eq.
  cbn [pexec] in E. unfold is_live in E. destruct (p_stream p) eqn:Hl; [|done..].
  destruct (exec DoCancel (p_chan p)) as [[ev c']|] eqn:Ex; [|done]. cbn in E. simplify_eq.
  pose proof (exec_step _ _ _ _ Ex) as Hst. cbn in Ex. repeat case_match; simplify_eq.
  assert (reach file o (set_err (set_chan p (with_chan (p_chan p) (chan (p_chan p))
    (threads (p_chan p)) RIdle)) (wt_update (p_err p)))) as Hr.
  { eapply preach_step; [exact Hp|]. by eapply ps_changed. }
  split; [done|]. split; [done|]. split; [by rewrite (right_id_L [] (++))|]. split; [done|]. cbn.
  rewrite (proj1 (wt_update_spec _)). congruence.
Qed.

Lemma exec_poll p p1 : px CPoll p = Some p1 →
  p_recvd p1 = p_recvd p ∧ p_held p1 = p_held p ∧ wt_value (p_err p1) = wt_value (p_err p)
  ∧ ((∃ v, rphase (p_chan p1) = RGot v)
     ∨ rphase (p_chan p1) = RIdle ∧ pstep file_size block_size workers algorithm p PEnd p1).
Proof.
  cbn [pexec]. unfold is_live. destruct (p_stream p) eqn:Hl; [|done..].
  destruct (exec DoPoll (p_chan p)) as [[ev c']|] eqn:Ex; [|done]. cbn. intros ?; simplify_eq.
  pose proof (exec_step _ _ _ _ Ex) as Hst. split; [done|]. split; [done|]. split; [done|].
  cbn in Ex. repeat case_match; simplify_eq; [left; by eexists|right]. split; [done|].
  by eapply ps_end.
Qed.

Lemma exec_exit p p1 v : px CExit p = Some p1 → rphase (p_chan p) = RGot v →
  p_recvd p1 = p_recvd p ++ [v] ∧ p_held p1 = p_held p ++ [v.2].
Proof.
  cbn [pexec]. unfold is_live. destruct (p_stream p); [|done..]. intros E Hv.
  cbn in E. rewrite Hv in E. repeat case_match; by simplify_eq.
Qed.

Lemma poll_value_polled file (o : O) p v p' : reach file o p →
  poll_value file_size block_size workers algorithm p = Some (v, p') →
  polled file o p (Ready (Ok v)) p'.
Proof.
  intros Hp. unfold poll_value.
  destruct (px CPoll p) as [p1|] eqn:E; [|done]. cbn [mbind option_bind].
  pose proof (exec_reach _ _ _ _ _ Hp E) as Hp1.
  destruct (exec_poll p p1 E) as (Hr & Hh & He & [[w Hw]|[Hi Hend]]).
  - rewrite Hw. destruct (px CExit p1) as [p2|] eqn:E2; [|done]. cbn. intros ?; simplify_eq.
    split; [by apply (exec_reach _ _ _ _ _ Hp1 E2)|].
    apply exec_same_hist in E; [|done]. rewrite <-E, <-Hr, <-Hh.
    destruct (exec_exit _ _ _ E2 Hw) as [X1 X2]. split; [by apply (exec_same_hist CExit)|done].
  - rewrite Hi. intros ?; simplify_eq. split; [done|]. apply exec_same_hist in E; [|done].
    split; [done|]. split; [by rewrite (right_id_L [] (++))|]. split; [done|].
    destruct (wt_value (p_err p)) eqn:Hn; [left; by rewrite He|right].
    unfold lenN. rewrite (end_complete Hs p _ (preach_inv Hs _ _ _ Hp) Hend Hn). lia.
Qed.

Lemma poll_select_polled file (o : O) b p r p' : reach file o p →
  poll_select file_size block_size workers algorithm b p = (r, p') → polled file o p r p'.
Proof.
  intros Hp. unfold poll_select.
  assert (polled file o p Pending p) by (split_and!; try done; by rewrite (right_id_L [] (++))).
  destruct b;
    destruct (poll_error file_size block_size workers algorithm p) as [[e p1]|] eqn:E1;
    destruct (poll_value file_size block_size workers algorithm p) as [[v p2]|] eqn:E2;
    intros ?; simplify_eq; try done;
    by (apply poll_error_polled || apply poll_value_polled).
Qed.

Lemma poll_recv_polled file (o : O) b p r p' : reach file o p →
  poll_recv file_size block_size workers algorithm b p = (r, p') → polled file o p r p'.
Proof.
  intros Hp. unfold poll_recv. destruct (rphase (p_chan p)) eqn:Hph;
    [|by apply poll_select_polled|by apply poll_select_polled].
  destruct (wt_value (p_err p)) as [e|] eqn:He.
  - unfold is_live. destruct (p_stream p) eqn:Hl; intros ?; simplify_eq;
      [|by split_and!; try done; rewrite (right_id_L [] (++))..].
    assert (reach file o (set_err p (wt_update (p_err p)))) as Hr.
    { eapply preach_step; [exact Hp|]. by eapply ps_recv_err. }
    split; [done|]. split; [done|]. split; [by rewrite (right_id_L [] (++))|]. split; [done|]. cbn.
    rewrite (proj1 (wt_update_spec _)). congruence.
  - destruct (px CEnter p) as [p1|] eqn:E;
      [|by intros; simplify_eq; split_and!; try done; rewrite (right_id_L [] (++))].
    pose proof (exec_reach _ _ _ _ _ Hp E) as Hp1. intros E1.
    apply (poll_select_polled file o) in E1; [|done]. unfold polled in *.
    pose proof (exec_same_hist CEnter p p1) as Hh. rewrite <-Hh by done.
    assert (p_recvd p1 = p_recvd p ∧ p_held p1 = p_held p) as [Hre Hhe]; [|by rewrite <-Hre, <-Hhe].
    cbn [pexec] in E. destruct (is_live p && set_ok p); [|done].
    destruct (exec DoEnter (p_chan p)) as [[ev c']|]; [|done]. cbn in E. by simplify_eq.
Qed.

(** A block dropped is taken from those that are held. *)
Lemma release_spec file (o : O) l p : reach file o p →
  reach file o (release l p) ∧ p_recvd (release l p) = p_recvd p
  ∧ p_hist (release l p) = p_hist p
  ∧ (release l p = p ∧ (∀ x, x ∈ p_held p → tx (data x) ≠ tx l)
     ∨ ∃ x, tx (data x) = tx l ∧ p_held p ≡ₚ x :: p_held (release l p)).
Proof.
  intros Hp. unfold release.
  destruct (list_find _ (p_held p)) as [[n x]|] eqn:E.
  2:{ apply list_find_None in E. rewrite Forall_forall in E. split_and!; try done. left. split; [done|].
      intros x Hx. exact (E x Hx). }
  apply list_find_Some in E as (Hn & Htx & _).
  pose proof (preach_inv Hs _ _ _ Hp) as [_ _ Hl _].
  assert (x ∈ inflight p) as Hin.
  { unfold inflight. apply elem_of_app. right. by eapply list_elem_of_lookup_2. }
  destruct (li_flight _ _ _ Hl x Hin) as (i & w & r & _ & Ht & He).
  destruct (drop_loan (data x) (p_loans p)) as [[l' o']|] eqn:Ed;
    [|unfold drop_loan in Ed; by rewrite Ht in Ed].
  assert (p_held p = take n (p_held p) ++ x :: drop (S n) (p_held p)) as Hsplit
    by (symmetry; by apply take_drop_middle).
  split; [eapply preach_step; [exact Hp|]; by eapply ps_drop_block|].
  split; [done|]. split; [done|]. right. exists x. split; [done|].
  cbn. rewrite Hsplit at 1. by rewrite <-Permutation_middle.
Qed.

(** Two blocks held with the same channel are the same. *)
Lemma held_loans file (o : O) p x y : reach file o p → x ∈ p_held p → y ∈ p_held p →
  tx (data x) = tx (data y) → x = y.
Proof.
  intros Hp Hx Hy E. pose proof (preach_inv Hs _ _ _ Hp) as [_ _ Hl _].
  pose proof (li_nodup _ _ _ Hl) as Hn. unfold inflight in Hn. rewrite fmap_app, NoDup_app in Hn.
  destruct Hn as (_ & _ & Hn). apply list_elem_of_lookup_1 in Hx as [i Hi], Hy as [j Hj].
  assert (i = j) as ->; [|congruence].
  apply (NoDup_lookup _ i j (tx (data x)) Hn); rewrite list_lookup_fmap, ?Hi, ?Hj; cbn; congruence.
Qed.

Lemma release_loans file (o : O) l L p : reach file o p →
  (data <$> p_held p) ⊆+ l :: L → (data <$> p_held (release l p)) ⊆+ L.
Proof.
  intros Hp Hsub. destruct (release_spec file o l p Hp) as (_ & _ & _ & [[-> Hno]|(x & Hx & Hperm)]).
  - apply submseteq_cons_r in Hsub as [|(k & Hk & _)]; [done|]. exfalso.
    assert (l ∈ data <$> p_held p) as (x & -> & Hin)%list_elem_of_fmap by (rewrite Hk; by left).
    by apply (Hno x).
  - assert (x ∈ p_held p) as Hin by (rewrite Hperm; by left).
    assert ((data <$> p_held p) ≡ₚ data x :: (data <$> p_held (release l p))) as Hd by (by rewrite Hperm).
    apply submseteq_cons_r in Hsub as [Hs'|(k & Hk & Hk')].
    { etrans; [|exact Hs']. rewrite Hd. by apply submseteq_cons. }
    assert (l ∈ data <$> p_held p) as (y & -> & Hy)%list_elem_of_fmap by (rewrite Hk; by left).
    assert (x = y) as <- by by apply (held_loans file o p).
    rewrite Hd in Hk. apply (inj (cons _)) in Hk. by rewrite Hk.
Qed.

(** What shows the pipeline and polls it after some work of its own. *)
Lemma pipe_laws {H} (Hh : Hasher H) (pipe_of : H → pipe) (ok : H → Prop) (file : bytes) (o : O) :
  (∀ h, ok h → reach file o (pipe_of h)) →
  (∀ h, h_recvd h = p_recvd (pipe_of h) ∧ h_contents h = p_hist (pipe_of h)
     ∧ h_failed h = negb (set_ok (pipe_of h)) ∧ h_loans h = data <$> p_held (pipe_of h)) →
  (∀ h r h', ok h → h_poll h = (r, h') → ok h' ∧ ∃ p1, polled file o p1 r (pipe_of h')
     ∧ p_recvd p1 = p_recvd (pipe_of h) ∧ p_held p1 = p_held (pipe_of h)
     ∧ p_hist (pipe_of h) ⊆ p_hist p1) →
  (∀ h, ok h → ok (h_cancel h)
     ∧ pipe_of (h_cancel h) = default (pipe_of h) (px CCancel (pipe_of h))) →
  (∀ l h, ok h → ok (h_release l h) ∧ pipe_of (h_release l h) = release l (pipe_of h)) →
  HasherLaws H file_size block_size algorithm ok.
Proof.
  intros Hreach Hobs Hpoll Hcan Hrel.
  assert (∀ p : pipe, wt_value (p_err p) ≠ None → negb (set_ok p) = true) as Hfail.
  { intros p He. unfold set_ok. by rewrite bool_decide_false. }
  assert (∀ p, p_recvd (default p (px CCancel p)) = p_recvd p ∧ p_hist (default p (px CCancel p)) = p_hist p
    ∧ p_held (default p (px CCancel p)) = p_held p) as Hc.
  { intros p. cbn [pexec]. destruct (is_live p); [|done].
    by destruct (exec DoCancel (p_chan p)) as [[ev c']|]. }
  split.
  - intros h r h' Hok E. destruct (Hpoll h r h' Hok E) as (Hok' & p1 & (P1 & P2 & _) & _ & _ & P4).
    destruct (Hobs h) as (_ & -> & _). destruct (Hobs h') as (_ & -> & _). by rewrite P2.
  - intros h v h' Hok E. destruct (Hpoll _ _ _ Hok E) as (_ & p1 & (Hp' & _ & _ & Hr) & Hr1 & _).
    destruct (Hobs h) as (-> & _). destruct (Hobs h') as (-> & -> & _).
    rewrite Hr1 in Hr. split; [done|].
    assert (p_recvd (pipe_of h') !! length (p_recvd (pipe_of h)) = Some v) as Hv.
    { rewrite Hr. by apply list_lookup_middle. }
    destruct (recvd_ok Hs _ _ v (preach_inv Hs _ _ _ Hp') Hv) as [(H1 & H2 & f & H0 & H3 & H4) H5].
    cbn in H1, H2, H3, H4. split; [done|]. split; [done|]. split; [done|].
    split; [|exists f; by split].
    rewrite H3. unfold block. rewrite length_slice. cbn. unfold lenN in *. lia.
  - intros h h' Hok E. destruct (Hpoll _ _ _ Hok E) as (_ & p1 & (Hp' & _ & _ & Hr & He) & Hr1 & _).
    destruct (Hobs h) as (-> & _). destruct (Hobs h') as (-> & _ & -> & _).
    rewrite <-Hr1. split; [done|]. destruct He as [He|He]; [left|by right]. by apply Hfail.
  - intros h e h' Hok E. destruct (Hpoll _ _ _ Hok E) as (_ & p1 & (Hp' & _ & _ & Hr & He) & Hr1 & _).
    destruct (Hobs h) as (-> & _). destruct (Hobs h') as (-> & _ & -> & _).
    rewrite <-Hr1. split; [done|]. by apply Hfail.
  - intros h h' Hok E. destruct (Hpoll _ _ _ Hok E) as (_ & p1 & (_ & _ & _ & Hr) & Hr1 & _).
    destruct (Hobs h) as (-> & _). destruct (Hobs h') as (-> & _). congruence.
  - intros h Hok. destruct (Hcan h Hok) as [Hok' E]. split; [done|].
    destruct (Hobs h) as (-> & -> & _). destruct (Hobs (h_cancel h)) as (-> & -> & _).
    rewrite E. split; apply Hc.
  - intros l h Hok. destruct (Hrel l h Hok) as [Hok' E]. split; [done|].
    destruct (Hobs h) as (-> & -> & _). destruct (Hobs (h_release l h)) as (-> & -> & _).
    rewrite E. split; by apply (release_spec file o l _ (Hreach _ Hok)).
  - intros h r h' Hok E. destruct (Hpoll h r h' Hok E) as (_ & p1 & (_ & _ & P3 & _) & _ & P5 & _).
    destruct (Hobs h) as (_ & _ & _ & ->). destruct (Hobs h') as (_ & _ & _ & ->).
    rewrite P3, P5, fmap_app. rewrite (comm (++)). apply submseteq_skips_r.
    by destruct r as [[[v|]|]|].
  - intros h Hok. destruct (Hcan h Hok) as [_ E].
    destruct (Hobs h) as (_ & _ & _ & ->). destruct (Hobs (h_cancel h)) as (_ & _ & _ & ->).
    rewrite E. by destruct (Hc (pipe_of h)) as (_ & _ & ->).
  - intros l L h Hok. destruct (Hrel l h Hok) as [_ E].
    destruct (Hobs h) as (_ & _ & _ & ->). destruct (Hobs (h_release l h)) as (_ & _ & _ & ->).
    rewrite E. by apply (release_loans file o), Hreach.
Qed.

Lemma cancel_reach file (o : O) p : reach file o p → reach file o (default p (px CCancel p)).
Proof.
  intros Hp. destruct (px CCancel p) as [p1|] eqn:E; cbn [from_option]; unfold id; [|done].
  by apply (exec_reach _ _ CCancel p).
Qed.

#[global] Instance pipe_hasher_laws (file : bytes) (o : O) :
  HasherLaws (Hh := pipe_hasher file_size block_size workers algorithm)
    (PHasher Q O Wt) file_size block_size algorithm (λ h, reach file o (ph_pipe h)).
Proof.
  apply (pipe_laws _ ph_pipe _ file o); [done|done| | |].
  - intros h r h' Hp E. cbn in E. destruct (next_slot h) as [s l].
    destruct (poll_recv _ _ _ _ _ _) as [r0 p0] eqn:E0. simplify_eq. cbn [ph_pipe].
    destruct (settle_reach file o (slot_cmds s) (ph_pipe h) Hp) as (H1 & H2 & H3 & _ & H4).
    apply (poll_recv_polled file o) in E0; [|done]. split; [apply E0|]. by eexists.
  - intros h Hp. split; [by apply cancel_reach|done].
  - intros l h Hp. split; [by apply (release_spec file o)|done].
Qed.
End laws.
