(* ===== verification/Diligent.v ===== *)
(** Workers that get their turn (src/src/hash_file.rs, lines 36-163): the
    pipeline of Pipeline.v where, between two polls of the stream, every worker
    goes on until it must wait.  No worker fails as long as the file has the
    length [hash_file] found; then the stream is not pending for good, unless it
    waits for blocks its user holds, so that the pipeline satisfies the
    interfaces [FairHasher], [SureHasher] and [Rereads] of Hasher.v under which
    the two loops are shown to end. *)

From stdpp Require Import base option list numbers gmap.
From Stdlib Require Import NArith Lia.
From S2P Require Import Prelude AsyncIO Loan OrderedChannel HashFile Pipeline PipelineInv.
From S2P Require Import HashStream Hasher.
#[local] Open Scope N_scope.

(** ** The scheduler *)

(** The pipeline and the steps of the workers before the next polls, one list of
    worker numbers per poll; after them the workers go on as far as they can. *)
Record Diligent (Q O Wt : Type) := MkDiligent { di_pipe : Pipe Q O Wt; di_turns : list (list N) }.
Arguments MkDiligent {Q O Wt} di_pipe di_turns.
Arguments di_pipe {Q O Wt} d.
Arguments di_turns {Q O Wt} d.

Section scheduler.
Context {Q O Wt : Type} `{!Mpsc Val Q, !Oneshot bytes O, !Watch (option WorkerError) Wt, !Hashing}.
Context (file_size block_size workers : N) (algorithm : HashAlgorithm).
#[local] Abbreviation pipe := (Pipe Q O Wt).
#[local] Abbreviation px := (pexec file_size block_size workers algorithm).

(** A step of each of these workers, of those that have one. *)
Definition work_each (l : list N) (p : pipe) : pipe :=
  settle file_size block_size workers algorithm (CWork <$> l) p.

(** All workers in turn, as often as one of them can have a step left. *)
Definition work_all (p : pipe) : pipe :=
  Nat.iter (measure (file_size:=file_size) (block_size:=block_size) (workers:=workers) p)
    (work_each (seqN (N.to_nat workers))) p.

Definition take_turn (d : Diligent Q O Wt) : pipe * list (list N) :=
  match di_turns d with
  | [] => (work_all (di_pipe d), [])
  | l :: ls => (work_each l (di_pipe d), ls)
  end.

#[global] Instance diligent_hasher : Hasher (Diligent Q O Wt) := {
  h_poll d :=
    let '(p, ls) := take_turn d in
    let '(r, p') := poll_recv file_size block_size workers algorithm false p in
    (r, MkDiligent p' ls);
  h_cancel d := MkDiligent (default (di_pipe d) (px CCancel (di_pipe d))) (di_turns d);
  h_release l d := MkDiligent (release l (di_pipe d)) (di_turns d);
  h_recvd d := p_recvd (di_pipe d);
  h_contents d := p_hist (di_pipe d);
  h_failed d := negb (set_ok (di_pipe d));
  h_loans d := data <$> p_held (di_pipe d);
}.
End scheduler.

Section diligent.
Context {Q O Wt : Type} `{!Mpsc Val Q, !MpscLaws Val Q, !Oneshot bytes O, !OneshotLaws bytes O}.
Context `{!Watch (option WorkerError) Wt, !WatchLaws (option WorkerError) Wt} {Hsh : Hashing}.
Context {file_size block_size workers : N} {algorithm : HashAlgorithm}.
Context (Hs : sane file_size block_size workers).
#[local] Abbreviation nb := (num_blocks file_size block_size).
#[local] Abbreviation pipe := (Pipe Q O Wt).
#[local] Abbreviation pstep' := (pstep file_size block_size workers algorithm).
#[local] Abbreviation px := (pexec file_size block_size workers algorithm).
#[local] Abbreviation work := (exec_work file_size block_size workers algorithm).
#[local] Abbreviation reach := (preach file_size block_size workers algorithm).
#[local] Abbreviation each := (work_each file_size block_size workers algorithm).
#[local] Abbreviation all := (work_all file_size block_size workers algorithm).
#[local] Abbreviation poll := (poll_recv file_size block_size workers algorithm false).
#[local] Abbreviation value := (poll_value file_size block_size workers algorithm).
#[local] Abbreviation left := (measure (file_size:=file_size) (block_size:=block_size) (workers:=workers)).
#[local] Abbreviation pinv :=
  (pipe_inv (file_size:=file_size) (block_size:=block_size) (workers:=workers)
            (algorithm:=algorithm)).
Implicit Types p : pipe.

(** ** The scheduler misses no step *)

Lemma pipe_lock_free p : pinv p → lock_free (p_chan p).
Proof. intros [Hb _ _ _]. destruct (base_chan_inv Hs p Hb) as [Ht _]. apply Ht. Qed.

Lemma head_no_call p i w : pinv p → p_workers p !! i = Some (MkW w WHead) →
  threads (p_chan p) !! i = None.
Proof.
  intros [ [_ Hw] _ _ _] HW. apply calls_lookup_None.
  destruct (calls (p_chan p) !! i) as [x|] eqn:Ec; [|done].
  destruct (wi_calls _ _ _ _ _ _ Hw _ _ Ec) as (w0 & r0 & H0 & _). rewrite HW in H0. by simplify_eq.
Qed.

(** Every step of a worker is one that [exec_work] makes, or another in its
    place. *)
Lemma exec_work_complete p i p' : pinv p → pstep' p (PWork i) p' → is_Some (work p i).
Proof.
  intros Hp Hst. pose proof (lock_free_true _ (pipe_lock_free p Hp)) as Hlf.
  pose proof Hp as [Hb _ _ _]. pose proof (base_chan_inv Hs p Hb) as Hi. pose proof Hb as [_ Hw].
  assert (∀ w, p_workers p !! i = Some (MkW w WHead) → is_Some (work p i)) as Hhead.
  { intros w HW. unfold exec_work. rewrite HW. unfold exec_head.
    case_match; [|done]. case_match; [|done]. destruct (make_block_data _ _ _) as [[d r] o'].
    cbn [exec]. by rewrite (head_no_call p i w Hp HW). }
  assert (∀ w, p_workers p !! i = Some (MkW w WSeek) → is_Some (work p i)) as Hseek.
  { intros w HW. unfold exec_work. rewrite HW.
    destruct (wi_vars _ _ _ _ _ _ Hw _ _ HW) as (V1 & V2 & _ & V4). destruct (V4 eq_refl) as [Hk Hpos].
    destruct w as [off k po buf]; cbn in V1, V2, Hk, Hpos. subst off.
    destruct (worker_advance_at Hs i k po buf Hk V1 Hpos) as (w' & -> & _). done. }
  assert (∀ w r idx v, p_workers p !! i = Some (MkW w (WSending r)) →
    threads (p_chan p) !! i = Some (TLocking idx v) →
    send_attempt idx v (chan (p_chan p)) ≠ SendErr ∨ is_Some (drop_loan (data v.2) (p_loans p)) →
    is_Some (work p i)) as Hsend.
  { intros w r idx v HW Ht Hd. pose proof (send_attempt_inv _ _ _ Hi Ht) as Ha.
    unfold exec_work. rewrite HW. unfold exec_send. cbn [exec]. rewrite Ht, Hlf. cbn in Ha.
    destruct (send_attempt idx v (chan (p_chan p))); try done. cbn [t_val].
    destruct Hd as [|[x ->]]; done. }
  inversion Hst as [? w HW|? w e HW _|? w HW Hx|? w w1 d r o' c' HW Hct Her E Em Hc|? w k HW _ _
    |? w r idx v c' HW Hc|? w r st c' l' o' HW Hst' Hc Hd|? w r e c' HW He Hc|
    |? w r buf o' HW Hbr|? w w' HW E|? w k HW|? w e HW|? w c' HW Hc|? w c' HW Hc
    | | | | | | | | | | | ]; subst; eauto.
  all: try (unfold exec_work; rewrite HW; cbn [exec]; rewrite ?Hlf; done).
  - inversion Hc; subst; [|by destruct (pipe_lock_free p Hp i idx v)].
    eapply Hsend; [done..|left; congruence].
  - inversion Hc; subst. match goal with H : threads _ !! i = Some (TLocking _ _) |- _ => rename H into Ht end.
    rewrite Ht in Hst'. injection Hst' as <-. cbn in Hd. eapply Hsend; [done..|right; by rewrite Hd].
  - destruct He as [-> | ->]; inversion Hc; subst; (eapply Hsend; [done..|left; congruence]).
  - unfold exec_work. by rewrite HW, Hbr.
Qed.

(** No worker has a step left. *)
Definition quiescent p : Prop := ∀ i, work p i = None.

Lemma quiescent_stuck p : pinv p → quiescent p → ∀ i p', ¬ pstep' p (PWork i) p'.
Proof. intros Hp Hq i p' Hst. destruct (exec_work_complete p i p' Hp Hst) as [x E]. by rewrite Hq in E. Qed.

(** ** Workers that do not fail *)

Definition calm_pc (pc : WPc) : bool := match pc with WFail _ | WClose => false | _ => true end.

(** The stream is in use, no worker has failed, and the file has its length. *)
Record calm p : Prop := {
  ca_live : p_stream p = Live;
  ca_err : wt_value (p_err p) = None;
  ca_file : lenN (p_file p) = file_size;
  ca_workers i W : p_workers p !! i = Some W → calm_pc (w_pc W) = true;
  ca_phase v : rphase (p_chan p) ≠ RGot v;
}.

Lemma calm_same p p' : calm p → p_stream p' = p_stream p → wt_value (p_err p') = wt_value (p_err p) →
  p_file p' = p_file p → p_workers p' = p_workers p → (∀ v, rphase (p_chan p') ≠ RGot v) → calm p'.
Proof. intros [C1 C2 C3 C4 C5] E1 E2 E3 E4 E5. split; [congruence..|by rewrite E4|done]. Qed.

Lemma calm_hash_file file (o : O) : lenN file = file_size → calm (hash_file block_size workers file o).
Proof.
  intros Hf. split; try done.
  - cbn. apply wt_channel_new.
  - intros i W HW. by apply hash_file_workers in HW as [_ ->].
Qed.

(** The flag of the channel that says that the receiver has asked for a value. *)
Definition asked p : bool := receiving (state (chan (p_chan p))).

Lemma step_receiving (c c' : Sys Val Q) e : inv c → step c e c' →
  receiving (state (chan c')) = match e with
    | EvEnter => true
    | EvExit _ => false
    | _ => receiving (state (chan c))
    end.
Proof.
  intros Hi Hst. pose proof Hi as [Ht _]. inversion Hst; subst; cbn; try done.
  - match goal with H : send_attempt _ _ _ = _, H' : threads c !! _ = _ |- _ =>
      pose proof (send_attempt_inv c _ _ Hi H') as Ha; cbn in Ha; rewrite H in Ha end.
    destruct Ha as (_ & _ & _ & _ & _ & _ & _ & -> & _). done.
  - match goal with H : recv_enter _ = _ |- _ => unfold recv_enter in H end.
    destruct (receiving (state (chan c))) eqn:E; cbn in *; by simplify_eq.
  - match goal with H : recv_close _ = _ |- _ => unfold recv_close in H end.
    case_match; by simplify_eq.
Qed.

Lemma work_asked p i p' : pinv p → work p i = Some p' → asked p' = asked p.
Proof.
  intros Hp Hst%exec_work_step. pose proof Hp as [Hb _ _ _]. pose proof (base_chan_inv Hs p Hb) as Hi.
  unfold asked. inversion Hst as [| | |? w w1 d r o' c' HW Hct Her E Em Hc|
    |? w r idx v c' HW Hc|? w r st c' l' o' HW Hst' Hc Hd|? w r e c' HW He Hc|
    | | | | |? w c' HW Hc|? w c' HW Hc| | | | | | | | | | | ]; subst; try done;
    try (destruct He as [-> | ->]); by apply (step_receiving _ _ _ Hi) in Hc.
Qed.

Lemma work_calm p i p' : pinv p → calm p → work p i = Some p' → calm p'.
Proof.
  intros Hp Hca E. pose proof Hca as [C1 C2 C3 C4 C5]. pose proof Hp as [ [_ Hw] _ _ _].
  destruct (work_step_same Hs p i p' Hp (exec_work_step _ _ _ _ _ _ _ E)) as (S1 & _ & S3 & _).
  assert (p_err p' = p_err p ∧ p_file p' = p_file p
    ∧ (p_workers p' = p_workers p
       ∨ ∃ w pc, p_workers p' = <[i := MkW w pc]> (p_workers p) ∧ calm_pc pc = true)) as (E1 & E2 & E3).
  { clear S1 S3. unfold exec_work in E. destruct (p_workers p !! i) as [ [w pc]|] eqn:HW; [|done].
    pose proof (C4 i _ HW) as Hpc. destruct pc as [| |r|r| |e| | |]; try done.
    - simplify_eq. split_and!; [done..|right]. by do 2 eexists.
    - unfold exec_head in E. destruct (worker_continues file_size w) eqn:Hct; cbn [andb] in E.
      2:{ simplify_eq. split_and!; [done..|right]. by do 2 eexists. }
      unfold set_ok in E. rewrite bool_decide_true in E by done.
      destruct (head_at_block _ _ _ Hs i w (wi_vars _ _ _ _ _ _ Hw _ _ HW) Hct) as [Hk Ha].
      rewrite (worker_read_at Hs i _ w (p_file p) Ha Hk), C3 in E.
      pose proof (block_len_end Hs (block_idx w) Hk) as Hle. apply N.leb_le in Hle. rewrite Hle in E.
      destruct (make_block_data _ _ _) as [ [d r] o']. destruct (exec _ _) as [x|]; [|done].
      cbn in E. simplify_eq. split_and!; [done..|right]. by do 2 eexists.
    - unfold exec_send in E. repeat case_match; simplify_option_eq;
        (split_and!; [done..|]); (by left) || (right; by do 2 eexists).
    - repeat case_match; simplify_eq. split_and!; [done..|right]. by do 2 eexists.
    - repeat case_match; simplify_eq. split_and!; [done..|right]. by do 2 eexists.
    - cbn in E. simplify_eq. split_and!; [done..|right]. by do 2 eexists. }
  split; [congruence..| |congruence]. intros j W. destruct E3 as [->|(w & pc & -> & Hpc)]; [apply C4|].
  intros [ [_ <-]|[_ HW] ]%lookup_insert_Some; [done|by apply (C4 j)].
Qed.

(** ** The workers go on until they must wait *)

(** What working does not change. *)
Record worked file (o : O) p p' : Prop := {
  wk_reach : reach file o p';
  wk_calm : calm p';
  wk_asked : asked p' = asked p;
  wk_recvd : p_recvd p' = p_recvd p;
  wk_held : p_held p' = p_held p;
  wk_phase : rphase (p_chan p') = rphase (p_chan p);
  wk_hist : p_hist p' = p_hist p;
}.

Lemma worked_refl file (o : O) p : reach file o p → calm p → worked file o p p.
Proof. by split. Qed.
Lemma worked_trans file (o : O) p p1 p2 : worked file o p p1 → worked file o p1 p2 → worked file o p p2.
Proof. intros [] []. split; [done..|congruence|congruence|congruence|congruence|congruence]. Qed.

Lemma work_worked file (o : O) p i p' : reach file o p → calm p → work p i = Some p' → worked file o p p'.
Proof.
  intros Hr Hc E. pose proof (preach_inv Hs _ _ _ Hr) as Hp.
  pose proof (exec_work_step _ _ _ _ _ _ _ E) as Hst.
  destruct (work_step_same Hs p i p' Hp Hst) as (_ & S2 & S3 & _). split; try done.
  - by apply (preach_step _ _ _ _ _ _ p (PWork i)).
  - by apply (work_calm p i).
  - by apply (work_asked p i).
  - inversion Hst; by subst.
  - by destruct (pstep_hist _ _ _ Hst) as [ [_ ?]|[? _] ].
Qed.

(** A step of each worker of a list: none of them had one, or less is left. *)
Lemma each_spec file (o : O) l p : reach file o p → calm p →
  worked file o p (each l p) ∧ (each l p = p ∧ (∀ i, i ∈ l → work p i = None) ∨ (left (each l p) < left p)%nat).
Proof.
  unfold work_each. revert p. induction l as [|i l IH]; intros p Hr Hc; cbn [fmap list_fmap settle background].
  { split; [by apply worked_refl|left]. split; [done|]. by intros i ?%elem_of_nil. }
  change (px (CWork i) p) with (work p i).
  destruct (work p i) as [p1|] eqn:E; cbn [default from_option]; unfold id.
  - pose proof (work_worked file o p i p1 Hr Hc E) as W1.
    pose proof (measure_step Hs p i p1 (preach_inv Hs _ _ _ Hr) (exec_work_step _ _ _ _ _ _ _ E)).
    destruct (IH p1) as [W2 M2]; [apply W1..|]. split; [by eapply worked_trans|right].
    destruct M2 as [ [-> _]|]; lia.
  - destruct (IH p Hr Hc) as [W2 [ [-> M2]|M2] ]; (split; [done|]); [left|by right].
    split; [done|]. intros j [->|Hj]%elem_of_cons; [done|by apply M2].
Qed.

Lemma no_worker p i : pinv p → ¬ i < workers → work p i = None.
Proof.
  intros [ [_ Hw] _ _ _] Hi. unfold exec_work. destruct (p_workers p !! i) eqn:HW; [|done].
  exfalso. apply Hi, (wi_dom _ _ _ _ _ _ Hw). by eexists.
Qed.

Lemma all_spec file (o : O) p : reach file o p → calm p → worked file o p (all p) ∧ quiescent (all p).
Proof.
  intros Hr Hc. unfold work_all. set (f := each (seqN (N.to_nat workers))).
  assert (∀ p1, worked file o p p1 → f p1 = p1 → (∀ i, i ∈ seqN (N.to_nat workers) → work p1 i = None) →
    ∀ n, Nat.iter n f p1 = p1 ∧ quiescent p1) as Hstay.
  { intros p1 W1 E Hno n. split; [induction n as [|n IH]; [done|rewrite Nat.iter_succ, IH; done]|].
    intros i. destruct (decide (i < workers)) as [Hi|Hi].
    - apply Hno, elem_of_seqN. lia.
    - apply no_worker; [|done]. by eapply (preach_inv Hs), W1. }
  assert (∀ n p1, worked file o p p1 → (left p1 ≤ n)%nat →
    worked file o p (Nat.iter n f p1) ∧ quiescent (Nat.iter n f p1)) as Hn.
  2:{ apply Hn; [by apply worked_refl|done]. }
  intros n. induction n as [|n IH]; intros p1 W1 Hle.
  - destruct (each_spec file o (seqN (N.to_nat workers)) p1) as [_ [ [E Hno]|M] ]; [apply W1..| |lia].
    destruct (Hstay p1 W1 E Hno 0%nat) as [-> Hq]. done.
  - destruct (each_spec file o (seqN (N.to_nat workers)) p1) as [W2 [ [E Hno]|M] ]; [apply W1..| |].
    + destruct (Hstay p1 W1 E Hno (S n)) as [-> Hq]. done.
    + rewrite Nat.iter_succ_r. apply IH; [by eapply worked_trans|]. fold f in M. lia.
Qed.

(** ** A poll *)

Lemma calm_select p : calm p → poll_select file_size block_size workers algorithm false p
  = match value p with Some (v, p') => (Ready (Ok v), p') | None => (Pending, p) end.
Proof.
  intros [_ C2 _ _ _]. unfold poll_select.
  assert (poll_error file_size block_size workers algorithm p = None) as ->; [|by destruct (value p) as [ []|] ].
  unfold poll_error. rewrite C2. by destruct (wt_unseen (p_err p)).
Qed.

(** [recv] is entered: a value is asked for.  When one was, nothing changes. *)
Lemma enter_calm file (o : O) p : reach file o p → calm p → rphase (p_chan p) = RIdle →
  ∃ p1, px CEnter p = Some p1 ∧ calm p1 ∧ rphase (p_chan p1) = RAwait ∧ asked p1 = true
    ∧ p_held p1 = p_held p ∧ (asked p = true → quiescent p → quiescent p1).
Proof.
  intros Hr Hc Hph. pose proof Hc as [C1 C2 _ _ _]. pose proof (preach_inv Hs _ _ _ Hr) as Hp.
  pose proof (lock_free_true _ (pipe_lock_free p Hp)) as Hlf.
  cbn [pexec exec]. unfold is_live, set_ok. rewrite C1, Hph, Hlf. rewrite bool_decide_true by done.
  destruct (recv_enter (chan (p_chan p))) as [c b] eqn:E. cbn. eexists. split; [done|].
  split; [apply (calm_same p); try done; cbn; apply wt_update_spec|]. split; [done|].
  unfold asked in *. unfold recv_enter in E. cbn.
  destruct (receiving (state (chan (p_chan p)))) eqn:Ea; cbn in E; simplify_eq; cbn; (split; [done|]).
  2:{ split; [done|]. by intros. }
  split; [done|]. intros _ Hq i. specialize (Hq i). cbn [notify_all].
  revert Hq. unfold exec_work. cbn [p_workers set_err set_chan with_chan p_chan p_loans p_err].
  destruct (p_workers p !! i) as [ [w []]|]; try done.
  - unfold exec_head, set_ok. cbn [p_err p_file p_loans p_chan set_err set_chan with_chan].
    rewrite (proj1 (wt_update_spec (p_err p))). destruct (_ && _); [|done].
    destruct (worker_read _ _ _ _); [|done]. destruct (make_block_data _ _ _) as [ [d r] o'].
    cbn. by destruct (threads (p_chan p) !! i).
  - unfold exec_send. cbn [exec threads with_chan set_err set_chan p_chan p_loans p_err chan].
    assert (lock_freeb (with_chan (p_chan p) (chan (p_chan p)) (threads (p_chan p)) RAwait) = true)
      as -> by exact Hlf.
    rewrite Hlf. destruct (threads (p_chan p) !! i) as [ [idx v|idx v|idx v]|]; try done.
    destruct (send_attempt idx v (chan (p_chan p))); try done. cbn. by destruct (drop_loan _ _).
  - by destruct (blocking_reclaim _ _) as [ []].
  - by destruct (worker_advance _ _ _).
  - cbn [exec]. by rewrite Hlf.
Qed.

(** What a poll finds in the channel. *)
Lemma value_calm file (o : O) p v p' : reach file o p → calm p → value p = Some (v, p') →
  calm p' ∧ (v = None → asked p' = asked p).
Proof.
  intros Hr Hc. pose proof (preach_inv Hs _ _ _ Hr) as [Hb _ _ _]. pose proof (base_chan_inv Hs p Hb) as Hi.
  unfold poll_value. cbn [pexec]. unfold is_live. rewrite (ca_live _ Hc).
  destruct (exec DoPoll (p_chan p)) as [ [e c]|] eqn:E; [|done]. cbn [mbind option_bind snd].
  pose proof (exec_step _ _ _ _ E) as Hst. pose proof (step_receiving _ _ _ Hi Hst) as Ha.
  cbn in E. destruct (rphase (p_chan p)) eqn:Hph; [done| |done].
  destruct (mp_recv (inner (chan (p_chan p)))) as [x q| |]; [|done|]; simplify_eq;
    cbn [rphase p_chan set_chan with_chan].
  - unfold exec. cbn [rphase p_chan set_chan p_stream]. rewrite (ca_live _ Hc).
    destruct (lock_freeb _); [|done]. cbn. intros [= <- <-]. split; [|done].
    apply (calm_same p); try done. by rewrite (ca_live _ Hc).
  - intros [= <- <-]. split; [by apply (calm_same p)|done].
Qed.

(** The poll takes what is there. *)
Lemma value_complete file (o : O) p p1 : reach file o p → calm p →
  pstep' p PPop p1 ∨ pstep' p PEnd p1 → is_Some (value p).
Proof.
  intros Hr Hc Hst. pose proof (preach_inv Hs _ _ _ Hr) as Hp.
  pose proof (lock_free_true _ (pipe_lock_free p Hp)) as Hlf.
  assert (rphase (p_chan p) = RAwait ∧ mp_recv (inner (chan (p_chan p))) ≠ MpEmpty) as [Hph Hne].
  { destruct Hst as [Hst|Hst]; inversion Hst; subst;
      match goal with H : step _ _ _ |- _ => inversion H; subst end; split; congruence. }
  unfold poll_value. cbn [pexec]. unfold is_live. rewrite (ca_live _ Hc). cbn [exec]. rewrite Hph.
  destruct (mp_recv (inner (chan (p_chan p)))) as [x q| |] eqn:E; [|done|]; cbn; [|done].
  rewrite (ca_live _ Hc).
  assert (lock_freeb (MkSys (MkChan (state (chan (p_chan p))) q) (threads (p_chan p)) (RGot x)
    (called (p_chan p)) (sent (p_chan p)) (taken (p_chan p) ++ [x])) = true) as -> by exact Hlf.
  done.
Qed.

(** A poll keeps the workers calm; what was asked for stays asked for, until it
    is there. *)
Lemma poll_calm file (o : O) p r p' : reach file o p → calm p → poll p = (r, p') →
  calm p' ∧ match r with Ready (Ok (Some _)) => True | _ => asked p = true → asked p' = true end.
Proof.
  intros Hr Hc.
  assert (∀ p1, reach file o p1 → calm p1 → (asked p = true → asked p1 = true) →
    poll_select file_size block_size workers algorithm false p1 = (r, p') →
    calm p' ∧ match r with Ready (Ok (Some _)) => True | _ => asked p = true → asked p' = true end) as Hsel.
  { intros p1 Hr1 Hc1 Ha. rewrite calm_select by done.
    destruct (value p1) as [ [v p2]|] eqn:E; intros [= <- <-]; [|done].
    destruct (value_calm file o p1 v p2 Hr1 Hc1 E) as [Hc2 Hv]. split; [done|].
    destruct v; [done|]. by rewrite Hv. }
  unfold poll_recv. destruct (rphase (p_chan p)) eqn:Hph; [|by apply Hsel|by destruct (ca_phase _ Hc v)].
  rewrite (ca_err _ Hc). destruct (enter_calm file o p Hr Hc Hph) as (p1 & E & Hc1 & _ & Ha1 & _).
  rewrite E. apply Hsel; [|done..]. by apply (exec_reach _ _ CEnter p).
Qed.

(** When no worker has a step left and no block is held, a poll that is pending
    is one that has asked for a value. *)
Lemma poll_pending file (o : O) p p' : reach file o p → calm p → quiescent p → p_held p = [] →
  poll p = (Pending, p') → asked p = false ∧ asked p' = true.
Proof.
  intros Hr Hc Hq Hh.
  assert (∀ p1, reach file o p1 → calm p1 → rphase (p_chan p1) = RAwait → p_held p1 = [] → quiescent p1 →
    poll_select file_size block_size workers algorithm false p1 = (Pending, p') → False) as Hno.
  { intros p1 Hr1 Hc1 Hph1 Hh1 Hq1. rewrite calm_select by done.
    pose proof (preach_inv Hs _ _ _ Hr1) as Hp1.
    destruct (await_progress Hs p1 Hp1 (ca_live _ Hc1) Hph1 Hh1 (quiescent_stuck p1 Hp1 Hq1)) as [p2 Hst].
    destruct (value_complete file o p1 p2 Hr1 Hc1 Hst) as [ [v p3] ->]. done. }
  unfold poll_recv. destruct (rphase (p_chan p)) eqn:Hph; [|intros E; by destruct (Hno p)
    |by destruct (ca_phase _ Hc v)].
  rewrite (ca_err _ Hc). destruct (enter_calm file o p Hr Hc Hph) as (p1 & E & Hc1 & Hph1 & Ha1 & Hh1 & Hq1).
  rewrite E. assert (reach file o p1) as Hr1 by by apply (exec_reach _ _ CEnter p).
  destruct (asked p) eqn:Ha.
  - intros E'. destruct (Hno p1); [done..|congruence|by apply Hq1|done].
  - intros E'. split; [done|]. revert E'. rewrite calm_select by done.
    by destruct (value p1) as [ []|]; intros [= <-].
Qed.

(** ** The interfaces *)

Definition diligent_ok (file : bytes) (o : O) (d : Diligent Q O Wt) : Prop :=
  reach file o (di_pipe d) ∧ calm (di_pipe d).

Lemma turn_spec file (o : O) d p ls : diligent_ok file o d →
  take_turn file_size block_size workers algorithm d = (p, ls) →
  worked file o (di_pipe d) p
  ∧ match di_turns d with
    | [] => ls = [] ∧ quiescent p
    | l :: _ => (length ls < length (di_turns d))%nat
    end.
Proof.
  intros [Hr Hc]. unfold take_turn. destruct (di_turns d) as [|l ls']; intros [= <- <-].
  - destruct (all_spec file o _ Hr Hc) as [Hw Hq]. by split_and!.
  - destruct (each_spec file o l _ Hr Hc) as [Hw _]. split; [done|]. cbn. lia.
Qed.

#[local] Instance diligent_pipeline : Hasher (Diligent Q O Wt) :=
  diligent_hasher file_size block_size workers algorithm.

Lemma diligent_poll file (o : O) d r d' : diligent_ok file o d → h_poll d = (r, d') →
  ∃ p, take_turn file_size block_size workers algorithm d = (p, di_turns d')
    ∧ poll p = (r, di_pipe d') ∧ worked file o (di_pipe d) p
    ∧ polled (file_size:=file_size) (block_size:=block_size) (workers:=workers) (algorithm:=algorithm)
        file o p r (di_pipe d') ∧ diligent_ok file o d'.
Proof.
  intros Hok E. cbn in E. destruct (take_turn _ _ _ _ d) as [p ls] eqn:Et.
  destruct (turn_spec file o d p ls Hok Et) as [Hw _].
  destruct (poll p) as [r0 p'] eqn:Ep. injection E as <- <-. cbn. exists p. split; [done|].
  split; [done|]. split; [done|].
  pose proof (poll_recv_polled Hs file o false p r0 p' (wk_reach _ _ _ _ Hw) Ep) as Hpo.
  split; [done|]. split; [apply Hpo|].
  by apply (poll_calm file o p r0 p' (wk_reach _ _ _ _ Hw) (wk_calm _ _ _ _ Hw)).
Qed.

Lemma cancel_calm p : calm p → calm (default p (px CCancel p)) ∧ asked (default p (px CCancel p)) = asked p.
Proof.
  intros Hc. cbn [pexec exec]. destruct (is_live p); [|done].
  destruct (rphase (p_chan p)); [done| |done]. split; [|done]. by apply (calm_same p).
Qed.

Lemma release_calm l p : calm p → calm (release l p) ∧ asked (release l p) = asked p.
Proof.
  intros Hc. unfold release. destruct (list_find _ _) as [ [n x]|]; [|done].
  destruct (drop_loan _ _) as [ [l' o']|]; [|done]. split; [|done]. apply (calm_same p); try done. apply Hc.
Qed.

#[global] Instance diligent_laws file (o : O) :
  HasherLaws (Diligent Q O Wt) file_size block_size algorithm (diligent_ok file o).
Proof.
  apply (pipe_laws Hs _ di_pipe _ file o); [by intros d []|done| | |].
  - intros d r d' Hok E. destruct (diligent_poll file o d r d' Hok E) as (p & _ & _ & Hw & Hp & Hok').
    split; [done|]. exists p. split; [done|]. destruct Hw as [_ _ _ W4 W5 _ W7]. by rewrite W7.
  - intros d [Hr Hc]. split; [|done]. split; [by apply (cancel_reach file o)|by apply cancel_calm].
  - intros l d [Hr Hc]. split; [|done]. split; [by apply (release_spec Hs file o)|by apply release_calm].
Qed.

#[global] Instance diligent_sure file (o : O) : SureHasher (Diligent Q O Wt) (diligent_ok file o).
Proof.
  split.
  - intros d [_ Hc]. cbn. unfold set_ok. by rewrite bool_decide_true by apply Hc.
  - intros d r d' Hok E. destruct (diligent_poll file o d r d' Hok E) as (p & _ & _ & Hw & (_ & Hp & _) & _).
    cbn. rewrite Hp. apply Hw.
Qed.

(** The turns that are given, and at most two waits for each item: before it is
    asked for and after. *)
Definition diligent_stalls (d : Diligent Q O Wt) : nat :=
  (length (di_turns d) + 2 * (N.to_nat nb - length (p_recvd (di_pipe d)))
   + if asked (di_pipe d) then 0 else 1)%nat.

Lemma diligent_poll_stalls file (o : O) d r d' : diligent_ok file o d → h_poll d = (r, d') →
  (diligent_stalls d' ≤ diligent_stalls d)%nat
  ∧ (r = Pending → p_held (di_pipe d) = [] → (diligent_stalls d' < diligent_stalls d)%nat).
Proof.
  intros Hok E. destruct (diligent_poll file o d r d' Hok E) as (p & Et & Ep & Hw & (_ & _ & _ & Hp) & _).
  destruct (turn_spec file o d p _ Hok Et) as [_ Ht].
  destruct (poll_calm file o p r _ (wk_reach _ _ _ _ Hw) (wk_calm _ _ _ _ Hw) Ep) as [_ Ha].
  pose proof (poll_pending file o p (di_pipe d') (wk_reach _ _ _ _ Hw) (wk_calm _ _ _ _ Hw)) as Hpe.
  destruct Hw as [W1 W2 W3 W4 W5 W6 W7]. rewrite W3 in Ha, Hpe. rewrite W5 in Hpe. rewrite W4 in Hp.
  assert (length (di_turns d') ≤ length (di_turns d)
    ∧ (di_turns d ≠ [] → length (di_turns d') < length (di_turns d)))%nat as [L1 L2]
    by (destruct (di_turns d); [destruct Ht as [-> _]; done|split; [lia|done] ]).
  unfold diligent_stalls. destruct r as [ [ [v|]|e]|].
  - pose proof (h_poll_item (h_ok:=diligent_ok file o) d v d' Hok E) as (_ & _ & Hlt & _).
    unfold lenN in Hlt. cbn in Hlt. rewrite Hp, length_app. cbn. split; [|done].
    destruct (asked (di_pipe d')), (asked (di_pipe d)); lia.
  - destruct Hp as [-> _]. split; [|done].
    destruct (asked (di_pipe d)); [rewrite Ha by done|destruct (asked (di_pipe d'))]; lia.
  - destruct Hp as [-> _]. split; [|done].
    destruct (asked (di_pipe d)); [rewrite Ha by done|destruct (asked (di_pipe d'))]; lia.
  - rewrite Hp. split.
    + destruct (asked (di_pipe d)); [rewrite Ha by done|destruct (asked (di_pipe d'))]; lia.
    + intros _ Hh. destruct (di_turns d) as [|l ls] eqn:El.
      * destruct Ht as [-> Hq]. destruct (Hpe Hq Hh Ep) as [-> ->]. cbn. lia.
      * specialize (L2 ltac:(done)).
        destruct (asked (di_pipe d)); [rewrite Ha by done|destruct (asked (di_pipe d'))]; lia.
Qed.

#[global] Instance diligent_fair file (o : O) : FairHasher (Diligent Q O Wt) (diligent_ok file o).
Proof.
  refine {| h_stalls := diligent_stalls |}.
  - intros d d' Hok E Hl. apply (diligent_poll_stalls file o d _ d' Hok E); [done|].
    cbn in Hl. by apply fmap_nil_inv in Hl.
  - intros d r d' Hok E. by apply (diligent_poll_stalls file o d r d').
  - intros d [Hr Hc]. unfold diligent_stalls.
    change (h_cancel d) with (MkDiligent (default (di_pipe d) (px CCancel (di_pipe d))) (di_turns d)).
    cbn [di_pipe di_turns]. destruct (cancel_calm _ Hc) as [_ ->].
    enough (p_recvd (default (di_pipe d) (px CCancel (di_pipe d))) = p_recvd (di_pipe d)) as -> by lia.
    cbn [pexec]. destruct (is_live _); [|done]. by destruct (exec _ _) as [ []|].
  - intros l d [Hr Hc]. unfold diligent_stalls. cbn. destruct (release_calm l _ Hc) as [_ ->].
    by destruct (release_spec Hs file o l _ Hr) as (_ & -> & _).
Defined.

(** The file has changed. *)
#[global] Instance diligent_rereads file (o : O) :
  Rereads (Diligent Q O Wt) file_size (diligent_ok file o).
Proof.
  refine {| h_reread f d := MkDiligent (default (di_pipe d) (px (CEnv f) (di_pipe d))) (di_turns d) |};
    cbn; try done.
  - intros f d [Hr Hc] Hf. split; [by apply (exec_reach _ _ (CEnv f) (di_pipe d))|].
    destruct Hc. by split.
  - intros f d g [->|Hin]%elem_of_cons; [by right|by left].
Defined.
End diligent.

(** ** All blocks are delivered *)

Section delivers.
Context {Q O Wt : Type} `{!Mpsc Val Q, !MpscLaws Val Q, !Oneshot bytes O, !OneshotLaws bytes O}.
Context `{!Watch (option WorkerError) Wt, !WatchLaws (option WorkerError) Wt} {Hsh : Hashing}.
Context {file_size block_size workers : N} {algorithm : HashAlgorithm}.
#[local] Abbreviation nb := (num_blocks file_size block_size).

(** C21. The hashing of a file comes to its end: with any number of workers that
    get their turn, whatever turns they are given first, the stream is pending
    only so often; a consumer that drops each block it has read gets every block,
    once, in order, with its digest, then the end, and the data together are the
    file. *)
Theorem hash_stream_delivers file (o : O) turns n :
  sane file_size block_size workers → lenN file = file_size →
  (length turns + 3 * N.to_nat nb + 1 < n)%nat →
  ∃ d, drain (Hh := diligent_hasher (Q:=Q) (Wt:=Wt) file_size block_size workers algorithm) n
      (MkDiligent (hash_file block_size workers file o) turns) = Some d
    ∧ content <$> p_recvd (di_pipe d)
      = expected (file_size:=file_size) (block_size:=block_size) (algorithm:=algorithm) file
        <$> seqN (N.to_nat nb)
    ∧ concat (snd <$> (content <$> p_recvd (di_pipe d))) = file.
Proof.
  intros Hs Hf Hn. pose (Hh := diligent_hasher (Q:=Q) (O:=O) (Wt:=Wt) file_size block_size workers algorithm).
  destruct (drain_ends (Hh:=Hh) (Hlaws := diligent_laws Hs file o) (FairHasher0 := diligent_fair Hs file o)
    (SureHasher0 := diligent_sure Hs file o) n (MkDiligent (hash_file block_size workers file o) turns))
    as (d & E & [Hr _] & Hl & Hc).
  - split; [by apply preach_init|by apply calm_hash_file].
  - done.
  - cbn [h_stalls diligent_fair h_recvd Hh]. unfold diligent_stalls. cbn [di_turns di_pipe p_recvd hash_file].
    destruct (asked _); cbn; lia.
  - exists d. split; [exact E|]. cbn in Hl, Hc.
    rewrite (recvd_expected file o _ Hs Hr Hc).
    replace (length (p_recvd (di_pipe d))) with (N.to_nat nb) by (unfold lenN in Hl; lia).
    split; [done|]. rewrite <-list_fmap_compose. by apply (concat_all_blocks Hs).
Qed.
End delivers.

(** Two workers, the file of 23 bytes of HashFile.v; worker 1 goes first. *)
#[local] Existing Instance toy_hashing.

Lemma hash_stream_delivers_witness :
  ∃ d : Diligent (MpQueue Val) (OsStore bytes) (option WorkerError * bool),
    drain (Hh := diligent_hasher 23 10 2 CRC32) 14
      (MkDiligent (hash_file 10 2 sample_file (MkOsStore 0 ∅)) [[1; 1]; []]) = Some d
    ∧ concat (snd <$> (content <$> p_recvd (di_pipe d))) = sample_file.
Proof.
  destruct (hash_stream_delivers (Q:=MpQueue Val) (Wt:=option WorkerError * bool) (algorithm:=CRC32)
    sample_file (MkOsStore 0 ∅) [[1; 1]; []] 14 sample_sane) as (d & H1 & _ & H2).
  - reflexivity.
  - vm_compute. lia.
  - exists d. split; [exact H1|exact H2].
Defined.
