(* ===== verification/Overwrite.v ===== *)
(** Writing a file while it is hashed.

    The server writes the blocks it receives into the file its workers are
    reading (src/src/server.rs, lines 81-153).  This is safe because a block is
    only overwritten after its hash has been received from the stream: the
    hashes are those of the file as it was at the start. *)

From stdpp Require Import base option list numbers gmap.
From Stdlib Require Import NArith Lia.
From S2P Require Import Prelude AsyncIO Loan Disk OrderedChannel HashFile Pipeline PipelineInv.
From S2P Require Import HashStream Hasher.
#[local] Open Scope N_scope.

Section blocks.
Context (file_size block_size : N).
#[local] Abbreviation nb := (num_blocks file_size block_size).

(** [file'] has the blocks of [file] from block [n] on. *)
Definition spares (n : N) (file file' : bytes) : Prop :=
  lenN file' = lenN file
  ∧ ∀ k, n ≤ k → k < nb → block file_size block_size file' k = block file_size block_size file k.

(** Two files with the same blocks are the same. *)
Lemma blocks_determine file file' : sane file_size block_size 1 →
  lenN file = file_size → lenN file' = file_size →
  (∀ k, k < nb → block file_size block_size file' k = block file_size block_size file k) →
  file' = file.
Proof.
  intros Hs Hf Hf' Hb. rewrite <-(concat_all_blocks Hs file Hf), <-(concat_all_blocks Hs file' Hf').
  f_equal. apply list_fmap_ext. intros i k Hk. apply list_elem_of_lookup_2 in Hk.
  apply elem_of_seqN in Hk. apply Hb. lia.
Qed.

(** A write within block [j]: the size and the other blocks stay. *)
Lemma patch_within file j data : sane file_size block_size 1 → lenN file = file_size → j < nb →
  lenN data ≤ block_len file_size block_size j →
  lenN (patch file (j * block_size) data) = file_size
  ∧ ∀ k, k < nb → k ≠ j →
      block file_size block_size (patch file (j * block_size) data) k = block file_size block_size file k.
Proof.
  intros Hs Hf Hj Hd. destruct (decide (data = [])) as [->|Hne]; [by split|].
  pose proof (block_len_end Hs j Hj) as Hend. destruct Hs as (Hb & _ & _).
  split; [unfold lenN in *; rewrite length_patch by done; lia|].
  intros k Hk Hkj. unfold block, slice. apply list_eq. intros i.
  set (n := block_len file_size block_size k).
  assert (k * block_size + block_size ≤ j * block_size
    ∨ j * block_size + block_size ≤ k * block_size) as Hdis by nia.
  assert (n ≤ block_size ∧ lenN data ≤ block_size) as [Hn Hdl].
  { split; [|etrans; [exact Hd|]]; unfold n, block_len; lia. }
  destruct (decide (i < N.to_nat n)%nat); [|by rewrite !lookup_take_ge by lia].
  rewrite !lookup_take_lt, !lookup_drop, lookup_patch by done.
  case_decide; [rewrite decide_True; [done|]|rewrite decide_False; [done|]]; unfold lenN in *; lia.
Qed.

(** A write of block [j]: it is the data then. *)
Lemma patch_block file j data : sane file_size block_size 1 → lenN file = file_size → j < nb →
  lenN data = block_len file_size block_size j →
  lenN (patch file (j * block_size) data) = file_size
  ∧ ∀ k, k < nb → block file_size block_size (patch file (j * block_size) data) k
                  = if decide (k = j) then data else block file_size block_size file k.
Proof.
  intros Hs Hf Hj Hd. destruct (patch_within file j data Hs Hf Hj) as [H1 H2]; [lia|].
  split; [done|]. intros k Hk. destruct (decide (k = j)) as [->|Hkj]; [|by apply H2].
  pose proof (block_len_pos Hs j Hj) as Hpos.
  unfold block, slice. apply list_eq. intros i. rewrite <-Hd.
  destruct (decide (i < length data)%nat) as [Hi|Hi].
  - rewrite lookup_take_lt, lookup_drop, lookup_patch by (unfold lenN; lia).
    rewrite decide_False, decide_True by lia. f_equal. lia.
  - rewrite lookup_take_ge by (unfold lenN; lia). symmetry. apply lookup_ge_None. lia.
Qed.

(** A write within a block before block [n] spares the blocks from [n] on. *)
Lemma patch_spares file j n data : sane file_size block_size 1 → lenN file = file_size → j < nb →
  lenN data ≤ block_len file_size block_size j → j < n →
  spares n file (patch file (j * block_size) data).
Proof.
  intros Hs Hf Hj Hd Hn. destruct (patch_within file j data Hs Hf Hj Hd) as [H1 H2].
  split; [congruence|]. intros k Hk Hk'. apply H2; [done|lia].
Qed.

Lemma spares_trans n f1 f2 f3 : spares n f1 f2 → spares n f2 f3 → spares n f1 f3.
Proof. intros [A1 A2] [B1 B2]. split; [congruence|]. intros k H1 H2. by rewrite B2, A2. Qed.

(** Whole blocks before block [n]. *)
Definition block_before (n : N) (b : N * bytes) : Prop :=
  ∃ k, k < n ∧ k < nb ∧ b.1 = k * block_size ∧ lenN b.2 = block_len file_size block_size k.

Lemma patches_spares file n bs : sane file_size block_size 1 → lenN file = file_size →
  Forall (block_before n) bs → spares n file (patches file bs).
Proof.
  intros Hs Hf. induction bs as [|[off data] bs IH] using rev_ind; [done|].
  intros [Hbs (k & H1 & H2 & H3 & H4)%Forall_singleton]%Forall_app. cbn in H3, H4. subst off.
  rewrite patches_snoc. apply (spares_trans _ _ (patches file bs)); [auto|].
  destruct (IH Hbs) as [Hl _]. apply patch_spares; cbn; [done|congruence|done|lia|done].
Qed.
End blocks.

Section overwrite.
Context {Q O Wt : Type} `{!Mpsc Val Q, !MpscLaws Val Q, !Oneshot bytes O, !OneshotLaws bytes O}.
Context `{!Watch (option WorkerError) Wt, !WatchLaws (option WorkerError) Wt} {Hsh : Hashing}.
Context {file_size block_size workers : N} {algorithm : HashAlgorithm}.
#[local] Abbreviation nb := (num_blocks file_size block_size).
#[local] Abbreviation pipe := (Pipe Q O Wt).
#[local] Abbreviation pstep' := (pstep file_size block_size workers algorithm).
#[local] Abbreviation preach' := (preach file_size block_size workers algorithm).
Implicit Types p : pipe.

(** The runs in which whoever changes the file only touches blocks that have
    been received. *)
Inductive disciplined_reach (file : bytes) (o : O) : pipe → Prop :=
  | dr_init : lenN file = file_size →
      disciplined_reach file o (hash_file block_size workers file o)
  | dr_step p e p' : disciplined_reach file o p → pstep' p e p' →
      (e = PEnv → spares file_size block_size (lenN (p_recvd p)) (p_file p) (p_file p')) →
      disciplined_reach file o p'.

Lemma disciplined_preach file (o : O) p : disciplined_reach file o p → preach' file o p.
Proof. induction 1 as [|p e p' _ IH Hst _]; [by constructor|by eapply preach_step]. Qed.

Lemma pstep_recvd p e p' : pstep' p e p' → (length (p_recvd p) ≤ length (p_recvd p'))%nat.
Proof. destruct 1; cbn; try done. rewrite length_app. cbn. lia. Qed.

(** Called messages carry the blocks of the first file. *)
Definition original (file : bytes) (x : N * Val) : Prop :=
  deref (data x.2.2) = block file_size block_size file x.1.

Record over_inv (file : bytes) p : Prop := {
  ov_file : spares file_size block_size (lenN (p_recvd p)) file (p_file p);
  ov_called : Forall (original file) (called (p_chan p));
}.

Lemma over_step (Hs : sane file_size block_size workers) file (o : O) p e p' :
  preach' file o p → pstep' p e p' → over_inv file p →
  (e = PEnv → spares file_size block_size (lenN (p_recvd p)) (p_file p) (p_file p')) →
  over_inv file p'.
Proof.
  intros Hr Hst [[H1 H2] H3] Henv. pose proof (pstep_recvd _ _ _ Hst) as Hmono.
  pose proof (preach_inv Hs file o p Hr) as Hp.
  pose proof (preach_inv Hs file o p' (preach_step _ _ _ _ _ _ _ _ _ Hr Hst)) as Hp'.
  split.
  - assert (spares file_size block_size (lenN (p_recvd p)) (p_file p) (p_file p')) as [F1 F2].
    { destruct (pstep_hist _ _ _ Hst) as [[-> _]|[He _]]; [done|auto]. }
    split; [congruence|]. intros k Hk Hk'. unfold lenN in *. rewrite F2, H2 by lia. done.
  - destruct (pstep_called Hs p e p' (pi_base _ Hp) Hst) as [->|(x & Hc & (_ & _ & f & Hf & Hx & _) & _)];
      [done|].
    rewrite Hc. constructor; [|done]. apply list_elem_of_singleton in Hf as ->.
    assert (x.1 < nb) as Hlt.
    { destruct (pi_base _ Hp') as [_ Hw]. pose proof (wi_bound _ _ _ _ _ _ Hw) as B.
      rewrite Hc in B. by inversion B. }
    unfold original. rewrite Hx. apply H2; [|done].
    destruct (decide (x.1 < lenN (p_recvd p))) as [Hb|]; [exfalso|lia].
    destruct (p_recvd p !! N.to_nat x.1) as [v|] eqn:Hv.
    2:{ apply lookup_ge_None in Hv. unfold lenN in Hb. lia. }
    apply (recvd_sent Hs p _ v Hp) in Hv. rewrite N2Nat.id in Hv.
    destruct (base_chan_inv Hs p (pi_base _ Hp)) as [_ Hi].
    apply list_elem_of_lookup_2, (di_sub _ Hi) in Hv.
    destruct (pi_base _ Hp') as [_ Hw]. pose proof (wi_nodup _ _ _ _ _ _ Hw) as Hn.
    rewrite Hc, fmap_cons, NoDup_cons in Hn. destruct Hn as [Hn _]. apply Hn.
    apply list_elem_of_fmap. by exists (x.1, v).
Qed.

Lemma disciplined_inv (Hs : sane file_size block_size workers) file (o : O) p :
  disciplined_reach file o p → over_inv file p.
Proof.
  induction 1 as [Hf|p e p' Hr IH Hst Henv].
  - destruct (hash_file_chan (Wt:=Wt) (block_size:=block_size) (workers:=workers) file o)
      as (_ & _ & H3 & _). split; [by split|]. rewrite H3. constructor.
  - apply (over_step Hs file o p e); [by apply disciplined_preach|done..].
Qed.

(** C14. Overwriting is safe: with any number of workers and any interleaving, if
    the file is only changed in blocks whose item has been received, every item
    received is that of the file as it was at the start: its data is the
    original block and its hash the digest of it. *)
Theorem hash_stream_overwrite file (o : O) p n v :
  sane file_size block_size workers → disciplined_reach file o p →
  p_recvd p !! n = Some v →
  v.1 = N.of_nat n ∧ deref (data v.2) = block file_size block_size file (N.of_nat n)
  ∧ hash v.2 = hash_data (block file_size block_size file (N.of_nat n)) algorithm.
Proof.
  intros Hs Hd Hn. pose proof (disciplined_preach _ _ _ Hd) as Hr.
  pose proof (preach_inv Hs file o p Hr) as Hp.
  destruct (recvd_ok Hs p n v Hp Hn) as [(H1 & H2 & _) _]. cbn in H1, H2. split; [done|].
  destruct (disciplined_inv Hs file o p Hd) as [_ Hc].
  apply (recvd_sent Hs p _ v Hp) in Hn.
  destruct (base_chan_inv Hs p (pi_base _ Hp)) as [_ Hi].
  apply list_elem_of_lookup_2, (di_sub _ Hi) in Hn. rewrite Forall_forall in Hc.
  pose proof (Hc (N.of_nat n, v) Hn) as Hd'. unfold original in Hd'. cbn [fst snd] in Hd'.
  by rewrite H2, Hd'.
Qed.
End overwrite.

(** ** Runs with a checked discipline *)

Section runs.
Context {Q O Wt : Type} `{!Mpsc Val Q, !MpscLaws Val Q, !Oneshot bytes O, !OneshotLaws bytes O}.
Context `{!Watch (option WorkerError) Wt, !WatchLaws (option WorkerError) Wt} {Hsh : Hashing}.
Context (file_size block_size workers : N) (algorithm : HashAlgorithm).
#[local] Abbreviation nb := (num_blocks file_size block_size).
#[local] Abbreviation pipe := (Pipe Q O Wt).

Definition sparesb (n : N) (file file' : bytes) : bool :=
  (lenN file' =? lenN file)
  && forallb (λ k, (k <? n) || bool_decide (block file_size block_size file' k
                                            = block file_size block_size file k))
             (seqN (N.to_nat nb)).

Lemma sparesb_ok n file file' : sparesb n file file' = true →
  spares file_size block_size n file file'.
Proof.
  unfold sparesb. rewrite andb_true_iff, N.eqb_eq, forallb_forall. intros [H1 H2].
  split; [done|]. intros k Hk Hk'. specialize (H2 k).
  rewrite orb_true_iff, N.ltb_lt, bool_decide_eq_true in H2.
  destruct H2 as [H2|H2]; [|lia|done]. apply list_elem_of_In, elem_of_seqN. lia.
Qed.

(** The commands of HashStream.v; a change of the file is checked. *)
Definition checked (c : PCmd) (p : pipe) : bool :=
  match c with CEnv f => sparesb (lenN (p_recvd p)) (p_file p) f | _ => true end.

Fixpoint checked_run (cs : list PCmd) (p : pipe) : option pipe :=
  match cs with
  | [] => Some p
  | c :: cs =>
      if checked c p then
        match pexec file_size block_size workers algorithm c p with
        | Some p' => checked_run cs p'
        | None => None
        end
      else None
  end.

Lemma checked_step file (o : O) c p p' :
  disciplined_reach (file_size:=file_size) (block_size:=block_size) (workers:=workers)
    (algorithm:=algorithm) file o p →
  checked c p = true → pexec file_size block_size workers algorithm c p = Some p' →
  disciplined_reach (file_size:=file_size) (block_size:=block_size) (workers:=workers)
    (algorithm:=algorithm) file o p'.
Proof.
  intros Hd Hc E. destruct (pexec_step _ _ _ _ _ _ _ E) as [e He].
  eapply dr_step; [exact Hd|exact He|]. intros ->.
  destruct (pstep_hist _ _ _ He) as [[Hf _]|[_ Hh]]; [by rewrite Hf; split|].
  destruct c as [i| | | | | | | |f]; [..|cbn in E, Hc; simplify_eq; by apply sparesb_ok].
  all: apply exec_same_hist in E; [|done]; rewrite E in Hh; apply (f_equal length) in Hh;
    cbn in Hh; lia.
Qed.

Lemma checked_run_reach file (o : O) cs p :
  disciplined_reach (file_size:=file_size) (block_size:=block_size) (workers:=workers)
    (algorithm:=algorithm) file o p →
  disciplined_reach (file_size:=file_size) (block_size:=block_size) (workers:=workers)
    (algorithm:=algorithm) file o (default p (checked_run cs p)).
Proof.
  intros Hp. destruct (checked_run cs p) as [p'|] eqn:E; [|done]. cbn. revert p Hp E.
  induction cs as [|c cs IH]; intros p Hp E; cbn in E; [by simplify_eq|].
  destruct (checked c p) eqn:Hc; [|done].
  destruct (pexec _ _ _ _ c p) as [p1|] eqn:E1; [|done].
  by eapply IH, E; eapply checked_step.
Qed.
End runs.

(** Two workers; block 0 is received and then overwritten, before block 1 is
    received. *)
#[local] Existing Instance toy_hashing.
#[local] Existing Instance toy_hashing_laws.

Definition new_file : bytes := replicate 10 Byte.xff ++ drop 10 sample_file.
Definition overwritten : SamplePipe :=
  default sample_start (checked_run 23 10 2 CRC32
    (cmds_start ++ cmds_recv 0 ++ [CEnv new_file] ++ [CWork 0] ++ cmds_recv 1) sample_start).

Lemma hash_stream_overwrite_witness :
  p_file overwritten = new_file
  ∧ ∃ v, p_recvd overwritten !! 1%nat = Some v
      ∧ deref (data v.2) = block 23 10 sample_file 1
      ∧ hash v.2 = hash_data (block 23 10 sample_file 1) CRC32.
Proof.
  split; [vm_compute; reflexivity|].
  destruct (p_recvd overwritten !! 1%nat) as [v|] eqn:E; [|vm_compute in E; discriminate].
  exists v. split; [reflexivity|].
  assert (disciplined_reach (file_size:=23) (block_size:=10) (workers:=2) (algorithm:=CRC32)
    sample_file (MkOsStore 0 ∅) overwritten) as Hd
    by (apply checked_run_reach, dr_init; reflexivity).
  destruct (hash_stream_overwrite sample_file (MkOsStore 0 ∅) overwritten 1 v sample_sane Hd E)
    as (_ & H1 & H2). split; [exact H1|exact H2].
Defined.
