(* ===== verification/Handshake.v ===== *)
(** The two handshakes: lines 18-79 of [process_new_client] (src/src/server.rs)
    and lines 31-66 of [new_process] (src/src/client.rs), over a connection and
    a file system. *)

From stdpp Require Import base option list gmap numbers strings.
From Stdlib Require Import NArith Lia.
From S2P Require Import Prelude AsyncIO Utf8 Wire Fs HashFile.
#[local] Open Scope N_scope.

(** ** Two objects at once *)

Section lift.
Context {S1 S2 A : Type}.
Definition on_conn (m : IO S1 A) : IO (S1 * S2) A := λ s,
  let '(r, c) := m s.1 in (r, (c, s.2)).
Definition on_fs (m : IO S2 A) : IO (S1 * S2) A := λ s,
  let '(r, f) := m s.2 in (r, (s.1, f)).
End lift.

(** A computation that may [return Ok(status)] early. *)
Definition Early (S A : Type) : Type := IO S (StatusCode + A).

#[global] Instance Early_ret {S} : MRet (Early S) := λ A a s, (Ok (inr a), s).
#[global] Instance Early_bind {S} : MBind (Early S) := λ A B f m s,
  match m s with
  | (Ok (inr a), s') => f a s'
  | (Ok (inl st), s') => (Ok (inl st), s')
  | (Err e, s') => (Err e, s')
  end.

Definition return_status {S A} (st : StatusCode) : Early S A := λ s, (Ok (inl st), s).

(** [m.await?] *)
Definition awaits {S A} (m : IO S A) : Early S A := λ s,
  let '(r, s') := m s in (match r with Ok a => Ok (inr a) | Err e => Err e end, s').

(** ** The server *)

(** What the client asked for. *)
Record Request := MkRequest {
  dest_path : bytes;
  block_size : N;
  filesize : N;
  hash_algorithm : HashAlgorithm;
}.

(** [1024 * 1024 * 1024] *)
Definition MAX_BLOCK_SIZE : N := 2 ^ 30.

(** [Err(e) => match e.kind() ..] of line 65, and its [Ok] branch. *)
Definition try_metadata (path : bytes) : Early Fs (Result N) := λ fs,
  let '(r, fs') := fs_metadata path fs in (Ok (inr r), fs').

(** Lines 56-77: the destination file gets the size of the source. *)
Definition prepare_dest (path : bytes) (size : N) (force_truncate : bool) : Early Fs () :=
  metadata ← try_metadata path;
  match metadata with
  | Ok len =>
      if (len =? size) || force_truncate then
        dest ← awaits (fs_open_write path); awaits (fs_set_len dest size)
      else return_status FileSizeDiffers
  | Err (EIo EkNotFound) => dest ← awaits (fs_create path); awaits (fs_set_len dest size)
  | Err (EIo EkPermissionDenied) => return_status PermissionDenied
  | Err e => awaits (io_fail e)
  end.

Section server.
Context {S : Type} `{!Stream S}.
#[local] Abbreviation st := (S * Fs)%type.

Definition net {A} (m : IO S A) : Early st A := awaits (on_conn m).

(** Lines 18-28. *)
Definition check_secret (secret : bytes) : Early st () :=
  secret_len ← net s_read_u8;
  if bool_decide (secret_len ≠ lenN secret mod 256) then return_status InvalidSecret
  else
    client_secret ← net (s_read_exact (N.to_nat secret_len));
    if bool_decide (client_secret ≠ secret) then return_status InvalidSecret
    else net (write_status Ack).

(** Lines 30-35. *)
Definition check_version : Early st () :=
  client_protocol_version ← net s_read_u8;
  if bool_decide (client_protocol_version ≠ PROTOCOL_VERSION)
  then return_status UnsupportedProtocolVersion
  else net (write_status Ack).

(** Lines 37-79. *)
Definition read_request : Early st Request :=
  path ← net (read_string 4096);
  bsize ← net s_read_u64;
  if (bsize =? 0) || (MAX_BLOCK_SIZE <? bsize) then return_status InvalidBlockSize
  else
    size ← net s_read_u64;
    force ← net s_read_u8;
    algo ← net s_read_u8;
    match hash_algorithm_of_u8 algo with
    | None => return_status UnknownHashAlgorithm
    | Some algorithm =>
        _ ← (on_fs (prepare_dest path size (negb (force =? 0))) : Early st ());
        _ ← net (write_status Ack);
        mret (MkRequest path bsize size algorithm)
    end.

(** [process_new_client] up to line 79. *)
Definition server_handshake (secret : bytes) : Early st Request :=
  _ ← check_secret secret;
  _ ← check_version;
  read_request.
End server.

(** ** The client *)

(** [ClientProcessOptions], less the address; the paths as bytes. *)
Record ClientProcessOptions := MkClientProcessOptions {
  opt_secret : bytes;
  opt_src_path : bytes;
  opt_dest : bytes;
  opt_force_truncate : bool;
  opt_workers : N;
  opt_block_size : N;
  opt_hash_algorithm : HashAlgorithm;
}.

Section client.
Context {S : Type} `{!Stream S}.
#[local] Abbreviation st := (S * Fs)%type.

(** [new_process] from line 31 to line 66: the size of the source. *)
Definition client_handshake (o : ClientProcessOptions) : IO st N :=
  _ ← (if lenN (opt_secret o) <? 256 then mret () else io_fail ETryFromInt : IO st ());
  _ ← on_conn (s_write_u8 (lenN (opt_secret o)));
  _ ← on_conn (s_write_all (opt_secret o));
  _ ← on_conn check_status;
  _ ← on_conn (s_write_u8 PROTOCOL_VERSION);
  _ ← on_conn check_status;
  _ ← (if utf8_valid (opt_dest o) then mret ()
       else io_fail (EMsg "Invalid characters in destination path") : IO st ());
  _ ← on_conn (write_string (opt_dest o));
  src ← on_fs (fs_open_read (opt_src_path o));
  src_size ← on_fs (fs_seek_end src);
  if src_size =? 0 then io_fail (EMsg "Source file is empty, nothing to sync")
  else
    _ ← on_conn (s_write_u64 (opt_block_size o));
    _ ← on_conn (s_write_u64 src_size);
    _ ← on_conn (s_write_u8 (if opt_force_truncate o then 1 else 0));
    _ ← on_conn (s_write_u8 (hash_algorithm_to_u8 (opt_hash_algorithm o)));
    _ ← on_conn check_status;
    mret src_size.
End client.

(** ** What goes over the wire *)

(** The bytes of the client, for a source of [size] bytes. *)
Definition hello (o : ClientProcessOptions) : bytes :=
  byte_of (lenN (opt_secret o)) :: opt_secret o.
Definition request (o : ClientProcessOptions) (size : N) : bytes :=
  string_frame (opt_dest o) ++ be_bytes 8 (opt_block_size o) ++ be_bytes 8 size
  ++ [byte_of (if opt_force_truncate o then 1 else 0);
      byte_of (hash_algorithm_to_u8 (opt_hash_algorithm o))].
Definition client_bytes (o : ClientProcessOptions) (size : N) : bytes :=
  hello o ++ [byte_of PROTOCOL_VERSION] ++ request o size.

Definition status_byte (st : StatusCode) : byte := byte_of (status_to_u8 st).

(** ** Running the handshakes on a connection *)

Lemma early_step {S A B} (m : Early S A) (f : A → Early S B) s a s' :
  m s = (Ok (inr a), s') → (m ≫= f) s = f a s'.
Proof. unfold mbind, Early_bind. by intros ->. Qed.

Lemma early_return {S A B} (m : Early S A) (f : A → Early S B) s st s' :
  m s = (Ok (inl st), s') → (m ≫= f) s = (Ok (inl st), s').
Proof. unfold mbind, Early_bind. by intros ->. Qed.

Lemma early_error {S A B} (m : Early S A) (f : A → Early S B) s e s' :
  m s = (Err e, s') → (m ≫= f) s = (Err e, s').
Proof. unfold mbind, Early_bind. by intros ->. Qed.

(** The three ways a sequence runs. *)
Lemma early_inv {S A B} (m : Early S A) (f : A → Early S B) s r s' :
  (m ≫= f) s = (r, s') →
  (∃ a s1, m s = (Ok (inr a), s1) ∧ f a s1 = (r, s'))
  ∨ (∃ st, m s = (Ok (inl st), s') ∧ r = Ok (inl st))
  ∨ (∃ e, m s = (Err e, s') ∧ r = Err e).
Proof. unfold mbind, Early_bind. destruct (m s) as [[[st|a]|e] s1]; intros; simplify_eq; eauto 10. Qed.

Lemma io_step {S A B} (m : IO S A) (f : A → IO S B) s a s' :
  m s = (Ok a, s') → (m ≫= f) s = f a s'.
Proof. unfold mbind, IO_bind. by intros ->. Qed.

Lemma io_error {S A B} (m : IO S A) (f : A → IO S B) s e s' :
  m s = (Err e, s') → (m ≫= f) s = (Err e, s').
Proof. unfold mbind, IO_bind. by intros ->. Qed.

Lemma conn_read_app n bs rest out w : length bs = n →
  conn_read n (MkConn (bs ++ rest) out w) = (Ok bs, MkConn rest out w).
Proof.
  intros <-. rewrite conn_read_ok by (cbn; len_lia). cbn.
  by rewrite take_app_length, drop_app_length.
Qed.

Lemma conn_u8 b rest out w :
  s_read_u8 (MkConn (b :: rest) out w) = (Ok (byte_val b), MkConn rest out w).
Proof.
  cbn. unfold mbind, IO_bind.
  by rewrite (conn_read_app 1 [b] rest out w eq_refl : conn_read 1 (MkConn (b :: rest) out w) = _).
Qed.

Lemma conn_u64 v rest out w : v < W64 →
  s_read_u64 (MkConn (be_bytes 8 v ++ rest) out w) = (Ok v, MkConn rest out w).
Proof.
  intros Hv. cbn. unfold mbind, IO_bind. rewrite conn_read_app by (by rewrite length_be_bytes).
  cbn [mret IO_ret]. by rewrite be_val_bytes8.
Qed.

Lemma conn_string max s rest out w : sendable max s →
  read_string max (MkConn (string_frame s ++ rest) out w) = (Ok s, MkConn rest out w).
Proof.
  intros Hs. destruct (conn_read_string max (MkConn (string_frame s ++ rest) out w)) as [H1 H2].
  cbn [c_in] in *. rewrite parse_string_frame in * by done. specialize (H2 _ _ eq_refl).
  apply injective_projections; [by rewrite H1|exact H2].
Qed.

Lemma conn_put_u8 n inp out : s_write_u8 n (MkConn inp out true)
  = (Ok (), MkConn inp (out ++ [byte_of n]) true).
Proof. done. Qed.

Lemma conn_put_u64 n inp out : s_write_u64 n (MkConn inp out true)
  = (Ok (), MkConn inp (out ++ be_bytes 8 n) true).
Proof. done. Qed.

Lemma conn_put bs inp out : s_write_all bs (MkConn inp out true)
  = (Ok (), MkConn inp (out ++ bs) true).
Proof. done. Qed.

(** The next status. *)
Lemma conn_check st rest out w :
  check_status (MkConn (status_byte st :: rest) out w) = (status_result st, MkConn rest out w).
Proof.
  unfold check_status, mbind, IO_bind. rewrite conn_u8. unfold status_byte.
  rewrite byte_val_of, N.mod_small by apply status_to_u8_lt. by rewrite status_of_to_u8.
Qed.

Lemma conn_check_eof out w :
  check_status (MkConn [] out w) = (Err (EIo EkUnexpectedEof), MkConn [] out w).
Proof. done. Qed.

Section steps.
Implicit Types (fs : Fs) (o : ClientProcessOptions) (inp out rest : bytes).

Lemma net_ok {A} (m : IO Conn A) c fs a c' : m c = (Ok a, c') →
  net m (c, fs) = (Ok (inr a), (c', fs)).
Proof. unfold net, awaits, on_conn. cbn. by intros ->. Qed.

Lemma net_err {A} (m : IO Conn A) c fs e c' : m c = (Err e, c') →
  net m (c, fs) = (Err e, (c', fs)).
Proof. unfold net, awaits, on_conn. cbn. by intros ->. Qed.

Lemma on_conn_ok {A} (m : IO Conn A) c fs a c' : m c = (Ok a, c') →
  on_conn m (c, fs) = (Ok a, (c', fs)).
Proof. unfold on_conn. cbn. by intros ->. Qed.

Lemma net_ack rest out fs :
  net (write_status Ack) (MkConn rest out true, fs)
  = (Ok (inr ()), (MkConn rest (out ++ [status_byte Ack]) true, fs)).
Proof. by apply net_ok. Qed.

(** Lines 18-28 on the client's first bytes. *)
Lemma check_secret_same o rest out fs : lenN (opt_secret o) < 256 →
  check_secret (opt_secret o) (MkConn (hello o ++ rest) out true, fs)
  = (Ok (inr ()), (MkConn rest (out ++ [status_byte Ack]) true, fs)).
Proof.
  intros Hl. unfold check_secret, hello. rewrite <-app_comm_cons.
  erewrite early_step by apply net_ok, conn_u8.
  rewrite byte_val_of, bool_decide_false by (intros Hn; by apply Hn).
  rewrite N.mod_small by done.
  erewrite early_step by (apply net_ok, conn_read_app; unfold lenN; lia).
  rewrite bool_decide_false by (intros Hn; by apply Hn). apply net_ack.
Qed.

Lemma check_secret_other secret o rest out fs :
  lenN (opt_secret o) < 256 → lenN secret < 256 → opt_secret o ≠ secret →
  ∃ inp, check_secret secret (MkConn (hello o ++ rest) out true, fs)
    = (Ok (inl InvalidSecret), (MkConn inp out true, fs)).
Proof.
  intros Hl Hl' Hne. unfold check_secret, hello. rewrite <-app_comm_cons.
  erewrite early_step by apply net_ok, conn_u8.
  rewrite byte_val_of, !N.mod_small by done. case_bool_decide as Hs; [by eexists|].
  erewrite early_step by (apply net_ok, conn_read_app; unfold lenN; lia).
  rewrite bool_decide_true by done. by eexists.
Qed.

Lemma check_version_run rest out fs :
  check_version (MkConn (byte_of PROTOCOL_VERSION :: rest) out true, fs)
  = (Ok (inr ()), (MkConn rest (out ++ [status_byte Ack]) true, fs)).
Proof.
  unfold check_version. erewrite early_step by apply net_ok, conn_u8.
  rewrite bool_decide_false by (intros Hn; by apply Hn). apply net_ack.
Qed.

(** What the options ask for, and when they can be sent. *)
Definition wanted o (size : N) : Request :=
  MkRequest (opt_dest o) (opt_block_size o) size (opt_hash_algorithm o).

Definition options_ok o (size : N) : Prop :=
  lenN (opt_secret o) < 256 ∧ sendable 4096 (opt_dest o) ∧ opt_block_size o < W64 ∧ size < W64.

Definition block_size_ok (n : N) : Prop := 0 < n ∧ n ≤ MAX_BLOCK_SIZE.

#[global] Instance block_size_ok_dec n : Decision (block_size_ok n).
Proof. unfold block_size_ok. apply _. Defined.

Lemma block_size_test n : (n =? 0) || (MAX_BLOCK_SIZE <? n) = negb (bool_decide (block_size_ok n)).
Proof.
  unfold block_size_ok. destruct (N.eqb_spec n 0) as [H0|H0], (N.ltb_spec MAX_BLOCK_SIZE n) as [H1|H1];
    case_bool_decide; cbn; try done; lia.
Qed.

(** Lines 37-79 on the client's request. *)
Lemma read_request_bad o size rest out fs :
  options_ok o size → ¬ block_size_ok (opt_block_size o) →
  ∃ inp, read_request (MkConn (request o size ++ rest) out true, fs)
    = (Ok (inl InvalidBlockSize), (MkConn inp out true, fs)).
Proof.
  intros (_ & Hd & Hb & _) Hbad. unfold read_request, request. rewrite <-!(assoc_L (++)).
  erewrite early_step by apply net_ok, conn_string, Hd.
  erewrite early_step by apply net_ok, conn_u64, Hb.
  rewrite block_size_test, bool_decide_false by done. by eexists.
Qed.

Lemma read_request_run o size rest out fs :
  options_ok o size → block_size_ok (opt_block_size o) →
  read_request (MkConn (request o size ++ rest) out true, fs)
  = let '(r, fs') := prepare_dest (opt_dest o) size (opt_force_truncate o) fs in
    match r with
    | Ok (inr _) => (Ok (inr (wanted o size)),
                     (MkConn rest (out ++ [status_byte Ack]) true, fs'))
    | Ok (inl st) => (Ok (inl st), (MkConn rest out true, fs'))
    | Err e => (Err e, (MkConn rest out true, fs'))
    end.
Proof.
  intros (_ & Hd & Hb & Hs) Hok. unfold read_request, request. rewrite <-!(assoc_L (++)).
  erewrite early_step by apply net_ok, conn_string, Hd.
  erewrite early_step by apply net_ok, conn_u64, Hb.
  rewrite block_size_test, bool_decide_true by done. cbn [negb].
  erewrite early_step by apply net_ok, conn_u64, Hs. cbn [app].
  erewrite early_step by apply net_ok, conn_u8.
  erewrite early_step by apply net_ok, conn_u8.
  assert (negb (byte_val (byte_of (if opt_force_truncate o then 1 else 0)) =? 0)
    = opt_force_truncate o) as -> by (by destruct (opt_force_truncate o)).
  assert (byte_val (byte_of (hash_algorithm_to_u8 (opt_hash_algorithm o)))
    = hash_algorithm_to_u8 (opt_hash_algorithm o)) as -> by (by destruct (opt_hash_algorithm o)).
  rewrite hash_algorithm_of_to_u8.
  destruct (prepare_dest (opt_dest o) size (opt_force_truncate o) fs) as [r fs'] eqn:E.
  assert (on_fs (prepare_dest (opt_dest o) size (opt_force_truncate o)) (MkConn rest out true, fs)
    = (r, (MkConn rest out true, fs'))) as E' by (unfold on_fs; cbn; by rewrite E).
  destruct r as [[st|[]]|e].
  - by erewrite early_return by exact E'.
  - erewrite early_step by exact E'. by erewrite early_step by apply net_ack.
  - by erewrite early_error by exact E'.
Qed.
End steps.

(** ** The destination file *)

(** Opening and resizing an existing file, creating and sizing a new one. *)
Lemma prepare_dest_inv path size force fs r fs' : prepare_dest path size force fs = (r, fs') →
  same_elsewhere path fs fs'
  ∧ match r with Ok (inl st) => fs' = fs ∧ st ≠ Ack | Ok (inr _) => True | Err e => ∃ k, e = EIo k end.
Proof.
  assert (same_elsewhere path fs fs) as Hs by done.
  pose proof (fs_put_elsewhere path) as Hp. unfold same_elsewhere in *.
  unfold prepare_dest, try_metadata, awaits, return_status, io_fail, fs_metadata, fs_open_write, fs_create,
    fs_set_len, fs_call, fs_existing, mbind, mret, Early_bind, IO_bind, IO_ret, io_fail.
  repeat (case_match; simplify_eq; cbn in *); intros; simplify_eq; cbn; eauto 10.
  all: try (split; [by intros; rewrite !lookup_insert_ne|eauto]).
Qed.

(** Nothing is refused on a path. *)
Definition all_granted (path : bytes) (fs : Fs) : Prop := ∀ op, fs_refuses fs op path = None.

(** The file exists with another size. *)
Definition size_differs (path : bytes) (size : N) (fs : Fs) : bool :=
  match fs_files fs !! path with Some c => negb (lenN c =? size) | None => false end.

Lemma prepare_dest_granted path size force fs :
  size < 2 ^ 63 → all_granted path fs →
  prepare_dest path size force fs
  = if size_differs path size fs && negb force
    then (Ok (inl FileSizeDiffers), fs)
    else (Ok (inr ()), fs_put path (resize (N.to_nat size) Byte.x00
                                      (default [] (fs_files fs !! path))) fs).
Proof.
  intros Hsize%N.ltb_lt Hg. unfold size_differs.
  unfold prepare_dest, try_metadata, awaits, return_status, fs_metadata, fs_open_write, fs_create,
    fs_set_len, fs_call, fs_existing, mbind, mret, Early_bind, IO_bind, IO_ret.
  rewrite !Hg, Hsize. destruct (fs_files fs !! path) as [c|] eqn:Hc; cbn.
  - destruct (lenN c =? size), force; cbn; rewrite ?Hg, ?Hc; cbn; rewrite ?Hg, ?Hc; done.
  - rewrite !Hg. cbn. rewrite !Hg, lookup_insert_eq. cbn. unfold fs_put. cbn.
    by rewrite insert_insert_eq.
Qed.


(** ** The two ends together *)

(** The server's result on the bytes of a client, its acknowledgements, and the
    files it leaves. *)
Definition server_answer (secret : bytes) (o : ClientProcessOptions) (size : N) (fs : Fs)
    : Result (StatusCode + Request) * bytes * Fs :=
  let ack := status_byte Ack in
  if bool_decide (opt_secret o = secret) then
    if bool_decide (block_size_ok (opt_block_size o)) then
      let '(r, fs') := prepare_dest (opt_dest o) size (opt_force_truncate o) fs in
      match r with
      | Ok (inr _) => (Ok (inr (wanted o size)), [ack; ack; ack], fs')
      | Ok (inl st) => (Ok (inl st), [ack; ack], fs')
      | Err e => (Err e, [ack; ack], fs')
      end
    else (Ok (inl InvalidBlockSize), [ack; ack], fs)
  else (Ok (inl InvalidSecret), [], fs).

Lemma server_handshake_run secret o size rest out fs :
  lenN secret < 256 → options_ok o size →
  ∃ inp, server_handshake secret (MkConn (client_bytes o size ++ rest) out true, fs)
    = let '(r, acks, fs') := server_answer secret o size fs in
      (r, (MkConn inp (out ++ acks) true, fs')).
Proof.
  intros Hl Ho. pose proof Ho as (Hs & _). unfold server_handshake, server_answer, client_bytes.
  rewrite <-!(assoc_L (++)). destruct (decide (opt_secret o = secret)) as [<-|Hne].
  2:{ rewrite bool_decide_false by done.
      destruct (check_secret_other secret o ([byte_of PROTOCOL_VERSION] ++ request o size ++ rest)
        out fs) as [inp E]; [done..|].
      exists inp. erewrite early_return by exact E. by rewrite (right_id_L [] (++)). }
  rewrite bool_decide_true by done. erewrite early_step by (by apply check_secret_same). cbn [app].
  erewrite early_step by apply check_version_run. case_bool_decide as Hb.
  - rewrite read_request_run by done. exists rest.
    destruct (prepare_dest _ _ _ fs) as [[[st|[]]|e] fs']; by rewrite <-!(assoc_L (++)).
  - destruct (read_request_bad o size rest ((out ++ [status_byte Ack]) ++ [status_byte Ack]) fs)
      as [inp E]; [done..|].
    exists inp. rewrite E. by rewrite <-!(assoc_L (++)).
Qed.

(** Where the server stands after a handshake it accepted. *)
Lemma server_handshake_accepts secret o size rest out fs fs' :
  opt_secret o = secret → options_ok o size → block_size_ok (opt_block_size o) →
  prepare_dest (opt_dest o) size (opt_force_truncate o) fs = (Ok (inr ()), fs') →
  server_handshake secret (MkConn (client_bytes o size ++ rest) out true, fs)
  = (Ok (inr (wanted o size)),
     (MkConn rest (out ++ replicate 3 (status_byte Ack)) true, fs')).
Proof.
  intros <- Ho Hb Ep. pose proof Ho as (Hs & _). unfold server_handshake, client_bytes.
  rewrite <-!(assoc_L (++)). erewrite early_step by (by apply check_secret_same). cbn [app].
  erewrite early_step by apply check_version_run. rewrite read_request_run, Ep by done.
  by rewrite <-!(assoc_L (++)).
Qed.

(** The client, by the statuses it gets. *)
Section client_steps.
Context (o : ClientProcessOptions) (fs : Fs) (content : bytes).
Context (Hsecret : lenN (opt_secret o) < 256) (Hdest : utf8_valid (opt_dest o) = true).
Context (Hopen : fs_refuses fs FsOpenRead (opt_src_path o) = None).
Context (Hsrc : fs_files fs !! opt_src_path o = Some content) (Hne : content ≠ []).

Lemma client_handshake_refused st rest e : status_result st = Err e →
  client_handshake o (MkConn (status_byte st :: rest) [] true, fs)
  = (Err e, (MkConn rest (hello o) true, fs)).
Proof.
  intros Hst. unfold client_handshake. pose proof Hsecret as Hs%N.ltb_lt. rewrite Hs.
  erewrite io_step by done. erewrite io_step by apply on_conn_ok, conn_put_u8.
  erewrite io_step by apply on_conn_ok, conn_put. erewrite io_error; [done|].
  unfold on_conn. cbn [fst snd]. by rewrite conn_check, Hst.
Qed.

Lemma client_handshake_last rest :
  client_handshake o (MkConn (status_byte Ack :: status_byte Ack :: rest) [] true, fs)
  = let '(r, c) := check_status (MkConn rest (client_bytes o (lenN content)) true) in
    (match r with Ok _ => Ok (lenN content) | Err e => Err e end, (c, fs)).
Proof.
  unfold client_handshake. pose proof Hsecret as Hs%N.ltb_lt. rewrite Hs.
  erewrite io_step by done. erewrite io_step by apply on_conn_ok, conn_put_u8.
  erewrite io_step by apply on_conn_ok, conn_put.
  erewrite io_step by exact (on_conn_ok check_status _ _ () _ (conn_check Ack _ _ _)).
  erewrite io_step by apply on_conn_ok, conn_put_u8.
  erewrite io_step by exact (on_conn_ok check_status _ _ () _ (conn_check Ack _ _ _)).
  rewrite Hdest. erewrite io_step by done.
  erewrite io_step by (apply on_conn_ok, conn_write_string; done).
  assert (∀ c : Conn, on_fs (fs_open_read (opt_src_path o)) (c, fs)
      = (Ok (opt_src_path o), (c, fs))
    ∧ on_fs (fs_seek_end (opt_src_path o)) (c, fs) = (Ok (lenN content), (c, fs))) as Hfs.
  { intros c. unfold on_fs, fs_open_read, fs_seek_end, fs_call, fs_existing, mbind, IO_bind.
    cbn [fst snd]. by rewrite Hopen, !Hsrc. }
  erewrite io_step by apply Hfs. erewrite io_step by apply Hfs.
  destruct (N.eqb_spec (lenN content) 0) as [H0|_]; [by destruct content|].
  erewrite io_step by apply on_conn_ok, conn_put_u64.
  erewrite io_step by apply on_conn_ok, conn_put_u64.
  erewrite io_step by apply on_conn_ok, conn_put_u8.
  erewrite io_step by apply on_conn_ok, conn_put_u8.
  unfold mbind, IO_bind, on_conn. cbn [fst snd c_in c_out].
  unfold client_bytes, hello, request. rewrite <-!(assoc_L (++)). cbn [app].
  by destruct (check_status _) as [[[]|e] c].
Qed.
End client_steps.

(** The status the accept loop sends after an early return. *)
Definition final_status (r : Result (StatusCode + Request)) : bytes :=
  match r with Ok (inl st) => [status_byte st] | _ => [] end.


(** ** What reaches the file system *)

Section refines.
Context {S T : Type} (abs : S → T).

Lemma refines_early_bind {A B} (m : Early S A) (m' : Early T A) (f : A → Early S B)
    (f' : A → Early T B) :
  refines abs m m' → (∀ a, refines abs (f a) (f' a)) →
  refines abs (m ≫= f : Early S B) (m' ≫= f' : Early T B).
Proof.
  intros Hm Hf s. unfold mbind, Early_bind. rewrite Hm.
  destruct (m s) as [[[st|a]|e] s']; cbn; [done|apply Hf|done].
Qed.

Lemma refines_return_status {A} st :
  refines abs (return_status (A:=A) st) (return_status st).
Proof. done. Qed.
Lemma refines_early_ret {A} (a : A) :
  refines abs (mret a : Early S A) (mret a : Early T A).
Proof. done. Qed.
End refines.

Section server_refines.
Context {S : Type} `{!Stream S} (abs : S → Conn) `{!StreamLaws S abs}.
(** A stream and the files, seen as a connection and the files. *)
Definition abs_fs (s : S * Fs) : Conn * Fs := (abs s.1, s.2).

Lemma net_refines {A} (m : IO S A) m' : refines abs m m' → refines abs_fs (net m) (net m').
Proof.
  intros Hm [s fs]. unfold net, awaits, on_conn, abs_fs. cbn. rewrite Hm.
  by destruct (m s) as [[a|e] s'].
Qed.

Lemma on_fs_refines {A} (m : IO Fs A) : refines abs_fs (on_fs m) (on_fs m).
Proof. intros [s fs]. unfold on_fs, abs_fs. cbn. by destruct (m fs). Qed.

#[local] Hint Resolve refines_early_bind refines_return_status refines_early_ret net_refines
  on_fs_refines : dsync.

Lemma server_handshake_refines secret :
  refines abs_fs (server_handshake secret) (server_handshake secret).
Proof.
  unfold server_handshake, check_secret, check_version, read_request.
  repeat (apply refines_early_bind; [|intros ?]); eauto with dsync;
    repeat case_match; eauto with dsync;
    repeat (apply refines_early_bind; [|intros ?]); eauto with dsync;
    repeat case_match; eauto with dsync;
    repeat (apply refines_early_bind; [|intros ?]); eauto with dsync.
Qed.
End server_refines.

(** Inversion of the steps over the network: what was read, and that the files
    are as before. *)
Lemma net_fs {A} (m : IO Conn A) s r s' : net m s = (r, s') → s'.2 = s.2.
Proof. unfold net, awaits, on_conn. destruct (m s.1). intros; by simplify_eq. Qed.

Lemma net_inv {A} (m : IO Conn A) s a s' : net m s = (Ok (inr a), s') →
  m s.1 = (Ok a, s'.1) ∧ s'.2 = s.2.
Proof.
  unfold net, awaits, on_conn. destruct (m s.1) as [[x|e] c]; intros; by simplify_eq.
Qed.

Lemma conn_read_inv n c bs c' : conn_read n c = (Ok bs, c') →
  length bs = n ∧ c_in c = bs ++ c_in c'.
Proof.
  unfold conn_read. case_decide; intros; simplify_eq; cbn. split; [len_lia|by rewrite take_drop].
Qed.

Lemma u8_inv c v c' : s_read_u8 c = (Ok v, c') → ∃ b, c_in c = b :: c_in c' ∧ v = byte_val b.
Proof.
  cbn. unfold mbind, IO_bind. destruct (conn_read 1 c) as [[bs|e] c1] eqn:E; [|done].
  apply conn_read_inv in E as [Hl Hin]. unfold mret, IO_ret. intros ?; simplify_eq.
  destruct bs as [|b [|b' bs]]; [done| |done]. exists b. split; [exact Hin|reflexivity].
Qed.

Lemma u64_inv c v c' : s_read_u64 c = (Ok v, c') → c_in c = be_bytes 8 v ++ c_in c'.
Proof.
  cbn. unfold mbind, IO_bind. destruct (conn_read 8 c) as [[bs|e] c1] eqn:E; [|done].
  apply conn_read_inv in E as [Hl Hin]. unfold mret, IO_ret. intros ?; simplify_eq.
  by rewrite be_bytes8_val.
Qed.

Lemma string_inv max c s c' : read_string max c = (Ok s, c') →
  c_in c = string_frame s ++ c_in c' ∧ sendable max s.
Proof.
  intros E. destruct (conn_read_string max c) as [H1 H2]. rewrite E in H1, H2. cbn in H1, H2.
  destruct (parse_string max (c_in c)) as [[x rest]|e] eqn:Hp; [|by destruct e].
  cbn in H1. simplify_eq. apply parse_string_ok in Hp as Hp'. rewrite (H2 _ _ eq_refl). cbn. done.
Qed.

Lemma status_inv st c c' : write_status st c = (Ok (), c') → c_in c' = c_in c.
Proof. unfold write_status. cbn. unfold conn_write. destruct (c_writable c); intros; by simplify_eq. Qed.

(** What a client must have sent for the files to be touched. *)
Definition authorised (secret input : bytes) (path : bytes) (bsize size : N) : Prop :=
  sendable 4096 path ∧ block_size_ok bsize
  ∧ ∃ secret_len algo force rest,
      byte_val secret_len = lenN secret mod 256
      ∧ is_Some (hash_algorithm_of_u8 (byte_val algo))
      ∧ input = secret_len :: secret ++ byte_of PROTOCOL_VERSION :: string_frame path
                ++ be_bytes 8 bsize ++ be_bytes 8 size ++ force :: algo :: rest.

Lemma read_request_inv s r s' : read_request s = (r, s') →
  (∃ path bsize size force algo rest, sendable 4096 path ∧ block_size_ok bsize
     ∧ is_Some (hash_algorithm_of_u8 (byte_val algo))
     ∧ c_in s.1 = string_frame path ++ be_bytes 8 bsize ++ be_bytes 8 size ++ force :: algo :: rest
     ∧ same_elsewhere path s.2 s'.2
     ∧ ∀ q, r = Ok (inr q) → dest_path q = path ∧ block_size q = bsize ∧ filesize q = size
         ∧ hash_algorithm_of_u8 (byte_val algo) = Some (hash_algorithm q))
  ∨ s'.2 = s.2 ∧ ∀ q, r ≠ Ok (inr q).
Proof.
  unfold read_request. intros H.
  apply early_inv in H as [(path & s1 & E1 & H)|[(? & E & ->)|(? & E & ->)]];
    [|right; split; [by apply net_fs in E|done]..].
  apply net_inv in E1 as [E1 F1]. apply string_inv in E1 as [E1 Hp].
  apply early_inv in H as [(bsize & s2 & E2 & H)|[(? & E & ->)|(? & E & ->)]];
    [|right; split; [apply net_fs in E; congruence|done]..].
  apply net_inv in E2 as [E2 F2]. apply u64_inv in E2. rewrite block_size_test in H.
  case_bool_decide as Hb; cbn [negb] in H.
  2:{ unfold return_status in H. simplify_eq. right. split; [congruence|done]. }
  apply early_inv in H as [(size & s3 & E3 & H)|[(? & E & ->)|(? & E & ->)]];
    [|right; split; [apply net_fs in E; congruence|done]..].
  apply net_inv in E3 as [E3 F3]. apply u64_inv in E3.
  apply early_inv in H as [(force & s4 & E4 & H)|[(? & E & ->)|(? & E & ->)]];
    [|right; split; [apply net_fs in E; congruence|done]..].
  apply net_inv in E4 as [E4 F4]. apply u8_inv in E4 as (fb & E4 & ->).
  apply early_inv in H as [(algo & s5 & E5 & H)|[(? & E & ->)|(? & E & ->)]];
    [|right; split; [apply net_fs in E; congruence|done]..].
  apply net_inv in E5 as [E5 F5]. apply u8_inv in E5 as (ab & E5 & ->).
  destruct (hash_algorithm_of_u8 (byte_val ab)) as [alg|] eqn:Ha.
  2:{ unfold return_status in H. simplify_eq. right. split; [congruence|done]. }
  left. exists path, bsize, size, fb, ab, (c_in s5.1).
  assert (s5.2 = s.2) as F by congruence.
  set (force := negb (byte_val fb =? 0)) in H.
  assert (same_elsewhere path s.2 s'.2 ∧ ∀ q, r = Ok (inr q) → q = MkRequest path bsize size alg)
    as [Hsame Hq].
  { destruct (prepare_dest path size force s5.2) as [rp f'] eqn:Ep.
    assert (on_fs (prepare_dest path size force) s5 = (rp, (s5.1, f'))) as Eo
      by (unfold on_fs; by rewrite Ep).
    apply prepare_dest_inv in Ep as [Hsame _]. rewrite F in Hsame.
    apply early_inv in H as [([] & s6 & E6 & H)|[(? & E & ->)|(? & E & ->)]]; rewrite Eo in *.
    - simplify_eq. apply early_inv in H as [([] & s7 & E7 & H)|[(? & E & ->)|(? & E & ->)]].
      + apply net_fs in E7. unfold mret, Early_ret in H. simplify_eq. rewrite E7. cbn.
        split; [done|]. intros; by simplify_eq.
      + apply net_fs in E. by rewrite E.
      + apply net_fs in E. by rewrite E.
    - by simplify_eq.
    - by simplify_eq. }
  split_and!; try done; [by rewrite E1, E2, E3, E4, E5|].
  intros q ->. by rewrite (Hq q eq_refl).
Qed.

Lemma check_secret_inv secret s r s' : check_secret secret s = (r, s') →
  s'.2 = s.2 ∧ (r = Ok (inr ()) → ∃ secret_len, byte_val secret_len = lenN secret mod 256
    ∧ c_in s.1 = secret_len :: secret ++ c_in s'.1).
Proof.
  unfold check_secret. intros H.
  apply early_inv in H as [(n & s1 & E1 & H)|[(? & E & ->)|(? & E & ->)]];
    [|split; [by apply net_fs in E|done]..].
  apply net_inv in E1 as [E1 F1]. apply u8_inv in E1 as (b & E1 & ->).
  case_bool_decide as Hn; [unfold return_status in H; by simplify_eq|].
  apply early_inv in H as [(cs & s2 & E2 & H)|[(? & E & ->)|(? & E & ->)]];
    [|split; [apply net_fs in E; congruence|done]..].
  apply net_inv in E2 as [E2 F2]. apply conn_read_inv in E2 as [_ E2].
  case_bool_decide as Hc; [unfold return_status in H; simplify_eq; split; [congruence|done]|].
  subst cs.
  split; [apply net_fs in H; congruence|]. intros ->. apply net_inv in H as [H _].
  apply status_inv in H. exists b. split; [done|]. by rewrite H, <-E2, E1.
Qed.

Lemma check_version_inv s r s' : check_version s = (r, s') →
  s'.2 = s.2 ∧ (r = Ok (inr ()) → c_in s.1 = byte_of PROTOCOL_VERSION :: c_in s'.1).
Proof.
  unfold check_version. intros H.
  apply early_inv in H as [(n & s1 & E1 & H)|[(? & E & ->)|(? & E & ->)]];
    [|split; [by apply net_fs in E|done]..].
  apply net_inv in E1 as [E1 F1]. apply u8_inv in E1 as (b & E1 & ->).
  case_bool_decide as Hn; [unfold return_status in H; by simplify_eq|].
  split; [apply net_fs in H; congruence|]. intros ->. apply net_inv in H as [H _].
  apply status_inv in H. rewrite H, E1. f_equal. apply byte_val_inj. by rewrite Hn.
Qed.

(** C12. Who may touch the files: on any stream, if the handshake changes a file
    or is accepted, then the client has sent the secret, the version of the
    protocol, a path of at most 4096 bytes of UTF-8, a block size between 1 byte
    and 1 GiB and a known hash algorithm; only the file of that path changes,
    and an accepted request is the one that was sent. *)
Theorem server_authenticates {S} `{!Stream S} (abs : S → Conn) `{!StreamLaws S abs}
    secret (s : S) fs r s' fs' :
  server_handshake secret (s, fs) = (r, (s', fs')) → fs' ≠ fs ∨ (∃ q, r = Ok (inr q)) →
  ∃ path bsize size, authorised secret (c_in (abs s)) path bsize size
    ∧ same_elsewhere path fs fs'
    ∧ ∀ q, r = Ok (inr q) → dest_path q = path ∧ block_size q = bsize ∧ filesize q = size.
Proof.
  intros E Ht. pose proof (server_handshake_refines abs secret (s, fs)) as Er.
  rewrite E in Er. unfold abs_fs in Er. cbn [fst snd] in Er. clear E. set (c := abs s) in *.
  set (c' := abs s') in *. clearbody c c'. clear s s'. unfold server_handshake in Er.
  apply early_inv in Er as [([] & s1 & E1 & H)|[(? & E & ->)|(? & E & ->)]];
    [|apply check_secret_inv in E as [F _]; cbn in F; by destruct Ht as [Ht|[q Hq]]..].
  apply check_secret_inv in E1 as [F1 E1]. destruct (E1 eq_refl) as (b & Hb & I1).
  apply early_inv in H as [([] & s2 & E2 & H)|[(? & E & ->)|(? & E & ->)]];
    [|apply check_version_inv in E as [F _]; cbn in F, F1; destruct Ht as [Ht|[q Hq]]; [congruence|done]..].
  apply check_version_inv in E2 as [F2 E2]. specialize (E2 eq_refl).
  apply read_request_inv in H as [(path & bsize & size & fb & ab & rest & P1 & P2 & P3 & P4 & P5 & P6)
    |[F3 Hr]].
  - exists path, bsize, size. cbn in *. rewrite F2, F1 in P5. split; [|split; [done|]].
    + split; [done|]. split; [done|]. exists b, ab, fb, rest. split; [done|]. split; [done|].
      by rewrite I1, E2, P4.
    + intros q Hq. by destruct (P6 q Hq) as (? & ? & ? & _).
  - cbn in *. destruct Ht as [Ht|[q Hq]]; [congruence|by destruct (Hr q)].
Qed.

(** ** The properties on a run *)

Definition sample_options : ClientProcessOptions :=
  MkClientProcessOptions (byte_of <$> [115; 51]) (byte_of <$> [47; 115]) (byte_of <$> [47; 100])
    false 2 10 CRC32.

(** The source has 23 bytes; the destination does not exist, or has 5. *)
Definition client_fs : Fs := MkFs {[ opt_src_path sample_options := sample_file ]} (λ _ _, None).
Definition empty_fs : Fs := MkFs ∅ (λ _ _, None).
Definition short_fs : Fs :=
  MkFs {[ opt_dest sample_options := replicate 5 Byte.xff ]} (λ _ _, None).

Lemma sample_options_ok : options_ok sample_options 23.
Proof. unfold options_ok, sendable. split_and!; vm_compute; (reflexivity || discriminate). Qed.



Lemma server_authenticates_witness :
  ∃ path bsize size, authorised (opt_secret sample_options) (client_bytes sample_options 23)
    path bsize size.
Proof.
  destruct (server_handshake (opt_secret sample_options)
    (MkConn (client_bytes sample_options 23) [] true, empty_fs)) as [r [c fs']] eqn:E.
  assert (r = Ok (inr (wanted sample_options 23))) as Hr.
  { change r with (r, (c, fs')).1. rewrite <-E. vm_compute. reflexivity. }
  destruct (server_authenticates id (opt_secret sample_options)
    (MkConn (client_bytes sample_options 23) [] true) empty_fs r c fs' E
    (or_intror (ex_intro _ _ Hr))) as (path & bsize & size & H & _).
  by exists path, bsize, size.
Defined.
