(* ===== verification/Program.v ===== *)
(** Programs of calls: the parts of the code that only call the system, the
    terminal and the ssh2 library one after the other (src/src/remote_start.rs
    and the start of [main] in src/src/main.rs).

    A call is data with the type of its answer; the environment that answers is
    any function of the history and the call, so the theorems hold for every
    SSH server, agent, user and file. *)

From stdpp Require Import base option list numbers strings.
From Stdlib Require Import NArith Lia.
From S2P Require Import Prelude AsyncIO.
#[local] Open Scope N_scope.

(** ** Calls and programs *)

Inductive Call :=
  | TcpConnect (address : bytes)
  | SessionNew
  | SshHandshake
  | UserauthPubkeyFile (username file : bytes)
  | Authenticated
  | Agent
  | AgentConnect
  | AgentListIdentities
  | AgentIdentities
  | AgentUserauth (username : bytes) (identity : N)
  | PromptPassword (prompt : bytes)
  | UserauthPassword (username password : bytes)
  | ChannelSession
  | Exec (channel : N) (command : bytes)
  | ReadToString (channel : N)
  | WriteAll (channel : N) (bs : bytes)
  | SendEof (channel : N)
  | WaitEof (channel : N)
  | WaitClose (channel : N)
  | CurrentExe
  | FileOpen (path : bytes)
  | FileRead (cap : N)
  | SampleString (len : N)
  | RemoveFile (path : bytes)
  | DaemonizeStart
  | CurrentUsername
  | CurrentDir.

Definition answer (c : Call) : Type :=
  match c with
  | Authenticated => bool
  | AgentIdentities => Result (list N)
  | PromptPassword _ | ReadToString _ | CurrentExe | FileRead _ | CurrentDir => Result bytes
  | CurrentUsername => option bytes
  | ChannelSession => Result N
  | SampleString _ => bytes
  | _ => Result ()
  end.

(** How a call of a function ends; [Unfinished]: its loop went on for longer
    than the fuel of the model. *)
Inductive Ended (A : Type) :=
  | Done (r : Result A)
  | Panicked
  | Unfinished.
Arguments Done {A} r.
Arguments Panicked {A}.
Arguments Unfinished {A}.

Inductive Prog (A : Type) :=
  | Ret (e : Ended A)
  | Vis (c : Call) (k : answer c → Prog A).
Arguments Ret {A} e.
Arguments Vis {A} c k.

#[global] Instance prog_ret : MRet Prog := λ A a, Ret (Done (Ok a)).
#[global] Instance prog_bind : MBind Prog := λ A B f,
  fix bind (p : Prog A) : Prog B :=
    match p with
    | Ret (Done (Ok a)) => f a
    | Ret (Done (Err e)) => Ret (Done (Err e))
    | Ret Panicked => Ret Panicked
    | Ret Unfinished => Ret Unfinished
    | Vis c k => Vis c (λ x, bind (k x))
    end.

(** A call that cannot fail. *)
Definition call (c : Call) : Prog (answer c) := Vis c (λ x, Ret (Done (Ok x))).
(** [..?] and [..unwrap()] on a result. *)
Definition question {A} (r : Result A) : Prog A := Ret (Done r).
Definition unwrap {A} (r : Result A) : Prog A :=
  match r with Ok a => mret a | Err _ => Ret Panicked end.

(** [let _ = f(..)] *)
Fixpoint ignore {A} (p : Prog A) : Prog () :=
  match p with
  | Ret (Done _) => mret ()
  | Ret Panicked => Ret Panicked
  | Ret Unfinished => Ret Unfinished
  | Vis c k => Vis c (λ x, ignore (k x))
  end.

(** [c?] *)
Notation "c ?" := (Vis c question) (at level 1, only parsing) : dsync_scope.

(** ** Runs *)

Definition Event := sigT answer.
Definition Env := list Event → ∀ c, answer c.

Fixpoint run {A} (env : Env) (p : Prog A) (h : list Event) : Ended A * list Event :=
  match p with
  | Ret e => (e, h)
  | Vis c k => let x := env h c in run env (k x) (h ++ [existT c x])
  end.

(** ** Reasoning on runs *)

Definition triple {A} (p : Prog A) (Q : list Event → Ended A → Prop) : Prop :=
  ∀ env h r h', run env p h = (r, h') → ∃ t, h' = h ++ t ∧ Q t r.

Section triples.
Context {A B : Type}.
Implicit Types (p : Prog A) (t : list Event).

Lemma triple_ret (Q : list Event → Ended A → Prop) e : Q [] e → triple (Ret e) Q.
Proof. intros HQ env h r h' E. cbn in E. simplify_eq. exists []. by rewrite (right_id_L [] (++)). Qed.

Lemma triple_vis (Q : list Event → Ended A → Prop) c k :
  (∀ x, triple (k x) (λ t r, Q (existT c x :: t) r)) → triple (Vis c k) Q.
Proof.
  intros Hk env h r h' E. cbn in E. destruct (Hk _ _ _ _ _ E) as (t & -> & HQ).
  eexists. split; [|exact HQ]. by rewrite <-(assoc_L (++)).
Qed.

Lemma triple_weaken p (P Q : list Event → Ended A → Prop) :
  triple p P → (∀ t e, P t e → Q t e) → triple p Q.
Proof. intros Hp HPQ env h r h' E. destruct (Hp _ _ _ _ E) as (t & -> & HP). eauto. Qed.

Lemma triple_and p (P Q : list Event → Ended A → Prop) :
  triple p P → triple p Q → triple p (λ t e, P t e ∧ Q t e).
Proof.
  intros HP HQ env h r h' E. destruct (HP _ _ _ _ E) as (t & -> & H1).
  destruct (HQ _ _ _ _ E) as (t2 & Ht & H2). simplify_eq. eauto.
Qed.

(** What is left of a bind once its first program has ended. *)
Definition after (f : A → Prog B) (Q : list Event → Ended B → Prop) t (e : Ended A) : Prop :=
  match e with
  | Done (Ok a) => triple (f a) (λ t', Q (t ++ t'))
  | Done (Err x) => Q t (Done (Err x))
  | Panicked => Q t Panicked
  | Unfinished => Q t Unfinished
  end.

Lemma run_bind env p (f : A → Prog B) h :
  run env (p ≫= f) h
  = let '(e, h1) := run env p h in
    match e with
    | Done (Ok a) => run env (f a) h1
    | Done (Err x) => (Done (Err x), h1)
    | Panicked => (Panicked, h1)
    | Unfinished => (Unfinished, h1)
    end.
Proof.
  unfold mbind. revert h.
  induction p as [[[a|x]| |]|c k IH]; intros h; cbn; [done..|]. apply IH.
Qed.

Lemma triple_bind p (f : A → Prog B) (Q : list Event → Ended B → Prop) :
  triple p (after f Q) → triple (p ≫= f) Q.
Proof.
  intros Hp env h r h' E. rewrite run_bind in E. destruct (run env p h) as [e h1] eqn:E1.
  destruct (Hp _ _ _ _ E1) as (t & -> & Ha).
  destruct e as [[a|x]| |]; cbn in Ha; [|simplify_eq; by exists t..].
  destruct (Ha _ _ _ _ E) as (t' & -> & HQ). exists (t ++ t'). by rewrite (assoc_L (++)).
Qed.

(** Every run extends its history. *)
Lemma triple_extends p : triple p (λ _ _, True).
Proof. induction p as [e|c k IH]; [by apply triple_ret|]. apply triple_vis. intros x. apply IH. Qed.
End triples.

(** A straight line of calls. *)
Ltac calls :=
  cbn [mbind mret prog_bind prog_ret question call unwrap ignore];
  repeat (apply triple_vis; intros [];
          cbn [mbind mret prog_bind prog_ret question call unwrap ignore]);
  try (apply triple_ret).
