(* ===== verification/RemoteStart.v ===== *)
(** The remote start (src/src/remote_start.rs) as a program of calls
    (Program.v), and what any environment sees of a run of it. *)

From stdpp Require Import base option list numbers strings.
From Stdlib Require Import NArith Lia.
From S2P Require Import Prelude AsyncIO Text Program.
#[local] Open Scope N_scope.
#[local] Open Scope dsync_scope.

(** ** The program *)

Record RemoteStartOptions := MkRemoteStartOptions {
  address : bytes;
  ssh_port : N;
  username : bytes;
  identity_file : option bytes;
  workers : N;
  server_port : N;
}.

(** Lines 19-24: the first identity that is accepted ends the loop. *)
Fixpoint try_identities (username : bytes) (identities : list N) : Prog () :=
  match identities with
  | [] => mret ()
  | identity :: l =>
      r ← call (AgentUserauth username identity);
      match r with Ok _ => mret () | Err _ => try_identities username l end
  end.

Definition try_ssh_auth_with_agent (username : bytes) : Prog () :=
  _ ← Agent?;
  _ ← AgentConnect?;
  _ ← AgentListIdentities?;
  identities ← AgentIdentities?;
  try_identities username identities.

(** Lines 30-59. *)
Definition open_session (o : RemoteStartOptions) : Prog () :=
  let addr := address o ++ str ":" ++ to_string (ssh_port o) in
  _ ← (TcpConnect addr)?;
  _ ← SessionNew?;
  _ ← SshHandshake?;
  _ ← match identity_file o with
      | Some file => ignore ((UserauthPubkeyFile (username o) file)?)
      | None => mret ()
      end;
  a ← call Authenticated;
  _ ← (if a : bool then mret () else ignore (try_ssh_auth_with_agent (username o)));
  a ← call Authenticated;
  _ ← (if a : bool then mret ()
       else
         password ← (PromptPassword (str "Password for " ++ username o ++ str "@" ++ addr ++ str ": "))?;
         (UserauthPassword (username o) password)?);
  a ← call Authenticated;
  if a : bool then mret ()
  else question (Err (EMsg "Could not connect to SSH of remote end")).

(** Lines 62-70. *)
Definition make_remote_file : Prog bytes :=
  channel ← ChannelSession?;
  _ ← (Exec channel (str "mktemp --tmpdir deltasync.XXXXXXXX"))?;
  s ← call (ReadToString channel);
  s ← unwrap s;
  _ ← (WaitClose channel)?;
  mret (trim s).

(** Lines 73-76. *)
Definition open_executable : Prog () :=
  local_binary_path ← CurrentExe?;
  (FileOpen local_binary_path)?.

(** Lines 84-90. *)
Fixpoint copy_loop (fuel : nat) (channel : N) : Prog () :=
  match fuel with
  | O => Ret Unfinished
  | S fuel =>
      buf ← (FileRead 1048576)?;
      match buf with
      | [] => mret ()
      | _ => _ ← (WriteAll channel buf)?; copy_loop fuel channel
      end
  end.

(** Lines 79-94. *)
Definition upload (fuel : nat) (remote_filename : bytes) : Prog () :=
  channel ← ChannelSession?;
  _ ← (Exec channel (str "cat >" ++ remote_filename))?;
  _ ← copy_loop fuel channel;
  _ ← (SendEof channel)?;
  _ ← (WaitEof channel)?;
  (WaitClose channel)?.

(** Lines 96-101 and 106-117. *)
Definition run_command (command : bytes) : Prog () :=
  channel ← ChannelSession?;
  _ ← (Exec channel command)?;
  _ ← (WaitEof channel)?;
  (WaitClose channel)?.

Definition server_command (o : RemoteStartOptions) (remote_filename secret : bytes) : bytes :=
  remote_filename ++ str " --server -d -e -o --port " ++ [byte_of 34] ++ to_string (server_port o)
  ++ [byte_of 34] ++ str " --secret " ++ [byte_of 34] ++ secret ++ [byte_of 34] ++ str " -w "
  ++ to_string (workers o).

Definition remote_start_server (fuel : nat) (o : RemoteStartOptions) : Prog bytes :=
  _ ← open_session o;
  remote_filename ← make_remote_file;
  _ ← open_executable;
  _ ← upload fuel remote_filename;
  _ ← run_command (str "chmod +x " ++ remote_filename);
  secret ← call (SampleString 30);
  _ ← run_command (server_command o remote_filename secret);
  mret secret.

(** ** What is seen of a history *)

(** The commands run on the remote end, the bytes sent to one, the bytes read of
    the executable. *)
Definition exec_of (ev : Event) : option bytes :=
  match projT1 ev with Exec _ command => Some command | _ => None end.
Definition sent_of (ev : Event) : bytes :=
  match projT1 ev with WriteAll _ bs => bs | _ => [] end.
Definition read_of (ev : Event) : bytes :=
  match ev with
  | existT c x =>
      match c return answer c → bytes with
      | FileRead _ => λ r, match r with Ok bs => bs | Err _ => [] end
      | _ => λ _, []
      end x
  end.

Definition execs (h : list Event) : list bytes := omap exec_of h.
Definition sent (h : list Event) : bytes := concat (sent_of <$> h).
Definition read (h : list Event) : bytes := concat (read_of <$> h).

(** The events on a channel of the session. *)
Definition remote (ev : Event) : bool :=
  match projT1 ev with
  | ChannelSession | Exec _ _ | ReadToString _ | WriteAll _ _ | SendEof _ | WaitEof _
  | WaitClose _ => true
  | _ => false
  end.

Definition authentic : Event := existT Authenticated true.

Lemma execs_app t1 t2 : execs (t1 ++ t2) = execs t1 ++ execs t2.
Proof. apply omap_app. Qed.
Lemma sent_app t1 t2 : sent (t1 ++ t2) = sent t1 ++ sent t2.
Proof. unfold sent. by rewrite fmap_app, concat_app. Qed.
Lemma read_app t1 t2 : read (t1 ++ t2) = read t1 ++ read t2.
Proof. unfold read. by rewrite fmap_app, concat_app. Qed.

(** What a part of the program adds to what is seen. *)
Definition adds (t : list Event) (commands : list bytes) (data file : bytes) : Prop :=
  execs t = commands ∧ sent t = data ∧ read t = file.

Lemma adds_app t1 t2 c1 c2 d1 d2 f1 f2 :
  adds t1 c1 d1 f1 → adds t2 c2 d2 f2 → adds (t1 ++ t2) (c1 ++ c2) (d1 ++ d2) (f1 ++ f2).
Proof.
  unfold adds. intros (<- & <- & <-) (<- & <- & <-). by rewrite execs_app, sent_app, read_app.
Qed.

(** The events of the authentication: none on a channel, none of a file. *)
Definition auth_call (ev : Event) : bool :=
  match projT1 ev with
  | TcpConnect _ | SessionNew | SshHandshake | UserauthPubkeyFile _ _ | Authenticated | Agent
  | AgentConnect | AgentListIdentities | AgentIdentities | AgentUserauth _ _
  | PromptPassword _ | UserauthPassword _ _ => true
  | _ => false
  end.

Lemma auth_adds t : Forall auth_call t → adds t [] [] [].
Proof.
  induction 1 as [|[c x] t Hev _ (H1 & H2 & H3)]; [done|]. unfold adds, execs, sent, read in *.
  cbn. rewrite H1, H2, H3. by destruct c.
Qed.

(** ** The parts *)

(** A part of the authentication: it makes its calls only, and ends. *)
Definition authenticating {A} (t : list Event) (r : Ended A) : Prop :=
  Forall auth_call t ∧ r ≠ Unfinished.

Ltac auth := calls; by (split; [by repeat constructor|]).

Lemma try_identities_auth user l : triple (try_identities user l) authenticating.
Proof.
  induction l as [|id l IH]; cbn [try_identities]; [auth|].
  apply triple_vis. intros [u|e]; [auth|].
  eapply triple_weaken; [exact IH|]. intros t r [Ht Hr]. split; [by constructor|done].
Qed.

Lemma run_ignore {A} env (p : Prog A) h :
  run env (ignore p) h
  = let '(r, h1) := run env p h in
    (match r with Done _ => Done (Ok ()) | Panicked => Panicked | Unfinished => Unfinished end, h1).
Proof. revert h. induction p as [[r| |]|c k IH]; intros h; cbn; [done..|]. apply IH. Qed.

Lemma ignore_auth {A} (p : Prog A) : triple p authenticating → triple (ignore p) authenticating.
Proof.
  intros Hp env h r h' E. rewrite run_ignore in E. destruct (run env p h) as [r1 h1] eqn:E1.
  destruct (Hp _ _ _ _ E1) as (t & -> & Ht & Hr). simplify_eq. exists t.
  split; [done|]. split; [done|]. by destruct r1.
Qed.

Lemma agent_auth user : triple (try_ssh_auth_with_agent user) authenticating.
Proof.
  unfold try_ssh_auth_with_agent. calls; try (by split; [by repeat constructor|]).
  eapply triple_weaken; [apply try_identities_auth|]. intros t r [Ht Hr].
  split; [by repeat constructor|done].
Qed.

Definition authenticated {A} (t : list Event) (r : Ended A) : Prop :=
  authenticating t r ∧ ∀ a, r = Done (Ok a) → authentic ∈ t.

(** The last question of [open_session]. *)
Lemma confirm_auth :
  triple (a ← call Authenticated;
          if a : bool then mret ()
          else question (Err (EMsg "Could not connect to SSH of remote end"))) authenticated.
Proof.
  calls; (split; [split; [by repeat constructor|done]|]); [|done].
  intros a _. by apply list_elem_of_singleton.
Qed.

(** A part of the authentication before the last question. *)
Lemma auth_before {A B} (p : Prog A) (f : A → Prog B) :
  triple p authenticating → (∀ a, triple (f a) authenticated) → triple (p ≫= f) authenticated.
Proof.
  intros Hp Hf. apply triple_bind. eapply triple_weaken; [exact Hp|].
  intros t [[a|e]| |] [Ht Hr]; cbn [after]; [|by (split; [split|])..|done].
  eapply triple_weaken; [apply Hf|]. intros t' r [[H1 H2] H3].
  split; [split; [by apply Forall_app|done]|].
  intros b Hb. apply elem_of_app. right. by apply (H3 b).
Qed.

(** The session is opened with authentication calls only, and then authenticated. *)
Lemma open_session_auth o : triple (open_session o) authenticated.
Proof.
  unfold open_session. set (addr := _ ++ _). clearbody addr.
  do 3 (apply auth_before; [auth|intros _]).
  apply auth_before; [destruct (identity_file o); [apply ignore_auth|]; auth|].
  intros _. apply auth_before; [auth|]. intros a.
  apply auth_before; [destruct a; [auth|apply ignore_auth, agent_auth]|].
  intros _. apply auth_before; [auth|]. intros b.
  apply auth_before; [destruct b; auth|]. intros _. exact confirm_auth.
Qed.

(** The events of a part that returns normally; it is unfinished only after it
    has read at least [fuel] bytes of the executable. *)
Definition part {A} (fuel : nat) (p : Prog A) (Q : list Event → A → Prop) : Prop :=
  triple p (λ t r, (r = Unfinished → fuel ≤ length (read t))%nat
                   ∧ ∀ a, r = Done (Ok a) → Q t a).

Lemma part_bind {A B} fuel (p : Prog A) (f : A → Prog B) P Q :
  part fuel p P → (∀ a, part fuel (f a) (Q a)) →
  part fuel (p ≫= f) (λ t b, ∃ t1 t2 a, t = t1 ++ t2 ∧ P t1 a ∧ Q a t2 b).
Proof.
  intros Hp Hf. apply triple_bind. eapply triple_weaken; [exact Hp|].
  intros t [[a|e]| |] [H1 H2]; cbn [after]; [|split; [by intros|done]..|split; [by intros _; apply H1|done]].
  eapply triple_weaken; [apply Hf|]. intros t' r [H3 H4]. split.
  - intros Hr. rewrite read_app, length_app. specialize (H3 Hr). lia.
  - intros b ->. exists t, t', a. auto.
Qed.

(** A straight line of calls. *)
Ltac line := unfold part; calls; (split; [done|]); intros; simplify_eq; try done.

Lemma part_weaken {A} fuel (p : Prog A) (P Q : list Event → A → Prop) :
  part fuel p P → (∀ t a, P t a → Q t a) → part fuel p Q.
Proof.
  intros Hp HPQ. eapply triple_weaken; [exact Hp|]. intros t r [H1 H2]. split; [done|]. auto.
Qed.

Lemma open_session_part fuel o : part fuel (open_session o) (λ t _, adds t [] [] []).
Proof.
  apply (triple_weaken _ _ _ (open_session_auth o)). intros t r [[H1 H2] _].
  split; [done|]. intros a _. by apply auth_adds.
Qed.

Lemma make_remote_file_part fuel :
  part fuel make_remote_file (λ t f, adds t [str "mktemp --tmpdir deltasync.XXXXXXXX"] [] []).
Proof. line. Qed.

Lemma open_executable_part fuel : part fuel open_executable (λ t _, adds t [] [] []).
Proof. line. Qed.

Lemma run_command_part fuel command :
  part fuel (run_command command) (λ t _, adds t [command] [] []).
Proof. line. Qed.

Lemma sample_part fuel :
  part fuel (call (SampleString 30))
    (λ t s, adds t [] [] [] ∧ existT (SampleString 30) s ∈ t).
Proof.
  unfold call. apply triple_vis. intros x. apply triple_ret. split; [done|].
  intros a ?; simplify_eq. split; [done|]. by apply list_elem_of_singleton.
Qed.

(** The read that found the end of the executable. *)
Definition file_end : Event := existT (FileRead 1048576) (Ok [] : Result bytes).

(** The bytes sent are those read up to the end; each round reads some. *)
Lemma copy_loop_part fuel channel :
  part fuel (copy_loop fuel channel) (λ t _, file_end ∈ t ∧ ∃ file, adds t [] file file).
Proof.
  induction fuel as [|fuel IH]; cbn [copy_loop]; [apply triple_ret; split; [cbn; lia|done]|].
  cbn [mbind prog_bind]. apply triple_vis. intros [[|b buf]|e]; cbn [question];
    [|apply triple_vis; intros [[]|e]; cbn [question]|by apply triple_ret].
  - apply triple_ret. split; [done|]. intros _ _. split; [by apply list_elem_of_singleton|by exists []].
  - eapply triple_weaken; [exact IH|]. intros t r [H1 H2]. split.
    + intros Hr. specialize (H1 Hr). unfold read in *. cbn. rewrite length_app. lia.
    + intros [] Hr. destruct (H2 () Hr) as (He & file & Ht). split; [by do 2 right|].
      exists ((b :: buf) ++ file).
      apply (adds_app [existT (FileRead 1048576) (Ok (b :: buf) : Result bytes);
                       existT (WriteAll channel (b :: buf)) (Ok () : Result ())] t [] [] _ file _ file);
        [|exact Ht]. unfold adds, sent, read. cbn. by rewrite (right_id_L [] (++)).
  - by apply triple_ret.
Qed.

Lemma upload_part fuel f :
  part fuel (upload fuel f)
    (λ t _, file_end ∈ t ∧ ∃ file, adds t [str "cat >" ++ f] file file).
Proof.
  unfold upload.
  eapply part_weaken; [eapply (part_bind _ _ _ (λ t _, adds t [] [] [])); [line|intros channel]|].
  { eapply (part_bind _ _ _ (λ t _, adds t [str "cat >" ++ f] [] [])); [line|intros u1].
    eapply part_bind; [apply copy_loop_part|intros u2].
    apply (part_weaken _ _ (λ t _, adds t [] [] [])); [line|]. intros t a Ht. exact Ht. }
  cbn beta. intros t u (t1 & t2 & ch & -> & H1 & t3 & t4 & [] & -> & H2 & t5 & t6 & [] & -> & (H3 & file & H4) & H5).
  split; [rewrite !elem_of_app; tauto|]. exists file.
  pose proof (adds_app _ _ _ _ _ _ _ _ H1 (adds_app _ _ _ _ _ _ _ _ H2 (adds_app _ _ _ _ _ _ _ _ H4 H5))) as H.
  cbn [app] in H. by rewrite !(right_id_L [] (++)) in H.
Qed.

(** All parts together. *)
Lemma remote_start_part fuel o :
  part fuel (remote_start_server fuel o) (λ t secret,
    existT (SampleString 30) secret ∈ t ∧ file_end ∈ t ∧ ∃ filename file,
      adds t [str "mktemp --tmpdir deltasync.XXXXXXXX"; str "cat >" ++ filename;
              str "chmod +x " ++ filename; server_command o filename secret] file file).
Proof.
  unfold remote_start_server. eapply part_weaken.
  { eapply (part_bind _ _ _ (λ t _, adds t [] [] [])); [exact (open_session_part fuel o)|intros u1].
    eapply part_bind; [apply make_remote_file_part|intros filename].
    eapply part_bind; [apply open_executable_part|intros u2].
    eapply part_bind; [apply upload_part|intros u3].
    eapply part_bind; [apply run_command_part|intros u4].
    eapply part_bind; [apply sample_part|intros secret].
    eapply part_bind; [apply run_command_part|intros u5].
    apply (part_weaken _ _ (λ t s, t = [] ∧ s = secret)); [line|]. intros t s Ht. exact Ht. }
  cbn beta.
  intros t s (t1 & t1' & ? & -> & A1 & t2 & t2' & filename & -> & A2 & t3 & t3' & ? & -> & A3
    & t4 & t4' & ? & -> & (B1 & file & A4) & t5 & t5' & ? & -> & A5 & t6 & t6' & secret & -> & (A6 & B2)
    & t7 & t7' & ? & -> & A7 & -> & ->).
  split; [rewrite !elem_of_app; tauto|]. split; [rewrite !elem_of_app; tauto|]. exists filename, file.
  pose proof (adds_app _ _ _ _ _ _ _ _ A6 A7) as H.
  pose proof (adds_app _ _ _ _ _ _ _ _ A5 H) as H'.
  pose proof (adds_app _ _ _ _ _ _ _ _ A4 H') as H''.
  pose proof (adds_app _ _ _ _ _ _ _ _ A1 (adds_app _ _ _ _ _ _ _ _ A2
    (adds_app _ _ _ _ _ _ _ _ A3 H''))) as H3.
  rewrite !(right_id_L [] (++)) in H3. by rewrite (right_id_L [] (++)).
Qed.

Lemma auth_no_remote pre ev post : Forall auth_call (pre ++ ev :: post) → remote ev = false.
Proof. intros [_ [Hev _]%Forall_cons]%Forall_app. by destruct ev as [[] x]. Qed.

(** ** What a run does *)

(** C16. The remote start, for every environment: nothing is asked of a channel
    of the session before the session says it is authenticated; the copy of the
    executable ends as soon as it has all been read; and when a secret is
    returned, the commands run were those that make a file, receive the
    executable into it, make it executable and start it as a server on the
    wanted port with exactly that secret and number of workers, and the bytes
    sent are exactly those read of the executable, to its end. *)
Theorem remote_start_correct env fuel o r h :
  run env (remote_start_server fuel o) [] = (r, h) →
  (∀ pre ev post, h = pre ++ ev :: post → remote ev = true → authentic ∈ pre)
  ∧ (r = Unfinished → (fuel ≤ length (read h))%nat)
  ∧ ∀ secret, r = Done (Ok secret) →
      existT (SampleString 30) secret ∈ h ∧ file_end ∈ h ∧ sent h = read h
      ∧ ∃ filename, execs h = [str "mktemp --tmpdir deltasync.XXXXXXXX"; str "cat >" ++ filename;
          str "chmod +x " ++ filename; server_command o filename secret].
Proof.
  intros E. split; [|].
  - intros pre ev post -> Hev. unfold remote_start_server in E. rewrite run_bind in E.
    destruct (run env (open_session o) []) as [e h1] eqn:E1.
    destruct (open_session_auth o _ _ _ _ E1) as (t & -> & [Ht _] & Hok). cbn [app] in E.
    destruct e as [[u|x]| |]; [|by simplify_eq; apply auth_no_remote in Ht; congruence..].
    destruct (triple_extends _ _ _ _ _ E) as (t2 & Heq & _).
    apply app_eq_inv in Heq as [(k & -> & _)|(k & -> & Hk)].
    { apply elem_of_app. left. by apply (Hok u). }
    destruct k as [|ev' k]; [rewrite (right_id_L [] (++)) in *; by apply (Hok u)|].
    cbn in Hk. simplify_eq. apply auth_no_remote in Ht. congruence.
  - destruct (remote_start_part fuel o _ _ _ _ E) as (t & -> & Hu & Hs). cbn [app].
    split; [exact Hu|]. intros secret Hr.
    destruct (Hs secret Hr) as (H1 & H2 & f & file & H3 & H4 & H5).
    split; [done|]. split; [done|]. split; [congruence|]. by exists f.
Qed.

(** ** A run: the password is asked for, the executable read in one piece *)

Definition sample_options : RemoteStartOptions :=
  MkRemoteStartOptions (str "10.0.0.7") 22 (str "bob") None 4 15000.

Definition sample_env : Env := λ h c,
  match c return answer c with
  | Authenticated => bool_decide (6 ≤ length h)%nat
  | AgentIdentities => Ok []
  | PromptPassword _ | CurrentExe | CurrentDir => Ok (str "/x")
  | ReadToString _ => Ok (str "/tmp/deltasync.a" ++ [byte_of 10])
  | FileRead _ => Ok (if bool_decide (read h = []) then str "ELF" else [])
  | ChannelSession => Ok 0
  | SampleString _ => str "s3cret"
  | CurrentUsername => None
  | TcpConnect _ | SessionNew | SshHandshake | UserauthPubkeyFile _ _ | Agent | AgentConnect
  | AgentListIdentities | AgentUserauth _ _ | UserauthPassword _ _ | Exec _ _ | WriteAll _ _
  | SendEof _ | WaitEof _ | WaitClose _ | FileOpen _ | RemoveFile _ | DaemonizeStart => Ok ()
  end.

Abbreviation sample_run := (run sample_env (remote_start_server 5 sample_options) []).

Lemma remote_start_correct_witness :
  sample_run.1 = Done (Ok (str "s3cret"))
  ∧ sent sample_run.2 = str "ELF"
  ∧ ∃ filename, nth_error (execs sample_run.2) 3
      = Some (server_command sample_options filename (str "s3cret")).
Proof.
  destruct (remote_start_correct sample_env 5 sample_options sample_run.1 sample_run.2)
    as (_ & _ & H); [by vm_compute|].
  assert (sample_run.1 = Done (Ok (str "s3cret"))) as E by (vm_compute; reflexivity).
  destruct (H _ E) as (_ & _ & Hs & f & Hf). split; [exact E|].
  split; [rewrite Hs; vm_compute; reflexivity|]. exists f. rewrite Hf. reflexivity.
Defined.
