(* ===== verification/Server.v ===== *)
(** The event loop of the server (src/src/server.rs, lines 84-159): a machine
    whose step is the poll of one branch of the [select!].

    The branches are polled in their order ([biased]); the first that is ready
    ends the [select!]: the futures of the others are dropped, its handler runs
    and the loop starts over.  When none is ready the task waits, and the same
    futures are polled again. *)

From stdpp Require Import base option list gmap numbers.
From Stdlib Require Import NArith Lia.
From S2P Require Import Prelude AsyncIO Utf8 Wire Loan Resumable ResumableString.
From S2P Require Import ResumableBlock Disk HashFile OrderedChannel Pipeline PipelineInv.
From S2P Require Import HashStream Hasher.
#[local] Open Scope N_scope.

Module RB := ResumableReadFileBlock.
Module WA := ResumableAsyncWriteAll.
Module WS := ResumableWriteString.

(** ** State *)

(** The variables of the loop; [rd_pc] is where the future of [read_on] of this
    [select!] is suspended, [recv_polled] whether its future of [recv] was
    polled.  (The other futures have a single await point.) *)
Record Srv (R W D H : Type) := MkSrv {
  rd_block : RB.t;
  rd_pc : option RB.pc;
  receive_buffer : bytes;
  write_buffer : bytes;
  to_disk : option WA.t;
  wr_hash : option WS.t;
  recv_polled : bool;
  hashing_done : bool;
  dest : D;
  client_rx : R;
  client_tx : W;
  hasher : H;
}.
Arguments MkSrv {R W D H}.
Arguments rd_block {R W D H} s.
Arguments rd_pc {R W D H} s.
Arguments receive_buffer {R W D H} s.
Arguments write_buffer {R W D H} s.
Arguments to_disk {R W D H} s.
Arguments wr_hash {R W D H} s.
Arguments recv_polled {R W D H} s.
Arguments hashing_done {R W D H} s.
Arguments dest {R W D H} s.
Arguments client_rx {R W D H} s.
Arguments client_tx {R W D H} s.
Arguments hasher {R W D H} s.

(** The branches of the [select!], in order. *)
Inductive Branch := BDisk | BRead | BHash | BRecv.

Definition next_branch (b : Branch) : Branch :=
  match b with BDisk => BRead | BRead => BHash | BHash => BRecv | BRecv => BDisk end.

(** What a handler was run for. *)
Inductive SEv :=
  | SvDisk (r : Result ())
  | SvBlock (offset : N) (data : bytes)
  | SvHash (r : Result ())
  | SvItem (v : Val)
  | SvEnd.

(** The result of a poll: the branch is disabled or pending; it is ready and its
    handler ran; the loop ends, by [break] on a failed read or by [return Err];
    the poll does not end (a writer that takes nothing). *)
Inductive SPoll (S : Type) :=
  | SPending (s : S)
  | SReady (e : SEv) (s : S)
  | SBreak (e : Error) (s : S)
  | SReturn (e : Error) (s : S)
  | SSpin.
Arguments SPending {S} s.
Arguments SReady {S} e s.
Arguments SBreak {S} e s.
Arguments SReturn {S} e s.
Arguments SSpin {S}.

Section server.
Context {R W D H : Type} `{!AsyncRead R, !AsyncWrite W, !AsyncWrite D, !DiskFile D, !Hasher H}.
#[local] Abbreviation srv := (Srv R W D H).

(** Lines 84-98: the state before the loop. *)
Definition server_init (block_size filesize : N) (rx : R) (tx : W) (file : D) (h : H) : srv :=
  MkSrv (RB.new block_size filesize) None [] [] None None false false file rx tx h.

(** The end of a [select!]: its futures are dropped. *)
Definition drop_futures (s : srv) : srv :=
  MkSrv (rd_block s) None (receive_buffer s) (write_buffer s) (to_disk s) (wr_hash s) false
        (hashing_done s) (dest s) (client_rx s) (client_tx s)
        (if recv_polled s then h_cancel (hasher s) else hasher s).

(** Lines 120-122: the current block written to the file; any result counts as
    its end. *)
Definition poll_disk (fuel : nat) (s : srv) : SPoll srv :=
  match to_disk s with
  | None => SPending s
  | Some rwa =>
      let '(o, rwa', file) := WA.write_all fuel rwa (write_buffer s) (dest s) in
      let s' (d : option WA.t) :=
        MkSrv (rd_block s) (rd_pc s) (receive_buffer s) (write_buffer s) d (wr_hash s)
              (recv_polled s) (hashing_done s) file (client_rx s) (client_tx s) (hasher s) in
      match o with
      | Returned r => SReady (SvDisk r) (drop_futures (s' None))
      | Suspended _ => SPending (s' (Some rwa'))
      | OutOfFuel => SSpin
      end
  end.

(** Lines 125-136: a block read from the client; then the buffers are swapped,
    the file is moved to the block's offset and its write is set up. *)
Definition poll_read_block (s : srv) : SPoll srv :=
  if bool_decide (is_Some (to_disk s)) then SPending s
  else
    let read := match rd_pc s with None => RB.read_on | Some p => RB.resume p end in
    let '(o, rb, buf, rx) := read (rd_block s) (receive_buffer s) (client_rx s) in
    let s' (pc : option RB.pc) (rbuf wbuf : bytes) (d : option WA.t) (file : D) :=
      MkSrv rb pc rbuf wbuf d (wr_hash s) (recv_polled s) (hashing_done s) file rx
            (client_tx s) (hasher s) in
    match o with
    | Returned (Ok offset) =>
        match d_seek offset (dest s) with
        | (Ok _, file) =>
            SReady (SvBlock offset buf)
                   (drop_futures (s' None (write_buffer s) buf (Some WA.new) file))
        | (Err e, file) => SReturn e (drop_futures (s' None (write_buffer s) buf None file))
        end
    | Returned (Err e) => SBreak e (drop_futures (s' None buf (write_buffer s) None (dest s)))
    | Suspended p => SPending (s' (Some p) buf (write_buffer s) None (dest s))
    | OutOfFuel => SSpin
    end.

(** Lines 138-140: a hash sent; any result counts as its end. *)
Definition poll_send_hash (fuel : nat) (s : srv) : SPoll srv :=
  match wr_hash s with
  | None => SPending s
  | Some rws =>
      let '(o, rws', tx) := WS.write_to fuel rws (client_tx s) in
      let s' (w : option WS.t) :=
        MkSrv (rd_block s) (rd_pc s) (receive_buffer s) (write_buffer s) (to_disk s) w
              (recv_polled s) (hashing_done s) (dest s) (client_rx s) tx (hasher s) in
      match o with
      | Returned r => SReady (SvHash r) (drop_futures (s' None))
      | Suspended _ => SPending (s' (Some rws'))
      | OutOfFuel => SSpin
      end
  end.

(** Lines 143-149: the hash of the next block; the block is dropped. *)
Definition poll_next_hash (s : srv) : SPoll srv :=
  if negb (bool_decide (is_Some (wr_hash s))) && negb (hashing_done s) then
    let '(r, h) := h_poll (hasher s) in
    let s' (w : option WS.t) (polled done : bool) (h' : H) :=
      MkSrv (rd_block s) (rd_pc s) (receive_buffer s) (write_buffer s) (to_disk s) w
            polled done (dest s) (client_rx s) (client_tx s) h' in
    match r with
    | Ready (Ok (Some v)) =>
        SReady (SvItem v)
               (drop_futures (s' (Some (WS.new (hash v.2))) false false (h_release (data v.2) h)))
    | Ready (Ok None) => SReady SvEnd (drop_futures (s' (wr_hash s) false true h))
    | Ready (Err e) => SReturn e (drop_futures (s' (wr_hash s) false false h))
    | Pending => SPending (s' (wr_hash s) true false h)
    end
  else SPending s.

Definition poll_branch (fuel : nat) (b : Branch) (s : srv) : SPoll srv :=
  match b with
  | BDisk => poll_disk fuel s
  | BRead => poll_read_block s
  | BHash => poll_send_hash fuel s
  | BRecv => poll_next_hash s
  end.

(** How far a run is: in the loop, before the poll of a branch; out of it. *)
Inductive SConf :=
  | SRun (b : Branch) (s : srv)
  | SBroke (e : Error) (s : srv)
  | SReturned (e : Error) (s : srv)
  | SSpins.

(** [else => break] is not reached: with no write to the file pending, the
    branch of the read is enabled. *)
Definition server_step (fuel : nat) (c : SConf) : list SEv * SConf :=
  match c with
  | SRun b s =>
      match poll_branch fuel b s with
      | SPending s' => ([], SRun (next_branch b) s')
      | SReady e s' => ([e], SRun BDisk s')
      | SBreak e s' => ([], SBroke e s')
      | SReturn e s' => ([], SReturned e s')
      | SSpin => ([], SSpins)
      end
  | c => ([], c)
  end.

(** [n] polls of branches. *)
Fixpoint server_run (n fuel : nat) (c : SConf) : list SEv * SConf :=
  match n with
  | O => ([], c)
  | S n' => let '(es, c1) := server_step fuel c in
            let '(es', c2) := server_run n' fuel c1 in (es ++ es', c2)
  end.

(** Lines 155-158, once the loop is over. *)
Definition server_finish (s : srv) : Result StatusCode * D :=
  let '(r, d) := d_flush (dest s) in
  match r with
  | Err e => (Err e, d)
  | Ok _ => let '(r', d') := d_sync d in
            (match r' with Err e => Err e | Ok _ => Ok Ack end, d')
  end.
End server.

(** ** The specification: the frames of a byte sequence *)

(** [bytes] starts with the frames [bs], followed by [rest]. *)
Definition frames (bsz fsz : N) : bytes → list (N * bytes) → bytes → Prop :=
  parses (RB.parse_block bsz fsz).

Lemma parse_block_ok bsz fsz l off data rest :
  RB.parse_block bsz fsz l = Ok (off, data, rest) →
  l = block_frame off data ++ rest ∧ lenN data = current_block_size bsz fsz off ∧ off < W64.
Proof.
  unfold RB.parse_block. case_decide as H8; [done|]. cbv zeta. case_decide as Hs; [done|].
  intros ?; simplify_eq. assert (length (take 8 l) = 8%nat) as Hl by len_lia.
  pose proof (be_val8_bound _ Hl). split_and!; [|len_lia|done].
  unfold block_frame. rewrite be_bytes8_val by done.
  by rewrite <-(assoc_L (++)), !take_drop.
Qed.

Lemma frames_bytes bsz fsz l bs rest : frames bsz fsz l bs rest →
  l = concat ((λ b, block_frame b.1 b.2) <$> bs) ++ rest.
Proof.
  induction 1 as [l|l bs rest [off data] rest' _ -> Hp]; [done|].
  apply parse_block_ok in Hp as (-> & _ & _).
  rewrite fmap_app, concat_app, <-(assoc_L (++)). cbn. by rewrite (right_id_L [] (++)).
Qed.

(** ** What a run has done *)

Definition ev_blocks (es : list SEv) : list (N * bytes) :=
  omap (λ e, match e with SvBlock off data => Some (off, data) | _ => None end) es.
Definition ev_items (es : list SEv) : list Val :=
  omap (λ e, match e with SvItem v => Some v | _ => None end) es.

(** No write to the file, no write to the client failed. *)
Definition disk_fine (es : list SEv) : Prop := ∀ e, SvDisk (Err e) ∉ es.
Definition hash_fine (es : list SEv) : Prop := ∀ e, SvHash (Err e) ∉ es.

Definition hash_frames (vs : list Val) : bytes := concat ((λ v, string_frame (hash v.2)) <$> vs).

Lemma hash_frames_snoc vs v : hash_frames (vs ++ [v]) = hash_frames vs ++ string_frame (hash v.2).
Proof. unfold hash_frames. rewrite fmap_app, concat_app. cbn. by rewrite (right_id_L [] (++)). Qed.

Section invariant.
Context {R W D H : Type} `{!AsyncRead R, !AsyncReadLaws R, !AsyncWrite W, !AsyncWriteLaws W}.
Context `{!AsyncWrite D, !AsyncWriteLaws D, !DiskFile D, !DiskLaws D}.
Context {Hh : Hasher H} {Hg : Hashing} {Hgl : HashingLaws}.
Context {hfile_size bsz : N} {algorithm : HashAlgorithm} {h_ok : H → Prop}.
Context {Hlaws : HasherLaws H hfile_size bsz algorithm h_ok}.
Context {fsz : N} (Hbsz : bsz + 8 < W64).
(** The bytes of the client, the content of the file, the bytes sent to the
    client, before the loop. *)
Context {total content0 sent0 : bytes} {recvd0 : list Val}.
#[local] Abbreviation srv := (Srv R W D H).
Implicit Types s : srv.

(** The file, for the blocks [bs] received. *)
Definition disk_inv (bs : list (N * bytes)) s : Prop :=
  match to_disk s with
  | None => d_content (dest s) = patches content0 bs
  | Some wa => ∃ bs' f, bs = bs' ++ [f] ∧ write_buffer s = f.2
      ∧ d_content (dest s)
        = patch (patches content0 bs') f.1 (take (N.to_nat (WA.offset wa)) f.2)
      ∧ d_pos (dest s) = f.1 + WA.offset wa
  end.

(** The bytes sent to the client, for the blocks hashed. *)
Definition hash_inv (vs : list Val) s : Prop :=
  written (client_tx s) ++ match wr_hash s with Some w => WS.remaining w | None => [] end
  = sent0 ++ hash_frames vs.

Record srv_inv (es : list SEv) s : Prop := {
  si_read : ∃ c, frames bsz fsz total (ev_blocks es) (c ++ incoming (client_rx s))
              ∧ RB.holds (rd_block s) (receive_buffer s) c;
  si_sizes : RB.block_size (rd_block s) = bsz ∧ RB.file_size (rd_block s) = fsz;
  si_pc p : rd_pc s = Some p → RB.at_pc p (rd_block s) (receive_buffer s);
  si_wa wa : to_disk s = Some wa → WA.offset wa ≤ lenN (write_buffer s) ≤ bsz;
  si_disk : disk_fine es → disk_inv (ev_blocks es) s;
  si_wf w : wr_hash s = Some w → WS.wf w ∧ lenN (WS.buf w) ≤ 40;
  si_hash : hash_fine es → hash_inv (ev_items es) s;
  si_ok : h_ok (hasher s);
  si_recvd : h_recvd (hasher s) = recvd0 ++ ev_items es;
}.

(** When the loop is left by [break] on the failed read [e]. *)
Definition broke_inv (es : list SEv) (e : Error) s : Prop :=
  (∃ rest, frames bsz fsz total (ev_blocks es) rest
     ∧ match e with EIo _ => True | _ => RB.parse_block bsz fsz rest = Err e end)
  ∧ (disk_fine es → d_content (dest s) = patches content0 (ev_blocks es))
  ∧ (hash_fine es → hash_inv (ev_items es) s)
  ∧ h_ok (hasher s) ∧ h_recvd (hasher s) = recvd0 ++ ev_items es.

Definition conf_inv (es : list SEv) (c : SConf (R:=R) (W:=W) (D:=D) (H:=H)) : Prop :=
  match c with
  | SRun _ s => srv_inv es s
  | SBroke e s => broke_inv es e s
  | SReturned _ _ | SSpins => True
  end.

Lemma fine_app (P : SEv → Prop) (es es' : list SEv) :
  (∀ e, P e → e ∉ es ++ es') ↔ (∀ e, P e → e ∉ es) ∧ (∀ e, P e → e ∉ es').
Proof.
  setoid_rewrite elem_of_app. split.
  - intros Hf. split; intros e He Hin; apply (Hf e He); tauto.
  - intros [H1 H2] e He [Hin|Hin]; [by apply (H1 e)|by apply (H2 e)].
Qed.

Lemma disk_fine_app es es' : disk_fine (es ++ es') ↔ disk_fine es ∧ disk_fine es'.
Proof.
  pose proof (fine_app (λ e, ∃ x, e = SvDisk (Err x)) es es') as F. unfold disk_fine.
  destruct F as [F1 F2]. split.
  - intros Hf. destruct F1 as [G1 G2]; [by intros e [x ->]|]. split; intros x; eauto.
  - intros [H1 H2] x. apply F2; [|by eexists]. split; intros e [y ->]; auto.
Qed.
Lemma hash_fine_app es es' : hash_fine (es ++ es') ↔ hash_fine es ∧ hash_fine es'.
Proof.
  pose proof (fine_app (λ e, ∃ x, e = SvHash (Err x)) es es') as F. unfold hash_fine.
  destruct F as [F1 F2]. split.
  - intros Hf. destruct F1 as [G1 G2]; [by intros e [x ->]|]. split; intros x; eauto.
  - intros [H1 H2] x. apply F2; [|by eexists]. split; intros e [y ->]; auto.
Qed.

Lemma ev_blocks_app es es' : ev_blocks (es ++ es') = ev_blocks es ++ ev_blocks es'.
Proof. unfold ev_blocks. apply omap_app. Qed.
Lemma ev_items_app es es' : ev_items (es ++ es') = ev_items es ++ ev_items es'.
Proof. unfold ev_items. apply omap_app. Qed.

Lemma drop_futures_inv es s : srv_inv es s → srv_inv es (drop_futures s).
Proof.
  intros [S1 S2 S3 S4 S5 S6 S7 S8 S9]. pose proof (h_cancel_ok (h_ok:=h_ok) _ S8) as (C1 & C2 & _).
  split; cbn; try done; destruct (recv_polled s); congruence.
Qed.

(** An event that is neither a block nor an item, nor a failure. *)
Lemma poll_disk_inv fuel es s : srv_inv es s →
  match poll_disk fuel s with
  | SPending s' => srv_inv es s'
  | SReady e s' => srv_inv (es ++ [e]) s'
  | SBreak _ _ | SReturn _ _ => False
  | SSpin => True
  end.
Proof.
  intros Hi. pose proof Hi as [S1 S2 S3 S4 S5 S6 S7 S8 S9]. unfold poll_disk.
  destruct (to_disk s) as [wa|] eqn:Hwa; [|done].
  pose proof (S4 wa eq_refl) as [Hoff Hlen0]. unfold WA.write_all.
  assert (lenN (write_buffer s) < W64) as Hlen by lia.
  destruct (write_loop fuel (WA.offset wa) (write_buffer s) (dest s)) as [[e off] d'] eqn:E.
  pose proof (write_loop_spec _ _ _ _ _ _ _ E Hoff Hlen) as (H1 & _ & _ & H4).
  pose proof (disk_write_loop _ _ _ _ _ _ _ E Hoff Hlen) as (_ & Hc & Hp).
  assert (∀ bs, disk_inv bs s → (∀ err, e ≠ LErr err) → ∃ bs' f, bs = bs' ++ [f]
    ∧ write_buffer s = f.2
    ∧ d_content d' = patch (patches content0 bs') f.1 (take (N.to_nat off) f.2)
    ∧ d_pos d' = f.1 + off) as Hdisk.
  { intros bs Hd He. unfold disk_inv in Hd. rewrite Hwa in Hd.
    destruct Hd as (bs' & f & -> & Hf & Hcon & Hpos). exists bs', f. split_and!; try done.
    - rewrite Hc, Hcon, Hpos, Hf in *.
      replace (f.1 + WA.offset wa)
        with (f.1 + lenN (take (N.to_nat (WA.offset wa)) f.2)) by (unfold lenN in *; len_lia).
      rewrite patch_app. f_equal.
      replace (N.to_nat off) with (N.to_nat (WA.offset wa) + N.to_nat (off - WA.offset wa))%nat by lia.
      by rewrite take_take_drop.
    - rewrite Hp, Hpos by done. lia. }
  destruct e as [| |err|]; [| | |done].
  - apply drop_futures_inv. split; cbn; rewrite ?ev_blocks_app, ?ev_items_app;
      cbn; rewrite ?(right_id_L [] (++)); try done.
    + intros [Hf _]%disk_fine_app. destruct (Hdisk _ (S5 Hf)) as (bs' & f & -> & Hf' & -> & _); [done|].
      unfold disk_inv; cbn. rewrite patches_snoc, take_ge; [done|]. rewrite <-Hf'. len_lia.
    + intros [Hf _]%hash_fine_app. by apply S7.
  - split; cbn; try done.
    + intros wa' ?; simplify_eq. cbn. lia.
    + intros Hf. unfold disk_inv; cbn. by apply Hdisk; [apply S5|].
  - apply drop_futures_inv. split; cbn; rewrite ?ev_blocks_app, ?ev_items_app;
      cbn; rewrite ?(right_id_L [] (++)); try done.
    + intros [_ Hf]%disk_fine_app. exfalso. apply (Hf err). by left.
    + intros [Hf _]%hash_fine_app. by apply S7.
Qed.

Lemma poll_read_block_inv es s : srv_inv es s →
  match poll_read_block s with
  | SPending s' => srv_inv es s'
  | SReady e s' => srv_inv (es ++ [e]) s'
  | SBreak e s' => broke_inv es e s'
  | SReturn _ _ => True
  | SSpin => False
  end.
Proof.
  intros Hi. pose proof Hi as [S1 S2 S3 S4 S5 S6 S7 S8 S9]. unfold poll_read_block.
  case_bool_decide as Hwa; [done|]. apply eq_None_not_Some in Hwa.
  destruct S1 as (c & Hfr & Hho). destruct S2 as [Hb Hf].
  rewrite (RB.block_polled_again _ _ _ _ S3).
  pose proof (RB.block_read_on_answers (rd_block s) (receive_buffer s) c (client_rx s) Hho) as Ha.
  rewrite Hb, Hf in Ha. specialize (Ha Hbsz).
  destruct (RB.read_on _ _ _) as [[[o rb] buf] rx]. destruct Ha as (Hb' & Hf' & Ha).
  unfold disk_inv in S5. rewrite Hwa in S5. destruct o as [[off|e]|p|].
  - destruct Ha as [Hp ->]. pose proof (parse_block_ok _ _ _ _ _ _ Hp) as (_ & Hl & Ho).
    pose proof (RB.current_block_size_le bsz fsz off) as Hle.
    destruct (d_seek off (dest s)) as [[[]|e] d'] eqn:Es; [|done].
    apply disk_seek_ok in Es as [Hc Hpos]. apply drop_futures_inv.
    split; cbn; rewrite ?ev_blocks_app, ?ev_items_app; cbn; rewrite ?(right_id_L [] (++)); try done.
    + exists []. split; [|apply RB.block_holds_new]. by eapply parses_snoc.
    + intros wa ?; simplify_eq. cbn. lia.
    + intros [Hf0 _]%disk_fine_app. unfold disk_inv; cbn. eexists _, (off, buf).
      split; [done|]. split; [done|]. cbn. rewrite take_0, Hc, (S5 Hf0), Hpos.
      split; [done|lia].
    + intros [Hf0 _]%hash_fine_app. by apply S7.
  - pose proof (h_cancel_ok (h_ok:=h_ok) _ S8) as (C1 & C2 & _). unfold broke_inv; cbn. split_and!.
    + exists (c ++ incoming (client_rx s)). split; [done|]. by destruct e.
    + done.
    + exact S7.
    + by destruct (recv_polled s).
    + destruct (recv_polled s); congruence.
  - destruct Ha as (c' & Ec & Hho' & Hpc). split; cbn; try done.
    + exists c'. by rewrite <-Ec.
    + intros p' ?. by simplify_eq.
  - done.
Qed.

Lemma poll_send_hash_inv fuel es s : srv_inv es s →
  match poll_send_hash fuel s with
  | SPending s' => srv_inv es s'
  | SReady e s' => srv_inv (es ++ [e]) s'
  | SBreak _ _ | SReturn _ _ => False
  | SSpin => True
  end.
Proof.
  intros Hi. pose proof Hi as [S1 S2 S3 S4 S5 S6 S7 S8 S9]. unfold poll_send_hash.
  destruct (wr_hash s) as [w|] eqn:Hw; [|done].
  destruct (WS.write_to fuel w (client_tx s)) as [[o w'] tx'] eqn:E.
  destruct (S6 w eq_refl) as [Hwf0 Hle0].
  apply WS.write_to_sends in E as (Hwf & Hbuf & Hse & Ho); [|done].
  unfold hash_inv in S7. rewrite Hw in S7.
  destruct o as [r|[]|]; [| |done].
  - apply drop_futures_inv. split; cbn; rewrite ?ev_blocks_app, ?ev_items_app;
      cbn; rewrite ?(right_id_L [] (++)); try done.
    + intros [Hf _]%disk_fine_app. by apply S5.
    + intros [Hf Hf']%hash_fine_app. unfold hash_inv; cbn. rewrite (right_id_L [] (++)).
      destruct r as [[]|e]; [|by destruct (Hf' e); left].
      rewrite <-(S7 Hf), <-Hse, Ho. by rewrite (right_id_L [] (++)).
  - split; cbn; try done.
    + intros w0 ?. simplify_eq. by rewrite Hbuf.
    + intros Hf. unfold hash_inv; cbn. by rewrite Hse, S7.
Qed.

Lemma poll_next_hash_inv es s : srv_inv es s →
  match poll_next_hash s with
  | SPending s' => srv_inv es s'
  | SReady e s' => srv_inv (es ++ [e]) s'
  | SBreak _ _ | SSpin => False
  | SReturn _ _ => True
  end.
Proof.
  intros Hi. pose proof Hi as [S1 S2 S3 S4 S5 S6 S7 S8 S9]. unfold poll_next_hash.
  destruct (bool_decide (is_Some (wr_hash s))) eqn:Hw; [done|].
  apply bool_decide_eq_false, eq_None_not_Some in Hw.
  destruct (hashing_done s) eqn:Hd; [done|]. cbn [negb andb].
  unfold hash_inv in S7. rewrite Hw in S7.
  destruct (h_poll (hasher s)) as [r h'] eqn:E.
  pose proof (h_poll_ok (h_ok:=h_ok) _ _ _ S8 E) as [Hok _].
  destruct r as [[[v|]|e]|].
  - destruct (h_poll_item (h_ok:=h_ok) _ _ _ S8 E) as [Hr (_ & _ & Hv & _)].
    destruct (h_release_ok (h_ok:=h_ok) (data v.2) _ Hok) as (R1 & R2 & _).
    apply drop_futures_inv. split; cbn; rewrite ?ev_blocks_app, ?ev_items_app;
      cbn; rewrite ?(right_id_L [] (++)); try done.
    + intros [Hf _]%disk_fine_app. by apply S5.
    + intros w ?; simplify_eq. rewrite Hv.
      pose proof (hash_data_short (deref (data v.2)) algorithm) as Hsh.
      split; [apply WS.new_wf; unfold W64; lia|]. unfold WS.new; cbn [WS.buf].
      rewrite be_store_loop_8. len_lia.
    + intros [Hf _]%hash_fine_app. unfold hash_inv; cbn.
      rewrite WS.new_frame, hash_frames_snoc, (assoc_L (++)), <-(S7 Hf).
      by rewrite (right_id_L [] (++)).
    + by rewrite R2, Hr, S9, (assoc_L (++)).
  - destruct (h_poll_end (h_ok:=h_ok) _ _ S8 E) as [Hr _].
    apply drop_futures_inv. split; cbn; rewrite ?ev_blocks_app, ?ev_items_app;
      cbn; rewrite ?(right_id_L [] (++)); try done.
    + intros [Hf _]%disk_fine_app. by apply S5.
    + intros [Hf _]%hash_fine_app. unfold hash_inv; cbn. rewrite Hw. by apply S7.
    + by rewrite Hr.
  - done.
  - pose proof (h_poll_pending (h_ok:=h_ok) _ _ S8 E) as Hr. split; cbn; try done.
    + intros Hf. unfold hash_inv; cbn. rewrite Hw. by apply S7.
    + by rewrite Hr.
Qed.

Lemma server_step_inv fuel es c es' c' : conf_inv es c → server_step fuel c = (es', c') →
  conf_inv (es ++ es') c'.
Proof.
  unfold server_step. destruct c as [b s|e s|e s|];
    [|intros Hi E; simplify_eq; by rewrite (right_id_L [] (++))..].
  intros Hi. assert (match poll_branch fuel b s with
    | SPending s' => srv_inv es s'
    | SReady e s' => srv_inv (es ++ [e]) s'
    | SBreak e s' => broke_inv es e s'
    | SReturn _ _ | SSpin => True end) as Hp.
  { destruct b; cbn [poll_branch].
    - pose proof (poll_disk_inv fuel es s Hi). by destruct (poll_disk fuel s).
    - pose proof (poll_read_block_inv es s Hi). by destruct (poll_read_block s).
    - pose proof (poll_send_hash_inv fuel es s Hi). by destruct (poll_send_hash fuel s).
    - pose proof (poll_next_hash_inv es s Hi). by destruct (poll_next_hash s). }
  destruct (poll_branch fuel b s); intros; simplify_eq; cbn [conf_inv];
    by rewrite ?(right_id_L [] (++)).
Qed.

Lemma server_run_inv n fuel es c es' c' : conf_inv es c → server_run n fuel c = (es', c') →
  conf_inv (es ++ es') c'.
Proof.
  revert es c es'. induction n as [|n IH]; intros es c es' Hi; cbn [server_run].
  - intros; simplify_eq. by rewrite (right_id_L [] (++)).
  - destruct (server_step fuel c) as [es1 c1] eqn:E1.
    destruct (server_run n fuel c1) as [es2 c2] eqn:E2. intros; simplify_eq.
    rewrite (assoc_L (++)). eapply IH; [|exact E2]. by eapply server_step_inv.
Qed.

(** ** The loop ends *)

Section termination.
Context `{!FairWrite D, !FairSeek D, !WriteProgress D, !WriteProgress W}.
Context (fuel : nat) (Hfuel : (N.to_nat bsz ≤ fuel ∧ 40 ≤ fuel)%nat).

(** What is left, given what a connection is worth: the stalls of the file, the
    write to the file in progress. *)
Definition credit (rc : R → nat) s : nat :=
  (rc (client_rx s) + wstalls (dest s) + match to_disk s with Some _ => 1 | None => 0 end)%nat.

Lemma drop_futures_credit rc s : credit rc (drop_futures s) = credit rc s.
Proof. done. Qed.

Lemma poll_disk_credit rc es s : srv_inv es s →
  match poll_disk fuel s with
  | SPending s' => to_disk s = None ∧ s' = s
      ∨ is_Some (to_disk s) ∧ is_Some (to_disk s') ∧ (credit rc s' < credit rc s)%nat
  | SReady _ s' => (credit rc s' < credit rc s)%nat
  | _ => False
  end.
Proof.
  intros Hi. pose proof Hi as [S1 S2 S3 S4 S5 S6 S7 S8 S9]. unfold poll_disk.
  destruct (to_disk s) as [wa|] eqn:Hwa; [|by left].
  pose proof (S4 wa eq_refl) as [Hoff Hlen]. unfold WA.write_all.
  destruct (write_loop fuel (WA.offset wa) (write_buffer s) (dest s)) as [[e off] d'] eqn:E.
  pose proof (write_loop_stalls _ _ _ _ _ _ _ E) as [H1 H2].
  assert (e ≠ LFuel) as Hne.
  { intros ->. eapply write_loop_fuel; [| |exact E]; [lia|len_lia]. }
  destruct e; try done; rewrite ?drop_futures_credit; unfold credit; cbn; rewrite ?Hwa; try lia.
  right. specialize (H2 eq_refl). split; [by eexists|]. split; [by eexists|]. lia.
Qed.

Lemma holds_consumed off data c rest rest' rb buf :
  RB.holds rb buf c → RB.block_size rb = bsz → RB.file_size rb = fsz →
  RB.parse_block bsz fsz (c ++ rest) = Ok (off, data, rest') → (length rest' < length rest)%nat.
Proof.
  intros Hho Hb Hf Hp. pose proof (parse_block_ok _ _ _ _ _ _ Hp) as (E & Hl & Ho).
  assert (length (c ++ rest) = (8 + length data + length rest')%nat) as Hlen.
  { rewrite E. unfold block_frame. len_lia. }
  rewrite length_app in Hlen. destruct Hho as [_ _ Hc _|s' Hof Hc _ Hsz Hlt _]; [len_lia|].
  assert (off = RB.offset rb) as Heq.
  { rewrite Hc, <-(assoc_L (++)) in Hp. rewrite RB.parse_block_header in Hp by done.
    cbv zeta in Hp. case_decide; by simplify_eq. }
  subst off. rewrite Hb, Hf in Hsz. rewrite <-Hl in Hsz.
  apply (f_equal length) in Hc. rewrite length_app, length_be_bytes in Hc. len_lia.
Qed.

Lemma poll_send_hash_credit rc es s : srv_inv es s →
  match poll_send_hash fuel s with
  | SPending s' | SReady _ s' => credit rc s' = credit rc s
  | _ => False
  end.
Proof.
  intros Hi. pose proof Hi as [S1 S2 S3 S4 S5 S6 S7 S8 S9]. unfold poll_send_hash.
  destruct (wr_hash s) as [w|] eqn:Hw; [|done]. destruct (S6 w eq_refl) as [Hwf Hle].
  unfold WS.write_to.
  destruct (write_loop fuel (WS.offset w) (WS.buf w) (client_tx s)) as [[e off] tx'] eqn:E.
  assert (e ≠ LFuel) as Hne.
  { intros ->. eapply (write_loop_fuel (W:=W)); [| |exact E]; [apply Hwf|len_lia]. }
  by destruct e.
Qed.

Lemma poll_next_hash_credit rc s :
  match poll_next_hash s with
  | SPending s' | SReady _ s' => credit rc s' = credit rc s
  | SReturn _ _ => True
  | _ => False
  end.
Proof.
  unfold poll_next_hash. destruct (_ && _); [|done].
  by destruct (h_poll (hasher s)) as [[[[v|]|e]|] h'].
Qed.

(** A connection that stalls finitely often: its stalls and its bytes. *)
Context `{!FairRead R}.
Definition rx_credit (r : R) : nat := (stalls r + 2 * length (incoming r))%nat.

Definition branch_rank (b : Branch) s : nat :=
  match b, to_disk s with
  | BDisk, _ => 2 | BRead, None => 1 | BRead, Some _ => 9 | BHash, _ => 8 | BRecv, _ => 7
  end%nat.

Definition work b s : nat := (8 * credit rx_credit s + branch_rank b s)%nat.

Lemma poll_read_credit es s : srv_inv es s →
  match poll_read_block s with
  | SPending s' => is_Some (to_disk s) ∧ s' = s
      ∨ to_disk s = None ∧ to_disk s' = None ∧ (credit rx_credit s' < credit rx_credit s)%nat
  | SReady _ s' => (credit rx_credit s' < credit rx_credit s)%nat
  | SBreak _ _ | SReturn _ _ => True
  | SSpin => False
  end.
Proof.
  intros Hi. pose proof (poll_read_block_inv es s Hi) as Hinv.
  pose proof Hi as [S1 S2 S3 S4 S5 S6 S7 S8 S9]. revert Hinv. unfold poll_read_block.
  case_bool_decide as Hwa; [by left|]. apply eq_None_not_Some in Hwa.
  destruct S1 as (c & Hfr & Hho). destruct S2 as [Hb Hf].
  rewrite (RB.block_polled_again _ _ _ _ S3).
  pose proof (RB.block_read_on_answers (rd_block s) (receive_buffer s) c (client_rx s) Hho) as Ha.
  rewrite Hb, Hf in Ha. specialize (Ha Hbsz).
  destruct (RB.read_on _ _ _) as [[[o rb] buf] rx] eqn:E. destruct Ha as (_ & _ & Ha).
  pose proof (RB.block_read_on_stalls _ _ _ _ _ _ _ E) as [Hs1 Hs2].
  destruct o as [[off|e]|p|]; [| | |by intros []].
  - destruct Ha as [Hp _]. pose proof (holds_consumed _ _ _ _ _ _ _ Hho Hb Hf Hp) as Hlt.
    destruct (d_seek off (dest s)) as [[[]|e] d'] eqn:Es; [|done]. intros _.
    apply seek_stalls in Es. rewrite drop_futures_credit. unfold credit, rx_credit; cbn. rewrite Hwa. lia.
  - done.
  - intros _. right. split; [done|]. split; [done|].
    apply RB.block_read_on_incoming in E; [|done]. specialize (Hs2 p eq_refl).
    unfold credit, rx_credit; cbn. rewrite Hwa. lia.
Qed.

(** Every poll brings the end of the loop nearer. *)
Lemma server_step_work es b s es' c' : srv_inv es s → server_step fuel (SRun b s) = (es', c') →
  match c' with
  | SRun b' s' => (work b' s' < work b s)%nat
  | SSpins => False
  | _ => True
  end.
Proof.
  intros Hi. unfold server_step. destruct b; cbn [poll_branch].
  - pose proof (poll_disk_credit rx_credit es s Hi) as Hc. unfold work.
    destruct (poll_disk fuel s) as [s'|e s'|e s'|e s'|]; intros; simplify_eq; cbn; try done; [|lia].
    destruct Hc as [[Hn ->]|(H1 & [x Hx] & Hc)]; [rewrite Hn; lia|rewrite Hx; lia].
  - pose proof (poll_read_credit es s Hi) as Hc. unfold work.
    destruct (poll_read_block s) as [s'|e s'|e s'|e s'|]; intros; simplify_eq; cbn; try done.
    + destruct Hc as [[[x Hx] ->]|(H1 & H2 & Hc)]; [rewrite Hx; lia|rewrite H1; lia].
    + destruct (to_disk s); lia.
  - pose proof (poll_send_hash_credit rx_credit es s Hi) as Hc. unfold work.
    destruct (poll_send_hash fuel s) as [s'|e s'|e s'|e s'|]; intros; simplify_eq; cbn; (done || lia).
  - pose proof (poll_next_hash_credit rx_credit s) as Hc. unfold work.
    destruct (poll_next_hash s) as [s'|e s'|e s'|e s'|]; intros; simplify_eq; cbn; (done || lia).
Qed.

Lemma server_run_ends n es b s : srv_inv es s → (work b s ≤ n)%nat →
  ∃ e s', (server_run n fuel (SRun b s)).2 = SBroke e s'
          ∨ (server_run n fuel (SRun b s)).2 = SReturned e s'.
Proof.
  assert (∀ k e s, (server_run k fuel (SBroke e s)).2 = SBroke e s
    ∧ (server_run k fuel (SReturned e s)).2 = SReturned e s) as Hover.
  { intros k e s0. induction k as [|k [IH1 IH2]]; [done|]. cbn.
    destruct (server_run k fuel (SBroke e s0)), (server_run k fuel (SReturned e s0)).
    by cbn in *. }
  revert es b s. induction n as [|n IH]; intros es b s Hi Hn.
  - exfalso. unfold work in Hn. destruct b; cbn in Hn; [lia|destruct (to_disk s); lia|lia|lia].
  - cbn [server_run]. destruct (server_step fuel (SRun b s)) as [es1 c1] eqn:E.
    pose proof (server_step_inv fuel es (SRun b s) es1 c1 Hi E) as Hi'.
    pose proof (server_step_work es b s es1 c1 Hi E) as Hwk.
    destruct c1 as [b' s'|e s'|e s'|]; [|..|done].
    + destruct (IH (es ++ es1) b' s' Hi') as (e & s2 & H2); [lia|].
      exists e, s2. by destruct (server_run n fuel (SRun b' s')).
    + exists e, s'. left. destruct (Hover n e s') as [H1 _].
      by destruct (server_run n fuel (SBroke e s')).
    + exists e, s'. right. destruct (Hover n e s') as [_ H1].
      by destruct (server_run n fuel (SReturned e s')).
Qed.
End termination.
End invariant.

(** ** Runs poll by poll *)

Definition srv_of {R W D H} (c : SConf (R:=R) (W:=W) (D:=D) (H:=H)) : option (Srv R W D H) :=
  match c with SRun _ s | SBroke _ s => Some s | _ => None end.
Section server_trace.
Context {R W D H : Type} `{!AsyncRead R, !AsyncReadLaws R, !AsyncWrite W, !AsyncWriteLaws W}.
Context `{!AsyncWrite D, !AsyncWriteLaws D, !DiskFile D, !DiskLaws D}.
Context {Hh : Hasher H} {Hg : Hashing} {fsz bsz : N} {algorithm : HashAlgorithm} {h_ok : H → Prop}.
Context {Hlaws : HasherLaws H fsz bsz algorithm h_ok}.
Implicit Types s : Srv R W D H.

(** A poll receives at most one hash, in the branch of the hashes. *)
Lemma server_step_recvd fuel b s es c' s' :
  h_ok (hasher s) → server_step fuel (SRun b s) = (es, c') → srv_of c' = Some s' →
  h_recvd (hasher s') = h_recvd (hasher s)
  ∨ (∃ b', c' = SRun b' s') ∧ ∃ v, h_recvd (hasher s') = h_recvd (hasher s) ++ [v]
      ∧ item_ok fsz bsz algorithm (h_contents (hasher s')) (lenN (h_recvd (hasher s))) v.
Proof.
  intros Hok. unfold server_step.
  assert (∀ s1, hasher s1 = hasher s →
    h_recvd (hasher (drop_futures s1)) = h_recvd (hasher s)) as Hdrop.
  { intros s1 E. cbn. rewrite E. destruct (recv_polled s1); [|done].
    by destruct (h_cancel_ok (h_ok:=h_ok) _ Hok) as (_ & -> & _). }
  destruct b; cbn [poll_branch].
  - unfold poll_disk. intros E Hs. repeat case_match; simplify_eq; cbn in Hs; simplify_eq; left;
      (done || by apply Hdrop).
  - unfold poll_read_block. intros E Hs. repeat case_match; simplify_eq; cbn in Hs; simplify_eq; left;
      (done || by apply Hdrop).
  - unfold poll_send_hash. intros E Hs. repeat case_match; simplify_eq; cbn in Hs; simplify_eq; left;
      (done || by apply Hdrop).
  - unfold poll_next_hash. destruct (_ && _); [|intros E Hs; simplify_eq/=; by left].
    destruct (h_poll (hasher s)) as [[[[v|]|e]|] h'] eqn:E; intros ? Hs; simplify_eq; cbn in Hs; simplify_eq; cbn.
    + destruct (h_poll_ok (h_ok:=h_ok) _ _ _ Hok E) as [Hok' _].
      destruct (h_poll_item (h_ok:=h_ok) _ _ _ Hok E) as [Hr Hi].
      destruct (h_release_ok (h_ok:=h_ok) (data v.2) _ Hok') as (_ & R2 & R3).
      right. split; [by eexists|]. exists v. by rewrite R2, R3.
    + left. by destruct (h_poll_end (h_ok:=h_ok) _ _ Hok E) as [Hr _].
    + left. by rewrite (h_poll_pending (h_ok:=h_ok) _ _ Hok E).
Qed.
End server_trace.

(** ** What happens to the objects of the loop between two polls *)

Section moves.
Context {R W D H : Type} `{!AsyncRead R, !AsyncReadLaws R, !AsyncWrite W, !AsyncWriteLaws W}.
Context `{!AsyncWrite D, !AsyncWriteLaws D, !DiskFile D, !DiskLaws D}.
Context {Hh : Hasher H} {Hg : Hashing} {Hgl : HashingLaws} {fsz bsz : N} {algorithm : HashAlgorithm}.
Context {h_ok : H → Prop} {Hlaws : HasherLaws H fsz bsz algorithm h_ok}.
Implicit Types s : Srv R W D H.

Definition with_objects s (file : D) (rx : R) (tx : W) (h : H) : Srv R W D H :=
  MkSrv (rd_block s) (rd_pc s) (receive_buffer s) (write_buffer s) (to_disk s) (wr_hash s)
        (recv_polled s) (hashing_done s) file rx tx h.

(** The bytes [bs] arrive; the transports and the device change otherwise as
    they may; the workers go on, and those that read the file read what it is. *)
Record server_moves (bs : bytes) s s' : Prop := {
  sm_vars : s' = with_objects s (dest s') (client_rx s') (client_tx s') (hasher s');
  sm_arrived : incoming (client_rx s') = incoming (client_rx s) ++ bs;
  sm_sent : written (client_tx s') = written (client_tx s);
  sm_content : d_content (dest s') = d_content (dest s);
  sm_pos : d_pos (dest s') = d_pos (dest s);
  sm_ok : h_ok (hasher s) → h_ok (hasher s');
  sm_recvd : h_recvd (hasher s') = h_recvd (hasher s);
  sm_files f : f ∈ h_contents (hasher s') → f ∈ h_contents (hasher s) ∨ f = d_content (dest s);
}.

Lemma parse_block_extend l x rest t :
  RB.parse_block bsz fsz l = Ok (x, rest) → RB.parse_block bsz fsz (l ++ t) = Ok (x, rest ++ t).
Proof.
  destruct x as [off data]. intros (-> & Hl & Ho)%parse_block_ok. unfold block_frame.
  rewrite <-!(assoc_L (++)), RB.parse_block_header by done. cbv zeta. rewrite <-Hl.
  replace (N.to_nat (lenN data)) with (length data) by len_lia.
  rewrite decide_False by len_lia. by rewrite take_app_length, drop_app_length.
Qed.

Lemma server_moves_inv total content0 sent0 recvd0 bs es s s' : server_moves bs s s' →
  srv_inv (h_ok:=h_ok) (bsz:=bsz) (fsz:=fsz) (total:=total) (content0:=content0) (sent0:=sent0)
    (recvd0:=recvd0) es s →
  srv_inv (h_ok:=h_ok) (bsz:=bsz) (fsz:=fsz) (total:=total ++ bs) (content0:=content0) (sent0:=sent0)
    (recvd0:=recvd0) es s'.
Proof.
  intros [M0 M1 M2 M3 M4 M5 M6 M7] [S1 S2 S3 S4 S5 S6 S7 S8 S9].
  rewrite M0 in *. cbn in M1, M2, M3, M4, M5, M6, M7. split; cbn; auto.
  - destruct S1 as (c & Hf & Hh'). exists c. split; [|done]. rewrite M1, (assoc_L (++)).
    apply parses_extend; [|done]. intros l x r t. apply parse_block_extend.
  - intros Hd. specialize (S5 Hd). unfold disk_inv in *. cbn. by rewrite M3, M4.
  - intros Hd. specialize (S7 Hd). unfold hash_inv in *. cbn. by rewrite M2.
  - congruence.
Qed.

(** What was sent stays sent; the end of the connection is seen only when it is
    reached. *)
Lemma server_step_sent fuel b s es c' s' : server_step fuel (SRun b s) = (es, c') →
  srv_of c' = Some s' → written (client_tx s) `prefix_of` written (client_tx s').
Proof.
  unfold server_step. destruct b; cbn [poll_branch].
  - unfold poll_disk. intros E Hs. by repeat case_match; simplify_eq; cbn in Hs; simplify_eq.
  - unfold poll_read_block. intros E Hs. by repeat case_match; simplify_eq; cbn in Hs; simplify_eq.
  - unfold poll_send_hash. destruct (wr_hash s) as [w|]; [|intros; by simplify_eq/=].
    unfold WS.write_to. destruct (write_loop _ _ _ _) as [[e off] tx] eqn:E1.
    apply write_loop_prefix in E1.
    intros E Hs. by repeat case_match; simplify_eq; cbn in Hs; simplify_eq.
  - unfold poll_next_hash. intros E Hs. by repeat case_match; simplify_eq; cbn in Hs; simplify_eq.
Qed.

Context (Hbsz : bsz + 8 < W64) `{!LiveRead R}.

Lemma server_step_ended fuel b total content0 sent0 recvd0 es0 s es c' :
  srv_inv (h_ok:=h_ok) (bsz:=bsz) (fsz:=fsz) (total:=total) (content0:=content0) (sent0:=sent0)
    (recvd0:=recvd0) es0 s →
  server_step fuel (SRun b s) = (es, c') →
  match c' with
  | SRun _ s' => ended (client_rx s') = ended (client_rx s)
  | SBroke e _ => (∃ k, e = EIo k) ∨ ended (client_rx s) = true
  | _ => True
  end.
Proof.
  intros [S1 S2 S3 S4 S5 S6 S7 S8 S9]. unfold server_step. destruct b; cbn [poll_branch].
  - unfold poll_disk. intros E. by repeat case_match; simplify_eq.
  - unfold poll_read_block. case_bool_decide; [intros; by simplify_eq|].
    destruct S1 as (c & _ & Hho). destruct S2 as [Hb _].
    rewrite (RB.block_polled_again _ _ _ _ S3).
    destruct (RB.read_on _ _ _) as [[[o rb] buf] rx] eqn:E.
    apply (RB.block_read_on_ended _ _ c) in E as [E1 E2]; [|done|by rewrite Hb].
    destruct o as [[off|e]|p|]; [destruct (d_seek off (dest s)) as [[[]|e] d]|..]; intros; simplify_eq;
      try done. by apply E2.
  - unfold poll_send_hash. intros E. by repeat case_match; simplify_eq.
  - unfold poll_next_hash. intros E. by repeat case_match; simplify_eq.
Qed.
End moves.

(** What a client with correct blocks sends. *)
Lemma frames_blocks bsz fsz bs rest : Forall (is_block bsz fsz) bs →
  frames bsz fsz (concat ((λ b, block_frame b.1 b.2) <$> bs) ++ rest) bs rest.
Proof.
  intros Hb. apply (parses_frames (RB.parse_block bsz fsz) (λ b, block_frame b.1 b.2)).
  intros [off data] l Hin. rewrite Forall_forall in Hb.
  apply (parse_block_frame bsz fsz (off, data) l). by apply Hb, list_elem_of_In.
Qed.

(** ** Properties *)

Section properties.
Context {R W D H : Type} `{!AsyncRead R, !AsyncReadLaws R, !AsyncWrite W, !AsyncWriteLaws W}.
Context `{!AsyncWrite D, !AsyncWriteLaws D, !DiskFile D, !DiskLaws D}.
Context {Hh : Hasher H} {Hg : Hashing} {Hgl : HashingLaws}.

Lemma server_init_inv hfile_size bsz fsz algorithm (h_ok : H → Prop)
    `{!HasherLaws H hfile_size bsz algorithm h_ok} (rx : R) (tx : W) (file : D) (h : H) :
  h_ok h →
  conf_inv (h_ok:=h_ok) (bsz:=bsz) (fsz:=fsz) (total:=incoming rx) (content0:=d_content file)
    (sent0:=written tx) (recvd0:=h_recvd h) []
    (SRun BDisk (server_init bsz fsz rx tx file h)).
Proof.
  intros Hok. cbn [conf_inv]. split; cbn; try done.
  - exists []. split; [apply parses_nil|apply RB.block_holds_new].
  - by rewrite (right_id_L [] (++)).
Qed.

(** C5. What the server does with the client's bytes, for any chunking and
    stalls of the connection, partial and delayed writes of the file, and timing
    of the hash stream: when its loop ends on a closed connection and no write
    of the file failed, the complete frames of the incoming bytes, all of them,
    have been written at their offsets in the order received, and nothing else
    has: an unfinished frame is dropped. *)
Theorem server_applies_frames hfile_size bsz fsz algorithm (h_ok : H → Prop)
    `{!HasherLaws H hfile_size bsz algorithm h_ok} n fuel (rx : R) (tx : W) (file : D) (h : H)
    es e s bs rest :
  bsz + 8 < W64 → h_ok h →
  server_run n fuel (SRun BDisk (server_init bsz fsz rx tx file h)) = (es, SBroke e s) →
  disk_fine es → (∀ k, e ≠ EIo k) →
  frames bsz fsz (incoming rx) bs rest → RB.parse_block bsz fsz rest = Err EClosed →
  d_content (dest s) = patches (d_content file) bs.
Proof.
  intros Hb Hok E Hd He Hfr Hp.
  pose proof (server_run_inv Hb n fuel [] _ es _
    (server_init_inv hfile_size bsz fsz algorithm h_ok rx tx file h Hok) E) as Hi.
  cbn [conf_inv app] in Hi. destruct Hi as ((rest' & Hf' & Hp') & Hdisk & _).
  rewrite Hdisk by done. f_equal.
  assert (RB.parse_block bsz fsz rest' = Err e) as Hpe by (destruct e; [by destruct (He k)|done..]).
  by apply (parses_all _ _ _ _ _ _ _ _ Hf' Hpe Hfr Hp).
Qed.


(** A well-formed state of the loop: the reader has the sizes of the request and
    its offset is in the slice it reads into, of the header or of a block of the
    length its offset gives; the future of the read is suspended where its reader
    is; the write and the hash in progress are within their buffers. *)
Record srv_wf (bsz fsz : N) (s : Srv R W D H) : Prop := {
  wf_sizes : RB.block_size (rd_block s) = bsz ∧ RB.file_size (rd_block s) = fsz;
  wf_reader : RB.buf_offset (rd_block s) < 8 ∧ RB.offset (rd_block s) = 0
    ∨ 8 ≤ RB.buf_offset (rd_block s) < 8 + lenN (receive_buffer s)
      ∧ lenN (receive_buffer s) = current_block_size bsz fsz (RB.offset (rd_block s));
  wf_suspended p : rd_pc s = Some p → RB.at_pc p (rd_block s) (receive_buffer s);
  wf_write wa : to_disk s = Some wa → WA.offset wa ≤ lenN (write_buffer s) ≤ bsz;
  wf_hash w : wr_hash s = Some w → WS.wf w ∧ lenN (WS.buf w) ≤ 40;
}.

Lemma srv_inv_wf bsz fsz (h_ok : H → Prop) total content0 sent0 recvd0 es (s : Srv R W D H) :
  srv_inv (h_ok:=h_ok) (bsz:=bsz) (fsz:=fsz) (total:=total) (content0:=content0) (sent0:=sent0)
    (recvd0:=recvd0) es s → srv_wf bsz fsz s.
Proof.
  intros [(c & _ & Hho) [S1 S2] S3 S4 _ S6 _ _ _]. split; try done.
  rewrite <-S1, <-S2. destruct Hho as [H1 H2 H3 _|d H1 -> H2 H3 H4 _]; [left; lia|right].
  split; [|done]. rewrite H2. len_lia.
Qed.

(** C8. Every state the loop goes through is well formed, whatever the client
    sends and however its reads, writes and hashes are cut, cancelled and resumed:
    the slices of the buffers are always in bounds, and a future is resumed only
    at the await point that fits its object. *)
Theorem server_state_wf hfile_size bsz fsz algorithm (h_ok : H → Prop)
    `{!HasherLaws H hfile_size bsz algorithm h_ok} n fuel (rx : R) (tx : W) (file : D) (h : H)
    es b s :
  bsz + 8 < W64 → h_ok h →
  server_run n fuel (SRun BDisk (server_init bsz fsz rx tx file h)) = (es, SRun b s) →
  srv_wf bsz fsz s.
Proof.
  intros Hb Hok E. eapply srv_inv_wf.
  exact (server_run_inv Hb n fuel [] _ es _
    (server_init_inv hfile_size bsz fsz algorithm h_ok rx tx file h Hok) E).
Qed.

(** C9. The server's loop ends: once the client has sent all its bytes and
    closed, whatever the hash stream does (even if it never answers), the loop
    ends after boundedly many polls, on the closed connection or an error:
    the write in progress and the reads come first. *)
Theorem server_loop_ends hfile_size bsz fsz algorithm (h_ok : H → Prop)
    `{!HasherLaws H hfile_size bsz algorithm h_ok}
    `{!FairRead R, !FairWrite D, !FairSeek D, !WriteProgress D, !WriteProgress W}
    n fuel (rx : R) (tx : W) (file : D) (h : H) :
  bsz + 8 < W64 → h_ok h → (N.to_nat bsz ≤ fuel)%nat → (40 ≤ fuel)%nat →
  (8 * (stalls rx + wstalls file + 2 * length (incoming rx)) + 2 ≤ n)%nat →
  ∃ e s, (server_run n fuel (SRun BDisk (server_init bsz fsz rx tx file h))).2 = SBroke e s
         ∨ (server_run n fuel (SRun BDisk (server_init bsz fsz rx tx file h))).2 = SReturned e s.
Proof.
  intros Hb Hok Hf1 Hf2 Hn.
  apply (server_run_ends Hb fuel (conj Hf1 Hf2) n [] BDisk _
    (server_init_inv hfile_size bsz fsz algorithm h_ok rx tx file h Hok)).
  unfold work, credit, rx_credit. cbn. lia.
Qed.
End properties.

(** ** The properties on a run: the file of 23 bytes of HashFile.v in blocks of
    10, hashed by two workers; the client sends block 1 in pieces and three
    bytes of another frame *)

#[local] Existing Instance toy_hashing.
#[local] Existing Instance toy_hashing_laws.

Abbreviation SampleHasher :=
  (PHasher (MpQueue Val) (OsStore bytes) (option WorkerError * bool)).
#[local] Instance sample_hasher : Hasher SampleHasher := pipe_hasher 23 10 2 CRC32.

Definition sample_h_ok (h : SampleHasher) : Prop :=
  preach 23 10 2 CRC32 sample_file (MkOsStore 0 ∅) (ph_pipe h).
#[local] Instance sample_hasher_laws : HasherLaws SampleHasher 23 10 CRC32 sample_h_ok :=
  pipe_hasher_laws sample_sane sample_file (MkOsStore 0 ∅).

(** The workers start before the first poll; block 0 is sent before the second. *)
Definition sample_hasher_start : SampleHasher :=
  MkPHasher sample_start [MkSlot cmds_start false; MkSlot [CWork 0] false; MkSlot [] false].

Lemma sample_hasher_ok : sample_h_ok sample_hasher_start.
Proof. exact (after_reach []). Qed.

Definition new_block : bytes := replicate 10 Byte.xff.
Definition chunk (bs : bytes) : list RdItem :=
  match bs with [] => [] | b :: bs => [Chunk b bs] end.
Definition sample_rx : list RdItem :=
  chunk (take 5 (block_frame 10 new_block)) ++ [Stall]
  ++ chunk (drop 5 (block_frame 10 new_block)) ++ replicate 5 Stall
  ++ chunk [Byte.x00; Byte.x00; Byte.x00].
Definition sample_disk : Disk Eager := MkDisk sample_file 0 (MkEager [] [EAccept 3; EStall]).
Definition sample_tx : Eager := MkEager [] [EStall; EAccept 2; EStall].

Abbreviation SampleConf := (SConf (R:=list RdItem) (W:=Eager) (D:=Disk Eager) (H:=SampleHasher)).
Abbreviation sample_run n := (server_run n 50 (SRun BDisk
  (server_init 10 23 sample_rx sample_tx sample_disk sample_hasher_start))).

Definition conf_srv (c : SampleConf) : option (Srv (list RdItem) Eager (Disk Eager) SampleHasher) :=
  match c with SRun _ s | SBroke _ s | SReturned _ s => Some s | SSpins => None end.
Definition conf_broke (c : SampleConf) : option Error :=
  match c with SBroke e _ => Some e | _ => None end.
Definition conf_runs (c : SampleConf) : bool := match c with SRun _ _ => true | _ => false end.

Lemma conf_broke_inv c e : conf_broke c = Some e → ∃ s, c = SBroke e s.
Proof. destruct c; cbn; intros ?; simplify_eq; by eexists. Qed.
Lemma conf_runs_inv c : conf_runs c = true → ∃ b s, c = SRun b s.
Proof. destruct c; cbn; intros ?; simplify_eq; by do 2 eexists. Qed.

Definition ev_bad (e : SEv) : bool :=
  match e with SvDisk (Err _) | SvHash (Err _) => true | _ => false end.
Lemma no_bad es : forallb (negb ∘ ev_bad) es = true → disk_fine es ∧ hash_fine es.
Proof.
  rewrite forallb_forall. intros Hf.
  split; intros e Hin; by specialize (Hf _ (proj1 (list_elem_of_In _ _) Hin)).
Qed.

Lemma sample_frames :
  frames 10 23 (incoming sample_rx) [(10, new_block)] [Byte.x00; Byte.x00; Byte.x00].
Proof.
  refine (frames_blocks 10 23 [(10, new_block)] [Byte.x00; Byte.x00; Byte.x00] _).
  constructor; [|constructor]. split_and!; vm_compute; (reflexivity || discriminate).
Qed.

Lemma server_applies_frames_witness :
  ∃ e s, (sample_run 60).2 = SBroke e s
    ∧ d_content (dest s) = take 10 sample_file ++ new_block ++ drop 20 sample_file.
Proof.
  destruct (conf_broke_inv (sample_run 60).2 EClosed) as [s E]; [vm_compute; reflexivity|].
  destruct (no_bad (sample_run 60).1) as [Hd _]; [vm_compute; reflexivity|].
  exists EClosed, s. split; [exact E|].
  rewrite (server_applies_frames 23 10 23 CRC32 sample_h_ok 60 50 sample_rx sample_tx sample_disk
    sample_hasher_start (sample_run 60).1 EClosed s [(10, new_block)] [Byte.x00; Byte.x00; Byte.x00]).
  - vm_compute. reflexivity.
  - vm_compute. reflexivity.
  - exact sample_hasher_ok.
  - exact (pair_of _ _ E).
  - exact Hd.
  - intros k. discriminate.
  - exact sample_frames.
  - vm_compute. reflexivity.
Defined.

(** The hashes received and the number of bytes sent. *)
Definition conf_sent (c : SampleConf) : option (nat * nat) :=
  (λ s, (length (h_recvd (hasher s)), length (written (client_tx s)))) <$> conf_srv c.


(** In the middle of a block: 2 of its bytes were read. *)
Definition torn_rx : list RdItem :=
  chunk (take 10 (block_frame 10 new_block)) ++ [Stall] ++ chunk (drop 10 (block_frame 10 new_block)).
Abbreviation torn_run n := (server_run n 50 (SRun BDisk
  (server_init 10 23 torn_rx sample_tx sample_disk sample_hasher_start))).
Definition conf_reading (c : SampleConf) : option (N * N * option RB.pc) :=
  (λ s, (RB.buf_offset (rd_block s), RB.offset (rd_block s), rd_pc s)) <$> conf_srv c.

Lemma server_state_wf_witness :
  conf_reading (torn_run 2).2 = Some (10, 10, Some RB.AtPayload)
  ∧ ∃ b s, (torn_run 2).2 = SRun b s ∧ srv_wf 10 23 s.
Proof.
  split; [vm_compute; reflexivity|].
  destruct (conf_runs_inv (torn_run 2).2) as (b & s & E); [vm_compute; reflexivity|].
  exists b, s. split; [exact E|].
  apply (server_state_wf 23 10 23 CRC32 sample_h_ok 2 50 torn_rx sample_tx sample_disk
    sample_hasher_start (torn_run 2).1 b s).
  - vm_compute. reflexivity.
  - exact sample_hasher_ok.
  - exact (pair_of _ _ E).
Defined.

Lemma server_loop_ends_witness :
  ∃ e s, (sample_run 500).2 = SBroke e s ∨ (sample_run 500).2 = SReturned e s.
Proof.
  apply (server_loop_ends 23 10 23 CRC32 sample_h_ok 500 50 sample_rx sample_tx sample_disk
    sample_hasher_start).
  - vm_compute. reflexivity.
  - exact sample_hasher_ok.
  - vm_compute. lia.
  - lia.
  - vm_compute. lia.
Defined.

(** ** A failed write goes unnoticed *)

(** The same run on a disk whose first write fails (it is full). *)
Definition full_disk : Disk Eager := MkDisk sample_file 0 (MkEager [] [EFail (EkOther 28)]).
Definition full_srv : SampleConf :=
  SRun BDisk (server_init 10 23 sample_rx sample_tx full_disk sample_hasher_start).

Definition conf_status (c : SampleConf) : option (Result StatusCode * bytes) :=
  match c with
  | SBroke _ s => let '(r, d) := server_finish s in Some (r, d_content d)
  | _ => None
  end.

