(* ===== verification/Client.v ===== *)
(** The event loop of the client (src/src/client.rs, lines 75-164): a machine
    whose step is the poll of one branch of the [select!], as in Server.v. *)

From stdpp Require Import base option list gmap numbers.
From Stdlib Require Import NArith Lia.
From S2P Require Import Prelude AsyncIO Utf8 Wire Loan Resumable ResumableString.
From S2P Require Import ResumableBlock HashFile OrderedChannel Pipeline PipelineInv HashStream.
From S2P Require Import Hasher.
#[local] Open Scope N_scope.

Module RS := ResumableReadString.
Module WB := ResumableWriteFileBlock.

(** The interval stream of the progress display (tokio): a poll of [next()]
    gives a tick or is pending. *)
Class Timer (T : Type) := t_poll : T → bool * T.

(** A script of answers, then no tick any more. *)
#[global] Instance script_timer : Timer (list bool) := λ t,
  match t with [] => (false, []) | b :: t => (b, t) end.

(** A timer that ticks only finitely often while it is watched: the interval is
    long compared to the other events. *)
Class FairTimer (T : Type) `{!Timer T} := {
  t_ticks : T → nat;
  t_poll_ticks t b t' : t_poll t = (b, t') →
    (t_ticks t' ≤ t_ticks t)%nat ∧ (b = true → (t_ticks t' < t_ticks t)%nat);
}.

#[global] Instance script_timer_fair : FairTimer (list bool).
Proof.
  refine {| t_ticks := length |}. intros [|b t] b' t' E; cbn in E; simplify_eq; cbn; split; lia || done.
Defined.

(** ** State *)

(** The variables of the loop; [rs_pc] and [wb_pc] are where the futures of
    [read_on] and [write_to] of this [select!] are suspended, [recv_polled]
    whether its future of [recv] was polled. *)
Record Cli (R W T H : Type) := MkCli {
  rd_string : RS.t;
  rs_pc : option RS.pc;
  remote_hashes : list bytes;
  remote_hashes_done : bool;
  hash_comparison_over : bool;
  block_idx : N;
  blocks_idx_to_send : list (N * Loan bytes);
  wr_block : option WB.t;
  wb_pc : option WB.pc;
  recv_polled : bool;
  progress_timer : T;
  stream_rx : R;
  stream_tx : W;
  hasher : H;
}.
Arguments MkCli {R W T H}.
Arguments rd_string {R W T H} c.
Arguments rs_pc {R W T H} c.
Arguments remote_hashes {R W T H} c.
Arguments remote_hashes_done {R W T H} c.
Arguments hash_comparison_over {R W T H} c.
Arguments block_idx {R W T H} c.
Arguments blocks_idx_to_send {R W T H} c.
Arguments wr_block {R W T H} c.
Arguments wb_pc {R W T H} c.
Arguments recv_polled {R W T H} c.
Arguments progress_timer {R W T H} c.
Arguments stream_rx {R W T H} c.
Arguments stream_tx {R W T H} c.
Arguments hasher {R W T H} c.

(** The branches of the [select!], in order. *)
Inductive CBranch := BTimer | BSend | BRead | BNext.

Definition next_branch (b : CBranch) : CBranch :=
  match b with BTimer => BSend | BSend => BRead | BRead => BNext | BNext => BTimer end.

(** What a handler was run for. *)
Inductive CEv :=
  | CTick
  | CSent (r : Result ())
  | CHash (remote_hash : bytes)
  | CHashEnd (e : Error)
  | CItem (v : Val)
  | CEnd.

(** The result of a poll: the branch is disabled or pending; it is ready and its
    handler ran; the handler leaves the loop, by [break] or by [?]; the poll does
    not end (a writer that takes nothing). *)
Inductive CPoll (S : Type) :=
  | CPending (s : S)
  | CReady (e : CEv) (s : S)
  | CBreak (e : CEv) (s : S)
  | CReturn (e : Error) (s : S)
  | CSpin.
Arguments CPending {S} s.
Arguments CReady {S} e s.
Arguments CBreak {S} e s.
Arguments CReturn {S} e s.
Arguments CSpin {S}.

(** [(src_size as usize).div_ceil(block_size)] *)
Definition div_ceil (a b : N) : N := if 0 <? a mod b then wadd (a / b) 1 else a / b.

(** [prepare_next_write_block] *)
Definition prepare_next_write_block (block_size : N) (to_send : list (N * Loan bytes))
    (wr : option WB.t) : list (N * Loan bytes) * option WB.t :=
  match wr with
  | Some _ => (to_send, wr)
  | None =>
      match to_send with
      | [] => ([], None)
      | (idx, data) :: l => (l, Some (WB.new (wmul idx block_size) data))
      end
  end.

Section client.
Context {R W T H : Type} `{!AsyncRead R, !AsyncWrite W, !Timer T, !Hasher H}.
Context (block_size end_block_idx : N).
#[local] Abbreviation cli := (Cli R W T H).

(** Lines 75-89: the state before the loop. *)
Definition client_init (t : T) (rx : R) (tx : W) (h : H) : cli :=
  MkCli (RS.new 256) None [] false false 0 [] None None false t rx tx h.

(** The end of a [select!]: its futures are dropped. *)
Definition drop_futures (s : cli) : cli :=
  MkCli (rd_string s) None (remote_hashes s) (remote_hashes_done s) (hash_comparison_over s)
        (block_idx s) (blocks_idx_to_send s) (wr_block s) None false (progress_timer s)
        (stream_rx s) (stream_tx s)
        (if recv_polled s then h_cancel (hasher s) else hasher s).

(** Lines 102-104; the interval never ends. *)
Definition poll_timer (s : cli) : CPoll cli :=
  let '(tick, t) := t_poll (progress_timer s) in
  let s' := MkCli (rd_string s) (rs_pc s) (remote_hashes s) (remote_hashes_done s)
                  (hash_comparison_over s) (block_idx s) (blocks_idx_to_send s) (wr_block s)
                  (wb_pc s) (recv_polled s) t (stream_rx s) (stream_tx s) (hasher s) in
  if tick : bool then CReady CTick (drop_futures s') else CPending s'.

(** Lines 107-115: a block has been written, with any result; it is dropped, and
    the next one is set up. *)
Definition poll_send_block (fuel : nat) (s : cli) : CPoll cli :=
  match wr_block s with
  | None => CPending s
  | Some rwb =>
      let write := match wb_pc s with None => WB.write_to | Some p => WB.resume p end in
      let '(o, rwb', tx) := write fuel rwb (stream_tx s) in
      let s' (to_send : list (N * Loan bytes)) (wr : option WB.t) (pc : option WB.pc)
             (polled : bool) (h : H) :=
        MkCli (rd_string s) (rs_pc s) (remote_hashes s) (remote_hashes_done s)
              (hash_comparison_over s) (block_idx s) to_send wr pc polled (progress_timer s)
              (stream_rx s) tx h in
      match o with
      | Returned r =>
          let h := h_release (WB.buf rwb')
                     (if recv_polled s then h_cancel (hasher s) else hasher s) in
          let to_send := blocks_idx_to_send s in
          if hash_comparison_over s && bool_decide (to_send = [])
          then CBreak (CSent r) (drop_futures (s' to_send None None false h))
          else
            let '(to_send', wr) := prepare_next_write_block block_size to_send None in
            CReady (CSent r) (drop_futures (s' to_send' wr None false h))
      | Suspended p => CPending (s' (blocks_idx_to_send s) (Some rwb') (Some p) (recv_polled s)
                                    (hasher s))
      | OutOfFuel => CSpin
      end
  end.

(** Lines 118-121. *)
Definition poll_read_hash (s : cli) : CPoll cli :=
  if remote_hashes_done s then CPending s
  else
    let read := match rs_pc s with None => RS.read_on | Some p => RS.resume p end in
    let '(o, rs, rx) := read (rd_string s) (stream_rx s) in
    let s' (pc : option RS.pc) (hashes : list bytes) (done : bool) :=
      MkCli rs pc hashes done (hash_comparison_over s) (block_idx s) (blocks_idx_to_send s)
            (wr_block s) (wb_pc s) (recv_polled s) (progress_timer s) rx (stream_tx s)
            (hasher s) in
    match o with
    | Returned (Ok hash) =>
        CReady (CHash hash) (drop_futures (s' None (remote_hashes s ++ [hash]) false))
    | Returned (Err e) => CReady (CHashEnd e) (drop_futures (s' None (remote_hashes s) true))
    | Suspended p => CPending (s' (Some p) (remote_hashes s) false)
    | OutOfFuel => CSpin
    end.

(** Lines 124-138: the block is compared with the hash of the server; queued
    when they differ, dropped when not. *)
Definition poll_next_block (s : cli) : CPoll cli :=
  match remote_hashes s with
  | [] => CPending s
  | remote_hash :: hashes =>
      if hash_comparison_over s then CPending s
      else
        let '(r, h) := h_poll (hasher s) in
        let s' (hashes : list bytes) (over : bool) (idx : N) (to_send : list (N * Loan bytes))
               (wr : option WB.t) (polled : bool) (h : H) :=
          MkCli (rd_string s) (rs_pc s) hashes (remote_hashes_done s) over idx to_send wr
                (wb_pc s) polled (progress_timer s) (stream_rx s) (stream_tx s) h in
        let same (polled : bool) :=
          s' (remote_hashes s) false (block_idx s) (blocks_idx_to_send s) (wr_block s) polled h in
        match r with
        | Ready (Ok (Some v)) =>
            let '(to_send, wr, h') :=
              if bool_decide (hash v.2 ≠ remote_hash)
              then (prepare_next_write_block block_size
                      (blocks_idx_to_send s ++ [(block_idx s, data v.2)]) (wr_block s), h)
              else (blocks_idx_to_send s, wr_block s, h_release (data v.2) h) in
            let idx := wadd (block_idx s) 1 in
            let over := idx =? end_block_idx in
            let s1 := drop_futures (s' hashes over idx to_send wr false h') in
            if over && bool_decide (wr = None) then CBreak (CItem v) s1 else CReady (CItem v) s1
        | Ready (Ok None) => CBreak CEnd (drop_futures (same false))
        | Ready (Err e) => CReturn e (drop_futures (same false))
        | Pending => CPending (same true)
        end
  end.

Definition poll_branch (fuel : nat) (b : CBranch) (s : cli) : CPoll cli :=
  match b with
  | BTimer => poll_timer s
  | BSend => poll_send_block fuel s
  | BRead => poll_read_hash s
  | BNext => poll_next_block s
  end.

(** How far a run is: in the loop, before the poll of a branch; out of it. *)
Inductive CConf :=
  | CRun (b : CBranch) (s : cli)
  | CBroke (s : cli)
  | CReturned (e : Error) (s : cli)
  | CSpins.

(** [else => break] is not reached: the branch of the timer is never disabled. *)
Definition client_step (fuel : nat) (c : CConf) : list CEv * CConf :=
  match c with
  | CRun b s =>
      match poll_branch fuel b s with
      | CPending s' => ([], CRun (next_branch b) s')
      | CReady e s' => ([e], CRun BTimer s')
      | CBreak e s' => ([e], CBroke s')
      | CReturn e s' => ([], CReturned e s')
      | CSpin => ([], CSpins)
      end
  | c => ([], c)
  end.

(** [n] polls of branches. *)
Fixpoint client_run (n fuel : nat) (c : CConf) : list CEv * CConf :=
  match n with
  | O => ([], c)
  | S n' => let '(es, c1) := client_step fuel c in
            let '(es', c2) := client_run n' fuel c1 in (es ++ es', c2)
  end.

(** Line 146, once the loop is over. *)
Definition client_result (c : CConf) : option (Result ()) :=
  match c with
  | CBroke _ => Some (Ok ())
  | CReturned e _ => Some (Err e)
  | _ => None
  end.
End client.

(** ** What the loop is to do *)

(** [l] starts with the strings [ss], followed by [rest]. *)
Definition strings (max : N) : bytes → list bytes → bytes → Prop := parses (parse_string max).

Lemma parse_string_extend max l x rest t :
  parse_string max l = Ok (x, rest) → parse_string max (l ++ t) = Ok (x, rest ++ t).
Proof. intros [-> Hs]%parse_string_ok. rewrite <-(assoc_L (++)). by apply parse_string_frame. Qed.

(** The blocks whose hash is not the server's. *)
Definition differing (items : list Val) (hashes : list bytes) : list Val :=
  omap (λ x : Val * bytes, if bool_decide (hash x.1.2 = x.2) then None else Some x.1)
       (zip items hashes).

Definition item_frame (block_size : N) (v : Val) : bytes :=
  block_frame (v.1 * block_size) (deref (data v.2)).
Definition item_frames (block_size : N) (vs : list Val) : bytes :=
  concat (item_frame block_size <$> vs).

Definition ev_hashes (es : list CEv) : list bytes :=
  omap (λ e, match e with CHash x => Some x | _ => None end) es.
Definition ev_items (es : list CEv) : list Val :=
  omap (λ e, match e with CItem v => Some v | _ => None end) es.

(** No write to the server failed. *)
Definition send_fine (es : list CEv) : Prop := ∀ e, CSent (Err e) ∉ es.

(** ** Lemmas *)

Lemma div_ceil_num_blocks fsz bsz : 0 < bsz → fsz + bsz < W64 →
  div_ceil fsz bsz = num_blocks fsz bsz.
Proof.
  intros Hb Hw. unfold div_ceil, num_blocks.
  pose proof (N.div_mod fsz bsz ltac:(lia)) as E.
  pose proof (N.mod_lt fsz bsz ltac:(lia)) as Hr.
  set (q := fsz / bsz) in *. set (r := fsz mod bsz) in *.
  assert (q ≤ fsz) by nia. destruct (N.ltb_spec 0 r) as [H0|H0].
  - rewrite wadd_small by nia. apply (N.div_unique _ _ _ (r - 1)); nia.
  - apply (N.div_unique _ _ _ (bsz - 1)); nia.
Qed.

Lemma num_blocks_in fsz bsz k : 0 < bsz → k < num_blocks fsz bsz → k * bsz < fsz.
Proof.
  intros Hb Hk. unfold num_blocks in Hk.
  pose proof (N.Div0.mul_div_le (fsz + bsz - 1) bsz) as E.
  assert (bsz * (k + 1) ≤ bsz * ((fsz + bsz - 1) / bsz)) by (apply N.mul_le_mono_l; lia). lia.
Qed.

Lemma differing_snoc items v hs h rest : length items = length hs →
  differing (items ++ [v]) (hs ++ h :: rest)
  = differing items (hs ++ h :: rest) ++ (if bool_decide (hash v.2 = h) then [] else [v]).
Proof.
  intros Hl. unfold differing.
  rewrite (zip_with_app _ items [v] hs (h :: rest)) by done. rewrite omap_app. f_equal.
  - rewrite <-(right_id_L [] (++) items) at 2. rewrite (zip_with_app _ items [] hs) by done.
    cbn. by rewrite (right_id_L [] (++)).
  - cbn. destruct rest; by case_bool_decide.
Qed.

(** Hashes that have no block yet change nothing. *)
Lemma differing_more items hs rest : (length items ≤ length hs)%nat →
  differing items (hs ++ rest) = differing items hs.
Proof.
  intros Hl. unfold differing. f_equal. revert hs Hl.
  induction items as [|v items IH]; intros [|h hs] Hl; cbn in *; try done; [lia|].
  f_equal. apply IH. lia.
Qed.

Lemma item_frames_app bsz vs1 vs2 :
  item_frames bsz (vs1 ++ vs2) = item_frames bsz vs1 ++ item_frames bsz vs2.
Proof. unfold item_frames. by rewrite fmap_app, concat_app. Qed.

(** The future of a suspended write, polled again, goes on as a new call. *)
Definition wb_at (p : WB.pc) (w : WB.t) : Prop :=
  WB.step w = match p with WB.AtOffset => 1 | WB.AtPayload => 2 end.

Lemma wb_resume {W} `{!AsyncWrite W} p fuel w (tx : W) :
  wb_at p w → WB.write_to fuel w tx = WB.resume p fuel w tx.
Proof.
  unfold wb_at. intros Hs. unfold WB.write_to, WB.init_step.
  by destruct p; cbn; rewrite Hs; cbn; rewrite Hs.
Qed.

Lemma wb_polled_again {W} `{!AsyncWrite W} op fuel w (tx : W) : (∀ p, op = Some p → wb_at p w) →
  match op with None => WB.write_to | Some p => WB.resume p end fuel w tx = WB.write_to fuel w tx.
Proof. intros Hp. destruct op as [p|]; [|done]. symmetry. by apply wb_resume, Hp. Qed.

Definition queue_frames (bsz : N) (l : list (N * Loan bytes)) : bytes :=
  concat ((λ x : N * Loan bytes, block_frame (wmul x.1 bsz) (deref x.2)) <$> l).

(** The bytes still to send. *)
Definition to_write (bsz : N) (l : list (N * Loan bytes)) (w : option WB.t) : bytes :=
  match w with Some w => WB.remaining w | None => [] end ++ queue_frames bsz l.

#[global] Arguments to_write : simpl never.
#[global] Arguments item_frames : simpl never.

(** A block being written, those that wait: their sizes; nothing waits while no
    block is being written. *)
Definition wr_ok (bsz : N) (l : list (N * Loan bytes)) (w : option WB.t) : Prop :=
  match w with
  | Some w => WB.wf w ∧ WB.step w ≤ 2 ∧ lenN (deref (WB.buf w)) ≤ bsz
  | None => l = []
  end.

Definition queue_ok (bsz : N) (l : list (N * Loan bytes)) : Prop :=
  Forall (λ x : N * Loan bytes, lenN (deref x.2) ≤ bsz) l.

Lemma prepare_ok bsz l w l' w' : bsz < W64 →
  prepare_next_write_block bsz l w = (l', w') →
  queue_ok bsz l → match w with Some _ => wr_ok bsz l w | None => True end →
  queue_ok bsz l' ∧ wr_ok bsz l' w' ∧ to_write bsz l' w' = to_write bsz l w.
Proof.
  intros Hb. unfold prepare_next_write_block. destruct w as [w|]; [by intros; simplify_eq|].
  destruct l as [|[idx data] l]; intros E Hq _; simplify_eq; [done|].
  inversion Hq as [|? ? Hd Hq']; subst. cbn in Hd. split; [done|]. split; [|done].
  split; [apply WB.block_new_wf; lia|]. split; [|done]. cbn. lia.
Qed.

Section invariant.
Context {R W T H : Type} `{!AsyncRead R, !AsyncReadLaws R, !AsyncWrite W, !AsyncWriteLaws W}.
Context `{!Timer T} {Hh : Hasher H} {Hg : Hashing} {Hgl : HashingLaws}.
Context {bsz fsz : N} {algorithm : HashAlgorithm} {h_ok : H → Prop}.
Context {Hlaws : HasherLaws H fsz bsz algorithm h_ok}.
Context (Hb : 0 < bsz) (Hbsz : fsz + bsz < W64).
(** The bytes of the server, the bytes sent to it, before the loop. *)
Context {total sent0 : bytes}.
#[local] Abbreviation cli := (Cli R W T H).
#[local] Abbreviation nb := (num_blocks fsz bsz).
Implicit Types s : cli.

(** The items received, whole and in order. *)
Definition items_ok s (vs : list Val) : Prop :=
  ∀ n v, vs !! n = Some v →
    item_ok fsz bsz algorithm (h_contents (hasher s)) (N.of_nat n) v.

(** The hashes are over: the connection failed, or what follows the hashes
    received is not a hash. *)
Definition hashes_over (es : list CEv) : Prop :=
  (∃ k, CHashEnd (EIo k) ∈ es)
  ∨ ∃ rest e, strings 256 total (ev_hashes es) rest ∧ parse_string 256 rest = Err e.

Record cli_inv (es : list CEv) s : Prop := {
  ci_read : ∃ rest, strings 256 total (ev_hashes es) rest
    ∧ (remote_hashes_done s = false → ∃ c, rest = c ++ incoming (stream_rx s)
         ∧ RS.holds (rd_string s) c);
  ci_done : remote_hashes_done s = true → hashes_over es;
  ci_max : RS.max_len (rd_string s) = 256;
  ci_rs p : rs_pc s = Some p → RS.at_pc p (rd_string s);
  ci_hashes : ∃ hs, ev_hashes es = hs ++ remote_hashes s ∧ length hs = length (ev_items es);
  ci_idx : block_idx s = lenN (ev_items es);
  ci_over : if hash_comparison_over s then block_idx s = nb ∧ is_Some (wr_block s)
            else block_idx s < nb;
  ci_queue : queue_ok bsz (blocks_idx_to_send s);
  ci_wr : wr_ok bsz (blocks_idx_to_send s) (wr_block s);
  ci_wb p w : wb_pc s = Some p → wr_block s = Some w → wb_at p w;
  ci_sent : send_fine es →
    written (stream_tx s) ++ to_write bsz (blocks_idx_to_send s) (wr_block s)
    = sent0 ++ item_frames bsz (differing (ev_items es) (ev_hashes es));
  ci_ok : h_ok (hasher s);
  ci_recvd : h_recvd (hasher s) = ev_items es;
  ci_items : items_ok s (ev_items es);
}.

(** When the loop is left by [break]: all was compared and sent, or the hashing
    of the file failed. *)
Record cli_broke (es : list CEv) s : Prop := {
  cb_read : ∃ rest, strings 256 total (ev_hashes es) rest;
  cb_recvd : h_recvd (hasher s) = ev_items es;
  cb_items : items_ok s (ev_items es);
  cb_ok : h_ok (hasher s);
  cb_end : h_failed (hasher s) = true
    ∨ lenN (ev_items es) = nb ∧ (length (ev_items es) ≤ length (ev_hashes es))%nat
      ∧ (send_fine es → written (stream_tx s)
           = sent0 ++ item_frames bsz (differing (ev_items es) (ev_hashes es)));
}.

Definition cconf_inv (es : list CEv) (c : CConf (R:=R) (W:=W) (T:=T) (H:=H)) : Prop :=
  match c with
  | CRun _ s => cli_inv es s
  | CBroke s => cli_broke es s
  | CReturned _ _ | CSpins => True
  end.

Lemma send_fine_app es es' : send_fine (es ++ es') ↔ send_fine es ∧ send_fine es'.
Proof.
  unfold send_fine. setoid_rewrite elem_of_app. split.
  - intros Hf. split; intros e Hin; apply (Hf e); tauto.
  - intros [H1 H2] e [Hin|Hin]; [by apply (H1 e)|by apply (H2 e)].
Qed.

Lemma client_hashes_app es es' : ev_hashes (es ++ es') = ev_hashes es ++ ev_hashes es'.
Proof. unfold ev_hashes. apply omap_app. Qed.
Lemma client_items_app es es' : ev_items (es ++ es') = ev_items es ++ ev_items es'.
Proof. unfold ev_items. apply omap_app. Qed.

Lemma hashes_over_app es e : (∀ x, e ≠ CHash x) → hashes_over es → hashes_over (es ++ [e]).
Proof.
  intros He [[k Hk]|Ho]; [left; exists k; rewrite elem_of_app; by left|right].
  rewrite client_hashes_app. destruct e; cbn; rewrite ?(right_id_L [] (++)); try done.
  by destruct (He remote_hash).
Qed.

(** The hasher after the [select!] and after a block is dropped. *)
Definition same_hasher (h h' : H) : Prop :=
  h_ok h' ∧ h_recvd h' = h_recvd h ∧ h_contents h' = h_contents h.

Lemma same_hasher_cancel (b : bool) h : h_ok h → same_hasher h (if b then h_cancel h else h).
Proof. intros Hk. destruct b; [by apply h_cancel_ok|done]. Qed.

Lemma same_hasher_release l h h' : same_hasher h h' → same_hasher h (h_release l h').
Proof.
  intros (H1 & H2 & H3). destruct (h_release_ok (h_ok:=h_ok) l h' H1) as (R1 & R2 & R3).
  split; [done|]. by rewrite R2, R3.
Qed.

Lemma client_drop_futures_inv es s : cli_inv es s → cli_inv es (drop_futures s).
Proof.
  intros [S1 S0 S2 S3 S4 S5 S6 S7 S8 S9 S10 S11 S12 S13].
  destruct (same_hasher_cancel (recv_polled s) _ S11) as (C1 & C2 & C3).
  split; cbn; try done; [congruence|]. unfold items_ok in *. cbn. by rewrite C3.
Qed.

Lemma poll_timer_inv es s : cli_inv es s →
  match poll_timer s with
  | CPending s' => cli_inv es s'
  | CReady e s' => cli_inv (es ++ [e]) s'
  | _ => False
  end.
Proof.
  intros [S1 S0 S2 S3 S4 S5 S6 S7 S8 S9 S10 S11 S12 S13]. unfold poll_timer.
  destruct (t_poll (progress_timer s)) as [[] t]; [|by split].
  apply client_drop_futures_inv. split; cbn; rewrite ?client_hashes_app, ?client_items_app; cbn;
    rewrite ?(right_id_L [] (++)); try done.
  - intros Hd. apply hashes_over_app; auto.
  - intros [Hf _]%send_fine_app. by apply S10.
Qed.

Lemma poll_read_hash_inv es s : cli_inv es s →
  match poll_read_hash s with
  | CPending s' => cli_inv es s'
  | CReady e s' => cli_inv (es ++ [e]) s'
  | _ => False
  end.
Proof.
  intros Hi. pose proof Hi as [S1 S0 S2 S3 S4 S5 S6 S7 S8 S9 S10 S11 S12 S13]. unfold poll_read_hash.
  destruct (remote_hashes_done s) eqn:Hd; [done|].
  destruct S1 as (rest & Hst & Hc). destruct (Hc eq_refl) as (c & -> & Hho). clear Hc.
  rewrite (RS.polled_again _ _ _ S3).
  pose proof (RS.read_on_answers (rd_string s) c (stream_rx s) Hho) as Ha.
  rewrite S2 in Ha. specialize (Ha eq_refl).
  destruct (RS.read_on _ _) as [[o rs] rx]. destruct Ha as (Hm & Ha).
  destruct o as [[x|e]|p|]; [..|done].
  - destruct Ha as [Hp ->]. apply client_drop_futures_inv.
    destruct S4 as (hs & Hhs & Hl). pose proof (f_equal length Hhs) as Hlen.
    split; cbn; rewrite ?client_hashes_app, ?client_items_app; cbn;
      rewrite ?(right_id_L [] (++)); try done.
    + exists (incoming rx). split; [by eapply parses_snoc|]. intros _. exists [].
      split; [done|apply RS.holds_new].
    + exists hs. by rewrite Hhs, <-(assoc_L (++)).
    + intros [Hf _]%send_fine_app. rewrite differing_more; [by apply S10|]. len_lia.
  - apply client_drop_futures_inv. split; cbn; rewrite ?client_hashes_app, ?client_items_app; cbn;
      rewrite ?(right_id_L [] (++)); try done.
    + by eexists.
    + intros _. assert ((∃ k, e = EIo k) ∨ parse_string 256 (c ++ incoming (stream_rx s)) = Err e)
        as [[k ->]|Hp] by (destruct e; eauto).
      { left. exists k. apply elem_of_app. right. by left. }
      right. eexists _, e. rewrite client_hashes_app. cbn. by rewrite (right_id_L [] (++)).
    + intros [Hf _]%send_fine_app. by apply S10.
  - destruct Ha as (c' & Ec & Hho' & Hpc). split; cbn; try done.
    + eexists. split; [done|]. intros _. by exists c'.
    + intros p' ?. by simplify_eq.
Qed.
Lemma poll_send_block_inv fuel es s : cli_inv es s →
  match poll_send_block bsz fuel s with
  | CPending s' => cli_inv es s'
  | CReady e s' => cli_inv (es ++ [e]) s'
  | CBreak e s' => cli_broke (es ++ [e]) s'
  | CReturn _ _ => False
  | CSpin => True
  end.
Proof.
  intros Hi. pose proof Hi as [S1 S0 S2 S3 S4 S5 S6 S7 S8 S9 S10 S11 S12 S13]. unfold poll_send_block.
  destruct (wr_block s) as [w|] eqn:Hw; [|done].
  rewrite (wb_polled_again _ _ _ _ (λ p E, S9 p w E eq_refl)).
  destruct S8 as (Hwf & Hst & Hle).
  pose proof (WB.block_write_to_sends fuel w (stream_tx s) Hwf Hst) as Hs.
  destruct (WB.write_to fuel w (stream_tx s)) as [[o w'] tx]. destruct Hs as (W1 & W2 & _ & W4 & W5).
  destruct o as [r|p|]; [| |done].
  - set (h := h_release (WB.buf w') (if recv_polled s then h_cancel (hasher s) else hasher s)).
    destruct (same_hasher_release (WB.buf w') _ _ (same_hasher_cancel (recv_polled s) _ S11))
      as (C1 & C2 & C3).
    assert (send_fine (es ++ [CSent r]) →
      written tx ++ queue_frames bsz (blocks_idx_to_send s)
      = sent0 ++ item_frames bsz (differing (ev_items es) (ev_hashes es))) as Hsent.
    { intros [Hf Hr]%send_fine_app. rewrite <-S10 by done. unfold to_write.
      rewrite !(assoc_L (++)), <-W4. destruct r as [[]|e]; [|by destruct (Hr e); left].
      by rewrite W5, (right_id_L [] (++)). }
    assert (items_ok s (ev_items es) →
      ∀ t : cli, hasher t = h → items_ok t (ev_items es)) as Hit.
    { intros Hit t Ht. unfold items_ok. rewrite Ht. unfold h. by rewrite C3. }
    destruct (hash_comparison_over s && bool_decide (blocks_idx_to_send s = [])) eqn:Hover.
    + apply andb_true_iff in Hover as [Ho Hq]. apply bool_decide_eq_true in Hq.
      rewrite Ho in S6. destruct S6 as [S6 _]. destruct S4 as (hs & Hhs & Hl).
      destruct S1 as (rest & S1 & _).
      split; cbn; rewrite ?client_hashes_app, ?client_items_app; cbn; rewrite ?(right_id_L [] (++)).
      * by exists rest.
      * exact (eq_trans C2 S12).
      * by apply Hit.
      * done.
      * right. split; [congruence|]. split; [rewrite Hhs; len_lia|].
        intros Hf. rewrite <-Hsent, Hq by done. cbn. by rewrite (right_id_L [] (++)).
    + destruct (prepare_next_write_block bsz (blocks_idx_to_send s) None) as [l' wr'] eqn:Hp.
      pose proof Hp as Hp'. apply prepare_ok in Hp' as (P1 & P2 & P3); [|lia|done..].
      apply client_drop_futures_inv.
      split; cbn; rewrite ?client_hashes_app, ?client_items_app; cbn;
        rewrite ?(right_id_L [] (++)); try done.
      * intros Hd. apply hashes_over_app; auto.
      * destruct (hash_comparison_over s); [|done]. destruct S6 as [S6 _]. split; [done|].
        cbn in Hover. apply bool_decide_eq_false in Hover. cbn in Hp.
        destruct (blocks_idx_to_send s) as [|[idx data] l]; [done|]. simplify_eq. by eexists.
      * intros Hf. rewrite P3. by apply Hsent.
      * exact (eq_trans C2 S12).
      * by apply Hit.
  - split; cbn; try done.
    + destruct (hash_comparison_over s); [|done]. split; [apply S6|by eexists].
    + split; [done|]. split; [destruct p; lia|by rewrite W2].
    + intros p' w0 ? ?. simplify_eq. unfold wb_at. by destruct p'.
    + intros Hf. rewrite <-S10 by done. unfold to_write. by rewrite !(assoc_L (++)), W4.
Qed.
(** A block compared with its hash: queued, or its loan dropped. *)
Lemma compared_queue s v h' hash0 to_send wr h2 :
  (if bool_decide (hash v.2 ≠ hash0)
   then (prepare_next_write_block bsz
           (blocks_idx_to_send s ++ [(block_idx s, data v.2)]) (wr_block s), h')
   else (blocks_idx_to_send s, wr_block s, h_release (data v.2) h')) = (to_send, wr, h2) →
  h_ok h' → queue_ok bsz (blocks_idx_to_send s) → wr_ok bsz (blocks_idx_to_send s) (wr_block s) →
  v.1 = block_idx s → block_idx s * bsz < fsz → lenN (deref (data v.2)) ≤ bsz →
  same_hasher h' h2 ∧ queue_ok bsz to_send ∧ wr_ok bsz to_send wr
  ∧ to_write bsz to_send wr
    = to_write bsz (blocks_idx_to_send s) (wr_block s)
      ++ item_frames bsz (if bool_decide (hash v.2 = hash0) then [] else [v]).
Proof.
  intros Ecmp Hok Hq Hw I1 Hin I4.
  assert (queue_ok bsz (blocks_idx_to_send s ++ [(block_idx s, data v.2)])) as Hq'.
  { apply Forall_app. split; [done|]. by constructor. }
  assert (match wr_block s with
    | Some _ => wr_ok bsz (blocks_idx_to_send s ++ [(block_idx s, data v.2)]) (wr_block s)
    | None => True end) as Hw' by (by destruct (wr_block s)).
  case_bool_decide as Hne.
  - injection Ecmp as Ep <-. destruct (prepare_ok bsz _ _ _ _ ltac:(lia) Ep Hq' Hw') as (P1 & P2 & P3).
    split_and!; try done. rewrite P3, bool_decide_false by done.
    unfold to_write, queue_frames, item_frames, item_frame. rewrite fmap_app, concat_app, (assoc_L (++)).
    f_equal. cbn. rewrite (wmul_small (block_idx s)) by lia. by rewrite I1.
  - assert (hash v.2 = hash0) as He by (destruct (decide (hash v.2 = hash0)); [done|tauto]).
    simplify_eq. split; [by apply same_hasher_release|]. split_and!; try done.
    rewrite bool_decide_true by done. unfold item_frames; cbn. by rewrite (right_id_L [] (++)).
Qed.

(** One more item, of a stream that has read no less. *)
Lemma items_ok_snoc s t vs v : items_ok s vs →
  h_contents (hasher s) ⊆ h_contents (hasher t) →
  item_ok fsz bsz algorithm (h_contents (hasher t)) (lenN vs) v → items_ok t (vs ++ [v]).
Proof.
  intros Hs Hsub Hv n x Hx. apply lookup_app_Some in Hx as [Hx|[Hge Hx]].
  - destruct (Hs n x Hx) as (J1 & J2 & J3 & J4 & f & J5 & J6).
    split_and!; try done. exists f. split; [set_solver|done].
  - apply list_lookup_singleton_Some in Hx as [Hn <-].
    replace (N.of_nat n) with (lenN vs) by (unfold lenN; lia). exact Hv.
Qed.

Lemma compared_inv es s v h' hash0 hashes to_send wr h2 over :
  cli_inv es s → remote_hashes s = hash0 :: hashes → hash_comparison_over s = false →
  h_poll (hasher s) = (Ready (Ok (Some v)), h') →
  (if bool_decide (hash v.2 ≠ hash0)
   then (prepare_next_write_block bsz
           (blocks_idx_to_send s ++ [(block_idx s, data v.2)]) (wr_block s), h')
   else (blocks_idx_to_send s, wr_block s, h_release (data v.2) h')) = (to_send, wr, h2) →
  over = (wadd (block_idx s) 1 =? nb) →
  let s' := drop_futures (MkCli (rd_string s) (rs_pc s) hashes (remote_hashes_done s) over
    (wadd (block_idx s) 1) to_send wr (wb_pc s) false (progress_timer s) (stream_rx s)
    (stream_tx s) h2) in
  if over && bool_decide (wr = None) then cli_broke (es ++ [CItem v]) s'
  else cli_inv (es ++ [CItem v]) s'.
Proof.
  intros [S1 S0 S2 S3 S4 S5 S6 S7 S8 S9 S10 S11 S12 S13] Hr Ho E Ecmp Eov s'. rewrite Ho in S6.
  destruct (h_poll_ok (h_ok:=h_ok) _ _ _ S11 E) as [Hok Hcon].
  destruct (h_poll_item (h_ok:=h_ok) _ _ _ S11 E) as [Hrec Hitem]. rewrite S12 in Hrec, Hitem.
  pose proof Hitem as (I1 & I2 & _ & I4 & _). rewrite <-S5 in I1, I2.
  assert (block_idx s * bsz < fsz) as Hin by (by apply num_blocks_in).
  assert (block_idx s ≤ block_idx s * bsz) as Hle.
  { rewrite <-(N.mul_1_r (block_idx s)) at 1. apply N.mul_le_mono_l. lia. }
  assert (wadd (block_idx s) 1 = block_idx s + 1) as Ew by (apply wadd_small; lia).
  destruct S4 as (hs & Hhs & Hl). rewrite Hr in Hhs.
  destruct (compared_queue s v h' hash0 to_send wr h2 Ecmp) as ((C1 & C2 & C3) & Q & Wk & Tw); try done.
  { rewrite I4. unfold block_len. lia. }
  assert (items_ok s' (ev_items es ++ [v])) as Hit
    by (apply (items_ok_snoc s); unfold s'; cbn; by rewrite ?C3).
  assert (send_fine (es ++ [CItem v]) → written (stream_tx s) ++ to_write bsz to_send wr
    = sent0 ++ item_frames bsz (differing (ev_items es ++ [v]) (ev_hashes es))) as Hsent.
  { intros [Hf _]%send_fine_app. rewrite Tw, Hhs, differing_snoc by done.
    rewrite <-Hhs, item_frames_app, !(assoc_L (++)). by rewrite S10. }
  assert (lenN (ev_items es ++ [v]) = block_idx s + 1) as Hlen by (unfold lenN in *; len_lia).
  assert (over = true → block_idx s + 1 = nb) as Hover.
  { intros ->. symmetry in Eov. apply N.eqb_eq in Eov. lia. }
  destruct (over && bool_decide (wr = None)) eqn:Hbr.
  - apply andb_true_iff in Hbr as [-> Hn]. apply bool_decide_eq_true in Hn. subst wr.
    destruct S1 as (rest & S1 & _).
    split; unfold s'; cbn; rewrite ?client_hashes_app, ?client_items_app; cbn; rewrite ?(right_id_L [] (++)).
    + by exists rest.
    + by rewrite C2, Hrec.
    + exact Hit.
    + done.
    + right. rewrite Hlen. split; [auto|]. split; [rewrite Hhs; len_lia|].
      intros Hf. rewrite <-Hsent by done. unfold wr_ok in Wk. subst to_send.
      unfold to_write. cbn. by rewrite (right_id_L [] (++)).
  - split; unfold s'; cbn; rewrite ?client_hashes_app, ?client_items_app; cbn;
      rewrite ?(right_id_L [] (++)); try done.
    + intros Hd. apply hashes_over_app; auto.
    + exists (hs ++ [hash0]). split; [by rewrite Hhs, <-(assoc_L (++))|len_lia].
    + by rewrite Ew, Hlen.
    + rewrite Ew. destruct over.
      * split; [auto|]. cbn in Hbr. apply bool_decide_eq_false in Hbr. by destruct wr.
      * symmetry in Eov. apply N.eqb_neq in Eov. lia.
    + by rewrite C2, Hrec.
Qed.

Lemma poll_next_block_inv es s : cli_inv es s →
  match poll_next_block bsz nb s with
  | CPending s' => cli_inv es s'
  | CReady e s' => cli_inv (es ++ [e]) s'
  | CBreak e s' => cli_broke (es ++ [e]) s'
  | CReturn _ _ => True
  | CSpin => False
  end.
Proof.
  intros Hi. pose proof Hi as [S1 S0 S2 S3 S4 S5 S6 S7 S8 S9 S10 S11 S12 S13]. unfold poll_next_block.
  destruct (remote_hashes s) as [|hash0 hashes] eqn:Hr; [done|].
  destruct (hash_comparison_over s) eqn:Ho; [done|].
  destruct (h_poll (hasher s)) as [r h'] eqn:E.
  destruct (h_poll_ok (h_ok:=h_ok) _ _ _ S11 E) as [Hok Hcon].
  assert (∀ s', h_contents h' = h_contents (hasher s') → items_ok s' (ev_items es)) as Hit.
  { intros s' Es n x Hx. rewrite <-Es. destruct (S13 n x Hx) as (J1 & J2 & J3 & J4 & f & J5 & J6).
    split_and!; try done. exists f. split; [set_solver|done]. }
  destruct r as [[[v|]|e]|].
  - destruct (if bool_decide _ then _ else _) as [[to_send wr] h2] eqn:Ecmp.
    pose proof (compared_inv es s v h' hash0 hashes to_send wr h2 _ Hi Hr Ho E Ecmp eq_refl) as Hc.
    cbv zeta in Hc. by destruct (_ && bool_decide (wr = None)).
  - destruct (h_poll_end (h_ok:=h_ok) _ _ S11 E) as [Hrec Hend]. destruct S1 as (rest & S1 & _).
    split; cbn; rewrite ?client_hashes_app, ?client_items_app; cbn; rewrite ?(right_id_L [] (++)).
    + by exists rest.
    + congruence.
    + by apply Hit.
    + done.
    + left. destruct Hend as [Hend|Hend]; [done|]. rewrite S12, <-S5 in Hend. lia.
  - done.
  - pose proof (h_poll_pending (h_ok:=h_ok) _ _ S11 E) as Hrec. split; cbn; try done.
    + congruence.
    + by apply Hit.
Qed.
Lemma client_step_inv fuel es c es' c' :
  cconf_inv es c → client_step bsz nb fuel c = (es', c') → cconf_inv (es ++ es') c'.
Proof.
  unfold client_step. destruct c as [b s|s|e s|];
    [|intros Hi E; simplify_eq; by rewrite (right_id_L [] (++))..].
  intros Hi. assert (match poll_branch bsz nb fuel b s with
    | CPending s' => cli_inv es s'
    | CReady e s' => cli_inv (es ++ [e]) s'
    | CBreak e s' => cli_broke (es ++ [e]) s'
    | CReturn _ _ | CSpin => True end) as Hp.
  { destruct b; cbn [poll_branch].
    - pose proof (poll_timer_inv es s Hi). by destruct (poll_timer s).
    - pose proof (poll_send_block_inv fuel es s Hi). by destruct (poll_send_block bsz fuel s).
    - pose proof (poll_read_hash_inv es s Hi). by destruct (poll_read_hash s).
    - pose proof (poll_next_block_inv es s Hi). by destruct (poll_next_block bsz nb s). }
  destruct (poll_branch bsz nb fuel b s); intros; simplify_eq; cbn [cconf_inv];
    by rewrite ?(right_id_L [] (++)).
Qed.

Lemma client_run_inv n fuel es c es' c' :
  cconf_inv es c → client_run bsz nb n fuel c = (es', c') → cconf_inv (es ++ es') c'.
Proof.
  revert es c es'. induction n as [|n IH]; intros es c es' Hi; cbn [client_run].
  - intros; simplify_eq. by rewrite (right_id_L [] (++)).
  - destruct (client_step bsz nb fuel c) as [es1 c1] eqn:E1.
    destruct (client_run bsz nb n fuel c1) as [es2 c2] eqn:E2. intros; simplify_eq.
    rewrite (assoc_L (++)). eapply IH; [|exact E2]. by eapply client_step_inv.
Qed.

(** *** The blocks the client holds: the one being written, those that wait *)

Definition client_loans s : list (Loan bytes) :=
  match wr_block s with Some w => [WB.buf w] | None => [] end ++ (blocks_idx_to_send s).*2.

(** The hash stream waits for no others. *)
Definition loans_kept s : Prop := h_loans (hasher s) ⊆+ client_loans s.

Lemma prepare_loans l l' w w' : prepare_next_write_block bsz l w = (l', w') →
  match w' with Some w => [WB.buf w] | None => [] end ++ l'.*2
  = match w with Some w => [WB.buf w] | None => [] end ++ l.*2.
Proof.
  unfold prepare_next_write_block. destruct w as [w|]; [by intros; simplify_eq|].
  destruct l as [|[idx d] l]; intros; by simplify_eq.
Qed.

Lemma cancel_loans (b : bool) h : h_ok h → h_loans (if b then h_cancel h else h) ⊆+ h_loans h.
Proof. intros Hk. destruct b; [by apply (h_cancel_loans (h_ok:=h_ok))|done]. Qed.

Lemma drop_futures_loans s : h_ok (hasher s) → loans_kept s → loans_kept (drop_futures s).
Proof. intros Hk Hl. unfold loans_kept. etrans; [by apply cancel_loans|exact Hl]. Qed.

Lemma send_block_loans fuel es s : cli_inv es s → loans_kept s →
  match poll_send_block bsz fuel s with CPending s' | CReady _ s' => loans_kept s' | _ => True end.
Proof.
  intros [S1 S0 S2 S3 S4 S5 S6 S7 S8 S9 S10 S11 S12 S13] Hl. unfold poll_send_block.
  unfold loans_kept, client_loans in Hl.
  destruct (wr_block s) as [w|] eqn:Hw; [|unfold loans_kept, client_loans; by rewrite Hw].
  rewrite (wb_polled_again _ _ _ _ (λ p E, S9 p w E eq_refl)).
  destruct S8 as (Hwf & Hst & _). pose proof (WB.block_write_to_sends fuel w (stream_tx s) Hwf Hst) as Hs.
  destruct (WB.write_to fuel w (stream_tx s)) as [[o w'] tx]. destruct Hs as (_ & W2 & _).
  destruct o as [r|p|]; [| |done].
  - destruct (_ && _); [done|].
    destruct (prepare_next_write_block bsz (blocks_idx_to_send s) None) as [l' wr'] eqn:Hp.
    pose proof (same_hasher_cancel (recv_polled s) _ S11) as Hc.
    apply drop_futures_loans; [by apply (same_hasher_release _ _ _ Hc)|].
    unfold loans_kept, client_loans. cbn. rewrite (prepare_loans _ _ _ _ Hp). cbn.
    apply (h_release_loans (h_ok:=h_ok)); [apply Hc|]. rewrite W2.
    etrans; [by apply cancel_loans|exact Hl].
  - unfold loans_kept, client_loans. cbn. by rewrite W2.
Qed.

Lemma next_block_loans es s : cli_inv es s → loans_kept s →
  match poll_next_block bsz nb s with CPending s' | CReady _ s' => loans_kept s' | _ => True end.
Proof.
  intros Hi Hl. pose proof (ci_ok _ _ Hi) as Hk. unfold poll_next_block.
  destruct (remote_hashes s) as [|hash0 hashes]; [done|].
  destruct (hash_comparison_over s); [done|].
  destruct (h_poll (hasher s)) as [r h'] eqn:E.
  pose proof (h_poll_loans (h_ok:=h_ok) _ _ _ Hk E) as Hlp.
  pose proof (h_poll_ok (h_ok:=h_ok) _ _ _ Hk E) as [Hk' _].
  destruct r as [[[v|]|e]|]; [|done|done|unfold loans_kept; cbn; etrans; [exact Hlp|exact Hl] ].
  destruct (if bool_decide _ then _ else _) as [[to_send wr] h2] eqn:Ecmp.
  assert (h_ok h2 ∧ h_loans h2
    ⊆+ match wr with Some w => [WB.buf w] | None => [] end ++ to_send.*2) as [Hk2 Hl2].
  { case_bool_decide.
    - injection Ecmp as Ep <-. split; [done|]. rewrite (prepare_loans _ _ _ _ Ep), fmap_app, (assoc_L (++)).
      cbn. rewrite (comm (++) _ [data v.2]). etrans; [exact Hlp|]. by apply submseteq_skips_l.
    - simplify_eq. split; [by apply (h_release_ok (h_ok:=h_ok))|].
      apply (h_release_loans (h_ok:=h_ok)); [done|]. etrans; [exact Hlp|]. by apply submseteq_skip. }
  destruct (_ && bool_decide (wr = None)); [done|]. by apply drop_futures_loans.
Qed.

Lemma poll_branch_loans fuel es b s : cli_inv es s → loans_kept s →
  match poll_branch bsz nb fuel b s with CPending s' | CReady _ s' => loans_kept s' | _ => True end.
Proof.
  intros Hi Hl. pose proof (ci_ok _ _ Hi) as Hk. destruct b; cbn [poll_branch].
  - unfold poll_timer. destruct (t_poll (progress_timer s)) as [[] t]; [|done].
    by apply drop_futures_loans.
  - by apply (send_block_loans _ es).
  - unfold poll_read_hash. destruct (remote_hashes_done s); [done|].
    destruct (_ (rd_string s) (stream_rx s)) as [[o rs] rx].
    destruct o as [[x|e]|p|]; [..|done]; [by apply drop_futures_loans..|done].
  - by apply (next_block_loans es).
Qed.

(** ** The loop ends *)

Section termination.
Context `{!FairWrite W, !WriteProgress W, !FairTimer T, !FairHasher H h_ok}.
Context (fuel : nat) (Hfuel : (8 ≤ fuel)%nat) (Hfuel' : (N.to_nat bsz ≤ fuel)%nat).

Definition opt_count {A} (o : option A) : nat := match o with Some _ => 1 | None => 0 end.

(** What is left, given what a connection is worth: to read, the stalls of the
    objects, the ticks, the blocks to compare, the blocks to send. *)
Definition credit (rc : R → nat) s : nat :=
  ((if remote_hashes_done s then 0 else S (rc (stream_rx s)))
   + wstalls (stream_tx s) + h_stalls (hasher s) + t_ticks (progress_timer s)
   + 2 * N.to_nat (nb - block_idx s) + length (blocks_idx_to_send s)
   + opt_count (wr_block s))%nat.

(** The branches whose poll changes something, even when it is pending; that of
    the blocks may wait for the blocks to be sent. *)
Definition enabled (b : CBranch) s : bool :=
  match b with
  | BTimer => false
  | BSend => match wr_block s with Some _ => true | None => false end
  | BRead => negb (remote_hashes_done s)
  | BNext => match remote_hashes s, wr_block s with
             | _ :: _, None => negb (hash_comparison_over s)
             | _, _ => false
             end
  end.

(** A poll brings the end nearer, or leaves all but the timer as it is. *)
Definition advances (rc : R → nat) b s (r : CPoll cli) : Prop :=
  match r with
  | CPending s' => (credit rc s' < credit rc s)%nat
      ∨ enabled b s = false ∧ (∀ b', enabled b' s' = enabled b' s) ∧ (credit rc s' ≤ credit rc s)%nat
  | CReady _ s' => (credit rc s' < credit rc s)%nat
  | CBreak _ _ | CReturn _ _ => True
  | CSpin => False
  end.

Lemma cancel_stalls (b : bool) h : h_ok h →
  (h_stalls (h_ok:=h_ok) (if b then h_cancel h else h) ≤ h_stalls (h_ok:=h_ok) h)%nat.
Proof. intros Hk. destruct b; [by apply h_stalls_cancel|done]. Qed.

Lemma drop_futures_client_credit rc s : h_ok (hasher s) →
  (credit rc (drop_futures s) ≤ credit rc s)%nat.
Proof.
  intros Hk. unfold credit, drop_futures; cbn. pose proof (cancel_stalls (recv_polled s) _ Hk). lia.
Qed.

(** A handler that ends with the futures dropped. *)
Lemma ready_advances rc b s e s' : h_ok (hasher s') → (credit rc s' < credit rc s)%nat →
  advances rc b s (CReady e (drop_futures s')).
Proof. intros Hk Hc. pose proof (drop_futures_client_credit rc s' Hk). unfold advances. lia. Qed.

Lemma poll_timer_advances rc s : h_ok (hasher s) → advances rc BTimer s (poll_timer s).
Proof.
  intros Hk. unfold poll_timer. destruct (t_poll (progress_timer s)) as [tick t] eqn:E.
  apply t_poll_ticks in E as [H1 H2]. destruct tick.
  - specialize (H2 eq_refl). apply ready_advances; [done|]. unfold credit; cbn. lia.
  - right. split; [done|]. split; [by intros []|]. unfold credit; cbn. lia.
Qed.

Lemma prepare_credit l l' w' : prepare_next_write_block bsz l None = (l', w') →
  (length l' + opt_count w' ≤ length l)%nat.
Proof. unfold prepare_next_write_block. destruct l as [|[]]; intros; simplify_eq; cbn; lia. Qed.

Lemma poll_send_block_advances rc es s : cli_inv es s → advances rc BSend s (poll_send_block bsz fuel s).
Proof.
  intros [S1 S0 S2 S3 S4 S5 S6 S7 S8 S9 S10 S11 S12 S13]. unfold poll_send_block.
  destruct (wr_block s) as [w|] eqn:Hw.
  2:{ right. cbn. by rewrite Hw. }
  rewrite (wb_polled_again _ _ _ _ (λ p E, S9 p w E eq_refl)).
  destruct S8 as (Hwf & Hst & Hle).
  destruct (WB.write_to fuel w (stream_tx s)) as [[o w'] tx] eqn:E.
  apply WB.block_write_to_ends in E as (E1 & E2 & E3); [|done|done|done|unfold lenN in *; lia].
  destruct o as [r|p|]; [| |done].
  - destruct (hash_comparison_over s && bool_decide (blocks_idx_to_send s = [])); [done|].
    destruct (prepare_next_write_block bsz (blocks_idx_to_send s) None) as [l' wr'] eqn:Hp.
    pose proof (same_hasher_cancel (recv_polled s) _ S11) as Hc.
    apply prepare_credit in Hp. apply ready_advances; [by apply (same_hasher_release _ _ _ Hc)|].
    unfold credit; cbn. rewrite Hw. cbn [opt_count]. pose proof (cancel_stalls (recv_polled s) _ S11).
    pose proof (h_stalls_release (WB.buf w') _ (proj1 Hc)). lia.
  - left. specialize (E3 p eq_refl). unfold credit; cbn. rewrite Hw. cbn [opt_count]. lia.
Qed.

Lemma poll_next_block_advances rc es s : cli_inv es s → loans_kept s →
  advances rc BNext s (poll_next_block bsz nb s).
Proof.
  intros [S1 S0 S2 S3 S4 S5 S6 S7 S8 S9 S10 S11 S12 S13] Hlo. unfold poll_next_block.
  destruct (remote_hashes s) as [|hash0 hashes] eqn:Hr.
  { right. cbn. by rewrite Hr. }
  destruct (hash_comparison_over s) eqn:Ho.
  { right. cbn. rewrite Hr, Ho. by destruct (wr_block s). }
  destruct (h_poll (hasher s)) as [r h'] eqn:E.
  destruct (h_poll_ok (h_ok:=h_ok) _ _ _ S11 E) as [Hk _]. pose proof (h_stalls_poll _ _ _ S11 E) as Hst.
  destruct r as [[[v|]|e]|]; [|done..|].
  - destruct (if bool_decide _ then _ else _) as [[to_send wr] h2] eqn:Ecmp.
    destruct (_ && bool_decide (wr = None)); [done|].
    assert (h_ok h2 ∧ (h_stalls (h_ok:=h_ok) h2 ≤ h_stalls (h_ok:=h_ok) h'
      ∧ length to_send + opt_count wr
        ≤ S (length (blocks_idx_to_send s) + opt_count (wr_block s)))%nat) as (Hk2 & H1 & H2).
    { pose proof (h_stalls_release (data v.2) h' Hk).
      case_bool_decide; [|simplify_eq; split; [by apply (h_release_ok (h_ok:=h_ok))|lia] ].
      injection Ecmp as Ep <-. split; [done|]. split; [done|]. destruct (wr_block s) as [w|].
      - cbn in Ep. simplify_eq. rewrite length_app. cbn. lia.
      - apply prepare_credit in Ep. rewrite length_app in Ep. cbn in Ep. lia. }
    assert (block_idx s < nb) as Hlt by done.
    assert (wadd (block_idx s) 1 = block_idx s + 1) as ->.
    { apply wadd_small. apply num_blocks_in in Hlt; [|done].
      assert (block_idx s ≤ block_idx s * bsz); [|lia].
      rewrite <-(N.mul_1_r (block_idx s)) at 1. apply N.mul_le_mono_l. lia. }
    apply ready_advances; [done|]. unfold credit; cbn. lia.
  - unfold loans_kept, client_loans in Hlo. destruct (wr_block s) as [w|] eqn:Hw.
    + right. cbn. rewrite Hr, Hw. split; [done|]. split; [by intros []; cbn; rewrite ?Hr, ?Hw|].
      unfold credit; cbn. rewrite Hw. cbn [opt_count]. lia.
    + left. cbn in S8. rewrite S8 in Hlo. apply submseteq_nil_r in Hlo.
      pose proof (h_stalls_pending _ _ S11 E Hlo). unfold credit; cbn. rewrite Hw. cbn [opt_count]. lia.
Qed.

(** A connection that stalls finitely often: its stalls and its bytes. *)
Context `{!FairRead R}.
Definition rx_credit (r : R) : nat := (stalls r + length (incoming r))%nat.

(** The polls until the next of them. *)
Definition rank (b : CBranch) s : nat :=
  if enabled b s then 0
  else if enabled (next_branch b) s then 1
  else if enabled (next_branch (next_branch b)) s then 2 else 3.

Definition work b s : nat := (8 * credit rx_credit s + rank b s)%nat.

Lemma poll_read_hash_advances es s : cli_inv es s → advances rx_credit BRead s (poll_read_hash s).
Proof.
  intros Hi. pose proof (poll_read_hash_inv es s Hi) as Hinv.
  pose proof Hi as [S1 S0 S2 S3 S4 S5 S6 S7 S8 S9 S10 S11 S12 S13]. revert Hinv.
  unfold poll_read_hash. destruct (remote_hashes_done s) eqn:Hd.
  { intros _. right. cbn. by rewrite Hd. }
  destruct S1 as (rest & Hst & Hc). destruct (Hc eq_refl) as (c & -> & Hho). clear Hc.
  rewrite (RS.polled_again _ _ _ S3).
  pose proof (RS.read_on_answers (rd_string s) c (stream_rx s) Hho) as Ha.
  rewrite S2 in Ha. specialize (Ha eq_refl).
  destruct (RS.read_on _ _) as [[o rs] rx] eqn:E. destruct Ha as (_ & Ha).
  pose proof (RS.read_on_stalls _ _ _ _ _ E) as [Hs1 Hs2].
  destruct o as [[x|e]|p|]; intros Hinv; [..|done].
  - destruct Ha as [Hp _]. rewrite <-S2 in Hp.
    apply RS.holds_takes in Hp; [|done|by rewrite S2].
    apply ready_advances; [done|]. unfold credit, rx_credit; cbn. rewrite Hd. lia.
  - apply ready_advances; [done|]. unfold credit, rx_credit; cbn. rewrite Hd. lia.
  - left. apply RS.read_on_incoming in E; [|done]. specialize (Hs2 p eq_refl).
    unfold credit, rx_credit; cbn. rewrite Hd. lia.
Qed.

Lemma poll_branch_advances es b s : cli_inv es s → loans_kept s →
  advances rx_credit b s (poll_branch bsz nb fuel b s).
Proof.
  intros Hi Hl. destruct b; cbn [poll_branch].
  - apply poll_timer_advances, Hi.
  - by apply (poll_send_block_advances _ es).
  - by apply (poll_read_hash_advances es).
  - by apply (poll_next_block_advances _ es).
Qed.

Lemma enabled_credit es b s : cli_inv es s → enabled b s = true → (0 < credit rx_credit s)%nat.
Proof.
  intros [S1 S0 S2 S3 S4 S5 S6 S7 S8 S9 S10 S11 S12 S13]. unfold credit.
  destruct b; cbn; [done|destruct (wr_block s); [cbn; lia|done]
    |destruct (remote_hashes_done s); [done|lia]|].
  destruct (remote_hashes s); [done|]. destruct (wr_block s); [done|].
  destruct (hash_comparison_over s); [done|]. lia.
Qed.

(** With a hash for every block, some branch is always enabled, unless the
    connection failed. *)
Lemma some_enabled hashes rest es s : strings 256 total hashes rest →
  (N.to_nat nb ≤ length hashes)%nat → cli_inv es s →
  (∃ b, enabled b s = true) ∨ ∃ k, CHashEnd (EIo k) ∈ es.
Proof.
  intros Hstr Hn [S1 S0 S2 S3 S4 S5 S6 S7 S8 S9 S10 S11 S12 S13].
  destruct (remote_hashes_done s) eqn:Hd; [|left; exists BRead; cbn; by rewrite Hd].
  destruct (S0 eq_refl) as [[k Hk]|(rest' & e & Hs & Hp)]; [right; by exists k|left].
  pose proof (parses_maximal _ _ _ _ _ _ _ Hs Hp Hstr) as Hmax.
  destruct (hash_comparison_over s) eqn:Ho.
  - destruct S6 as [_ [w Hw]]. exists BSend. cbn. by rewrite Hw.
  - destruct (wr_block s) as [w|] eqn:Hw; [exists BSend; cbn; by rewrite Hw|].
    exists BNext. cbn. rewrite Ho, Hw. destruct S4 as (hs & E & Hl).
    destruct (remote_hashes s); [|done]. rewrite E, length_app in Hmax. cbn in Hmax.
    unfold lenN in *. lia.
Qed.

Lemma rank_next b s s' : (∀ b', enabled b' s' = enabled b' s) → enabled b s = false →
  (∃ b', enabled b' s = true) → (rank (next_branch b) s' < rank b s)%nat.
Proof.
  intros He Hen [b' Hen']. unfold rank. rewrite !He, Hen.
  assert (enabled BTimer s = false) as Ht by done.
  destruct b, b'; cbn [next_branch] in *; rewrite ?Ht, ?Hen, ?Hen' in *; try done;
    repeat case_match; lia || done.
Qed.

Lemma client_run_ends hashes rest n es b s : strings 256 total hashes rest →
  (N.to_nat nb ≤ length hashes)%nat → cli_inv es s → loans_kept s → (work b s ≤ n)%nat →
  let '(es', c') := client_run bsz nb n fuel (CRun b s) in
  (∃ s', c' = CBroke s') ∨ (∃ e s', c' = CReturned e s') ∨ ∃ k, CHashEnd (EIo k) ∈ es ++ es'.
Proof.
  intros Hstr Hn. assert (∀ m c, match c with CRun _ _ => False | _ => True end →
    client_run (R:=R) (W:=W) (T:=T) (H:=H) bsz nb m fuel c = ([], c)) as Hover.
  { intros m c Hc. induction m as [|m IH]; [done|]. destruct c; [done|..]; cbn in *; by rewrite IH. }
  revert es b s. induction n as [|n IH]; intros es b s Hi Hlo Hw.
  - cbn. unfold work in Hw. destruct (some_enabled hashes rest es s Hstr Hn Hi) as [[b' Hen]|[k Hk]].
    + pose proof (enabled_credit es b' s Hi Hen). lia.
    + right. right. exists k. rewrite elem_of_app. by left.
  - cbn [client_run]. destruct (client_step bsz nb fuel (CRun b s)) as [es1 c1] eqn:E.
    pose proof (client_step_inv fuel es (CRun b s) es1 c1 Hi E) as Hi'.
    pose proof (poll_branch_advances es b s Hi Hlo) as Ha.
    pose proof (poll_branch_loans fuel es b s Hi Hlo) as Hlo'. cbn [client_step] in E.
    destruct (poll_branch bsz nb fuel b s) as [s1|e s1|e s1|e s1|]; simplify_eq; [..|done].
    + destruct (some_enabled hashes rest es s Hstr Hn Hi) as [Hen|[k Hk]].
      * specialize (IH (es ++ []) (next_branch b) s1 Hi' Hlo').
        destruct (client_run bsz nb n fuel (CRun (next_branch b) s1)) as [es2 c2].
        rewrite (right_id_L [] (++)) in IH. apply IH. unfold work in *.
        destruct Ha as [Ha|(Ha1 & Ha2 & Ha3)].
        -- assert (rank (next_branch b) s1 ≤ 3)%nat; [unfold rank; repeat case_match; lia|lia].
        -- pose proof (rank_next b s s1 Ha2 Ha1 Hen). lia.
      * destruct (client_run bsz nb n fuel (CRun (next_branch b) s1)) as [es2 c2].
        right. right. exists k. rewrite elem_of_app. by left.
    + specialize (IH (es ++ [e]) BTimer s1 Hi' Hlo').
      destruct (client_run bsz nb n fuel (CRun BTimer s1)) as [es2 c2].
      rewrite (assoc_L (++)). apply IH. unfold work in *. cbn in Ha.
      assert (rank BTimer s1 ≤ 3)%nat; [unfold rank; repeat case_match; lia|lia].
    + rewrite Hover by done. left. by exists s1.
    + rewrite Hover by done. right. left. by exists e, s1.
Qed.
End termination.
End invariant.

(** ** Runs poll by poll *)

Definition cli_of {R W T H} (c : CConf (R:=R) (W:=W) (T:=T) (H:=H)) : option (Cli R W T H) :=
  match c with CRun _ s | CBroke s => Some s | _ => None end.

(** ** What happens to the objects of the loop between two polls *)

Section moves.
Context {R W T H : Type} `{!AsyncRead R, !AsyncReadLaws R, !AsyncWrite W, !AsyncWriteLaws W}.
Context `{!Timer T} {Hh : Hasher H} {Hg : Hashing}.
Context {bsz fsz : N} {algorithm : HashAlgorithm} {h_ok : H → Prop}.
Implicit Types s : Cli R W T H.

Definition with_client_objects s (t : T) (rx : R) (tx : W) (h : H) : Cli R W T H :=
  MkCli (rd_string s) (rs_pc s) (remote_hashes s) (remote_hashes_done s) (hash_comparison_over s)
        (block_idx s) (blocks_idx_to_send s) (wr_block s) (wb_pc s) (recv_polled s) t rx tx h.

(** The bytes [bs] arrive; the timer and the transports change otherwise as they
    may; the workers go on, and those that read the file read [src]. *)
Record client_moves (src bs : bytes) s s' : Prop := {
  cm_vars : s' = with_client_objects s (progress_timer s') (stream_rx s') (stream_tx s') (hasher s');
  cm_arrived : incoming (stream_rx s') = incoming (stream_rx s) ++ bs;
  cm_sent : written (stream_tx s') = written (stream_tx s);
  cm_ok : h_ok (hasher s) → h_ok (hasher s');
  cm_recvd : h_recvd (hasher s') = h_recvd (hasher s);
  cm_keeps : h_contents (hasher s) ⊆ h_contents (hasher s');
  cm_files f : f ∈ h_contents (hasher s') → f ∈ h_contents (hasher s) ∨ f = src;
}.

(** What arrives after the end of the hashes is not read any more. *)
Definition unread (bs : bytes) s : bytes := if remote_hashes_done s then [] else bs.

Lemma client_moves_inv total sent0 src bs es s s' : client_moves src bs s s' →
  cli_inv (h_ok:=h_ok) (bsz:=bsz) (fsz:=fsz) (algorithm:=algorithm) (total:=total) (sent0:=sent0) es s →
  cli_inv (h_ok:=h_ok) (bsz:=bsz) (fsz:=fsz) (algorithm:=algorithm) (total:=total ++ unread bs s)
    (sent0:=sent0) es s'.
Proof.
  intros [M0 M1 M2 M3 M4 M5 M6] [S1 S2 S3 S4 S5 S6 S7 S8 S9 S10 S11 S12 S13 S14].
  rewrite M0 in *. cbn in M1, M2, M3, M4, M5, M6. unfold unread. split; cbn; auto.
  - destruct S1 as (rest & Hs & Hc). exists (rest ++ if remote_hashes_done s then [] else bs).
    split; [by apply parses_extend; [apply parse_string_extend|]|].
    intros Hd. destruct (Hc Hd) as (c & -> & Hh'). exists c. split; [|done].
    by rewrite Hd, M1, (assoc_L (++)).
  - intros Hd. rewrite Hd, (right_id_L [] (++)). by apply S2.
  - intros Hf. rewrite M2. by apply S11.
  - congruence.
  - intros n v Hv. destruct (S14 n v Hv) as (I1 & I2 & I3 & I4 & f & I5 & I6). split_and!; try done.
    exists f. split; [by apply M5|done].
Qed.

Lemma client_step_sent nb fuel b s es c' s' : client_step bsz nb fuel (CRun b s) = (es, c') →
  cli_of c' = Some s' → written (stream_tx s) `prefix_of` written (stream_tx s').
Proof.
  unfold client_step. destruct b; cbn [poll_branch].
  - unfold poll_timer. intros E Hs. by repeat case_match; simplify_eq; cbn in Hs; simplify_eq.
  - unfold poll_send_block. destruct (wr_block s) as [w|]; [|intros; by simplify_eq/=].
    destruct (_ fuel w (stream_tx s)) as [[o w'] tx] eqn:E1. apply WB.block_write_prefix in E1.
    intros E Hs. by repeat case_match; simplify_eq; cbn in Hs; simplify_eq.
  - unfold poll_read_hash. intros E Hs. by repeat case_match; simplify_eq; cbn in Hs; simplify_eq.
  - unfold poll_next_block. intros E Hs. by repeat case_match; simplify_eq; cbn in Hs; simplify_eq.
Qed.
End moves.

(** ** Properties *)

Section properties.
Context {R W T H : Type} `{!AsyncRead R, !AsyncReadLaws R, !AsyncWrite W, !AsyncWriteLaws W}.
Context `{!Timer T} {Hh : Hasher H} {Hg : Hashing} {Hgl : HashingLaws}.

Lemma client_init_inv bsz fsz algorithm (h_ok : H → Prop) `{!HasherLaws H fsz bsz algorithm h_ok}
    (t : T) (rx : R) (tx : W) (h : H) :
  0 < fsz → 0 < bsz → h_ok h → h_recvd h = [] →
  cconf_inv (h_ok:=h_ok) (algorithm:=algorithm) (bsz:=bsz) (fsz:=fsz) (total:=incoming rx)
    (sent0:=written tx) [] (CRun BTimer (client_init t rx tx h)).
Proof.
  intros Hf Hb Hok Hr. split; cbn; try done.
  - exists (incoming rx). split; [apply parses_nil|]. intros _. exists []. split; [done|apply RS.holds_new].
  - by exists [].
  - unfold num_blocks. apply N.div_str_pos. lia.
  - constructor.
Qed.

(** C6. What the client sends, for any chunking and stalls of the connection,
    any timing of the hashes, of the hashing of its own file and of the timer:
    when its loop is left by [break] and no write failed, either the hashing of
    its file failed, or every block has been compared, in order, with the hash
    of the server of the same rank, and the bytes sent are exactly the frames of
    the blocks whose hashes differ, in order, each at its offset. *)
Theorem client_sends_differences bsz fsz algorithm (h_ok : H → Prop)
    `{!HasherLaws H fsz bsz algorithm h_ok} n fuel (t : T) (rx : R) (tx : W) (h : H) es s :
  0 < fsz → 0 < bsz → fsz + bsz < W64 → h_ok h → h_recvd h = [] → written tx = [] →
  client_run bsz (div_ceil fsz bsz) n fuel (CRun BTimer (client_init t rx tx h)) = (es, CBroke s) →
  send_fine es →
  h_failed (hasher s) = true
  ∨ lenN (h_recvd (hasher s)) = num_blocks fsz bsz
  ∧ ∃ hashes rest, strings 256 (incoming rx) hashes rest
      ∧ (length (h_recvd (hasher s)) ≤ length hashes)%nat
      ∧ written (stream_tx s) = item_frames bsz (differing (h_recvd (hasher s)) hashes).
Proof.
  intros Hf Hb Hw Hok Hr Ht. rewrite div_ceil_num_blocks by done. intros E Hfine.
  pose proof (client_run_inv Hb Hw n fuel [] _ es _
    (client_init_inv bsz fsz algorithm h_ok t rx tx h Hf Hb Hok Hr) E) as Hi.
  cbn [cconf_inv app] in Hi. destruct Hi as [(rest & B1) B2 _ _ [B5|(B5 & B6 & B7)]]; [by left|].
  right. rewrite B2. split; [done|]. exists (ev_hashes es), rest. split; [done|]. split; [done|].
  by rewrite B7, Ht.
Qed.


(** The loop after the end of the hashes of the server: the comparison is not
    over, no hash is left, no block is being written. *)
Definition starved (s : Cli R W T H) : Prop :=
  remote_hashes_done s = true ∧ remote_hashes s = [] ∧ hash_comparison_over s = false
  ∧ wr_block s = None.

End properties.

(** ** The properties on a run: the file of 23 bytes of HashFile.v in blocks of
    10; the server has another block 1 *)

#[local] Existing Instance toy_hashing.
#[local] Existing Instance toy_hashing_laws.

#[local] Instance sample_mem : Hasher MemHasher := mem_hasher 23 10 CRC32.

Lemma sample_mem_sane : sane 23 10 1.
Proof. by split_and!; vm_compute. Qed.

#[local] Instance sample_mem_laws : HasherLaws MemHasher 23 10 CRC32 (mem_ok 23 10 CRC32 sample_file) :=
  mem_hasher_laws 23 10 CRC32 sample_file sample_mem_sane eq_refl.

Definition sample_mem_start : MemHasher := MkMemHasher sample_file [] [true; false; false; true].

Definition same_hash : bytes := hash_data [] CRC32.
Definition other_hash : bytes := byte_of <$> [48; 48].
Definition server_hashes : list bytes := [same_hash; other_hash; same_hash].
Definition server_bytes (hs : list bytes) : bytes := concat (string_frame <$> hs).

Definition script_of (bs : bytes) : list RdItem :=
  match bs with [] => [] | b :: bs => [Chunk b bs] end.
Definition sample_rx (hs : list bytes) : list RdItem :=
  script_of (take 20 (server_bytes hs)) ++ [Stall] ++ script_of (drop 20 (server_bytes hs)).
Definition sample_tx : Eager := MkEager [] [EAccept 2; EStall; EAccept 9; EStall].

Abbreviation SampleConf := (CConf (R:=list RdItem) (W:=Eager) (T:=list bool) (H:=MemHasher)).
Abbreviation sample_run hs n :=
  (client_run 10 (div_ceil 23 10) n 50
    (CRun BTimer (client_init [true; false; true] (sample_rx hs) sample_tx sample_mem_start))).

Definition conf_broke (c : SampleConf) : bool := match c with CBroke _ => true | _ => false end.
Definition conf_srv (c : SampleConf) : option (Cli (list RdItem) Eager (list bool) MemHasher) :=
  match c with CRun _ s | CBroke s | CReturned _ s => Some s | CSpins => None end.

Lemma conf_broke_state c : conf_broke c = true → ∃ s, c = CBroke s.
Proof. destruct c; cbn; intros ?; simplify_eq; by eexists. Qed.

Definition sent_bad (e : CEv) : bool := match e with CSent (Err _) => true | _ => false end.
Lemma no_sent_bad es : forallb (negb ∘ sent_bad) es = true → send_fine es.
Proof.
  rewrite forallb_forall. intros Hf e Hin.
  by specialize (Hf _ (proj1 (list_elem_of_In _ _) Hin)).
Qed.

(** The frame of block 1 is sent, and nothing else. *)
Definition sample_sent (c : SampleConf) : option bytes := written ∘ stream_tx <$> conf_srv c.

Lemma sample_sends : sample_sent (sample_run server_hashes 80).2
  = Some (block_frame 10 (block 23 10 sample_file 1)).
Proof. vm_compute. reflexivity. Qed.

Lemma client_sends_differences_witness :
  ∃ s, (sample_run server_hashes 80).2 = CBroke s
    ∧ lenN (h_recvd (hasher s)) = 3
    ∧ ∃ hashes rest, strings 256 (incoming (sample_rx server_hashes)) hashes rest
        ∧ written (stream_tx s) = item_frames 10 (differing (h_recvd (hasher s)) hashes).
Proof.
  destruct (conf_broke_state (sample_run server_hashes 80).2) as [s E]; [vm_compute; reflexivity|].
  exists s. split; [exact E|].
  destruct (client_sends_differences 10 23 CRC32 (mem_ok 23 10 CRC32 sample_file) 80 50
    [true; false; true] (sample_rx server_hashes) sample_tx sample_mem_start
    (sample_run server_hashes 80).1 s) as [H0|(H1 & hs & rest & H2 & _ & H3)].
  - reflexivity.
  - reflexivity.
  - vm_compute. reflexivity.
  - split_and!; [reflexivity|vm_compute; discriminate|reflexivity].
  - reflexivity.
  - reflexivity.
  - exact (pair_of _ _ E).
  - apply no_sent_bad. vm_compute. reflexivity.
  - discriminate H0.
  - split; [exact H1|]. exists hs, rest. split; [exact H2|exact H3].
Defined.

(** The server stops after two hashes. *)
Definition conf_starved (c : SampleConf) : bool :=
  match c with
  | CRun _ s => remote_hashes_done s && bool_decide (remote_hashes s = [])
      && negb (hash_comparison_over s) && match wr_block s with None => true | _ => false end
  | _ => false
  end.

Lemma conf_starved_state c : conf_starved c = true → ∃ b s, c = CRun b s ∧ starved s.
Proof.
  destruct c as [b s| | |]; cbn; try done. rewrite !andb_true_iff, bool_decide_eq_true.
  intros [[[H1 H2] H3] H4]. exists b, s. split; [done|]. unfold starved.
  destruct (hash_comparison_over s), (wr_block s); by split_and!.
Qed.


Lemma sample_strings : strings 256 (incoming (sample_rx server_hashes)) server_hashes [].
Proof.
  refine (parses_frames (parse_string 256) string_frame server_hashes [] _).
  intros x l Hx. apply parse_string_frame.
  by repeat (apply elem_of_cons in Hx as [->|Hx]; [vm_compute; split_and!; done|]);
    apply elem_of_nil in Hx.
Qed.

