(* ===== verification/Sync.v ===== *)
(** The synchronisation end to end: the two event loops (Server.v, Client.v)
    joined by the bytes they exchange.  [jstep] is one step of the joint state:
    a poll of one branch of either end, bytes that arrive, the end of the
    connection.  The invariant [jinv] holds in every state that is reached, in
    whatever order the steps come; from it follows that the destination is the
    source when both loops are over ([joint_content]).  The server hashes its
    destination while it is being overwritten: that its hashes are those of the
    old blocks follows from causality, a block being sent only for a hash
    already received, hence written behind the blocks still to be hashed
    ([blocks_behind], [dest_spares]). *)

From stdpp Require Import base option list gmap numbers.
From Stdlib Require Import NArith Lia.
From S2P Require Import Prelude AsyncIO Utf8 Wire Loan Resumable ResumableString ResumableBlock.
From S2P Require Import Disk OrderedChannel HashFile Pipeline Hasher Overwrite Server Client.
#[local] Open Scope N_scope.

(** ** The hashes the client reads *)

(** What is read of a prefix of the frames of [xs] is a prefix of [xs]. *)
Lemma strings_of_frames max xs l ss rest :
  (∀ x, x ∈ xs → sendable max x) → l `prefix_of` concat (string_frame <$> xs) →
  strings max l ss rest → ss = take (length ss) xs ∧ (length ss ≤ length xs)%nat.
Proof.
  intros Hx. apply (parses_of_frames _ (parse_string_extend max) _ _ _ _ _ EClosed).
  - intros x r Hin. by apply parse_string_frame, Hx.
  - apply RS.parse_string_short. cbn. lia.
Qed.

Section blocks.
Context {Hg : Hashing} {Hgl : HashingLaws}.
Context {fsz bsz : N} {algorithm : HashAlgorithm} (Hs : sane fsz bsz 1).
#[local] Abbreviation nb := (num_blocks fsz bsz).

(** The blocks the server gets from the frames of the client. *)
Definition sent_block (v : Val) : N * bytes := (v.1 * bsz, deref (data v.2)).

Lemma differing_elem items hs v : v ∈ differing items hs → v ∈ items.
Proof.
  unfold differing. rewrite list_elem_of_omap. intros ([w h] & Hin & E).
  case_bool_decide; [done|]. cbn in E. simplify_eq. by eapply elem_of_zip_l.
Qed.

Lemma item_frames_blocks vs :
  item_frames bsz vs = concat ((λ b, block_frame b.1 b.2) <$> (sent_block <$> vs)).
Proof. unfold item_frames. by rewrite <-list_fmap_compose. Qed.

(** An item of the client: a block of the source. *)
Definition block_item (src : bytes) (k : N) (v : Val) : Prop :=
  v.1 = k ∧ deref (data v.2) = block fsz bsz src k ∧ hash v.2 = hash_data (block fsz bsz src k) algorithm.

Lemma item_ok_block src k v : item_ok fsz bsz algorithm [src] k v → block_item src k v.
Proof.
  intros (H1 & _ & H3 & _ & f & Hf & H5). apply list_elem_of_singleton in Hf as ->.
  split; [done|]. split; [done|]. by rewrite H3, H5.
Qed.

(** The blocks that differ, written over the old file, give the new one up to
    the last block compared. *)
Lemma patches_differing src dest items hs :
  lenN src = fsz → lenN dest = fsz → length items = length hs → lenN items ≤ nb →
  (∀ n v, items !! n = Some v → block_item src (N.of_nat n) v) →
  (∀ n v, items !! n = Some v → hs !! n = Some (hash v.2) →
     block fsz bsz src (N.of_nat n) = block fsz bsz dest (N.of_nat n)) →
  let new := patches dest (sent_block <$> differing items hs) in
  lenN new = fsz
  ∧ ∀ k, k < nb → block fsz bsz new k
                  = if decide (k < lenN items) then block fsz bsz src k else block fsz bsz dest k.
Proof.
  intros Hsrc Hdest. revert hs.
  induction items as [|v items IH] using rev_ind; intros hs Hl Hn Hi Hc; cbv zeta.
  { destruct hs; [|done]. cbn. split; [done|]. intros k Hk. by rewrite decide_False by (unfold lenN; cbn; lia). }
  destruct hs as [|h hs _] using rev_ind; [rewrite length_app in Hl; cbn in Hl; lia|].
  rewrite !length_app in Hl. cbn in Hl. assert (length items = length hs) as Hl' by lia.
  assert (lenN (items ++ [v]) = lenN items + 1) as Hlen by (unfold lenN; rewrite length_app; cbn; lia).
  assert (lenN items < nb) as Hlt by lia.
  destruct (IH hs Hl') as [I1 I2]; [lia| | |].
  { intros n w Hw. apply Hi. by apply lookup_app_l_Some. }
  { intros n w Hw Hh. apply (Hc n w); by apply lookup_app_l_Some. }
  assert ((items ++ [v]) !! length items = Some v) as Hv by by apply list_lookup_middle.
  assert ((hs ++ [h]) !! length items = Some h) as Hh by (rewrite Hl'; by apply list_lookup_middle).
  destruct (Hi _ _ Hv) as (V1 & V2 & V3). fold (lenN items) in V1, V2, V3.
  rewrite differing_snoc by done. rewrite differing_more by lia. rewrite fmap_app, Hlen.
  case_bool_decide as Heq.
  - cbn [fmap list_fmap]. rewrite (right_id_L [] (++)). split; [done|]. intros k Hk. rewrite I2 by done.
    destruct (decide (k < lenN items)); [by rewrite decide_True by lia|].
    destruct (decide (k < lenN items + 1)); [|done].
    assert (k = lenN items) as -> by lia. symmetry. apply (Hc _ _ Hv). by rewrite Hh, Heq.
  - assert (sent_block v = (lenN items * bsz, block fsz bsz src (lenN items))) as Hsb
      by (unfold sent_block; by rewrite V1, V2).
    cbn [fmap list_fmap]. rewrite patches_snoc, Hsb. cbn [fst snd].
    destruct (patch_block fsz bsz (patches dest (sent_block <$> differing items hs)) (lenN items)
      (block fsz bsz src (lenN items)) Hs I1 Hlt (length_block Hs _ _ Hsrc Hlt)) as [P1 P2].
    split; [done|]. intros k Hk. rewrite P2, I2 by done.
    destruct (decide (k = lenN items)) as [->|Hne]; [by rewrite decide_True by lia|].
    destruct (decide (k < lenN items)); [by rewrite decide_True by lia|].
    by rewrite decide_False by lia.
Qed.
End blocks.

(** ** What was received of what was sent *)

Definition block_bytes (bs : list (N * bytes)) : bytes := concat ((λ b, block_frame b.1 b.2) <$> bs).
Definition hash_bytes (hs : list bytes) : bytes := concat (string_frame <$> hs).

Lemma hash_frames_bytes vs : hash_frames vs = hash_bytes (hash ∘ snd <$> vs).
Proof. unfold hash_bytes. by rewrite <-list_fmap_compose. Qed.

Lemma blocks_received bsz fsz l evs rest bs :
  Forall (is_block bsz fsz) bs → l `prefix_of` block_bytes bs → frames bsz fsz l evs rest →
  evs = take (length evs) bs ∧ (length evs ≤ length bs)%nat.
Proof.
  intros Hb. apply (parses_of_frames _ (parse_block_extend (bsz:=bsz) (fsz:=fsz)) _ _ _ _ _ EClosed);
    [|done].
  intros [off data] r Hin. rewrite Forall_forall in Hb.
  apply (parse_block_frame bsz fsz (off, data) r). by apply Hb, list_elem_of_In.
Qed.

Section items.
Context {Hg : Hashing} {fsz bsz : N} {algorithm : HashAlgorithm} (Hs : sane fsz bsz 1).
#[local] Abbreviation nb := (num_blocks fsz bsz).

(** The block of an item: it is a block, one before block [n] if its index is. *)
Lemma item_block contents k v : item_ok fsz bsz algorithm contents k v →
  is_block bsz fsz (sent_block (bsz:=bsz) v)
  ∧ ∀ n, k < n → block_before fsz bsz n (sent_block (bsz:=bsz) v).
Proof.
  intros (H1 & H2 & _ & H4 & _). unfold sent_block, is_block. cbn. rewrite H1, H4.
  pose proof (block_len_end Hs k H2) as Hend. split.
  - destruct Hs as (_ & _ & Hw). unfold block_len in *. split; [lia|].
    split; [unfold W64; lia|done].
  - intros n Hn. by exists k.
Qed.

(** The blocks sent for items compared with [hs] are before as many hashes. *)
Lemma differing_before contents items hs n :
  (∀ k v, items !! k = Some v → item_ok fsz bsz algorithm contents (N.of_nat k) v) →
  (length items ≤ length hs)%nat → lenN hs ≤ n →
  Forall (λ b, is_block bsz fsz b ∧ block_before fsz bsz n b)
         (sent_block (bsz:=bsz) <$> differing items hs).
Proof.
  intros Hi Hl Hn. apply Forall_forall.
  intros b (v & -> & Hv)%list_elem_of_In%list_elem_of_fmap.
  apply differing_elem, list_elem_of_lookup_1 in Hv as [k Hk].
  destruct (item_block contents _ v (Hi k v Hk)) as [H1 H2]. split; [done|]. apply H2.
  apply lookup_lt_Some in Hk. unfold lenN in Hn. lia.
Qed.

Lemma differing_blocks contents items hs :
  (∀ k v, items !! k = Some v → item_ok fsz bsz algorithm contents (N.of_nat k) v) →
  (length items ≤ length hs)%nat →
  Forall (is_block bsz fsz) (sent_block (bsz:=bsz) <$> differing items hs).
Proof.
  intros Hi Hl. pose proof (differing_before contents items hs _ Hi Hl (N.le_refl _)) as H.
  eapply Forall_impl; [|exact H]. by intros b [? _].
Qed.
End items.

(** ** Two loops joined *)

Section sync.
Context {Rs Ws D Hs' Rc Wc T Hc' : Type}.
Context `{!AsyncRead Rs, !AsyncReadLaws Rs, !LiveRead Rs, !AsyncWrite Ws, !AsyncWriteLaws Ws}.
Context `{!AsyncWrite D, !AsyncWriteLaws D, !DiskFile D, !DiskLaws D}.
Context `{!AsyncRead Rc, !AsyncReadLaws Rc, !AsyncWrite Wc, !AsyncWriteLaws Wc, !Timer T}.
Context {Hhs : Hasher Hs'} {Hhc : Hasher Hc'} {Hg : Hashing} {Hgl : HashingLaws}.
Context (fsz bsz : N) (algorithm : HashAlgorithm) (hs_ok : Hs' → Prop) (hc_ok : Hc' → Prop).
Context {Hls : HasherLaws Hs' fsz bsz algorithm hs_ok}.
Context {Hlc : HasherLaws Hc' fsz bsz algorithm hc_ok}.
Context (fuelS fuelC : nat) (src : bytes).
#[local] Abbreviation nb := (num_blocks fsz bsz).
#[local] Abbreviation sconf := (SConf (R:=Rs) (W:=Ws) (D:=D) (H:=Hs')).
#[local] Abbreviation cconf := (CConf (R:=Rc) (W:=Wc) (T:=T) (H:=Hc')).

(** Both ends, what their handlers have been run for, and the bytes that have
    arrived at each. *)
Record Joint := MkJoint {
  at_server : sconf;
  at_client : cconf;
  server_log : list SEv;
  client_log : list CEv;
  to_server : bytes;
  to_client : bytes;
}.

Definition sent_by_server (c : sconf) : bytes :=
  match c with
  | SRun _ s | SBroke _ s | SReturned _ s => written (client_tx s)
  | SSpins => []
  end.
Definition sent_by_client (c : cconf) : bytes :=
  match c with
  | CRun _ s | CBroke s | CReturned _ s => written (stream_tx s)
  | CSpins => []
  end.
Definition client_gone (c : cconf) : bool :=
  match c with CBroke _ | CReturned _ _ => true | _ => false end.

(** During a poll of the server its workers read the destination as it is;
    during one of the client they read the source. *)
Definition reads_dest (c c' : sconf) : Prop :=
  ∀ b s s' f, c = SRun b s → srv_of c' = Some s' → f ∈ h_contents (Server.hasher s') →
    f ∈ h_contents (Server.hasher s) ∨ f = d_content (dest s).
Definition reads_source (c c' : cconf) : Prop :=
  ∀ b s s' f, c = CRun b s → cli_of c' = Some s' → f ∈ h_contents (Client.hasher s') →
    f ∈ h_contents (Client.hasher s) ∨ f = src.

(** An end polls one of its branches; the objects of an end change, and some of
    the bytes the other end has sent arrive; once the client is gone and all it
    sent has arrived, the connection of the server is at its end.  Any sequence
    of these steps is a run. *)
Inductive jstep (j : Joint) : Joint → Prop :=
  | j_server es c' :
      server_step fuelS (at_server j) = (es, c') → reads_dest (at_server j) c' →
      jstep j (MkJoint c' (at_client j) (server_log j ++ es) (client_log j)
                       (to_server j) (to_client j))
  | j_client es c' :
      client_step bsz (div_ceil fsz bsz) fuelC (at_client j) = (es, c') →
      reads_source (at_client j) c' →
      jstep j (MkJoint (at_server j) c' (server_log j) (client_log j ++ es)
                       (to_server j) (to_client j))
  | j_server_moves b s s' bs :
      at_server j = SRun b s → server_moves (h_ok:=hs_ok) bs s s' →
      ended (client_rx s') = ended (client_rx s) →
      (to_server j ++ bs) `prefix_of` sent_by_client (at_client j) →
      jstep j (MkJoint (SRun b s') (at_client j) (server_log j) (client_log j)
                       (to_server j ++ bs) (to_client j))
  | j_client_moves b s s' bs :
      at_client j = CRun b s → client_moves (h_ok:=hc_ok) src bs s s' →
      (to_client j ++ unread bs s) `prefix_of` sent_by_server (at_server j) →
      jstep j (MkJoint (at_server j) (CRun b s') (server_log j) (client_log j)
                       (to_server j) (to_client j ++ unread bs s))
  | j_closes b s s' :
      at_server j = SRun b s → server_moves (h_ok:=hs_ok) [] s s' →
      client_gone (at_client j) = true → to_server j = sent_by_client (at_client j) →
      jstep j (MkJoint (SRun b s') (at_client j) (server_log j) (client_log j)
                       (to_server j) (to_client j)).

(** The two ends before their loops: nothing was sent or has arrived; the
    workers have read nothing but the file and the source. *)
Record starts (rxS : Rs) (txS : Ws) (file : D) (hS : Hs') (rxC : Rc) (txC : Wc) (hC : Hc') : Prop := {
  st_rx : incoming rxS = [] ∧ ended rxS = false ∧ incoming rxC = [];
  st_tx : written txS = [] ∧ written txC = [];
  st_server : hs_ok hS ∧ h_recvd hS = [] ∧ ∀ f, f ∈ h_contents hS → f = d_content file;
  st_client : hc_ok hC ∧ h_recvd hC = [] ∧ ∀ f, f ∈ h_contents hC → f = src;
}.

Definition joint_init (rxS : Rs) (txS : Ws) (file : D) (hS : Hs') (t : T) (rxC : Rc) (txC : Wc)
    (hC : Hc') : Joint :=
  MkJoint (SRun BDisk (server_init bsz fsz rxS txS file hS))
          (CRun BTimer (client_init t rxC txC hC)) [] [] [] [].

(** No write failed, no hashing failed, both ends are in their loops or left them
    by [break]. *)
Record joint_fine (j : Joint) : Prop := {
  jf_disk : disk_fine (server_log j);
  jf_hash : hash_fine (server_log j);
  jf_send : send_fine (client_log j);
  jf_server : is_Some (srv_of (at_server j));
  jf_client : match at_client j with
              | CRun _ _ => True | CBroke s => h_failed (Client.hasher s) = false | _ => False
              end;
}.

Context (Hs : sane fsz bsz 1).

Lemma bsz_small : bsz + 8 < W64.
Proof. destruct Hs as (_ & _ & H). unfold W64. lia. Qed.
Lemma bsz_fits : fsz + bsz < W64.
Proof. destruct Hs as (_ & _ & H). unfold W64. lia. Qed.

Context (Hfz : 0 < fsz) (old : bytes) (Hold : lenN old = fsz).

(** The hashes received are those of the old destination. *)
Definition old_items (vs : list Val) : Prop :=
  ∀ k v, vs !! k = Some v → N.of_nat k < nb ∧ hash v.2 = hash_data (block fsz bsz old (N.of_nat k)) algorithm.

(** The server still runs on a connection that has ended, or has left its loop
    because of that. *)
Definition server_closed (c : sconf) : Prop :=
  match c with
  | SRun _ s => ended (client_rx s) = true
  | SBroke e _ => ∀ k, e ≠ EIo k
  | _ => False
  end.

Record jinv (j : Joint) : Prop := {
  ji_server : conf_inv (h_ok:=hs_ok) (bsz:=bsz) (fsz:=fsz) (total:=to_server j) (content0:=old)
    (sent0:=[]) (recvd0:=[]) (server_log j) (at_server j);
  ji_client : cconf_inv (h_ok:=hc_ok) (bsz:=bsz) (fsz:=fsz) (algorithm:=algorithm)
    (total:=to_client j) (sent0:=[]) (client_log j) (at_client j);
  ji_to_server s : cli_of (at_client j) = Some s → to_server j `prefix_of` written (stream_tx s);
  ji_to_client s : srv_of (at_server j) = Some s → to_client j `prefix_of` written (client_tx s);
  ji_source s f : cli_of (at_client j) = Some s → f ∈ h_contents (Client.hasher s) → f = src;
  ji_closed s : server_closed (at_server j) → cli_of (at_client j) = Some s →
    at_client j = CBroke s ∧ to_server j = written (stream_tx s);
  ji_old s : joint_fine j → srv_of (at_server j) = Some s → old_items (h_recvd (Server.hasher s));
  ji_files b s f : joint_fine j → at_server j = SRun b s → f ∈ h_contents (Server.hasher s) →
    spares fsz bsz (lenN (h_recvd (Server.hasher s))) old f;
}.

(** What the client has sent: blocks before the hashes it has got. *)
Lemma client_sent j s : jinv j → joint_fine j → cli_of (at_client j) = Some s →
  written (stream_tx s)
    `prefix_of` item_frames bsz (differing (Client.ev_items (client_log j)) (ev_hashes (client_log j)))
  ∧ (length (Client.ev_items (client_log j)) ≤ length (ev_hashes (client_log j)))%nat
  ∧ (∀ k v, Client.ev_items (client_log j) !! k = Some v → item_ok fsz bsz algorithm [src] (N.of_nat k) v)
  ∧ ∃ rest, strings 256 (to_client j) (ev_hashes (client_log j)) rest.
Proof.
  intros [_ Hi _ _ Hsrc _ _ _] [_ _ Hf _ Hc] E.
  assert (∀ vs, items_ok (fsz:=fsz) (bsz:=bsz) (algorithm:=algorithm) s vs →
    ∀ k v, vs !! k = Some v → item_ok fsz bsz algorithm [src] (N.of_nat k) v) as Hit.
  { intros vs Hv k v Hk. destruct (Hv k v Hk) as (J1 & J2 & J3 & J4 & f & J5 & J6).
    split_and!; try done. exists f. split; [|done]. rewrite (Hsrc s f E J5). by left. }
  destruct (at_client j) as [b s1|s1|e s1|]; cbn in E; simplify_eq; cbn [cconf_inv] in Hi.
  - destruct (ci_read _ _ Hi) as (rest & Hst & _). destruct (ci_hashes _ _ Hi) as (hs & Hh & Hl).
    pose proof (ci_sent _ _ Hi Hf) as Hw. cbn [app] in Hw.
    split; [rewrite <-Hw; by apply prefix_app_r|]. split; [rewrite Hh, length_app, Hl; lia|].
    split; [by apply Hit, (ci_items _ _ Hi)|by exists rest].
  - destruct (cb_end _ _ Hi) as [Hfail|(_ & Hl & Hw)]; [congruence|].
    specialize (Hw Hf). cbn [app] in Hw. split; [by rewrite Hw|]. split; [done|].
    split; [by apply Hit, (cb_items _ _ Hi)|exact (cb_read _ _ Hi)].
Qed.

Lemma fine_client j : joint_fine j → ∃ s, cli_of (at_client j) = Some s.
Proof. intros [_ _ _ _ Hc]. destruct (at_client j); cbn in *; eauto; done. Qed.

(** The hashes the client has got are hashes the server has got before. *)
Lemma hashes_behind j s : jinv j → joint_fine j → srv_of (at_server j) = Some s →
  ev_hashes (client_log j)
    = take (length (ev_hashes (client_log j))) (hash ∘ snd <$> h_recvd (Server.hasher s))
  ∧ (length (ev_hashes (client_log j)) ≤ length (h_recvd (Server.hasher s)))%nat.
Proof.
  intros Hj Hf E. destruct (fine_client j Hf) as [sc Ec].
  destruct (client_sent j sc Hj Hf Ec) as (_ & _ & _ & rest & Hst).
  rewrite <-(length_fmap (hash ∘ snd) (h_recvd (Server.hasher s))).
  apply (strings_of_frames 256 _ (to_client j) _ rest); [| |done].
  { intros x (v & -> & Hv)%list_elem_of_fmap. apply list_elem_of_lookup_1 in Hv as [k Hk]. cbn.
    rewrite (proj2 (ji_old _ Hj s Hf E _ _ Hk)). apply hash_data_sends. }
  etrans; [exact (ji_to_client _ Hj s E)|]. pose proof (ji_server _ Hj) as Hi.
  assert (hash_inv (sent0:=[]) (Server.ev_items (server_log j)) s
    ∧ h_recvd (Server.hasher s) = [] ++ Server.ev_items (server_log j)) as [Hh Hr].
  { destruct (at_server j) as [b s1|e s1|e s1|]; cbn in E; simplify_eq; cbn [conf_inv] in Hi.
    - split; [by apply (si_hash _ _ Hi), jf_hash|exact (si_recvd _ _ Hi)].
    - destruct Hi as (_ & _ & Hi & _ & Hr). split; [by apply Hi, jf_hash|exact Hr]. }
  unfold hash_inv in Hh. cbn [app] in Hh, Hr. rewrite Hr. fold (hash_bytes (hash ∘ snd <$> Server.ev_items (server_log j))).
  rewrite <-hash_frames_bytes, <-Hh. by apply prefix_app_r.
Qed.

(** The blocks the server has got are before the hashes it has got. *)
Lemma blocks_behind j s rest : jinv j → joint_fine j → srv_of (at_server j) = Some s →
  frames bsz fsz (to_server j) (ev_blocks (server_log j)) rest →
  Forall (block_before fsz bsz (lenN (h_recvd (Server.hasher s)))) (ev_blocks (server_log j)).
Proof.
  intros Hj Hf E Hfr. destruct (fine_client j Hf) as [sc Ec].
  destruct (client_sent j sc Hj Hf Ec) as (Hw & Hl & Hit & _).
  destruct (hashes_behind j s Hj Hf E) as [_ Hle].
  pose proof (differing_before Hs [src] _ (ev_hashes (client_log j))
    (lenN (h_recvd (Server.hasher s))) Hit Hl ltac:(unfold lenN; lia)) as Hbs.
  set (bs := sent_block (bsz:=bsz) <$> _) in Hbs.
  destruct (blocks_received bsz fsz (to_server j) (ev_blocks (server_log j)) rest bs) as [-> _].
  - eapply Forall_impl; [|exact Hbs]. by intros ? [? _].
  - etrans; [exact (ji_to_server _ Hj sc Ec)|]. rewrite item_frames_blocks in Hw. exact Hw.
  - done.
  - apply Forall_take. eapply Forall_impl; [|exact Hbs]. by intros ? [_ ?].
Qed.

(** So the destination still has its old blocks from there on. *)
Lemma dest_spares j b s : jinv j → joint_fine j → at_server j = SRun b s →
  spares fsz bsz (lenN (h_recvd (Server.hasher s))) old (d_content (dest s)).
Proof.
  intros Hj Hf E. pose proof (ji_server _ Hj) as Hi. rewrite E in Hi. cbn [conf_inv] in Hi.
  destruct (si_read _ _ Hi) as (c & Hfr & _).
  pose proof (blocks_behind j s _ Hj Hf ltac:(by rewrite E) Hfr) as Hbef.
  pose proof (si_disk _ _ Hi (jf_disk _ Hf)) as Hdisk. unfold disk_inv in Hdisk.
  set (n := lenN (h_recvd (Server.hasher s))) in *.
  destruct (to_disk s) as [wa|]; [|rewrite Hdisk; by apply patches_spares].
  destruct Hdisk as (bs' & [off data] & Hbs & _ & Hc & _). rewrite Hc. rewrite Hbs in Hbef.
  apply Forall_app in Hbef as [H1 (k & K1 & K2 & K3 & K4)%Forall_singleton]. cbn in K3, K4 |- *. subst off.
  pose proof (patches_spares fsz bsz old n bs' Hs Hold H1) as Hsp.
  apply (spares_trans _ _ _ _ (patches old bs')); [exact Hsp|]. destruct Hsp as [Hl _].
  apply patch_spares; [done|congruence|done| |done]. unfold lenN in *. len_lia.
Qed.

Lemma server_step_over (c : sconf) es c' : server_step fuelS c = (es, c') → is_Some (srv_of c') →
  is_Some (srv_of c) ∧ ((∀ b s, c ≠ SRun b s) → c' = c ∧ es = []).
Proof.
  destruct c as [b s|e s|e s|]; cbn; intros E Hc; simplify_eq; [|done|by destruct Hc..].
  split; [by eexists|]. intros Hn. by destruct (Hn b s).
Qed.

Lemma client_step_over (c : cconf) es c' :
  client_step bsz (div_ceil fsz bsz) fuelC c = (es, c') → is_Some (cli_of c') →
  is_Some (cli_of c) ∧ ((∀ b s, c ≠ CRun b s) → c' = c ∧ es = []).
Proof.
  destruct c as [b s|s|e s|]; cbn; intros E Hc; simplify_eq; [|done|by destruct Hc..].
  split; [by eexists|]. intros Hn. by destruct (Hn b s).
Qed.

(** A run that is fine now has been fine. *)
Lemma fine_before j j' : jstep j j' → joint_fine j' → joint_fine j.
Proof.
  intros Hst Hf. pose proof (fine_client j' Hf) as [sc' Hsc]. destruct Hf as [F1 F2 F3 F4 F5].
  destruct Hst as [es c' E _|es c' E _|b s s' bs E _ _ _|b s s' bs E _ _|b s s' E _ _ _];
    cbn in F1, F2, F3, F4, F5, Hsc.
  - apply disk_fine_app in F1 as [F1 _]. apply hash_fine_app in F2 as [F2 _].
    split; try done. by apply (server_step_over _ _ _ E).
  - apply send_fine_app in F3 as [F3 _]. split; try done.
    destruct (client_step_over _ _ _ E) as [Hs0 Hover]; [by eexists|].
    destruct (at_client j) as [b s|s|e s|]; [done| |by destruct Hs0..].
    destruct Hover as [-> _]; [done|]. exact F5.
  - split; try done. rewrite E. by eexists.
  - split; try done. by rewrite E.
  - split; try done. rewrite E. by eexists.
Qed.

(** What the workers of the server can have read has the old blocks that are
    still to be hashed. *)
Lemma files_spare j b s f : jinv j → joint_fine j → at_server j = SRun b s →
  f ∈ h_contents (Server.hasher s) ∨ f = d_content (dest s) →
  spares fsz bsz (lenN (h_recvd (Server.hasher s))) old f.
Proof. intros Hj Hf E [Hin| ->]; [by eapply ji_files|by eapply dest_spares]. Qed.

Lemma spares_less n n' f : n ≤ n' → spares fsz bsz n old f → spares fsz bsz n' old f.
Proof. intros Hn [H1 H2]. split; [done|]. intros k Hk. apply H2. lia. Qed.

(** The old blocks keep their hashes, whichever branch the server polls. *)
Lemma server_step_old j b s es c' s' : jinv j → joint_fine j → at_server j = SRun b s →
  server_step fuelS (SRun b s) = (es, c') → reads_dest (SRun b s) c' → srv_of c' = Some s' →
  old_items (h_recvd (Server.hasher s'))
  ∧ ∀ f, f ∈ h_contents (Server.hasher s') →
      spares fsz bsz (lenN (h_recvd (Server.hasher s'))) old f.
Proof.
  intros Hj Hf E Est Hrd Hq.
  assert (∀ f, f ∈ h_contents (Server.hasher s') →
    spares fsz bsz (lenN (h_recvd (Server.hasher s))) old f) as Hsp.
  { intros f Hin. eapply files_spare; [done..|]. by eapply Hrd. }
  pose proof (ji_old _ Hj s Hf ltac:(by rewrite E)) as Hitems.
  pose proof (ji_server _ Hj) as Hi. rewrite E in Hi. cbn [conf_inv] in Hi.
  destruct (server_step_recvd _ _ _ _ _ _ (si_ok _ _ Hi) Est Hq) as [->|(_ & v & Hr & Hv)]; [by split|].
  rewrite Hr. split.
  - destruct Hv as (V1 & V2 & V3 & _ & f & Hin & V4). intros k w Hw.
    apply lookup_app_Some in Hw as [Hw|[Hge Hw]]; [by apply Hitems|].
    apply list_lookup_singleton_Some in Hw as [Hk <-].
    assert (N.of_nat k = lenN (h_recvd (Server.hasher s))) as -> by (unfold lenN; lia).
    split; [done|]. rewrite V3, V4. f_equal. by apply (Hsp f Hin).
  - intros f Hin. eapply spares_less; [|by apply Hsp]. unfold lenN. rewrite length_app. lia.
Qed.

Lemma jinv_server j es c' : jinv j →
  server_step fuelS (at_server j) = (es, c') → reads_dest (at_server j) c' →
  jinv (MkJoint c' (at_client j) (server_log j ++ es) (client_log j) (to_server j) (to_client j)).
Proof.
  intros Hj E Hrd. pose proof Hj as [J1 J2 J3 J4 J5 J6 J7 J8].
  pose proof (λ Hf, fine_before j _ (j_server j es c' E Hrd) Hf) as Hback.
  assert (∀ s', srv_of c' = Some s' →
    (∃ b s, at_server j = SRun b s) ∨ c' = at_server j ∧ es = []) as Hrun.
  { intros s' Hq. destruct (server_step_over _ _ _ E) as [Hs0 Hover]; [by eexists|].
    destruct (at_server j) as [b s|e s|e s|]; [left; eauto|right; by apply Hover|by destruct Hs0..]. }
  split; cbn; try done.
  - by eapply (server_step_inv bsz_small).
  - intros s' Hq. destruct (Hrun s' Hq) as [(b & s & Eb)|[-> ->]]; [|by apply J4].
    rewrite Eb in E, J4. etrans; [by apply J4|]. by eapply server_step_sent.
  - intros sc Hcl Hsc. destruct (at_server j) as [b s|e s|e s|] eqn:Eb.
    + cbn [conf_inv] in J1. pose proof (server_step_ended bsz_small _ _ _ _ _ _ _ _ _ _ J1 E) as He.
      apply J6; [|done]. cbn. destruct c' as [b' s'|e s'|e s'|]; cbn in Hcl; try done.
      * by rewrite <-He.
      * destruct He as [[k ->]|He]; [by destruct (Hcl k)|done].
    + cbn in E. simplify_eq. by apply J6.
    + cbn in E. by simplify_eq.
    + cbn in E. by simplify_eq.
  - intros s' Hf Hq. destruct (Hrun s' Hq) as [(b & s & Eb)|[-> ->]]; [|by apply J7; [apply Hback|]].
    rewrite Eb in E, Hrd. by eapply (server_step_old j b s); [|apply Hback|..].
  - intros b' s' f Hf -> Hin. destruct (Hrun s' eq_refl) as [(b & s & Eb)|[Heq ->]].
    + rewrite Eb in E, Hrd. by eapply (server_step_old j b s); [|apply Hback|..].
    + by eapply J8; [apply Hback|..].
Qed.

Lemma jinv_client j es c' : jinv j →
  client_step bsz (div_ceil fsz bsz) fuelC (at_client j) = (es, c') → reads_source (at_client j) c' →
  jinv (MkJoint (at_server j) c' (server_log j) (client_log j ++ es) (to_server j) (to_client j)).
Proof.
  intros Hj E Hrd. pose proof Hj as [J1 J2 J3 J4 J5 J6 J7 J8].
  pose proof (λ Hf, fine_before j _ (j_client j es c' E Hrd) Hf) as Hback.
  assert (∀ s', cli_of c' = Some s' →
    (∃ b s, at_client j = CRun b s) ∨ c' = at_client j ∧ es = []) as Hrun.
  { intros s' Hq. destruct (client_step_over _ _ _ E) as [Hs0 Hover]; [by eexists|].
    destruct (at_client j) as [b s|s|e s|]; [left; eauto|right; by apply Hover|by destruct Hs0..]. }
  split; cbn; try done.
  - rewrite div_ceil_num_blocks in E by (apply Hs || apply bsz_fits).
    eapply (client_step_inv (proj1 Hs) bsz_fits); [exact J2|exact E].
  - intros s' Hq. destruct (Hrun s' Hq) as [(b & s & Eb)|[-> ->]]; [|by apply J3].
    rewrite Eb in E, J3. etrans; [by apply J3|]. by eapply client_step_sent.
  - intros s' f Hq Hin. destruct (Hrun s' Hq) as [(b & s & Eb)|[-> ->]]; [|by eapply J5].
    destruct (Hrd b s s' f Eb Hq Hin) as [Hin'|]; [|done]. apply (J5 s f); [by rewrite Eb|done].
  - intros s' Hcl Hq. destruct (Hrun s' Hq) as [(b & s & Eb)|[-> ->]]; [|by apply J6].
    destruct (J6 s Hcl ltac:(by rewrite Eb)) as [Hbr _]. by rewrite Eb in Hbr.
  - intros s Hf. apply J7. by apply Hback.
  - intros b s f Hf. apply J8. by apply Hback.
Qed.

Lemma jinv_server_moves j b s s' bs : jinv j → at_server j = SRun b s →
  server_moves (h_ok:=hs_ok) bs s s' →
  (ended (client_rx s') = true → ended (client_rx s) = true ∨ client_gone (at_client j) = true
     ∧ to_server j = sent_by_client (at_client j)) →
  (to_server j ++ bs) `prefix_of` sent_by_client (at_client j) →
  jinv (MkJoint (SRun b s') (at_client j) (server_log j) (client_log j) (to_server j ++ bs) (to_client j)).
Proof.
  intros Hj E Hm He Hp.
  assert (∀ x, joint_fine (MkJoint (SRun b s') (at_client j) (server_log j) (client_log j) x
    (to_client j)) → joint_fine j) as Hback.
  { intros x [F1 F2 F3 F4 F5]. split; try done. rewrite E. by eexists. }
  pose proof Hj as [J1 J2 J3 J4 J5 J6 J7 J8].
  rewrite E in J1, J4. cbn [conf_inv] in J1.
  split; cbn; try done.
  - by eapply server_moves_inv.
  - intros sc Hsc. destruct (at_client j); cbn in Hsc; by simplify_eq.
  - intros s1 Hs1. simplify_eq. rewrite (sm_sent _ _ _ Hm). by apply J4.
  - intros sc Hcl Hsc.
    assert (at_client j = CBroke sc ∧ to_server j = written (stream_tx sc)) as [Hbr Ht].
    { destruct (He Hcl) as [He'|[H1 H2]]; [apply J6; [by rewrite E|done]|].
      destruct (at_client j); cbn in Hsc, H1, H2; by simplify_eq. }
    split; [done|]. rewrite Hbr, Ht in Hp. cbn in Hp. apply prefix_length in Hp as Hlen.
    rewrite length_app in Hlen. destruct bs; [by rewrite (right_id_L [] (++))|cbn in Hlen; lia].
  - intros s1 Hf Hs1. simplify_eq. rewrite (sm_recvd _ _ _ Hm).
    apply J7; [by eapply Hback|by rewrite E].
  - intros b1 s1 f Hf [= <- <-] Hin. rewrite (sm_recvd _ _ _ Hm).
    eapply files_spare; [done|by eapply Hback|done|]. by apply (sm_files _ _ _ Hm).
Qed.

Lemma jinv_client_moves j b s s' bs : jinv j → at_client j = CRun b s →
  client_moves (h_ok:=hc_ok) src bs s s' →
  (to_client j ++ unread bs s) `prefix_of` sent_by_server (at_server j) →
  jinv (MkJoint (at_server j) (CRun b s') (server_log j) (client_log j) (to_server j)
                (to_client j ++ unread bs s)).
Proof.
  intros Hj E Hm Hp.
  assert (∀ x, joint_fine (MkJoint (at_server j) (CRun b s') (server_log j) (client_log j)
    (to_server j) x) → joint_fine j) as Hback.
  { intros x [F1 F2 F3 F4 F5]. split; try done. by rewrite E. }
  pose proof Hj as [J1 J2 J3 J4 J5 J6 J7 J8].
  rewrite E in J2, J3, J5, J6. cbn [cconf_inv] in J2.
  split; cbn; try done.
  - by eapply client_moves_inv.
  - intros s1 Hs1. simplify_eq. rewrite (cm_sent _ _ _ _ Hm). by apply J3.
  - intros s1 Hs1. destruct (at_server j); cbn in Hs1; by simplify_eq.
  - intros s1 f Hs1 Hin. simplify_eq. apply (cm_files _ _ _ _ Hm) in Hin as [Hin|]; [|done].
    by eapply J5.
  - intros s1 Hcl Hs1. by destruct (J6 s Hcl eq_refl) as [? _].
  - intros s1 Hf. apply J7. by eapply Hback.
  - intros b1 s1 f Hf. apply J8. by eapply Hback.
Qed.

(** Every step preserves the invariant. *)
Lemma jinv_step j j' : jinv j → jstep j j' → jinv j'.
Proof.
  intros Hj [es c' E H|es c' E H|b s s' bs E H1 H2 H3|b s s' bs E H1 H2|b s s' E H1 H2 H3].
  - by apply jinv_server.
  - by apply jinv_client.
  - apply (jinv_server_moves j b s); try done. rewrite H2. by left.
  - by apply (jinv_client_moves j b s).
  - pose proof (jinv_server_moves j b s s' [] Hj E H1) as Hinv. rewrite (right_id_L [] (++)) in Hinv.
    apply Hinv; [|by rewrite H3]. intros _. by right.
Qed.

Lemma jinv_init rxS txS file hS t rxC txC hC : starts rxS txS file hS rxC txC hC →
  d_content file = old → jinv (joint_init rxS txS file hS t rxC txC hC).
Proof.
  intros [(R1 & R2 & R3) (W1 & W2) (S1 & S2 & S3) (C1 & C2 & C3)] Hfile. split.
  - pose proof (server_init_inv fsz bsz fsz algorithm hs_ok rxS txS file hS S1) as Hi.
    rewrite R1, W1, S2, Hfile in Hi. exact Hi.
  - pose proof (client_init_inv bsz fsz algorithm hc_ok t rxC txC hC Hfz (proj1 Hs) C1 C2) as Hi.
    rewrite R3, W2 in Hi. exact Hi.
  - intros s Hc. cbn in Hc. simplify_eq. cbn. by rewrite W2.
  - intros s Hc. cbn in Hc. simplify_eq. cbn. by rewrite W1.
  - intros s f Hc. cbn in Hc. simplify_eq. apply C3.
  - intros s Hcl. cbn in Hcl. congruence.
  - intros s _ Hc. cbn in Hc. simplify_eq. cbn. rewrite S2. intros k v Hk. by rewrite lookup_nil in Hk.
  - intros b s f _ [= <- <-]. cbn. rewrite S2. intros ->%S3. rewrite Hfile. by split.
Qed.

Lemma jinv_reach j j' : jinv j → rtc jstep j j' → jinv j'.
Proof. intros Hj. induction 1 as [|j j1 j2 H1 _ IH]; [done|]. by eapply IH, jinv_step. Qed.

(** When both loops are over, the destination is the source, provided that the
    hash tells apart the blocks of the source from the old blocks of the same
    rank. *)
Lemma joint_content j e ss sc : jinv j → joint_fine j →
  at_server j = SBroke e ss → (∀ k, e ≠ EIo k) → at_client j = CBroke sc → lenN src = fsz →
  (∀ k, k < nb → hash_data (block fsz bsz src k) algorithm = hash_data (block fsz bsz old k) algorithm →
     block fsz bsz src k = block fsz bsz old k) →
  d_content (dest ss) = src.
Proof.
  intros Hj Hf Es He Ec Hsrc Hcoll.
  destruct (client_sent j sc Hj Hf ltac:(by rewrite Ec)) as (_ & _ & Hit & _).
  pose proof (hashes_behind j ss Hj Hf ltac:(by rewrite Es)) as [Hh _].
  pose proof (ji_old _ Hj ss Hf ltac:(by rewrite Es)) as Hdest.
  pose proof (ji_client _ Hj) as Hc. rewrite Ec in Hc. cbn [cconf_inv] in Hc.
  destruct Hc as [_ _ _ _ [B5|(Hn & Hle & Hw)]];
    [pose proof (jf_client _ Hf) as F; rewrite Ec in F; congruence|].
  specialize (Hw (jf_send _ Hf)). cbn [app] in Hw.
  pose proof (ji_server _ Hj) as Hi. rewrite Es in Hi. cbn [conf_inv] in Hi.
  destruct Hi as ((rest & Hfr & Hp) & Hdisk & _). rewrite (Hdisk (jf_disk _ Hf)).
  assert (RB.parse_block bsz fsz rest = Err e) as Hpe by (destruct e; try done; by destruct (He k)).
  destruct (ji_closed _ Hj sc) as [_ Hts]; [by rewrite Es|by rewrite Ec|].
  set (items := Client.ev_items (client_log j)) in *. set (hashes := ev_hashes (client_log j)) in *.
  pose proof (differing_blocks Hs [src] items hashes Hit Hle) as Hbs.
  pose proof (frames_blocks bsz fsz _ [] Hbs) as Hfr2. rewrite (right_id_L [] (++)) in Hfr2.
  rewrite Hts, Hw, item_frames_blocks in Hfr.
  destruct (parses_all _ _ _ _ _ _ _ EClosed Hfr Hpe Hfr2 eq_refl) as [-> _].
  assert (hashes = take (length items) hashes ++ drop (length items) hashes) as Hsplit
    by (by rewrite take_drop).
  assert (length (take (length items) hashes) = length items) as Htl by (rewrite length_take; lia).
  rewrite Hsplit, differing_more by lia. set (hs := take (length items) hashes) in *.
  destruct (patches_differing (algorithm:=algorithm) Hs src old items hs Hsrc Hold) as [H1 H2];
    [done|lia|intros k v Hv; by apply item_ok_block, Hit| |].
  { intros k v Hv Hk. destruct (item_ok_block _ _ _ (Hit k v Hv)) as (_ & _ & Hv2).
    apply lookup_lt_Some in Hv as Hlt. apply Hcoll; [unfold lenN in Hn; lia|].
    assert (hashes !! k = Some (hash v.2)) as Hk' by (rewrite Hsplit; by apply lookup_app_l_Some).
    rewrite Hh in Hk'. apply lookup_take_Some in Hk' as [Hk' _].
    apply list_lookup_fmap_Some_1 in Hk' as (w & Hw' & Hk').
    rewrite <-Hv2, Hw'. cbn. by apply Hdest. }
  apply (blocks_determine fsz bsz); [done..|]. intros k Hk.
  rewrite H2 by done. by rewrite decide_True by lia.
Qed.
End sync.
