(* ===== verification/Progress.v ===== *)
(** The two loops on objects that do not fail (Server.v, Client.v): every poll
    brings an end nearer to the end of its loop, or its branch has nothing to do.
    What is left is counted by [server_credit] and [client_credit]: bytes to
    arrive and to read, blocks to write, hashes to receive and to send, stalls to
    come.  Both read from a [Socket] (AsyncIO.v), so that a read waits only when
    all was read and fails only when the connection has ended. *)

From stdpp Require Import base option list gmap numbers.
From Stdlib Require Import NArith Lia.
From S2P Require Import Prelude AsyncIO Utf8 Wire Loan Resumable ResumableString ResumableBlock.
From S2P Require Import Disk OrderedChannel HashFile Pipeline Hasher Overwrite Server Client Sync.
#[local] Open Scope N_scope.

(** ** Reading from a socket *)

(** A read waits only when all was read, and fails only at the end. *)
Lemma sock_read_loop fuel base bound off buf (r : Socket) e off' buf' r' :
  read_loop fuel base bound off buf r = (e, off', buf', r') →
  bound < W64 → base ≤ off ≤ bound → lenN buf = bound - base →
  sock_ended r' = sock_ended r
  ∧ match e with
    | LPending => sock_bytes r' = [] ∧ sock_ended r = false
    | LErr err => sock_ended r = true ∧ err = EClosed
    | _ => True
    end.
Proof.
  revert off buf r. induction fuel as [|fuel IH]; intros off buf [bs fin]; cbn [read_loop];
    (destruct (N.ltb_spec off bound); [|by intros; simplify_eq]); [by intros; simplify_eq|].
  intros E Hw Hb Hlen. cbn [poll_read sock_read] in E. unfold sock_poll_read in E.
  cbn [sock_bytes sock_ended] in *. destruct bs as [|b bs].
  { destruct fin; by simplify_eq. }
  destruct (length buf - N.to_nat (off - base))%nat as [|cap] eqn:Hcap; [len_lia|].
  cbn [take drop] in E.
  assert (length (b :: take cap bs) ≤ S cap)%nat as Hle by (cbn; rewrite length_take; lia).
  rewrite wadd_small in E by len_lia.
  apply IH in E; cbn [sock_ended] in E; [done|done|len_lia|].
  unfold lenN. rewrite length_write_at by len_lia. len_lia.
Qed.

Definition sock_answer {Pc A} (fails : Error → Prop) (o : Outcome Pc A) (r r' : Socket) : Prop :=
  sock_ended r' = sock_ended r
  ∧ match o with
    | Suspended _ => sock_bytes r' = [] ∧ sock_ended r = false
    | Returned (Err e) => sock_ended r = true ∧ e = EClosed ∨ fails e
    | _ => True
    end.

Lemma sock_payload_loop self buf (s : bytes) (r : Socket) o self' buf' r' :
  RB.buf_offset self = 8 + lenN s → lenN s ≤ lenN buf → lenN buf + 8 < W64 →
  RB.payload_loop self buf r = (o, self', buf', r') → sock_answer (λ _, False) o r r'.
Proof.
  intros Hoff Hle Hw. unfold RB.payload_loop. rewrite (wadd_small (lenN buf) 8) by lia.
  destruct (read_loop _ _ _ _ _ _) as [[[x off] b] r1] eqn:E.
  apply sock_read_loop in E as [E1 E2]; [|lia|lia|lia].
  destruct x as [| |err|]; intros; simplify_eq; (split; [done|]); try done. by left.
Qed.

(** [ResumableReadFileBlock] on a socket. *)
Lemma sock_read_block self buf c (r : Socket) o self' buf' r' :
  RB.holds self buf c → RB.block_size self + 8 < W64 → RB.read_on self buf r = (o, self', buf', r') →
  sock_answer (λ _, False) o r r'.
Proof.
  intros [Hs Hoff Hc Htk|s Ho Hc Hoff Hsz Hlt Htk] Hw; unfold RB.read_on.
  - replace (RB.buf_offset self <? 8) with true by (symmetry; apply N.ltb_lt; lia).
    unfold RB.header_loop. destruct (read_loop _ _ _ _ _ _) as [[[x off] b] r1] eqn:E.
    assert (lenN (resize 8 Byte.x00 buf) = 8) as Hl by (unfold lenN; by rewrite length_resize).
    pose proof E as E'. apply sock_read_loop in E' as [E1 E2]; [|by vm_compute|lia|lia].
    destruct x as [| |err|]; [| | |by intros; simplify_eq].
    + apply read_loop_spec in E as [[k ?]|(bs & _ & _ & _ & _ & _ & ->)]; [done| |by vm_compute|lia|lia|lia].
      unfold RB.header_done. cbv zeta. intros E3.
      apply (sock_payload_loop _ _ []) in E3 as [E4 E5]; cbn [RB.buf_offset RB.block_size RB.file_size] in *.
      * split; [congruence|]. by rewrite E1 in E5.
      * done.
      * apply N.le_0_l.
      * unfold lenN. rewrite length_resize, N2Nat.id.
        eapply N.le_lt_trans; [apply N.add_le_mono_r, RB.current_block_size_le|done].
    + intros; by simplify_eq.
    + intros; simplify_eq. split; [done|]. by left.
  - assert (8 ≤ RB.buf_offset self) as H8 by (rewrite Hoff, Hc; len_lia).
    replace (RB.buf_offset self <? 8) with false by (symmetry; apply N.ltb_ge; lia).
    apply (sock_payload_loop _ _ s); [rewrite Hoff, Hc; len_lia|lia|].
    pose proof (RB.current_block_size_le (RB.block_size self) (RB.file_size self) (RB.offset self)). lia.
Qed.

(** A string that is refused for what it is. *)
Definition bad_string (e : Error) : Prop := e = EFromUtf8 ∨ ∃ sz max, e = EStringTooLong sz max.

Lemma sock_string_payload self (s : bytes) (r : Socket) o self' r' :
  RS.size self = lenN (RS.buf self) → RS.offset self = 8 + lenN s → lenN s ≤ lenN (RS.buf self) →
  lenN (RS.buf self) + 8 < W64 →
  RS.payload_loop self r = (o, self', r') → sock_answer bad_string o r r'.
Proof.
  intros Hsz Hoff Hle Hw. unfold RS.payload_loop. rewrite Hsz, (wadd_small (lenN _) 8) by lia.
  destruct (read_loop _ _ _ _ _ _) as [[[x off] b] r1] eqn:E.
  apply sock_read_loop in E as [E1 E2]; [|lia|lia|lia].
  destruct x as [| |err|]; intros; simplify_eq; (split; [done|]); try done.
  - unfold string_from_utf8. destruct (utf8_valid b); [done|]. right. by left.
  - by left.
Qed.

(** [ResumableReadString] on a socket. *)
Lemma sock_read_string self c (r : Socket) o self' r' :
  RS.holds self c → RS.max_len self + 8 < W64 → RS.read_on self r = (o, self', r') →
  sock_answer bad_string o r r'.
Proof.
  intros [Hs Hoff Hc Htk|s Hsz Hb -> Hoff Hlt Htk] Hw; unfold RS.read_on.
  - rewrite Hs. cbn [N.eqb]. unfold RS.header_loop. cbn [RS.offset RS.buf RS.size RS.max_len].
    destruct (read_loop _ _ _ _ _ _) as [[[x off] b] r1] eqn:E.
    assert (lenN (resize 8 Byte.x00 (RS.buf self)) = 8) as Hl by (unfold lenN; by rewrite length_resize).
    pose proof E as E'. apply sock_read_loop in E' as [E1 E2]; [|by vm_compute|lia|lia].
    destruct x as [| |err|]; [| | |by intros; simplify_eq].
    + apply read_loop_spec in E as [[k ?]|(bs & _ & _ & _ & _ & _ & ->)]; [done| |by vm_compute|lia|lia|lia].
      unfold RS.header_done. cbn [RS.offset RS.buf RS.size RS.max_len].
      destruct (N.ltb_spec (RS.max_len self) (be_load_loop 0 b)) as [Hlt|Hge].
      { intros; simplify_eq. split; [done|]. right. right. by do 2 eexists. }
      intros E3. apply (sock_string_payload _ []) in E3 as [E4 E5]; cbn [RS.offset RS.buf RS.size RS.max_len] in *.
      * split; [congruence|]. by rewrite E1 in E5.
      * unfold lenN. by rewrite length_resize, N2Nat.id.
      * done.
      * apply N.le_0_l.
      * unfold lenN. rewrite length_resize, N2Nat.id. lia.
    + intros; by simplify_eq.
    + intros; simplify_eq. split; [done|]. by left.
  - destruct (N.eqb_spec (RS.size self) 0); [lia|].
    apply (sock_string_payload _ s); [done|rewrite Hoff; len_lia|lia|lia].
Qed.

(** ** Writing to an object that does not fail *)

Section reliable.
Context {W : Type} `{!AsyncWrite W, !Reliable W}.

Lemma sound_write_loop fuel off buf (w : W) e off' w' : sound w →
  write_loop fuel off buf w = (e, off', w') → sound w' ∧ ∀ err, e ≠ LErr err.
Proof.
  revert off w. induction fuel as [|fuel IH]; intros off w Hw; cbn [write_loop];
    (destruct (off <? lenN buf); [|by intros; simplify_eq]); [by intros; simplify_eq|].
  destruct (poll_write w _) as [[[n|err]|] w1] eqn:Hp; intros E;
    apply sound_write in Hp as [Hw1 He]; try done.
  - by eapply IH.
  - by destruct (He err).
  - by simplify_eq.
Qed.

Lemma sound_write_block p fuel self (w : W) o self' w' : sound w →
  match p with None => WB.write_to | Some p => WB.resume p end fuel self w = (o, self', w') →
  sound w' ∧ ∀ err, o ≠ Returned (Err err).
Proof.
  assert (∀ f len ob (w : W) e len' ob' w', sound w → WB.offset_loop f len ob w = (e, len', ob', w') →
    sound w' ∧ ∀ err, e ≠ LErr err) as Hloop.
  { intros f. induction f as [|f IH]; intros len ob v e len' ob' v' Hv; cbn [WB.offset_loop];
      (destruct (0 <? len); [|by intros; simplify_eq]); [by intros; simplify_eq|].
    destruct (poll_write v _) as [[[n|err]|] v1] eqn:Hp; intros E;
      apply sound_write in Hp as [Hv1 He]; try done.
    - by eapply IH.
    - by destruct (He err).
    - by simplify_eq. }
  assert (∀ self (w : W) o self' w', sound w → WB.payload_loop fuel self w = (o, self', w') →
    sound w' ∧ ∀ err, o ≠ Returned (Err err)) as Hpay.
  { intros x v o1 x' v' Hv. unfold WB.payload_loop. destruct (write_loop _ _ _ _) as [[e off] v1] eqn:E.
    apply sound_write_loop in E as [H1 H2]; [|done].
    destruct e; intros; simplify_eq; try done. by destruct (H2 e). }
  assert (∀ self (w : W) o self' w', sound w → WB.offset_step fuel self w = (o, self', w') →
    sound w' ∧ ∀ err, o ≠ Returned (Err err)) as Hoff.
  { intros x v o1 x' v' Hv. unfold WB.offset_step.
    destruct (WB.offset_loop _ _ _ _) as [[[e len] ob] v1] eqn:E. apply Hloop in E as [H1 H2]; [|done].
    destruct e; intros E'; simplify_eq; try done; [by eapply Hpay|by destruct (H2 e)]. }
  intros Hw. destruct p as [[]|]; cbn [WB.resume]; [by apply Hoff|by apply Hpay|].
  unfold WB.write_to. case_match; [by apply Hoff|by apply Hpay].
Qed.
End reliable.

(** ** The server *)

Section server.
Context {W D H : Type} `{!AsyncWrite W, !AsyncWriteLaws W, !FairWrite W, !WriteProgress W, !Reliable W}.
Context `{!AsyncWrite D, !AsyncWriteLaws D, !DiskFile D, !DiskLaws D, !FairWrite D, !FairSeek D}.
Context `{!WriteProgress D, !Reliable D, !ReliableDisk D}.
Context {Hh : Hasher H} {Hg : Hashing} {Hgl : HashingLaws}.
Context {fsz bsz : N} {algorithm : HashAlgorithm} {h_ok : H → Prop}.
Context {Hlaws : HasherLaws H fsz bsz algorithm h_ok} {Hsure : SureHasher H h_ok} {Hfair : FairHasher H h_ok}.
Context {total content0 sent0 : bytes} {recvd0 : list Val}.
Context (Hbsz : bsz + 8 < W64) (fuel : nat) (Hfuel : (N.to_nat bsz ≤ fuel ∧ 40 ≤ fuel)%nat).
#[local] Abbreviation nb := (num_blocks fsz bsz).
#[local] Abbreviation srv := (Srv Socket W D H).
#[local] Abbreviation inv := (srv_inv (h_ok:=h_ok) (bsz:=bsz) (fsz:=fsz) (total:=total)
  (content0:=content0) (sent0:=sent0) (recvd0:=recvd0)).
Implicit Types s : srv.

(** What is left of the hashes: to receive, to send. *)
Definition hash_credit s : nat :=
  (wstalls (client_tx s) + opt_count (wr_hash s)
   + 2 * (N.to_nat nb - length (h_recvd (Server.hasher s)))
   + (if hashing_done s then 0 else 1) + h_stalls (Server.hasher s))%nat.

(** All that is left, when [k] bytes are still to arrive. *)
Definition server_credit (k : nat) s : nat :=
  (Server.credit (λ r, 2 * (k + length (sock_bytes r))) s + hash_credit s)%nat.

(** A branch that is disabled, or has nothing to read. *)
Definition server_idle (b : Branch) s : Prop :=
  match b with
  | Server.BDisk => to_disk s = None
  | Server.BRead => is_Some (to_disk s) ∨ sock_bytes (client_rx s) = [] ∧ sock_ended (client_rx s) = false
  | Server.BHash => wr_hash s = None
  | Server.BRecv => is_Some (wr_hash s) ∨ hashing_done s = true
  end.

(** Nothing of this has changed. *)
Record server_quiet s s' : Prop := {
  sq_disk : to_disk s' = to_disk s;
  sq_hash : wr_hash s' = wr_hash s;
  sq_done : hashing_done s' = hashing_done s;
  sq_rx : sock_bytes (client_rx s') = sock_bytes (client_rx s)
    ∧ sock_ended (client_rx s') = sock_ended (client_rx s);
  sq_tx : client_tx s' = client_tx s;
}.

#[export] Instance server_quiet_refl : Reflexive server_quiet.
Proof. by split. Qed.
#[export] Instance server_quiet_trans : Transitive server_quiet.
Proof. intros s1 s2 s3 [A1 A2 A3 [A4 A5] A6] [B1 B2 B3 [B4 B5] B6]. split; [congruence..|split; congruence|congruence]. Qed.

Lemma server_quiet_idle b s s' : server_quiet s s' → server_idle b s → server_idle b s'.
Proof. intros [A1 A2 A3 [A4 A5] _]. destruct b; cbn; by rewrite ?A1, ?A2, ?A3, ?A4, ?A5. Qed.

(** No write will fail; when the hashing is over, every hash was received; no
    block that was received is kept. *)
Record server_good s : Prop := {
  sg_dest : sound (dest s);
  sg_tx : sound (client_tx s);
  sg_done : hashing_done s = true → lenN (h_recvd (Server.hasher s)) = nb;
  sg_loans : h_loans (Server.hasher s) = [];
}.

(** A poll brings the end nearer or finds its branch idle; the loop is left only
    at the end of the connection. *)
Definition server_progress (k : nat) (b : Branch) s (r : SPoll srv) : Prop :=
  match r with
  | SPending s' => server_good s' ∧ (server_credit k s' ≤ server_credit k s)%nat
      ∧ ((server_credit k s' < server_credit k s)%nat ∨ server_idle b s ∧ server_quiet s s')
  | SReady e s' => server_good s' ∧ (server_credit k s' < server_credit k s)%nat
      ∧ ∀ err, e ≠ SvDisk (Err err) ∧ e ≠ SvHash (Err err)
  | SBreak e _ => sock_ended (client_rx s) = true ∧ e = EClosed
  | SReturn _ _ | SSpin => False
  end.

#[local] Arguments server_progress : simpl never.

(** The futures dropped. *)
Lemma server_drop k s : h_ok (Server.hasher s) → server_good s →
  server_good (Server.drop_futures s) ∧ (server_credit k (Server.drop_futures s) ≤ server_credit k s)%nat.
Proof.
  intros Hok [G1 G2 G3 G4]. pose proof (h_cancel_ok (h_ok:=h_ok) _ Hok) as (_ & C & _).
  split.
  { split; cbn; [done..| |by apply (cancel_quiet (h_ok:=h_ok))].
    destruct (Server.recv_polled s); [by rewrite C|done]. }
  unfold server_credit, hash_credit. rewrite Server.drop_futures_credit. cbn.
  pose proof (h_stalls_cancel (Server.hasher s) Hok). destruct (Server.recv_polled s); rewrite ?C; lia.
Qed.

Lemma ready_progress k b s e s' : h_ok (Server.hasher s') → server_good s' →
  (server_credit k s' < server_credit k s)%nat → (∀ err, e ≠ SvDisk (Err err) ∧ e ≠ SvHash (Err err)) →
  server_progress k b s (SReady e (Server.drop_futures s')).
Proof. intros Hok Hgd Hc He. destruct (server_drop k s' Hok Hgd). unfold server_progress. split_and!; [done|lia|done]. Qed.

Lemma idle_progress k b s s' : server_good s' → server_credit k s' = server_credit k s →
  server_idle b s → server_quiet s s' → server_progress k b s (SPending s').
Proof. intros Hgd Hc Hi Hq. unfold server_progress. split_and!; [done|lia|by right]. Qed.

Lemma disk_progress k es s : inv es s → server_good s →
  server_progress k Server.BDisk s (poll_disk fuel s).
Proof.
  intros [S1 S2 S3 S4 S5 S6 S7 S8 S9] [G1 G2 G3 G4]. unfold poll_disk.
  destruct (to_disk s) as [wa|] eqn:Hwa; [|by apply idle_progress].
  pose proof (S4 wa eq_refl) as [Hoff Hlen]. unfold WA.write_all.
  destruct (write_loop fuel (WA.offset wa) (write_buffer s) (dest s)) as [[e off] d'] eqn:E.
  pose proof (write_loop_stalls _ _ _ _ _ _ _ E) as [H1 H2].
  pose proof (sound_write_loop _ _ _ _ _ _ _ G1 E) as [H3 H4].
  assert (e ≠ LFuel) as Hne.
  { intros ->. eapply write_loop_fuel; [| |exact E]; [lia|len_lia]. }
  destruct e as [| |err|]; [| |by destruct (H4 err)|done].
  - apply ready_progress; [done|by split| |done].
    unfold server_credit, hash_credit, Server.credit; cbn. rewrite Hwa. lia.
  - specialize (H2 eq_refl). 
    split; [by split|]. unfold server_credit, hash_credit, Server.credit; cbn. rewrite Hwa. lia.
Qed.

Lemma send_hash_progress k es s : inv es s → server_good s →
  server_progress k Server.BHash s (poll_send_hash fuel s).
Proof.
  intros [S1 S2 S3 S4 S5 S6 S7 S8 S9] [G1 G2 G3 G4]. unfold poll_send_hash.
  destruct (wr_hash s) as [w|] eqn:Hw; [|by apply idle_progress].
  destruct (S6 w eq_refl) as [Hwf Hle]. unfold WS.write_to.
  destruct (write_loop fuel (WS.offset w) (WS.buf w) (client_tx s)) as [[e off] tx'] eqn:E.
  pose proof (write_loop_stalls _ _ _ _ _ _ _ E) as [H1 H2].
  pose proof (sound_write_loop _ _ _ _ _ _ _ G2 E) as [H3 H4].
  assert (e ≠ LFuel) as Hne.
  { intros ->. eapply (write_loop_fuel (W:=W)); [| |exact E]; [apply Hwf|len_lia]. }
  destruct e as [| |err|]; [| |by destruct (H4 err)|done].
  - apply ready_progress; [done|by split| |done].
    unfold server_credit, hash_credit, Server.credit; cbn. rewrite Hw. cbn. lia.
  - specialize (H2 eq_refl). split; [by split|].
    unfold server_credit, hash_credit, Server.credit; cbn. rewrite Hw. cbn. lia.
Qed.

Lemma next_hash_progress k es s : inv es s → server_good s →
  server_progress k Server.BRecv s (poll_next_hash s).
Proof.
  intros [S1 S2 S3 S4 S5 S6 S7 S8 S9] Hgood. pose proof Hgood as [G1 G2 G3 G4]. unfold poll_next_hash.
  destruct (wr_hash s) as [w|] eqn:Hw.
  { cbn. apply idle_progress; [done|done| |done]. left. rewrite Hw. by eexists. }
  destruct (hashing_done s) eqn:Hd.
  { cbn. apply idle_progress; [done|done| |done]. by right. }
  cbn [negb bool_decide andb]. destruct (h_poll (Server.hasher s)) as [r h'] eqn:E. cbn.
  pose proof (h_poll_ok (h_ok:=h_ok) _ _ _ S8 E) as [Hok _].
  pose proof (h_stalls_poll _ _ _ S8 E) as Hst.
  pose proof (poll_quiet (h_ok:=h_ok) _ _ _ S8 E G4) as Hq.
  destruct r as [[[v|]|e]|].
  - destruct (h_poll_item (h_ok:=h_ok) _ _ _ S8 E) as [Hr (_ & Hlt & _)].
    destruct (h_release_ok (h_ok:=h_ok) (data v.2) _ Hok) as (R1 & R2 & _).
    pose proof (h_stalls_release (data v.2) h' Hok).
    apply ready_progress; [done|split; cbn; [done..|exact (release_quiet (h_ok:=h_ok) _ _ _ S8 E G4)]| |done].
    unfold server_credit, hash_credit, Server.credit; cbn. rewrite R2, Hr, Hw, Hd, length_app. cbn.
    unfold lenN in Hlt. lia.
  - destruct (h_poll_end (h_ok:=h_ok) _ _ S8 E) as [Hr [Hf|Hn]];
      [by rewrite (sure_fine (h_ok:=h_ok) _ Hok) in Hf|].
    apply ready_progress; [done| | |done].
    + split; cbn; [done..| |done]. by rewrite Hr.
    + unfold server_credit, hash_credit, Server.credit; cbn. rewrite Hr, Hw, Hd. cbn. lia.
  - destruct (h_poll_err (h_ok:=h_ok) _ _ _ S8 E) as [_ Hf].
    by rewrite (sure_fine (h_ok:=h_ok) _ Hok) in Hf.
  - pose proof (h_poll_pending (h_ok:=h_ok) _ _ S8 E) as Hr. pose proof (h_stalls_pending _ _ S8 E G4).
    split; [by split|]. unfold server_credit, hash_credit, Server.credit; cbn. rewrite Hr, Hw, Hd. cbn. lia.
Qed.

(** The offsets of the frames are those of a file. *)
Context (Hoffsets : ∀ evs rest, frames bsz fsz total evs rest → Forall (λ b, b.1 < 2 ^ 63) evs).

Lemma read_block_progress k es s : inv es s → server_good s →
  server_progress k Server.BRead s (poll_read_block s).
Proof.
  intros [S1 S2 S3 S4 S5 S6 S7 S8 S9] [G1 G2 G3 G4]. unfold poll_read_block.
  case_bool_decide as Hwa; [by apply idle_progress; try done; left|].
  apply eq_None_not_Some in Hwa.
  destruct S1 as (c & Hfr & Hho). destruct S2 as [Hb Hf].
  rewrite (RB.block_polled_again _ _ _ _ S3).
  pose proof (RB.block_read_on_answers (rd_block s) (receive_buffer s) c (client_rx s) Hho) as Ha.
  rewrite Hb, Hf in Ha. specialize (Ha Hbsz).
  destruct (RB.read_on _ _ _) as [[[o rb] buf] rx] eqn:E. destruct Ha as (_ & _ & Ha).
  pose proof (sock_read_block _ _ c _ _ _ _ _ Hho ltac:(by rewrite Hb) E) as [Hen Hso].
  destruct o as [[off|e]|p|]; [| | |done].
  - destruct Ha as [Hp _]. assert (off < 2 ^ 63) as Hoff.
    { pose proof (Hoffsets _ _ (parses_snoc _ _ _ _ _ _ Hfr Hp)) as Ho.
      apply Forall_app in Ho as [_ Ho]. by rewrite Forall_singleton in Ho. }
    eapply holds_consumed in Hp; [|eassumption..]. cbn in Hp.
    destruct (d_seek off (dest s)) as [r d'] eqn:Es.
    pose proof (seek_stalls _ _ _ _ Es). apply sound_seek in Es as [Hd ->]; [|done..].
    apply ready_progress; [done|by split| |done].
    unfold server_credit, hash_credit, Server.credit; cbn. rewrite Hwa. lia.
  - destruct Hso as [[H1 H2]|[]]. by split.
  - destruct Hso as [Hnil Hopen].
    apply RB.block_read_on_incoming in E as Hle; [|done]. cbn in Hle.
    destruct (decide (sock_bytes (client_rx s) = [])) as [Hs|Hs].
    + apply idle_progress; [by split| |by right|].
      * unfold server_credit, hash_credit, Server.credit; cbn. by rewrite Hnil, Hs, Hwa.
      * split; cbn; try done. split; [congruence|done].
    + split; [by split|]. unfold server_credit, hash_credit, Server.credit; cbn. rewrite Hnil, Hwa.
      destruct (sock_bytes (client_rx s)); [done|]. cbn. lia.
Qed.

Lemma poll_branch_progress k es b s : inv es s → server_good s →
  server_progress k b s (Server.poll_branch fuel b s).
Proof.
  intros Hi Hgd. destruct b; cbn [Server.poll_branch].
  - by apply (disk_progress k es).
  - by apply (read_block_progress k es).
  - by apply (send_hash_progress k es).
  - by apply (next_hash_progress k es).
Qed.
End server.

(** ** The client *)

Lemma parse_string_fails max l t e :
  parse_string max l = Err e → e ≠ EClosed → parse_string max (l ++ t) = Err e.
Proof.
  unfold parse_string. destruct (decide (length l < 8)%nat) as [H8|H8]; [by intros [= <-]|]. cbv zeta.
  rewrite (decide_False (P:=(length (l ++ t) < 8)%nat)) by len_lia. rewrite take_app_le, drop_app_le by lia.
  destruct (max <? be_val (take 8 l)); [done|].
  destruct (decide (lenN (drop 8 l) < _)) as [Hsz|Hsz]; [by intros [= <-]|].
  rewrite decide_False by len_lia. rewrite take_app_le by len_lia.
  by destruct (string_from_utf8 _).
Qed.

(** What is missing at the end of a prefix of frames is only the rest. *)
Lemma frames_prefix_incomplete max xs l ss rest e :
  (∀ x, x ∈ xs → sendable max x) → l `prefix_of` concat (string_frame <$> xs) →
  strings max l ss rest → parse_string max rest = Err e → e = EClosed.
Proof.
  intros Hx [t Ht] Hs Hp. destruct (decide (e = EClosed)) as [|Hne]; [done|]. exfalso.
  apply (parses_extend _ (parse_string_extend max) _ _ _ t) in Hs. rewrite <-Ht in Hs.
  pose proof (parses_frames (parse_string max) string_frame xs []) as Hf.
  rewrite (right_id_L [] (++)) in Hf.
  assert (∀ x r, x ∈ xs → parse_string max (string_frame x ++ r) = Ok (x, r)) as Hfr
    by (intros x r Hin; by apply parse_string_frame, Hx).
  specialize (Hf Hfr). pose proof (parse_string_fails _ _ t _ Hp Hne) as Hp'.
  assert (parse_string max [] = Err EClosed) as Hnil by (apply RS.parse_string_short; cbn; lia).
  destruct (parses_all _ _ _ _ _ _ _ _ Hs Hp' Hf Hnil) as [_ E].
  apply app_eq_nil in E as [-> _]. rewrite Hnil in Hp. congruence.
Qed.

Section client.
Context {W T H : Type} `{!AsyncWrite W, !AsyncWriteLaws W, !FairWrite W, !WriteProgress W, !Reliable W}.
Context `{!Timer T, !FairTimer T}.
Context {Hh : Hasher H} {Hg : Hashing} {Hgl : HashingLaws}.
Context {fsz bsz : N} {algorithm : HashAlgorithm} {h_ok : H → Prop}.
Context {Hlaws : HasherLaws H fsz bsz algorithm h_ok} {Hsure : SureHasher H h_ok} {Hfair : FairHasher H h_ok}.
Context {total sent0 : bytes}.
Context (Hb : 0 < bsz) (Hbsz : fsz + bsz < W64).
Context (fuel : nat) (Hfuel : (8 ≤ fuel)%nat) (Hfuel' : (N.to_nat bsz ≤ fuel)%nat).
#[local] Abbreviation nb := (num_blocks fsz bsz).
#[local] Abbreviation cli := (Cli Socket W T H).
#[local] Abbreviation inv := (cli_inv (h_ok:=h_ok) (bsz:=bsz) (fsz:=fsz) (algorithm:=algorithm)
  (total:=total) (sent0:=sent0)).
Implicit Types s : cli.

(** All that is left, when [k] bytes are still to arrive. *)
Definition client_credit (k : nat) s : nat :=
  Client.credit (bsz:=bsz) (fsz:=fsz) (λ r, k + length (sock_bytes r))%nat s.

Definition client_idle (b : CBranch) s : Prop :=
  match b with
  | BTimer => True
  | Client.BRead => sock_bytes (stream_rx s) = []
  | b => enabled b s = false
  end.

Record client_quiet s s' : Prop := {
  cq_enabled b : enabled b s' = enabled b s;
  cq_rx : sock_bytes (stream_rx s') = sock_bytes (stream_rx s);
}.

#[export] Instance client_quiet_refl : Reflexive client_quiet.
Proof. by split. Qed.
#[export] Instance client_quiet_trans : Transitive client_quiet.
Proof. intros s1 s2 s3 [A1 A2] [B1 B2]. split; [intros b; by rewrite B1|congruence]. Qed.

Lemma client_quiet_idle b s s' : client_quiet s s' → client_idle b s → client_idle b s'.
Proof. intros [A1 A2]. destruct b; cbn [client_idle]; by rewrite ?A1, ?A2. Qed.

(** No write will fail, the hashes still come. *)
Record client_good s : Prop := {
  cg_tx : sound (stream_tx s);
  cg_open : remote_hashes_done s = false;
  cg_rx : sock_ended (stream_rx s) = false;
}.

Definition client_progress (k : nat) (b : CBranch) s (r : CPoll cli) : Prop :=
  match r with
  | CPending s' => client_good s' ∧ (client_credit k s' ≤ client_credit k s)%nat
      ∧ ((client_credit k s' < client_credit k s)%nat ∨ client_idle b s ∧ client_quiet s s')
  | CReady e s' => client_good s' ∧ (client_credit k s' < client_credit k s)%nat
      ∧ ∀ err, e ≠ CSent (Err err)
  | CBreak e s' => (∀ err, e ≠ CSent (Err err))
  | CReturn _ _ | CSpin => False
  end.
#[local] Arguments client_progress : simpl never.

Lemma timer_progress k s : h_ok (Client.hasher s) → client_good s → client_progress k BTimer s (poll_timer s).
Proof.
  intros Hok [G1 G2 G3].
  pose proof (poll_timer_advances Hb Hbsz fuel Hfuel Hfuel' (λ r, k + length (sock_bytes r))%nat s Hok) as Ha.
  revert Ha. unfold poll_timer, advances. destruct (t_poll (progress_timer s)) as [[] t]; intros Ha.
  - split_and!; [by split|exact Ha|done].
  - split; [by split|]. destruct Ha as [Ha|(_ & Ha1 & Ha2)]; [unfold client_credit; lia|].
    split; [exact Ha2|]. right. split; [done|]. by split.
Qed.

Lemma send_block_progress k es s : inv es s → client_good s →
  client_progress k BSend s (poll_send_block bsz fuel s).
Proof.
  intros Hi [G1 G2 G3].
  pose proof (poll_send_block_advances Hb Hbsz fuel Hfuel Hfuel' (λ r, k + length (sock_bytes r))%nat es s Hi) as Ha.
  revert Ha. unfold poll_send_block, advances. destruct (wr_block s) as [w|] eqn:Hw.
  2:{ intros _. split; [done|]. split; [done|]. right. cbn. rewrite Hw. done. }
  destruct (_ fuel w (stream_tx s)) as [[o w'] tx] eqn:E.
  apply sound_write_block in E as [E1 E2]; [|done].
  destruct o as [[[]|err]|p|]; [|by destruct (E2 err)| |done].
  - destruct (_ && _); [done|].
    destruct (prepare_next_write_block bsz (blocks_idx_to_send s) None) as [l' wr'].
    intros Ha. split; [by split|]. split; [exact Ha|done].
  - intros Ha. split; [by split|]. unfold client_credit in *.
    destruct Ha as [Ha|(Ha & _)]; [lia|]. cbn in Ha. by rewrite Hw in Ha.
Qed.

Lemma next_block_progress k es s : inv es s → loans_kept s → client_good s →
  client_progress k BNext s (poll_next_block bsz nb s).
Proof.
  intros Hi Hl [G1 G2 G3].
  pose proof (poll_next_block_advances Hb Hbsz fuel Hfuel Hfuel' (λ r, k + length (sock_bytes r))%nat es s Hi Hl) as Ha.
  revert Ha. unfold poll_next_block, advances. destruct (remote_hashes s) as [|hash0 hashes] eqn:Hr.
  { intros _. split; [done|]. split; [done|]. right. cbn. rewrite Hr. done. }
  destruct (hash_comparison_over s) eqn:Ho.
  { intros _. split; [done|]. split; [done|]. right. cbn. rewrite Hr, Ho. by destruct (wr_block s). }
  pose proof (ci_ok _ _ Hi) as Hok. destruct (h_poll (Client.hasher s)) as [r h'] eqn:E.
  pose proof (h_poll_ok (h_ok:=h_ok) _ _ _ Hok E) as [Hok' _].
  destruct r as [[[v|]|e]|].
  - destruct (if bool_decide _ then _ else _) as [[to_send wr] h2].
    destruct (_ && bool_decide (wr = None)); [done|]. intros Ha.
    split; [by split|]. split; [exact Ha|done].
  - done.
  - intros _. destruct (h_poll_err (h_ok:=h_ok) _ _ _ Hok E) as [_ Hf].
    by rewrite (sure_fine (h_ok:=h_ok) _ Hok') in Hf.
  - intros Ha. split; [by split|]. unfold client_credit in *.
    destruct Ha as [Ha|(Ha1 & Ha2 & Ha3)]; [lia|]. split; [done|]. right. split; [done|].
    split; [exact Ha2|done].
Qed.

(** The bytes of the server are frames of strings. *)
Context (Hframes : ∀ ss rest e, strings 256 total ss rest → parse_string 256 rest = Err e → e = EClosed).

Lemma read_hash_progress k es s : inv es s → client_good s →
  client_progress k Client.BRead s (poll_read_hash s).
Proof.
  intros [S1 S0 S2 S3 S4 S5 S6 S7 S8 S9 S10 S11 S12 S13] [G1 G2 G3]. unfold poll_read_hash.
  rewrite G2. destruct S1 as (rest & Hst & Hc). destruct (Hc G2) as (c & -> & Hho). clear Hc.
  rewrite (RS.polled_again _ _ _ S3).
  pose proof (RS.read_on_answers (rd_string s) c (stream_rx s) Hho) as Ha.
  rewrite S2 in Ha. specialize (Ha eq_refl).
  destruct (RS.read_on _ _) as [[o rs] rx] eqn:E. destruct Ha as (_ & Ha).
  pose proof (sock_read_string _ c _ _ _ _ Hho ltac:(by rewrite S2) E) as [Hen Hso].
  destruct o as [[x|e]|p|]; [..|done].
  - destruct Ha as [Hp _]. rewrite <-S2 in Hp.
    apply RS.holds_takes in Hp; [|done|by rewrite S2]. cbn in Hp.
    pose proof (drop_futures_client_credit Hb Hbsz fuel Hfuel Hfuel' (λ r, k + length (sock_bytes r))%nat) as Hd.
    split; [by split; cbn; try done; congruence|].
    split; [|done]. unfold client_credit. eapply Nat.le_lt_trans; [by apply Hd|].
    unfold Client.credit; cbn. rewrite G2. lia.
  - exfalso. destruct Hso as [[Hso _]|Hso]; [congruence|].
    assert (parse_string 256 (c ++ incoming (stream_rx s)) = Err e) as Hp
      by (destruct Hso as [->|(sz & max & ->)]; exact Ha).
    pose proof (Hframes _ _ _ Hst Hp). by destruct Hso as [->|(sz & max & ->)].
  - destruct Hso as [Hnil _]. apply RS.read_on_incoming in E as Hle; [|done]. cbn in Hle.
    split; [by split; cbn; try done; congruence|].
    destruct (decide (sock_bytes (stream_rx s) = [])) as [Hs|Hs].
    + unfold client_credit, Client.credit; cbn. rewrite Hnil, Hs, G2. split; [lia|]. right.
      split; [done|]. split; [intros []; cbn; by rewrite ?G2|cbn; congruence].
    + unfold client_credit, Client.credit; cbn. rewrite Hnil, G2.
      destruct (sock_bytes (stream_rx s)); [done|]. cbn. lia.
Qed.

Lemma client_branch_progress k es b s : inv es s → loans_kept s → client_good s →
  client_progress k b s (Client.poll_branch bsz nb fuel b s).
Proof.
  intros Hi Hl Hgd. destruct b; cbn [Client.poll_branch].
  - apply timer_progress; [apply Hi|done].
  - by apply (send_block_progress k es).
  - by apply (read_hash_progress k es).
  - by apply (next_block_progress k es).
Qed.
End client.
