(* ===== verification/Rounds.v ===== *)
(** The two loops under a scheduler that takes turns: they end, and the
    destination is the source.

    A [round] delivers what was sent, ends the connection of the server when the
    client is gone, polls the server four times and the client four times.  It is
    a run of the steps of Sync.v; each round either leaves less to do ([left_over])
    or finds both loops over: that neither end waits for the other for good is
    [client_not_idle].  The objects of the ends may stall, but only finitely often,
    and do not fail. *)

From stdpp Require Import base option list gmap numbers.
From Stdlib Require Import NArith Lia.
From S2P Require Import Prelude AsyncIO Utf8 Wire Loan Resumable ResumableString ResumableBlock.
From S2P Require Import Disk OrderedChannel HashFile Pipeline Hasher Overwrite Server Client Sync.
From S2P Require Import Progress Digests.
#[local] Open Scope N_scope.

(** ** Both *)

Section rounds.
Context {Ws D Hs' Wc T Hc' : Type}.
Context `{!AsyncWrite Ws, !AsyncWriteLaws Ws, !FairWrite Ws, !WriteProgress Ws, !Reliable Ws}.
Context `{!AsyncWrite D, !AsyncWriteLaws D, !DiskFile D, !DiskLaws D, !FairWrite D, !FairSeek D}.
Context `{!WriteProgress D, !Reliable D, !ReliableDisk D}.
Context `{!AsyncWrite Wc, !AsyncWriteLaws Wc, !FairWrite Wc, !WriteProgress Wc, !Reliable Wc}.
Context `{!Timer T, !FairTimer T}.
Context {Hhs : Hasher Hs'} {Hhc : Hasher Hc'} {Hg : Hashing} {Hgl : HashingLaws}.
Context (fsz bsz : N) (algorithm : HashAlgorithm) (hs_ok : Hs' → Prop) (hc_ok : Hc' → Prop).
Context {Hls : HasherLaws Hs' fsz bsz algorithm hs_ok} {Hss : SureHasher Hs' hs_ok}.
Context {Hlc : HasherLaws Hc' fsz bsz algorithm hc_ok} {Hsc : SureHasher Hc' hc_ok}.
Context {Hfs : FairHasher Hs' hs_ok} {Hfc : FairHasher Hc' hc_ok} {Hrr : Rereads Hs' fsz hs_ok}.
Context (fuelS fuelC : nat) (src : bytes).
#[local] Abbreviation nb := (num_blocks fsz bsz).
#[local] Abbreviation joint := (Joint (Rs:=Socket) (Ws:=Ws) (D:=D) (Hs':=Hs')
  (Rc:=Socket) (Wc:=Wc) (T:=T) (Hc':=Hc')).
#[local] Abbreviation step := (jstep (Rs:=Socket) (Ws:=Ws) (D:=D) (Hs':=Hs') (Rc:=Socket) (Wc:=Wc)
  (T:=T) (Hc':=Hc') fsz bsz hs_ok hc_ok fuelS fuelC src).
Implicit Types j : joint.

(** All that was sent arrives; when the client is gone the connection ends. *)
Definition deliver_server j : joint :=
  match at_server j with
  | SRun b s =>
      let bs := drop (length (to_server j)) (sent_by_client (at_client j)) in
      let rx := MkSocket (sock_bytes (client_rx s) ++ bs) (sock_ended (client_rx s)) in
      MkJoint (SRun b (with_objects s (dest s) rx (client_tx s) (Server.hasher s))) (at_client j)
              (server_log j) (client_log j) (to_server j ++ bs) (to_client j)
  | _ => j
  end.
Definition close_server j : joint :=
  match at_server j with
  | SRun b s =>
      if client_gone (at_client j) then
        MkJoint (SRun b (with_objects s (dest s) (MkSocket (sock_bytes (client_rx s)) true)
                           (client_tx s) (Server.hasher s)))
                (at_client j) (server_log j) (client_log j) (to_server j) (to_client j)
      else j
  | _ => j
  end.
Definition deliver_client j : joint :=
  match at_client j with
  | CRun b s =>
      let bs := drop (length (to_client j)) (sent_by_server (at_server j)) in
      let rx := MkSocket (sock_bytes (stream_rx s) ++ bs) (sock_ended (stream_rx s)) in
      MkJoint (at_server j)
              (CRun b (with_client_objects s (progress_timer s) rx (stream_tx s) (Client.hasher s)))
              (server_log j) (client_log j) (to_server j) (to_client j ++ unread bs s)
  | _ => j
  end.

(** A poll of the server, whose workers see the file as it is; one of the
    client. *)
Definition server_poll j : joint :=
  match at_server j with
  | SRun b s =>
      let s1 := with_objects s (dest s) (client_rx s) (client_tx s)
                  (h_reread (d_content (dest s)) (Server.hasher s)) in
      let '(es, c) := server_step fuelS (SRun b s1) in
      MkJoint c (at_client j) (server_log j ++ es) (client_log j) (to_server j) (to_client j)
  | _ => j
  end.
Definition client_poll j : joint :=
  match at_client j with
  | CRun b s =>
      let '(es, c) := client_step bsz (div_ceil fsz bsz) fuelC (CRun b s) in
      MkJoint (at_server j) c (server_log j) (client_log j ++ es) (to_server j) (to_client j)
  | _ => j
  end.

Definition round j : joint :=
  Nat.iter 4 client_poll (Nat.iter 4 server_poll (deliver_client (close_server (deliver_server j)))).

Context (Hs : sane fsz bsz 1) (Hfz : 0 < fsz) (old : bytes) (Hold : lenN old = fsz).
Context (HfuelS : (N.to_nat bsz ≤ fuelS ∧ 40 ≤ fuelS)%nat).
Context (HfuelC : (8 ≤ fuelC)%nat) (HfuelC' : (N.to_nat bsz ≤ fuelC)%nat).

Record linv j : Prop := {
  li_inv : jinv fsz bsz algorithm hs_ok hc_ok src old j;
  li_fine : joint_fine j;
  li_server : match at_server j with
              | SRun _ s => server_good (fsz:=fsz) (bsz:=bsz) s
              | SBroke e _ => ∀ k, e ≠ EIo k
              | _ => False
              end;
  li_client : match at_client j with
              | CRun _ s => client_good s ∧ loans_kept s | CBroke _ => True | _ => False
              end;
}.

Lemma server_step_contents b s es c' s' f : hs_ok (Server.hasher s) →
  server_step (R:=Socket) (W:=Ws) (D:=D) fuelS (SRun b s) = (es, c') → srv_of c' = Some s' →
  f ∈ h_contents (Server.hasher s') → f ∈ h_contents (Server.hasher s).
Proof.
  intros Hok. assert (∀ b : bool,
    h_contents (if b then h_cancel (Server.hasher s) else Server.hasher s)
    = h_contents (Server.hasher s)) as Hdrop
    by (intros []; [apply (h_cancel_ok (h_ok:=hs_ok) _ Hok)|done]).
  unfold server_step. destruct b; cbn [Server.poll_branch].
  - unfold poll_disk. intros E Hq. repeat case_match; simplify_eq; cbn in Hq; simplify_eq; cbn;
      by rewrite ?Hdrop.
  - unfold poll_read_block. intros E Hq. repeat case_match; simplify_eq; cbn in Hq; simplify_eq; cbn;
      by rewrite ?Hdrop.
  - unfold poll_send_hash. intros E Hq. repeat case_match; simplify_eq; cbn in Hq; simplify_eq; cbn;
      by rewrite ?Hdrop.
  - unfold poll_next_hash. destruct (_ && _); [|intros E Hq; by simplify_eq/=].
    destruct (h_poll (Server.hasher s)) as [r h'] eqn:E.
    pose proof (sure_steady (h_ok:=hs_ok) _ _ _ Hok E) as Hc.
    apply (h_poll_ok (h_ok:=hs_ok)) in E as [Hok' _]; [|done].
    destruct r as [[[v|]|e]|]; intros ? Hq; simplify_eq; cbn in Hq; simplify_eq; cbn; rewrite <-Hc.
    + by destruct (h_release_ok (h_ok:=hs_ok) (data v.2) _ Hok') as (_ & _ & ->).
    + done.
    + done.
Qed.

Lemma client_step_contents b s es c' s' f : hc_ok (Client.hasher s) →
  client_step (R:=Socket) (W:=Wc) (T:=T) bsz nb fuelC (CRun b s) = (es, c') → cli_of c' = Some s' →
  f ∈ h_contents (Client.hasher s') → f ∈ h_contents (Client.hasher s).
Proof.
  intros Hok. pose proof (h_cancel_ok (h_ok:=hc_ok) _ Hok) as (Hok1 & _ & Hcan).
  assert (∀ l (b : bool), h_contents (h_release l (if b then h_cancel (Client.hasher s) else Client.hasher s))
    = h_contents (Client.hasher s)) as Hrel.
  { intros l []; destruct (h_release_ok (h_ok:=hc_ok) l _ Hok1) as (_ & _ & R1);
      destruct (h_release_ok (h_ok:=hc_ok) l _ Hok) as (_ & _ & R2); congruence. }
  pose proof (λ l, Hrel l true) as Hrel1. pose proof (λ l, Hrel l false) as Hrel2. cbn in Hrel1, Hrel2.
  assert (∀ b : bool, h_contents (if b then h_cancel (Client.hasher s) else Client.hasher s)
    = h_contents (Client.hasher s)) as Hdrop by (by intros []).
  unfold client_step. destruct b; cbn [Client.poll_branch].
  - unfold poll_timer. intros E Hq. repeat case_match; simplify_eq; cbn in Hq; simplify_eq; cbn;
      by rewrite ?Hdrop.
  - unfold poll_send_block. intros E Hq. repeat case_match; simplify_eq; cbn in Hq; simplify_eq; cbn;
      by rewrite ?Hrel1, ?Hrel2.
  - unfold poll_read_hash. intros E Hq. repeat case_match; simplify_eq; cbn in Hq; simplify_eq; cbn;
      by rewrite ?Hdrop.
  - unfold poll_next_block. destruct (remote_hashes s); [intros E Hq; by simplify_eq/=|].
    destruct (hash_comparison_over s); [intros E Hq; by simplify_eq/=|].
    destruct (h_poll (Client.hasher s)) as [r h'] eqn:E.
    pose proof (sure_steady (h_ok:=hc_ok) _ _ _ Hok E) as Hc.
    apply (h_poll_ok (h_ok:=hc_ok)) in E as [Hok' _]; [|done].
    destruct r as [[[v|]|e]|]; [|by intros ? Hq; simplify_eq; cbn in Hq; simplify_eq; cbn; rewrite <-Hc..].
    destruct (if bool_decide _ then _ else _) as [[q wr] h2] eqn:Ecmp.
    assert (h_contents h2 = h_contents (Client.hasher s)) as Hc2.
    { rewrite <-Hc. case_bool_decide; [by injection Ecmp as _ <-|].
      injection Ecmp as _ _ <-. by destruct (h_release_ok (h_ok:=hc_ok) (data v.2) _ Hok') as (_ & _ & ->). }
    intros ? Hq. destruct (_ && bool_decide (wr = None)); simplify_eq; cbn in Hq; simplify_eq; cbn;
      by rewrite <-Hc2.
Qed.

(** *** How much is sent *)

Definition server_bytes : nat := N.to_nat nb * (8 + N.to_nat bsz).
Definition client_bytes_max : nat := N.to_nat nb * 40.

Lemma to_server_bound j : linv j → (length (to_server j) ≤ server_bytes)%nat.
Proof.
  intros [Hj Hf _ _]. destruct (fine_client j Hf) as [sc Ec].
  destruct (client_sent fsz bsz algorithm hs_ok hc_ok src Hs Hfz old Hold j sc Hj Hf Ec) as (Hw & Hl & Hit & _).
  pose proof (prefix_length _ _ (ji_to_server _ _ _ _ _ _ _ _ Hj sc Ec)) as H1.
  apply prefix_length in Hw.
  set (items := Client.ev_items (client_log j)) in *. set (hs := ev_hashes (client_log j)) in *.
  assert (length items ≤ N.to_nat nb)%nat as Hn.
  { apply (indices_below items). intros k v Hk. by destruct (Hit k v Hk) as (_ & ? & _). }
  assert (length (differing items hs) ≤ length items)%nat as Hd.
  { unfold differing. etrans; [apply length_omap_le|]. rewrite length_zip_with. lia. }
  assert (length (item_frames bsz (differing items hs)) ≤ length (differing items hs) * (8 + N.to_nat bsz))%nat as Hb.
  { apply length_concat_le. intros v Hv. apply differing_elem, list_elem_of_lookup_1 in Hv as [k Hk].
    destruct (Hit k v Hk) as (_ & _ & _ & Hlen & _). unfold item_frame, block_frame.
    rewrite length_app, length_be_bytes. unfold block_len, lenN in Hlen. lia. }
  unfold server_bytes. etrans; [exact H1|]. etrans; [exact Hw|]. etrans; [exact Hb|].
  apply Nat.mul_le_mono_r. lia.
Qed.

(** The offsets the server gets. *)
Lemma to_server_offsets j : linv j → ∀ evs rest,
  frames bsz fsz (to_server j) evs rest → Forall (λ b, b.1 < 2 ^ 63) evs.
Proof.
  intros [Hj Hf _ _] evs rest Hfr. destruct (fine_client j Hf) as [sc Ec].
  destruct (client_sent fsz bsz algorithm hs_ok hc_ok src Hs Hfz old Hold j sc Hj Hf Ec) as (Hw & Hl & Hit & _).
  pose proof (differing_blocks Hs [src] _ _ Hit Hl) as Hbs.
  destruct (blocks_received bsz fsz (to_server j) evs rest _ Hbs) as [-> _]; [|done|].
  { rewrite item_frames_blocks in Hw. etrans; [exact (ji_to_server _ _ _ _ _ _ _ _ Hj sc Ec)|exact Hw]. }
  apply Forall_take. eapply Forall_impl; [|exact Hbs]. intros b (Hb & _). destruct Hs as (_ & _ & ?). lia.
Qed.

Lemma server_hashes_sent j s : linv j → srv_of (at_server j) = Some s →
  written (client_tx s) `prefix_of` hash_bytes (hash ∘ snd <$> h_recvd (Server.hasher s))
  ∧ (length (h_recvd (Server.hasher s)) ≤ N.to_nat nb)%nat
  ∧ (∀ x, x ∈ hash ∘ snd <$> h_recvd (Server.hasher s) → sendable 256 x ∧ lenN x ≤ 32)
  ∧ (∀ b, at_server j = SRun b s → wr_hash s = None →
       written (client_tx s) = hash_bytes (hash ∘ snd <$> h_recvd (Server.hasher s))).
Proof.
  intros [Hj Hf _ _] E. pose proof (ji_old _ _ _ _ _ _ _ _ Hj s Hf E) as Hit.
  pose proof (ji_server _ _ _ _ _ _ _ _ Hj) as Hi.
  assert (hash_inv (sent0:=[]) (Server.ev_items (server_log j)) s
    ∧ h_recvd (Server.hasher s) = [] ++ Server.ev_items (server_log j)) as [Hh Hr].
  { destruct (at_server j) as [b s1|e s1|e s1|]; cbn in E; simplify_eq; cbn [conf_inv] in Hi.
    - split; [by apply (si_hash _ _ Hi), jf_hash|exact (si_recvd _ _ Hi)].
    - destruct Hi as (_ & _ & Hi & _ & Hr). split; [by apply Hi, jf_hash|exact Hr]. }
  unfold hash_inv in Hh. cbn [app] in Hh, Hr. rewrite <-Hr in Hh.
  change (hash_frames (h_recvd (Server.hasher s)))
    with (concat ((λ v : Val, string_frame (hash v.2)) <$> h_recvd (Server.hasher s))) in Hh.
  fold (hash_frames (h_recvd (Server.hasher s))) in Hh. rewrite hash_frames_bytes in Hh.
  split; [rewrite <-Hh; by apply prefix_app_r|]. split.
  { apply (indices_below _). intros k v Hk. apply (Hit k v Hk). }
  split.
  - intros x (v & -> & Hv)%list_elem_of_fmap. apply list_elem_of_lookup_1 in Hv as [k Hk]. cbn.
    rewrite (proj2 (Hit _ _ Hk)). split; [apply hash_data_sends|apply hash_data_short].
  - intros b _ Hw. rewrite Hw, (right_id_L [] (++)) in Hh. exact Hh.
Qed.

Lemma server_of j : linv j → ∃ s, srv_of (at_server j) = Some s.
Proof. intros [_ _ Hsv _]. destruct (at_server j); cbn in *; eauto; done. Qed.

Lemma to_client_bound j : linv j → (length (to_client j) ≤ client_bytes_max)%nat.
Proof.
  intros Hl. destruct (server_of j Hl) as [s Es].
  destruct (server_hashes_sent j s Hl Es) as (Hp & Hn & Hx & _).
  pose proof (prefix_length _ _ (ji_to_client _ _ _ _ _ _ _ _ (li_inv _ Hl) s Es)) as H1.
  apply prefix_length in Hp. unfold hash_bytes in Hp.
  pose proof (length_concat_le string_frame (hash ∘ snd <$> h_recvd (Server.hasher s)) 40) as Hc.
  rewrite length_fmap in Hc. unfold client_bytes_max.
  assert (∀ x, x ∈ hash ∘ snd <$> h_recvd (Server.hasher s) → length (string_frame x) ≤ 40)%nat as Hfr.
  { intros x Hin. destruct (Hx x Hin) as [_ Hlen]. rewrite length_string_frame. unfold lenN in Hlen. lia. }
  specialize (Hc Hfr). nia.
Qed.

(** What is left to both. *)
Definition server_left j : nat :=
  match at_server j with
  | SRun _ s => S (server_credit (fsz:=fsz) (bsz:=bsz) (server_bytes - length (to_server j)) s)
  | _ => 0
  end.
Definition client_left j : nat :=
  match at_client j with
  | CRun _ s => S (client_credit (fsz:=fsz) (bsz:=bsz) (client_bytes_max - length (to_client j)) s)
  | _ => 0
  end.
Definition left_over j : nat := (server_left j + client_left j)%nat.

(** The frames the client reads. *)
Lemma to_client_frames j : linv j → ∀ ss rest e,
  strings 256 (to_client j) ss rest → parse_string 256 rest = Err e → e = EClosed.
Proof.
  intros Hl. destruct (server_of j Hl) as [s Es].
  destruct (server_hashes_sent j s Hl Es) as (Hp & _ & Hx & _). intros ss rest e.
  apply (frames_prefix_incomplete 256 (hash ∘ snd <$> h_recvd (Server.hasher s))).
  - intros x Hin. by apply Hx.
  - etrans; [exact (ji_to_client _ _ _ _ _ _ _ _ (li_inv _ Hl) s Es)|exact Hp].
Qed.

(** *** The parts of a round *)

Lemma linv_step j j' : linv j → step j j' → joint_fine j' →
  match at_server j' with
  | SRun _ s => server_good (fsz:=fsz) (bsz:=bsz) s | SBroke e _ => ∀ k, e ≠ EIo k | _ => False
  end →
  match at_client j' with
  | CRun _ s => client_good s ∧ loans_kept s | CBroke _ => True | _ => False
  end → linv j'.
Proof.
  intros Hl Hst Hf H1 H2. split; [|done..].
  by apply (jinv_step fsz bsz algorithm hs_ok hc_ok fuelS fuelC src Hs Hfz old Hold j j' (li_inv _ Hl)).
Qed.

(** The logs and the client do not matter to what is fine of the server. *)
Lemma fine_server j b (s : Srv Socket Ws D Hs') x y : joint_fine j →
  joint_fine (MkJoint (SRun b s) (at_client j) (server_log j) (client_log j) x y).
Proof. intros [F1 F2 F3 F4 F5]. by split. Qed.

(** What was sent and what has arrived. *)
Definition delivered_server j : Prop :=
  ∀ b s, at_server j = SRun b s → to_server j = sent_by_client (at_client j)
    ∧ (client_gone (at_client j) = true → sock_ended (client_rx s) = true).

Lemma sent_to_server j : linv j → to_server j `prefix_of` sent_by_client (at_client j).
Proof.
  intros Hl. pose proof (ji_to_server _ _ _ _ _ _ _ _ (li_inv _ Hl)) as Hp.
  pose proof (li_client _ Hl). destruct (at_client j) as [b s|s| |]; try done; cbn; by apply Hp.
Qed.
Lemma sent_to_client j : linv j → to_client j `prefix_of` sent_by_server (at_server j).
Proof.
  intros Hl. pose proof (ji_to_client _ _ _ _ _ _ _ _ (li_inv _ Hl)) as Hp.
  pose proof (li_server _ Hl). destruct (at_server j) as [b s|e s| |]; try done; cbn; by apply Hp.
Qed.

(** Where the ends are in their loops, and what they have sent. *)
Definition same_turn j j' : Prop :=
  match at_server j with
  | SRun b s => ∃ s', at_server j' = SRun b s' ∧ client_tx s' = client_tx s
  | c => at_server j' = c
  end
  ∧ match at_client j with
    | CRun b s => ∃ s', at_client j' = CRun b s' ∧ stream_tx s' = stream_tx s
    | c => at_client j' = c
    end.

Lemma deliver_server_spec j : linv j → let j' := deliver_server j in
  rtc step j j' ∧ linv j' ∧ left_over j' = left_over j ∧ same_turn j j'
  ∧ at_client j' = at_client j ∧ to_client j' = to_client j
  ∧ ∀ b s, at_server j' = SRun b s → to_server j' = sent_by_client (at_client j').
Proof.
  intros Hl. unfold deliver_server. pose proof (sent_to_server j Hl) as Hp.
  destruct (at_server j) as [b s|e s|e s|] eqn:E;
    [|cbv zeta; split; [done|]; split; [done|]; split; [done|]; split;
      [split; [by rewrite E|by destruct (at_client j); eauto]|]; split_and!; try done; intros; congruence..].
  set (bs := drop _ _). set (j' := MkJoint _ _ _ _ _ _). cbv zeta.
  assert (to_server j ++ bs = sent_by_client (at_client j)) as Hbs by by apply prefix_drop.
  assert (step j j') as Hst.
  { eapply (j_server_moves _ _ _ _ _ _ _ j b s _ bs); [done|by split; cbn; auto|done|by rewrite Hbs]. }
  assert (linv j') as Hl'.
  { eapply linv_step; [exact Hl|exact Hst|apply fine_server, Hl| |exact (li_client _ Hl)].
    pose proof (li_server _ Hl) as G. rewrite E in G. destruct G. by split. }
  split; [by apply rtc_once|]. split; [done|]. split.
  { unfold left_over, server_left, client_left. cbn. rewrite E. f_equal. f_equal.
    unfold server_credit, hash_credit, Server.credit. cbn.
    pose proof (to_server_bound j' Hl') as Hb. cbn in Hb. rewrite !length_app in *. lia. }
  split; [split; [rewrite E; by eexists|destruct (at_client j); eauto]|].
  split; [done|]. split; [done|]. intros b' s' [= <- <-]. exact Hbs.
Qed.

Lemma close_server_spec j : linv j →
  (∀ b s, at_server j = SRun b s → to_server j = sent_by_client (at_client j)) →
  let j' := close_server j in
  rtc step j j' ∧ linv j' ∧ left_over j' = left_over j ∧ same_turn j j'
  ∧ at_client j' = at_client j ∧ to_client j' = to_client j ∧ delivered_server j'.
Proof.
  intros Hl Hd. unfold close_server, delivered_server.
  destruct (at_server j) as [b s|e s|e s|] eqn:E;
    [|cbv zeta; split; [done|]; split; [done|]; split; [done|]; split;
      [split; [by rewrite E|by destruct (at_client j); eauto]|]; split_and!; try done; intros; congruence..].
  specialize (Hd b s eq_refl). cbv zeta. destruct (client_gone (at_client j)) eqn:Hg'.
  - set (j' := MkJoint _ _ _ _ _ _).
    assert (step j j') as Hst.
    { apply (j_closes _ _ _ _ _ _ _ j b s); [done| |done|done].
      split; cbn; auto. by rewrite (right_id_L [] (++)). }
    assert (linv j') as Hl'.
    { eapply linv_step; [exact Hl|exact Hst|apply fine_server, Hl| |exact (li_client _ Hl)].
      pose proof (li_server _ Hl) as G. rewrite E in G. destruct G. by split. }
    split; [by apply rtc_once|]. split; [done|]. split.
    { unfold left_over, server_left, client_left. cbn. by rewrite E. }
    split; [split; [rewrite E; by eexists|destruct (at_client j); eauto]|].
    split; [done|]. split; [done|]. intros b' s' [= <- <-]. by split.
  - split; [done|]. split; [done|]. split; [done|].
    split; [split; [rewrite E; by eexists|destruct (at_client j); eauto]|].
    split; [done|]. split; [done|]. intros b' s' Eq. split; [exact Hd|]. cbn. congruence.
Qed.

Lemma deliver_client_spec j : linv j → delivered_server j → let j' := deliver_client j in
  rtc step j j' ∧ linv j' ∧ left_over j' = left_over j ∧ same_turn j j'
  ∧ at_server j' = at_server j ∧ delivered_server j'
  ∧ ∀ b s, at_client j' = CRun b s → to_client j' = sent_by_server (at_server j').
Proof.
  intros Hl Hd. unfold deliver_client. pose proof (sent_to_client j Hl) as Hp.
  destruct (at_client j) as [b s|s|e s|] eqn:E;
    [|cbv zeta; split; [done|]; split; [done|]; split; [done|]; split;
      [split; [by destruct (at_server j); eauto|by rewrite E]|]; split_and!; try done; intros; congruence..].
  pose proof (li_client _ Hl) as G. rewrite E in G. destruct G as [ [G1 G2 G3] G4].
  set (bs := drop _ _). set (j' := MkJoint _ _ _ _ _ _). cbv zeta.
  assert (unread bs s = bs) as Hun by (unfold unread; by rewrite G2).
  assert (to_client j ++ unread bs s = sent_by_server (at_server j)) as Hbs
    by (rewrite Hun; by apply prefix_drop).
  assert (step j j') as Hst.
  { eapply (j_client_moves _ _ _ _ _ _ _ j b s _ bs); [done|by split; cbn; auto|by rewrite Hbs]. }
  assert (linv j') as Hl'.
  { eapply linv_step; [exact Hl|exact Hst| |exact (li_server _ Hl)|by split; [split|] ].
    destruct (li_fine _ Hl). by split. }
  split; [by apply rtc_once|]. split; [done|]. split.
  { unfold left_over, server_left, client_left. cbn. rewrite E. f_equal. f_equal.
    unfold client_credit, Client.credit. cbn. rewrite G2.
    pose proof (to_client_bound j' Hl') as Hb. cbn in Hb. rewrite Hun in *. rewrite !length_app in *. lia. }
  split; [split; [destruct (at_server j); eauto|rewrite E; by eexists]|].
  split; [done|]. split.
  - intros b' s' Eq. cbn in *. destruct (Hd b' s' Eq) as [H1 H2]. rewrite E in H1, H2. by split.
  - intros b' s' [= <- <-]. exact Hbs.
Qed.

(** A poll of the server: nearer to the end, or its branch is idle.  First the
    workers read. *)
Definition server_rereads j b (s : Srv Socket Ws D Hs') : joint :=
  MkJoint (SRun b (with_objects s (dest s) (client_rx s) (client_tx s)
                     (h_reread (d_content (dest s)) (Server.hasher s))))
          (at_client j) (server_log j) (client_log j) (to_server j) (to_client j).

Lemma server_file j b s : linv j → at_server j = SRun b s →
  hs_ok (Server.hasher s) ∧ lenN (d_content (dest s)) = fsz.
Proof.
  intros Hl E. pose proof (ji_server _ _ _ _ _ _ _ _ (li_inv _ Hl)) as Hi. rewrite E in Hi.
  split; [apply (si_ok _ _ Hi)|]. rewrite <-Hold. 
  by apply (dest_spares fsz bsz algorithm hs_ok hc_ok src Hs Hfz old Hold j b s (li_inv _ Hl) (li_fine _ Hl) E).
Qed.

Lemma server_rereads_spec j b s : linv j → at_server j = SRun b s →
  step j (server_rereads j b s) ∧ linv (server_rereads j b s).
Proof.
  intros Hl E. pose proof (li_server _ Hl) as G. rewrite E in G. destruct G as [G1 G2 G3 G4].
  assert (step j (server_rereads j b s)) as Hst.
  { pose proof (j_server_moves fsz bsz hs_ok hc_ok fuelS fuelC src j b s
      (with_objects s (dest s) (client_rx s) (client_tx s)
         (h_reread (d_content (dest s)) (Server.hasher s))) []) as Hm.
    rewrite (right_id_L [] (++)) in Hm. apply Hm; [done| |done|by apply sent_to_server].
    destruct (server_file j b s Hl E) as [_ Hlen]. split; cbn; try done.
    - by rewrite (right_id_L [] (++)).
    - intros Hok. by apply reread_ok.
    - apply reread_recvd.
    - apply reread_contents. }
  split; [done|]. eapply linv_step; [exact Hl|exact Hst|apply fine_server, Hl| |exact (li_client _ Hl)].
  split; cbn; [done..|by rewrite reread_recvd|by rewrite reread_loans].
Qed.

(** What a poll comes to, [k] bytes being still to arrive. *)
Definition server_nearer (k : nat) b (s : Srv Socket Ws D Hs')
    (c : SConf (R:=Socket) (W:=Ws) (D:=D) (H:=Hs')) : Prop :=
  match c with
  | SRun b' s' => server_good (fsz:=fsz) (bsz:=bsz) s'
      ∧ (server_credit (fsz:=fsz) (bsz:=bsz) k s' ≤ server_credit (fsz:=fsz) (bsz:=bsz) k s)%nat
      ∧ ((server_credit (fsz:=fsz) (bsz:=bsz) k s' < server_credit (fsz:=fsz) (bsz:=bsz) k s)%nat
         ∨ b' = Server.next_branch b ∧ server_idle b s ∧ server_quiet s s')
  | SBroke e _ => ∀ k, e ≠ EIo k
  | _ => False
  end.

Definition client_nearer (k : nat) b (s : Cli Socket Wc T Hc')
    (c : CConf (R:=Socket) (W:=Wc) (T:=T) (H:=Hc')) : Prop :=
  match c with
  | CRun b' s' => (client_good s' ∧ loans_kept s')
      ∧ (client_credit (fsz:=fsz) (bsz:=bsz) k s' ≤ client_credit (fsz:=fsz) (bsz:=bsz) k s)%nat
      ∧ ((client_credit (fsz:=fsz) (bsz:=bsz) k s' < client_credit (fsz:=fsz) (bsz:=bsz) k s)%nat
         ∨ b' = Client.next_branch b ∧ client_idle b s ∧ client_quiet s s')
  | CBroke _ => True
  | _ => False
  end.

Lemma disk_hash_fine_snoc es (e : SEv) : disk_fine es → hash_fine es →
  (∀ err, e ≠ SvDisk (Err err) ∧ e ≠ SvHash (Err err)) →
  disk_fine (es ++ [e]) ∧ hash_fine (es ++ [e]).
Proof.
  intros Hd Hh He. split; [apply disk_fine_app|apply hash_fine_app]; (split; [done|]);
    intros err <-%list_elem_of_singleton; by destruct (He err).
Qed.

Lemma send_fine_snoc es (e : CEv) : send_fine es → (∀ err, e ≠ CSent (Err err)) →
  send_fine (es ++ [e]).
Proof.
  intros Hf He. apply send_fine_app. split; [done|]. intros err <-%list_elem_of_singleton.
  by destruct (He err).
Qed.

Lemma server_turn j b s es c : linv j → at_server j = SRun b s →
  server_step fuelS (SRun b s) = (es, c) →
  let j' := MkJoint c (at_client j) (server_log j ++ es) (client_log j) (to_server j) (to_client j) in
  step j j' ∧ linv j' ∧ server_nearer (server_bytes - length (to_server j)) b s c.
Proof.
  intros Hl E Est. cbv zeta. set (k := (server_bytes - length (to_server j))%nat).
  pose proof (li_server _ Hl) as G. rewrite E in G.
  pose proof (ji_server _ _ _ _ _ _ _ _ (li_inv _ Hl)) as Hi. rewrite E in Hi. cbn [conf_inv] in Hi.
  pose proof (poll_branch_progress (bsz_small fsz bsz Hs) fuelS HfuelS (to_server_offsets j Hl) k _ b s Hi G) as Hpr.
  pose proof (li_fine _ Hl) as [F1 F2 F3 F4 F5].
  set (j' := MkJoint _ _ _ _ _ _). assert (step j j') as Hst.
  { apply (j_server _ _ _ _ _ _ _ j); [by rewrite E|]. rewrite E. intros b0 s0 s' f [= <- <-] Hq Hin. left.
    eapply server_step_contents; [apply (si_ok _ _ Hi)|exact Est|done|done]. }
  assert (joint_fine j' ∧ server_nearer k b s c) as [Hf' Hc].
  { cbn [server_step] in Est.
    destruct (Server.poll_branch fuelS b s) as [s'|e s'|e s'|e s'|]; simplify_eq;
      unfold server_progress, client_progress in Hpr; try done.
    - destruct Hpr as (P1 & P2 & P3). split; [by split; cbn; rewrite ?(right_id_L [] (++))|].
      split; [done|]. split; [done|]. destruct P3 as [P3|[P3 P4]]; [by left|right]. by destruct b.
    - destruct Hpr as (P1 & P2 & P3). destruct (disk_hash_fine_snoc _ e F1 F2 P3) as [L1 L2].
      split; [by split|]. split; [done|]. split; [lia|by left].
    - destruct Hpr as [_ ->]. split; [|done]. by split; cbn; rewrite ?(right_id_L [] (++)). }
  split; [done|]. split; [|done].
  eapply linv_step; [exact Hl|exact Hst|exact Hf'| |exact (li_client _ Hl)].
  cbn. destruct c; try done. apply Hc.
Qed.

Lemma client_turn j b s es c : linv j → at_client j = CRun b s →
  client_step bsz (div_ceil fsz bsz) fuelC (CRun b s) = (es, c) →
  let j' := MkJoint (at_server j) c (server_log j) (client_log j ++ es) (to_server j) (to_client j) in
  step j j' ∧ linv j' ∧ client_nearer (client_bytes_max - length (to_client j)) b s c.
Proof.
  intros Hl E Est. cbv zeta. set (k := (client_bytes_max - length (to_client j))%nat).
  pose proof (li_client _ Hl) as G. rewrite E in G. destruct G as [G Glo].
  pose proof (ji_client _ _ _ _ _ _ _ _ (li_inv _ Hl)) as Hi. rewrite E in Hi. cbn [cconf_inv] in Hi.
  pose proof (proj1 Hs) as Hb. pose proof (bsz_fits fsz bsz Hs) as Hw.
  pose proof (client_branch_progress Hb Hw fuelC HfuelC HfuelC' (to_client_frames j Hl) k _ b s Hi Glo G) as Hpr.
  pose proof (poll_branch_loans fuelC _ b s Hi Glo) as Hlo.
  pose proof (li_fine _ Hl) as [F1 F2 F3 F4 F5].
  set (j' := MkJoint _ _ _ _ _ _). pose proof Est as Est'. rewrite div_ceil_num_blocks in Est' by done.
  assert (step j j') as Hst.
  { apply (j_client _ _ _ _ _ _ _ j); [by rewrite E|]. rewrite E. intros b0 s0 s' f [= <- <-] Hq Hin. left.
    eapply client_step_contents; [apply (ci_ok _ _ Hi)|exact Est'|done|done]. }
  pose proof (client_step_inv Hb Hw _ _ _ _ _ (Hi : cconf_inv _ (CRun b s)) Est') as Hi'.
  assert (joint_fine j' ∧ client_nearer k b s c) as [Hf' Hc].
  { cbn [client_step] in Est'.
    destruct (Client.poll_branch bsz nb fuelC b s) as [s'|e s'|e s'|e s'|]; simplify_eq;
      unfold server_progress, client_progress in Hpr; try done.
    - destruct Hpr as (P1 & P2 & P3). split; [by split; cbn; rewrite ?(right_id_L [] (++))|].
      split; [by split|]. split; [done|]. destruct P3 as [P3|[P3 P4]]; [by left|right; by split_and!].
    - destruct Hpr as (P1 & P2 & P3). pose proof (send_fine_snoc _ e F3 P3).
      split; [by split|]. split; [by split|]. split; [lia|by left].
    - pose proof (send_fine_snoc _ e F3 Hpr). split; [|done]. split; try done.
      apply (sure_fine (h_ok:=hc_ok)). exact (cb_ok _ _ Hi'). }
  split; [done|]. split; [|done].
  eapply linv_step; [exact Hl|exact Hst|exact Hf'|exact (li_server _ Hl)|].
  cbn. destruct c; try done. apply Hc.
Qed.

Lemma server_poll_spec j : linv j → let j' := server_poll j in
  rtc step j j' ∧ linv j' ∧ (left_over j' ≤ left_over j)%nat
  ∧ at_client j' = at_client j ∧ to_server j' = to_server j ∧ to_client j' = to_client j
  ∧ ((left_over j' < left_over j)%nat
     ∨ match at_server j with
       | SRun b s => ∃ s', at_server j' = SRun (Server.next_branch b) s'
           ∧ server_idle b s ∧ server_quiet s s'
       | _ => j' = j
       end).
Proof.
  intros Hl. unfold server_poll. destruct (at_server j) as [b s|e s|e s|] eqn:E;
    [|cbv zeta; split_and!; try done; by right..].
  destruct (server_rereads_spec j b s Hl E) as [Hst1 Hl1]. set (s1 := with_objects s _ _ _ _).
  destruct (server_step fuelS (SRun b s1)) as [es c] eqn:Est.
  destruct (server_turn _ b s1 es c Hl1 eq_refl Est) as (Hst2 & Hl2 & Hc).
  cbn [server_rereads at_client at_server server_log client_log to_server to_client] in Hst2, Hl2, Hc.
  set (k := (server_bytes - length (to_server j))%nat) in *.
  assert (server_credit (fsz:=fsz) (bsz:=bsz) k s1 ≤ server_credit (fsz:=fsz) (bsz:=bsz) k s)%nat as Hcr.
  { destruct (server_file j b s Hl E) as [Hok Hlen].
    unfold server_credit, hash_credit, Server.credit; cbn. rewrite reread_recvd.
    pose proof (reread_stalls (d_content (dest s)) (Server.hasher s) Hok Hlen). lia. }
  cbv zeta. rewrite (assoc and).
  split; [split; [eapply rtc_l; [exact Hst1|by apply rtc_once]|done]|].
  unfold left_over, server_left, client_left. cbn [at_server at_client to_server to_client].
  rewrite E. fold k. unfold server_nearer in Hc.
  destruct c as [b' s'|e s'|e s'|]; try done; [|split_and!; try done; [lia|left; lia]].
  destruct Hc as (_ & Hc & Hd). split; [lia|]. split; [done|]. split; [done|]. split; [done|].
  destruct Hd as [Hd|(-> & H1 & H2)]; [left; lia|right]. exists s'. split; [done|].
  split; [by destruct b|]. etrans; [|exact H2]. by split.
Qed.

Lemma client_poll_spec j : linv j → let j' := client_poll j in
  rtc step j j' ∧ linv j' ∧ (left_over j' ≤ left_over j)%nat
  ∧ at_server j' = at_server j ∧ to_server j' = to_server j ∧ to_client j' = to_client j
  ∧ ((left_over j' < left_over j)%nat
     ∨ match at_client j with
       | CRun b s => ∃ s', at_client j' = CRun (Client.next_branch b) s'
           ∧ client_idle b s ∧ client_quiet s s'
       | _ => j' = j
       end).
Proof.
  intros Hl. unfold client_poll. destruct (at_client j) as [b s|s|e s|] eqn:E;
    [|cbv zeta; split_and!; try done; by right..].
  destruct (client_step bsz (div_ceil fsz bsz) fuelC (CRun b s)) as [es c] eqn:Est.
  destruct (client_turn j b s es c Hl E Est) as (Hst & Hl' & Hc).
  set (k := (client_bytes_max - length (to_client j))%nat) in *.
  cbv zeta. rewrite (assoc and). split; [split; [by apply rtc_once|done]|].
  unfold left_over, server_left, client_left. cbn [at_server at_client to_server to_client].
  rewrite E. fold k. unfold client_nearer in Hc.
  destruct c as [b' s'|s'|e s'|]; try done; [|split_and!; try done; [lia|left; lia]].
  destruct Hc as (_ & Hc & Hd). split; [lia|]. split; [done|]. split; [done|]. split; [done|].
  destruct Hd as [Hd|(-> & H1 & H2)]; [left; lia|right]. by exists s'.
Qed.

(** Some polls of the server: nearer to the end, or all their branches idle. *)
Lemma server_polls_spec n j : linv j → let j' := Nat.iter n server_poll j in
  rtc step j j' ∧ linv j' ∧ (left_over j' ≤ left_over j)%nat
  ∧ at_client j' = at_client j ∧ to_server j' = to_server j ∧ to_client j' = to_client j
  ∧ ((left_over j' < left_over j)%nat
     ∨ match at_server j with
       | SRun b s => ∃ s', at_server j' = SRun (Nat.iter n Server.next_branch b) s'
           ∧ server_quiet s s' ∧ ∀ i, (i < n)%nat → server_idle (Nat.iter i Server.next_branch b) s'
       | _ => j' = j
       end).
Proof.
  intros Hl. induction n as [|n (I1 & I2 & I3 & I4 & I5 & I6 & I7)]; cbv zeta in *.
  { cbn. split_and!; try done. right. destruct (at_server j) as [b s| | |]; [|done..].
    exists s. split; [done|]. split; [done|]. lia. }
  change (Nat.iter (S n) server_poll j) with (server_poll (Nat.iter n server_poll j)).
  set (j1 := Nat.iter n server_poll j) in *.
  destruct (server_poll_spec j1 I2) as (P1 & P2 & P3 & P4 & P5 & P6 & P7).
  split; [by etrans|]. split; [done|]. split; [lia|]. split; [congruence|].
  split; [congruence|]. split; [congruence|].
  destruct P7 as [P7|P7]; [left; lia|]. destruct I7 as [I7|I7]; [left; lia|right].
  destruct (at_server j) as [b s|e s|e s|] eqn:E; [|rewrite I7, E in P7; congruence..].
  destruct I7 as (s1 & E1 & Q1 & Hid). rewrite E1 in P7. destruct P7 as (s' & E' & H1 & H2).
  exists s'. split; [exact E'|]. split; [by etrans|]. intros i Hi.
  apply (server_quiet_idle _ s1); [done|].
  destruct (decide (i = n)) as [->|]; [done|]. apply Hid. lia.
Qed.

Lemma client_polls_spec n j : linv j → let j' := Nat.iter n client_poll j in
  rtc step j j' ∧ linv j' ∧ (left_over j' ≤ left_over j)%nat
  ∧ at_server j' = at_server j ∧ to_server j' = to_server j ∧ to_client j' = to_client j
  ∧ ((left_over j' < left_over j)%nat
     ∨ match at_client j with
       | CRun b s => ∃ s', at_client j' = CRun (Nat.iter n Client.next_branch b) s'
           ∧ client_quiet s s' ∧ ∀ i, (i < n)%nat → client_idle (Nat.iter i Client.next_branch b) s'
       | _ => j' = j
       end).
Proof.
  intros Hl. induction n as [|n (I1 & I2 & I3 & I4 & I5 & I6 & I7)]; cbv zeta in *.
  { cbn. split_and!; try done. right. destruct (at_client j) as [b s| | |]; [|done..].
    exists s. split; [done|]. split; [done|]. lia. }
  change (Nat.iter (S n) client_poll j) with (client_poll (Nat.iter n client_poll j)).
  set (j1 := Nat.iter n client_poll j) in *.
  destruct (client_poll_spec j1 I2) as (P1 & P2 & P3 & P4 & P5 & P6 & P7).
  split; [by etrans|]. split; [done|]. split; [lia|]. split; [congruence|].
  split; [congruence|]. split; [congruence|].
  destruct P7 as [P7|P7]; [left; lia|]. destruct I7 as [I7|I7]; [left; lia|right].
  destruct (at_client j) as [b s|s|e s|] eqn:E; [|rewrite I7, E in P7; congruence..].
  destruct I7 as (s1 & E1 & Q1 & Hid). rewrite E1 in P7. destruct P7 as (s' & E' & H1 & H2).
  exists s'. split; [exact E'|]. split; [by etrans|]. intros i Hi.
  apply (client_quiet_idle _ s1); [done|].
  destruct (decide (i = n)) as [->|]; [done|]. apply Hid. lia.
Qed.

(** The four branches in turn are all branches. *)
Lemma server_cycle b b0 : ∃ i, (i < 4)%nat ∧ Nat.iter i Server.next_branch b = b0.
Proof.
  destruct b, b0;
    (by exists 0%nat; split; [lia|]) || (by exists 1%nat; split; [lia|])
    || (by exists 2%nat; split; [lia|]) || (by exists 3%nat; split; [lia|]).
Qed.
Lemma client_cycle b b0 : ∃ i, (i < 4)%nat ∧ Nat.iter i Client.next_branch b = b0.
Proof.
  destruct b, b0;
    (by exists 0%nat; split; [lia|]) || (by exists 1%nat; split; [lia|])
    || (by exists 2%nat; split; [lia|]) || (by exists 3%nat; split; [lia|]).
Qed.

(** No deadlock: when every hash has arrived at the client, one of its branches
    has something to do. *)
Lemma client_not_idle j bs ss b s : linv j → at_server j = SRun bs ss → wr_hash ss = None →
  lenN (h_recvd (Server.hasher ss)) = nb → to_client j = sent_by_server (at_server j) →
  at_client j = CRun b s → ¬ ∀ b0, client_idle b0 s.
Proof.
  intros Hl Es Hw Hn Hto Ec Hid. pose proof (li_client _ Hl) as G. rewrite Ec in G. destruct G as [ [_ G2 _] _].
  pose proof (ji_client _ _ _ _ _ _ _ _ (li_inv _ Hl)) as Hi. rewrite Ec in Hi. cbn [cconf_inv] in Hi.
  destruct (server_hashes_sent j ss Hl ltac:(by rewrite Es)) as (_ & _ & Hx & Hsent).
  rewrite Es in Hto. cbn [sent_by_server] in Hto. rewrite (Hsent bs Es Hw) in Hto.
  set (hs := hash ∘ snd <$> h_recvd (Server.hasher ss)) in *.
  destruct (ci_read _ _ Hi) as (rest & Hst & Hc). destruct (Hc G2) as (c & -> & Hho).
  pose proof (Hid Client.BRead) as Hnil. cbn in Hnil.
  cbn [incoming sock_read] in Hst. rewrite Hnil, (right_id_L [] (++)) in Hst.
  assert (strings 256 (to_client j) hs []) as Hall.
  { rewrite Hto. pose proof (parses_frames (parse_string 256) string_frame hs []) as Hp.
    rewrite (right_id_L [] (++)) in Hp. apply Hp. intros x l Hin. by apply parse_string_frame, Hx. }
  assert (length hs ≤ length (ev_hashes (client_log j)))%nat as Hle.
  { destruct (parse_string 256 c) as [[x r]|e] eqn:Hp.
    - exfalso. rewrite <-(ci_max _ _ Hi), <-(right_id_L [] (++) c) in Hp.
      apply RS.holds_takes in Hp; [cbn in Hp; lia|done|by rewrite (ci_max _ _ Hi)].
    - by eapply parses_maximal. }
  assert (length hs = N.to_nat nb) as Hlen by (unfold hs; rewrite length_fmap; unfold lenN in Hn; lia).
  destruct (ci_hashes _ _ Hi) as (hs0 & Hev & Hl0). pose proof (ci_idx _ _ Hi) as Hidx.
  pose proof (ci_over _ _ Hi) as Hov. destruct (hash_comparison_over s) eqn:Ho.
  - destruct Hov as [_ [w Hww]]. pose proof (Hid BSend) as Hb. cbn in Hb. by rewrite Hww in Hb.
  - pose proof (Hid BNext) as Hb. cbn in Hb. rewrite Ho in Hb.
    pose proof (Hid BSend) as Hb'. cbn in Hb'. destruct (wr_block s); [done|].
    destruct (remote_hashes s); [|done]. rewrite Hev, length_app in Hle. cbn in Hle. unfold lenN in Hidx. lia.
Qed.

Definition both_left j : Prop := (∃ e s, at_server j = SBroke e s) ∧ ∃ s, at_client j = CBroke s.

(** A round is part of a run, and brings the end nearer. *)
Lemma round_spec j : linv j →
  rtc step j (round j) ∧ linv (round j) ∧ (left_over (round j) ≤ left_over j)%nat
  ∧ ((left_over (round j) < left_over j)%nat ∨ both_left (round j)).
Proof.
  intros Hl. unfold round.
  destruct (deliver_server_spec j Hl) as (A1 & A2 & A3 & _ & _ & _ & A4).
  destruct (close_server_spec _ A2 A4) as (B1 & B2 & B3 & _ & _ & _ & B4).
  destruct (deliver_client_spec _ B2 B4) as (C1 & C2 & C3 & _ & _ & C4 & C5).
  set (j1 := deliver_client _) in *.
  destruct (server_polls_spec 4 j1 C2) as (D1 & D2 & D3 & D4 & D5 & D6 & D7).
  set (j2 := Nat.iter 4 server_poll j1) in *.
  destruct (client_polls_spec 4 j2 D2) as (E1 & E2 & E3 & E4 & E5 & E6 & E7).
  set (j3 := Nat.iter 4 client_poll j2) in *.
  split; [by repeat (etrans; [eassumption|])|]. split; [done|]. split; [lia|].
  destruct D7 as [D7|D7]; [left; lia|]. destruct E7 as [E7|E7]; [left; lia|right].
  destruct (at_server j1) as [b s|e s|e s|] eqn:Es.
  - destruct D7 as (s2 & Es2 & Q & Hid). exfalso.
    assert (∀ b0, server_idle b0 s2) as Hall.
    { intros b0. destruct (server_cycle b b0) as (i & Hi & <-). by apply Hid. }
    pose proof (Hall Server.BDisk) as H1. pose proof (Hall Server.BHash) as H2. cbn in H1, H2.
    destruct (Hall Server.BRead) as [[? H3]|[_ H3]]; [congruence|].
    destruct (Hall Server.BRecv) as [[? H4]|H4]; [congruence|].
    pose proof (li_server _ D2) as G. rewrite Es2 in G. destruct G as [_ _ G _]. specialize (G H4).
    destruct (C4 b s Es) as [_ Hgone]. destruct (sq_rx _ _ Q) as [_ Hend]. rewrite Hend in H3.
    pose proof (li_client _ D2) as Gc. rewrite D4 in Gc, E7.
    destruct (at_client j1) as [bc c|c|e c|] eqn:Ec; [|by rewrite Hgone in H3|done..].
    destruct E7 as (c3 & Ec3 & Qc & Hidc).
    apply (client_not_idle j3 (Nat.iter 4 Server.next_branch b) s2 (Nat.iter 4 Client.next_branch bc) c3 E2 ltac:(rewrite E4; exact Es2) H2 G); [|exact Ec3|].
    + rewrite E6, D6, E4, Es2. cbn. rewrite (sq_tx _ _ Q). exact (C5 bc c eq_refl).
    + intros b0. destruct (client_cycle bc b0) as (i & Hi & <-). by apply Hidc.
  - assert (at_server j3 = SBroke e s) as Es3 by (rewrite E4, D7; exact Es).
    split; [by exists e, s|]. pose proof (li_server _ E2) as G. rewrite Es3 in G.
    destruct (fine_client _ (li_fine _ E2)) as [c Ec].
    destruct (ji_closed _ _ _ _ _ _ _ _ (li_inv _ E2) c) as [Hc _]; [by rewrite Es3|done|by exists c].
  - pose proof (li_server _ C2) as G. by rewrite Es in G.
  - pose proof (li_server _ C2) as G. by rewrite Es in G.
Qed.

(** Once both are over a round changes nothing. *)
Lemma both_left_round j : both_left j → round j = j.
Proof.
  intros [(e & s & Es) (c & Ec)]. unfold round.
  assert (server_poll j = j) as Hsp by (unfold server_poll; by rewrite Es).
  assert (client_poll j = j) as Hcp by (unfold client_poll; by rewrite Ec).
  assert (deliver_server j = j) as Hd by (unfold deliver_server; by rewrite Es).
  assert (close_server j = j) as Hcl by (unfold close_server; by rewrite Es).
  assert (deliver_client j = j) as Hdc by (unfold deliver_client; by rewrite Ec).
  rewrite Hd, Hcl, Hdc. cbn. by rewrite !Hsp, !Hcp.
Qed.

Lemma rounds_spec n j : linv j → let j' := Nat.iter n round j in
  rtc step j j' ∧ linv j' ∧ (both_left j' ∨ (left_over j' + n ≤ left_over j)%nat).
Proof.
  intros Hl. induction n as [|n (I1 & I2 & I3)]; cbv zeta in *.
  { cbn. split; [done|]. split; [done|]. right. lia. }
  change (Nat.iter (S n) round j) with (round (Nat.iter n round j)).
  set (j1 := Nat.iter n round j) in *.
  destruct (round_spec j1 I2) as (R1 & R2 & R3 & R4).
  split; [by etrans|]. split; [done|]. destruct R4 as [R4|R4]; [|by left].
  destruct I3 as [I3|I3]; [|right; lia].
  left. by rewrite (both_left_round j1 I3).
Qed.

Lemma rounds_end n j : linv j → (left_over j ≤ n)%nat → both_left (Nat.iter n round j).
Proof.
  intros Hl Hn. destruct (rounds_spec n j Hl) as (_ & H2 & [H3|H3]); [done|].
  destruct (left_over (Nat.iter n round j)) eqn:E; [|lia].
  pose proof (li_server _ H2) as G1. pose proof (li_client _ H2) as G2.
  unfold left_over, server_left, client_left in E. unfold both_left.
  destruct (at_server _), (at_client _); try done; try lia. split; by do 2 eexists || eexists.
Qed.

(** *** From the start *)

Lemma linv_init (rxS rxC : Socket) (txS : Ws) (file : D) (hS : Hs') t (txC : Wc) (hC : Hc') :
  starts hs_ok hc_ok src rxS txS file hS rxC txC hC → sock_ended rxC = false →
  sound txS → sound file → sound txC → d_content file = old → h_loans hS = [] → h_loans hC = [] →
  linv (joint_init fsz bsz rxS txS file hS t rxC txC hC).
Proof.
  intros Hst Hrx H1 H2 H3 Hfile Hlo1 Hlo2. split.
  - by apply (jinv_init fsz bsz algorithm hs_ok hc_ok src Hs Hfz old).
  - split; cbn; [intros e Hin; by apply not_elem_of_nil in Hin..|by eexists|done].
  - by split.
  - split; [by split|]. unfold loans_kept. cbn. by rewrite Hlo2.
Qed.

Lemma rounds_content n j : linv j → (left_over j ≤ n)%nat → lenN src = fsz →
  (∀ k, k < nb → hash_data (block fsz bsz src k) algorithm = hash_data (block fsz bsz old k) algorithm →
     block fsz bsz src k = block fsz bsz old k) →
  let j' := Nat.iter n round j in
  rtc step j j' ∧ joint_fine j'
  ∧ ∃ e ss sc, at_server j' = SBroke e ss ∧ (∀ k, e ≠ EIo k) ∧ at_client j' = CBroke sc
      ∧ d_content (dest ss) = src.
Proof.
  intros Hl Hn Hsrc Hcoll. cbv zeta. destruct (rounds_end n j Hl Hn) as [(e & ss & Es) [sc Ec]].
  destruct (rounds_spec n j Hl) as (Hrun & Hl' & _). split; [done|]. split; [apply Hl'|].
  pose proof (li_server _ Hl') as He. rewrite Es in He. exists e, ss, sc.
  split; [done|]. split; [done|]. split; [done|].
  by apply (joint_content fsz bsz algorithm hs_ok hc_ok src Hs Hfz old Hold _ e ss sc
    (li_inv _ Hl') (li_fine _ Hl')).
Qed.

End rounds.

(** ** Rounds of two ends: a file of 23 bytes whose block 1 changed *)

#[local] Existing Instance digests.
#[local] Existing Instance digests_laws.

#[local] Instance turns_hasher : Hasher FileHasher := file_hasher 23 10 CRC32.
#[local] Instance turns_fair : FairHasher FileHasher (fh_ok 23 10) := file_fair 23 10 CRC32 (fh_ok 23 10).
#[local] Instance turns_rereads : Rereads FileHasher 23 (fh_ok 23 10) := file_rereads 23 10 CRC32.

Definition turns_old : bytes := byte_of <$> seqN 23.
Definition turns_new : bytes := take 10 turns_old ++ replicate 10 Byte.x07 ++ drop 20 turns_old.
Definition turns_init : Joint :=
  joint_init 23 10 (MkSocket [] false) (MkEager [] [EStall; EAccept 2])
    (MkDisk turns_old 0 (MkEager [] [EAccept 3; EStall])) (MkFileHasher [turns_old] [] [true; false])
    [true; false] (MkSocket [] false) (MkEager [] [EAccept 2; EStall])
    (MkFileHasher [turns_new] [] [true]).
Definition turns (n : nat) (j : Joint) : Joint :=
  Nat.iter n (round (Ws:=Eager) (D:=Disk Eager) (Wc:=Eager) (T:=list bool) 23 10 (fh_ok 23 10) 50 50) j.

Lemma turns_sane : sane 23 10 1.
Proof. by split_and!; vm_compute. Qed.
#[local] Instance turns_laws : HasherLaws FileHasher 23 10 CRC32 (fh_ok 23 10) :=
  file_hasher_laws 23 10 CRC32 turns_sane.
#[local] Instance turns_sure : SureHasher FileHasher (fh_ok 23 10) := file_sure 23 10 CRC32.

