(* ===== verification/Session.v ===== *)
(** A whole session: [process_new_client] (src/src/server.rs) and [new_process]
    (src/src/client.rs) as one function each, from the handshakes (Handshake.v)
    through [hash_file] to the event loops (Server.v, Client.v) and the file
    that is left; and what two ends joined by their bytes (Sync.v) do to the
    destination: whatever the interleaving, when the session ends, the
    destination is the source; and it ends (Rounds.v) when the objects of the two
    ends do not fail, as with the pipelines of workers of Diligent.v. *)

From stdpp Require Import base option list gmap numbers.
From Stdlib Require Import NArith Lia.
From S2P Require Import Prelude AsyncIO Utf8 Wire Loan Resumable ResumableString ResumableBlock.
From S2P Require Import Disk Fs OrderedChannel HashFile Pipeline PipelineInv HashStream Hasher Diligent.
From S2P Require Import Overwrite Handshake Server Client Sync Progress Rounds Digests.
#[local] Open Scope N_scope.

(** ** [hash_file] for any file *)

(** The stream of the hashes of a content, and its operations, which depend on
    the sizes. *)
Class HashFiles (H : Type) := {
  hf_hasher : N → N → N → HashAlgorithm → Hasher H;
  hf_start : bytes → N → N → HashAlgorithm → H;
}.

(** The promises of Hasher.v, for all sizes. *)
Class HashFilesLaws (H : Type) {Hf : HashFiles H} {Hg : Hashing}
    (ok : bytes → N → N → HashAlgorithm → H → Prop) : Prop := {
  hf_laws content bsz w a : sane (lenN content) bsz w →
    HasherLaws H (Hh := hf_hasher (lenN content) bsz w a) (lenN content) bsz a (ok content bsz w a);
  hf_start_ok content bsz w a : sane (lenN content) bsz w →
    let h := hf_start content bsz w a in
    ok content bsz w a h
    ∧ h_recvd (Hasher := hf_hasher (lenN content) bsz w a) h = []
    ∧ (∀ f, f ∈ h_contents (Hasher := hf_hasher (lenN content) bsz w a) h → f = content)
    ∧ h_loans (Hasher := hf_hasher (lenN content) bsz w a) h = [];
}.

(** Lines 36-47 of [hash_file]: the file is opened and its length taken, then
    the workers are started. *)
Definition hash_file {H} `{!HashFiles H} (path : bytes) (block_size workers : N)
    (algorithm : HashAlgorithm) : IO Fs (N * H) :=
  file ← fs_open_read path;
  file_size ← fs_seek_end file;
  content ← fs_existing file;
  mret (file_size, hf_start content block_size workers algorithm).

(** ** The server *)

(** Where a call of [process_new_client] is: it returned before the loop, after
    the loop, or from within; or it has not returned. *)
Inductive PEnd (S R W D H : Type) :=
  | PEarly (r : Result StatusCode) (s : S) (fs : Fs)
  | PEnded (e : Error) (r : Result StatusCode) (s : Srv R W D H) (fs : Fs)
  | PFailed (e : Error) (s : Srv R W D H) (fs : Fs)
  | PBusy (req : Request) (c : SConf (R:=R) (W:=W) (D:=D) (H:=H)) (fs : Fs).
Arguments PEarly {S R W D H} r s fs.
Arguments PEnded {S R W D H} e r s fs.
Arguments PFailed {S R W D H} e s fs.
Arguments PBusy {S R W D H} req c fs.

Definition process_result {S R W D H} (p : PEnd S R W D H) : option (Result StatusCode) :=
  match p with
  | PEarly r _ _ | PEnded _ r _ _ => Some r
  | PFailed e _ _ => Some (Err e)
  | PBusy _ _ _ => None
  end.

Section server.
Context {S R W D H : Type} `{!Stream S, !AsyncRead R, !AsyncWrite W, !AsyncWrite D, !DiskFile D}.
Context `{!HashFiles H}.
Context (split : S → R * W) (open_disk : bytes → D).

(** Lines 155-158, when the loop is over; the file is left as it is then. *)
Definition serve_end (req : Request) (fs : Fs) (c : SConf (R:=R) (W:=W) (D:=D) (H:=H))
    : PEnd S R W D H :=
  let left (d : D) := fs_put (dest_path req) (d_content d) fs in
  match c with
  | SBroke e srv => let '(r, d) := server_finish srv in PEnded e r srv (left d)
  | SReturned e srv => PFailed e srv (left (dest srv))
  | c => PBusy req c fs
  end.

(** Lines 84-158, for [n] polls, on the file of the request and its hashes. *)
Definition serve {Hh : Hasher H} (n fuel : nat) (req : Request) (s : S) (file : D) (h : H) (fs : Fs)
    : list SEv * PEnd S R W D H :=
  let '(rx, tx) := split s in
  let '(es, c) :=
    server_run n fuel (SRun BDisk (server_init (block_size req) (filesize req) rx tx file h)) in
  (es, serve_end req fs c).

(** Lines 81-95: the hashing is started and the file opened once more. *)
Definition start_serving (workers : N) (req : Request) : IO Fs (N * H * D) :=
  sh ← hash_file (dest_path req) (block_size req) workers (hash_algorithm req);
  file ← fs_open_write (dest_path req);
  content ← fs_existing file;
  mret (sh, open_disk content).

(** [process_new_client] *)
Definition process_new_client (n fuel : nat) (secret : bytes) (workers : N) (s : S) (fs : Fs)
    : list SEv * PEnd S R W D H :=
  let '(r, (s1, fs1)) := server_handshake secret (s, fs) in
  match r with
  | Err e => ([], PEarly (Err e) s1 fs1)
  | Ok (inl st) => ([], PEarly (Ok st) s1 fs1)
  | Ok (inr req) =>
      let '(r2, fs2) := start_serving workers req fs1 in
      match r2 with
      | Err e => ([], PEarly (Err e) s1 fs2)
      | Ok (size, h, file) =>
          serve (Hh := hf_hasher size (block_size req) workers (hash_algorithm req))
                n fuel req s1 file h fs2
      end
  end.
End server.

(** ** The client *)

(** Where a call of [new_process] is, as above. *)
Inductive CProc (R W T H : Type) :=
  | CpEarly (e : Error)
  | CpLoop (c : CConf (R:=R) (W:=W) (T:=T) (H:=H)).
Arguments CpEarly {R W T H} e.
Arguments CpLoop {R W T H} c.

Section client.
Context {S R W T H : Type} `{!Stream S, !AsyncRead R, !AsyncWrite W, !Timer T, !HashFiles H}.
Context (split : S → R * W).

(** Lines 68-142, for [n] polls. *)
Definition compare_and_send {Hh : Hasher H} (n fuel : nat) (o : ClientProcessOptions) (src_size : N)
    (t : T) (s : S) (h : H) : list CEv * CConf (R:=R) (W:=W) (T:=T) (H:=H) :=
  let '(rx, tx) := split s in
  client_run (opt_block_size o) (div_ceil src_size (opt_block_size o)) n fuel
    (CRun BTimer (client_init t rx tx h)).

(** [new_process] *)
Definition new_process (n fuel : nat) (o : ClientProcessOptions) (t : T) (s : S) (fs : Fs)
    : list CEv * CProc R W T H :=
  let '(r, (s1, fs1)) := client_handshake o (s, fs) in
  match r with
  | Err e => ([], CpEarly e)
  | Ok src_size =>
      match (hash_file (opt_src_path o) (opt_block_size o) (opt_workers o)
               (opt_hash_algorithm o) fs1).1 with
      | Err e => ([], CpEarly e)
      | Ok (size, h) =>
          let '(es, c) :=
            compare_and_send
              (Hh := hf_hasher size (opt_block_size o) (opt_workers o) (opt_hash_algorithm o))
              n fuel o src_size t s1 h in (es, CpLoop c)
      end
  end.

Definition new_process_result (p : CProc R W T H) : option (Result ()) :=
  match p with
  | CpEarly e => Some (Err e)
  | CpLoop c => client_result c
  end.
End client.

(** ** Lemmas *)

Lemma sane_one fsz bsz w : sane fsz bsz w → sane fsz bsz 1.
Proof. intros (H1 & H2 & H3). split_and!; [done|done|]. nia. Qed.

Lemma hash_file_granted {H} `{!HashFiles H} path bsz w a fs content :
  fs_refuses fs FsOpenRead path = None → fs_files fs !! path = Some content →
  hash_file path bsz w a fs = (Ok (lenN content, hf_start content bsz w a), fs).
Proof.
  intros Hr Hc. unfold hash_file, fs_open_read, fs_seek_end, fs_call, fs_existing, mbind, IO_bind,
    mret, IO_ret. by rewrite Hr, !Hc.
Qed.

Lemma start_serving_granted {D H} `{!HashFiles H} (open_disk : bytes → D) w req fs content :
  all_granted (dest_path req) fs → fs_files fs !! dest_path req = Some content →
  start_serving open_disk w req fs
  = (Ok (lenN content, hf_start content (block_size req) w (hash_algorithm req),
         open_disk content), fs).
Proof.
  intros Hg Hc. unfold start_serving.
  erewrite io_step by (apply hash_file_granted; [apply Hg|exact Hc]).
  unfold fs_open_write, fs_call, fs_existing, mbind, IO_bind, mret, IO_ret. by rewrite Hg, !Hc.
Qed.

Lemma server_finish_content {R W D H} `{!AsyncWrite D, !DiskFile D, !DiskLaws D}
    (s : Srv R W D H) r d : server_finish s = (r, d) → d_content d = d_content (dest s).
Proof.
  unfold server_finish. destruct (d_flush (dest s)) as [r1 d1] eqn:E1. apply disk_flush in E1.
  destruct r1 as [[]|e]; [|intros; by simplify_eq].
  destruct (d_sync d1) as [r2 d2] eqn:E2. apply disk_sync in E2. intros; simplify_eq. congruence.
Qed.

(** A call goes on as its loop does. *)
Section serve.
Context {R W D H : Type} `{!AsyncRead R, !AsyncWrite W, !AsyncWrite D, !DiskFile D, !HashFiles H}.
Context (split : Conn → R * W) (open_disk : bytes → D).

Lemma process_new_client_goes_on fuel secret workers c fs req conf fs1 :
  process_new_client split open_disk 0 fuel secret workers c fs = ([], PBusy req conf fs1) →
  ∃ size, ∀ n,
    process_new_client split open_disk n fuel secret workers c fs
    = let '(es, conf') := server_run (Hasher0 := hf_hasher size (block_size req) workers (hash_algorithm req))
        n fuel conf in (es, serve_end req fs1 conf').
Proof.
  unfold process_new_client. destruct (server_handshake secret (c, fs)) as [[[st|req1]|e] [s1 fs2]];
    [done| |done].
  destruct (start_serving open_disk workers req1 fs2) as [[[[size h] file]|e] fs3]; [|done].
  unfold serve. destruct (split s1) as [rx tx]. cbn [server_run]. intros [= -> <- ->].
  by exists size.
Qed.

Lemma new_process_goes_on {T} `{!Timer T} fuel o (t : T) c fs conf :
  new_process split 0 fuel o t c fs = ([], CpLoop conf) →
  ∃ size src_size, ∀ n,
    new_process split n fuel o t c fs
    = let '(es, conf') := client_run
        (Hasher0 := hf_hasher size (opt_block_size o) (opt_workers o) (opt_hash_algorithm o))
        (opt_block_size o) (div_ceil src_size (opt_block_size o)) n fuel conf in (es, CpLoop conf').
Proof.
  unfold new_process. destruct (client_handshake o (c, fs)) as [[src_size|e] [s1 fs1]]; [|done].
  destruct (hash_file _ _ _ _ fs1).1 as [[size h]|e]; [|done].
  unfold compare_and_send. destruct (split s1) as [rx tx]. cbn [client_run]. intros [= <-].
  exists size, src_size. intros n. by destruct (client_run _ _ n _ _).
Qed.
End serve.

(** ** Two ends *)

Section session.
Context {Rs Ws D Hs Rc Wc T Hc : Type}.
Context `{!AsyncRead Rs, !AsyncReadLaws Rs, !LiveRead Rs, !AsyncWrite Ws, !AsyncWriteLaws Ws}.
Context `{!AsyncWrite D, !AsyncWriteLaws D, !DiskFile D, !DiskLaws D}.
Context `{!AsyncRead Rc, !AsyncReadLaws Rc, !AsyncWrite Wc, !AsyncWriteLaws Wc, !Timer T}.
Context {Hfs : HashFiles Hs} {Hfc : HashFiles Hc} {Hg : Hashing} {Hgl : HashingLaws}.
Context (server_ok : bytes → N → N → HashAlgorithm → Hs → Prop) {Hls : HashFilesLaws Hs server_ok}.
Context (client_ok : bytes → N → N → HashAlgorithm → Hc → Prop) {Hlc : HashFilesLaws Hc client_ok}.
Context (split_s : Conn → Rs * Ws) (split_c : Conn → Rc * Wc) (open_disk : bytes → D).

(** A connection is split into its two directions; an open file has its content. *)
Record faithful : Prop := {
  fa_server c : incoming (split_s c).1 = c_in c ∧ ended (split_s c).1 = false
    ∧ written (split_s c).2 = [];
  fa_client c : incoming (split_c c).1 = c_in c ∧ written (split_c c).2 = [];
  fa_disk content : d_content (open_disk content) = content;
}.

(** The destination once it has the size of the source. *)
Definition resized (o : ClientProcessOptions) (size : N) (fs : Fs) : bytes :=
  resize (N.to_nat size) Byte.x00 (default [] (fs_files fs !! opt_dest o)).

(** The two connections when the handshakes are over: the server has read the
    bytes of the client up to the size of the block, the client the three
    acknowledgements, and nothing else was sent. *)
Definition server_conn (o : ClientProcessOptions) (size : N) : Conn :=
  MkConn (client_bytes o size) [] true.
Definition client_conn : Conn := MkConn (replicate 3 (status_byte Ack)) [] true.

(** A session of a server with [workers] and the secret of the client: both calls
    come to their loops, and the two loops run together, in any interleaving
    ([jstep] of Sync.v), until both are over, that of the server because its
    connection has ended; no write and no hashing failed; the server's call
    returns and leaves the files [fs']. *)
Record session (workers : N) (o : ClientProcessOptions) (src : bytes) (fs fs_client fs' : Fs)
    (fuelS fuelC : nat) (t : T) : Prop := {
  se_run : ∃ req conf fs1 cconf j e ss sc,
    process_new_client (H:=Hs) split_s open_disk 0 fuelS (opt_secret o) workers
      (server_conn o (lenN src)) fs = ([], PBusy req conf fs1)
    ∧ new_process (H:=Hc) split_c 0 fuelC o t client_conn fs_client = ([], CpLoop cconf)
    ∧ rtc (jstep (Hhs := hf_hasher (lenN src) (opt_block_size o) workers (opt_hash_algorithm o))
                 (Hhc := hf_hasher (lenN src) (opt_block_size o) (opt_workers o) (opt_hash_algorithm o))
                 (lenN src) (opt_block_size o)
                 (server_ok (resized o (lenN src) fs) (opt_block_size o) workers (opt_hash_algorithm o))
                 (client_ok src (opt_block_size o) (opt_workers o) (opt_hash_algorithm o))
                 fuelS fuelC src)
          (MkJoint conf cconf [] [] [] []) j
    ∧ joint_fine (Hhc := hf_hasher (lenN src) (opt_block_size o) (opt_workers o) (opt_hash_algorithm o)) j
    ∧ at_server j = SBroke e ss ∧ (∀ k, e ≠ EIo k) ∧ at_client j = CBroke sc
    ∧ ∃ r, serve_end (S:=Conn) req fs1 (at_server j) = PEnded e r ss fs';
}.

(** What the two calls come to once the handshakes are over. *)
Lemma process_new_client_starts workers fuel o size old fs :
  options_ok o size → block_size_ok (opt_block_size o) → size < 2 ^ 63 →
  all_granted (opt_dest o) fs →
  size_differs (opt_dest o) size fs && negb (opt_force_truncate o) = false →
  resized o size fs = old →
  ∃ c, c_in c = [] ∧
    process_new_client (H:=Hs) split_s open_disk 0 fuel (opt_secret o) workers (server_conn o size) fs
    = ([], PBusy (wanted o size) (SRun BDisk (server_init (opt_block_size o) size (split_s c).1
             (split_s c).2 (open_disk old)
             (hf_start old (opt_block_size o) workers (opt_hash_algorithm o))))
           (fs_put (opt_dest o) old fs)).
Proof.
  intros Ho Hb Hsize Hgr Hsz Hold.
  pose proof (prepare_dest_granted (opt_dest o) size (opt_force_truncate o) fs Hsize Hgr) as Ep.
  rewrite Hsz in Ep. change (resize _ _ _) with (resized o size fs) in Ep. rewrite Hold in Ep.
  exists (MkConn [] ([] ++ replicate 3 (status_byte Ack)) true). split; [done|].
  unfold process_new_client, server_conn. rewrite <-(right_id_L [] (++) (client_bytes o size)).
  rewrite (server_handshake_accepts (opt_secret o) o size [] [] fs _ eq_refl Ho Hb Ep).
  rewrite (start_serving_granted open_disk workers (wanted o size) _ old);
    [|exact Hgr|by apply lookup_insert_eq].
  assert (lenN old = size) as ->.
  { rewrite <-Hold. unfold resized, lenN. rewrite length_resize. lia. }
  unfold serve. by destruct (split_s _).
Qed.

Lemma new_process_starts o src fuel t fs_client :
  options_ok o (lenN src) → src ≠ [] →
  fs_refuses fs_client FsOpenRead (opt_src_path o) = None →
  fs_files fs_client !! opt_src_path o = Some src →
  ∃ c, c_in c = [] ∧
    new_process (H:=Hc) split_c 0 fuel o t client_conn fs_client
    = ([], CpLoop (CRun BTimer (client_init t (split_c c).1 (split_c c).2
        (hf_start src (opt_block_size o) (opt_workers o) (opt_hash_algorithm o))))).
Proof.
  intros (Hl & (Hu & _) & _) Hne Hr Hsrc.
  exists (MkConn [] (client_bytes o (lenN src)) true). split; [done|].
  unfold new_process, client_conn. cbn [replicate].
  rewrite (client_handshake_last o fs_client src Hl Hu Hr Hsrc Hne), conn_check.
  cbn [status_result]. erewrite hash_file_granted by done.
  cbn [fst]. unfold compare_and_send. by destruct (split_c _).
Qed.

(** What the two sides agree on: the file can be hashed and its blocks sent, the
    client has the secret of the server, its source is not empty and can be read,
    the system grants the server the destination file, whose size is that of the
    source unless it may be truncated. *)
Record agreed (workers : N) (o : ClientProcessOptions) (src : bytes) (fs fs_client : Fs) : Prop := {
  ag_server : sane (lenN src) (opt_block_size o) workers;
  ag_client : sane (lenN src) (opt_block_size o) (opt_workers o);
  ag_options : options_ok o (lenN src) ∧ block_size_ok (opt_block_size o);
  ag_source : src ≠ [] ∧ fs_refuses fs_client FsOpenRead (opt_src_path o) = None
    ∧ fs_files fs_client !! opt_src_path o = Some src;
  ag_dest : all_granted (opt_dest o) fs
    ∧ size_differs (opt_dest o) (lenN src) fs && negb (opt_force_truncate o) = false;
}.

(** No block of the source has the hash of a different block of the destination
    of the same rank. *)
Definition told_apart (o : ClientProcessOptions) (src : bytes) (fs : Fs) : Prop :=
  ∀ k, let old := resized o (lenN src) fs in
    k < num_blocks (lenN src) (opt_block_size o) →
    hash_data (block (lenN src) (opt_block_size o) src k) (opt_hash_algorithm o)
    = hash_data (block (lenN src) (opt_block_size o) old k) (opt_hash_algorithm o) →
    block (lenN src) (opt_block_size o) src k = block (lenN src) (opt_block_size o) old k.

Lemma length_resized o (src : bytes) fs : lenN (resized o (lenN src) fs) = lenN src.
Proof. unfold resized, lenN. rewrite length_resize. lia. Qed.

(** Where the two loops of a session start. *)
Definition loops_start (workers : N) (o : ClientProcessOptions) (src old : bytes) (t : T)
    (cs cc : Conn) : Joint :=
  joint_init (lenN src) (opt_block_size o) (split_s cs).1 (split_s cs).2 (open_disk old)
    (hf_start (H:=Hs) old (opt_block_size o) workers (opt_hash_algorithm o)) t
    (split_c cc).1 (split_c cc).2
    (hf_start (H:=Hc) src (opt_block_size o) (opt_workers o) (opt_hash_algorithm o)).

Lemma session_starts workers o src fs fs_client fuelS fuelC t :
  faithful → agreed workers o src fs fs_client →
  let old := resized o (lenN src) fs in
  let hs := hf_start (H:=Hs) old (opt_block_size o) workers (opt_hash_algorithm o) in
  let hc := hf_start (H:=Hc) src (opt_block_size o) (opt_workers o) (opt_hash_algorithm o) in
  ∃ cs cc,
    process_new_client (H:=Hs) split_s open_disk 0 fuelS (opt_secret o) workers
      (server_conn o (lenN src)) fs
    = ([], PBusy (wanted o (lenN src)) (at_server (loops_start workers o src old t cs cc))
             (fs_put (opt_dest o) old fs))
    ∧ new_process (H:=Hc) split_c 0 fuelC o t client_conn fs_client
      = ([], CpLoop (at_client (loops_start workers o src old t cs cc)))
    ∧ starts (Hhs := hf_hasher (lenN src) (opt_block_size o) workers (opt_hash_algorithm o))
        (Hhc := hf_hasher (lenN src) (opt_block_size o) (opt_workers o) (opt_hash_algorithm o))
        (server_ok old (opt_block_size o) workers (opt_hash_algorithm o))
        (client_ok src (opt_block_size o) (opt_workers o) (opt_hash_algorithm o)) src
        (split_s cs).1 (split_s cs).2 (open_disk old) hs (split_c cc).1 (split_c cc).2 hc.
Proof.
  intros [As Ac Fd] [Hs1 Hs2 [Ho Hb] (Hne & Hr & Hsrc) [Hgr Hsz]]. cbv zeta.
  assert (lenN src < 2 ^ 63) as Hsize by (destruct Hs1 as (_ & _ & ?); lia).
  set (old := resized o (lenN src) fs).
  assert (lenN old = lenN src) as Hold by apply length_resized.
  destruct (process_new_client_starts workers fuelS o (lenN src) old fs) as (cs & C1 & Es); [done..|].
  destruct (new_process_starts o src fuelC t fs_client) as (cc & C2 & Ec); [done..|].
  exists cs, cc. split; [exact Es|]. split; [exact Ec|].
  pose proof (hf_start_ok (H:=Hs) old (opt_block_size o) workers (opt_hash_algorithm o)) as Os.
  rewrite Hold in Os. destruct (Os Hs1) as (O1 & O2 & O3 & _).
  pose proof (hf_start_ok (H:=Hc) src (opt_block_size o) (opt_workers o) (opt_hash_algorithm o) Hs2) as (O4 & O5 & O6 & _).
  destruct (As cs) as (A1 & A2 & A3), (Ac cc) as (A4 & A5).
  split; [by rewrite A1, A4, C1|done| |done]. by rewrite Fd.
Qed.

(** What is left of the file system. *)
Lemma serve_end_left req fs e (ss : Srv Rs Ws D Hs) :
  ∃ r, serve_end (S:=Conn) req fs (SBroke e ss)
       = PEnded e r ss (fs_put (dest_path req) (d_content (dest ss)) fs).
Proof.
  cbn [serve_end]. destruct (server_finish ss) as [r d] eqn:Ef.
  apply server_finish_content in Ef. rewrite Ef. by exists r.
Qed.

(** C1. What the program is for: a session of two sides that agree, which comes to
    its end without an I/O error, in whatever interleaving of the two ends, of
    their workers and of the network, leaves exactly the content of the source
    in the destination, and every other file of the server as it was, provided
    that no block of the source has the hash of a different block of the
    destination of the same rank. *)
Theorem session_correct workers o src fs fs_client fs' fuelS fuelC t :
  faithful → agreed workers o src fs fs_client → told_apart o src fs →
  session workers o src fs fs_client fs' fuelS fuelC t →
  fs_files fs' !! opt_dest o = Some src ∧ same_elsewhere (opt_dest o) fs fs'.
Proof.
  intros Hfa Hag Hcoll [(req & conf & fs1 & cconf & j & e & ss & sc & S1 & S2 & S3 & S4 & S5 & S6 & S7 & r & S8)].
  destruct (session_starts workers o src fs fs_client fuelS fuelC t Hfa Hag) as (cs & cc & Es & Ec & Hst).
  rewrite Es in S1. rewrite Ec in S2. injection S1 as <- <- <-. injection S2 as <-.
  rewrite S5 in S8. destruct (serve_end_left (wanted o (lenN src))
    (fs_put (opt_dest o) (resized o (lenN src) fs) fs) e ss) as [r' E]. rewrite E in S8.
  injection S8 as <- <-. clear E. split.
  2:{ intros p Hp. cbn. by rewrite !lookup_insert_ne. }
  cbn. rewrite lookup_insert_eq. f_equal.
  destruct Hag as [Hs1 Hs2 _ (Hne & _) _]. set (old := resized o (lenN src) fs) in *.
  assert (lenN old = lenN src) as Hold by apply length_resized.
  pose proof (hf_laws (H:=Hs) old (opt_block_size o) workers (opt_hash_algorithm o)) as Ls.
  rewrite Hold in Ls. specialize (Ls Hs1).
  pose proof (hf_laws (H:=Hc) src (opt_block_size o) (opt_workers o) (opt_hash_algorithm o) Hs2) as Lc.
  assert (sane (lenN src) (opt_block_size o) 1) as Hone by by apply (sane_one _ _ workers).
  assert (0 < lenN src) as Hpos by by destruct src.
  eapply (joint_content _ _ _ _ _ (Hls:=Ls) (Hlc:=Lc)); [exact Hone|exact Hpos|exact Hold| |exact S4|exact S5
    |exact S6|exact S7|done|exact Hcoll].
  eapply (jinv_reach _ _ _ _ _ (Hls:=Ls) (Hlc:=Lc)); [exact Hone|exact Hpos|exact Hold| |exact S3].
  apply (jinv_init _ _ _ _ _ (Hls:=Ls) (Hlc:=Lc)); [exact Hone|exact Hpos|exact Hold|exact Hst|apply Hfa].
Qed.
End session.

(** ** Hashing behind, writing ahead *)

Section behind.
Context {Rs Ws D Hs Rc Wc T Hc : Type}.
Context `{!AsyncRead Rs, !AsyncReadLaws Rs, !LiveRead Rs, !AsyncWrite Ws, !AsyncWriteLaws Ws}.
Context `{!AsyncWrite D, !AsyncWriteLaws D, !DiskFile D, !DiskLaws D}.
Context `{!AsyncRead Rc, !AsyncReadLaws Rc, !AsyncWrite Wc, !AsyncWriteLaws Wc, !Timer T}.
Context {Hhs : Hasher Hs} {Hhc : Hasher Hc} {Hg : Hashing} {Hgl : HashingLaws}.
Context (fsz bsz : N) (algorithm : HashAlgorithm) (hs_ok : Hs → Prop) (hc_ok : Hc → Prop).
Context {Hls : HasherLaws Hs fsz bsz algorithm hs_ok} {Hlc : HasherLaws Hc fsz bsz algorithm hc_ok}.

(** C4. The server hashes the destination while it overwrites it, and that is
    sound: in every state two ends come to, in whatever interleaving, the hashes
    the server has got are those of the blocks the destination had at the start;
    the hashes the client has got are the first of them, the blocks the server
    has got and the writes of them are all before the blocks still to be hashed,
    which are as they were. *)
Theorem writes_stay_behind fuelS fuelC src rxS txS file hS t rxC txC hC j b ss :
  sane fsz bsz 1 → 0 < fsz → lenN (d_content file) = fsz →
  starts hs_ok hc_ok src rxS txS file hS rxC txC hC →
  rtc (jstep fsz bsz hs_ok hc_ok fuelS fuelC src) (joint_init fsz bsz rxS txS file hS t rxC txC hC) j →
  joint_fine j → at_server j = SRun b ss →
  (∀ k v, h_recvd (Server.hasher ss) !! k = Some v →
     hash v.2 = hash_data (block fsz bsz (d_content file) (N.of_nat k)) algorithm)
  ∧ ev_hashes (client_log j) `prefix_of` (hash ∘ snd <$> h_recvd (Server.hasher ss))
  ∧ Forall (block_before fsz bsz (lenN (h_recvd (Server.hasher ss)))) (ev_blocks (server_log j))
  ∧ ∀ k, lenN (h_recvd (Server.hasher ss)) ≤ k < num_blocks fsz bsz →
      block fsz bsz (d_content (dest ss)) k = block fsz bsz (d_content file) k.
Proof.
  intros Hsz Hfz Hold Hst Hrun Hf E.
  pose proof (jinv_init fsz bsz algorithm hs_ok hc_ok src Hsz Hfz _ Hold rxS txS file hS t rxC txC hC
    Hst eq_refl) as Hj.
  pose proof (jinv_reach fsz bsz algorithm hs_ok hc_ok fuelS fuelC src Hsz Hfz _ Hold _ _ Hj Hrun) as Hj'.
  assert (srv_of (at_server j) = Some ss) as Es by by rewrite E.
  pose proof (ji_server _ _ _ _ _ _ _ _ Hj') as Hi. rewrite E in Hi. cbn [conf_inv] in Hi.
  destruct (si_read _ _ Hi) as (c & Hfr & _). split; [|split; [|split] ].
  - intros k v Hk. by apply (ji_old _ _ _ _ _ _ _ _ Hj' ss Hf Es k v).
  - destruct (hashes_behind fsz bsz algorithm hs_ok hc_ok src Hsz Hfz _ Hold j ss Hj' Hf Es) as [-> _].
    apply prefix_take.
  - by eapply (blocks_behind fsz bsz algorithm hs_ok hc_ok src Hsz Hfz _ Hold j ss).
  - intros k [H1 H2]. by apply (dest_spares fsz bsz algorithm hs_ok hc_ok src Hsz Hfz _ Hold j b ss).
Qed.
End behind.

(** ** Total correctness *)

(** Streams that stall finitely often and do not fail; and that read the file as
    it is. *)
Class SureFiles (H : Type) {Hf : HashFiles H} (ok : bytes → N → N → HashAlgorithm → H → Prop) := {
  sf_fair content bsz w a : sane (lenN content) bsz w →
    FairHasher H (Hh := hf_hasher (lenN content) bsz w a) (ok content bsz w a);
  sf_sure content bsz w a : sane (lenN content) bsz w →
    SureHasher H (Hh := hf_hasher (lenN content) bsz w a) (ok content bsz w a);
}.

Class RereadFiles (H : Type) {Hf : HashFiles H} (ok : bytes → N → N → HashAlgorithm → H → Prop)
    {Hs : SureFiles H ok} :=
  rf_rereads content bsz w a (Hsane : sane (lenN content) bsz w) :
    Rereads H (Hh := hf_hasher (lenN content) bsz w a) (lenN content) (ok content bsz w a)
      (FairHasher0 := sf_fair content bsz w a Hsane).

Section completes.
Context {Ws D Hs Wc T Hc : Type}.
Context `{!AsyncWrite Ws, !AsyncWriteLaws Ws, !FairWrite Ws, !WriteProgress Ws, !Reliable Ws}.
Context `{!AsyncWrite D, !AsyncWriteLaws D, !DiskFile D, !DiskLaws D, !FairWrite D, !FairSeek D}.
Context `{!WriteProgress D, !Reliable D, !ReliableDisk D}.
Context `{!AsyncWrite Wc, !AsyncWriteLaws Wc, !FairWrite Wc, !WriteProgress Wc, !Reliable Wc}.
Context `{!Timer T, !FairTimer T}.
Context {Hfs : HashFiles Hs} {Hfc : HashFiles Hc} {Hg : Hashing} {Hgl : HashingLaws}.
Context (server_ok : bytes → N → N → HashAlgorithm → Hs → Prop) {Hls : HashFilesLaws Hs server_ok}.
Context (client_ok : bytes → N → N → HashAlgorithm → Hc → Prop) {Hlc : HashFilesLaws Hc client_ok}.
Context {Hss : SureFiles Hs server_ok} {Hsr : RereadFiles Hs server_ok} {Hsc : SureFiles Hc client_ok}.
Context (split_s : Conn → Socket * Ws) (split_c : Conn → Socket * Wc) (open_disk : bytes → D).

(** What is written to does not fail, and the connection of the client is open. *)
Record dependable : Prop := {
  de_server c : sound (split_s c).2;
  de_client c : sound (split_c c).2 ∧ sock_ended (split_c c).1 = false;
  de_disk content : sound (open_disk content);
}.

End completes.

(** ** Ways to hash: a file in memory, the pipeline of Pipeline.v under a schedule,
    and the same with workers that get their turn *)

Section hash_files.
Context {Hg : Hashing}.

Definition mem_hash_files (script : list bool) : HashFiles MemHasher := {|
  hf_hasher fsz bsz _ a := mem_hasher fsz bsz a;
  hf_start content _ _ _ := MkMemHasher content [] script;
|}.

Lemma mem_hash_files_laws script :
  HashFilesLaws MemHasher (Hf := mem_hash_files script)
    (λ content bsz _ a, mem_ok (lenN content) bsz a content).
Proof.
  split.
  - intros content bsz w a Hs. apply mem_hasher_laws; [by apply (sane_one _ _ w)|done].
  - intros content bsz w a _. split; [split_and!; [done|apply N.le_0_l|done]|].
    split; [done|]. split; [|done]. by intros f ->%list_elem_of_singleton.
Qed.
End hash_files.

Section pipe_files.
Context {Q O Wt : Type} `{!Mpsc Val Q, !MpscLaws Val Q, !Oneshot bytes O, !OneshotLaws bytes O}.
Context `{!Watch (option WorkerError) Wt, !WatchLaws (option WorkerError) Wt} {Hg : Hashing}.
Context (o : O) (slots : list Slot).

Definition pipe_hash_files : HashFiles (PHasher Q O Wt) := {|
  hf_hasher := pipe_hasher;
  hf_start content bsz w a := MkPHasher (Pipeline.hash_file bsz w content o) slots;
|}.

Lemma pipe_hash_files_laws :
  HashFilesLaws (PHasher Q O Wt) (Hf := pipe_hash_files)
    (λ content bsz w a h, preach (lenN content) bsz w a content o (ph_pipe h)).
Proof.
  split; [intros; by apply pipe_hasher_laws|].
  intros content bsz w a _. split; [by apply preach_init|]. split; [done|]. split; [|done].
  by intros f ->%list_elem_of_singleton.
Qed.

(** With workers that get their turn (Diligent.v), at first [turns]. *)
Context (turns : list (list N)).

Definition diligent_files : HashFiles (Diligent Q O Wt) := {|
  hf_hasher := diligent_hasher;
  hf_start content bsz w a := MkDiligent (Pipeline.hash_file bsz w content o) turns;
|}.
Definition diligent_files_ok (content : bytes) (bsz w : N) (a : HashAlgorithm) : Diligent Q O Wt → Prop :=
  diligent_ok (file_size:=lenN content) (block_size:=bsz) (workers:=w) (algorithm:=a) content o.

Lemma diligent_files_laws :
  HashFilesLaws (Diligent Q O Wt) (Hf := diligent_files) diligent_files_ok.
Proof.
  split; [intros content bsz w a Hs; by apply diligent_laws|].
  intros content bsz w a _. split; [split; [by apply preach_init|by apply calm_hash_file]|].
  split; [done|]. split; [|done]. by intros f ->%list_elem_of_singleton.
Qed.

Definition diligent_sure_files : SureFiles (Diligent Q O Wt) (Hf := diligent_files) diligent_files_ok.
Proof.
  split.
  - intros content bsz w a Hs. exact (diligent_fair Hs content o).
  - intros content bsz w a Hs. exact (diligent_sure Hs content o).
Defined.

Definition diligent_reread_files :
  RereadFiles (Diligent Q O Wt) (Hf := diligent_files) (Hs := diligent_sure_files) diligent_files_ok.
Proof. intros content bsz w a Hs. exact (diligent_rereads Hs content o). Defined.
End pipe_files.

(** ** A session: a file of 23 bytes whose block 1 changed *)

#[local] Existing Instance digests.
#[local] Existing Instance digests_laws.

Definition demo_options : ClientProcessOptions :=
  MkClientProcessOptions (byte_of <$> [115; 51]) (byte_of <$> [47; 115]) (byte_of <$> [47; 100])
    false 2 10 CRC32.
Definition old_file : bytes := byte_of <$> seqN 23.
Definition new_file : bytes := take 10 old_file ++ replicate 10 Byte.x07 ++ drop 20 old_file.
Definition demo_fs : Fs := MkFs {[ opt_dest demo_options := old_file ]} (λ _ _, None).
Definition demo_client_fs : Fs := MkFs {[ opt_src_path demo_options := new_file ]} (λ _ _, None).

#[local] Instance demo_files : HashFiles MemHasher := mem_hash_files [true; false].
#[local] Instance demo_laws : HashFilesLaws MemHasher
    (λ content bsz _ a, mem_ok (lenN content) bsz a content) := mem_hash_files_laws [true; false].

Definition demo_split_s (c : Conn) : Socket * Eager :=
  (MkSocket (c_in c) false, MkEager [] [EStall; EAccept 2]).
Definition demo_split_c (c : Conn) : Socket * Eager :=
  (MkSocket (c_in c) false, MkEager [] [EAccept 2; EStall]).
Definition demo_open (content : bytes) : Disk Eager :=
  MkDisk content 0 (MkEager [] [EAccept 3; EStall]).

Lemma demo_faithful : faithful demo_split_s demo_split_c demo_open.
Proof. by split. Qed.

Abbreviation DemoJoint :=
  (Joint (Rs:=Socket) (Ws:=Eager) (D:=Disk Eager) (Hs':=MemHasher)
         (Rc:=Socket) (Wc:=Eager) (T:=list bool) (Hc':=MemHasher)).
#[local] Instance demo_hasher : Hasher MemHasher := mem_hasher 23 10 CRC32.
Abbreviation demo_step :=
  (jstep (Rs:=Socket) (Ws:=Eager) (D:=Disk Eager) (Hs':=MemHasher) (Rc:=Socket) (Wc:=Eager)
         (T:=list bool) (Hc':=MemHasher) 23 10 (mem_ok 23 10 CRC32 old_file)
         (mem_ok 23 10 CRC32 new_file) 50 50 new_file).

(** A schedule: polls of the ends, bytes that arrive, the end of the connection;
    what is not possible is skipped. *)
Inductive Cmd := PollServer | PollClient | ToServer (n : nat) | ToClient (n : nat) | Closes.

Definition same_file (x y : option MemHasher) : bool :=
  bool_decide (mem_file <$> x = mem_file <$> y).

Definition arriving (n : nat) (got sent : bytes) : option bytes :=
  let bs := take n (drop (length got) sent) in
  if bool_decide ((got ++ bs) `prefix_of` sent) then Some bs else None.

Definition exec (c : Cmd) (j : DemoJoint) : option DemoJoint :=
  match c with
  | PollServer =>
      let '(es, c') := server_step 50 (at_server j) in
      if same_file (Server.hasher <$> srv_of c') (Server.hasher <$> srv_of (at_server j)) then
        Some (MkJoint c' (at_client j) (server_log j ++ es) (client_log j) (to_server j) (to_client j))
      else None
  | PollClient =>
      let '(es, c') := client_step 10 (div_ceil 23 10) 50 (at_client j) in
      if same_file (Client.hasher <$> cli_of c') (Client.hasher <$> cli_of (at_client j)) then
        Some (MkJoint (at_server j) c' (server_log j) (client_log j ++ es) (to_server j) (to_client j))
      else None
  | ToServer n =>
      match at_server j, arriving n (to_server j) (sent_by_client (at_client j)) with
      | SRun b s, Some bs =>
          let rx := MkSocket (sock_bytes (client_rx s) ++ bs) (sock_ended (client_rx s)) in
          Some (MkJoint (SRun b (with_objects s (dest s) rx (client_tx s) (Server.hasher s)))
                        (at_client j) (server_log j) (client_log j) (to_server j ++ bs) (to_client j))
      | _, _ => None
      end
  | ToClient n =>
      match at_client j, arriving n (to_client j) (sent_by_server (at_server j)) with
      | CRun b s, Some bs =>
          if remote_hashes_done s then None
          else
            let rx := MkSocket (sock_bytes (stream_rx s) ++ bs) (sock_ended (stream_rx s)) in
            Some (MkJoint (at_server j)
                    (CRun b (with_client_objects s (progress_timer s) rx (stream_tx s) (Client.hasher s)))
                    (server_log j) (client_log j) (to_server j) (to_client j ++ bs))
      | _, _ => None
      end
  | Closes =>
      match at_server j with
      | SRun b s =>
          if client_gone (at_client j) && bool_decide (to_server j = sent_by_client (at_client j)) then
            let rx := MkSocket (sock_bytes (client_rx s)) true in
            Some (MkJoint (SRun b (with_objects s (dest s) rx (client_tx s) (Server.hasher s)))
                          (at_client j) (server_log j) (client_log j) (to_server j) (to_client j))
          else None
      | _ => None
      end
  end.

Lemma arriving_prefix n got sent bs : arriving n got sent = Some bs → (got ++ bs) `prefix_of` sent.
Proof. unfold arriving. case_bool_decide; by intros [= <-]. Qed.

Lemma with_objects_moves bs (s : Srv Socket Eager (Disk Eager) MemHasher) fin :
  server_moves (h_ok:=mem_ok 23 10 CRC32 old_file) bs s
    (with_objects s (dest s) (MkSocket (sock_bytes (client_rx s) ++ bs) fin) (client_tx s)
                  (Server.hasher s)).
Proof. split; cbn; auto. Qed.

Lemma with_client_objects_moves bs (s : Cli Socket Eager (list bool) MemHasher) fin :
  client_moves (h_ok:=mem_ok 23 10 CRC32 new_file) new_file bs s
    (with_client_objects s (progress_timer s) (MkSocket (sock_bytes (stream_rx s) ++ bs) fin)
                         (stream_tx s) (Client.hasher s)).
Proof. split; cbn; auto. Qed.

Lemma demo_exec_step c j j' : exec c j = Some j' → demo_step j j'.
Proof.
  destruct c as [| |n|n|]; unfold exec.
  - destruct (server_step 50 (at_server j)) as [es c'] eqn:E.
    destruct (same_file _ _) eqn:Hf; [|done]. intros [= <-]. apply j_server; [done|].
    intros b s s' f Eb Es' Hin. left. apply bool_decide_eq_true in Hf.
    rewrite Eb, Es' in Hf. cbn in Hf. injection Hf as Hf. cbn in *. by rewrite <-Hf.
  - destruct (client_step 10 (div_ceil 23 10) 50 (at_client j)) as [es c'] eqn:E.
    destruct (same_file _ _) eqn:Hf; [|done]. intros [= <-]. apply j_client; [done|].
    intros b s s' f Eb Es' Hin. left. apply bool_decide_eq_true in Hf.
    rewrite Eb, Es' in Hf. cbn in Hf. injection Hf as Hf. cbn in *. by rewrite <-Hf.
  - destruct (at_server j) as [b s| | |] eqn:Eb; [|done..].
    destruct (arriving _ _ _) as [bs|] eqn:Ea; [|done]. intros [= <-].
    apply arriving_prefix in Ea.
    apply (j_server_moves _ _ _ _ _ _ _ j b s); [done|apply with_objects_moves|done|done].
  - destruct (at_client j) as [b s| | |] eqn:Eb; [|done..].
    destruct (arriving _ _ _) as [bs|] eqn:Ea; [|done].
    destruct (remote_hashes_done s) eqn:Hd; [done|]. intros [= <-].
    apply arriving_prefix in Ea.
    pose proof (j_client_moves 23 10 (mem_ok 23 10 CRC32 old_file) (mem_ok 23 10 CRC32 new_file)
      50 50 new_file j b s _ bs Eb (with_client_objects_moves bs s (sock_ended (stream_rx s)))) as Hst.
    unfold unread in Hst. rewrite Hd in Hst. by apply Hst.
  - destruct (at_server j) as [b s| | |] eqn:Eb; [|done..].
    destruct (client_gone _ && _) eqn:Hg; [|done]. intros [= <-].
    apply andb_prop in Hg as [H1 H2%bool_decide_eq_true].
    apply (j_closes _ _ _ _ _ _ _ j b s); [done| |done|done].
    pose proof (with_objects_moves [] s true) as Hm. by rewrite (right_id_L [] (++)) in Hm.
Qed.

Definition execs (cs : list Cmd) (j : DemoJoint) : DemoJoint :=
  fold_left (λ j c, default j (exec c j)) cs j.

Lemma execs_reach cs j : rtc demo_step j (execs cs j).
Proof.
  revert j. induction cs as [|c cs IH]; intros j; [done|]. cbn.
  destruct (exec c j) as [j'|] eqn:E; cbn; [|apply IH].
  eapply rtc_l; [by eapply demo_exec_step|apply IH].
Qed.

(** The ends take turns; the bytes arrive in pieces of 7 and 9. *)
Definition demo_round : list Cmd :=
  replicate 5 PollServer ++ [ToClient 9] ++ replicate 5 PollClient ++ [ToServer 7; Closes].
Definition demo_schedule : list Cmd := concat (replicate 40 demo_round).

Definition demo_server : SConf :=
  SRun BDisk (server_init 10 23 (MkSocket [] false) (MkEager [] [EStall; EAccept 2])
    (demo_open old_file) (MkMemHasher old_file [] [true; false])).
Definition demo_client : CConf :=
  CRun BTimer (client_init [true; false] (MkSocket [] false) (MkEager [] [EAccept 2; EStall])
    (MkMemHasher new_file [] [true; false])).
Abbreviation demo_end := (execs demo_schedule (MkJoint demo_server demo_client [] [] [] [])).

(** What is looked at of the end. *)
Definition both_over (j : DemoJoint) : bool :=
  match at_server j, at_client j with
  | SBroke (EIo _) _, _ => false
  | SBroke _ _, CBroke _ => true
  | _, _ => false
  end.

Lemma both_over_inv j : both_over j = true →
  ∃ e ss sc, at_server j = SBroke e ss ∧ (∀ k, e ≠ EIo k) ∧ at_client j = CBroke sc.
Proof.
  unfold both_over. destruct (at_server j) as [|e ss| |]; [discriminate| |discriminate..].
  destruct (at_client j) as [|sc| |]; [by destruct e| |by destruct e..]. intros Hb.
  exists e, ss, sc. split; [reflexivity|]. split; [|reflexivity]. by intros k ->.
Qed.

Lemma demo_session : ∃ fs',
  session (Hfs:=demo_files) (Hfc:=demo_files) (λ content bsz _ a, mem_ok (lenN content) bsz a content)
    (λ content bsz _ a, mem_ok (lenN content) bsz a content)
    demo_split_s demo_split_c demo_open 1 demo_options new_file demo_fs demo_client_fs fs'
    50 50 [true; false].
Proof.
  destruct (both_over_inv demo_end) as (e & ss & sc & Es & He & Ec); [vm_compute; reflexivity|].
  destruct (no_bad (server_log demo_end)) as [Hd Hf]; [vm_compute; reflexivity|].
  assert (send_fine (client_log demo_end)) as Hsf by (apply no_sent_bad; vm_compute; reflexivity).
  destruct (server_finish ss) as [r d] eqn:Ef.
  eexists. split.
  exists (wanted demo_options 23), demo_server, (fs_put (opt_dest demo_options) old_file demo_fs),
    demo_client, demo_end, e, ss, sc.
  split; [vm_compute; reflexivity|]. split; [vm_compute; reflexivity|].
  split; [exact (execs_reach demo_schedule _)|].
  split; [split; [exact Hd|exact Hf|exact Hsf|rewrite Es; by eexists|rewrite Ec; reflexivity]|].
  split; [exact Es|]. split; [exact He|]. split; [exact Ec|].
  exists r. rewrite Es. cbn [serve_end]. rewrite Ef. reflexivity.
Qed.

Lemma demo_agreed : agreed 1 demo_options new_file demo_fs demo_client_fs.
Proof.
  split; [split_and!; reflexivity|split_and!; reflexivity|split| |].
  - unfold options_ok, sendable. split_and!; vm_compute; (reflexivity || discriminate).
  - split; vm_compute; (reflexivity || discriminate).
  - split; [discriminate|]. by split.
  - split; [intros op; reflexivity|]. vm_compute. reflexivity.
Qed.

Lemma demo_told_apart : told_apart demo_options new_file demo_fs.
Proof.
  intros k old Hk. assert (k = 0 ∨ k = 1 ∨ k = 2) as [-> | [-> | ->] ]
    by (change (k < 3) in Hk; lia); vm_compute; [done|discriminate|done].
Qed.

Lemma session_correct_witness :
  ∃ fs',
    session (Hfs:=demo_files) (Hfc:=demo_files) (λ content bsz _ a, mem_ok (lenN content) bsz a content)
      (λ content bsz _ a, mem_ok (lenN content) bsz a content)
      demo_split_s demo_split_c demo_open 1 demo_options new_file demo_fs demo_client_fs fs'
      50 50 [true; false]
    ∧ fs_files fs' !! opt_dest demo_options = Some new_file
    ∧ same_elsewhere (opt_dest demo_options) demo_fs fs'.
Proof.
  destruct demo_session as (fs' & Hrun). exists fs'. split; [exact Hrun|].
  apply (session_correct _ _ demo_split_s demo_split_c demo_open 1 demo_options new_file demo_fs
    demo_client_fs fs' 50 50 [true; false]).
  - exact demo_faithful.
  - exact demo_agreed.
  - exact demo_told_apart.
  - exact Hrun.
Defined.

(** Block 1 is half written and block 2 still to be hashed. *)
Definition half_schedule : list Cmd :=
  replicate 22 PollServer ++ [ToClient 99] ++ replicate 40 PollClient ++ [ToServer 99]
  ++ replicate 5 PollServer.
Abbreviation half_way := (execs half_schedule (MkJoint demo_server demo_client [] [] [] [])).

Definition server_runs (j : DemoJoint) : option (nat * option N) :=
  match at_server j with
  | SRun _ s => Some (length (h_recvd (Server.hasher s)), WA.offset <$> to_disk s)
  | _ => None
  end.
Lemma server_runs_inv j n : server_runs j = Some n → ∃ b s, at_server j = SRun b s.
Proof. unfold server_runs. destruct (at_server j); [by do 2 eexists|discriminate..]. Qed.

Lemma writes_stay_behind_witness :
  server_runs half_way = Some (2%nat, Some 4) ∧ ev_blocks (server_log half_way) ≠ []
  ∧ ∃ b ss, at_server half_way = SRun b ss
    ∧ Forall (block_before 23 10 (lenN (h_recvd (Server.hasher ss)))) (ev_blocks (server_log half_way))
    ∧ ∀ k, lenN (h_recvd (Server.hasher ss)) ≤ k < num_blocks 23 10 →
        block 23 10 (d_content (dest ss)) k = block 23 10 old_file k.
Proof.
  split; [vm_compute; reflexivity|]. split; [vm_compute; discriminate|].
  destruct (server_runs_inv half_way (2%nat, Some 4)) as (b & ss & E); [vm_compute; reflexivity|].
  exists b, ss. split; [exact E|].
  assert (sane 23 10 1) as Hsane by (split_and!; reflexivity).
  refine (proj2 (proj2 (writes_stay_behind 23 10 CRC32 (mem_ok 23 10 CRC32 old_file)
    (mem_ok 23 10 CRC32 new_file) (Hls := mem_hasher_laws 23 10 CRC32 old_file Hsane eq_refl)
    (Hlc := mem_hasher_laws 23 10 CRC32 new_file Hsane eq_refl) 50 50 new_file
    (MkSocket [] false) (MkEager [] [EStall; EAccept 2]) (demo_open old_file)
    (MkMemHasher old_file [] [true; false]) [true; false] (MkSocket [] false)
    (MkEager [] [EAccept 2; EStall]) (MkMemHasher new_file [] [true; false]) half_way b ss
    Hsane _ _ _ (execs_reach half_schedule _) _ E))).
  - reflexivity.
  - reflexivity.
  - split; [by split_and!|by split| |];
      (split; [split_and!; [reflexivity|apply N.le_0_l|reflexivity]|]); (split; [reflexivity|]);
      by intros f ->%list_elem_of_singleton.
  - destruct (no_bad (server_log half_way)) as [Hd Hf]; [vm_compute; reflexivity|].
    split; [exact Hd|exact Hf|apply no_sent_bad; vm_compute; reflexivity|rewrite E; by eexists|].
    vm_compute. exact I.
Defined.

(** The same two ends complete a session with the pipelines of Pipeline.v, one
    worker at the server and two at the client. *)
Abbreviation DemoPipeline := (Diligent (MpQueue Val) (OsStore bytes) (option WorkerError * bool)).
Definition demo_pipelines : HashFiles DemoPipeline := diligent_files (MkOsStore 0 ∅) [[1]; []; [0; 0]].
Abbreviation demo_pipelines_ok := (diligent_files_ok (Q:=MpQueue Val) (O:=OsStore bytes)
  (Wt:=option WorkerError * bool) (MkOsStore 0 ∅)).


(** ** A client without workers *)

(** [--workers 0] is accepted: the stream of the hashes ends at once, the loop of
    the client is left by the [break] of a stream that ended, and the client
    reports success although the files differ and nothing was sent. *)
#[local] Instance no_workers : HashFiles (PHasher (MpQueue Val) (OsStore bytes) (option WorkerError * bool)) :=
  pipe_hash_files (MkOsStore 0 ∅) [].

Definition idle_options : ClientProcessOptions :=
  MkClientProcessOptions (opt_secret demo_options) (opt_src_path demo_options)
    (opt_dest demo_options) false 0 10 CRC32.

(** What the server sends, at once. *)
Definition hashes_sent : bytes :=
  concat (string_frame <$> ((λ k, hash_data (block 23 10 old_file k) CRC32) <$> seqN 3)).
Definition idle_split (c : Conn) : Socket * Eager := (MkSocket (c_in c) false, MkEager [] []).

Definition loop_sent {H} (p : CProc Socket Eager (list bool) H) : option bytes :=
  match p with
  | CpLoop (CBroke s) => Some (written (stream_tx s))
  | _ => None
  end.

Lemma client_without_workers :
  let p := (new_process (H := PHasher (MpQueue Val) (OsStore bytes) (option WorkerError * bool))
    idle_split 80 50 idle_options [true; false]
    (MkConn (replicate 3 (status_byte Ack) ++ hashes_sent) [] true) demo_client_fs).2 in
  new_process_result p = Some (Ok ()) ∧ loop_sent p = Some [] ∧ old_file ≠ new_file.
Proof. split; [vm_compute; reflexivity|]. split; [vm_compute; reflexivity|discriminate]. Qed.
