(* ===== verification/Main.v ===== *)
(** [main] (src/src/main.rs): the command line to a mode, as a program of calls
    (Program.v), and the accept loop of the server, as a machine whose steps are
    those of the loop and of the tasks it spawns. *)

From stdpp Require Import base option list numbers gmap strings.
From Stdlib Require Import NArith Lia.
From S2P Require Import Prelude AsyncIO Text Wire HashFile Handshake Program RemoteStart.
#[local] Open Scope N_scope.
#[local] Open Scope dsync_scope.

(** ** The command line *)

Record Args := MkArgs {
  server : bool;
  ip : option bytes;
  port : N;
  secret : option bytes;
  one_shot : bool;
  force_truncate : bool;
  arg_workers : N;
  arg_block_size : N;
  arg_hash : HashAlgorithm;
  ephemeral : bool;
  detached : bool;
  remote_start : bool;
  remote_start_user : option bytes;
  remote_start_port : N;
  remote_start_workers : option N;
  arg_identity_file : option bytes;
  src : option bytes;
  dest : option bytes;
}.

(** What [main] goes on to do: bind the address and accept clients, or connect
    to it. *)
Inductive Mode :=
  | ServerMode (address secret : bytes) (workers : N) (one_shot : bool)
  | ClientMode (address : bytes) (o : ClientProcessOptions).

Section setup.
Context `{!PathClean}.

(** Lines 136-143. *)
Definition detach (args : Args) : Prog () :=
  _ ← (if ephemeral args then exe ← CurrentExe?; (RemoveFile exe)? else mret ());
  if detached args then DaemonizeStart? else mret ().

(** Lines 200-218. *)
Definition client_secret (fuel : nat) (args : Args) (ip secret : bytes) : Prog bytes :=
  if remote_start args then
    username ← call CurrentUsername;
    username ← question (from_option Ok (Err (EMsg "Failed to get current username"))
                 (match remote_start_user args with Some u => Some u | None => username end));
    remote_start_server fuel
      (MkRemoteStartOptions ip (remote_start_port args) username (arg_identity_file args)
         (default (arg_workers args) (remote_start_workers args)) (port args))
  else mret secret.

(** [utils::absolute_path(path)?]; the current directory is asked for in any
    case here. *)
Definition absolute (path : bytes) : Prog bytes :=
  dir ← call CurrentDir;
  question (absolute_path dir path).

(** Lines 221-226: the source and the destination. *)
Definition client_paths (args : Args) : Prog (bytes * bytes) :=
  src_arg ← question (from_option Ok (Err (EMsg "Missing source file")) (src args));
  src_path ← absolute src_arg;
  dest_path ← match dest args with Some d => absolute d | None => mret src_path end;
  mret (src_path, dest_path).

(** Lines 145-148. *)
Definition given_secret (args : Args) : Prog bytes :=
  let secret := default [] (secret args) in
  if 255 <? lenN secret then question (Err (EMsg "The secret cannot exceed 255 characters"))
  else mret secret.

(** Lines 152-153, with what the accept loop uses of the arguments. *)
Definition server_mode (args : Args) (secret : bytes) : Mode :=
  let ip := default (str "0.0.0.0") (ip args) in
  ServerMode (ip ++ str ":" ++ to_string (port args)) secret (arg_workers args) (one_shot args).

(** Lines 198-239. *)
Definition client_mode (fuel : nat) (args : Args) (secret : bytes) : Prog Mode :=
  let ip := default (str "127.0.0.1") (ip args) in
  secret ← client_secret fuel args ip secret;
  paths ← client_paths args;
  mret (ClientMode (ip ++ str ":" ++ to_string (port args))
          (MkClientProcessOptions secret paths.1 paths.2 (force_truncate args)
             (arg_workers args) (arg_block_size args) (arg_hash args))).

(** [main] up to the accept loop or [new_process]. *)
Definition main_mode (fuel : nat) (args : Args) : Prog Mode :=
  _ ← detach args;
  secret ← given_secret args;
  if server args then mret (server_mode args secret) else client_mode fuel args secret.
End setup.

(** ** The accept loop *)

(** [AtomicU8::compare_exchange]: whether it exchanged, and the new value. *)
Definition compare_exchange (v current new : N) : bool * N :=
  if v =? current then (true, new) else (false, v).

(** Where a spawned task is: in [process_new_client]; in the write of its
    status; before [count.store]; over; ended by a panic. *)
Inductive Task :=
  | TProcess
  | TStatus (st : StatusCode)
  | TStore
  | TDone
  | TPanicked.

(** Where the loop is: awaiting the next connection; in the write of
    [ClientAlreadyConnected]; awaiting the handle of a task; left. *)
Inductive Loop :=
  | LNext
  | LRefuse (client : N)
  | LJoin (client : N)
  | LLeft.

#[global] Instance Task_eq_dec : EqDecision Task.
Proof. solve_decision. Defined.
#[global] Instance Loop_eq_dec : EqDecision Loop.
Proof. solve_decision. Defined.

(** Clients are numbered in the order they are accepted; [answers] are the
    statuses that were written outside of [process_new_client]. *)
Record Acc := MkAcc {
  client_count : N;
  loop : Loop;
  tasks : gmap N Task;
  accepted : N;
  answers : list (N * StatusCode);
}.

Definition accept_init : Acc := MkAcc 0 LNext ∅ 0 [].

Definition set_loop (s : Acc) (l : Loop) : Acc :=
  MkAcc (client_count s) l (tasks s) (accepted s) (answers s).
Definition set_task (s : Acc) (c : N) (t : Task) : Acc :=
  MkAcc (client_count s) (loop s) (<[c := t]> (tasks s)) (accepted s) (answers s).
Definition answered (s : Acc) (c : N) (st : StatusCode) (written : bool) : Acc :=
  MkAcc (client_count s) (loop s) (tasks s) (accepted s)
        (if written then answers s ++ [(c, st)] else answers s).

(** What happens next: a connection is accepted; the listener fails or ends; the
    refusal is written (or fails); [process_new_client] of a task returns, or
    panics; the status is written (or fails); the count is stored; the handle is
    ready. *)
Inductive ACmd :=
  | AAccept
  | AListenErr
  | ARefused (written : bool)
  | AProcessed (c : N) (r : Result StatusCode)
  | APanic (c : N)
  | AStatus (c : N) (written : bool)
  | AStore (c : N)
  | AJoined.

Section accept.
Context (one_shot : bool).

(** Lines 158-193, on a new client. *)
Definition accept_client (s : Acc) : Acc :=
  let c := accepted s in
  match compare_exchange (client_count s) 0 1 with
  | (true, n) => MkAcc n (if one_shot then LJoin c else LNext) (<[c := TProcess]> (tasks s))
                       (c + 1) (answers s)
  | (false, n) => MkAcc n (LRefuse c) (tasks s) (c + 1) (answers s)
  end.

(** Lines 173-182, the step of the task of a client. *)
Definition task_step (cmd : ACmd) (s : Acc) : option Acc :=
  match cmd with
  | AProcessed c r =>
      match tasks s !! c with
      | Some TProcess => Some (set_task s c (match r with Ok st => TStatus st | Err _ => TStore end))
      | _ => None
      end
  | APanic c =>
      match tasks s !! c with
      | Some TProcess => Some (set_task s c TPanicked)
      | _ => None
      end
  | AStatus c written =>
      match tasks s !! c with
      | Some (TStatus st) => Some (answered (set_task s c TStore) c st written)
      | _ => None
      end
  | AStore c =>
      match tasks s !! c with
      | Some TStore => Some (MkAcc 0 (loop s) (<[c := TDone]> (tasks s)) (accepted s) (answers s))
      | _ => None
      end
  | _ => None
  end.

(** A step of the program: the loop is in one place; once it is left, [main]
    returns and the runtime with its tasks is gone. *)
Definition accept_step (cmd : ACmd) (s : Acc) : option Acc :=
  match loop s, cmd with
  | LLeft, _ => None
  | LNext, AAccept => Some (accept_client s)
  | LNext, AListenErr => Some (set_loop s LLeft)
  | LRefuse c, ARefused written => Some (set_loop (answered s c ClientAlreadyConnected written) LNext)
  | LJoin c, AJoined =>
      match tasks s !! c with
      | Some TDone | Some TPanicked => Some (set_loop s LLeft)
      | _ => None
      end
  | _, _ => task_step cmd s
  end.

Fixpoint accept_run (cmds : list ACmd) (s : Acc) : option Acc :=
  match cmds with
  | [] => Some s
  | cmd :: cmds => s' ← accept_step cmd s; accept_run cmds s'
  end.

Inductive accept_reach : Acc → Prop :=
  | ar_init : accept_reach accept_init
  | ar_step s cmd s' : accept_reach s → accept_step cmd s = Some s' → accept_reach s'.
End accept.

(** ** The invariant of the accept loop *)

(** A client that was let in and whose count was not given back. *)
Definition in_service (s : Acc) (c : N) : Prop := ∃ t, tasks s !! c = Some t ∧ t ≠ TDone.

(** The client may still be answered. *)
Definition open_task (t : Task) : bool :=
  match t with TProcess | TStatus _ | TPanicked => true | TStore | TDone => false end.
Definition unanswered (s : Acc) (c : N) : Prop :=
  accepted s ≤ c ∨ loop s = LRefuse c ∨ ∃ t, tasks s !! c = Some t ∧ open_task t = true.

Record accept_inv (one_shot : bool) (s : Acc) : Prop := {
  ai_accepted c : is_Some (tasks s !! c) → c < accepted s;
  ai_one c c' : in_service s c → in_service s c' → c = c';
  ai_count : client_count s = 1 ∧ (∃ c, in_service s c)
             ∨ client_count s = 0 ∧ ∀ c, ¬ in_service s c;
  ai_refuse c : loop s = LRefuse c → tasks s !! c = None ∧ c < accepted s;
  ai_answers : NoDup (fst <$> answers s);
  ai_answered c st : (c, st) ∈ answers s → ¬ unanswered s c
                     ∧ (tasks s !! c = None → st = ClientAlreadyConnected);
  ai_join c : loop s = LJoin c → is_Some (tasks s !! c);
  ai_one_shot : one_shot = true →
    match loop s with
    | LNext => accepted s = 0
    | LJoin c => accepted s = 1 ∧ c = 0
    | LRefuse _ => False
    | LLeft => accepted s = 0
               ∨ accepted s = 1 ∧ (tasks s !! 0 = Some TDone ∨ tasks s !! 0 = Some TPanicked)
    end;
}.

Lemma accept_init_inv one_shot : accept_inv one_shot accept_init.
Proof.
  split; cbn; try done.
  - by intros c [? ?].
  - by intros c c' (? & ? & _).
  - right. split; [done|]. by intros c (? & ? & _).
  - constructor.
  - by intros c st ?%elem_of_nil.
Qed.

(** A task that goes on, holding the count as before. *)
Lemma set_task_inv one_shot s c t t' :
  accept_inv one_shot s → loop s ≠ LLeft → tasks s !! c = Some t → t ≠ TDone → t' ≠ TDone →
  (open_task t' = true → open_task t = true) → accept_inv one_shot (set_task s c t').
Proof.
  intros [I1 I2 I3 I4 I5 I6 I7 I8] Hl Ht H1 H2 Hopen.
  assert (∀ c', in_service (set_task s c t') c' ↔ in_service s c') as Hs.
  { intros c'. unfold in_service, set_task; cbn. destruct (decide (c' = c)) as [->|Hne].
    - rewrite lookup_insert_eq, Ht. split; intros _; by eexists.
    - by rewrite lookup_insert_ne. }
  assert (∀ c', is_Some (<[c:=t']> (tasks s) !! c') ↔ is_Some (tasks s !! c')) as Hd.
  { intros c'. destruct (decide (c' = c)) as [->|Hne]; [|by rewrite lookup_insert_ne].
    rewrite lookup_insert_eq, Ht. split; intros _; by eexists. }
  split; cbn; [..|exact I5| | |].
  - intros c' Hc. apply I1, Hd, Hc.
  - intros c1 c2. rewrite !Hs. apply I2.
  - destruct I3 as [[E [c' Hc]]|[E Hn]]; [left|right]; (split; [done|]).
    + exists c'. by apply Hs.
    + intros c'. by rewrite Hs.
  - intros c' Hc. destruct (I4 c' Hc) as [H3 H4]. split; [|done].
    by rewrite lookup_insert_ne by congruence.
  - intros c' st Hin. destruct (I6 c' st Hin) as [H3 H4]. split.
    + intros [H5|[H5|(t0 & H5 & H6)]]; apply H3; [by left|by right; left|right; right].
      cbn in H5. destruct (decide (c' = c)) as [->|Hne].
      * rewrite lookup_insert_eq in H5. simplify_eq. eauto.
      * rewrite lookup_insert_ne in H5 by done. eauto.
    + intros H5. apply H4. apply eq_None_not_Some. rewrite <-Hd. by apply eq_None_not_Some.
  - intros c' Hc. by apply Hd, I7.
  - intros Ho. specialize (I8 Ho). by destruct (loop s).
Qed.

(** A status written to a client that is not open any more. *)
Lemma answered_inv one_shot s c st written :
  accept_inv one_shot s → c ∉ (fst <$> answers s) → ¬ unanswered s c →
  (tasks s !! c = None → st = ClientAlreadyConnected) →
  accept_inv one_shot (answered s c st written).
Proof.
  intros [I1 I2 I3 I4 I5 I6 I7 I8] Hn Hu Hst. destruct written; split; cbn; try done.
  - rewrite fmap_app. apply NoDup_app. split; [done|]. split.
    + intros x Hx ->%list_elem_of_singleton. by apply Hn.
    + apply NoDup_singleton.
  - intros c' st' [Hin|Hin%list_elem_of_singleton]%elem_of_app; [by apply I6|]. by simplify_eq.
Qed.

(** A client that is open has not been answered. *)
Lemma unanswered_fresh one_shot s c : accept_inv one_shot s → unanswered s c →
  c ∉ (fst <$> answers s).
Proof.
  intros Hi Hu ([c' st] & -> & Hin)%list_elem_of_fmap. by destruct (ai_answered _ _ Hi _ _ Hin).
Qed.

Lemma accept_client_inv one_shot s :
  accept_inv one_shot s → loop s = LNext → accept_inv one_shot (accept_client one_shot s).
Proof.
  intros [I1 I2 I3 I4 I5 I6 I7 I8] Hl. unfold accept_client, compare_exchange.
  assert (tasks s !! accepted s = None) as Hnew.
  { apply eq_None_not_Some. intros H%I1. lia. }
  destruct (N.eqb_spec (client_count s) 0) as [H0|H0].
  - destruct I3 as [[E _]|[_ Hfree]]; [lia|].
    assert (∀ c, in_service (MkAcc 1 (if one_shot then LJoin (accepted s) else LNext)
      (<[accepted s:=TProcess]> (tasks s)) (accepted s + 1) (answers s)) c → c = accepted s) as Hs.
    { intros c (t & Ht & Hne). cbn in Ht. destruct (decide (c = accepted s)); [done|].
      rewrite lookup_insert_ne in Ht by done. destruct (Hfree c). by exists t. }
    split; cbn.
    + intros c Hc. destruct (decide (c = accepted s)) as [->|Hne]; [lia|].
      rewrite lookup_insert_ne in Hc by done. apply I1 in Hc. lia.
    + intros c c' H1%Hs H2%Hs. congruence.
    + left. split; [done|]. exists (accepted s), TProcess. cbn. by rewrite lookup_insert_eq.
    + by destruct one_shot.
    + done.
    + intros c st Hin. destruct (I6 c st Hin) as [H1 H2]. unfold unanswered in *.
      assert (c < accepted s) as Hc by (apply N.lt_nge; intros ?; apply H1; by left).
      rewrite lookup_insert_ne by lia. cbn. split; [|done].
      intros [H3|[H3|(t & H3 & H4)]]; [lia|by destruct one_shot|].
      rewrite lookup_insert_ne in H3 by lia. apply H1. eauto.
    + intros c Hc. destruct one_shot; simplify_eq. by rewrite lookup_insert_eq.
    + intros ->. specialize (I8 eq_refl). rewrite Hl in I8. by rewrite I8.
  - destruct I3 as [[E Hbusy]|[? _]]; [|done]. split; cbn.
    + intros c Hc%I1. lia.
    + exact I2.
    + by left.
    + intros c ?; simplify_eq. split; [done|lia].
    + done.
    + intros c st Hin. destruct (I6 c st Hin) as [H1 H2]. unfold unanswered in *.
      assert (c < accepted s) as Hc by (apply N.lt_nge; intros ?; apply H1; by left).
      split; [|done]. cbn. intros [H3|[H3|H3]]; [lia|simplify_eq; lia|apply H1; eauto].
    + done.
    + intros Ho. specialize (I8 Ho). rewrite Hl in I8. destruct Hbusy as (c & t & Ht & _).
      assert (c < accepted s) by (apply I1; by eexists). lia.
Qed.

(** The loop goes elsewhere than to a new refusal. *)
Lemma set_loop_inv one_shot s l :
  accept_inv one_shot s → (∀ c, l ≠ LRefuse c) → (∀ c, l = LJoin c → is_Some (tasks s !! c)) →
  (one_shot = true → match l with
    | LNext => accepted s = 0
    | LJoin c => accepted s = 1 ∧ c = 0
    | LRefuse _ => False
    | LLeft => accepted s = 0
               ∨ accepted s = 1 ∧ (tasks s !! 0 = Some TDone ∨ tasks s !! 0 = Some TPanicked)
    end) →
  accept_inv one_shot (set_loop s l).
Proof.
  intros [I1 I2 I3 I4 I5 I6 I7 I8] Hr Hj Ho. split; cbn; try done.
  - intros c Hc. by destruct (Hr c).
  - intros c st Hin. destruct (I6 c st Hin) as [H1 H2]. split; [|done].
    intros [H3|[H3|H3]]; [apply H1; by left|by destruct (Hr c)|apply H1; by right; right].
Qed.

Lemma store_inv one_shot s c :
  accept_inv one_shot s → loop s ≠ LLeft → tasks s !! c = Some TStore →
  accept_inv one_shot (MkAcc 0 (loop s) (<[c := TDone]> (tasks s)) (accepted s) (answers s)).
Proof.
  intros [I1 I2 I3 I4 I5 I6 I7 I8] Hl Ht.
  assert (∀ c', is_Some (<[c:=TDone]> (tasks s) !! c') ↔ is_Some (tasks s !! c')) as Hd.
  { intros c'. destruct (decide (c' = c)) as [->|Hne]; [|by rewrite lookup_insert_ne].
    rewrite lookup_insert_eq, Ht. split; intros _; by eexists. }
  assert (∀ c', ¬ in_service (MkAcc 0 (loop s) (<[c:=TDone]> (tasks s)) (accepted s) (answers s)) c')
    as Hfree.
  { intros c' (t & H1 & H2). cbn in H1. destruct (decide (c' = c)) as [->|Hne].
    - rewrite lookup_insert_eq in H1. congruence.
    - rewrite lookup_insert_ne in H1 by done. apply Hne. apply (I2 c' c); by eexists. }
  split; cbn; [..|exact I5| | |].
  - intros c' Hc. apply I1, Hd, Hc.
  - intros c1 c2 H1. by destruct (Hfree c1).
  - by right.
  - intros c' Hc. destruct (I4 c' Hc) as [H3 H4]. split; [|done].
    by rewrite lookup_insert_ne by congruence.
  - intros c' st Hin. destruct (I6 c' st Hin) as [H3 H4]. split.
    + intros [H5|[H5|(t & H5 & H6)]]; apply H3; [by left|by right; left|right; right].
      cbn in H5. destruct (decide (c' = c)) as [->|Hne].
      * rewrite lookup_insert_eq in H5. by simplify_eq.
      * rewrite lookup_insert_ne in H5 by done. eauto.
    + intros H5. apply H4. apply eq_None_not_Some. rewrite <-Hd. by apply eq_None_not_Some.
  - intros c' Hc. by apply Hd, I7.
  - intros Ho. specialize (I8 Ho). by destruct (loop s).
Qed.

Lemma task_step_inv one_shot s cmd s' :
  accept_inv one_shot s → loop s ≠ LLeft → task_step cmd s = Some s' →
  accept_inv one_shot s' ∧ loop s' = loop s.
Proof.
  intros Hi Hl E. destruct cmd as [| | |c r|c|c written|c|]; cbn in E; try done;
    (destruct (tasks s !! c) as [[]|] eqn:Ht; try done); simplify_eq.
  - split; [|done]. apply (set_task_inv _ _ _ TProcess); [done..| |done]. by destruct r.
  - split; [|done]. by apply (set_task_inv _ _ _ TProcess).
  - split; [|by destruct written].
    assert (accept_inv one_shot (set_task s c TStore)) as Hi'
      by (by apply (set_task_inv _ _ _ (TStatus st))).
    apply answered_inv; [done|apply (unanswered_fresh _ s c Hi); right; right; eauto|..].
    + unfold unanswered; cbn. rewrite lookup_insert_eq.
      pose proof (ai_accepted _ _ Hi c ltac:(by eexists)).
      intros [H1|[H1|(t & H1 & H2)]]; [lia| |by simplify_eq].
      destruct (ai_refuse _ _ Hi c H1). congruence.
    + cbn. by rewrite lookup_insert_eq.
  - split; [|done]. by apply store_inv.
Qed.

Lemma accept_step_inv one_shot s cmd s' :
  accept_inv one_shot s → accept_step one_shot cmd s = Some s' → accept_inv one_shot s'.
Proof.
  intros Hi E.
  assert (loop s ≠ LLeft → task_step cmd s = Some s' → accept_inv one_shot s') as Htask
    by (intros H1 H2; by apply (task_step_inv one_shot s cmd)).
  unfold accept_step in E. destruct (loop s) as [|c|c|] eqn:Hl; [..|done].
  - destruct cmd; try (by apply Htask); simplify_eq; [by apply accept_client_inv|].
    apply set_loop_inv; [done..|]. intros Ho. left.
    pose proof (ai_one_shot _ _ Hi Ho) as H. by rewrite Hl in H.
  - destruct cmd; try (by apply Htask). simplify_eq.
    destruct (ai_refuse _ _ Hi c Hl) as [H1 H2].
    assert (accept_inv one_shot (set_loop s LNext)) as Hi'.
    { apply set_loop_inv; [done..|]. intros Ho.
      pose proof (ai_one_shot _ _ Hi Ho) as H. by rewrite Hl in H. }
    apply (answered_inv _ _ c ClientAlreadyConnected written) in Hi'; cbn; [done|..|done].
    + apply (unanswered_fresh _ s c Hi). by right; left.
    + unfold unanswered; cbn. intros [H3|[H3|(t & H3 & _)]]; [lia|done|congruence].
  - destruct cmd; try (by apply Htask).
    assert (tasks s !! c = Some TDone ∨ tasks s !! c = Some TPanicked) as Hend
      by (repeat case_match; simplify_eq; auto).
    assert (s' = set_loop s LLeft) as -> by (repeat case_match; by simplify_eq).
    apply set_loop_inv; [done..|]. intros Ho. right.
    pose proof (ai_one_shot _ _ Hi Ho) as H. rewrite Hl in H. by destruct H as [H ->].
Qed.

Lemma accept_reach_inv one_shot s : accept_reach one_shot s → accept_inv one_shot s.
Proof.
  induction 1 as [|s cmd s' _ IH E]; [apply accept_init_inv|by apply (accept_step_inv _ s cmd)].
Qed.

Lemma accept_run_reach one_shot cmds s s' :
  accept_reach one_shot s → accept_run one_shot cmds s = Some s' → accept_reach one_shot s'.
Proof.
  revert s. induction cmds as [|cmd cmds IH]; intros s Hs; cbn; [by intros; simplify_eq|].
  intros (s1 & E1 & E2)%bind_Some. apply (IH s1); [by eapply ar_step|done].
Qed.

(** ** What the accept loop promises *)

(** C15. One client at a time, in every reachable state: at most one client holds
    the count; a new client is let in if none does and refused otherwise; a
    client is answered at most once outside of [process_new_client], and one
    that was not let in only with [ClientAlreadyConnected]; with [--one-shot] a
    single client is accepted, and the loop that served it is left only once its
    task is over. *)
Theorem accept_one_client one_shot s :
  accept_reach one_shot s →
  (∀ c c', in_service s c → in_service s c' → c = c')
  ∧ (∀ s', accept_step one_shot AAccept s = Some s' →
       (∃ c, in_service s c) ∧ loop s' = LRefuse (accepted s) ∧ tasks s' = tasks s
       ∨ (∀ c, ¬ in_service s c) ∧ tasks s' = <[accepted s := TProcess]> (tasks s))
  ∧ NoDup (fst <$> answers s)
  ∧ (∀ c st, (c, st) ∈ answers s → tasks s !! c = None → st = ClientAlreadyConnected)
  ∧ (one_shot = true → accepted s ≤ 1
     ∧ (loop s = LLeft → accepted s = 1 →
        tasks s !! 0 = Some TDone ∨ tasks s !! 0 = Some TPanicked)).
Proof.
  intros Hr. pose proof (accept_reach_inv _ _ Hr) as [I1 I2 I3 I4 I5 I6 I7 I8].
  split; [exact I2|]. split; [|split; [exact I5|split]].
  - intros s' E. unfold accept_step in E. destruct (loop s); try done. simplify_eq.
    unfold accept_client, compare_exchange.
    destruct I3 as [[-> Hb]|[-> Hf]]; [by left|by right].
  - intros c st Hin. by apply I6.
  - intros Ho. specialize (I8 Ho). destruct (loop s) as [|d|d|];
      [split; [lia|done]|done|destruct I8; split; [lia|done]|].
    destruct I8 as [H|[H1 H2]]; (split; [lia|]); intros _ H3; [lia|done].
Qed.

(** A step while the task of a client has panicked: no task moves, and whoever
    is answered is refused. *)
Lemma panicked_step one_shot s c cmd s' :
  accept_inv one_shot s → tasks s !! c = Some TPanicked → accept_step one_shot cmd s = Some s' →
  tasks s' = tasks s ∧ ∃ l, answers s' = answers s ++ l ∧ Forall (λ a, a.2 = ClientAlreadyConnected) l.
Proof.
  intros [I1 I2 I3 I4 I5 I6 I7 I8] Hp E.
  assert (∃ l : list (N * StatusCode), answers s = answers s ++ l
    ∧ Forall (λ a, a.2 = ClientAlreadyConnected) l) as Hnil
    by (exists []; by rewrite (right_id_L [] (++))).
  assert (in_service s c) as Hc by by exists TPanicked.
  assert (∀ c' t, tasks s !! c' = Some t → t = TDone ∨ t = TPanicked) as Ht.
  { intros c' t Ht. destruct (decide (t = TDone)) as [->|Hne]; [by left|].
    assert (c' = c) as -> by (apply I2; [by exists t|done]). right. congruence. }
  assert (task_step cmd s = None) as Hnone.
  { clear I8. destruct cmd as [| | |d r|d|d w|d|]; try done; cbn;
      (destruct (tasks s !! d) as [t|] eqn:Et; [|done]); apply Ht in Et as [->| ->]; done. }
  unfold accept_step in E. rewrite Hnone in E. destruct (loop s) as [|d|d|]; try done.
  - destruct cmd; try done; simplify_eq; [|done]. unfold accept_client, compare_exchange.
    destruct I3 as [[-> _]|[_ Hf]]; [done|by destruct (Hf c)].
  - destruct cmd; try done. simplify_eq. split; [done|]. cbn. destruct written; [|done].
    exists [(d, ClientAlreadyConnected)]. split; [done|]. by constructor.
  - destruct cmd; try done. repeat case_match; by simplify_eq.
Qed.


(** An error of [accept] ends the program under the client it serves: the loop
    is left with the task still at work, and nothing happens any more. *)
Lemma accept_error_abandons one_shot s c :
  loop s = LNext → tasks s !! c = Some TProcess →
  ∃ s', accept_step one_shot AListenErr s = Some s' ∧ tasks s' !! c = Some TProcess
    ∧ ∀ cmd, accept_step one_shot cmd s' = None.
Proof. intros Hl Ht. unfold accept_step. rewrite Hl. eexists. split; [done|]. by split. Qed.

(** *** A run: a client is served while another is refused; a third panics *)

Definition demo_cmds : list ACmd :=
  [AAccept; AAccept; ARefused true; AProcessed 0 (Ok Ack); AStatus 0 true; AStore 0; AAccept; APanic 2].
Abbreviation demo_state := (default accept_init (accept_run false demo_cmds accept_init)).

Lemma demo_reach : accept_reach false demo_state.
Proof. apply (accept_run_reach false demo_cmds accept_init); [constructor|reflexivity]. Qed.

Lemma accept_one_client_witness :
  answers demo_state = [(1, ClientAlreadyConnected); (0, Ack)]
  ∧ NoDup (fst <$> answers demo_state)
  ∧ ∀ s', accept_step false AAccept demo_state = Some s' → loop s' = LRefuse 3.
Proof.
  destruct (accept_one_client false demo_state demo_reach) as (_ & H1 & H2 & _).
  split; [reflexivity|]. split; [exact H2|]. intros s' E.
  destruct (H1 s' E) as [(_ & H & _)|[H _]]; [exact H|].
  destruct (H 2). exists TPanicked. split; [reflexivity|discriminate].
Defined.

Abbreviation later_cmds := ([AAccept; ARefused true; AAccept; ARefused false] : list ACmd).


(** ** What the command line comes to *)

Section setup_spec.
Context `{!PathClean, !PathCleanLaws}.

(** Every answer for the current directory in a history is absolute. *)
Definition cwd_absolute (t : list Event) : Prop :=
  ∀ dir, existT CurrentDir (Ok dir : Result bytes) ∈ t → is_absolute dir = true.

Lemma cwd_absolute_app t1 t2 : cwd_absolute (t1 ++ t2) ↔ cwd_absolute t1 ∧ cwd_absolute t2.
Proof.
  unfold cwd_absolute. setoid_rewrite elem_of_app.
  split; [intros Hc; split; auto|intros [H1 H2] dir [Hd|Hd]; auto].
Qed.

Lemma detach_part fuel args : part fuel (detach args) (λ t _, adds t [] [] []).
Proof. unfold detach. destruct (ephemeral args), (detached args); line. Qed.

Lemma question_part {A} fuel (r : Result A) : part fuel (question r) (λ t a, t = [] ∧ r = Ok a).
Proof. unfold question. apply triple_ret. split; [done|]. intros a ?; by simplify_eq. Qed.

Lemma absolute_part fuel path :
  part fuel (absolute path) (λ t a, adds t [] [] [] ∧ (cwd_absolute t → is_absolute a = true)).
Proof.
  unfold absolute. cbn [mbind prog_bind call]. apply triple_vis. intros r. apply triple_ret.
  split; [done|]. intros a Ha. simplify_eq. split; [done|]. intros Hc.
  apply (absolute_path_absolute r path); [|done]. intros dir ->. apply Hc.
  by apply list_elem_of_singleton.
Qed.

(** The secret of the client, and what was run for it. *)
Definition secret_from (args : Args) (ip given : bytes) (t : list Event) (secret : bytes) : Prop :=
  if remote_start args then
    ∃ user filename, let o := MkRemoteStartOptions ip (remote_start_port args) user
        (arg_identity_file args) (default (arg_workers args) (remote_start_workers args)) (port args) in
      execs t = [str "mktemp --tmpdir deltasync.XXXXXXXX"; str "cat >" ++ filename;
                 str "chmod +x " ++ filename; server_command o filename secret]
  else execs t = [] ∧ secret = given.

Lemma client_secret_part fuel args ip given :
  part fuel (client_secret fuel args ip given) (λ t secret, secret_from args ip given t secret).
Proof.
  unfold client_secret, secret_from. destruct (remote_start args).
  - eapply part_weaken.
    { eapply (part_bind _ _ _ (λ t _, adds t [] [] [])); [line|intros u].
      eapply part_bind; [apply question_part|intros user]. apply remote_start_part. }
    cbn beta. intros t secret (t1 & t2 & u & -> & (A1 & _) & t3 & t4 & user & -> & (-> & _)
      & _ & _ & f & file & A2 & _).
    exists user, f. cbn [app]. rewrite execs_app, A1, A2. reflexivity.
  - line.
Qed.

(** The mode [m] is what [args] ask for, with the secret [given]; [t] is what was
    done. *)
Definition mode_ok (args : Args) (given : bytes) (t : list Event) (m : Mode) : Prop :=
  match m with
  | ServerMode address secret w os =>
      server args = true
      ∧ address = default (str "0.0.0.0") (ip args) ++ str ":" ++ to_string (port args)
      ∧ secret = given ∧ w = arg_workers args ∧ os = one_shot args ∧ execs t = []
  | ClientMode address o =>
      let i := default (str "127.0.0.1") (ip args) in
      server args = false ∧ address = i ++ str ":" ++ to_string (port args)
      ∧ secret_from args i given t (opt_secret o)
      ∧ o = MkClientProcessOptions (opt_secret o) (opt_src_path o) (opt_dest o)
              (force_truncate args) (arg_workers args) (arg_block_size args) (arg_hash args)
      ∧ is_Some (src args) ∧ (dest args = None → opt_dest o = opt_src_path o)
      ∧ (cwd_absolute t → is_absolute (opt_src_path o) = true ∧ is_absolute (opt_dest o) = true)
  end.

Lemma client_paths_part fuel args :
  part fuel (client_paths args)
    (λ t p, adds t [] [] [] ∧ is_Some (src args) ∧ (dest args = None → p.2 = p.1)
            ∧ (cwd_absolute t → is_absolute p.1 = true ∧ is_absolute p.2 = true)).
Proof.
  unfold client_paths.
  eapply part_weaken.
  { eapply part_bind; [apply question_part|intros src_arg].
    eapply part_bind; [apply absolute_part|intros src_path].
    eapply (part_bind _ _ _ (λ t d, adds t [] [] [] ∧ (dest args = None → d = src_path)
      ∧ (cwd_absolute t → is_absolute src_path = true → is_absolute d = true))).
    - destruct (dest args); [|line]. eapply part_weaken; [apply absolute_part|].
      intros t d [H1 H2]. split_and!; auto; done.
    - intros dest_path. apply (part_weaken _ _ (λ t p, t = [] ∧ p = (src_path, dest_path))); [line|].
      intros t p Hp. exact Hp. }
  cbn beta. intros t p (t1 & t2 & a & -> & (-> & Ha) & t3 & t4 & sp & -> & (A1 & B1)
    & t5 & t6 & dp & -> & (A2 & C2 & B2) & -> & ->).
  cbn [app fst snd]. rewrite (right_id_L [] (++)). split; [exact (adds_app _ _ _ _ _ _ _ _ A1 A2)|].
  split; [by destruct (src args)|]. split; [done|].
  rewrite cwd_absolute_app. intros [H1 H2]. auto.
Qed.

Lemma mode_ok_app args given t1 t2 m :
  execs t1 = [] → mode_ok args given t2 m → mode_ok args given (t1 ++ t2) m.
Proof.
  intros Ht. unfold mode_ok, secret_from. rewrite execs_app, Ht. cbn [app].
  destruct m; [done|]. intros (M1 & M2 & M3 & M4 & M5 & M6 & M7).
  rewrite cwd_absolute_app. do 6 (split; [done|]). intros [_ Hc]. by apply M7.
Qed.

Lemma given_secret_part fuel args :
  part fuel (given_secret args) (λ t s, t = [] ∧ s = default [] (secret args) ∧ lenN s ≤ 255).
Proof. unfold given_secret. destruct (N.ltb_spec 255 (lenN (default [] (secret args)))); line. Qed.

Lemma client_mode_part fuel args given : server args = false →
  part fuel (client_mode fuel args given) (mode_ok args given).
Proof.
  intros Hs. unfold client_mode.
  eapply part_weaken; [eapply part_bind; [apply client_secret_part|intros sec];
    eapply part_bind; [apply client_paths_part|intros paths]|].
  { apply (part_weaken _ _ (λ t m, t = [] ∧ m = ClientMode
      (default (str "127.0.0.1") (ip args) ++ str ":" ++ to_string (port args))
      (MkClientProcessOptions sec paths.1 paths.2 (force_truncate args) (arg_workers args)
        (arg_block_size args) (arg_hash args)))); [line|]. intros t m Hm. exact Hm. }
  cbn beta. intros t m (t1 & t2 & sec & -> & S1 & t3 & t4 & paths & -> & ((P1 & _) & P2 & P3 & P4) & -> & ->).
  cbn [mode_ok opt_secret opt_src_path opt_dest]. rewrite (right_id_L [] (++)).
  split; [done|]. split; [done|]. split.
  - unfold secret_from in *. by rewrite execs_app, P1, (right_id_L [] (++)).
  - split; [done|]. split; [done|]. split; [done|]. rewrite cwd_absolute_app. intros [_ Hc]. auto.
Qed.

Lemma main_mode_part fuel args :
  part fuel (main_mode fuel args) (λ t m,
    lenN (default [] (secret args)) ≤ 255 ∧ mode_ok args (default [] (secret args)) t m).
Proof.
  unfold main_mode. eapply part_weaken.
  { eapply part_bind; [apply detach_part|intros u].
    eapply (part_bind _ _ _ _ (mode_ok args)); [apply given_secret_part|intros given].
    destruct (server args) eqn:Hs; [|by apply client_mode_part].
    apply (part_weaken _ _ (λ t m, t = [] ∧ m = server_mode args given)); [line|].
    intros t m [-> ->]. by split_and!. }
  cbn beta. intros t m (t1 & t2 & u & -> & (A1 & _) & t3 & t4 & s & -> & (-> & -> & Hl) & Hm).
  split; [done|]. by apply mode_ok_app.
Qed.

End setup_spec.

(** *** A client started with [--remote-start] *)

#[local] Instance no_clean : PathClean := id.
#[local] Instance no_clean_laws : PathCleanLaws.
Proof. by intros path. Qed.

Definition demo_args : Args :=
  MkArgs false (Some (str "10.0.0.7")) 15000 None false false 4 1048576 CRC32 false false true
    (Some (str "bob")) 22 None None (Some (str "a")) None.
Abbreviation demo_main := (run sample_env (main_mode 5 demo_args) []).

Definition client_of (r : Ended Mode) : option (bytes * ClientProcessOptions) :=
  match r with Done (Ok (ClientMode a o)) => Some (a, o) | _ => None end.
Lemma client_of_inv r a : fst <$> client_of r = Some a →
  ∃ o, r = Done (Ok (ClientMode a o)).
Proof. destruct r as [[[]|]| |]; cbn; intros ?; simplify_eq. by eexists. Qed.

