(* ===== verification/Testing.v ===== *)
(** How the tests of the repository are run on the model: a test is a computation
    that may panic; a test of threads is passed when every interleaving passes,
    which is found out by visiting all states. *)

From stdpp Require Import base option list numbers relations.
From S2P Require Import Prelude AsyncIO.

(** ** A test: [None] is a panic *)

Definition Test : Type := option ().
Definition passes (t : Test) : Prop := t = Some ().

Definition unwrap {A} (r : Result A) : option A := match r with Ok a => Some a | Err _ => None end.
Definition unwrap_err {A} (r : Result A) : option Error :=
  match r with Ok _ => None | Err e => Some e end.
Definition assert (b : bool) : Test := if b then Some () else None.
Definition assert_eq `{EqDecision A} (x y : A) : Test := assert (bool_decide (x = y)).

(** ** All states of a finite system: what holds of every state found holds of
    every run *)

Section explore.
Context {S : Type} `{!EqDecision S} (next : S → list S).

(** The states of [visited] and those reachable from [todo]; [None] when there
    are more than the fuel allows. *)
Fixpoint explore (fuel : nat) (todo visited : list S) : option (list S) :=
  match todo with
  | [] => Some visited
  | s :: todo =>
      match fuel with
      | O => None
      | Datatypes.S fuel =>
          if decide (s ∈ visited) then explore fuel todo visited
          else explore fuel (next s ++ todo) (s :: visited)
      end
  end.

Definition can_step (s s' : S) : Prop := s' ∈ next s.

(** The search loses nothing, and what it has found is closed under the steps. *)
Lemma explore_closed fuel todo visited found : explore fuel todo visited = Some found →
  (∀ s s', s ∈ visited → can_step s s' → s' ∈ todo ++ visited) →
  (∀ s, s ∈ todo ++ visited → s ∈ found) ∧ ∀ s s', s ∈ found → can_step s s' → s' ∈ found.
Proof.
  unfold can_step. revert todo visited. induction fuel as [|fuel IH]; intros [|s todo] visited; cbn [explore];
    [by intros [= <-]|done|by intros [= <-]|].
  case_decide as Hin; intros E Hc.
  - apply IH in E as [H1 H2].
    + split; [|done]. intros x [->|Hx]%elem_of_cons; apply H1; apply elem_of_app; [by right|].
      by apply elem_of_app.
    + intros x y Hx Hy. specialize (Hc x y Hx Hy). set_solver.
  - apply IH in E as [H1 H2]; [split; [|done]; intros x Hx; apply H1; set_solver|].
    intros x y [->|Hx]%elem_of_cons Hy; [set_solver|]. specialize (Hc x y Hx Hy). set_solver.
Qed.

(** A test passed by all states found is passed by all states a run comes to. *)
Lemma explore_sound fuel start (test : S → bool) :
  forallb test <$> explore fuel [start] [] = Some true →
  ∀ s, rtc can_step start s → test s = true.
Proof.
  intros Ht s Hr. destruct (explore fuel [start] []) as [found|] eqn:E; [|done].
  injection Ht as Ht. rewrite forallb_forall in Ht.
  apply explore_closed in E as [H1 H2]; [|by intros x y ?%elem_of_nil].
  apply Ht, list_elem_of_In. assert (start ∈ found) as Hs by (apply H1; by left).
  clear -Hr H2 Hs. induction Hr as [s|s s1 s2 Hst _ IH]; [done|]. by apply IH, (H2 s).
Qed.
End explore.
