(* ===== verification/CommonTests.v ===== *)
(** The tests of src/src/common.rs (lines 313-833), on the model: every test is a
    definition that runs the same calls on the same data, and its assertions
    hold.

    A [Vec<u8>] that is written to takes all
    bytes, a [Cursor] is a connection or a socket that has ended; the [duplex]
    of tokio is the bounded pipe below.  A future that a [select!] drops for a
    [sleep] is one that is still pending. *)

From stdpp Require Import base option list numbers strings.
From Stdlib Require Import NArith Lia.
From Stdlib.Strings Require String.
From S2P Require Import Prelude AsyncIO Text Utf8 Loan Wire Resumable ResumableString ResumableBlock.
From S2P Require Import Testing.
#[local] Open Scope N_scope.

Module RS := ResumableReadString.
Module WS := ResumableWriteString.
Module RB := ResumableReadFileBlock.
Module WB := ResumableWriteFileBlock.
Module WA := ResumableAsyncWriteAll.

(** ** What the tests are written with *)

(** [to_string] of an error whose text is that of the program, and
    [str::contains]. *)
Definition error_to_string (e : Error) : bytes :=
  match e with
  | EMsg m => str m
  | EStringTooLong size max =>
      str "String length " ++ to_string size ++ str " exceeds maximum allowed " ++ to_string max
  | _ => []
  end.
Fixpoint contains (l p : bytes) : bool :=
  bool_decide (take (length p) l = p) || match l with [] => false | _ :: l => contains l p end.

(** A [Vec] after a call that writes to it; a call that reads from a [Cursor]. *)
Definition vec (m : IO Conn ()) : option bytes :=
  let '(r, c) := m (MkConn [] [] true) in _ ← unwrap r; Some (c_out c).
Definition cursor (buf : bytes) : Conn := MkConn buf [] true.

(** [.await] of a call of a resumable operation that is not pending. *)
Definition await {Pc A S T} (x : Outcome Pc A * S * T) : option (Result A * S * T) :=
  match x with (Returned r, s, t) => Some (r, s, t) | _ => None end.
Definition await_unwrap {Pc A S T} (x : Outcome Pc A * S * T) : option (A * S * T) :=
  '(r, s, t) ← await x; a ← unwrap r; Some (a, s, t).

(** [tokio::select!] of a call and a [sleep], when the call must not complete. *)
Definition times_out {Pc A S T} (x : Outcome Pc A * S * T) : option (S * T) :=
  match x with (Suspended _, s, t) => Some (s, t) | _ => None end.

(** What the resumable writers write to, and the readers read from. *)
Definition new_vec : Eager := MkEager [] [].
Definition eof_cursor (buf : bytes) : Socket := MkSocket buf true.

(** No test writes more than this at once. *)
Definition fuel : nat := 100.

(** ** [tokio::io::duplex]: a pipe that holds at most so many bytes *)

Record Duplex := MkDuplex {
  dx_max : nat;
  dx_buf : bytes;
  dx_closed : bool;
  dx_history : bytes;
}.

Definition duplex (n : nat) : Duplex := MkDuplex n [] false [].

Definition duplex_poll_write (d : Duplex) (buf : bytes) : Poll (Result nat) * Duplex :=
  match (dx_max d - length (dx_buf d))%nat with
  | O => (Pending, d)
  | room =>
      let bs := take room buf in
      (Ready (Ok (length bs)), MkDuplex (dx_max d) (dx_buf d ++ bs) (dx_closed d) (dx_history d ++ bs))
  end.
Definition duplex_poll_read (d : Duplex) (cap : nat) : Poll (Result bytes) * Duplex :=
  match dx_buf d with
  | [] => if dx_closed d then (Ready (Ok []), d) else (Pending, d)
  | bs => (Ready (Ok (take cap bs)), MkDuplex (dx_max d) (drop cap bs) (dx_closed d) (dx_history d))
  end.

#[global] Instance duplex_write : AsyncWrite Duplex := {
  poll_write := duplex_poll_write;
  written := dx_history;
}.
#[global] Instance duplex_read : AsyncRead Duplex := {
  poll_read := duplex_poll_read;
  incoming := dx_buf;
}.

#[global] Instance duplex_write_laws : AsyncWriteLaws Duplex.
Proof.
  split; intros d buf; cbn; unfold duplex_poll_write;
    destruct (dx_max d - length (dx_buf d))%nat as [|room]; intros; simplify_eq; try done.
  split; [len_lia|]. cbn [dx_history]. f_equal. rewrite length_take.
  rewrite <-(take_ge buf (length buf)) at 1 by done. rewrite take_take. f_equal.
Qed.

#[global] Instance duplex_read_laws : AsyncReadLaws Duplex.
Proof.
  split; intros [n [|b bs] fin h] cap; cbn; unfold duplex_poll_read; cbn [dx_buf dx_closed];
    intros; repeat case_match; simplify_eq; cbn [dx_buf]; try done.
  - cbn. split; [lia|done].
  - split; [rewrite length_take; lia|by rewrite take_drop].
  - by destruct cap; [lia|].
Qed.

(** The other side is fed, in one piece. *)
Definition fed (d : Duplex) (bs : bytes) : option Duplex :=
  match duplex_poll_write d bs with
  | (Ready (Ok n), d') => if (n =? length bs)%nat then Some d' else None
  | _ => None
  end.

(** A writer that was interrupted is polled, pending and polled again where it
    was, [n] times at most, while the other side reads what there is; then the
    pipe is closed and the other side reads the rest: what it has read in all. *)
Fixpoint drained {Pc S} (n : nat) (resume : Pc → S → Duplex → Outcome Pc () * S * Duplex)
    (x : Outcome Pc () * S * Duplex) (received : bytes) : option bytes :=
  match x with
  | (Returned (Ok _), _, d) => Some (received ++ dx_buf d)
  | (Suspended p, s, d) =>
      match n with
      | O => None
      | Datatypes.S n =>
          drained n resume (resume p s (MkDuplex (dx_max d) [] (dx_closed d) (dx_history d)))
            (received ++ dx_buf d)
      end
  | _ => None
  end.

(** The futures of these two have one await point: to poll them again is to call
    them again. *)
Definition resume_string (_ : ()) : WS.t → Duplex → Outcome () () * WS.t * Duplex := WS.write_to fuel.
Definition resume_all (data : bytes) (_ : ()) : WA.t → Duplex → Outcome () () * WA.t * Duplex :=
  λ w, WA.write_all fuel w data.

(** The buffer of a block reader is an argument of its calls. *)
Definition regroup {Pc A S B T} (x : Outcome Pc A * S * B * T) : Outcome Pc A * (S * B) * T :=
  let '(o, s, b, t) := x in (o, (s, b), t).

(** ** [write_string] and [read_string] *)

Definition write_read_string_round_trip : Test :=
  buf ← vec (write_string (str "hello"));
  result ← unwrap (read_string 256 (cursor buf)).1;
  assert_eq result (str "hello").

Definition write_read_string_empty : Test :=
  buf ← vec (write_string (str ""));
  result ← unwrap (read_string 256 (cursor buf)).1;
  assert_eq result (str "").

Definition read_string_rejects_exceeding_max_len : Test :=
  buf ← vec (write_string (str "toolong"));
  e ← unwrap_err (read_string 3 (cursor buf)).1;
  assert (contains (error_to_string e) (str "exceeds maximum")).

Definition read_string_accepts_exactly_max_len : Test :=
  buf ← vec (write_string (str "abc"));
  result ← unwrap (read_string 3 (cursor buf)).1;
  assert_eq result (str "abc").

Definition write_read_string_with_unicode : Test :=
  buf ← vec (write_string (str "héllo 🌍"));
  result ← unwrap (read_string 256 (cursor buf)).1;
  assert_eq result (str "héllo 🌍").

(** ** [write_status] and [check_status] *)

Definition write_check_status_ack : Test :=
  buf ← vec (write_status Ack);
  unwrap (check_status (cursor buf)).1.

Definition status_texts : list (N * bytes) :=
  [(1, str "Invalid Secret"); (2, str "File size differs"); (3, str "Permission denied");
   (4, str "A client is already connected"); (5, str "Hash algorithm is not supported");
   (6, str "Protocol version mismatch"); (7, str "Invalid block size")].

Definition check_status_rejects_non_ack : Test :=
  foldr (λ x t,
    e ← unwrap_err (check_status (cursor [byte_of x.1])).1;
    assert (contains (error_to_string e) x.2);; t) (Some ()) status_texts.

Definition check_status_rejects_unknown_code : Test :=
  e ← unwrap_err (check_status (cursor [byte_of 255])).1;
  assert (contains (error_to_string e) (str "Unknown status code")).

(** ** The resumable strings *)

(** [ResumableWriteString::new(s).write_to(buf).await.unwrap()] *)
Definition write_to_vec (s : bytes) (buf : Eager) : option Eager :=
  '(_, _, buf) ← await_unwrap (WS.write_to fuel (WS.new s) buf); Some buf.

Definition resumable_write_read_string (s : bytes) : Test :=
  buf ← write_to_vec s new_vec;
  '(result, _, _) ← await_unwrap (RS.read_on (RS.new 256) (eof_cursor (written buf)));
  assert_eq result s.

Definition resumable_write_read_string_round_trip : Test := resumable_write_read_string (str "deltasync").
Definition resumable_write_read_string_empty : Test := resumable_write_read_string (str "").

Definition resumable_read_string_rejects_exceeding_max_len : Test :=
  buf ← write_to_vec (str "toolong") new_vec;
  '(result, _, _) ← await (RS.read_on (RS.new 3) (eof_cursor (written buf)));
  e ← unwrap_err result;
  assert (contains (error_to_string e) (str "exceeds maximum")).

Definition resumable_read_string_multiple_sequential_reads : Test :=
  buf ← write_to_vec (str "first") new_vec;
  buf ← write_to_vec (str "second") buf;
  '(result, reader, cursor) ← await_unwrap (RS.read_on (RS.new 256) (eof_cursor (written buf)));
  assert_eq result (str "first");;
  '(result, _, _) ← await_unwrap (RS.read_on reader cursor);
  assert_eq result (str "second").

Definition resumable_write_compatible_with_simple_read : Test :=
  buf ← write_to_vec (str "compat") new_vec;
  result ← unwrap (read_string 256 (cursor (written buf))).1;
  assert_eq result (str "compat").

Definition simple_write_compatible_with_resumable_read : Test :=
  buf ← vec (write_string (str "compat"));
  '(result, _, _) ← await_unwrap (RS.read_on (RS.new 256) (eof_cursor buf));
  assert_eq result (str "compat").

(** ** The resumable blocks *)

(** A block on loan, written; the reclaimer is dropped. *)
Definition loaned (data : bytes) : Loan bytes := (loan data (MkOsStore 0 ∅)).1.1.
Definition write_block_to_vec (offset : N) (data : bytes) (buf : Eager) : option Eager :=
  '(_, _, buf) ← await_unwrap (WB.write_to fuel (WB.new offset (loaned data)) buf); Some buf.
Definition numbers (l : list N) : bytes := byte_of <$> l.

Definition resumable_write_read_file_block (data : bytes) (block_size file_size offset : N) : Test :=
  buf ← write_block_to_vec offset data new_vec;
  '(read_offset, (_, read_buf), _) ←
    await_unwrap (regroup (RB.read_on (RB.new block_size file_size) [] (eof_cursor (written buf))));
  assert_eq read_offset offset;;
  assert_eq read_buf data.

Definition resumable_write_read_file_block_round_trip : Test :=
  resumable_write_read_file_block (numbers [1; 2; 3; 4; 5; 6; 7; 8; 9; 10]) 10 100 20.
Definition resumable_write_read_file_block_last_block_smaller : Test :=
  resumable_write_read_file_block (numbers [1; 2; 3]) 10 93 90.

Definition resumable_read_file_block_multiple_sequential : Test :=
  wire ← write_block_to_vec 0 (replicate 4 (byte_of 170)) new_vec;
  wire ← write_block_to_vec 8 (replicate 2 (byte_of 187)) wire;
  '(off, (reader, read_buf), cursor) ←
    await_unwrap (regroup (RB.read_on (RB.new 4 10) [] (eof_cursor (written wire))));
  assert_eq off 0;;
  assert_eq read_buf (replicate 4 (byte_of 170));;
  '(off, (_, read_buf), _) ← await_unwrap (regroup (RB.read_on reader read_buf cursor));
  assert_eq off 8;;
  assert_eq read_buf (replicate 2 (byte_of 187)).

(** ** [ResumableAsyncWriteAll] *)

Definition write_all_to_vec (data : bytes) : Test :=
  '(_, _, buf) ← await_unwrap (WA.write_all fuel WA.new data new_vec);
  assert_eq (written buf) data.

Definition resumable_async_write_all : Test := write_all_to_vec (str "hello world").
Definition resumable_async_write_all_empty : Test := write_all_to_vec (str "").

Definition resumable_async_write_all_cancel_and_resume : Test :=
  let data := str "abcdefghijklmnopqrstuvwxyz" in
  '(writer, tx) ← times_out (WA.write_all fuel WA.new data (duplex 4));
  received ← drained 100 (resume_all data) (WA.write_all fuel writer data tx) [];
  assert_eq received data.

(** ** The connection closed in the middle of a string *)

Definition read_string_connection_closed (data : bytes) : Test :=
  '(result, _, _) ← await (RS.read_on (RS.new 256) (eof_cursor data));
  e ← unwrap_err result;
  assert (contains (error_to_string e) (str "Connection closed")).

Definition resumable_read_string_connection_closed_during_header : Test :=
  read_string_connection_closed (numbers [0; 0; 0]).
Definition resumable_read_string_connection_closed_during_payload : Test :=
  read_string_connection_closed (numbers [0; 0; 0; 0; 0; 0; 0; 10] ++ str "short").

(** ** Futures dropped while they are pending *)

Definition read_string_cancel (s : bytes) (first : nat) : Test :=
  wire ← vec (write_string s);
  rx ← fed (duplex 64) (take first wire);
  '(reader, rx) ← times_out (RS.read_on (RS.new 256) rx);
  rx ← fed rx (drop first wire);
  '(result, _, _) ← await_unwrap (RS.read_on reader rx);
  assert_eq result s.

Definition resumable_read_string_cancel_during_header : Test := read_string_cancel (str "hello") 3.
Definition resumable_read_string_cancel_during_payload : Test :=
  read_string_cancel (str "hello world!") 12.

Definition resumable_write_string_cancel_and_resume : Test :=
  '(writer, tx) ← times_out (WS.write_to fuel (WS.new (str "hello world!")) (duplex 4));
  received ← drained 100 resume_string (WS.write_to fuel writer tx) [];
  expected ← write_to_vec (str "hello world!") new_vec;
  assert_eq received (written expected).

Definition resumable_read_file_block_cancel_and_resume : Test :=
  let payload := replicate 10 (byte_of 204) in
  wire ← write_block_to_vec 30 payload new_vec;
  rx ← fed (duplex 64) (take 5 (written wire));
  '(reader, read_buf, rx) ←
    ('(s, rx) ← times_out (regroup (RB.read_on (RB.new 10 100) [] rx)); Some (s.1, s.2, rx));
  rx ← fed rx (drop 5 (written wire));
  '(read_offset, (_, read_buf), _) ← await_unwrap (regroup (RB.read_on reader read_buf rx));
  assert_eq read_offset 30;;
  assert_eq read_buf payload.

Definition resumable_write_file_block_cancel_and_resume : Test :=
  let payload := replicate 16 (byte_of 221) in
  '(writer, tx) ← times_out (WB.write_to fuel (WB.new 40 (loaned payload)) (duplex 4));
  received ← drained 100 (λ p, WB.resume p fuel) (WB.write_to fuel writer tx) [];
  '(read_offset, (_, read_buf), _) ←
    await_unwrap (regroup (RB.read_on (RB.new 16 100) [] (eof_cursor received)));
  assert_eq read_offset 40;;
  assert_eq read_buf payload.

(** ** All of them pass *)

Definition common_tests : list Test :=
  [write_read_string_round_trip; write_read_string_empty; read_string_rejects_exceeding_max_len;
   read_string_accepts_exactly_max_len; write_read_string_with_unicode; write_check_status_ack;
   check_status_rejects_non_ack; check_status_rejects_unknown_code;
   resumable_write_read_string_round_trip; resumable_write_read_string_empty;
   resumable_read_string_rejects_exceeding_max_len; resumable_read_string_multiple_sequential_reads;
   resumable_write_compatible_with_simple_read; simple_write_compatible_with_resumable_read;
   resumable_write_read_file_block_round_trip; resumable_write_read_file_block_last_block_smaller;
   resumable_read_file_block_multiple_sequential; resumable_async_write_all;
   resumable_async_write_all_empty; resumable_async_write_all_cancel_and_resume;
   resumable_read_string_connection_closed_during_header;
   resumable_read_string_connection_closed_during_payload;
   resumable_read_string_cancel_during_header; resumable_read_string_cancel_during_payload;
   resumable_write_string_cancel_and_resume; resumable_read_file_block_cancel_and_resume;
   resumable_write_file_block_cancel_and_resume].

Lemma common_tests_pass : Forall passes common_tests.
Proof. repeat (constructor; [vm_compute; reflexivity|]). constructor. Qed.
