(* ===== verification/SyncTests.v ===== *)
(** The tests of src/src/sync.rs (lines 218-403), on the model.

    The threads of a test of the ordered channel are programs that run in all
    interleavings, spurious wakeups included; the test passes when no run fails
    an assertion or gets stuck before its end.  The search of Testing.v visits
    every state. *)

From stdpp Require Import base option list numbers gmap strings.
From Stdlib Require Import NArith Lia.
From Stdlib.Strings Require String.
From S2P Require Import Prelude AsyncIO Text Loan OrderedChannel Testing.
#[local] Open Scope N_scope.

(** ** States can be compared *)

#[global] Instance SharedState_eq_dec : EqDecision SharedState.
Proof. solve_decision. Defined.
#[global] Instance Chan_eq_dec `{EqDecision Q} : EqDecision (Chan Q).
Proof. solve_decision. Defined.
#[global] Instance TState_eq_dec `{EqDecision T} : EqDecision (TState T).
Proof. solve_decision. Defined.
#[global] Instance RPhase_eq_dec `{EqDecision T} : EqDecision (RPhase T).
Proof. solve_decision. Defined.
#[global] Instance MpQueue_eq_dec `{EqDecision T} : EqDecision (MpQueue T).
Proof. solve_decision. Defined.
#[global] Instance Sys_eq_dec `{EqDecision T, EqDecision Q} : EqDecision (Sys T Q).
Proof. solve_decision. Defined.

(** ** The machine that runs a test *)

(** What the test itself does: [rx.recv().await]; a [recv] with
    [set_infinite_recv] that the [select!] drops; the drop of [rx] and of [tx]. *)
Inductive RCmd := Recv | RecvCancelled | DropRx | DropTx.
#[global] Instance RCmd_eq_dec : EqDecision RCmd.
Proof. solve_decision. Defined.

(** What happened: a [recv] has returned; a [send] of a thread has failed or not,
    and whether the inner channel was empty then. *)
Inductive Event :=
  | Received (v : option bytes)
  | SendDone (thread : N) (is_err full_capacity : bool).
#[global] Instance Event_eq_dec : EqDecision Event.
Proof. solve_decision. Defined.

(** The channel; what every sender thread still has to send, until it ends and
    drops its sender; what is to be done with the receiver; what happened. *)
Record Run := MkRun {
  r_sys : Sys bytes (MpQueue bytes);
  r_threads : gmap N (list (N * bytes));
  r_main : list RCmd;
  r_log : list Event;
}.
#[global] Instance Run_eq_dec : EqDecision Run.
Proof. solve_decision. Defined.

(** The histories of the channel are not kept. *)
Definition forget (s : Sys bytes (MpQueue bytes)) : Sys bytes (MpQueue bytes) :=
  MkSys (chan s) (threads s) (rphase s) [] [] [].

(** The steps of a thread: in [send], another pass of its loop or a spurious
    wakeup; before it, the call; after the last, the end of the thread. *)
Definition thread_steps (i : N) (l : list (N * bytes)) (r : Run) : list Run :=
  let to (x : option (Ev bytes * Sys bytes (MpQueue bytes))) (k : Ev bytes → list Event) (ts : gmap N _) :=
    match x with
    | Some (e, s) => [MkRun (forget s) ts (r_main r) (r_log r ++ k e)]
    | None => []
    end in
  let done (e : Ev bytes) :=
    match e with
    | EvSent _ _ _ => [SendDone i false false]
    | EvSendErr _ => [SendDone i true (bool_decide (mp_items (inner (chan (r_sys r))) = []))]
    | _ => []
    end in
  match threads (r_sys r) !! i, l with
  | Some _, _ =>
      to (exec (DoSend i) (r_sys r)) done (r_threads r)
      ++ to (exec (DoWake i) (r_sys r)) (λ _, []) (r_threads r)
  | None, (idx, v) :: l => to (exec (DoCall i idx v) (r_sys r)) (λ _, []) (<[i := l]> (r_threads r))
  | None, [] => to (exec DoSenderDrop (r_sys r)) (λ _, []) (delete i (r_threads r))
  end.

(** The steps of the test function itself. *)
Definition main_steps (r : Run) : list Run :=
  let to (c : Cmd bytes) (main : list RCmd) (k : Ev bytes → list Event) :=
    match exec c (r_sys r) with
    | Some (e, s) => [MkRun (forget s) (r_threads r) main (r_log r ++ k e)]
    | None => []
    end in
  match r_main r with
  | [] => []
  | Recv :: l =>
      match rphase (r_sys r) with
      | RIdle => to DoEnter (r_main r) (λ _, [])
      | RAwait =>
          match exec DoPoll (r_sys r) with
          | Some (EvNone, _) => to DoPoll l (λ _, [Received None])
          | _ => to DoPoll (r_main r) (λ _, [])
          end
      | RGot v => to DoExit l (λ _, [Received (Some v)])
      end
  | RecvCancelled :: l =>
      match rphase (r_sys r) with
      | RIdle => to DoEnter (r_main r) (λ _, [])
      | _ => to DoCancel l (λ _, [])
      end
  | DropRx :: l => to DoRecvClose l (λ _, [])
  | DropTx :: l => to DoSenderDrop l (λ _, [])
  end.

Definition steps (r : Run) : list Run :=
  (map_to_list (r_threads r) ≫= λ x, thread_steps x.1 x.2 r) ++ main_steps r.

(** A test: how many clones of the sender it makes, the threads and what they
    send, what the test does meanwhile. *)
Definition test_start (clones : nat) (ts : list (list (N * bytes))) (main : list RCmd) : Run :=
  MkRun (start clones) (list_to_map (imap (λ i l, (N.of_nat i, l)) ts)) main [].

Definition over (r : Run) : bool :=
  bool_decide (r_threads r = ∅) && bool_decide (r_main r = []).

(** The assertion on what has happened holds, the test being over or not, and
    it is over when nothing can happen any more. *)
Definition test_ok (assertion : bool → list Event → bool) (r : Run) : bool :=
  assertion (over r) (r_log r) && (negb (bool_decide (steps r = [])) || over r).

Definition received (l : list Event) : list (option bytes) :=
  omap (λ e, match e with Received v => Some v | _ => None end) l.
Definition sends (l : list Event) : list (bool * bool) :=
  omap (λ e, match e with SendDone _ b f => Some (b, f) | _ => None end) l.

(** All of [vs] in order: so far, or at the end. *)
Definition receives (vs : list (option bytes)) (is_over : bool) (l : list Event) : bool :=
  if is_over then bool_decide (received l = vs)
  else bool_decide (received l = take (length (received l)) vs).

(** A test passes: in every state of every run. *)
Definition always_passes (start : Run) (assertion : bool → list Event → bool) : Prop :=
  ∀ r, rtc (can_step steps) start r → test_ok assertion r = true.

(** ** The tests *)

Definition ordered_start : Run :=
  test_start 3 [[(2, str "third")]; [(1, str "second")]; [(0, str "first"); (3, str "fourth")]]
    [DropTx; Recv; Recv; Recv; Recv; Recv].
Definition ordered : Prop :=
  always_passes ordered_start (receives [Some (str "first"); Some (str "second"); Some (str "third");
    Some (str "fourth"); None]).

(** The send fails, with the channel empty. *)
Definition dropping_rx_start : Run := test_start 0 [[(10, str "")]] [DropRx].
Definition dropping_rx : Prop :=
  always_passes dropping_rx_start
    (λ is_over l, negb is_over || bool_decide (sends l = [(true, true)])).

Definition cancel_safe_start : Run :=
  test_start 0 [[(0, str "first"); (1, str "second")]] [RecvCancelled; Recv; Recv; Recv].
Definition cancel_safe : Prop :=
  always_passes cancel_safe_start (receives [Some (str "first"); Some (str "second"); None]).

(** The first [recv] gets a value, the first [send] is no error, and the thread
    can be joined. *)
Definition no_deadlock_if_recv_canceled_start : Run :=
  test_start 0 [[(0, str "first"); (1, str "second")]] [Recv; RecvCancelled; DropRx].
Definition no_deadlock_if_recv_canceled : Prop :=
  always_passes no_deadlock_if_recv_canceled_start (λ is_over l,
    bool_decide (Forall is_Some (received l))
    && bool_decide (fst <$> head (sends l) ≠ Some true)
    && (negb is_over || bool_decide (length (received l) = 1%nat))).

(** The search finds all states of a test and checks them. *)
Lemma search_passes fuel start assertion :
  forallb (test_ok assertion) <$> explore steps fuel [start] [] = Some true →
  always_passes start assertion.
Proof. intros E r. by apply (explore_sound steps fuel). Qed.

Lemma ordered_passes : ordered.
Proof. apply (search_passes 2000). vm_compute. reflexivity. Qed.
Lemma dropping_rx_passes : dropping_rx.
Proof. apply (search_passes 2000). vm_compute. reflexivity. Qed.
Lemma cancel_safe_passes : cancel_safe.
Proof. apply (search_passes 2000). vm_compute. reflexivity. Qed.
Lemma no_deadlock_if_recv_canceled_passes : no_deadlock_if_recv_canceled.
Proof. apply (search_passes 2000). vm_compute. reflexivity. Qed.

(** ** Loans *)

Section loans.

(** A store of channels in which nothing was loaned, for values of any type. *)
Context {T : Type} `{!Inhabited T, !EqDecision T}.
Definition no_loans : OsStore T := MkOsStore 0 ∅.

Definition reclaimed (p : Poll T * OsStore T) : option T :=
  match p.1 with Ready v => Some v | Pending => None end.

(** [loan(v)], mutated by [f] through the loan, dropped: what the thread that
    blocks in [blocking_reclaim] gets; before the drop it gets nothing. *)
Definition loan_dropped (v : T) (f : T → T) : option T :=
  let '(l, r, o) := loan v no_loans in
  match reclaimed (blocking_reclaim r o) with
  | Some _ => None
  | None =>
      '(_, o) ← drop_loan (deref_mut f l) o;
      reclaimed (blocking_reclaim r o)
  end.

Definition loan_drop_gives (v : T) (f : T → T) (expected : T) : Test :=
  value ← loan_dropped v f;
  assert_eq value expected.
End loans.

Definition nums : list N → bytes := fmap byte_of.
Definition push (n : N) (l : bytes) : bytes := l ++ [byte_of n].

Definition loan_deref_gives_access_to_value : Test :=
  let '(l, _, _) := loan (nums [1; 2; 3]) no_loans in
  assert_eq (deref l) (nums [1; 2; 3]).

Definition loan_deref_mut_allows_mutation : Test :=
  let '(l, _, _) := loan (nums [1; 2; 3]) no_loans in
  assert_eq (deref (deref_mut (push 4) l)) (nums [1; 2; 3; 4]).

Definition loan_drop_sends_value_back_to_reclaimer : Test :=
  loan_drop_gives (nums [10; 20]) id (nums [10; 20]).
Definition loan_drop_sends_mutated_value_back : Test :=
  loan_drop_gives (nums [1]) (push 3 ∘ push 2) (nums [1; 2; 3]).
Definition loan_drop_returns_default_after_mem_take : Test :=
  loan_drop_gives (str "hello") id (str "hello").

(** The loan is looked at and dropped by another thread, and reclaimed once that
    has ended. *)
Definition loan_across_threads (buffer : bytes) (look : bytes → bool) : Test :=
  let '(l, r, o) := loan buffer no_loans in
  assert (look (deref l));;
  '(_, o) ← drop_loan l o;
  value ← reclaimed (blocking_reclaim r o);
  assert (look value).

Definition loan_reclaim_across_threads : Test :=
  loan_across_threads (replicate 1024 (byte_of 0)) (λ b, (length b =? 1024)%nat).
Definition loan_reclaim_preserves_mutations_across_threads : Test :=
  loan_across_threads (replicate 4 (byte_of 0)) (λ b, bool_decide (b = nums [0; 0; 0; 0])).

Definition loan_tests : list Test :=
  [loan_deref_gives_access_to_value; loan_deref_mut_allows_mutation;
   loan_drop_sends_value_back_to_reclaimer; loan_drop_sends_mutated_value_back;
   loan_drop_returns_default_after_mem_take; loan_reclaim_across_threads;
   loan_reclaim_preserves_mutations_across_threads].

Lemma loan_tests_pass : Forall passes loan_tests.
Proof. repeat (constructor; [vm_compute; reflexivity|]). constructor. Qed.
