(* ===== verification/HashTests.v ===== *)
(** The tests of src/src/hash_file.rs (lines 174-277) and of src/src/utils.rs
    (lines 20-53), on the model: with the digests of Digests.v, the pipeline of
    two workers under the scheduler of Diligent.v, and, where it does not depend
    on the schedule, under any. *)

From stdpp Require Import base option list numbers gmap strings.
From Stdlib Require Import NArith Lia.
From Stdlib.Strings Require String.
From S2P Require Import Prelude AsyncIO Text Loan OrderedChannel HashFile Digests.
From S2P Require Import Pipeline PipelineInv HashStream Hasher Diligent Testing.
#[local] Open Scope N_scope.
#[local] Existing Instance digests.

(** ** Streams of 2 workers *)

Abbreviation Hashes := (Diligent (MpQueue Val) (OsStore bytes) (option WorkerError * bool)).

(** [hash_file(path, 10, 2, ..)] on a file with this content; the workers get
    these turns before they run freely. *)
Definition start_hashing (content : bytes) (turns : list (list N)) : Hashes :=
  MkDiligent (hash_file 10 2 content (MkOsStore 0 ∅)) turns.

Section tests.
Context (size : N) (algorithm : HashAlgorithm).
#[local] Instance stream : Hasher Hashes := diligent_hasher size 10 2 algorithm.
#[local] Abbreviation px := (pexec size 10 2 algorithm).

(** [hasher.recv().await]: polled until it is ready. *)
Fixpoint recv (polls : nat) (d : Hashes) : option (Result (option Val) * Hashes) :=
  match h_poll d with
  | (Ready r, d') => Some (r, d')
  | (Pending, d') => match polls with O => None | S polls => recv polls d' end
  end.

(** [hasher.recv().await.unwrap().unwrap()] *)
Definition recv_block (d : Hashes) : option (Val * Hashes) :=
  '(r, d) ← recv 20 d; o ← unwrap r; v ← o; Some (v, d).

(** The blocks with these hashes, each dropped after it was looked at, then the
    end. *)
Fixpoint expect_hashes (idx : N) (hashes : list bytes) (d : Hashes) : Test :=
  match hashes with
  | [] => '(r, _) ← recv 20 d; o ← unwrap r; assert (bool_decide (fst <$> o = None))
  | expected_hash :: hashes =>
      '(v, d) ← recv_block d;
      assert_eq v.1 idx;;
      assert_eq (hash v.2) expected_hash;;
      expect_hashes (idx + 1) hashes (h_release (data v.2) d)
  end.

(** The stream is dropped: its receiver is closed, then each worker joined, for
    which they have time to go on. *)
Definition drop_stream (d : Hashes) : Test :=
  p ← px CHsDrop (di_pipe d);
  _ ← px CJoined (work_all size 10 2 algorithm p);
  Some ().

(** The file has another content. *)
Definition truncate_file (content : bytes) (d : Hashes) : option Hashes :=
  p ← px (CEnv content) (di_pipe d); Some (MkDiligent p (di_turns d)).
End tests.

(** ** The tests of [hash_file] *)

(** test/file_to_hash.txt *)
Definition newline : bytes := [byte_of 10].
Definition file_to_hash : bytes :=
  str "This text file is used" ++ newline ++ str "to test the `hash_file` function."
  ++ newline ++ newline ++ newline.

Definition expected_hashes : list bytes :=
  [str "87569f2a32a30008939dbce402476f9e"; str "4bb90b25dbd367acfb66910764a60669";
   str "2ae5379d67740e8bb6ce27404873efa5"; str "330880debc47896dacf1b11aa46ada4a";
   str "a80a682a9206c851a4dd9d809a20e4c5"; str "590f3733f7c58433d9077904b0f1a6ee"].

Definition hashes (turns : list (list N)) : Test :=
  expect_hashes (lenN file_to_hash) MD5 0 expected_hashes (start_hashing file_to_hash turns).

Definition dropped (turns : list (list N)) : Test :=
  let size := lenN file_to_hash in
  '(v, d) ← recv_block size CRC32 (start_hashing file_to_hash turns);
  let d := h_release (Hasher := stream size CRC32) (data v.2) d in
  drop_stream size CRC32 (MkDiligent (work_all size 10 2 CRC32 (di_pipe d)) []).

Definition no_deadlock_on_worker_io_error (turns : list (list N)) : Test :=
  '(block0, d) ← recv_block 100 CRC32 (start_hashing (replicate 100 (byte_of 171)) turns);
  '(v, d) ← recv_block 100 CRC32 d;
  let d := h_release (Hasher := stream 100 CRC32) (data v.2) d in
  d ← truncate_file 100 CRC32 [] d;
  let d := h_release (Hasher := stream 100 CRC32) (data block0.2) d in
  '(result, _) ← recv 100 CRC32 20 d;
  Some ().

Definition some_turns : list (list (list N)) := [[]; [[0; 0]; []; [1]]; [[1; 1; 1]; [0]]].

Lemma hash_tests_pass :
  Forall (λ turns, passes (hashes turns) ∧ passes (dropped turns)
    ∧ passes (no_deadlock_on_worker_io_error turns)) some_turns.
Proof. repeat (constructor; [split_and!; vm_compute; reflexivity|]). constructor. Qed.

(** The test [hashes] under any schedule of the workers: the blocks that are
    received are those the test expects. *)
Lemma hashes_any_schedule (p : Pipe (MpQueue Val) (OsStore bytes) (option WorkerError * bool)) n v :
  preach (lenN file_to_hash) 10 2 MD5 file_to_hash (MkOsStore 0 ∅) p → p_hist p = [file_to_hash] →
  p_recvd p !! n = Some v → v.1 = N.of_nat n ∧ expected_hashes !! n = Some (hash v.2).
Proof.
  intros Hp Hh Hn. assert (sane (lenN file_to_hash) 10 2) as Hs by (split_and!; by vm_compute).
  pose proof (recvd_ok Hs p n v (preach_inv Hs _ _ _ Hp) Hn) as [(H1 & H2 & f & Hf & H3 & _) Hlt].
  rewrite Hh in Hf. apply list_elem_of_singleton in Hf as ->. cbn [fst snd] in *.
  split; [done|]. rewrite H2, H3. change (num_blocks (lenN file_to_hash) 10) with 6 in Hlt.
  destruct n as [|[|[|[|[|[|n]]]]]]; [by vm_compute..|lia].
Qed.

(** What the test [dropped] relies on: while no block is asked for the buffer of
    the channel is empty. *)
Lemma dropped_buffer_empty {Q O Wt} `{!Mpsc Val Q, !MpscLaws Val Q, !Oneshot bytes O, !OneshotLaws bytes O}
    `{!Watch (option WorkerError) Wt, !WatchLaws (option WorkerError) Wt} size bsz workers a
    file (o : O) (p : Pipe Q O Wt) :
  sane size bsz workers → preach size bsz workers a file o p → asked p = false → items (p_chan p) = [].
Proof.
  intros Hs Hp Ha. destruct (preach_inv Hs _ _ _ Hp) as [Hb _ _ _].
  destruct (base_chan_inv Hs p Hb) as [_ Hi]. pose proof (di_phase _ Hi) as Hph.
  pose proof (sent_length_items _ Hi) as Hl. unfold phase_inv in Hph. unfold asked in Ha. rewrite Ha in Hph.
  apply nil_length_inv. destruct (wanted_idx _); [destruct Hph as (_ & H1 & H2)|destruct Hph as (_ & _ & H2)];
    unfold items; lia.
Qed.

(** ** The tests of [absolute_path] *)

(** [path_clean], as its documentation says: slashes reduced to one, [.] and
    inner [..] eliminated, [..] at the root too. *)
Fixpoint components (path acc : bytes) : list bytes :=
  match path with
  | [] => [acc]
  | b :: path => if bool_decide (b = slash) then acc :: components path [] else components path (acc ++ [b])
  end.
Definition clean_step (rooted : bool) (stack : list bytes) (c : bytes) : list bytes :=
  if bool_decide (c = []) || bool_decide (c = str ".") then stack
  else if bool_decide (c = str "..") then
    match stack with
    | [] => if rooted then [] else [c]
    | d :: l => if bool_decide (d = str "..") then c :: stack else l
    end
  else c :: stack.
Definition clean_path (path : bytes) : bytes :=
  let rooted := is_absolute path in
  let stack := reverse (fold_left (clean_step rooted) (components path []) []) in
  let rel := match stack with [] => [] | c :: l => c ++ concat ((λ c, slash :: c) <$> l) end in
  if rooted then slash :: rel else match rel with [] => str "." | _ => rel end.
#[local] Instance path_clean : PathClean := clean_path.
#[local] Instance path_clean_laws : PathCleanLaws.
Proof.
  intros path H. unfold clean, path_clean, clean_path. by rewrite H.
Qed.

Definition current_dir : bytes := str "/home/deltasync/work".

Definition absolute_path_gives (path expected : bytes) : Test :=
  result ← unwrap (absolute_path (Ok current_dir) path);
  assert_eq result expected.

Definition absolute_path_already_absolute : Test := absolute_path_gives (str "/usr/bin/foo") (str "/usr/bin/foo").
Definition absolute_path_cleans_dot_dot : Test :=
  absolute_path_gives (str "/usr/bin/../lib/foo") (str "/usr/lib/foo").
Definition absolute_path_cleans_dot : Test := absolute_path_gives (str "/usr/./bin/foo") (str "/usr/bin/foo").
Definition absolute_path_relative_prepends_cwd : Test :=
  result ← unwrap (absolute_path (Ok current_dir) (str "some/relative/path"));
  assert_eq result (join current_dir (str "some/relative/path"));;
  assert (is_absolute result).
Definition absolute_path_relative_with_dot_dot : Test :=
  absolute_path_gives (str "foo/../bar") (join current_dir (str "bar")).

Lemma path_tests_pass :
  Forall passes [absolute_path_already_absolute; absolute_path_cleans_dot_dot; absolute_path_cleans_dot;
    absolute_path_relative_prepends_cwd; absolute_path_relative_with_dot_dot].
Proof. repeat (constructor; [vm_compute; reflexivity|]). constructor. Qed.
